(* ===== verification/_CoqProject ===== *)
-Q . S2P
Prelude.v
Static.v
MuxConfig.v
JsonString.v
Json.v
Commands.v
Event.v
Demo.v
GoIO.v
Wire.v
Server.v
Client.v
Pair.v
Handshake.v
Fragments.v
Delivery.v
ServerV2.v
ClientV2.v
Metrics.v
MuxConn.v
PoolConfig.v
Selector.v
Scaler.v
Pool.v
PoolConc.v
ConnManager.v
Racing.v
Dialer.v
Dispatch.v
Refine.v
Listener.v
Listening.v
Upgrade.v
Streams.v
Dialing.v
Sending.v
Watcher.v
Stopping.v
Pooled.v
Shrinking.v
Lifecycle.v
