(* ===== verification/Prelude.v ===== *)
(** * RevDial: a verification development

    RevDial turns a server behind a firewall into something that can be dialed.  A
    _listener_ (the server's side, src/listener.go) connects to a _dialer_ (the client's
    side, src/dialer.go) and registers.  To dial, the dialer sends a connect command with
    a fresh identifier over the listener's control connection; the listener answers with a
    new connection (first version of the protocol) or a new yamux stream (second
    version) that binds under that identifier, and the dialer hands it to the waiting
    dial.  The package proto has the two ends of the wire protocol, connmng the round
    robin over the registered listeners, pool the multiplexed connections a listener
    keeps, mux the yamux parameters.

    ** How programs are modelled

    A method is a function [M S A]: from the receiver's state [S] to a finite tree of
    calls to the world (reads and writes of connections, yamux, channels, contexts,
    goroutines, the clock of identifiers) that ends with the new state and a result, a
    value or a Go error (file GoIO).  The tree has an executable reading against a
    scripted world, a reading as the set of its traces, and a reading as one side of two
    programs that talk over a connection under every schedule (file Pair).  A theorem
    "whatever the world answers" is about all traces.  Goroutines are separate programs;
    a method records that it starts one by the call [CGo].  A mutex held for a whole
    method makes the method one step, and is not otherwise part of the state.
    Integers have their Go widths ([wrap_s], [wrap_u]), bytes are [Byte.byte].  A panic is
    the error [RuntimePanic], or [None] for an option that panics.

    ** The files

    - Prelude: bytes, big-endian integers, widths, UTF-8, errors and results.
    - JsonString, Json: what the events go through of encoding/json, strings with their
      escapes and the scanner of texts with the compaction.
    - Static, MuxConfig, Commands, Event: proto/static.go, mux/config.go,
      proto/commands.go and the JSON form of an event.  [Externals] is the encoding of an
      application's own values, google/uuid and yamux's defaults; [ExternalsOk] the
      documented laws the round trips need; Demo an instance.
    - GoIO: programs, traces, rules ([wp], [wpM]), runs, traffic on a connection, the
      calls a program can make ([only], [keeps]).
    - Wire: proto/conn.go.  Server and Client: proto/server.go and proto/client.go, with
      the grammar of the handshake as inductive relations on the bytes of each side.
      ServerV2 and ClientV2: proto/server_v2.go and proto/client_v2.go, on the embedded
      receivers.
    - Pair and Handshake: [Register] and [Bind] against [Process], both programs together.
    - Fragments: the same when the connection cuts what is sent anywhere.
    - Upgrade: registration for every pair of versions, through the yamux session.
    - Delivery: the command goroutine against the bytes the server sent.
    - Metrics, MuxConn, PoolConfig, Selector, Scaler, Pool: the package pool, on a heap of
      connections and streams.  PoolConc: [Close] and the monitor goroutine as a
      transition system.
    - ConnManager: connmng/manager.go, against the interface [ServerConn].  Racing:
      [GetConn] in several goroutines, as a transition system.
    - Dialer: dialer.go.  Dispatch: the interleaving of dials with the connections that
      answer them, as a transition system.  Refine: that system with its steps labelled by
      who takes them and by the call of the code each is, and every run of the dialer's
      methods as a path of it with the run's own calls for labels.  Lifecycle: what always
      holds of a dialer, whatever is called.
      Watcher: a handshake next to the goroutine that closes its connection.  Stopping:
      [Stop], dials and the goroutine of a connection, with the mutexes they wait for.
    - Listener and Listening: listener.go, its operations, what the pool's factory makes,
      and what [Listen] returns for each choice of options.
    - Pooled: the dials over a listener whose pool has grown, as a transition system with
      the clients' channels.  Shrinking: a listener from [Listen] to its first scale-down.
    - Streams, Dialing and Sending: the exchanges of a dial, both programs together: the
      connect command, the connection that answers it and the stream that answers it; and
      that of an event.

    ** What is shown

    - Security: a server with an authentication function registers or binds nobody who
      did not send credentials it accepts (ServerV2.authentication_required).
    - The handshakes finish, with the outcome both sides agree on, under every schedule;
      rejected and incompatible clients end with an error, never waiting (Handshake); so
      does the upgrade to the second version and every mix of versions (Upgrade), and, for
      a registration without credentials, every way of cutting the bytes (Fragments).
    - A dialer is well formed after anything is called on it: distinct identifiers, only
      registered servers, a channel for each pending request (Lifecycle).
    - Dispatch: a dial returns only a connection bound under its identifier, no two
      connections go to one dial, delivery never blocks, finished dials leave nothing
      pending; the code refines this system, each hand-over and each select of a run being
      the step of the system with the same channel and the same connection, and what the
      code closes or keeps being closed or delivered there (Dispatch, Refine, Dialer).
    - A dial, end to end, under every schedule: the connect command reaches the listener's
      channel (Sending.connect_command_goes); the connection the listener answers with goes
      from the end of its dial to the channel of the pending request (Dialing.answer_goes),
      and so does the stream, over the second version (Streams).  That the waiting dial,
      and no other, gets what is in its channel is Dispatch.
    - Events and pings arrive in order and intact however the bytes are cut (Delivery),
      and reach their handlers in that order (Listener.Accept_runs); an event goes
      from the dialer's [SendEvent] to the handler of the listener whose turn it is, whatever
      the schedule and the cuts (Sending.event_goes).  What the client
      decodes of an event is known for every name and all data, and so are the texts it
      accepts (Event).
    - The behaviour of each operation on every branch: Process, Register, DialContext,
      handleConnection, handleV2Stream, Listen, Accept, and what they close on errors.
    - The pool: its maximum, counters and pointers are invariant under all its methods and
      under any factory that keeps the interface's contract ([factory_ok]), which the
      listener's does, adding exactly the session it registered; shrinking stops at the
      minimum, which is no bound of a pool that starts empty; selection, scaling and its
      hysteresis, the counters at their widths.
    - Defects the modelling found, each with the run that shows it: a panic of the round
      robin, turns it does not keep (Racing), a deadlock of [Pool.Close], a connection lost
      by a cancelled dial, identifiers or confirmations misread when they arrive in two
      parts (Fragments, Server, Listener), a connection closed after it was handed over
      (Watcher), a [Stop] that hangs behind a dial (Stopping), an event that is sent but
      ends the client's command goroutine (Delivery, Event.deepest_event), dials that
      nobody receives once the pool has grown (Pooled), and a pool that closes its
      listener when it shrinks (Shrinking).

    ** Bounds and fuel

    [ReadFull] loops at most once per byte asked for, since a read brings a byte or an
    error, so its fuel is its length and never runs out.  The JSON scanner's is twice the
    length of the text, and more changes nothing (Json.value_enough).  The loops that
    serve for ever (the command goroutine, [Accept], [serve], the streams of a session)
    take the number of rounds as fuel and say when it ran out; their theorems hold for
    every fuel, and Delivery shows that one round more than the messages is enough to
    reach the end.

    ** Not modelled

    - connmng/ServerConn_mock.go is generated for the tests.
    - Logging; the text of error values is kept only as the format and its integers.
    - The JSON encoding of an application's own values, which reflects on types the program
      never sees: a parameter ([Externals]) with the law that its texts are compact.
    - TLS, TCP and yamux: connections, sessions and streams are names whose operations the
      world answers.  A [Read] returns at least one byte or an error.
    - Mutexes inside methods that are one step, except where goroutines wait for one
      another or share a lock (PoolConc, Stopping, Racing); deadlines and timers: the
      monitor's ticks and the clock are arguments.
    - The exchanges of Handshake, Upgrade, Dialing and Streams assume a connection that cuts
      nothing: a [Read] takes all that is in flight.  Fragments covers cuts for a
      registration without credentials and Sending for connect commands and events, other
      plain reads are covered by lemmas, and the loops that use [ReadFull] for every cut.
      Across an upgrade the two ends of a yamux stream are paired by assumption
      ([over_yamux]).
    - A json.RawMessage is its bytes, so an empty one is not told from a nil one; an event's
      data is what json.Marshal returned, which is neither.
    - In Stopping and Pooled a dial's context ends sooner or later, or may end at any time,
      and the connections are those registered at the start. *)
From Stdlib Require Export ZArith Lia.
From Stdlib Require Export Strings.Byte.
From stdpp Require Export prelude strings gmap vector.

Declare Scope go_scope.
Delimit Scope go_scope with go.
#[global] Open Scope Z_scope.
#[global] Open Scope go_scope.

(** ** Bytes *)

Abbreviation byte := Byte.byte.

#[export] Instance byte_eq_dec : EqDecision byte := Byte.byte_eq_dec.

#[export] Instance byte_countable : Countable byte :=
  inj_countable Byte.to_N Byte.of_N Byte.of_to_N.

#[export] Instance byte_inhabited : Inhabited byte := populate x00.

(** Go's conversion of a byte to an integer, and of an integer to a byte (which
    keeps the low eight bits). *)
Definition Z_of_byte (b : byte) : Z := Z.of_N (Byte.to_N b).

Definition byte_of_Z (z : Z) : byte :=
  default x00 (Byte.of_N (Z.to_N (z mod 256))).

(** [int(b)] used as a length. *)
Definition nat_of_byte (b : byte) : nat := N.to_nat (Byte.to_N b).

(** What [make([]byte, n)] holds after a read of [d] into it: the bytes read, then
    the zeros the allocation left. *)
Definition fill (n : nat) (d : list byte) : list byte :=
  take n d ++ replicate (n - length d) x00.

(** [binary.BigEndian.PutUint16] and [PutUint32] ([k] = 2 and 4 bytes), and the
    inverse [Uint16] / [Uint32]. *)
Fixpoint put_be (k : nat) (z : Z) : list byte :=
  match k with
  | O => []
  | S k' => byte_of_Z (Z.shiftr z (8 * Z.of_nat k')) :: put_be k' z
  end.

Definition get_be (l : list byte) : Z :=
  fold_left (λ acc b, Z.lor (Z.shiftl acc 8) (Z_of_byte b)) l 0.

(** ** Fixed-width integers *)

(** Two's-complement wrap-around of a [w]-bit signed integer, and of an unsigned one. *)
Definition wrap_s (w z : Z) : Z := (z + 2 ^ (w - 1)) mod 2 ^ w - 2 ^ (w - 1).
Definition wrap_u (w z : Z) : Z := z mod 2 ^ w.

(** ** Go strings and UUIDs *)

(** A Go string is a byte sequence; [String.string] is one too. *)
Definition bytes_of_string (s : string) : list byte := String.list_byte_of_string s.
Definition string_of_bytes (l : list byte) : string := String.string_of_list_byte l.

#[global] Arguments wrap_s : simpl never.
#[global] Arguments wrap_u : simpl never.
#[global] Arguments bytes_of_string : simpl never.
#[global] Arguments string_of_bytes : simpl never.
#[global] Arguments byte_of_Z : simpl never.
#[global] Arguments Z_of_byte : simpl never.
#[global] Arguments nat_of_byte : simpl never.

(** [utf8.Valid]: the well-formed sequences of the Unicode standard (no overlong form,
    no surrogate, nothing above U+10FFFF). *)
Fixpoint utf8_Valid (l : list byte) : bool :=
  let between lo b hi := (lo <=? Z_of_byte b) && (Z_of_byte b <=? hi) in
  let cont b := between 0x80 b 0xBF in
  match l with
  | [] => true
  | b0 :: l1 =>
      if Z_of_byte b0 <? 0x80 then utf8_Valid l1
      else match l1 with
      | [] => false
      | b1 :: l2 =>
          if between 0xC2 b0 0xDF then cont b1 && utf8_Valid l2
          else match l2 with
          | [] => false
          | b2 :: l3 =>
              let second := if Z_of_byte b0 =? 0xE0 then between 0xA0 b1 0xBF
                            else if Z_of_byte b0 =? 0xED then between 0x80 b1 0x9F
                            else cont b1 in
              if between 0xE0 b0 0xEF then second && cont b2 && utf8_Valid l3
              else match l3 with
              | [] => false
              | b3 :: l4 =>
                  let second := if Z_of_byte b0 =? 0xF0 then between 0x90 b1 0xBF
                                else if Z_of_byte b0 =? 0xF4 then between 0x80 b1 0x8F
                                else cont b1 in
                  between 0xF0 b0 0xF4 && second && cont b2 && cont b3 && utf8_Valid l4
              end
          end
      end
  end.

(** [uuid.UUID] is the array type [[16]byte]; [id[:]] is the slice of it. *)
Abbreviation uuid := (vec byte 16).

(** The array of sixteen bytes. *)
Definition uuid_of_list (l : list byte) : option uuid :=
  match decide (length l = 16%nat) with
  | left H => Some (eq_rect _ (vec byte) (list_to_vec l) _ H)
  | right _ => None
  end.

Lemma uuid_of_list_to_list (i : uuid) : uuid_of_list (vec_to_list i) = Some i.
Proof.
  unfold uuid_of_list. destruct (decide _) as [H|H].
  - f_equal. apply vec_to_list_inj2. destruct H. cbn. apply vec_to_list_to_vec.
  - by rewrite length_vec_to_list in H.
Qed.

(** An instance that computes. *)
#[export] Instance uuid_countable : Countable uuid :=
  inj_countable vec_to_list uuid_of_list uuid_of_list_to_list.

(** ** Errors

    An error value is one the world returned (a connection, a session), a sentinel of
    the program, a message built by [fmt.Errorf] with its integer arguments, or a
    message wrapping another error ([%w]). *)
Inductive io_error :=
  | ioEOF
  | ioUnexpectedEOF
  | ioOther (code : Z).

#[export] Instance io_error_eq_dec : EqDecision io_error.
Proof. solve_decision. Defined.

Inductive error :=
  | IOErr (e : io_error)
  | ErrUnsupportedAuthMethod
  | ErrListenerClosed
  | ContextErr
  | RuntimePanic   (* unwinds like an early return *)
  | Errorf (msg : string) (args : list Z)
  | Wrapf (msg : string) (err : error).

#[export] Instance error_eq_dec : EqDecision error.
Proof. solve_decision. Defined.

Abbreviation EOF := (IOErr ioEOF).
Abbreviation UnexpectedEOF := (IOErr ioUnexpectedEOF).

(** [errors.Is]: equality with the target anywhere along the chain of wrapped errors. *)
Fixpoint errors_Is (e target : error) : bool :=
  if decide (e = target) then true
  else match e with
       | Wrapf _ e' => errors_Is e' target
       | _ => false
       end.

(** An error that is not about an unsupported authentication method: the one error the
    program's control flow looks for besides [io.EOF]. *)
Definition ordinary (e : error) : Prop := errors_Is e ErrUnsupportedAuthMethod = false.

(** A Go result [(v, err)] of which the caller looks at one half only. *)
Inductive result (A : Type) :=
  | Ok (a : A)
  | Err (e : error).
Arguments Ok {A} a.
Arguments Err {A} e.

#[export] Instance result_ret : MRet result := @Ok.
#[export] Instance result_bind : MBind result := λ A B f m,
  match m with Ok a => f a | Err e => Err e end.

(** [return fmt.Errorf("...: %w", err)] around a failing call. *)
Definition wrap_err {A} (msg : string) (m : result A) : result A :=
  match m with Ok a => Ok a | Err e => Err (Wrapf msg e) end.

(** A value, or an error of the world. *)
Definition of_world {A} (r : io_error + A) : result A :=
  match r with inl e => Err (IOErr e) | inr a => Ok a end.

Definition is_Ok {A} (m : result A) : bool :=
  match m with Ok _ => true | Err _ => false end.

(** ** Generic lemmas *)

Lemma Z_of_byte_range b : 0 <= Z_of_byte b < 256.
Proof. unfold Z_of_byte. pose proof (Byte.to_N_bounded b). lia. Qed.

Lemma byte_of_Z_of_byte b : byte_of_Z (Z_of_byte b) = b.
Proof.
  unfold byte_of_Z. rewrite Z.mod_small by apply Z_of_byte_range.
  unfold Z_of_byte. rewrite N2Z.id, Byte.of_to_N. done.
Qed.

Lemma Z_of_byte_of_Z z : Z_of_byte (byte_of_Z z) = z mod 256.
Proof.
  unfold byte_of_Z. pose proof (Z.mod_pos_bound z 256 ltac:(lia)) as Hz.
  destruct (Byte.of_N (Z.to_N (z mod 256))) as [b|] eqn:E; simpl.
  - unfold Z_of_byte. rewrite (Byte.to_of_N _ E). lia.
  - apply Byte.of_N_None_iff in E. lia.
Qed.

Lemma Z_of_byte_inj a b : Z_of_byte a = Z_of_byte b → a = b.
Proof. intros H. rewrite <-(byte_of_Z_of_byte a), H. apply byte_of_Z_of_byte. Qed.

Lemma nat_of_byte_Z b : Z.of_nat (nat_of_byte b) = Z_of_byte b.
Proof. unfold nat_of_byte, Z_of_byte. lia. Qed.

Lemma nat_of_byte_of_nat n : (n < 256)%nat → nat_of_byte (byte_of_Z (Z.of_nat n)) = n.
Proof.
  intros H. apply Nat2Z.inj. rewrite nat_of_byte_Z, Z_of_byte_of_Z.
  apply Z.mod_small. lia.
Qed.

Lemma length_put_be k z : length (put_be k z) = k.
Proof. induction k; simpl; auto. Qed.

Lemma lor_shiftl_byte a b : Z.lor (Z.shiftl a 8) (Z_of_byte b) = 256 * a + Z_of_byte b.
Proof.
  pose proof (Z_of_byte_range b) as Hb.
  assert (Z.land (Z.shiftl a 8) (Z_of_byte b) = 0) as H0.
  { rewrite <-(Z.mod_small (Z_of_byte b) (2 ^ 8)), <-Z.land_ones by lia.
    rewrite (Z.land_comm (Z_of_byte b)), Z.land_assoc, Z.land_ones by lia.
    rewrite Z.shiftl_mul_pow2, Z.mod_mul by lia. apply Z.land_0_l. }
  pose proof (Z.add_lor_land (Z.shiftl a 8) (Z_of_byte b)) as H.
  rewrite H0, Z.add_0_r in H. rewrite H, Z.shiftl_mul_pow2 by lia. lia.
Qed.

Lemma get_be_app l b : get_be (l ++ [b]) = 256 * get_be l + Z_of_byte b.
Proof. unfold get_be. rewrite fold_left_app. simpl. apply lor_shiftl_byte. Qed.

Lemma get_be_nonneg l : 0 <= get_be l.
Proof.
  induction l as [|b l IH] using rev_ind; [done|].
  rewrite get_be_app. pose proof (Z_of_byte_range b). lia.
Qed.

Lemma put_be_app k z : put_be (S k) z = put_be k (z / 256) ++ [byte_of_Z z].
Proof.
  induction k as [|k IH]; [simpl; by rewrite Z.shiftr_0_r|].
  change (put_be (S (S k)) z) with
    (byte_of_Z (Z.shiftr z (8 * Z.of_nat (S k))) :: put_be (S k) z).
  rewrite IH. simpl. f_equal. f_equal.
  rewrite !Z.shiftr_div_pow2 by lia.
  replace (8 * Z.of_nat (S k)) with (8 + 8 * Z.of_nat k) by lia.
  rewrite Z.pow_add_r by lia. rewrite Z.div_div by (try apply Z.pow_pos_nonneg; lia). done.
Qed.

(** Decoding what was encoded on [k] bytes gives the value modulo [256 ^ k]. *)
Lemma get_put_be k z : get_be (put_be k z) = z mod 256 ^ Z.of_nat k.
Proof.
  revert z. induction k as [|k IH]; intros z.
  - simpl. by rewrite Z.mod_1_r.
  - rewrite put_be_app, get_be_app, IH, Z_of_byte_of_Z.
    replace (Z.of_nat (S k)) with (Z.succ (Z.of_nat k)) by lia.
    rewrite Z.pow_succ_r by lia.
    rewrite Z.rem_mul_r by (try apply Z.pow_nonzero; lia). lia.
Qed.

Lemma get_put_be_small k z :
  0 <= z < 256 ^ Z.of_nat k → get_be (put_be k z) = z.
Proof. intros H. rewrite get_put_be. by apply Z.mod_small. Qed.

Lemma length_fill n d : length (fill n d) = n.
Proof. unfold fill. rewrite length_app, length_take, length_replicate. lia. Qed.

Lemma fill_exact d : fill (length d) d = d.
Proof. unfold fill. by rewrite Nat.sub_diag, app_nil_r, firstn_all. Qed.

Lemma string_bytes s : string_of_bytes (bytes_of_string s) = s.
Proof. apply String.string_of_list_byte_of_string. Qed.

Lemma errors_Is_refl e : errors_Is e e = true.
Proof. destruct e; simpl; try case_decide; done. Qed.

Lemma errors_Is_wrap msg e t :
  errors_Is e t = true → errors_Is (Wrapf msg e) t = true.
Proof. simpl. intros ->. by case_decide. Qed.

Lemma ordinary_wrap msg e : ordinary e → ordinary (Wrapf msg e).
Proof. done. Qed.

Lemma ordinary_io e : ordinary (IOErr e).
Proof. done. Qed.

Lemma ordinary_msg msg args : ordinary (Errorf msg args).
Proof. done. Qed.

#[export] Hint Resolve ordinary_wrap ordinary_io ordinary_msg : core.

Lemma wrap_s_range w z : 0 < w → - 2 ^ (w - 1) <= wrap_s w z < 2 ^ (w - 1).
Proof.
  intros Hw. unfold wrap_s.
  assert (2 ^ w = 2 * 2 ^ (w - 1)) as E.
  { rewrite <-Z.pow_succ_r by lia. f_equal. lia. }
  pose proof (Z.mod_pos_bound (z + 2 ^ (w - 1)) (2 ^ w)) as H.
  assert (0 < 2 ^ (w - 1)) by (apply Z.pow_pos_nonneg; lia). lia.
Qed.

Lemma wrap_s_id w z : 0 < w → - 2 ^ (w - 1) <= z < 2 ^ (w - 1) → wrap_s w z = z.
Proof.
  intros Hw Hz. unfold wrap_s.
  assert (2 ^ w = 2 * 2 ^ (w - 1)) as E.
  { rewrite <-Z.pow_succ_r by lia. f_equal. lia. }
  rewrite Z.mod_small; lia.
Qed.
