(* ===== verification/Static.v ===== *)
(** * proto/static.go and the state constants of proto/server.go, proto/client.go

    The protocol's one-byte constants, the exported accessors the other packages use,
    and the two enumerations of connection states. *)
From S2P Require Import Prelude.

(** proto/static.go *)
Definition versionV1 : byte := x01.
Definition versionV2 : byte := x02.

Definition noAuth : byte := x00.
Definition userPassAuth : byte := x02.
Definition noAcceptableAuthMethod : byte := xff.

Definition cmdRegister : byte := x01.
Definition cmdConnect : byte := x02.
Definition cmdBind : byte := x03.
Definition cmdPing : byte := x04.
Definition cmdCustomEvent : byte := x05.
Definition cmdMuxInit : byte := x0a.
Definition cmdMuxReady : byte := x0b.

Definition resSuccess : byte := x00.
Definition resFailure : byte := x01.

Definition VersionV1 : byte := versionV1.
Definition VersionV2 : byte := versionV2.
Definition CmdBind : byte := cmdBind.
Definition ResSuccess : byte := resSuccess.

(** [State] of proto/server.go: an [int32] with five named values. *)
Inductive State :=
  | StateConnected
  | StateProcessing
  | StateRegistered
  | StateBound
  | StateDisconnected.

(** The number the error messages print for a state ([%d]). *)
Definition State_to_Z (s : State) : Z :=
  match s with
  | StateConnected => 0
  | StateProcessing => 1
  | StateRegistered => 2
  | StateBound => 3
  | StateDisconnected => 4
  end.

(** [clientState] of proto/client.go, numbered by [iota]. *)
Inductive clientState :=
  | connected
  | processing
  | registered
  | bound
  | disconnected.

Definition clientState_to_Z (s : clientState) : Z :=
  match s with
  | connected => 0
  | processing => 1
  | registered => 2
  | bound => 3
  | disconnected => 4
  end.

#[export] Instance State_eq_dec : EqDecision State.
Proof. solve_decision. Defined.

#[export] Instance clientState_eq_dec : EqDecision clientState.
Proof. solve_decision. Defined.
