(* ===== verification/MuxConfig.v ===== *)
(** * mux/config.go: the multiplexing parameters

    [Config] with its default and validation, and the conversion to the configuration
    of the yamux library.  Of yamux's own record the three fields the source assigns
    are named; the others are a map the conversion leaves as the library's
    [DefaultConfig] returned them. *)
From S2P Require Import Prelude.

(** [time.Duration] counts nanoseconds in an [int64]. *)
Definition Millisecond : Z := 1000000.
Definition Second : Z := 1000 * Millisecond.

Module Mux.

Record Config := mkConfig {
  MaxStreams : Z;
  StreamWindowSize : Z;
  ConnectionWindowSize : Z;
  KeepAliveInterval : Z;
  KeepAliveTimeout : Z
}.

(** The fields' widths: three [uint32] and two durations. *)
Definition config_wf (c : Config) : Prop :=
  0 <= MaxStreams c < 2 ^ 32 ∧
  0 <= StreamWindowSize c < 2 ^ 32 ∧
  0 <= ConnectionWindowSize c < 2 ^ 32.

Definition DefaultConfig : Config := {|
  MaxStreams := 1024;
  StreamWindowSize := 256 * 1024;
  ConnectionWindowSize := 1024 * 1024;
  KeepAliveInterval := 30 * Second;
  KeepAliveTimeout := 60 * Second
|}.

Record yamux_Config := mkYamux {
  y_MaxStreamWindowSize : Z;
  y_KeepAliveInterval : Z;
  y_ConnectionWriteTimeout : Z;
  y_other : gmap string Z
}.

(** [yamux_default] is what the library's [yamux.DefaultConfig()] returns. *)
Definition ToYamux (yamux_default : yamux_Config) (c : Config) : yamux_Config := {|
  y_MaxStreamWindowSize := StreamWindowSize c;
  y_KeepAliveInterval := KeepAliveInterval c;
  y_ConnectionWriteTimeout := KeepAliveTimeout c;
  y_other := y_other yamux_default
|}.

(** [if c.F == 0 { c.F = DefaultConfig().F }] *)
Definition or_default (v d : Z) : Z := if decide (v = 0) then d else v.

(** [Validate] updates the receiver in place and never fails. *)
Definition Validate (c : Config) : Config := {|
  MaxStreams := or_default (MaxStreams c) (MaxStreams DefaultConfig);
  StreamWindowSize := or_default (StreamWindowSize c) (StreamWindowSize DefaultConfig);
  ConnectionWindowSize :=
    or_default (ConnectionWindowSize c) (ConnectionWindowSize DefaultConfig);
  KeepAliveInterval := or_default (KeepAliveInterval c) (KeepAliveInterval DefaultConfig);
  KeepAliveTimeout := or_default (KeepAliveTimeout c) (KeepAliveTimeout DefaultConfig)
|}.

Lemma or_default_idem v d : or_default (or_default v d) d = or_default v d.
Proof. unfold or_default. repeat case_decide; congruence. Qed.

Lemma or_default_nonzero v d : d ≠ 0 → or_default v d ≠ 0.
Proof. unfold or_default. case_decide; done. Qed.

Lemma or_default_keep v d : v ≠ 0 → or_default v d = v.
Proof. unfold or_default. by case_decide. Qed.

End Mux.
