(* ===== verification/JsonString.v ===== *)
(** * encoding/json: strings

    What [json.Marshal] writes for a Go string and what [json.Unmarshal] reads back:
    the escapes, UTF-8, and the replacement character (U+FFFD) for what is neither.  The
    source calls the standard library for this; the definitions follow it (encode.go
    [appendString] with its HTML escapes, decode.go [unquote], scanner.go's string
    states). *)
From S2P Require Import Prelude.

(** ** Runes

    [utf8.DecodeRune] along a byte sequence: the bytes of a well-formed rune, or one byte
    that starts none. *)
Inductive seg :=
  | Good (bs : list byte)
  | Bad (b : byte).

Fixpoint segs (l : list byte) : list seg :=
  let between lo b hi := (lo <=? Z_of_byte b) && (Z_of_byte b <=? hi) in
  let cont b := between 0x80 b 0xBF in
  match l with
  | [] => []
  | b0 :: l1 =>
      if Z_of_byte b0 <? 0x80 then Good [b0] :: segs l1
      else match l1 with
      | [] => [Bad b0]
      | b1 :: l2 =>
          if between 0xC2 b0 0xDF && cont b1 then Good [b0; b1] :: segs l2
          else match l2 with
          | [] => Bad b0 :: segs l1
          | b2 :: l3 =>
              let second := if Z_of_byte b0 =? 0xE0 then between 0xA0 b1 0xBF
                            else if Z_of_byte b0 =? 0xED then between 0x80 b1 0x9F
                            else cont b1 in
              if between 0xE0 b0 0xEF && second && cont b2
              then Good [b0; b1; b2] :: segs l3
              else match l3 with
              | [] => Bad b0 :: segs l1
              | b3 :: l4 =>
                  let second := if Z_of_byte b0 =? 0xF0 then between 0x90 b1 0xBF
                                else if Z_of_byte b0 =? 0xF4 then between 0x80 b1 0x8F
                                else cont b1 in
                  if between 0xF0 b0 0xF4 && second && cont b2 && cont b3
                  then Good [b0; b1; b2; b3] :: segs l4
                  else Bad b0 :: segs l1
              end
          end
      end
  end.

(** The UTF-8 encoding of U+FFFD. *)
Definition replacement : list byte := [xef; xbf; xbd].

(** A string with replacement characters for the bytes that are not UTF-8
    ([strings.ToValidUTF8] byte by byte). *)
Definition sanitize_seg (s : seg) : list byte :=
  match s with Good bs => bs | Bad _ => replacement end.

Definition sanitize (l : list byte) : list byte := segs l ≫= sanitize_seg.

(** ** Writing a string *)

Definition hex_digit (z : Z) : byte :=
  nth (Z.to_nat z) (bytes_of_string "0123456789abcdef") x30.

Definition u_escape (z : Z) : list byte :=
  [x5c; x75; hex_digit (z / 4096 mod 16); hex_digit (z / 256 mod 16);
   hex_digit (z / 16 mod 16); hex_digit (z mod 16)].

(** The characters [htmlSafeSet] leaves out. *)
Definition unsafe (b : byte) : bool :=
  (Z_of_byte b <? 0x20) || bool_decide (b ∈ [x22; x5c; x3c; x3e; x26]).

Definition escape_byte (b : byte) : list byte :=
  if decide (b = x22 ∨ b = x5c) then [x5c; b]
  else if decide (b = x08) then [x5c; x62]
  else if decide (b = x0c) then [x5c; x66]
  else if decide (b = x0a) then [x5c; x6e]
  else if decide (b = x0d) then [x5c; x72]
  else if decide (b = x09) then [x5c; x74]
  else u_escape (Z_of_byte b).

Definition encode_seg (s : seg) : list byte :=
  match s with
  | Bad _ => u_escape 0xfffd
  | Good bs =>
      if decide (bs = [xe2; x80; xa8]) then u_escape 0x2028
      else if decide (bs = [xe2; x80; xa9]) then u_escape 0x2029
      else match bs with
           | [b] => if unsafe b then escape_byte b else [b]
           | _ => bs
           end
  end.

(** What stands between the quotes. *)
Definition encode_body (l : list byte) : list byte := segs l ≫= encode_seg.

Definition quoted (body : list byte) : list byte := x22 :: body ++ [x22].

(** ** Reading a string

    The scanner finds the closing quote and checks the escapes. *)
Definition hex_value (b : byte) : option Z :=
  let z := Z_of_byte b in
  if (0x30 <=? z) && (z <=? 0x39) then Some (z - 0x30)
  else if (0x61 <=? z) && (z <=? 0x66) then Some (z - 0x61 + 10)
  else if (0x41 <=? z) && (z <=? 0x46) then Some (z - 0x41 + 10)
  else None.

Definition is_hex (b : byte) : bool := bool_decide (is_Some (hex_value b)).

(** The bytes that can follow a backslash, other than [u]. *)
Definition escape_chars : list byte := bytes_of_string "bfnrt\/" ++ [x22].

(** From behind the opening quote: the body and what follows the closing quote. *)
Fixpoint scan_str (l : list byte) : option (list byte * list byte) :=
  match l with
  | [] => None
  | b :: l1 =>
      if decide (b = x22) then Some ([], l1)
      else if decide (b = x5c) then
        match l1 with
        | [] => None
        | c :: l2 =>
            if decide (c ∈ escape_chars) then
              '(s, r) ← scan_str l2; Some (b :: c :: s, r)
            else if decide (c = x75) then
              match l2 with
              | h1 :: h2 :: h3 :: h4 :: l6 =>
                  if is_hex h1 && is_hex h2 && is_hex h3 && is_hex h4 then
                    '(s, r) ← scan_str l6; Some (b :: c :: h1 :: h2 :: h3 :: h4 :: s, r)
                  else None
              | _ => None
              end
            else None
        end
      else if Z_of_byte b <? 0x20 then None
      else '(s, r) ← scan_str l1; Some (b :: s, r)
  end.

(** [utf8.AppendRune]. *)
Definition encode_rune (r : Z) : list byte :=
  if r <? 0x80 then [byte_of_Z r]
  else if r <? 0x800 then [byte_of_Z (0xC0 + r / 64); byte_of_Z (0x80 + r mod 64)]
  else if (0xD800 <=? r) && (r <? 0xE000) || (0x10FFFF <? r) then replacement
  else if r <? 0x10000 then
    [byte_of_Z (0xE0 + r / 4096); byte_of_Z (0x80 + r / 64 mod 64); byte_of_Z (0x80 + r mod 64)]
  else [byte_of_Z (0xF0 + r / 262144); byte_of_Z (0x80 + r / 4096 mod 64);
        byte_of_Z (0x80 + r / 64 mod 64); byte_of_Z (0x80 + r mod 64)].

Definition ascii (s : seg) : option byte :=
  match s with Good [b] => Some b | _ => None end.

(** [getu4]: the value of six characters [\uXXXX]. *)
Definition getu4 (b u h1 h2 h3 h4 : seg) : option Z :=
  b ← ascii b; u ← ascii u;
  if decide (b = x5c ∧ u = x75) then
    z1 ← ascii h1 ≫= hex_value; z2 ← ascii h2 ≫= hex_value;
    z3 ← ascii h3 ≫= hex_value; z4 ← ascii h4 ≫= hex_value;
    Some (((z1 * 16 + z2) * 16 + z3) * 16 + z4)
  else None.

(** [utf16.DecodeRune] of a surrogate and what follows it. *)
Definition surrogates (hi : Z) (lo : option Z) : option Z :=
  z ← lo;
  if (0xD800 <=? hi) && (hi <? 0xDC00) && (0xDC00 <=? z) && (z <? 0xE000)
  then Some ((hi - 0xD800) * 1024 + (z - 0xDC00) + 0x10000) else None.

(** What an escape other than [\u] stands for. *)
Definition unescape (c : byte) : option byte :=
  if decide (c ∈ [x22; x5c; x2f; x27]) then Some c
  else if decide (c = x62) then Some x08
  else if decide (c = x66) then Some x0c
  else if decide (c = x6e) then Some x0a
  else if decide (c = x72) then Some x0d
  else if decide (c = x74) then Some x09
  else None.

(** [unquote], on the runes of a body. *)
Fixpoint unquote_segs (l : list seg) : option (list byte) :=
  match l with
  | [] => Some []
  | Bad _ :: l1 => app replacement <$> unquote_segs l1
  | Good bs :: l1 =>
      if decide (bs = [x5c]) then
        match l1 with
        | Good [c] :: l2 =>
            if decide (c = x75) then
              match l2 with
              | h1 :: h2 :: h3 :: h4 :: l6 =>
                  match getu4 (Good bs) (Good [c]) h1 h2 h3 h4 with
                  | None => None
                  | Some r =>
                      if (0xD800 <=? r) && (r <? 0xE000) then
                        match l6 with
                        | e :: u :: g1 :: g2 :: g3 :: g4 :: l12 =>
                            match surrogates r (getu4 e u g1 g2 g3 g4) with
                            | Some z => app (encode_rune z) <$> unquote_segs l12
                            | None => app replacement <$> unquote_segs l6
                            end
                        | _ => app replacement <$> unquote_segs l6
                        end
                      else app (encode_rune r) <$> unquote_segs l6
                  end
              | _ => None
              end
            else match unescape c with
                 | Some b => cons b <$> unquote_segs l2
                 | None => None
                 end
        | _ => None
        end
      else match ascii (Good bs) with
           | Some b => if decide (b = x22) then None
                       else if Z_of_byte b <? 0x20 then None
                       else cons b <$> unquote_segs l1
           | None => app bs <$> unquote_segs l1
           end
  end.

Definition unquote (body : list byte) : option (list byte) := unquote_segs (segs body).

(** ** Compacting a string

    The HTML escapes [appendCompact] writes inside the strings of a text it copies. *)
Fixpoint escape_html (l : list byte) : list byte :=
  match l with
  | [] => []
  | b :: l1 =>
      if decide (b ∈ [x3c; x3e; x26]) then u_escape (Z_of_byte b) ++ escape_html l1
      else match l1 with
           | b1 :: b2 :: l3 =>
               if decide (b = xe2 ∧ b1 = x80 ∧ (b2 = xa8 ∨ b2 = xa9))
               then u_escape (0x2020 + Z.land (Z_of_byte b2) 0xF) ++ escape_html l3
               else b :: escape_html l1
           | _ => b :: escape_html l1
           end
  end.

(** ** Runes and the induction over them *)

#[global] Arguments unsafe : simpl never.
#[global] Arguments escape_byte : simpl never.
#[global] Arguments u_escape : simpl never.
#[global] Arguments escape_chars : simpl never.
#[global] Arguments is_hex : simpl never.
#[global] Arguments getu4 : simpl never.
#[global] Arguments unescape : simpl never.

(** A well-formed rune: one ASCII byte, or several bytes above ASCII. *)
Record rune (bs : list byte) : Prop := {
  rune_segs : ∀ rest, segs (bs ++ rest) = Good bs :: segs rest;
  rune_valid : ∀ rest, utf8_Valid (bs ++ rest) = utf8_Valid rest;
  rune_shape : (∃ b, bs = [b] ∧ Z_of_byte b < 0x80) ∨
    ((2 <= length bs)%nat ∧ Forall (λ b, 0x80 <= Z_of_byte b) bs)
}.

Lemma ascii_rune b : Z_of_byte b < 0x80 → rune [b].
Proof.
  intros H. assert ((Z_of_byte b <? 0x80) = true) as Hb by lia. split; [| |left; eauto];
  intros rest; cbn [segs utf8_Valid app]; by rewrite Hb.
Qed.

(** The first step of [segs]: a rune, or a byte that starts none. *)
Definition seg_step (l : list byte) : Prop :=
  (∃ bs rest, rune bs ∧ l = bs ++ rest) ∨
  (∃ b rest, l = b :: rest ∧ segs l = Bad b :: segs rest ∧ utf8_Valid l = false).

Lemma long_rune bs :
  (∀ rest, segs (bs ++ rest) = Good bs :: segs rest) →
  (∀ rest, utf8_Valid (bs ++ rest) = utf8_Valid rest) →
  (2 <= length bs)%nat → Forall (λ b, 0x80 <= Z_of_byte b) bs → rune bs.
Proof. intros H1 H2 H3 H4. split; [done..|by right]. Qed.

(** [bad]: the byte starts no rune; [good bs rest]: these bytes are one. *)
Ltac bad b rest := right; exists b, rest; split; [done|].
Ltac good bs rest :=
  left; exists bs, rest; split; [apply long_rune; [| |cbn; lia|] | done].

Lemma seg_step2 b0 b1 l2 :
  (0xC2 <=? Z_of_byte b0) && (Z_of_byte b0 <=? 0xDF) = true → seg_step (b0 :: b1 :: l2).
Proof.
  intros H1. assert ((Z_of_byte b0 <? 0x80) = false) as H0 by lia.
  destruct ((0x80 <=? Z_of_byte b1) && (Z_of_byte b1 <=? 0xBF)) eqn:H2.
  - good [b0; b1] l2; [intros; cbn; by rewrite H0, H1, H2..|]. repeat constructor; lia.
  - assert ((0xE0 <=? Z_of_byte b0) = false) as H3 by lia.
    assert ((0xF0 <=? Z_of_byte b0) = false) as H4 by lia.
    bad b0 (b1 :: l2). destruct l2 as [|b2 [|b3 l4]]; cbn; rewrite H0, H1, H2, ?H3, ?H4; done.
Qed.

Lemma seg_step3 b0 b1 b2 l3 :
  (0xE0 <=? Z_of_byte b0) && (Z_of_byte b0 <=? 0xEF) = true →
  seg_step (b0 :: b1 :: b2 :: l3).
Proof.
  intros H3. assert ((Z_of_byte b0 <? 0x80) = false) as H0 by lia.
  assert ((0xC2 <=? Z_of_byte b0) && (Z_of_byte b0 <=? 0xDF) = false) as H1 by lia.
  destruct ((if Z_of_byte b0 =? 0xE0 then (0xA0 <=? Z_of_byte b1) && (Z_of_byte b1 <=? 0xBF)
             else if Z_of_byte b0 =? 0xED then (0x80 <=? Z_of_byte b1) && (Z_of_byte b1 <=? 0x9F)
             else (0x80 <=? Z_of_byte b1) && (Z_of_byte b1 <=? 0xBF)) &&
            ((0x80 <=? Z_of_byte b2) && (Z_of_byte b2 <=? 0xBF))) eqn:H4.
  - good [b0; b1; b2] l3; [intros; cbn; rewrite H0, H1; cbn; rewrite H3; cbn; by rewrite H4..|].
    assert (0x80 <= Z_of_byte b1) by (repeat case_match; lia).
    repeat constructor; lia.
  - assert ((0xF0 <=? Z_of_byte b0) = false) as H5 by lia.
    bad b0 (b1 :: b2 :: l3).
    destruct l3 as [|b3 l4]; cbn; rewrite H0, H1; cbn; rewrite H3; cbn; rewrite H4, ?H5; done.
Qed.

Lemma seg_step4 b0 b1 b2 l3 :
  (Z_of_byte b0 <? 0x80) = false →
  (0xC2 <=? Z_of_byte b0) && (Z_of_byte b0 <=? 0xDF) = false →
  (0xE0 <=? Z_of_byte b0) && (Z_of_byte b0 <=? 0xEF) = false →
  seg_step (b0 :: b1 :: b2 :: l3).
Proof.
  intros H0 H1 H3. destruct l3 as [|b3 l4].
  { bad b0 [b1; b2]. cbn. rewrite H0, H1. cbn. by rewrite H3. }
  destruct ((0xF0 <=? Z_of_byte b0) && (Z_of_byte b0 <=? 0xF4) &&
            (if Z_of_byte b0 =? 0xF0 then (0x90 <=? Z_of_byte b1) && (Z_of_byte b1 <=? 0xBF)
             else if Z_of_byte b0 =? 0xF4 then (0x80 <=? Z_of_byte b1) && (Z_of_byte b1 <=? 0x8F)
             else (0x80 <=? Z_of_byte b1) && (Z_of_byte b1 <=? 0xBF)) &&
            ((0x80 <=? Z_of_byte b2) && (Z_of_byte b2 <=? 0xBF)) &&
            ((0x80 <=? Z_of_byte b3) && (Z_of_byte b3 <=? 0xBF))) eqn:H4.
  - good [b0; b1; b2; b3] l4;
      [intros; cbn; rewrite H0, H1; cbn; rewrite H3; cbn; by rewrite H4..|].
    assert (0x80 <= Z_of_byte b1) by (repeat case_match; lia).
    repeat constructor; lia.
  - bad b0 (b1 :: b2 :: b3 :: l4).
    cbn. rewrite H0, H1. cbn. rewrite H3. cbn. by rewrite H4.
Qed.

Lemma segs_step b l : seg_step (b :: l).
Proof.
  destruct (Z_of_byte b <? 0x80) eqn:H0.
  { left. exists [b], l. split; [|done]. apply ascii_rune. lia. }
  destruct l as [|b1 l2]; [bad b (@nil byte); cbn; by rewrite H0|].
  destruct ((0xC2 <=? Z_of_byte b) && (Z_of_byte b <=? 0xDF)) eqn:H1; [by apply seg_step2|].
  destruct l2 as [|b2 l3]; [bad b [b1]; cbn; by rewrite H0, H1|].
  destruct ((0xE0 <=? Z_of_byte b) && (Z_of_byte b <=? 0xEF)) eqn:H3.
  - by apply seg_step3.
  - by apply seg_step4.
Qed.

Lemma rune_nonempty bs : rune bs → (0 < length bs)%nat.
Proof. intros [_ _ [(b & -> & _)|[? _]]]; cbn; lia. Qed.

(** Induction rune by rune. *)
Lemma segs_ind (P : list byte → Prop) :
  P [] → (∀ bs l, rune bs → P l → P (bs ++ l)) →
  (∀ b l, segs (b :: l) = Bad b :: segs l → utf8_Valid (b :: l) = false → P l → P (b :: l)) →
  ∀ l, P l.
Proof.
  intros H0 H1 H2 l. induction l as [[|b l] IH] using (induction_ltof1 _ (@length byte)); [done|].
  unfold ltof in IH.
  destruct (segs_step b l) as [(bs & rest & Hr & E)|(? & rest & [= <- <-] & Hs & Hv)].
  - rewrite E in IH |- *. apply H1; [done|]. apply IH. pose proof (rune_nonempty _ Hr).
    rewrite length_app. lia.
  - apply H2; [done..|]. apply IH. cbn. lia.
Qed.

(** Nothing is lost in UTF-8 text. *)
Lemma sanitize_valid l : utf8_Valid l = true → sanitize l = l.
Proof.
  unfold sanitize. induction l as [|bs l Hr IH|b l Hs Hv IH] using segs_ind; [done| |congruence].
  rewrite (rune_valid _ Hr), (rune_segs _ Hr). intros H. cbn. by rewrite IH.
Qed.

(** ** Bodies: what can stand between the quotes *)

Inductive Body : list byte → Prop :=
  | body_nil : Body []
  | body_plain b s : b ≠ x22 → b ≠ x5c → 0x20 <= Z_of_byte b → Body s → Body (b :: s)
  | body_escape c s : c ∈ escape_chars → Body s → Body (x5c :: c :: s)
  | body_u h1 h2 h3 h4 s :
      is_hex h1 → is_hex h2 → is_hex h3 → is_hex h4 → Body s →
      Body (x5c :: x75 :: h1 :: h2 :: h3 :: h4 :: s).

(** A closed decidable fact, by evaluation. *)
Ltac by_decide :=
  match goal with
  | |- ¬ ?P => apply (bool_decide_eq_false_1 P); vm_compute; reflexivity
  | |- ?P => apply (bool_decide_eq_true_1 P); vm_compute; reflexivity
  end.

Create HintDb json.
#[export] Hint Constructors Body : json.

Lemma Body_app a b : Body a → Body b → Body (a ++ b).
Proof. induction 1; cbn; auto with json. Qed.
#[export] Hint Resolve Body_app : json.

(** The scanner accepts bodies, and only bodies. *)
Lemma scan_str_Body s rest : Body s → scan_str (s ++ x22 :: rest) = Some (s, rest).
Proof.
  induction 1 as [|b s H1 H2 H3 _ IH|c s H _ IH|h1 h2 h3 h4 s H1 H2 H3 H4 _ IH]; [done|..]; cbn.
  - rewrite decide_False, decide_False by done. case_match; [lia|]. by rewrite IH.
  - rewrite decide_False, decide_True, decide_True by done. by rewrite IH.
  - rewrite decide_False, decide_True by done. rewrite decide_False by by_decide.
    rewrite decide_True by done.
    apply Is_true_true in H1, H2, H3, H4. rewrite H1, H2, H3, H4. cbn. by rewrite IH.
Qed.

Lemma scan_str_sound l s r : scan_str l = Some (s, r) → l = s ++ x22 :: r ∧ Body s.
Proof.
  revert s r. induction l as [[|b l] IH] using (induction_ltof1 _ (@length byte)); [done|].
  unfold ltof in IH. intros s r. cbn. case_decide as H1; [intros [= <- <-]; subst; auto with json|].
  case_decide as H2.
  - destruct l as [|c l]; [done|]. case_decide as H3.
    + destruct (scan_str l) as [[s' r']|] eqn:E; [|done]. intros [= <- <-].
      apply IH in E as [-> ?]; [|cbn; lia]. subst. split; [done|auto with json].
    + case_decide as H4; [|done]. destruct l as [|h1 [|h2 [|h3 [|h4 l]]]]; try done.
      destruct (is_hex h1 && is_hex h2 && is_hex h3 && is_hex h4) eqn:Eh; [|done].
      destruct (scan_str l) as [[s' r']|] eqn:E; [|done]. intros [= <- <-].
      apply IH in E as [-> ?]; [|cbn; lia]. subst. split; [done|].
      rewrite !andb_true_iff in Eh. apply body_u; [apply Is_true_true; tauto..|done].
  - case_match; [done|]. destruct (scan_str l) as [[s' r']|] eqn:E; [|done].
    intros [= <- <-]. apply IH in E as [-> ?]; [|cbn; lia]. split; [done|].
    apply body_plain; [done..|lia|done].
Qed.

Lemma hex_digit_hex z : is_hex (hex_digit (z mod 16)).
Proof.
  assert (0 <= z mod 16 < 16) as H by (apply Z.mod_pos_bound; lia).
  assert (z mod 16 ∈ seqZ 0 16) as H' by (apply elem_of_seqZ; lia).
  generalize dependent (z mod 16). intros y _ H. vm_compute in H.
  repeat (apply elem_of_cons in H as [->|H]; [exact I|]). by apply elem_of_nil in H.
Qed.

Lemma Body_u_escape z : Body (u_escape z).
Proof. apply body_u; try apply hex_digit_hex. constructor. Qed.
#[export] Hint Resolve Body_u_escape : json.

Lemma Body_high bs : Forall (λ b, 0x80 <= Z_of_byte b) bs → Body bs.
Proof.
  induction 1 as [|b bs Hb _ IH]; [constructor|].
  apply body_plain; [intros ->; by vm_compute in Hb..|lia|done].
Qed.

Lemma Body_escape_byte b : Body (escape_byte b).
Proof.
  unfold escape_byte. case_decide as H; [destruct H; subst|].
  all: repeat case_decide; first [apply Body_u_escape | apply body_escape; [by_decide|constructor]].
Qed.

Lemma unsafe_false b : unsafe b = false → 0x20 <= Z_of_byte b ∧ b ≠ x22 ∧ b ≠ x5c.
Proof.
  unfold unsafe. rewrite orb_false_iff, bool_decide_eq_false.
  intros [H1 H2]. split; [lia|]. set_solver.
Qed.

Lemma Body_encode_seg bs : rune bs → Body (encode_seg (Good bs)).
Proof.
  intros [_ _ Hs]. cbn. do 2 (case_decide; [auto with json|]).
  destruct Hs as [(b & -> & _)|[Hl Hs]].
  - destruct (unsafe b) eqn:E; [apply Body_escape_byte|].
    apply unsafe_false in E as (? & ? & ?). auto with json.
  - destruct bs as [|b [|b' bs]]; [cbn in Hl; lia..|]. by apply Body_high.
Qed.

Lemma Body_encode l : Body (encode_body l).
Proof.
  unfold encode_body. induction l as [|bs l Hr IH|b l Hs Hv IH] using segs_ind; [constructor|..].
  - rewrite (rune_segs _ Hr). apply Body_app; [by apply Body_encode_seg|done].
  - rewrite Hs. apply Body_app; [apply Body_u_escape|done].
Qed.

Lemma escape_html_cons b l1 :
  escape_html (b :: l1) =
    if decide (b ∈ [x3c; x3e; x26]) then u_escape (Z_of_byte b) ++ escape_html l1
    else match l1 with
         | b1 :: b2 :: l3 =>
             if decide (b = xe2 ∧ b1 = x80 ∧ (b2 = xa8 ∨ b2 = xa9))
             then u_escape (0x2020 + Z.land (Z_of_byte b2) 0xF) ++ escape_html l3
             else b :: escape_html l1
         | _ => b :: escape_html l1
         end.
Proof. reflexivity. Qed.

Lemma escape_html_plain c s :
  c ∉ [x3c; x3e; x26] → c ≠ xe2 → escape_html (c :: s) = c :: escape_html s.
Proof.
  intros H1 H2. rewrite escape_html_cons, decide_False by done.
  destruct s as [|c1 [|c2 s]]; try done.
  by rewrite decide_False by tauto.
Qed.

Lemma is_hex_plain h : is_hex h → (h ∉ [x3c; x3e; x26]) ∧ h ≠ xe2.
Proof.
  intros H. split; [|by intros ->].
  rewrite !elem_of_cons, elem_of_nil. by intros [->|[->|[->|[]]]].
Qed.

Lemma escape_chars_plain c : c ∈ escape_chars → (c ∉ [x3c; x3e; x26]) ∧ c ≠ xe2.
Proof. unfold escape_chars. vm_compute (bytes_of_string _). set_solver. Qed.

(** Compacting keeps a body a body. *)
Lemma Body_html s : Body s → Body (escape_html s).
Proof.
  induction s as [[|b s] IH] using (induction_ltof1 _ (@length byte)); [done|].
  unfold ltof in IH. cbn [length] in IH. intros H.
  inversion H as [|? ? H1 H2 H3 H4|c s' Hc H4|h1 h2 h3 h4 s' Hh1 Hh2 Hh3 Hh4 H4]; subst.
  - assert (Body (b :: escape_html s)) as Hb by (constructor; auto with lia).
    rewrite escape_html_cons. case_decide; [auto 6 with json lia|].
    destruct s as [|b1 [|b2 s]]; [done..|].
    case_decide as Hd; [|done]. apply Body_app; [apply Body_u_escape|].
    apply IH; [cbn; lia|]. destruct Hd as (-> & -> & Hd).
    inversion H4 as [|? ? _ _ _ H5| |]; subst.
    inversion H5; subst; [done|by destruct Hd..].
  - apply escape_chars_plain in Hc as Hp. rewrite !escape_html_plain by (by_decide || tauto).
    apply body_escape; [done|]. apply IH; [cbn; lia|done].
  - rewrite !escape_html_plain by (by_decide || by apply is_hex_plain).
    apply body_u; [done..|]. apply IH; [cbn; lia|done].
Qed.

(** What is read back is what was written, up to the replacement characters. *)
Lemma unquote_app s rest :
  (∃ bs, s = Good bs ∧ rune bs) ∨ (∃ b, s = Bad b) →
  unquote (encode_seg s ++ rest) = app (sanitize_seg s) <$> unquote rest.
Proof.
  unfold unquote. intros [(bs & -> & Hr)|(b & ->)]; [|reflexivity].
  pose proof (rune_segs _ Hr rest) as Hs. destruct Hr as [_ _ [(b & -> & Hb)|[Hl Hf]]].
  - destruct b; try (vm_compute in Hb; discriminate Hb); reflexivity.
  - cbn. do 2 (case_decide; [subst; reflexivity|]).
    destruct bs as [|b0 [|b1 bs]]; [cbn in Hl; lia..|].
    rewrite Hs. cbn. by rewrite decide_False.
Qed.

Lemma unquote_encode l : unquote (encode_body l) = Some (sanitize l).
Proof.
  unfold encode_body, sanitize.
  induction l as [|bs l Hr IH|b l Hs Hv IH] using segs_ind; [done|..].
  - rewrite (rune_segs _ Hr). cbn [mbind list_bind]. rewrite unquote_app by eauto. by rewrite IH.
  - rewrite Hs. cbn [mbind list_bind]. rewrite unquote_app by eauto. by rewrite IH.
Qed.

(** ** Compacting twice *)

Lemma hex_digit_plain z :
  (hex_digit (z mod 16) ∉ [x3c; x3e; x26]) ∧ hex_digit (z mod 16) ≠ xe2.
Proof. apply is_hex_plain, hex_digit_hex. Qed.

Lemma escape_html_u z l : escape_html (u_escape z ++ l) = u_escape z ++ escape_html l.
Proof.
  unfold u_escape. cbn [app].
  generalize (hex_digit_plain (z / 4096)) (hex_digit_plain (z / 256))
    (hex_digit_plain (z / 16)) (hex_digit_plain z).
  generalize (hex_digit (z / 4096 mod 16)) (hex_digit (z / 256 mod 16))
    (hex_digit (z / 16 mod 16)) (hex_digit (z mod 16)).
  intros h1 h2 h3 h4 [? ?] [? ?] [? ?] [? ?].
  by rewrite !escape_html_plain by first [assumption | by_decide].
Qed.

(** The first byte stays, or becomes an escape. *)
Lemma escape_html_head b l :
  ∃ t, escape_html (b :: l) = x5c :: t ∨ escape_html (b :: l) = b :: t.
Proof.
  rewrite escape_html_cons. case_decide; [eexists; by left|].
  destruct l as [|b1 [|b2 l]]; [eauto..|]. case_decide; [eexists; by left|eauto].
Qed.

Lemma escape_html_keeps b l :
  b ∉ [x3c; x3e; x26] →
  (∀ b1 b2 l3, l = b1 :: b2 :: l3 → ¬ (b = xe2 ∧ b1 = x80 ∧ (b2 = xa8 ∨ b2 = xa9))) →
  escape_html (b :: l) = b :: escape_html l.
Proof.
  intros H1 H2. rewrite escape_html_cons, decide_False by done.
  destruct l as [|b1 [|b2 l]]; [done..|]. rewrite decide_False; [done|]. by eapply H2.
Qed.

Lemma escape_html_idemp l : escape_html (escape_html l) = escape_html l.
Proof.
  induction l as [[|b l] IH] using (induction_ltof1 _ (@length byte)); [done|].
  unfold ltof in IH. cbn [length] in IH. rewrite (escape_html_cons b l).
  case_decide as Hb; [by rewrite escape_html_u, IH by lia|].
  assert (∀ l', (∀ b1 b2 l3, l' = b1 :: b2 :: l3 → ¬ (b = xe2 ∧ b1 = x80 ∧ (b2 = xa8 ∨ b2 = xa9))) →
    escape_html l' = l' → escape_html (b :: l') = b :: l') as Hk.
  { intros l' H1 H2. by rewrite escape_html_keeps, H2 by done. }
  destruct l as [|b1 [|b2 l]].
  - by apply Hk.
  - apply Hk; [|by apply IH; cbn; lia]. intros c1 c2 l3 E (_ & -> & _).
    revert E. rewrite escape_html_cons. by case_decide.
  - case_decide as Hd; [rewrite escape_html_u, IH by (cbn; lia); done|].
    apply Hk; [|by apply IH; cbn; lia]. intros c1 c2 l3 E (-> & -> & Hc). apply Hd.
    split; [done|]. revert E. rewrite (escape_html_cons b1). case_decide; [done|].
    destruct (escape_html_head b2 l) as [t Ht].
    assert (b1 :: escape_html (b2 :: l) = x80 :: c2 :: l3 → b1 = x80 ∧ (b2 = xa8 ∨ b2 = xa9)) as Hm.
    { intros E. split; [congruence|].
      assert (escape_html (b2 :: l) = c2 :: l3) as E' by congruence. rewrite E' in Ht.
      destruct Ht as [[= ->]|[= ->]]; [by destruct Hc|done]. }
    destruct l as [|b3 l4]; [done|]. case_decide; [done|exact Hm].
Qed.

(** ** Every body can be read *)

Lemma segs_ascii_inv l b r : segs l = Good [b] :: r → ∃ l', l = b :: l' ∧ r = segs l'.
Proof.
  destruct l as [|b0 l]; [done|].
  destruct (segs_step b0 l) as [(bs & rest & Hr & ->)|(? & rest & [= <- <-] & -> & _)]; [|done].
  rewrite (rune_segs _ Hr). intros [= -> <-]. eauto.
Qed.

Lemma segs_Good b l : Z_of_byte b < 0x80 → segs (b :: l) = Good [b] :: segs l.
Proof. intros H. apply (rune_segs _ (ascii_rune _ H)). Qed.

Lemma is_hex_ascii h : is_hex h → Z_of_byte h < 0x80 ∧ ∃ z, hex_value h = Some z.
Proof.
  intros H. split; [|by apply bool_decide_unpack in H].
  unfold is_hex, hex_value in H. repeat (case_match; [lia|]). done.
Qed.

Lemma getu4_hex h1 h2 h3 h4 :
  is_hex h1 → is_hex h2 → is_hex h3 → is_hex h4 →
  ∃ z, getu4 (Good [x5c]) (Good [x75]) (Good [h1]) (Good [h2]) (Good [h3]) (Good [h4]) = Some z.
Proof.
  intros [_ [z1 H1]]%is_hex_ascii [_ [z2 H2]]%is_hex_ascii [_ [z3 H3]]%is_hex_ascii
    [_ [z4 H4]]%is_hex_ascii. unfold getu4. cbn. rewrite H1, H2, H3, H4. cbn. eauto.
Qed.

Lemma ascii_Some s b : ascii s = Some b → s = Good [b].
Proof. destruct s as [[|? [|? ?]]|]; cbn; congruence. Qed.

Lemma getu4_inv e u g1 g2 g3 g4 z :
  getu4 e u g1 g2 g3 g4 = Some z →
  e = Good [x5c] ∧ u = Good [x75] ∧ ∃ h1 h2 h3 h4,
    g1 = Good [h1] ∧ g2 = Good [h2] ∧ g3 = Good [h3] ∧ g4 = Good [h4].
Proof.
  unfold getu4. destruct (ascii e) as [b|] eqn:Ee; [|done]. destruct (ascii u) as [c|] eqn:Eu; [|done].
  cbn. case_decide as H; [|done]. destruct H as [-> ->].
  destruct (ascii g1) as [h1|] eqn:E1; [|done]. cbn. destruct (hex_value h1); [|done]. cbn.
  destruct (ascii g2) as [h2|] eqn:E2; [|done]. cbn. destruct (hex_value h2); [|done]. cbn.
  destruct (ascii g3) as [h3|] eqn:E3; [|done]. cbn. destruct (hex_value h3); [|done]. cbn.
  destruct (ascii g4) as [h4|] eqn:E4; [|done]. intros _.
  split_and!; [by apply ascii_Some..|]. exists h1, h2, h3, h4.
  split_and!; by apply ascii_Some.
Qed.

Lemma Body_high_inv bs l : Forall (λ b, 0x80 <= Z_of_byte b) bs → Body (bs ++ l) → Body l.
Proof.
  induction 1 as [|b bs Hb _ IH]; [done|]. cbn. intros H.
  inversion H; subst; [auto|by vm_compute in Hb..].
Qed.

Lemma unquote_plain b l : b ≠ x22 → b ≠ x5c → 0x20 <= Z_of_byte b < 0x80 →
  unquote (b :: l) = cons b <$> unquote l.
Proof.
  intros H1 H2 H3. unfold unquote. rewrite segs_Good by lia. cbn.
  rewrite decide_False by congruence. rewrite decide_False by done.
  case_match; [lia|done].
Qed.

Lemma unquote_long bs l : rune bs → (2 <= length bs)%nat →
  unquote (bs ++ l) = app bs <$> unquote l.
Proof.
  intros Hr Hl. unfold unquote. rewrite (rune_segs _ Hr).
  destruct bs as [|b0 [|b1 bs]]; [cbn in Hl; lia..|]. cbn. by rewrite decide_False.
Qed.

Lemma unescape_chars c : c ∈ escape_chars →
  Z_of_byte c < 0x80 ∧ c ≠ x75 ∧ ∃ b, unescape c = Some b.
Proof.
  unfold escape_chars. vm_compute (bytes_of_string _). cbn [app]. rewrite !elem_of_cons, elem_of_nil.
  by intros [->|[->|[->|[->|[->|[->|[->|[->|[]]]]]]]]];
    (split; [done|split; [done|eexists; reflexivity]]).
Qed.

(** The end of a body after a [\u] escape whose value is [r]. *)
Lemma unquote_u_rest r s :
  (∀ s', (length s' <= length s)%nat → Body s' → is_Some (unquote s')) → Body s →
  is_Some (if (0xD800 <=? r) && (r <? 0xE000) then
             match segs s with
             | e :: u :: g1 :: g2 :: g3 :: g4 :: l12 =>
                 match surrogates r (getu4 e u g1 g2 g3 g4) with
                 | Some z => app (encode_rune z) <$> unquote_segs l12
                 | None => app replacement <$> unquote_segs (segs s)
                 end
             | _ => app replacement <$> unquote_segs (segs s)
             end
           else app (encode_rune r) <$> unquote_segs (segs s)).
Proof.
  intros IH Hs. pose proof (IH s ltac:(lia) Hs) as H. unfold unquote in H.
  case_match; [|by apply fmap_is_Some].
  destruct (segs s) as [|e [|u [|g1 [|g2 [|g3 [|g4 l12]]]]]] eqn:E; try by apply fmap_is_Some.
  destruct (getu4 e u g1 g2 g3 g4) as [lo|] eqn:Eg; cbn; [|by apply fmap_is_Some].
  case_match; [|by apply fmap_is_Some]. apply fmap_is_Some.
  apply getu4_inv in Eg as (-> & -> & h1 & h2 & h3 & h4 & -> & -> & -> & ->).
  do 6 (apply segs_ascii_inv in E as (? & -> & E); symmetry in E).
  subst l12. apply IH; [cbn; lia|].
  inversion Hs as [|? ? Hq Hb|? ? Hc|]; subst; [by destruct Hb| |done].
  by apply unescape_chars in Hc as (_ & ? & _).
Qed.

Lemma unquote_total s : Body s → is_Some (unquote s).
Proof.
  induction s as [s IH] using (induction_ltof1 _ (@length byte)). unfold ltof in IH.
  intros Hb. destruct s as [|b s]; [by eexists|].
  inversion Hb as [|? ? H1 H2 H3 H4|c s' Hc H4|h1 h2 h3 h4 s' Hh1 Hh2 Hh3 Hh4 H4]; subst.
  - destruct (segs_step b s) as [(bs & rest & Hr & E)|(? & rest & [= <- <-] & E & _)].
    + destruct (rune_shape _ Hr) as [(b' & -> & Hlt)|[Hl Hf]].
      * injection E as <- <-. rewrite unquote_plain by (done || lia).
        apply fmap_is_Some, IH; [cbn; lia|done].
      * rewrite E in IH, Hb |- *. rewrite unquote_long by done. apply fmap_is_Some, IH.
        { rewrite length_app. lia. } by apply Body_high_inv in Hb.
    + unfold unquote. rewrite E. apply fmap_is_Some, IH; [cbn; lia|done].
  - destruct (unescape_chars _ Hc) as (? & ? & b & Hu). unfold unquote.
    rewrite segs_Good, segs_Good by done. cbn.
    rewrite decide_True, decide_False, Hu by done. apply fmap_is_Some, IH; [cbn; lia|done].
  - unfold unquote. rewrite segs_Good, segs_Good by done.
    rewrite !segs_Good by (by apply is_hex_ascii). cbn.
    rewrite !decide_True by done.
    destruct (getu4_hex h1 h2 h3 h4) as [r Hr]; [done..|]. rewrite Hr.
    apply unquote_u_rest; [|done]. intros s Hl. apply IH. cbn. lia.
Qed.
