(* ===== verification/Json.v ===== *)
(** * encoding/json: texts

    The scanner of the standard library (scanner.go, with its nesting limit) as a parser
    into a tree, and [appendCompact] as what that tree prints to.  A text that parses is
    what [json.Valid] accepts; numbers keep their digits, strings their escapes. *)
From S2P Require Import Prelude JsonString.

Inductive literal := Ltrue | Lfalse | Lnull.

(** Strings and keys are bodies (the text between the quotes). *)
Inductive json :=
  | Lit (l : literal)
  | Num (s : list byte)
  | Str (s : list byte)
  | Arr (vs : list json)
  | Obj (ms : list (list byte * json)).

(** ** Scanning *)

(** Space, tab, line feed, carriage return. *)
Definition is_ws (b : byte) : bool := bool_decide (b ∈ [x20; x09; x0a; x0d]).

Fixpoint skip_ws (l : list byte) : list byte :=
  match l with
  | b :: l1 => if is_ws b then skip_ws l1 else l
  | [] => []
  end.

Definition is_digit (b : byte) : bool := (0x30 <=? Z_of_byte b) && (Z_of_byte b <=? 0x39).

Fixpoint digits (l : list byte) : list byte * list byte :=
  match l with
  | b :: l1 => if is_digit b then let '(ds, r) := digits l1 in (b :: ds, r) else ([], l)
  | [] => ([], [])
  end.

(** An optional minus sign. *)
Definition scan_sign (l : list byte) : list byte * list byte :=
  match l with
  | b :: l1 => if decide (b = x2d) then ([b], l1) else ([], l)
  | [] => ([], [])
  end.

(** A zero, or digits that do not start with one. *)
Definition scan_int (l : list byte) : option (list byte * list byte) :=
  match l with
  | b :: l1 =>
      if decide (b = x30) then Some ([b], l1)
      else if is_digit b then let '(ds, r) := digits l1 in Some (b :: ds, r)
      else None
  | [] => None
  end.

(** At least one digit. *)
Definition scan_digits (l : list byte) : option (list byte * list byte) :=
  match digits l with
  | ([], _) => None
  | (ds, r) => Some (ds, r)
  end.

Definition scan_frac (l : list byte) : option (list byte * list byte) :=
  match l with
  | b :: l1 =>
      if decide (b = x2e) then '(ds, r) ← scan_digits l1; Some (b :: ds, r)
      else Some ([], l)
  | [] => Some ([], [])
  end.

Definition scan_exp (l : list byte) : option (list byte * list byte) :=
  match l with
  | b :: l1 =>
      if decide (b = x65 ∨ b = x45) then
        let '(sg, l2) := match l1 with
                         | c :: l2 => if decide (c = x2b ∨ c = x2d) then ([c], l2) else ([], l1)
                         | [] => ([], [])
                         end in
        '(ds, r) ← scan_digits l2; Some (b :: sg ++ ds, r)
      else Some ([], l)
  | [] => Some ([], [])
  end.

Definition scan_num (l : list byte) : option (list byte * list byte) :=
  let '(sg, l1) := scan_sign l in
  '(i, l2) ← scan_int l1;
  '(f, l3) ← scan_frac l2;
  '(e, r) ← scan_exp l3;
  Some (sg ++ i ++ f ++ e, r).

Definition literal_text (l : literal) : list byte :=
  bytes_of_string match l with Ltrue => "true" | Lfalse => "false" | Lnull => "null" end.

Fixpoint strip (p l : list byte) : option (list byte) :=
  match p, l with
  | [], _ => Some l
  | b :: p', c :: l' => if decide (b = c) then strip p' l' else None
  | _, [] => None
  end.

Definition scan_lit (x : literal) (l : list byte) : option (json * list byte) :=
  r ← strip (literal_text x) l; Some (Lit x, r).

(** A value, after the white space before it; [d] is the number of brackets that may
    still open.  The fuel [f] bounds the calls. *)
Fixpoint value (f d : nat) (l : list byte) : option (json * list byte) :=
  match f with
  | O => None
  | S f =>
      match skip_ws l with
      | [] => None
      | b :: l1 =>
          if decide (b = x22) then '(s, r) ← scan_str l1; Some (Str s, r)
          else if decide (b = x5b) then
            match d with
            | O => None
            | S d =>
                match skip_ws l1 with
                | c :: l2 => if decide (c = x5d) then Some (Arr [], l2)
                             else '(vs, r) ← elems f d l1; Some (Arr vs, r)
                | [] => None
                end
            end
          else if decide (b = x7b) then
            match d with
            | O => None
            | S d =>
                match skip_ws l1 with
                | c :: l2 => if decide (c = x7d) then Some (Obj [], l2)
                             else '(ms, r) ← membs f d l1; Some (Obj ms, r)
                | [] => None
                end
            end
          else if decide (b = x74) then scan_lit Ltrue (b :: l1)
          else if decide (b = x66) then scan_lit Lfalse (b :: l1)
          else if decide (b = x6e) then scan_lit Lnull (b :: l1)
          else '(s, r) ← scan_num (b :: l1); Some (Num s, r)
      end
  end
with elems (f d : nat) (l : list byte) : option (list json * list byte) :=
  match f with
  | O => None
  | S f =>
      '(v, r) ← value f d l;
      match skip_ws r with
      | c :: r1 =>
          if decide (c = x2c) then '(vs, r2) ← elems f d r1; Some (v :: vs, r2)
          else if decide (c = x5d) then Some ([v], r1)
          else None
      | [] => None
      end
  end
with membs (f d : nat) (l : list byte) : option (list (list byte * json) * list byte) :=
  match f with
  | O => None
  | S f =>
      match skip_ws l with
      | b :: l1 =>
          if decide (b = x22) then
            '(k, r) ← scan_str l1;
            match skip_ws r with
            | c :: r1 =>
                if decide (c = x3a) then
                  '(v, r2) ← value f d r1;
                  match skip_ws r2 with
                  | c :: r3 =>
                      if decide (c = x2c) then '(ms, r4) ← membs f d r3; Some ((k, v) :: ms, r4)
                      else if decide (c = x7d) then Some ([(k, v)], r3)
                      else None
                  | [] => None
                  end
                else None
            | [] => None
            end
          else None
      | [] => None
      end
  end.

(** Fuel that is enough for a text of this length. *)
Definition fuel (l : list byte) : nat := (2 * length l + 2)%nat.

(** The nesting limit of the scanner ([maxNestingDepth]). *)
Definition max_depth : nat := Z.to_nat 10000.

(** A whole text: a value and white space. *)
Definition parse (d : nat) (l : list byte) : option json :=
  '(v, r) ← value (fuel l) d l;
  match skip_ws r with [] => Some v | _ => None end.

(** ** Printing *)

Fixpoint commas (ls : list (list byte)) : list byte :=
  match ls with
  | [] => []
  | [l] => l
  | l :: ls => l ++ x2c :: commas ls
  end.

Fixpoint print (v : json) : list byte :=
  match v with
  | Lit l => literal_text l
  | Num s => s
  | Str s => quoted s
  | Arr vs => x5b :: commas (map print vs) ++ [x5d]
  | Obj ms => x7b :: commas (map (λ m, quoted m.1 ++ x3a :: print m.2) ms) ++ [x7d]
  end.

(** The tree with the HTML escapes in its strings. *)
Fixpoint html (v : json) : json :=
  match v with
  | Lit l => Lit l
  | Num s => Num s
  | Str s => Str (escape_html s)
  | Arr vs => Arr (map html vs)
  | Obj ms => Obj (map (λ m, (escape_html m.1, html m.2)) ms)
  end.

(** [appendCompact] with HTML escapes: the text without its white space. *)
Definition compact_at (d : nat) (l : list byte) : option (list byte) :=
  v ← parse d l; Some (print (html v)).

Definition compact : list byte → option (list byte) := compact_at max_depth.

(** ** Numbers *)

Definition starts (p : byte → bool) (l : list byte) : bool :=
  match l with b :: _ => p b | [] => false end.

(** What can follow a value in a compact text: nothing, or a separator. *)
Definition ends (l : list byte) : Prop :=
  match l with b :: _ => b ∈ [x2c; x5d; x7d] | [] => True end.

Definition dot (b : byte) : bool := bool_decide (b = x2e).
Definition exp (b : byte) : bool := bool_decide (b = x65 ∨ b = x45).

Lemma digits_sound l ds r :
  digits l = (ds, r) →
  l = ds ++ r ∧ Forall (λ b, is_digit b = true) ds ∧
  ∀ rest, starts is_digit rest = false → digits (ds ++ rest) = (ds, rest).
Proof.
  revert ds r. induction l as [|b l IH]; intros ds r; cbn.
  - intros [= <- <-]. split_and!; [done|constructor|]. by intros [|c rest]; cbn; [|intros ->].
  - destruct (is_digit b) eqn:Eb.
    + destruct (digits l) as [ds' r'] eqn:E. intros [= <- <-].
      destruct (IH _ _ eq_refl) as (-> & ? & H). split_and!; [done|by constructor|].
      intros rest Hr. cbn. by rewrite Eb, H.
    + intros [= <- <-]. split_and!; [done|constructor|]. by intros [|c rest]; cbn; [|intros ->].
Qed.

Lemma scan_digits_sound l ds r :
  scan_digits l = Some (ds, r) →
  l = ds ++ r ∧ starts is_digit ds = true ∧
  ∀ rest, starts is_digit rest = false → scan_digits (ds ++ rest) = Some (ds, rest).
Proof.
  unfold scan_digits. destruct (digits l) as [[|b ds'] r'] eqn:E; [done|]. intros [= <- <-].
  apply digits_sound in E as (-> & H & Hd). apply Forall_cons in H as [Hb _].
  split_and!; [done|done|]. intros rest Hr. by rewrite Hd.
Qed.

Lemma scan_int_sound l i r :
  scan_int l = Some (i, r) →
  l = i ++ r ∧ starts is_digit i = true ∧
  ∀ rest, starts is_digit rest = false → scan_int (i ++ rest) = Some (i, rest).
Proof.
  destruct l as [|b l]; [done|]. cbn. case_decide as Hb.
  { intros [= <- <-]. subst. split_and!; [done|done|]. intros rest _. cbn. done. }
  destruct (is_digit b) eqn:Eb; [|done]. destruct (digits l) as [ds r'] eqn:E.
  intros [= <- <-]. apply digits_sound in E as (-> & _ & Hd). split_and!; [done|done|].
  intros rest Hr. cbn. by rewrite decide_False, Eb, Hd.
Qed.

Lemma scan_frac_sound l f r :
  scan_frac l = Some (f, r) →
  l = f ++ r ∧ (f = [] ∨ starts dot f = true) ∧
  ∀ rest, starts is_digit rest = false → starts dot rest = false →
    scan_frac (f ++ rest) = Some (f, rest).
Proof.
  assert (∀ rest, starts dot rest = false → scan_frac rest = Some ([], rest)) as Hn.
  { intros [|c rest]; [done|]. cbn. unfold dot. rewrite bool_decide_eq_false.
    intros. by rewrite decide_False. }
  destruct l as [|b l]; cbn; [intros [= <- <-]; auto|]. case_decide as Hb.
  - destruct (scan_digits l) as [[ds r']|] eqn:E; [|done]. intros [= <- <-]. subst.
    apply scan_digits_sound in E as (-> & _ & Hd). split_and!; [done|by right|].
    intros rest Hr _. cbn. by rewrite Hd.
  - intros [= <- <-]. auto.
Qed.

Lemma scan_exp_sound l e r :
  scan_exp l = Some (e, r) →
  l = e ++ r ∧ (e = [] ∨ starts exp e = true) ∧
  ∀ rest, starts is_digit rest = false → starts exp rest = false →
    scan_exp (e ++ rest) = Some (e, rest).
Proof.
  assert (∀ rest, starts exp rest = false → scan_exp rest = Some ([], rest)) as Hn.
  { intros [|c rest]; [done|]. cbn. unfold exp. rewrite bool_decide_eq_false.
    intros. by rewrite decide_False. }
  destruct l as [|b l]; cbn; [intros [= <- <-]; auto|].
  case_decide as Hb; [|intros [= <- <-]; auto].
  assert (starts exp [b] = true) as Hexp by by apply bool_decide_eq_true.
  destruct l as [|c l]; [done|]. case_decide as Hc.
  - destruct (scan_digits l) as [[ds r']|] eqn:E; [|done]. intros [= <- <-].
    apply scan_digits_sound in E as (-> & _ & Hd). split_and!; [done|by right|].
    intros rest Hr _. cbn. rewrite (decide_True _ _ Hb), (decide_True _ _ Hc), Hd by done. done.
  - destruct (scan_digits (c :: l)) as [[ds r']|] eqn:E; [|done]. intros [= <- <-].
    apply scan_digits_sound in E as (-> & Hs & Hd). split_and!; [done|by right|].
    intros rest Hr _. cbn. rewrite (decide_True _ _ Hb).
    destruct ds as [|c' ds]; [done|]. cbn in Hs |- *.
    rewrite decide_False by (by intros [-> | ->]). 
    change (c' :: ds ++ rest) with ((c' :: ds) ++ rest). by rewrite Hd.
Qed.

(** The number texts: the scanner reads them to the end, before any separator. *)
Definition number (s : list byte) : Prop :=
  (∃ b s', s = b :: s' ∧ (b = x2d ∨ is_digit b = true)) ∧
  ∀ rest, ends rest → scan_num (s ++ rest) = Some (s, rest).

Lemma ends_starts p l :
  ends l → p x2c = false → p x5d = false → p x7d = false → starts p l = false.
Proof. destruct l as [|b l]; [done|]. cbn. set_unfold. by intros [->|[->|[->|?]]]. Qed.

Lemma starts_app p q a b :
  a = [] ∨ starts q a = true → (∀ b, q b = true → p b = false) → starts p b = false →
  starts p (a ++ b) = false.
Proof. destruct a; cbn; [done|]. intros [?|?] Hpq ?; [done|by apply Hpq]. Qed.

Lemma scan_num_sound l s r : scan_num l = Some (s, r) → l = s ++ r ∧ number s.
Proof.
  unfold scan_num. destruct (scan_sign l) as [sg l1] eqn:Es.
  assert (l = sg ++ l1 ∧ (sg = [] ∨ sg = [x2d])) as [-> Hsg].
  { revert Es. destruct l as [|b l]; cbn; [intros [= <- <-]; auto|].
    case_decide; intros [= <- <-]; subst; auto. }
  clear Es. destruct (scan_int l1) as [[i l2]|] eqn:Ei; [|done]. cbn.
  destruct (scan_frac l2) as [[f l3]|] eqn:Ef; [|done]. cbn.
  destruct (scan_exp l3) as [[e r']|] eqn:Ee; [|done]. cbn. intros [= <- <-].
  apply scan_int_sound in Ei as (-> & Hi & Ei). apply scan_frac_sound in Ef as (-> & Hf & Ef).
  apply scan_exp_sound in Ee as (-> & He & Ee). split; [by rewrite <-!app_assoc|].
  assert (∃ b i', i = b :: i' ∧ is_digit b = true) as (b & i' & Hbi & Hb)
    by (destruct i; [done|eauto]).
  split; [subst i; destruct Hsg as [-> | ->]; cbn; eauto|]. intros rest Hr.
  rewrite <-!app_assoc. unfold scan_num.
  replace (scan_sign (sg ++ i ++ f ++ e ++ rest)) with (sg, i ++ f ++ e ++ rest).
  2:{ subst i. destruct Hsg as [-> | ->]; cbn; [|done].
      rewrite decide_False; [done|]. by intros ->. }
  cbn [fst snd].
  assert (∀ b, dot b = true → is_digit b = false) as Hdd.
  { intros c. unfold dot. rewrite bool_decide_eq_true. by intros ->. }
  assert (∀ b, exp b = true → is_digit b = false ∧ dot b = false) as Hed.
  { intros c. unfold exp. rewrite bool_decide_eq_true. by intros [-> | ->]. }
  rewrite Ei; cbn [mbind option_bind]; [rewrite Ef; cbn [mbind option_bind];
    [rewrite Ee; cbn [mbind option_bind]; [done|..]|..]|..].
  all: repeat first [apply (ends_starts _ rest); done | eapply starts_app; [eassumption|naive_solver|]].
Qed.

(** ** Well-formed trees: what a text nested at most [d] deep parses to *)

Fixpoint wf (d : nat) (v : json) : Prop :=
  match v with
  | Lit _ => True
  | Num s => number s
  | Str s => Body s
  | Arr vs => match d with O => False | S d => Forall (wf d) vs end
  | Obj ms => match d with O => False | S d => Forall (λ m, Body m.1 ∧ wf d m.2) ms end
  end.

Abbreviation wf_member d := (λ m, Body m.1 ∧ wf d m.2).

Lemma skip_ws_length l : (length (skip_ws l) <= length l)%nat.
Proof. induction l as [|b l IH]; cbn; [done|]. case_match; cbn; lia. Qed.

Lemma strip_length p l r : strip p l = Some r → (length l = length p + length r)%nat.
Proof.
  revert l. induction p as [|b p IH]; intros [|c l]; cbn; try (by intros [= <-]).
  case_decide; [|done]. intros Hl%IH. lia.
Qed.

Lemma scan_lit_sound x l v r : scan_lit x l = Some (v, r) → v = Lit x ∧ (length r < length l)%nat.
Proof.
  unfold scan_lit. destruct (strip _ l) as [r'|] eqn:E; [|done]. intros [= <- <-].
  split; [done|]. apply strip_length in E.
  assert (0 < length (literal_text x))%nat by (destruct x; vm_compute; lia). lia.
Qed.

(** Case analysis on the next character and on the calls of a hypothesis. *)
Ltac scan_case H :=
  repeat first
    [ case_decide; subst
    | match type of H with
      | context [match skip_ws ?l with _ => _ end] =>
          let E := fresh "E" in
          pose proof (skip_ws_length l); destruct (skip_ws l) eqn:E; [discriminate H|]; cbn [length] in *
      | context [mbind _ ?m] =>
          let E := fresh "E" in destruct m as [[? ?]|] eqn:E; [cbn [mbind option_bind] in H|discriminate H]
      | context [match ?d with O => _ | S _ => _ end] => destruct d; [discriminate H|]
      | None = _ => discriminate H
      | Some _ = _ => injection H as <- <-
      end].

Lemma scan_str_wf l s r : scan_str l = Some (s, r) → Body s ∧ (length r < length l)%nat.
Proof. intros [-> ?]%scan_str_sound. rewrite length_app. cbn. split; [done|lia]. Qed.

Lemma scan_num_wf l s r : scan_num l = Some (s, r) → number s ∧ (length r < length l)%nat.
Proof.
  intros [-> Hn]%scan_num_sound. rewrite length_app. split; [done|].
  destruct Hn as [(b & s' & -> & _) _]. cbn. lia.
Qed.

(** What the scanner returns is well formed, and it consumes something. *)
Lemma value_sound f :
  (∀ d l v r, value f d l = Some (v, r) → wf d v ∧ (length r < length l)%nat) ∧
  (∀ d l vs r, elems f d l = Some (vs, r) → Forall (wf d) vs ∧ (length r < length l)%nat) ∧
  (∀ d l ms r, membs f d l = Some (ms, r) →
     Forall (wf_member d) ms ∧ (length r < length l)%nat).
Proof.
  induction f as [|f (IHv & IHe & IHm)]; [done|].
  split_and!; intros d l v r H; cbn in H; scan_case H;
    repeat match goal with
    | H : value _ _ _ = Some _ |- _ => apply IHv in H as [? ?]
    | H : elems _ _ _ = Some _ |- _ => apply IHe in H as [? ?]
    | H : membs _ _ _ = Some _ |- _ => apply IHm in H as [? ?]
    | H : scan_str _ = Some _ |- _ => apply scan_str_wf in H as [? ?]
    | H : scan_num _ = Some _ |- _ => apply scan_num_wf in H as [? ?]
    | H : scan_lit _ _ = Some _ |- _ => apply scan_lit_sound in H as [-> ?]
    end; cbn [length] in *; (split; [|lia]);
    repeat first [done | by destruct d | apply Forall_cons_2 | apply Forall_nil_2 | split].
Qed.

(** More fuel than the length asks for changes nothing. *)
Lemma value_fuel n :
  (∀ d l f f', length l <= n → 2 * n + 1 <= f → 2 * n + 1 <= f' →
     value f d l = value f' d l)%nat ∧
  (∀ d l f f', length l <= n → 2 * n + 2 <= f → 2 * n + 2 <= f' →
     elems f d l = elems f' d l)%nat ∧
  (∀ d l f f', length l <= n → 2 * n + 2 <= f → 2 * n + 2 <= f' →
     membs f d l = membs f' d l)%nat.
Proof.
  induction n as [|n (IHv & IHe & IHm)].
  { split_and!; intros d [|b l] [|[|f]] [|[|f']]; cbn; try lia; done. }
  assert (∀ d l f f', length l <= S n → 2 * S n + 1 <= f → 2 * S n + 1 <= f' →
     value f d l = value f' d l)%nat as HV.
  { intros d l [|f] [|f'] Hl Hf Hf'; [lia..|]. cbn.
    pose proof (skip_ws_length l). destruct (skip_ws l) as [|b l1]; [done|]. cbn in *.
    repeat (case_decide; [try done|]); [destruct d as [|d]; [done|]..|done].
    - rewrite (IHe d l1 f f') by lia. done.
    - rewrite (IHm d l1 f f') by lia. done. }
  split_and!; [done|..]; intros d l [|f] [|f'] Hl Hf Hf'; try lia; cbn.
  - rewrite (HV d l f f') by lia. destruct (value f' d l) as [[v r]|] eqn:Ev; [cbn|done].
    apply value_sound in Ev as [_ Hr]. pose proof (skip_ws_length r).
    destruct (skip_ws r) as [|c r1]; [done|]. cbn in *.
    by rewrite (IHe d r1 f f') by lia.
  - pose proof (skip_ws_length l). destruct (skip_ws l) as [|b l1]; [done|]. cbn in *.
    case_decide; [|done]. destruct (scan_str l1) as [[k r]|] eqn:Es; [cbn|done].
    apply scan_str_wf in Es as [_ Hr]. pose proof (skip_ws_length r).
    destruct (skip_ws r) as [|c r1]; [done|]. cbn in *. case_decide; [|done].
    rewrite (HV d r1 f f') by lia. destruct (value f' d r1) as [[v r2]|] eqn:Ev; [cbn|done].
    apply value_sound in Ev as [_ Hr']. pose proof (skip_ws_length r2).
    destruct (skip_ws r2) as [|c' r3]; [done|]. cbn in *.
    by rewrite (IHm d r3 f f') by lia.
Qed.

(** [fuel] is enough. *)
Lemma value_enough f d l : (fuel l <= f)%nat → value f d l = value (fuel l) d l.
Proof. unfold fuel. intros H. apply (value_fuel (length l)); lia. Qed.

(** ** Printing and reading back *)

Lemma skip_ws_stop b l : is_ws b = false → skip_ws (b :: l) = b :: l.
Proof. intros H. cbn. by rewrite H. Qed.

Lemma number_head b : b = x2d ∨ is_digit b = true →
  is_ws b = false ∧ b ∉ [x22; x5b; x5d; x7b; x74; x66; x6e].
Proof.
  intros H. split.
  - unfold is_ws. apply bool_decide_eq_false. set_unfold. destruct H as [-> | H]; [naive_solver|].
    intros [-> | [-> | [-> | [-> | []]]]]; done.
  - set_unfold. destruct H as [-> | H]; [naive_solver|].
    intros Hb. repeat destruct Hb as [-> | Hb]; done.
Qed.

Lemma print_head d v : wf d v → ∃ b t, print v = b :: t ∧ is_ws b = false ∧ b ≠ x5d.
Proof.
  destruct v as [x|s|s|vs|ms]; intros Hw.
  - exists (nth 0 (literal_text x) x00), (tail (literal_text x)). by destruct x.
  - assert (number s) as [(b & s' & -> & Hb) _] by by destruct d.
    apply number_head in Hb as [? Hb]. exists b, s'. set_solver.
  - cbn. unfold quoted. eauto.
  - cbn. eauto.
  - cbn. eauto.
Qed.

Lemma value_lit f d x rest :
  value (S f) d (literal_text x ++ rest) = Some (Lit x, rest).
Proof. by destruct x. Qed.

Lemma value_num f d s rest :
  number s → ends rest → value (S f) d (s ++ rest) = Some (Num s, rest).
Proof.
  intros [(b & s' & -> & Hb) Hn] Hr. apply number_head in Hb as [Hw Hb].
  rewrite !not_elem_of_cons in Hb. cbn [value app]. rewrite skip_ws_stop by done.
  rewrite !decide_False by tauto.
  change (b :: s' ++ rest) with ((b :: s') ++ rest). by rewrite Hn.
Qed.

Lemma value_str f d s rest : Body s → value (S f) d (quoted s ++ rest) = Some (Str s, rest).
Proof.
  intros H. unfold quoted. cbn [app]. rewrite <-app_assoc. cbn [app value].
  rewrite skip_ws_stop, decide_True by done. by rewrite scan_str_Body.
Qed.

(** Reading a value back, as a property of a depth. *)
Definition reads_back (d : nat) : Prop := ∀ v f rest,
  wf d v → ends rest → (2 * length (print v) <= f)%nat →
  value f d (print v ++ rest) = Some (v, rest).

Lemma commas_cons l ls :
  commas (l :: ls) = l ++ match ls with [] => [] | _ => x2c :: commas ls end.
Proof. destruct ls; cbn; by rewrite ?app_nil_r. Qed.

Lemma elems_print d : reads_back d → ∀ vs f rest,
  vs ≠ [] → Forall (wf d) vs → (2 * length (commas (map print vs)) + 1 <= f)%nat →
  elems f d (commas (map print vs) ++ x5d :: rest) = Some (vs, rest).
Proof.
  intros Hd vs. induction vs as [|v vs IH]; intros f rest Hne Hw Hf; [done|].
  apply Forall_cons in Hw as [Hv Hw]. destruct f as [|f]; [lia|].
  cbn [map] in Hf |- *. rewrite commas_cons in Hf |- *. rewrite length_app in Hf.
  cbn [elems]. rewrite <-app_assoc. destruct vs as [|v' vs].
  - cbn [map app]. rewrite Hd; [|done|cbn; set_solver|lia]. done.
  - cbn [map app length] in Hf |- *. rewrite Hd; [|done|cbn; set_solver|lia].
    cbn [mbind option_bind]. rewrite skip_ws_stop, decide_True by done.
    cbn [map] in IH. by rewrite IH by (done || lia).
Qed.

Definition print_member (m : list byte * json) : list byte := quoted m.1 ++ x3a :: print m.2.

Lemma membs_print d : reads_back d → ∀ ms f rest,
  ms ≠ [] → Forall (wf_member d) ms →
  (2 * length (commas (map print_member ms)) + 1 <= f)%nat →
  membs f d (commas (map print_member ms) ++ x7d :: rest) = Some (ms, rest).
Proof.
  intros Hd ms. induction ms as [|[k v] ms IH]; intros f rest Hne Hw Hf; [done|].
  apply Forall_cons in Hw as [[Hk Hv] Hw]. cbn in Hk, Hv. destruct f as [|f]; [lia|].
  cbn [map] in Hf |- *. rewrite commas_cons in Hf |- *.
  unfold print_member at 1 in Hf. unfold print_member at 1. cbn [fst snd] in *.
  unfold quoted in *. rewrite !length_app in Hf. cbn [length] in Hf.
  cbn [app]. rewrite <-!app_assoc. cbn [app membs].
  rewrite skip_ws_stop, decide_True, scan_str_Body by done. cbn [mbind option_bind].
  rewrite skip_ws_stop, decide_True by done. destruct ms as [|m ms].
  - cbn [map app]. rewrite Hd; [|done|cbn; set_solver|lia]. done.
  - cbn [map app length] in Hf |- *. rewrite Hd; [|done|cbn; set_solver|lia].
    cbn [mbind option_bind]. rewrite skip_ws_stop, decide_True by done.
    cbn [map] in IH. by rewrite IH by (done || lia).
Qed.

Lemma print_arr vs rest : print (Arr vs) ++ rest = x5b :: commas (map print vs) ++ x5d :: rest.
Proof. cbn. by rewrite <-app_assoc. Qed.

Lemma print_obj ms rest :
  print (Obj ms) ++ rest = x7b :: commas (map print_member ms) ++ x7d :: rest.
Proof. cbn. by rewrite <-app_assoc. Qed.

(** Elements and members start neither with white space nor with a closing bracket. *)
Lemma commas_head ls l rest :
  (∃ b t, l = b :: t ∧ is_ws b = false) →
  ∃ b t, l = b :: t ∧ is_ws b = false ∧ ∃ u, commas (l :: ls) ++ rest = b :: u.
Proof. intros (b & t & -> & Hb). rewrite commas_cons. cbn. eauto 8. Qed.

Lemma value_arr d f vs rest :
  reads_back d → Forall (wf d) vs → (2 * length (print (Arr vs)) <= f)%nat →
  value f (S d) (print (Arr vs) ++ rest) = Some (Arr vs, rest).
Proof.
  intros IH Hw Hf. cbn in Hf. rewrite length_app in Hf. cbn in Hf.
  destruct f as [|f]; [lia|]. rewrite print_arr. destruct vs as [|v vs]; [reflexivity|].
  assert (Forall (wf d) (v :: vs)) as Hw' by done.
  apply Forall_cons in Hw as [Hv _]. destruct (print_head _ _ Hv) as (b & t & E & Hb & Hne).
  destruct (commas_head (map print vs) (print v) (x5d :: rest)) as (? & ? & E' & ? & u & Eu); [eauto|].
  rewrite E in E'. injection E' as <- <-.
  cbn [value]. rewrite skip_ws_stop by done. rewrite decide_False, decide_True by done.
  cbn [map]. rewrite Eu, skip_ws_stop, decide_False, <-Eu by done.
  change (print v :: map print vs) with (map print (v :: vs)).
  by rewrite elems_print by (done || lia).
Qed.

Lemma value_obj d f ms rest :
  reads_back d → Forall (wf_member d) ms → (2 * length (print (Obj ms)) <= f)%nat →
  value f (S d) (print (Obj ms) ++ rest) = Some (Obj ms, rest).
Proof.
  intros IH Hw Hf. change (print (Obj ms)) with (x7b :: commas (map print_member ms) ++ [x7d]) in Hf.
  cbn [length] in Hf. rewrite length_app in Hf. cbn [length] in Hf.
  destruct f as [|f]; [lia|]. rewrite print_obj. destruct ms as [|m ms]; [reflexivity|].
  destruct (commas_head (map print_member ms) (print_member m) (x7d :: rest))
    as (b & ? & E & ? & u & Eu); [unfold print_member, quoted; cbn; eauto|].
  injection E as <- _. cbn [value]. rewrite skip_ws_stop by done.
  rewrite decide_False, decide_False, decide_True by done.
  cbn [map]. rewrite Eu, skip_ws_stop, decide_False, <-Eu by done.
  change (print_member m :: map print_member ms) with (map print_member (m :: ms)).
  by rewrite membs_print by (done || lia).
Qed.

(** A well-formed tree is read back from what it prints to, before any separator. *)
Lemma value_print d : reads_back d.
Proof.
  assert (∀ d v, wf d v → (0 < length (print v))%nat) as Hpos.
  { intros d' v Hw. destruct (print_head _ _ Hw) as (? & ? & -> & _). cbn. lia. }
  induction d as [|d IH]; intros v f rest Hw Hr Hf; pose proof (Hpos _ _ Hw).
  all: destruct f as [|f]; [lia|]; destruct v as [x|s|s|vs|ms].
  all: first [apply value_lit | by apply value_num | by apply value_str | by apply value_arr
             | by apply value_obj | destruct Hw].
Qed.

(** The HTML escapes keep a tree well formed. *)
Lemma wf_html d v : wf d v → wf d (html v).
Proof.
  induction d as [|d IH] in v |- *; destruct v as [x|s|s|vs|ms]; cbn; try done.
  all: try apply Body_html.
  - intros H. apply Forall_map. eapply Forall_impl; [done|]. eauto.
  - intros H. apply Forall_map. eapply Forall_impl; [done|].
    intros [k v] [Hk Hv]. cbn. split; [by apply Body_html|auto].
Qed.

(** A deeper limit accepts what a smaller one does. *)
Lemma wf_mono d d' v : (d <= d')%nat → wf d v → wf d' v.
Proof.
  induction d as [|d IH] in d', v |- *; intros Hd Hw; destruct v as [x|s|s|vs|ms];
    try (by destruct d'); try done; destruct d' as [|d']; try lia; cbn in *;
    (eapply Forall_impl; [done|]); [intros v | intros m [? ?]]; intuition eauto with lia.
Qed.

Lemma parse_wf d l v : parse d l = Some v → wf d v.
Proof.
  unfold parse. destruct (value _ d l) as [[v' r]|] eqn:E; cbn; [|done].
  case_match; [|done]. intros [= <-]. by apply value_sound in E as [? _].
Qed.

(** A well-formed tree is what its text parses to. *)
Lemma parse_print d v : wf d v → parse d (print v) = Some v.
Proof.
  intros Hw. unfold parse, fuel.
  rewrite <-(app_nil_r (print v)) at 2. by rewrite value_print by (done || cbn; lia).
Qed.

Lemma value_deeper f :
  (∀ d d' l x, (d <= d')%nat → value f d l = Some x → value f d' l = Some x) ∧
  (∀ d d' l x, (d <= d')%nat → elems f d l = Some x → elems f d' l = Some x) ∧
  (∀ d d' l x, (d <= d')%nat → membs f d l = Some x → membs f d' l = Some x).
Proof.
  induction f as [|f (IHv & IHe & IHm)]; [done|].
  split_and!; intros d d' l x Hd; cbn.
  - destruct (skip_ws l) as [|b l1]; [done|]. repeat (case_decide; [try done|]); [..|done].
    all: destruct d as [|d]; [done|]; destruct d' as [|d']; [lia|].
    all: destruct (skip_ws l1) as [|c l2]; [done|]; case_decide; [done|].
    + destruct (elems f d l1) eqn:E; [|done]. by rewrite (IHe d d' _ _ ltac:(lia) E).
    + destruct (membs f d l1) eqn:E; [|done]. by rewrite (IHm d d' _ _ ltac:(lia) E).
  - destruct (value f d l) as [[v r]|] eqn:E; [|done]. rewrite (IHv d d' _ _ Hd E).
    cbn. destruct (skip_ws r) as [|c r1]; [done|]. case_decide; [|done].
    destruct (elems f d r1) eqn:E'; [|done]. by rewrite (IHe d d' _ _ Hd E').
  - destruct (skip_ws l) as [|b l1]; [done|]. case_decide; [|done].
    destruct (scan_str l1) as [[k r]|]; [|done]. cbn.
    destruct (skip_ws r) as [|c r1]; [done|]. case_decide; [|done].
    destruct (value f d r1) as [[v r2]|] eqn:E; [|done]. rewrite (IHv d d' _ _ Hd E).
    cbn. destruct (skip_ws r2) as [|c' r3]; [done|]. case_decide; [|done].
    destruct (membs f d r3) eqn:E'; [|done]. by rewrite (IHm d d' _ _ Hd E').
Qed.

(** A text read under a smaller limit from a printed tree is that tree. *)
Lemma value_print_at f d D v rest x :
  (d <= D)%nat → wf D v → ends rest → (2 * length (print v) <= f)%nat →
  value f d (print v ++ rest) = Some x → x = (v, rest) ∧ wf d v.
Proof.
  intros Hd Hw Hr Hf H. apply (proj1 (value_deeper f) d D) in H as H'; [|done].
  rewrite value_print in H' by done. injection H' as <-. split; [done|].
  by apply value_sound in H as [? _].
Qed.

Lemma parse_print_at d D v :
  (d <= D)%nat → wf D v → is_Some (parse d (print v)) ↔ wf d v.
Proof.
  intros Hd Hw. split; [|by intros H; rewrite parse_print].
  unfold parse. intros [v' H]. destruct (value _ d _) as [x|] eqn:E; [|done].
  rewrite <-(app_nil_r (print v)) in E at 2.
  by apply (value_print_at _ _ D) in E as [_ ?]; [|done|done|done|unfold fuel; lia].
Qed.

(** ** What compacting gives *)

Lemma compact_at_print d l c :
  compact_at d l = Some c → ∃ v, parse d l = Some v ∧ wf d (html v) ∧ c = print (html v).
Proof.
  unfold compact_at. destruct (parse d l) as [v|] eqn:E; [|done]. intros [= <-].
  exists v. split_and!; [done|by eapply wf_html, parse_wf|done].
Qed.

Lemma html_html d v : wf d v → html (html v) = html v.
Proof.
  induction d as [|d IH] in v |- *; destruct v as [x|s|s|vs|ms]; cbn; try done.
  1,2: by intros _; rewrite escape_html_idemp.
  - intros H. f_equal. rewrite map_map. apply map_ext_Forall.
    eapply Forall_impl; [done|]. eauto.
  - intros H. f_equal. rewrite map_map. apply map_ext_Forall.
    eapply Forall_impl; [done|]. intros [k v] [_ Hv]. cbn.
    by rewrite escape_html_idemp, IH.
Qed.

(** Compact text stays as it is. *)
Lemma compact_at_idemp d l c : compact_at d l = Some c → compact_at d c = Some c.
Proof.
  intros (v & Hp & Hw & ->)%compact_at_print. unfold compact_at.
  rewrite parse_print by done. cbn. by erewrite html_html by by eapply parse_wf.
Qed.
