(* ===== verification/Commands.v ===== *)
(** * proto/commands.go: the commands a client receives

    The two commands, their [Type] and [ParsePayload] methods, and the validation of
    event names.  [Externals] names what the program takes from outside its own
    source: the google/uuid parser, the JSON encoding of an application's payload
    (which reflects on types the program never sees), and yamux's default
    configuration. *)
From S2P Require Import Prelude MuxConfig JsonString Json.

Definition CommandType := string.

Definition ConnectCommandType : CommandType := "connect".
Definition MuxInitCommandType : CommandType := "mux_init".
Definition MuxReadyCommandType : CommandType := "mux_ready".

(** [json.RawMessage] is a byte slice. *)
Record CustomEventCommand := mkEvent {
  Name : CommandType;
  Data : list byte
}.

(** The implementations of the [Command] interface a client puts on its channel. *)
Inductive Command :=
  | ConnectCommand (ID : uuid)
  | CustomEvent (ev : CustomEventCommand).

#[export] Instance event_eq_dec : EqDecision CustomEventCommand.
Proof. solve_decision. Defined.
#[export] Instance command_eq_dec : EqDecision Command.
Proof. solve_decision. Defined.

(** What the pointer argument of [ParsePayload] points to: a UUID or an application
    value. *)
Inductive any_ptr (P : Type) :=
  | PtrUUID (cur : uuid)
  | PtrOther (cur : P).
Arguments PtrUUID {P} cur.
Arguments PtrOther {P} cur.

Class Externals := {
  (** an application value passed as [any] *)
  payload : Type;
  uuid_FromBytes : list byte → result uuid;
  json_Marshal : payload → result (list byte);
  json_Unmarshal : list byte → any_ptr payload → result (any_ptr payload);
  yamux_DefaultConfig : Mux.yamux_Config
}.

(** The documented behaviour of these functions the program relies on:
    [uuid.FromBytes] copies a slice of sixteen bytes, and what [json.Marshal] returns is
    not empty and already compact, with its HTML escapes. *)
Class ExternalsOk (X : Externals) := {
  uuid_FromBytes_ok : ∀ id : uuid, uuid_FromBytes (vec_to_list id) = Ok id;
  json_Marshal_compact : ∀ data d,
    json_Marshal data = Ok d → d ≠ [] ∧ ∀ c, compact d = Some c → c = d
}.

Section commands.
Context `{X : Externals}.

Definition NewCommandType (name : string) : result CommandType :=
  if decide (name = EmptyString) then
    Err (Errorf "event name cannot be empty" [])
  else if decide (name = ConnectCommandType ∨ name = MuxInitCommandType
                  ∨ name = MuxReadyCommandType) then
    Err (Errorf "event name cannot contain reserved command names" [])
  else Ok name.

Definition NewCustomEventCommand (name : string) (data : payload) :
    result CustomEventCommand :=
  typeName ← wrap_err "failed to create custom event command: %w" (NewCommandType name);
  dataBytes ← wrap_err "failed to marshal custom event data: %w" (json_Marshal data);
  Ok {| Name := typeName; Data := dataBytes |}.

(** [Type] of the two commands. *)
Definition Type_ (c : Command) : CommandType :=
  match c with
  | ConnectCommand _ => ConnectCommandType
  | CustomEvent ev => Name ev
  end.

(** [ParsePayload] of the two commands, returning the updated pointee.  (The message
    of the first prints the argument's type, which is not kept.) *)
Definition ParsePayload (c : Command) (data : any_ptr payload) :
    result (any_ptr payload) :=
  match c with
  | ConnectCommand id =>
      match data with
      | PtrUUID _ => Ok (PtrUUID id)
      | PtrOther _ =>
          Err (Errorf "failed to parse connect command: expected *uuid.UUID, got %T" [])
      end
  | CustomEvent ev =>
      wrap_err "failed to unmarshal custom event data: %w" (json_Unmarshal (Data ev) data)
  end.

(** A name is accepted exactly when it is neither empty nor reserved. *)
Lemma NewCommandType_Ok name t :
  NewCommandType name = Ok t ↔
    t = name ∧ name ≠ EmptyString ∧ name ≠ ConnectCommandType ∧
    name ≠ MuxInitCommandType ∧ name ≠ MuxReadyCommandType.
Proof.
  unfold NewCommandType. destruct (decide (name = EmptyString)) as [->|]; [split; [done|tauto]|].
  destruct (decide _) as [H|H]; [split; [done|tauto]|].
  split; [intros [= <-]; tauto | by intros [-> _]].
Qed.

Lemma NewCustomEventCommand_Ok name data ev :
  NewCustomEventCommand name data = Ok ev ↔
    ∃ d, json_Marshal data = Ok d ∧ NewCommandType name = Ok name ∧ ev = mkEvent name d.
Proof.
  unfold NewCustomEventCommand.
  destruct (NewCommandType name) as [t|e] eqn:E; simpl;
    [|split; [done | by intros (d & _ & ? & _)]].
  assert (t = name) as -> by (by apply NewCommandType_Ok in E as [-> _]).
  destruct (json_Marshal data) as [d|e]; simpl.
  - split; [intros [= <-]; by exists d | by intros (? & [= ->] & _ & ->)].
  - split; [done | by intros (? & ? & _)].
Qed.

End commands.
