(* ===== verification/Event.v ===== *)
(** * The JSON form of a custom event

    [json.Marshal] and [json.Unmarshal] at the type [CustomEventCommand]: an object with
    the members "n" and "d" its tags name (proto/commands.go), the second a
    [json.RawMessage].  [SendCustomEvent] writes it, the client's command loop reads it.
    The marshaller compacts the raw data; the decoder matches keys regardless of case,
    ignores the ones it does not know, keeps the last of the ones it does, and reports the
    first value of a wrong type only after reading them all. *)
From S2P Require Import Prelude JsonString Json MuxConfig Commands.

(** The keys the struct tags name. *)
Definition name_key : list byte := [x6e].
Definition data_key : list byte := [x64].

(** A nil [RawMessage] is written as null.  One that is empty but not nil, an error of
    json.Marshal, is not told from it: it is no value's encoding, and [SendCustomEvent] puts
    only encodings here. *)
Definition raw_message (d : list byte) : option (list byte) :=
  if decide (d = []) then Some (literal_text Lnull) else compact d.

Definition Marshal_event (e : CustomEventCommand) : result (list byte) :=
  match raw_message (Data e) with
  | Some d =>
      Ok (x7b :: (quoted name_key ++ x3a :: quoted (encode_body (bytes_of_string (Name e)))) ++
          x2c :: (quoted data_key ++ x3a :: d) ++ [x7d])
  | None => Err (Errorf "json: error calling MarshalJSON for type json.RawMessage" [])
  end.

(** A member: its key, the text of its value, and the value. *)
Record field := mkField { f_key : list byte; f_raw : list byte; f_value : json }.

(** The members of an object, from behind its opening bracket. *)
Fixpoint fields (f d : nat) (l : list byte) : option (list field) :=
  match f with
  | O => None
  | S f =>
      match skip_ws l with
      | b :: l1 =>
          if decide (b = x22) then
            '(k, r) ← scan_str l1;
            match skip_ws r with
            | c :: r1 =>
                if decide (c = x3a) then
                  let t := skip_ws r1 in
                  '(v, r2) ← value f d t;
                  let fl := mkField k (take (length t - length r2) t) v in
                  match skip_ws r2 with
                  | c :: r3 =>
                      if decide (c = x2c) then fls ← fields f d r3; Some (fl :: fls)
                      else if decide (c = x7d) then Some [fl]
                      else None
                  | [] => None
                  end
                else None
            | [] => None
            end
          else None
      | [] => None
      end
  end.

(** Which field of the struct a key names: an exact match or one up to case. *)
Inductive target := TName | TData | TNone.

Definition field_of (key : list byte) : target :=
  if decide (key = name_key ∨ key = [x4e]) then TName
  else if decide (key = data_key ∨ key = [x44]) then TData
  else TNone.

Definition type_error : error :=
  Errorf "json: cannot unmarshal %s into Go value of type proto.CommandType" [].

(** One member into the struct, with the first type error so far ([saveError]). *)
Definition store (acc : CustomEventCommand * option error) (fl : field) :
    CustomEventCommand * option error :=
  let '(ev, err) := acc in
  match field_of (default [] (unquote (f_key fl))) with
  | TNone => acc
  | TData => (mkEvent (Name ev) (f_raw fl), err)
  | TName =>
      match f_value fl with
      | Str s => (mkEvent (string_of_bytes (default [] (unquote s))) (Data ev), err)
      | Lit Lnull => acc
      | _ => (ev, Some (default type_error err))
      end
  end.

Definition zero_event : CustomEventCommand := mkEvent "" [].

Definition syntax_error : error := Errorf "json: syntax error" [].

(** The nesting the scanner's limit leaves to the members of an object. *)
Definition data_depth : nat := pred max_depth.

Definition Unmarshal_event (l : list byte) : result CustomEventCommand :=
  match parse max_depth l with
  | None => Err syntax_error
  | Some (Lit Lnull) | Some (Obj []) => Ok zero_event
  | Some (Obj _) =>
      match skip_ws l with
      | _ :: l1 =>
          match fields (fuel l1) data_depth l1 with
          | Some fls =>
              let '(ev, err) := fold_left store fls (zero_event, None) in
              match err with Some e => Err e | None => Ok ev end
          | None => Err syntax_error
          end
      | [] => Err syntax_error
      end
  | Some _ => Err (Errorf "json: cannot unmarshal %s into Go value of type proto.CustomEventCommand" [])
  end.

(** ** The text of an event as a tree *)

Definition event_tree (name : string) (v : json) : json :=
  Obj [(name_key, Str (encode_body (bytes_of_string name))); (data_key, v)].

Lemma max_depth_S : max_depth = S data_depth.
Proof. unfold data_depth, max_depth. lia. Qed.

Lemma data_depth_le : (data_depth <= max_depth)%nat.
Proof. unfold data_depth. lia. Qed.

Lemma max_depth_Z : Z.of_nat max_depth = 10000.
Proof. unfold max_depth. lia. Qed.

(** Nothing else needs the numeral. *)
#[global] Opaque max_depth data_depth.

Lemma raw_message_print data d :
  raw_message data = Some d → ∃ v, wf max_depth v ∧ d = print v.
Proof.
  unfold raw_message. case_decide; [intros [= <-]; exists (Lit Lnull); by rewrite max_depth_S|].
  intros (v & _ & ? & ->)%compact_at_print. eauto.
Qed.

Lemma Marshal_event_tree e bs :
  Marshal_event e = Ok bs ↔
  ∃ v, raw_message (Data e) = Some (print v) ∧ wf max_depth v ∧ bs = print (event_tree (Name e) v).
Proof.
  unfold Marshal_event. split.
  - destruct (raw_message _) as [d|] eqn:E; [|done]. intros [= <-].
    destruct (raw_message_print _ _ E) as (v & Hw & ->). exists v. split_and!; [done|done|].
    unfold event_tree. cbn. by rewrite <-!app_assoc.
  - intros (v & -> & _ & ->). f_equal. unfold event_tree. cbn. by rewrite <-!app_assoc.
Qed.

Lemma wf_event_tree d name v : wf (S d) (event_tree name v) ↔ wf d v.
Proof.
  cbn. rewrite !Forall_cons, Forall_nil. cbn. split; [tauto|]. intros H. split_and!; try done.
  - by apply body_plain; [..|constructor].
  - pose proof (Body_encode (bytes_of_string name)). by destruct d.
  - by apply body_plain; [..|constructor].
Qed.

(** ** The decoder's second pass finds what the first one validated *)

Lemma skip_ws_skip_ws l : skip_ws (skip_ws l) = skip_ws l.
Proof. induction l as [|b l IH]; cbn; [done|]. destruct (is_ws b) eqn:E; [done|]. cbn. by rewrite E. Qed.

Lemma value_skip_ws f d l : value f d (skip_ws l) = value f d l.
Proof. destruct f as [|f]; [done|]. cbn [value]. by rewrite skip_ws_skip_ws. Qed.

Lemma fields_membs f d l ms r :
  membs f d l = Some (ms, r) →
  ∃ fls, fields f d l = Some fls ∧ map (λ fl, (f_key fl, f_value fl)) fls = ms.
Proof.
  induction f as [|f IH] in l, ms, r |- *; [done|]. cbn.
  destruct (skip_ws l) as [|b l1]; [done|]. case_decide; [|done].
  destruct (scan_str l1) as [[k r1]|]; [|done]. cbn.
  destruct (skip_ws r1) as [|c r2]; [done|]. case_decide; [|done]. rewrite value_skip_ws.
  destruct (value f d r2) as [[v r3]|]; [|done]. cbn.
  destruct (skip_ws r3) as [|c' r4]; [done|]. case_decide.
  - destruct (membs f d r4) as [[ms' r5]|] eqn:E; [|done]. cbn. intros [= <- <-].
    destruct (IH _ _ _ E) as (fls & -> & <-). cbn. eauto.
  - case_decide; [|done]. intros [= <- <-]. eauto.
Qed.

(** The members of an object that parses. *)
Lemma parse_obj l m ms :
  parse max_depth l = Some (Obj (m :: ms)) →
  ∃ l1 r, skip_ws l = x7b :: l1 ∧ membs (fuel l1) data_depth l1 = Some (m :: ms, r).
Proof.
  unfold parse. destruct (value _ _ l) as [[v r]|] eqn:E; [|done]. cbn.
  case_match; [|done]. intros [= ->]. unfold fuel in E. rewrite Nat.add_comm in E.
  cbn [value Nat.add] in E. pose proof (skip_ws_length l) as Hl.
  destruct (skip_ws l) as [|b l1]; [done|]. rewrite max_depth_S in E.
  repeat (case_decide; subst; [try done|]).
  - by destruct (scan_str l1) as [[? ?]|].
  - destruct (skip_ws l1) as [|c l2]; [done|]. case_decide; [done|].
    by destruct (elems _ _ l1) as [[? ?]|].
  - destruct (skip_ws l1) as [|c l2]; [done|]. case_decide; [done|].
    destruct (membs _ _ l1) as [[ms' r']|] eqn:Em; [|done]. injection E as -> ->.
    exists l1, r. split; [done|]. rewrite <-Em. cbn in Hl.
    apply (value_fuel (length l1)); unfold fuel; lia.
  - by apply scan_lit_sound in E as [? _].
  - by apply scan_lit_sound in E as [? _].
  - by apply scan_lit_sound in E as [? _].
  - by destruct (scan_num _) as [[? ?]|].
Qed.

(** What a member leaves: only a name that is neither a string nor null is an error. *)
Definition acceptable (m : list byte * json) : bool :=
  match field_of (default [] (unquote m.1)), m.2 with
  | TName, Str _ | TName, Lit Lnull => true
  | TName, _ => false
  | _, _ => true
  end.

Lemma store_error acc fl :
  is_Some (store acc fl).2 ↔ is_Some acc.2 ∨ acceptable (f_key fl, f_value fl) = false.
Proof.
  destruct acc as [ev err]. unfold store, acceptable. cbn.
  destruct (field_of _); cbn; [|intuition congruence..].
  destruct (f_value fl) as [[]| | | |]; cbn; intuition (eauto || congruence).
Qed.

Lemma store_errors fls acc :
  is_Some (fold_left store fls acc).2 ↔
  is_Some acc.2 ∨ Exists (λ fl, acceptable (f_key fl, f_value fl) = false) fls.
Proof.
  induction fls as [|fl fls IH] in acc |- *; cbn; [rewrite Exists_nil; tauto|].
  rewrite IH, store_error, Exists_cons. tauto.
Qed.

(** C37: Which texts decode to an event: null, or an object whose name members are strings or null. *)
Theorem Unmarshal_event_accepts l :
  is_Ok (Unmarshal_event l) = true ↔
    parse max_depth l = Some (Lit Lnull) ∨
    ∃ ms, parse max_depth l = Some (Obj ms) ∧ ¬ Exists (λ m, acceptable m = false) ms.
Proof.
  unfold Unmarshal_event. destruct (parse max_depth l) as [v|] eqn:E;
    [|by split; [|intros [?|(? & ? & ?)]]].
  destruct v as [[]|s|s|vs|[|m ms]]; try by split; [|intros [?|(? & ? & ?)]].
  { by split; [intros _; left|]. }
  { split; [intros _; right; exists []; split; [done|by intros ?%Exists_nil]|done]. }
  apply parse_obj in E as (l1 & r & -> & Hm).
  destruct (fields_membs _ _ _ _ _ Hm) as (fls & -> & Hf).
  pose proof (store_errors fls (zero_event, None)) as Hs.
  destruct (fold_left store fls _) as [ev err]. cbn in Hs.
  rewrite <-Hf in *. split.
  - destruct err as [e|]; [done|]. intros _. right. eexists. split; [done|].
    rewrite Exists_fmap. intros Hx. destruct Hs as [_ Hs]. by destruct Hs; [right|].
  - intros [?|(ms' & [= <-] & Hx)]; [done|]. destruct err as [e|]; [|done].
    exfalso. apply Hx. rewrite Exists_fmap. by destruct Hs as [[[? ?]|?] _].
Qed.

(** The decoder's reading of an event's text: the data, then both members. *)
Lemma fields_data f m v :
  wf m v → (2 * length (print v) + 1 <= f)%nat →
  fields f m (quoted data_key ++ x3a :: print v ++ [x7d]) = Some [mkField data_key (print v) v].
Proof.
  intros Hw Hf. destruct f as [|f]; [lia|].
  destruct (print_head _ _ Hw) as (b & t & Ht & Hb & _).
  assert (skip_ws (print v ++ [x7d]) = print v ++ [x7d]) as Hs
    by (rewrite Ht; by apply skip_ws_stop).
  change (quoted data_key ++ x3a :: print v ++ [x7d])
    with (x22 :: data_key ++ x22 :: x3a :: print v ++ [x7d]).
  cbn [fields]. rewrite skip_ws_stop, decide_True by done.
  rewrite scan_str_Body by (apply body_plain; [done..|constructor]).
  cbn [mbind option_bind]. rewrite skip_ws_stop, decide_True by done.
  rewrite Hs, value_print by (done || lia || (cbn; set_solver)).
  cbn [mbind option_bind]. by rewrite skip_ws_stop, length_app, Nat.add_sub, take_app_length by done.
Qed.

Lemma fields_event f m name v :
  wf m v → (2 * length (print v) + 3 <= f)%nat →
  fields f m (quoted name_key ++ x3a :: quoted (encode_body (bytes_of_string name)) ++
              x2c :: quoted data_key ++ x3a :: print v ++ [x7d]) =
  Some [mkField name_key (quoted (encode_body (bytes_of_string name)))
          (Str (encode_body (bytes_of_string name)));
        mkField data_key (print v) v].
Proof.
  intros Hw Hf. do 2 (destruct f as [|f]; [lia|]).
  pose proof (fields_data (S f) m v Hw ltac:(lia)) as Hd.
  remember (quoted data_key ++ x3a :: print v ++ [x7d]) as rest.
  pose proof (Body_encode (bytes_of_string name)) as HE. remember (encode_body _) as E.
  replace (quoted name_key ++ x3a :: quoted E ++ x2c :: rest)
    with (x22 :: name_key ++ x22 :: x3a :: quoted E ++ x2c :: rest) by done.
  remember (S f) as f1 eqn:Ef. cbn [fields]. rewrite skip_ws_stop, decide_True by done.
  rewrite scan_str_Body by (apply body_plain; [done..|constructor]).
  cbn [mbind option_bind]. rewrite skip_ws_stop, decide_True by done.
  assert (skip_ws (quoted E ++ x2c :: rest) = quoted E ++ x2c :: rest) as -> by done.
  rewrite Ef at 1. rewrite value_str by done. cbn [mbind option_bind].
  rewrite skip_ws_stop, decide_True, Hd by done. cbn [mbind option_bind].
  by rewrite length_app, Nat.add_sub, take_app_length.
Qed.

Lemma print_event_tree name v :
  print (event_tree name v) =
    x7b :: quoted name_key ++ x3a :: quoted (encode_body (bytes_of_string name)) ++
    x2c :: quoted data_key ++ x3a :: print v ++ [x7d].
Proof. unfold event_tree. cbn. by rewrite <-!app_assoc. Qed.

Lemma store_name name raw ev err :
  store (ev, err) (mkField name_key raw (Str (encode_body (bytes_of_string name)))) =
    (mkEvent (string_of_bytes (sanitize (bytes_of_string name))) (Data ev), err).
Proof.
  unfold store. cbn [f_key f_value]. by rewrite unquote_encode.
Qed.

Lemma store_data raw v ev err :
  store (ev, err) (mkField data_key raw v) = (mkEvent (Name ev) raw, err).
Proof. reflexivity. Qed.

(** Data is valid inside the object when it leaves room for the object's bracket. *)
Lemma parse_event_tree name v :
  wf max_depth v → is_Some (parse max_depth (print (event_tree name v))) ↔ wf data_depth v.
Proof.
  intros Hw. rewrite <-(wf_event_tree data_depth name v), max_depth_S.
  apply (parse_print_at _ (S max_depth)); [by rewrite max_depth_S; lia|].
  by apply wf_event_tree.
Qed.

(** ** The round trip

    The name a client sees, the data it can read, and what it decodes from what the
    server encoded. *)
Definition received_name (name : string) : string :=
  string_of_bytes (sanitize (bytes_of_string name)).

Lemma received_valid name : utf8_Valid (bytes_of_string name) = true → received_name name = name.
Proof. intros H. unfold received_name. by rewrite sanitize_valid, string_bytes. Qed.

Definition shallow (d : list byte) : bool := bool_decide (is_Some (parse data_depth d)).

Lemma event_text_decodes e bs :
  Marshal_event e = Ok bs →
  ∃ d, raw_message (Data e) = Some d ∧
    Unmarshal_event bs = if shallow d then Ok (mkEvent (received_name (Name e)) d)
                         else Err syntax_error.
Proof.
  intros (v & Hd & Hw & ->)%Marshal_event_tree. exists (print v). split; [done|].
  assert (is_Some (parse data_depth (print v)) ↔ wf data_depth v) as Hi
    by (apply (parse_print_at _ max_depth); [apply data_depth_le|done]).
  pose proof (parse_event_tree (Name e) v Hw) as Hp. unfold Unmarshal_event.
  unfold shallow. case_bool_decide as Hb.
  - apply Hi in Hb as Hv.
    assert (wf max_depth (event_tree (Name e) v)) as Ht.
    { rewrite max_depth_S. apply wf_event_tree. exact Hv. }
    rewrite (parse_print _ _ Ht). unfold event_tree at 1.
    rewrite print_event_tree, skip_ws_stop by done. rewrite fields_event; [|done|].
    { cbn [fold_left]. by rewrite store_name, store_data. }
    unfold fuel. repeat first [rewrite length_app | progress cbn [length]]. lia.
  - destruct (parse max_depth _); [|done]. exfalso. apply Hb, Hi, Hp. eauto.
Qed.

(** C9: An event through its JSON text and back, for every name and all raw data: when
    the data is a JSON text (or absent, which is null), what decodes is the name with
    replacement characters for what is not UTF-8, and the data compacted; but data
    nested so deep that only the object around it exceeds the scanner's limit is encoded
    and never decodes.  Other data is not encoded. *)
Theorem event_roundtrip name data :
  match raw_message data with
  | Some d => ∃ bs, Marshal_event (mkEvent name data) = Ok bs ∧
      Unmarshal_event bs = if shallow d then Ok (mkEvent (received_name name) d)
                           else Err syntax_error
  | None => ∃ err, Marshal_event (mkEvent name data) = Err err
  end.
Proof.
  destruct (Marshal_event (mkEvent name data)) as [bs|err] eqn:E.
  - destruct (event_text_decodes _ _ E) as (d & Hd & Hu). cbn in Hd, Hu. rewrite Hd. eauto.
  - unfold Marshal_event in E. cbn in E. destruct (raw_message data); [done|eauto].
Qed.

(** ** The event that is sent and never read: brackets as deep as the scanner allows *)

Fixpoint nest (n : nat) : json :=
  match n with O => Num [x31] | S n => Arr [nest n] end.

Lemma number_one : number [x31].
Proof.
  split; [exists x31, []; auto|]. intros [|b rest] Hr; [done|].
  cbn in Hr. set_unfold in Hr. by destruct Hr as [->|[->|[->|[]]]].
Qed.

Lemma wf_nest n d : wf d (nest n) ↔ (n <= d)%nat.
Proof.
  induction n as [|n IH] in d |- *.
  - split; [lia|]. intros _. destruct d; exact number_one.
  - destruct d as [|d]; cbn; [lia|]. rewrite Forall_cons, Forall_nil, IH. lia.
Qed.

Lemma html_nest n : html (nest n) = nest n.
Proof. induction n as [|n IH]; cbn; [done|by rewrite IH]. Qed.

Lemma length_nest n : length (print (nest n)) = (2 * n + 1)%nat.
Proof. induction n as [|n IH]; [done|]. cbn. rewrite length_app, IH. cbn. lia. Qed.

(** It fits the length field of a message: 20001 bytes of data, and the envelope. *)
Lemma deepest_event name :
  let data := print (nest max_depth) in
  ∃ bs, Marshal_event (mkEvent name data) = Ok bs ∧
    Z.of_nat (length bs) = 20014 + Z.of_nat (length (encode_body (bytes_of_string name))) ∧
    shallow data = false ∧ Unmarshal_event bs = Err syntax_error.
Proof.
  cbn zeta. set (v := nest max_depth).
  assert (wf max_depth v) as Hw by by apply wf_nest.
  assert (raw_message (print v) = Some (print v)) as Hraw.
  { unfold raw_message. destruct (print_head _ _ Hw) as (b & t & E & _).
    rewrite decide_False by by rewrite E. unfold compact, compact_at.
    rewrite parse_print by done. cbn. by unfold v; rewrite html_nest. }
  assert (shallow (print v) = false) as Hsh.
  { apply bool_decide_eq_false. rewrite (parse_print_at _ max_depth) by (apply data_depth_le || exact Hw).
    unfold v. rewrite wf_nest, max_depth_S. lia. }
  assert (Marshal_event (mkEvent name (print v)) = Ok (print (event_tree name v))) as Hm
    by (apply Marshal_event_tree; eauto).
  exists (print (event_tree name v)). split_and!; [done| |done|].
  - rewrite print_event_tree. repeat first [rewrite length_app | progress cbn [length]].
    unfold v. rewrite length_nest. pose proof max_depth_Z. unfold quoted, name_key, data_key.
    repeat first [rewrite length_app | progress cbn [length]]. lia.
  - destruct (event_text_decodes _ _ Hm) as (d & Hd & ->). cbn in Hd.
    rewrite Hraw in Hd. injection Hd as <-. by rewrite Hsh.
Qed.

Section sent.
Context `{X : Externals} {XOk : ExternalsOk X}.

(** What an application's event decodes to. *)
Lemma sent_event_decodes name data d bs :
  json_Marshal data = Ok d → Marshal_event (mkEvent name d) = Ok bs →
  Unmarshal_event bs = if shallow d then Ok (mkEvent (received_name name) d)
                       else Err syntax_error.
Proof.
  intros [Hne Hc]%json_Marshal_compact (d' & Hd & ->)%event_text_decodes.
  cbn in *. unfold raw_message in Hd. rewrite decide_False in Hd by done.
  by rewrite (Hc _ Hd).
Qed.

End sent.
