(* ===== verification/Demo.v ===== *)
(** * A concrete instance of what the program takes from outside

    [Externals] is satisfiable: a UUID parser that copies sixteen bytes, and payloads
    that are raw JSON texts, which encoding compacts.  The witnesses of the other files
    run against it. *)
From S2P Require Import Prelude MuxConfig JsonString Json Commands.

Definition demo_FromBytes (l : list byte) : result uuid :=
  match uuid_of_list l with
  | Some i => Ok i
  | None => Err (Errorf "invalid UUID (got %d bytes)" [Z.of_nat (length l)])
  end.

Definition demo_Marshal (p : list byte) : result (list byte) :=
  match compact p with
  | Some d => Ok d
  | None => Err (Errorf "json: error calling MarshalJSON for type json.RawMessage" [])
  end.

#[export] Instance demo : Externals := {
  payload := list byte;
  uuid_FromBytes := demo_FromBytes;
  json_Marshal := demo_Marshal;
  json_Unmarshal l d := match d with PtrUUID _ => Err (Errorf "not a UUID" []) | PtrOther _ => Ok (PtrOther l) end;
  yamux_DefaultConfig := Mux.mkYamux 262144 (30 * Second) (10 * Second) ∅
}.

Lemma demo_FromBytes_vec (id : uuid) : demo_FromBytes (vec_to_list id) = Ok id.
Proof. unfold demo_FromBytes. by rewrite uuid_of_list_to_list. Qed.

#[export] Instance demo_ok : ExternalsOk demo.
Proof.
  split; [exact demo_FromBytes_vec|]. cbn. intros p d. unfold demo_Marshal.
  destruct (compact p) as [c|] eqn:E; [|done]. intros [= <-]. split.
  - apply compact_at_print in E as (v & _ & Hw & ->).
    destruct (print_head _ _ Hw) as (? & ? & -> & _). done.
  - apply compact_at_idemp in E. intros c' E'. change (compact_at max_depth c = Some c') in E'.
    rewrite E in E'. by injection E' as <-.
Qed.
