(* ===== verification/GoIO.v ===== *)
(** * Programs that talk to the world, and what they can observe

    The source's methods read and write connections, use yamux sessions, select on
    channels and start goroutines.  A method is translated to a program of [io]: a
    tree of calls whose next step depends on the answer the world gives.  The tree is
    finite, so it has several readings, all used by the other files:

    - [traces p tr a]: [p] can return [a] having exchanged the calls and answers
      [tr] (every behaviour of the world);
    - [wp p Q]: [Q] holds of every such trace and result, with its rules;
    - [run h p w]: the executable run against a world given by a handler [h];
    - the interleaved run of two programs over a connection (file Handshake).

    [M S] adds the receiver's state [S] and Go's error results. *)
From S2P Require Import Prelude MuxConfig Commands.

(** An end of a connection (a [net.Conn]) and a yamux session are names the world
    knows. *)
Definition handle := nat.
Definition session := nat.

(** What [Read(buf)] gives for a buffer that is not empty: at least one byte, or an
    error with the bytes that came before it (the contract of [net.Conn]). *)
Inductive rd :=
  | RdData (b : byte) (bs : list byte)
  | RdErr (bs : list byte) (e : io_error).

(** The goroutines the methods start. *)
Inductive goroutine :=
  | GCloseOnDone (h : handle)      (** [<-ctx.Done(); conn.Close()] *)
  | GCommandLoop (h : handle)      (** the client's command loop *)
  | GServe                         (** the dialer's accept loop *)
  | GCloseListener                 (** [<-d.ctx.Done(); d.listener.Close()] *)
  | GHandleConn (h : handle)       (** [d.handleConnection(ctx, conn)] *)
  | GRemoveOnDone (c : nat)        (** the dialer's goroutine for a V1 connection *)
  | GAcceptStreams (c : nat)       (** the dialer's goroutine for a V2 connection *)
  | GHandleStream (h : handle)     (** [d.handleV2Stream(d.ctx, stream)] *)
  | GCloseServerOnDone (c : nat)   (** [select { case <-d.ctx.Done(): s.Close(); case <-done: }] *)
  | GMonitor.                      (** [p.monitorAndScale()] of the pool *)

Inductive call :=
  | CRead (h : handle) (n : nat)
  | CWrite (h : handle) (bs : list byte)
  | CClose (h : handle)
  | CYamuxServer (h : handle) (cfg : Mux.yamux_Config)
  | CYamuxClient (h : handle) (cfg : Mux.yamux_Config)
  | CAcceptStream (s : session)
  | COpenStream (s : session)
  | CSessionClose (s : session)
  | CSelectSend (cmd : Command)    (** [select { case <-ctx.Done(): case cmds <- cmd: }] *)
  | CPollDone                      (** [select { case <-ctx.Done(): default: }] *)
  | CCancel                        (** [c.cancel()] *)
  | CCloseCmds                     (** [close(c.cmds)] *)
  | CWait                          (** [c.wg.Wait()] *)
  | CGo (g : goroutine)
  | CDial (addr : string) (keepAlive : Z) (tls : option nat)
      (** [l.dialer.DialContext(ctx, "tcp", addr)], with the dialer's settings *)
  | CNewUUID                       (** [uuid.New()] *)
  | CSelectConn (ch : nat)         (** [select { case <-ctx.Done(): case conn := <-ch: }] *)
  | CDeliver (ch : nat) (h : handle)
      (** [select { case req.ch <- conn: case <-req.ctx.Done(): ... }] *)
  | CCloseDone                     (** [close(done)] of [handleConnection] *)
  | CListen (addr : string) (tls : bool)   (** [net.Listen] or [tls.Listen] *)
  | CResolve (addr : string)       (** [net.ResolveTCPAddr] *)
  | CAcceptConn                    (** [d.listener.Accept()] *)
  | CNextCmd                       (** [select { case <-l.ctx.Done(): case cmd, ok := <-cmds: }] *)
  | CHandler (f : nat) (cmd : Command).   (** an application's event handler *)

Definition answer (c : call) : Type :=
  match c with
  | CRead _ _ => rd
  | CWrite _ _ | CClose _ | CSessionClose _ => option io_error
  | CYamuxServer _ _ | CYamuxClient _ _ => io_error + session
  | CAcceptStream _ | COpenStream _ | CDial _ _ _ | CAcceptConn => io_error + handle
  | CListen _ _ => option io_error
  | CResolve _ => io_error + string
  | CSelectSend _ | CPollDone | CDeliver _ _ => bool
  | CNewUUID => uuid
  | CSelectConn _ => option handle
  | CNextCmd => option Command
  | CCancel | CCloseCmds | CCloseDone | CWait | CGo _ | CHandler _ _ => ()
  end.

Inductive io (A : Type) : Type :=
  | Ret (a : A)
  | Call (c : call) (k : answer c → io A).
Arguments Ret {A} a.
Arguments Call {A} c k.

Definition event : Type := { c : call & answer c }.
Definition ev (c : call) (r : answer c) : event := existT c r.

#[export] Instance io_ret : MRet io := @Ret.
#[export] Instance io_bind : MBind io := λ A B f,
  fix go (p : io A) : io B :=
    match p with
    | Ret a => f a
    | Call c k => Call c (λ r, go (k r))
    end.

Definition call_ (c : call) : io (answer c) := Call c Ret.

(** ** Programs with a receiver and error results *)

Definition M (S A : Type) : Type := S → io (S * result A).

#[export] Instance M_ret S : MRet (M S) := λ A a s, Ret (s, Ok a).
(** What follows a method: the rest on a value, the early return on an error. *)
Definition after {S A B} (f : A → M S B) : S * result A → io (S * result B) := λ '(s, r),
  match r with
  | Ok a => f a s
  | Err e => Ret (s, Err e)
  end.

#[export] Instance M_bind S : MBind (M S) := λ A B f m s, m s ≫= after f.

Section M.
Context {S : Type}.

(** [return ..., err] *)
Definition throw {A} (e : error) : M S A := λ s, Ret (s, Err e).
Definition get : M S S := λ s, Ret (s, Ok s).
Definition modify (f : S → S) : M S () := λ s, Ret (f s, Ok ()).
Definition lift {A} (p : io A) : M S A := λ s, a ← p; Ret (s, Ok a).
Definition liftR {A} (p : io (result A)) : M S A := λ s, r ← p; Ret (s, r).

(** [if err != nil { return fmt.Errorf(msg, err) }] around [m] *)
Definition wrap {A} (msg : string) (m : M S A) : M S A := λ s,
  '(s', r) ← m s; Ret (s', wrap_err msg r).

(** [err := m()], the error kept as a value. *)
Definition attempt {A} (m : M S A) : M S (result A) := λ s,
  '(s', r) ← m s; Ret (s', Ok r).

(** A call whose answer is an [error]. *)
Definition check (c : io (option io_error)) : M S () := λ s,
  e ← c; Ret (s, match e with None => Ok () | Some err => Err (IOErr err) end).

(** A method of a part of the receiver: an embedded struct, or the heap. *)
Definition zoom {T A} (part : S → T) (put : T → S → S) (m : M T A) : M S A := λ s,
  '(t, r) ← m (part s); Ret (put t s, r).

(** A method of a local variable. *)
Definition on_local {T A} (t : T) (m : M T A) : M S (T * result A) := λ s,
  tr ← m t; Ret (s, Ok tr).

End M.

#[global] Arguments on_local : simpl never.
#[global] Arguments zoom : simpl never.
#[global] Arguments M_ret : simpl never.
#[global] Arguments M_bind : simpl never.
#[global] Arguments throw : simpl never.
#[global] Arguments get : simpl never.
#[global] Arguments modify : simpl never.
#[global] Arguments lift : simpl never.
#[global] Arguments liftR : simpl never.
#[global] Arguments wrap : simpl never.
#[global] Arguments attempt : simpl never.
#[global] Arguments check : simpl never.

(** ** Connections *)

(** The bytes a [Read] into a buffer of [n] bytes delivers: never more than [n]. *)
Definition rd_bytes (n : nat) (r : rd) : list byte :=
  match r with
  | RdData b bs => take n (b :: bs)
  | RdErr bs _ => take n bs
  end.

(** [buf := make([]byte, n); _, err := conn.Read(buf)]: the buffer after one [Read],
    however few bytes it delivered. *)
Definition conn_Read (h : handle) (n : nat) : io (result (list byte)) :=
  r ← call_ (CRead h n);
  Ret match r with
      | RdData _ _ => Ok (fill n (rd_bytes n r))
      | RdErr _ e => Err (IOErr e)
      end.

(** The loop of [io.ReadFull]: read until [n] more bytes have come, or an error.
    Each read brings at least one byte, so [n] rounds are enough. *)
Fixpoint ReadFull_loop (fuel : nat) (h : handle) (n : nat) (acc : list byte) :
    io (result (list byte)) :=
  match n, fuel with
  | O, _ => Ret (Ok acc)
  | _, O => Ret (Err (Errorf "out of fuel" []))
  | _, S fuel' =>
      r ← call_ (CRead h n);
      let d := rd_bytes n r in
      match r with
      | RdData _ _ => ReadFull_loop fuel' h (n - length d) (acc ++ d)
      | RdErr _ e =>
          if decide (n <= length d)%nat then Ret (Ok (acc ++ d))
          else if decide (e = ioEOF ∧ acc ++ d ≠ []) then Ret (Err UnexpectedEOF)
          else Ret (Err (IOErr e))
      end
  end.

(** [buf := make([]byte, n); _, err := io.ReadFull(conn, buf)] *)
Definition ReadFull (h : handle) (n : nat) : io (result (list byte)) :=
  ReadFull_loop n h n [].

Definition conn_Write (h : handle) (bs : list byte) : io (option io_error) :=
  call_ (CWrite h bs).

Definition conn_Close (h : handle) : io (option io_error) := call_ (CClose h).

(** ** Traces *)

Fixpoint traces {A} (p : io A) (tr : list event) (a : A) : Prop :=
  match p with
  | Ret b => tr = [] ∧ a = b
  | Call c k => ∃ r tr', tr = ev c r :: tr' ∧ traces (k r) tr' a
  end.

Fixpoint wp {A} (p : io A) (Q : list event → A → Prop) : Prop :=
  match p with
  | Ret a => Q [] a
  | Call c k => ∀ r, wp (k r) (λ tr a, Q (ev c r :: tr) a)
  end.

(** ** Running against a world *)

Definition handler (W : Type) : Type := W → ∀ c : call, answer c * W.

(** The trace, the result and the final world. *)
Fixpoint run {A W} (h : handler W) (p : io A) (w : W) : list event * A * W :=
  match p with
  | Ret a => ([], a, w)
  | Call c k =>
      let '(r, w') := h w c in
      let '(tr, a, w'') := run h (k r) w' in
      (ev c r :: tr, a, w'')
  end.

(** ** What a trace says about one connection *)

Definition recv_of (h : handle) (e : event) : list byte :=
  match e with
  | existT c r =>
      match c as c return answer c → list byte with
      | CRead h' n => λ r, if decide (h' = h) then rd_bytes n r else []
      | _ => λ _, []
      end r
  end.

Definition sent_of (h : handle) (e : event) : list byte :=
  match e with
  | existT c r =>
      match c as c return answer c → list byte with
      | CWrite h' bs => λ r,
          match r with
          | None => if decide (h' = h) then bs else []
          | Some _ => []
          end
      | _ => λ _, []
      end r
  end.

(** The bytes received from [h], and the bytes the writes that succeeded sent to it. *)
Definition received (h : handle) (tr : list event) : list byte := tr ≫= recv_of h.
Definition sent (h : handle) (tr : list event) : list byte := tr ≫= sent_of h.

(** The calls of a trace, without their answers. *)
Definition calls (tr : list event) : list call := projT1 <$> tr.

(** ** A world given by scripts

    The bytes each connection delivers, cut into the segments one [Read] returns at
    most one of, then an error; what was sent; the outcomes of the calls on yamux
    sessions and dials; how many polls of the context come before its cancellation; and
    the commands on the channel. *)
Record world := mkWorld {
  w_in : gmap handle (list (list byte));
  w_end : io_error;
  w_out : gmap handle (list byte);
  w_closed : list handle;
  w_sessions : list (io_error + session);
  w_streams : list (io_error + handle);
  w_polls : nat;
  w_cmds : list Command
}.

(** One read from a list of segments; empty segments are skipped. *)
Fixpoint read_segments (e : io_error) (n : nat) (segs : list (list byte)) :
    rd * list (list byte) :=
  match segs with
  | [] => (RdErr [] e, [])
  | [] :: segs' => read_segments e n segs'
  | (b :: bs) :: segs' => (RdData b (take (n - 1) bs), drop (n - 1) bs :: segs')
  end.

Definition set_in (f : gmap handle (list (list byte))) (w : world) : world :=
  mkWorld f (w_end w) (w_out w) (w_closed w) (w_sessions w) (w_streams w) (w_polls w)
    (w_cmds w).

(** [next l d]: the head of a script, [d] when it is over. *)
Definition next {A} (l : list A) (d : A) : A * list A :=
  match l with [] => (d, []) | a :: l' => (a, l') end.

Definition script_handler : handler world := λ w c,
  match c as c return answer c * world with
  | CRead h n =>
      let '(r, segs) := read_segments (w_end w) n (default [] (w_in w !! h)) in
      (r, set_in (<[h := segs]> (w_in w)) w)
  | CWrite h bs =>
      (None, mkWorld (w_in w) (w_end w) (<[h := default [] (w_out w !! h) ++ bs]> (w_out w))
               (w_closed w) (w_sessions w) (w_streams w) (w_polls w) (w_cmds w))
  | CClose h =>
      (None, mkWorld (w_in w) (w_end w) (w_out w) (w_closed w ++ [h]) (w_sessions w)
               (w_streams w) (w_polls w) (w_cmds w))
  | CYamuxServer _ _ | CYamuxClient _ _ =>
      let '(r, l) := next (w_sessions w) (inl ioEOF) in
      (r, mkWorld (w_in w) (w_end w) (w_out w) (w_closed w) l (w_streams w) (w_polls w)
            (w_cmds w))
  | CAcceptStream _ | COpenStream _ | CDial _ _ _ | CAcceptConn =>
      let '(r, l) := next (w_streams w) (inl ioEOF) in
      (r, mkWorld (w_in w) (w_end w) (w_out w) (w_closed w) (w_sessions w) l (w_polls w)
            (w_cmds w))
  | CSessionClose _ => (None, w)
  | CSelectSend cmd =>
      (true, mkWorld (w_in w) (w_end w) (w_out w) (w_closed w) (w_sessions w)
               (w_streams w) (w_polls w) (w_cmds w ++ [cmd]))
  | CPollDone =>
      (bool_decide (w_polls w = 0%nat),
       mkWorld (w_in w) (w_end w) (w_out w) (w_closed w) (w_sessions w) (w_streams w)
         (pred (w_polls w)) (w_cmds w))
  | CDeliver _ _ => (true, w)
  | CNewUUID => (vreplicate 16 x07, w)
  | CSelectConn _ =>
      let '(r, l) := next (w_streams w) (inl ioEOF) in
      (match r with inl _ => None | inr h => Some h end,
       mkWorld (w_in w) (w_end w) (w_out w) (w_closed w) (w_sessions w) l (w_polls w) (w_cmds w))
  | CNextCmd =>
      (head (w_cmds w),
       mkWorld (w_in w) (w_end w) (w_out w) (w_closed w) (w_sessions w) (w_streams w)
         (w_polls w) (tail (w_cmds w)))
  | CListen _ _ => (None, w)
  | CResolve addr => (inr addr, w)
  | CCancel | CCloseCmds | CCloseDone | CWait | CGo _ | CHandler _ _ => ((), w)
  end.

(** A world in which one connection delivers the given segments and then ends. *)
Definition one_conn (h : handle) (segs : list (list byte)) : world :=
  mkWorld {[h := segs]} ioEOF ∅ [] [] [] 0 [].

(** ** Equivalence of programs: the same calls, with pointwise equivalent continuations *)

#[export] Instance io_equiv A : Equiv (io A) :=
  fix go (p q : io A) : Prop :=
    match p with
    | Ret a => q = Ret a
    | Call c k => ∃ k', q = Call c k' ∧ ∀ r, go (k r) (k' r)
    end.

(** ** Rules *)

Section wp.
Context {A : Type}.
Implicit Types (p : io A) (Q : list event → A → Prop).

Lemma wp_traces p Q : wp p Q ↔ ∀ tr a, traces p tr a → Q tr a.
Proof.
  revert Q. induction p as [b|c k IH]; intros Q; simpl.
  - split; [intros ? ? ? [-> ->]; done | auto].
  - split.
    + intros H tr a (r & tr' & -> & Ht). by apply (proj1 (IH r _) (H r)).
    + intros H r. apply IH. intros tr a Ht. apply H. eauto.
Qed.

Lemma wp_mono p Q Q' : wp p Q → (∀ tr a, Q tr a → Q' tr a) → wp p Q'.
Proof. rewrite !wp_traces. auto. Qed.

Lemma wp_bind {B} (f : A → io B) p (Q : list event → B → Prop) :
  wp (p ≫= f) Q ↔ wp p (λ tr a, wp (f a) (λ tr' b, Q (tr ++ tr') b)).
Proof.
  revert Q. induction p as [b|c k IH]; intros Q; simpl; [done|].
  apply forall_proper; intros r. by rewrite IH.
Qed.

Lemma traces_bind {B} (f : A → io B) p tr b :
  traces (p ≫= f) tr b ↔
    ∃ tr1 a tr2, tr = tr1 ++ tr2 ∧ traces p tr1 a ∧ traces (f a) tr2 b.
Proof.
  revert tr. induction p as [a|c k IH]; intros tr.
  - change (Ret a ≫= f) with (f a). split.
    + intros H. by exists [], a, tr.
    + by intros (? & ? & ? & -> & [-> ->] & H).
  - change (Call c k ≫= f) with (Call c (λ r, k r ≫= f)). cbn [traces]. split.
    + intros (r & tr' & -> & (tr1 & a & tr2 & -> & H1 & H2)%IH).
      exists (ev c r :: tr1), a, tr2. split; [done|]. split; [|done]. by exists r, tr1.
    + intros (? & a & tr2 & -> & (r & tr1 & -> & H1) & H2). exists r, (tr1 ++ tr2).
      split; [done|]. apply IH. by exists tr1, a, tr2.
Qed.

Lemma wp_call c (Q : list event → answer c → Prop) :
  wp (call_ c) Q ↔ ∀ r, Q [ev c r] r.
Proof. done. Qed.

(** Every run against a world is one of the program's traces. *)
Lemma run_traces {W} (h : handler W) p w :
  traces p (run h p w).1.1 (run h p w).1.2.
Proof.
  revert w. induction p as [b|c k IH]; intros w; simpl; [done|].
  destruct (h w c) as [r w']. specialize (IH r w').
  destruct (run h (k r) w') as [[tr a] w'']. eauto.
Qed.

Lemma run_bind {B W} (h : handler W) p (f : A → io B) w :
  run h (p ≫= f) w =
    let '(tr, a, w') := run h p w in
    let '(tr', b, w'') := run h (f a) w' in (tr ++ tr', b, w'').
Proof.
  revert w. induction p as [b|c k IH]; intros w.
  - change (Ret b ≫= f) with (f b). simpl. by destruct (run h (f b) w) as [[??]?].
  - change (Call c k ≫= f) with (Call c (λ r, k r ≫= f)). simpl.
    destruct (h w c) as [r w']. rewrite (IH r w').
    destruct (run h (k r) w') as [[tr a] w'']. by destruct (run h (f a) w'') as [[??]?].
Qed.

End wp.

#[export] Instance io_equivalence {A} : Equivalence (≡@{io A}).
Proof.
  split.
  - intros p. induction p as [a|c k IH]; [done|]. exists k. by split.
  - intros p. induction p as [a|c k IH]; intros q; [by intros ->|].
    intros (k' & -> & H). exists k. split; [done|]. intros r. apply IH, H.
  - intros p. induction p as [a|c k IH]; intros q t; [by intros ->|].
    intros (k' & -> & H) (k'' & -> & H'). exists k''. split; [done|].
    intros r. apply (IH r (k' r)); [apply H | apply H'].
Qed.

Section equiv.
Context {A : Type}.

Lemma wp_equiv (p q : io A) Q : p ≡ q → wp p Q → wp q Q.
Proof.
  revert q Q. induction p as [a|c k IH]; intros q Q; simpl.
  - by intros ->.
  - intros (k' & -> & H) Hw r. apply (IH r (k' r)); [apply H | apply Hw].
Qed.

#[export] Instance wp_proper : Proper ((≡) ==> (=) ==> iff) (@wp A).
Proof. intros p q Hpq Q ? <-. split; apply wp_equiv; [done | by symmetry]. Qed.

#[export] Instance traces_proper : Proper ((≡) ==> (=) ==> (=) ==> iff) (@traces A).
Proof.
  intros p q Hpq tr ? <- a ? <-. revert q Hpq tr.
  induction p as [b|c k IH]; intros q; simpl.
  - by intros ->.
  - intros (k' & -> & H) tr. simpl. f_equiv; intros r. f_equiv; intros tr'.
    by rewrite (IH r (k' r) (H r)).
Qed.

#[export] Instance run_proper {W} (h : handler W) :
  Proper ((≡) ==> (=) ==> (=)) (@run A W h).
Proof.
  intros p q Hpq w ? <-. revert q Hpq w.
  induction p as [b|c k IH]; intros q; simpl.
  - by intros ->.
  - intros (k' & -> & H) w. simpl. destruct (h w c) as [r w'].
    by rewrite (IH r (k' r) (H r)).
Qed.

Lemma bind_ret (p : io A) : p ≫= mret ≡ p.
Proof. induction p as [a|c k IH]; [done|]. eexists; split; [done|]. exact IH. Qed.

Lemma bind_assoc {B C} (p : io A) (f : A → io B) (g : B → io C) :
  (p ≫= f) ≫= g ≡ p ≫= (λ a, f a ≫= g).
Proof. induction p as [a|c k IH]; [reflexivity|]. eexists; split; [done|]. exact IH. Qed.

Lemma bind_equiv {B} (p q : io A) (f g : A → io B) :
  p ≡ q → (∀ a, f a ≡ g a) → p ≫= f ≡ q ≫= g.
Proof.
  revert q. induction p as [a|c k IH]; intros q; simpl.
  - intros -> H. simpl. apply H.
  - intros (k' & -> & H) Hfg. simpl. eexists; split; [done|]. intros r. apply IH; [apply H | exact Hfg].
Qed.

#[export] Instance bind_proper {B} :
  Proper (pointwise_relation A (≡) ==> (≡) ==> (≡)) (@mbind io io_bind A B).
Proof. intros f g Hfg p q Hpq. by apply bind_equiv. Qed.

End equiv.

(** ** Rules for methods *)

Section wpM.
Context {S : Type}.

(** [Q] of every trace, final receiver and result of a method started in [s]. *)
Definition wpM {A} (m : M S A) (s : S) (Q : list event → S → result A → Prop) : Prop :=
  wp (m s) (λ tr sr, Q tr sr.1 sr.2).

Lemma wpM_traces {A} (m : M S A) s Q :
  wpM m s Q ↔ ∀ tr s' r, traces (m s) tr (s', r) → Q tr s' r.
Proof.
  unfold wpM. rewrite wp_traces. split; [naive_solver|]. intros H tr [s' r]. apply H.
Qed.

Lemma wpM_trace {A} (m : M S A) s Q tr s' r :
  wpM m s Q → traces (m s) tr (s', r) → Q tr s' r.
Proof. intros H. by apply wpM_traces. Qed.

Lemma wpM_equiv {A} (m m' : M S A) s Q : m s ≡ m' s → wpM m s Q → wpM m' s Q.
Proof. apply wp_equiv. Qed.

Lemma wpM_mono {A} (m : M S A) s Q Q' :
  wpM m s Q → (∀ tr s' r, Q tr s' r → Q' tr s' r) → wpM m s Q'.
Proof. unfold wpM. intros H HQ. eapply wp_mono; [done|]. intros tr [??]. apply HQ. Qed.

Lemma wpM_ret {A} (a : A) s Q : wpM (mret a) s Q ↔ Q [] s (Ok a).
Proof. done. Qed.

Lemma wpM_throw {A} e s (Q : _ → _ → result A → Prop) : wpM (throw e) s Q ↔ Q [] s (Err e).
Proof. done. Qed.

Lemma wpM_get s Q : wpM get s Q ↔ Q [] s (Ok s).
Proof. done. Qed.

Lemma wpM_modify f s Q : wpM (modify f) s Q ↔ Q [] (f s) (Ok ()).
Proof. done. Qed.

Lemma wpM_bind {A B} (m : M S A) (f : A → M S B) s Q :
  wpM (m ≫= f) s Q ↔
  wpM m s (λ tr s' r,
    match r with
    | Ok a => wpM (f a) s' (λ tr', Q (tr ++ tr'))
    | Err e => Q tr s' (Err e)
    end).
Proof.
  unfold wpM, mbind, M_bind. rewrite wp_bind. split; intros H; (eapply wp_mono; [exact H|]);
    intros tr [s' [a|e]]; simpl; try done; by rewrite app_nil_r.
Qed.

Lemma wpM_wrap {A} msg (m : M S A) s Q :
  wpM (wrap msg m) s Q ↔ wpM m s (λ tr s' r, Q tr s' (wrap_err msg r)).
Proof.
  unfold wpM, wrap. rewrite wp_bind. split; intros H; (eapply wp_mono; [exact H|]);
    intros tr [s' r]; simpl; by rewrite app_nil_r.
Qed.

Lemma wpM_attempt {A} (m : M S A) s Q :
  wpM (attempt m) s Q ↔ wpM m s (λ tr s' r, Q tr s' (Ok r)).
Proof.
  unfold wpM, attempt. rewrite wp_bind. split; intros H; (eapply wp_mono; [exact H|]);
    intros tr [s' r]; simpl; by rewrite app_nil_r.
Qed.

Lemma wpM_lift {A} (p : io A) s Q :
  wpM (lift p) s Q ↔ wp p (λ tr a, Q tr s (Ok a)).
Proof.
  unfold wpM, lift. rewrite wp_bind. split; intros H; (eapply wp_mono; [exact H|]);
    intros tr r; simpl; by rewrite app_nil_r.
Qed.

Lemma wpM_liftR {A} (p : io (result A)) s Q :
  wpM (liftR p) s Q ↔ wp p (λ tr r, Q tr s r).
Proof.
  unfold wpM, liftR. rewrite wp_bind. split; intros H; (eapply wp_mono; [exact H|]);
    intros tr r; simpl; by rewrite app_nil_r.
Qed.

Lemma wpM_zoom {T A} (part : S → T) put (m : M T A) s Q :
  wpM (zoom part put m) s Q ↔ wp (m (part s)) (λ tr tr', Q tr (put tr'.1 s) tr'.2).
Proof.
  unfold wpM, zoom. rewrite wp_bind. split; intros H; (eapply wp_mono; [exact H|]);
    intros tr [t r]; simpl; by rewrite app_nil_r.
Qed.

Lemma wpM_check (p : io (option io_error)) s Q :
  wpM (check p) s Q ↔
  wp p (λ tr e, Q tr s (match e with None => Ok () | Some err => Err (IOErr err) end)).
Proof.
  unfold wpM, check. rewrite wp_bind. split; intros H; (eapply wp_mono; [exact H|]);
    intros tr r; simpl; by rewrite app_nil_r.
Qed.

End wpM.

Lemma wpM_on_local {S T A} (t : T) (m : M T A) (s : S) Q :
  wpM (on_local t m) s Q ↔ wpM m t (λ tr t' r, Q tr s (Ok (t', r))).
Proof.
  unfold wpM, on_local. rewrite wp_bind. split; intros H; (eapply wp_mono; [exact H|]);
    intros tr [t' r]; simpl; by rewrite app_nil_r.
Qed.

(** One step through a method: by a rule, or by the specification of the call. *)
Create Rewrite HintDb wpM.
#[export] Hint Rewrite @wpM_ret @wpM_throw @wpM_get @wpM_modify @wpM_bind @wpM_wrap
  @wpM_attempt @wpM_lift @wpM_liftR @wpM_check : wpM.

Ltac wpM_simpl := repeat (progress (autorewrite with wpM; cbn beta iota)).

(** Use the specification [H] of the method at the head of the goal. *)
Tactic Notation "wpM_use" uconstr(H) := eapply wpM_mono; [apply H|]; cbn beta.

(** ** Traffic: what a trace did on one connection, and nothing else *)

Definition on_conn (h : handle) (c : call) : Prop :=
  match c with
  | CRead h' _ | CWrite h' _ => h' = h
  | _ => False
  end.

(** [tr] is reads and writes of [h] only, which received [rx] and sent [tx]. *)
Definition traffic (h : handle) (tr : list event) (rx tx : list byte) : Prop :=
  Forall (on_conn h) (calls tr) ∧ received h tr = rx ∧ sent h tr = tx.

Section traffic.
Implicit Types (h : handle) (tr : list event).

Lemma received_app h tr1 tr2 : received h (tr1 ++ tr2) = received h tr1 ++ received h tr2.
Proof. apply bind_app. Qed.

Lemma sent_app h tr1 tr2 : sent h (tr1 ++ tr2) = sent h tr1 ++ sent h tr2.
Proof. apply bind_app. Qed.

Lemma calls_app tr1 tr2 : calls (tr1 ++ tr2) = calls tr1 ++ calls tr2.
Proof. apply fmap_app. Qed.

Lemma traffic_nil h : traffic h [] [] [].
Proof. repeat split. constructor. Qed.

Lemma traffic_app h tr1 tr2 rx1 rx2 tx1 tx2 :
  traffic h tr1 rx1 tx1 → traffic h tr2 rx2 tx2 →
  traffic h (tr1 ++ tr2) (rx1 ++ rx2) (tx1 ++ tx2).
Proof.
  intros (F1 & <- & <-) (F2 & <- & <-). unfold traffic.
  rewrite calls_app, received_app, sent_app. by repeat split; [apply Forall_app|..].
Qed.

Lemma traffic_cons h e tr rx1 rx2 tx1 tx2 :
  traffic h [e] rx1 tx1 → traffic h tr rx2 tx2 →
  traffic h (e :: tr) (rx1 ++ rx2) (tx1 ++ tx2).
Proof. apply (traffic_app h [e]). Qed.

Lemma traffic_read h n r : traffic h [ev (CRead h n) r] (rd_bytes n r) [].
Proof.
  unfold traffic, received, sent. simpl. rewrite decide_True, app_nil_r by done.
  repeat split. by repeat constructor.
Qed.

Lemma traffic_write h bs r :
  traffic h [ev (CWrite h bs) r] [] (match r with None => bs | Some _ => [] end).
Proof.
  unfold traffic, received, sent. simpl. rewrite app_nil_r.
  destruct r; [|rewrite decide_True by done]; repeat split; by repeat constructor.
Qed.

Lemma rd_bytes_nonempty n b bs : (0 < n)%nat → (0 < length (rd_bytes n (RdData b bs)))%nat.
Proof. intros. simpl. rewrite length_take. simpl. lia. Qed.

Lemma rd_bytes_length n r : (length (rd_bytes n r) ≤ n)%nat.
Proof. destruct r; simpl; rewrite length_take; lia. Qed.

End traffic.

Lemma traffic_eq h tr rx tx rx' tx' :
  traffic h tr rx tx → rx = rx' → tx = tx' → traffic h tr rx' tx'.
Proof. by intros ? <- <-. Qed.

Create HintDb traffic.
#[export] Hint Resolve traffic_nil traffic_app traffic_read traffic_write : traffic.

(** Collect the traffic of the parts of a trace; the bytes are then compared up to
    reassociation. *)
Ltac traffic :=
  eapply traffic_eq;
  [ rewrite ?app_nil_r; repeat eapply traffic_app; solve [eassumption | apply traffic_nil]
  | cbn; rewrite ?app_nil_r, <-?app_assoc; reflexivity
  | cbn; rewrite ?app_nil_r, <-?app_assoc; reflexivity ].

(** An error exit of a specification: the traffic so far and an ordinary error. *)
Ltac error_exit :=
  rewrite ?wpM_throw; cbn; try (split; [done|]);
  do 2 eexists; (split; [traffic | solve [auto]]).

(** ** What the reading functions do in every world *)

Lemma ReadFull_loop_spec fuel h n acc :
  (n ≤ fuel)%nat →
  wp (ReadFull_loop fuel h n acc) (λ tr r,
    ∃ rx, traffic h tr rx [] ∧
      match r with
      | Ok buf => length rx = n ∧ buf = acc ++ rx
      | Err e => (length rx < n)%nat ∧ ordinary e
      end).
Proof.
  revert n acc. induction fuel as [|fuel IH]; intros [|n] acc Hn; simpl; try lia.
  1,2: exists []; by rewrite app_nil_r.
  intros r. pose proof (rd_bytes_length (S n) r) as Hlen.
  pose proof (traffic_read h (S n) r) as Ht. destruct r as [b bs|bs e].
  - pose proof (rd_bytes_nonempty (S n) b bs ltac:(lia)) as Hpos.
    set (d := rd_bytes (S n) (RdData b bs)) in *.
    eapply wp_mono; [apply IH; lia|]. intros tr [buf|e] (rx & Htr & H).
    all: exists (d ++ rx); rewrite length_app; split; [by apply (traffic_cons h _ tr d rx [] [])|].
    + destruct H as [Hl ->]. split; [lia | by rewrite app_assoc].
    + destruct H. split; [lia|done].
  - set (d := rd_bytes (S n) (RdErr bs e)) in *.
    case_decide as Hd; [|case_decide]; exists d; (split; [exact Ht|]); split; (done || lia).
Qed.

(** [ReadFull] is insensitive to how the bytes are cut: it returns the next [n] bytes
    received, or fails having received fewer. *)
Lemma ReadFull_spec h n :
  wp (ReadFull h n) (λ tr r,
    ∃ rx, traffic h tr rx [] ∧
      match r with
      | Ok buf => length buf = n ∧ buf = rx
      | Err e => (length rx < n)%nat ∧ ordinary e
      end).
Proof.
  eapply wp_mono; [by apply ReadFull_loop_spec|]. simpl.
  intros tr [buf|e] (rx & Ht & H); exists rx; naive_solver.
Qed.

(** A plain [Read] returns whatever one segment held, zeros after it. *)
Lemma conn_Read_spec h n :
  (0 < n)%nat →
  wp (conn_Read h n) (λ tr r,
    ∃ rx, traffic h tr rx [] ∧ (length rx ≤ n)%nat ∧
      match r with
      | Ok buf => (0 < length rx)%nat ∧ buf = fill n rx
      | Err e => ordinary e
      end).
Proof.
  intros Hn. simpl. intros r. exists (rd_bytes n r).
  split; [apply traffic_read|]. split; [apply rd_bytes_length|].
  destruct r as [b bs|]; [|done]. split; [by apply rd_bytes_nonempty|].
  unfold fill. simpl. by rewrite take_take, Nat.min_id.
Qed.

(** ** Running a method against a script *)

Lemma run_tracesM {S A W} (h : handler W) (m : M S A) s w :
  traces (m s) (run h (m s) w).1.1 ((run h (m s) w).1.2.1, (run h (m s) w).1.2.2).
Proof. rewrite <-surjective_pairing. apply run_traces. Qed.

(** The final receiver and world. *)
Definition script {S A} (m : M S A) (sw : S * world) : S * world :=
  let '(_, (s, _), w) := run script_handler (m sw.1) sw.2 in (s, w).

(** A scripted run is one of the method's behaviours. *)
Lemma script_traces {S A} (m : M S A) sw : ∃ tr r, traces (m sw.1) tr ((script m sw).1, r).
Proof.
  unfold script. pose proof (run_traces script_handler (m sw.1) sw.2) as H.
  destruct (run _ _ _) as [[tr [s r]] w]. by exists tr, r.
Qed.

Lemma script_post {S A} (m : M S A) sw (Q : S → Prop) :
  wpM m sw.1 (λ _ s' _, Q s') → Q (script m sw).1.
Proof.
  intros H. destruct (script_traces m sw) as (tr & r & Htr).
  exact (proj1 (wpM_traces _ _ _) H _ _ _ Htr).
Qed.

(** ** Which calls a program can make, whatever the world answers *)

Fixpoint only {A} (P : call → Prop) (p : io A) : Prop :=
  match p with
  | Ret _ => True
  | Call c k => P c ∧ ∀ r, only P (k r)
  end.

Definition onlyM {S A} (P : call → Prop) (m : M S A) : Prop := ∀ s, only P (m s).

Section only.
Context (P : call → Prop).

Lemma only_traces {A} (p : io A) tr a : only P p → traces p tr a → Forall P (calls tr).
Proof.
  revert tr. induction p as [b|c k IH]; intros tr; cbn.
  - intros _ [-> _]. constructor.
  - intros [Hc Hk] (r & tr' & -> & Ht). constructor; [exact Hc|]. by apply (IH r).
Qed.

Lemma only_bind {A B} (p : io A) (f : A → io B) :
  only P p → (∀ a, only P (f a)) → only P (p ≫= f).
Proof.
  intros Hp Hf. induction p as [a|c k IH]; [apply Hf|]. destruct Hp as [Hc Hk].
  split; [exact Hc|]. intros r. apply IH, Hk.
Qed.

Lemma only_call c : P c → only P (call_ c).
Proof. by split. Qed.

Lemma onlyM_ret {S A} (a : A) : onlyM (S := S) P (mret a).
Proof. done. Qed.

Lemma onlyM_throw {S A} e : onlyM (S := S) (A := A) P (throw e).
Proof. done. Qed.

Lemma onlyM_get {S} : onlyM (S := S) P get.
Proof. done. Qed.

Lemma onlyM_modify {S} (f : S → S) : onlyM P (modify f).
Proof. done. Qed.

Lemma onlyM_bind {S A B} (m : M S A) (f : A → M S B) :
  onlyM P m → (∀ a, onlyM P (f a)) → onlyM P (m ≫= f).
Proof. intros Hm Hf s. apply only_bind; [apply Hm|]. intros [s' [a|e]]; [apply Hf | done]. Qed.

Lemma onlyM_lift {S A} (p : io A) : only P p → onlyM (S := S) P (lift p).
Proof. intros Hp s. by apply only_bind. Qed.

Lemma onlyM_liftR {S A} (p : io (result A)) : only P p → onlyM (S := S) P (liftR p).
Proof. intros Hp s. by apply only_bind. Qed.

Lemma onlyM_wrap {S A} msg (m : M S A) : onlyM P m → onlyM P (wrap msg m).
Proof. intros Hm s. apply only_bind; [apply Hm|]. by intros []. Qed.

Lemma onlyM_attempt {S A} (m : M S A) : onlyM P m → onlyM P (attempt m).
Proof. intros Hm s. apply only_bind; [apply Hm|]. by intros []. Qed.

Lemma onlyM_check {S} (p : io (option io_error)) : only P p → onlyM (S := S) P (check p).
Proof. intros Hp s. by apply only_bind. Qed.

Lemma onlyM_zoom {S T A} (part : S → T) put (m : M T A) : onlyM P m → onlyM P (zoom part put m).
Proof. intros Hm s. apply only_bind; [apply Hm|]. by intros []. Qed.

Lemma onlyM_on_local {S T A} (t : T) (m : M T A) : onlyM P m → onlyM (S := S) P (on_local t m).
Proof. intros Hm s. by apply only_bind; [apply Hm|]. Qed.

Lemma only_ReadFull h n : (∀ n, P (CRead h n)) → only P (ReadFull h n).
Proof.
  intros HP. unfold ReadFull. generalize n at 1. generalize (@nil byte). revert n.
  intros n acc fuel. revert n acc. induction fuel as [|fuel IH]; intros [|n] acc; cbn; try done.
  split; [apply HP|]. intros [b bs|bs e]; cbn; [apply IH|]. by repeat case_decide.
Qed.

Lemma only_conn_Read h n : P (CRead h n) → only P (conn_Read h n).
Proof. by split. Qed.

End only.

Lemma only_impl (P Q : call → Prop) {A} (p : io A) : (∀ c, P c → Q c) → only P p → only Q p.
Proof. intros H. induction p as [a|c k IH]; [done|]. intros [Hc Hk]. split; [by apply H|]. intros r. by apply IH. Qed.

Create HintDb only.
#[export] Hint Resolve onlyM_ret onlyM_throw onlyM_get onlyM_modify onlyM_lift onlyM_liftR
  onlyM_wrap onlyM_attempt onlyM_check onlyM_zoom onlyM_on_local only_call only_ReadFull
  only_conn_Read only_bind : only.

(** Walk through a method; [leaf] shows that the calls satisfy the predicate. *)
Ltac only_walk leaf := repeat
  match goal with
  | H : _ |- onlyM _ _ => apply H
  | H : _ |- only _ _ => apply H
  | |- onlyM _ (_ ≫= _) => apply onlyM_bind; [|intros ?]
  | |- only _ (_ ≫= _) => apply only_bind; [|intros ?]
  | |- onlyM _ (if ?b then _ else _) => destruct b
  | |- onlyM _ (match ?r with _ => _ end) => destruct r
  | |- only _ (Ret _) => exact I
  | |- only _ (mret _) => exact I
  | |- onlyM _ _ => solve [intros ?; exact I]
  | |- only _ (ReadFull _ _) => apply only_ReadFull; intros ?; leaf
  | |- only _ (conn_Read _ _) => apply only_conn_Read; leaf
  | |- only _ (call_ _) => apply only_call; leaf
  | |- _ => progress (cbn beta zeta)
  | |- _ => solve [auto with only]
  | |- onlyM _ _ => first [apply onlyM_wrap | apply onlyM_attempt | apply onlyM_on_local | apply onlyM_lift
                          | apply onlyM_liftR | apply onlyM_check | apply onlyM_zoom]
  end.

(** The same with an invariant of the receiver, which the calls may depend on. *)
Definition keeps {S A} (P : call → Prop) (I : S → Prop) (m : M S A) : Prop :=
  ∀ s, I s → wpM m s (λ tr s' _, Forall P (calls tr) ∧ I s').

Section keeps.
Context {S : Type} (P : call → Prop) (I : S → Prop).

Lemma keeps_ret {A} (a : A) : keeps P I (mret a).
Proof. intros s Hs. rewrite wpM_ret. by split. Qed.

Lemma keeps_throw {A} e : keeps (A := A) P I (throw e).
Proof. intros s Hs. rewrite wpM_throw. by split. Qed.

Lemma keeps_get_bind {A} (f : S → M S A) :
  (∀ s, I s → keeps P I (f s)) → keeps P I (get ≫= f).
Proof. intros Hf s Hs. rewrite wpM_bind, wpM_get. by apply Hf. Qed.

Lemma keeps_modify f : (∀ s, I s → I (f s)) → keeps P I (modify f).
Proof. intros Hf s Hs. rewrite wpM_modify. split; [constructor | by apply Hf]. Qed.

Lemma keeps_bind {A B} (m : M S A) (f : A → M S B) :
  keeps P I m → (∀ a, keeps P I (f a)) → keeps P I (m ≫= f).
Proof.
  intros Hm Hf s Hs. rewrite wpM_bind. eapply wpM_mono; [by apply Hm|].
  intros tr s' [a|e] [Ht Hs']; cbn; [|done]. eapply wpM_mono; [by apply Hf|].
  intros tr' s'' r [Ht' Hs'']. rewrite calls_app. split; [by apply Forall_app|done].
Qed.

Lemma only_wp {A} (p : io A) : only P p → wp p (λ tr _, Forall P (calls tr)).
Proof. intros Hp. apply wp_traces. intros tr a. by apply only_traces. Qed.

Lemma keeps_lift {A} (p : io A) : only P p → keeps P I (lift p).
Proof.
  intros Hp s Hs. rewrite wpM_lift. eapply wp_mono; [by apply only_wp|]. by split.
Qed.

Lemma keeps_liftR {A} (p : io (result A)) : only P p → keeps P I (liftR p).
Proof.
  intros Hp s Hs. rewrite wpM_liftR. eapply wp_mono; [by apply only_wp|]. by split.
Qed.

Lemma keeps_wrap {A} msg (m : M S A) : keeps P I m → keeps P I (wrap msg m).
Proof. intros Hm s Hs. rewrite wpM_wrap. by apply Hm. Qed.

Lemma keeps_attempt {A} (m : M S A) : keeps P I m → keeps P I (attempt m).
Proof. intros Hm s Hs. rewrite wpM_attempt. by apply Hm. Qed.

Lemma keeps_check (p : io (option io_error)) : only P p → keeps P I (check p).
Proof.
  intros Hp s Hs. rewrite wpM_check. eapply wp_mono; [by apply only_wp|]. by split.
Qed.

Lemma keeps_zoom {T A} (part : S → T) put (m : M T A) :
  onlyM P m → (∀ t s, I s → I (put t s)) → keeps P I (zoom part put m).
Proof.
  intros Hm Hput s Hs. rewrite wpM_zoom. eapply wp_mono; [by apply only_wp, Hm|].
  intros tr [t r] Ht. split; [done | by apply Hput].
Qed.

Lemma keeps_on_local {T A} (t : T) (m : M T A) : onlyM P m → keeps P I (on_local t m).
Proof.
  intros Hm s Hs. rewrite wpM_on_local. eapply wp_mono; [by apply only_wp, Hm|]. by split.
Qed.

End keeps.

(** The walk of [only_walk], where [keep] shows that a change keeps the invariant. *)
Ltac keeps_walk leaf keep := repeat
  match goal with
  | H : _ |- keeps _ _ _ => apply H
  | |- keeps _ _ (get ≫= _) => apply keeps_get_bind; intros ? ?
  | |- keeps _ _ (_ ≫= _) => apply keeps_bind; [|intros ?]
  | |- keeps _ _ (if ?b then _ else _) => destruct b
  | |- keeps _ _ (match ?r with _ => _ end) => destruct r
  | |- keeps _ _ (modify _) => apply keeps_modify; keep
  | |- keeps _ _ (zoom _ _ _) => apply keeps_zoom; [|keep]
  | |- keeps _ _ _ => first [apply keeps_ret | apply keeps_throw | apply keeps_wrap | apply keeps_attempt
        | apply keeps_on_local | apply keeps_lift | apply keeps_liftR | apply keeps_check]
  | |- _ => progress (cbn beta zeta)
  | |- only _ _ => only_walk leaf
  | |- onlyM _ _ => only_walk leaf
  end.
