(* ===== verification/Wire.v ===== *)
(** * proto/conn.go: one-byte messages over a connection

    A message is two bytes, the version and the message; a request is the version
    followed by the request's bytes, answered by a message.  The section after the
    definitions gives every behaviour of the reading functions and the exact traffic
    of a request. *)
From S2P Require Import Prelude Static MuxConfig Commands GoIO.

Section conn.
Context {S : Type}.

Definition readMsg (conn : handle) : M S byte :=
  buf ← wrap "failed to read response: %w" (liftR (ReadFull conn 2));
  if decide (buf !!! 0%nat ≠ versionV1) then
    throw (Errorf "unexpected version: %d" [Z_of_byte (buf !!! 0%nat)])
  else mret (buf !!! 1%nat).

Definition sendRequest (conn : handle) (req : list byte) : M S byte :=
  wrap "failed to write request: %w" (check (conn_Write conn (versionV1 :: req)));;
  readMsg conn.

End conn.

(** [return ..., fmt.Errorf(msg, err)] around a call that returns a session or a stream. *)
Definition world_call {S A} (msg : string) (p : io (io_error + A)) : M S A :=
  wrap msg (liftR (r ← p; Ret (of_world r))).

(** ** Specifications, in every world *)

Section conn_specs.
Context {S : Type}.
Implicit Types (s : S) (h : handle).

Lemma wpM_world_call {A} msg (p : io (io_error + A)) s Q :
  wpM (world_call msg p) s Q ↔ wp p (λ tr r, Q tr s (wrap_err msg (of_world r))).
Proof.
  unfold world_call. rewrite wpM_wrap, wpM_liftR, wp_bind.
  split; intros H; (eapply wp_mono; [exact H|]); intros tr r; simpl; by rewrite app_nil_r.
Qed.

Lemma ReadFull_wpM h n s :
  wpM (liftR (ReadFull h n)) s (λ tr s' r,
    s' = s ∧ ∃ rx, traffic h tr rx [] ∧
      match r with
      | Ok buf => length buf = n ∧ buf = rx
      | Err e => (length rx < n)%nat ∧ ordinary e
      end).
Proof.
  rewrite wpM_liftR. eapply wp_mono; [apply ReadFull_spec|]. simpl.
  intros tr r (rx & ? & ?). eauto.
Qed.

Lemma conn_Read_wpM h n s :
  (0 < n)%nat →
  wpM (liftR (conn_Read h n)) s (λ tr s' r,
    s' = s ∧ ∃ rx, traffic h tr rx [] ∧ (length rx ≤ n)%nat ∧
      match r with
      | Ok buf => (0 < length rx)%nat ∧ buf = fill n rx
      | Err e => ordinary e
      end).
Proof.
  intros Hn. rewrite wpM_liftR. eapply wp_mono; [by apply conn_Read_spec|].
  intros tr r (rx & ? & ?). eauto.
Qed.

Lemma conn_Write_wpM h bs s :
  wpM (check (conn_Write h bs)) s (λ tr s' r,
    s' = s ∧ traffic h tr [] (if is_Ok r then bs else []) ∧
    (∀ e, r = Err e → ordinary e)).
Proof.
  rewrite wpM_check. intros r. split; [done|].
  pose proof (traffic_write h bs r) as H. destruct r; (split; [done|]); by intros ? [= <-].
Qed.

Lemma readMsg_spec h s :
  wpM (readMsg h) s (λ tr s' r,
    s' = s ∧ ∃ rx, traffic h tr rx [] ∧
      match r with
      | Ok m => rx = [versionV1; m]
      | Err e => (∀ m, rx ≠ [versionV1; m]) ∧ ordinary e
      end).
Proof.
  unfold readMsg. rewrite wpM_bind, wpM_wrap. wpM_use ReadFull_wpM.
  intros tr s' [buf|e] (-> & rx & Ht & H); cbn.
  - destruct H as [Hl ->]. destruct rx as [|v [|m [|]]]; try done. simpl.
    case_decide as Hv; [rewrite wpM_throw | rewrite wpM_ret];
      rewrite app_nil_r; (split; [done|]); eexists; (split; [exact Ht|]); naive_solver.
  - split; [done|]. exists rx. split; [done|]. destruct H as [H He]. split; [|by auto].
    intros m ->. simpl in H. lia.
Qed.

(** A request sends the version and the request, and an answer that is returned came
    as the version and that byte. *)
Lemma sendRequest_spec h req s :
  wpM (sendRequest h req) s (λ tr s' r,
    s' = s ∧ ∃ rx tx, traffic h tr rx tx ∧
      (tx = [] ∧ rx = [] ∨ tx = versionV1 :: req) ∧
      match r with
      | Ok m => rx = [versionV1; m] ∧ tx = versionV1 :: req
      | Err e => (∀ m, rx ≠ [versionV1; m]) ∧ ordinary e
      end).
Proof.
  unfold sendRequest. rewrite wpM_bind, wpM_wrap. wpM_use conn_Write_wpM.
  intros tr s' [u|e] (-> & Ht & He); cbn in *.
  - wpM_use readMsg_spec. intros tr' s' r (-> & rx & Ht' & H).
    split; [done|]. exists rx, (versionV1 :: req). split.
    { rewrite <-(app_nil_l rx), <-(app_nil_r (versionV1 :: req)). by apply traffic_app. }
    split; [by right|]. by destruct r.
  - split; [done|]. exists [], []. split; [exact Ht|]. split; [by left|]. split; [done | by auto].
Qed.

End conn_specs.

(** ** Neither function looks at the receiver *)

Section frame.
Context {S : Type}.
Implicit Types (s : S) (h : handle).

Lemma readMsg_frame h s : readMsg h s ≡ readMsg h () ≫= λ '(_, r), Ret (s, r).
Proof.
  unfold readMsg. cbv [mbind M_bind wrap liftR]. rewrite !bind_assoc.
  apply bind_equiv; [done|]. intros [buf|e]; [|done]. cbn. by case_decide.
Qed.

Lemma sendRequest_frame h req s :
  sendRequest h req s ≡ sendRequest h req () ≫= λ '(_, r), Ret (s, r).
Proof.
  unfold sendRequest. cbv [mbind M_bind wrap check]. rewrite !bind_assoc.
  apply bind_equiv; [done|]. intros [e|]; [done|]. cbn. apply readMsg_frame.
Qed.

End frame.
