(* ===== verification/Server.v ===== *)
(** * proto/server.go: the server's side of a connection *)
From S2P Require Import Prelude Static MuxConfig Commands Event Demo GoIO Wire.

(** The receiver of the methods.  [conn] names the server's end of the connection;
    the mutex is not part of the state: a method that holds it is one step. *)
Record Server := mkServer {
  conn : handle;
  userPassAuth_fn : option (string → string → bool);
  state : State;
  id : uuid;
  noAuth_ok : bool
}.

Definition ServerOption := Server → Server.

Definition nil_uuid : uuid := vreplicate 16 x00.

Definition set_state (st : State) (s : Server) : Server :=
  mkServer (conn s) (userPassAuth_fn s) st (id s) (noAuth_ok s).
Definition set_id (i : uuid) (s : Server) : Server :=
  mkServer (conn s) (userPassAuth_fn s) (state s) i (noAuth_ok s).
Definition set_conn (h : handle) (s : Server) : Server :=
  mkServer h (userPassAuth_fn s) (state s) (id s) (noAuth_ok s).

(** [auth] may be nil. *)
Definition WithUserPassAuth (auth : option (string → string → bool)) : ServerOption := λ s,
  mkServer (conn s) auth (state s) (id s) (noAuth_ok s).

Definition WithNoAuth : ServerOption := λ s,
  mkServer (conn s) (userPassAuth_fn s) (state s) (id s) true.

Definition NewServer (conn : handle) (opts : list ServerOption) : Server :=
  let s := fold_left (λ s opt, opt s) opts
             (mkServer conn None StateConnected nil_uuid false) in
  match userPassAuth_fn s with
  | None => WithNoAuth s
  | Some _ => s
  end.

Section server.
Context `{X : Externals}.

(** [_, err := s.conn.Write(bs)] with the error wrapped. *)
Definition s_write (msg : string) (bs : list byte) : M Server () :=
  s ← get; wrap msg (check (conn_Write (conn s) bs)).

(** [buf := make([]byte, n); _, err := s.conn.Read(buf)] with the error wrapped. *)
Definition s_read (msg : string) (n : nat) : M Server (list byte) :=
  s ← get; wrap msg (liftR (conn_Read (conn s) n)).

(** The rest of [handleUserPassAuth], once the user name's length has come. *)
Definition handleCredentials (auth : string → string → bool) (userLen : byte) : M Server () :=
  if decide (nat_of_byte userLen = 0%nat) then
    throw (Errorf "failed to read username length" [])
  else
  username ← s_read "failed to read username: %w" (nat_of_byte userLen);
  passLenBuf ← s_read "failed to read username length: %w" 1;
  let passLen := nat_of_byte (passLenBuf !!! 0%nat) in
  if decide (passLen = 0%nat) then
    throw (Errorf "failed to read password length" [])
  else
  password ← s_read "failed to read password: %w" passLen;
  if auth (string_of_bytes username) (string_of_bytes password) then
    s_write "failed to write auth response: %w" [versionV1; resSuccess]
  else
    s_write "failed to write auth response: %w" [versionV1; resFailure];;
    throw (Errorf "authentication failed" []).

(** [auth] is the receiver's [userPassAuth], which the caller found not to be nil. *)
Definition handleUserPassAuth (auth : string → string → bool) : M Server () :=
  s ← get;
  userLen ← wrap "failed to send user pass auth request: %w"
              (sendRequest (conn s) [userPassAuth]);
  handleCredentials auth userLen.

Definition handleAuth (method : byte) : M Server () :=
  s ← get;
  if decide (method = noAuth) then
    if noAuth_ok s then
      s_write "failed to write auth method response: %w" [versionV1; noAuth]
    else throw ErrUnsupportedAuthMethod
  else if decide (method = userPassAuth) then
    match userPassAuth_fn s with
    | None => throw ErrUnsupportedAuthMethod
    | Some auth => handleUserPassAuth auth
    end
  else throw ErrUnsupportedAuthMethod.

(** The loop over the client's methods: [Ok true] is the return from inside the loop. *)
Fixpoint handleInit_loop (methods : list byte) : M Server bool :=
  match methods with
  | [] => mret false
  | m :: methods' =>
      r ← attempt (handleAuth m);
      match r with
      | Err e =>
          if errors_Is e ErrUnsupportedAuthMethod then handleInit_loop methods'
          else throw (Wrapf "failed to handle auth method: %w" e)
      | Ok _ => mret true
      end
  end.

Definition handleInit : M Server () :=
  s ← get;
  msg ← wrap "failed to read auth methods: %w" (readMsg (conn s));
  let nmethods := nat_of_byte msg in
  methods ← wrap "failed to read auth methods: %w" (liftR (ReadFull (conn s) nmethods));
  handled ← handleInit_loop methods;
  if handled : bool then mret ()
  else
    s_write "failed to write auth method response: %w"
      [versionV1; noAcceptableAuthMethod];;
    throw (Errorf "no acceptable auth method" []).

Definition handleRegister : M Server () :=
  buf ← s_read "failed to read register request: %w" 16;
  id ← wrap "failed to parse UUID: %w" (liftR (mret (uuid_FromBytes buf)));
  modify (set_id id);;
  s_write "failed to write register response: %w" [versionV1; resSuccess];;
  s ← get;
  if decide (state s ≠ StateProcessing) then
    throw (Errorf "unexpected state: %d" [State_to_Z (state s)])
  else modify (set_state StateRegistered).

Definition handleBind : M Server () :=
  buf ← s_read "failed to read bind request: %w" 16;
  id ← wrap "failed to parse UUID: %w" (liftR (mret (uuid_FromBytes buf)));
  modify (set_id id);;
  s_write "failed to write bind response: %w" [versionV1; resSuccess];;
  s ← get;
  if decide (state s ≠ StateProcessing) then
    throw (Errorf "unexpected state: %d" [State_to_Z (state s)])
  else modify (set_state StateBound).

Definition handleCommand : M Server () :=
  s ← get;
  msg ← wrap "failed to read command: %w" (readMsg (conn s));
  if decide (msg = cmdRegister) then handleRegister
  else if decide (msg = cmdBind) then handleBind
  else throw (Errorf "unsupported command: %d" [Z_of_byte msg]).

(** [if err := m(); err != nil { _ = s.conn.Close(); return fmt.Errorf(msg, err) }] *)
Definition or_close {A} (msg : string) (m : M Server A) : M Server A :=
  r ← attempt m;
  match r with
  | Ok a => mret a
  | Err e => s ← get; _ ← lift (conn_Close (conn s)); throw (Wrapf msg e)
  end.

Definition Process : M Server () :=
  s ← get;
  if decide (state s ≠ StateConnected) then
    throw (Errorf "unexpected state: %d" [State_to_Z (state s)])
  else
  modify (set_state StateProcessing);;
  or_close "failed to handle init: %w" handleInit;;
  or_close "failed to handle command: %w" handleCommand.

Definition SendConnectCommand (i : uuid) : M Server () :=
  s ← get;
  if decide (state s ≠ StateRegistered) then
    throw (Errorf "unexpected state: %d" [State_to_Z (state s)])
  else
  resp ← wrap "failed to send connect command: %w"
           (sendRequest (conn s) (cmdConnect :: vec_to_list i));
  if decide (resp ≠ resSuccess) then
    throw (Errorf "failed to connect: %d" [Z_of_byte resp])
  else mret ().

Definition SendPingCommand : M Server () :=
  s ← get;
  if decide (state s ≠ StateRegistered) then
    throw (Errorf "unexpected state: %d" [State_to_Z (state s)])
  else
  resp ← wrap "failed to send ping command: %w" (sendRequest (conn s) [cmdPing]);
  if decide (resp ≠ resSuccess) then
    throw (Errorf "failed to ping: %d" [Z_of_byte resp])
  else mret ().

(** [int(^uint16(0))] *)
Definition maxDataLen : Z := 2 ^ 16 - 1.

Definition SendCustomEvent (eventName : string) (data : payload) : M Server () :=
  s ← get;
  if decide (state s ≠ StateRegistered) then
    throw (Errorf "unexpected state: %d" [State_to_Z (state s)])
  else
  event ← wrap "failed to create custom event command: %w"
            (liftR (mret (NewCustomEventCommand eventName data)));
  d ← wrap "failed to marshal custom event: %w" (liftR (mret (Marshal_event event)));
  if decide (maxDataLen < Z.of_nat (length d)) then
    throw (Errorf "custom event data exceeds maximum length of %d bytes" [maxDataLen])
  else
  let dataLen := put_be 2 (Z.of_nat (length d)) in
  let req := cmdCustomEvent :: dataLen ++ d in
  resp ← wrap "failed to send custom event: %w" (sendRequest (conn s) req);
  if decide (resp ≠ resSuccess) then
    throw (Errorf "failed to emit custom event: %d" [Z_of_byte resp])
  else mret ().

Definition Close : M Server () :=
  modify (set_state StateDisconnected);;
  s ← get;
  check (conn_Close (conn s)).

End server.

(** ** New servers *)

(** What the package's options leave alone. *)
Definition setting (o : ServerOption) : Prop := ∀ s,
  conn (o s) = conn s ∧ state (o s) = state s.

Lemma WithUserPassAuth_setting auth : setting (WithUserPassAuth auth).
Proof. done. Qed.

Lemma NewServer_new h opts :
  Forall setting opts →
  conn (NewServer h opts) = h ∧ state (NewServer h opts) = StateConnected.
Proof.
  intros Ho. unfold NewServer. set (s0 := mkServer h None StateConnected nil_uuid false).
  assert (conn s0 = h ∧ state s0 = StateConnected) as H by done. clearbody s0. revert s0 H.
  induction Ho as [|o opts Ho Hopts IH]; intros s0 H; cbn.
  - by destruct (userPassAuth_fn s0).
  - apply IH. destruct (Ho s0) as [-> ->]. exact H.
Qed.

(** ** The wire grammar of the handshake

    Which methods a server can use, and the exchanges by which each is accepted: what
    is received after the list of methods, and what is sent. *)

Definition supports (s : Server) (m : byte) : bool :=
  (bool_decide (m = noAuth) && noAuth_ok s)
  || (bool_decide (m = userPassAuth) && bool_decide (is_Some (userPassAuth_fn s))).

(** A user name or password as [Read] delivers it: at least one byte, padded with
    zeros to the announced length. *)
Definition field (len : byte) (d : list byte) : Prop :=
  (0 < length d ≤ nat_of_byte len)%nat.

Definition field_string (len : byte) (d : list byte) : string :=
  string_of_bytes (fill (nat_of_byte len) d).

Inductive auth_exchange (s : Server) : byte → list byte → list byte → Prop :=
  | auth_none :
      noAuth_ok s = true → auth_exchange s noAuth [] [versionV1; noAuth]
  | auth_userpass auth ulen u plen p :
      userPassAuth_fn s = Some auth →
      field ulen u → field plen p →
      auth (field_string ulen u) (field_string plen p) = true →
      auth_exchange s userPassAuth
        (versionV1 :: ulen :: u ++ plen :: p)
        [versionV1; userPassAuth; versionV1; resSuccess].

(** The initialisation: the methods, of which the first supported one is exchanged. *)
Inductive init_exchange (s : Server) : list byte → list byte → Prop :=
  | init_accept n pre m post rx tx :
      nat_of_byte n = length (pre ++ m :: post) →
      Forall (λ m', supports s m' = false) pre →
      auth_exchange s m rx tx →
      init_exchange s ([versionV1; n] ++ (pre ++ m :: post) ++ rx) tx.

Section server_specs.
Context `{X : Externals}.
Implicit Types s : Server.

Lemma s_write_spec msg bs s :
  wpM (s_write msg bs) s (λ tr s' r,
    s' = s ∧ traffic (conn s) tr [] (if is_Ok r then bs else []) ∧
    (∀ e, r = Err e → ordinary e)).
Proof.
  unfold s_write. rewrite wpM_bind, wpM_get, wpM_wrap. wpM_use conn_Write_wpM.
  intros tr s' [u|e] (-> & Ht & He); cbn; (split; [done|]); (split; [exact Ht|]); [done|].
  intros ? [= <-]. auto.
Qed.

Lemma s_read_spec msg n s :
  (0 < n)%nat →
  wpM (s_read msg n) s (λ tr s' r,
    s' = s ∧ ∃ rx, traffic (conn s) tr rx [] ∧
      match r with
      | Ok buf => (0 < length rx ≤ n)%nat ∧ buf = fill n rx
      | Err e => ordinary e
      end).
Proof.
  intros Hn. unfold s_read. rewrite wpM_bind, wpM_get, wpM_wrap.
  wpM_use (conn_Read_wpM (conn s) n s Hn).
  intros tr s' [u|e] (-> & rx & Ht & Hl & H); cbn; (split; [done|]); exists rx; naive_solver.
Qed.

Lemma fill_1 d : length d = 1%nat → fill 1 d = d.
Proof. intros H. rewrite <-H. apply fill_exact. Qed.

Lemma handleUserPassAuth_spec auth s :
  userPassAuth_fn s = Some auth →
  wpM (handleUserPassAuth auth) s (λ tr s' r,
    s' = s ∧ ∃ rx tx, traffic (conn s) tr rx tx ∧
      match r with
      | Ok _ => auth_exchange s userPassAuth rx tx
      | Err e => ordinary e
      end).
Proof.
  intros Hauth. unfold handleUserPassAuth, handleCredentials.
  rewrite wpM_bind, wpM_get, wpM_bind, wpM_wrap. wpM_use sendRequest_spec.
  intros tr1 s1 [ulen|e] (-> & rx1 & tx1 & Ht1 & _ & H1); cbn; [|destruct H1; error_exit].
  destruct H1 as [-> ->]. case_decide as Hul; [error_exit|].
  rewrite wpM_bind. wpM_use s_read_spec; [lia|].
  intros tr2 s2 [username|e] (-> & u & Ht2 & H2); cbn; [|error_exit].
  destruct H2 as [Hu ->]. rewrite wpM_bind. wpM_use s_read_spec; [lia|].
  intros tr3 s3 [plb|e] (-> & pl & Ht3 & H3); cbn; [|error_exit].
  destruct H3 as [Hpl ->]. destruct pl as [|plen [|]]; simpl in Hpl; try lia. simpl.
  case_decide as Hplen; [error_exit|].
  rewrite wpM_bind. wpM_use s_read_spec; [lia|].
  intros tr4 s4 [password|e] (-> & p & Ht4 & H4); cbn; [|error_exit].
  destruct H4 as [Hp ->]. destruct (auth _ _) eqn:Eauth.
  - wpM_use s_write_spec. intros tr5 s5 [[]|e] (-> & Ht5 & He); cbn in *; [|error_exit].
    split; [done|]. do 2 eexists. split; [traffic|]. cbn.
    by apply (auth_userpass s auth ulen u plen p).
  - rewrite wpM_bind. wpM_use s_write_spec.
    intros tr5 s5 [[]|e] (-> & Ht5 & He); cbn in *; error_exit.
Qed.

Lemma handleAuth_spec m s :
  wpM (handleAuth m) s (λ tr s' r,
    s' = s ∧ ∃ rx tx, traffic (conn s) tr rx tx ∧
      match r with
      | Ok _ => auth_exchange s m rx tx ∧ supports s m = true
      | Err e => ordinary e ∧ supports s m = true
                 ∨ e = ErrUnsupportedAuthMethod ∧ tr = [] ∧ supports s m = false
      end).
Proof.
  unfold handleAuth, supports. rewrite wpM_bind, wpM_get. case_decide as Hm.
  - subst m. destruct (noAuth_ok s) eqn:E.
    + wpM_use s_write_spec. intros tr s' [[]|e] (-> & Ht & He); cbn in *; [|error_exit].
      split; [done|]. do 2 eexists. split; [traffic|]. split; [by apply auth_none|done].
    + rewrite wpM_throw. cbn. split; [done|]. exists [], []. split; [traffic|]. by right.
  - rewrite (bool_decide_eq_false_2 _ Hm). simpl. case_decide as Hm2.
    + subst m. destruct (userPassAuth_fn s) as [auth|] eqn:E; cbn.
      * wpM_use handleUserPassAuth_spec; [done|].
        intros tr s' [[]|e] (-> & rx & tx & Ht & H); (split; [done|]); cbn;
          exists rx, tx; auto.
      * split; [done|]. exists [], []. split; [traffic|].
        by rewrite (bool_decide_eq_true_2 (userPassAuth = userPassAuth)) by done; right.
    + rewrite (bool_decide_eq_false_2 _ Hm2). split; [done|]. exists [], [].
      split; [traffic|]. by right.
Qed.

(** The loop takes the first supported method, and the methods before it cause no
    traffic. *)
Lemma handleInit_loop_spec methods s :
  wpM (handleInit_loop methods) s (λ tr s' r,
    s' = s ∧ ∃ rx tx, traffic (conn s) tr rx tx ∧
      match r with
      | Ok true => ∃ pre m post,
          methods = pre ++ m :: post ∧ Forall (λ m', supports s m' = false) pre ∧
          auth_exchange s m rx tx
      | Ok false => tr = [] ∧ Forall (λ m', supports s m' = false) methods
      | Err e => ordinary e ∧ Exists (λ m', supports s m' = true) methods
      end).
Proof.
  induction methods as [|m ms IH]; cbn [handleInit_loop].
  { rewrite wpM_ret. split; [done|]. exists [], []. by split; [traffic|]. }
  rewrite wpM_bind, wpM_attempt. wpM_use handleAuth_spec.
  intros tr s' [[]|e] (-> & rx & tx & Ht & H); cbn.
  - destruct H as [H Hs]. rewrite wpM_ret, app_nil_r. split; [done|]. exists rx, tx.
    split; [done|]. by exists [], m, ms.
  - destruct H as [[He Hs]|(-> & -> & Hs)].
    + unfold ordinary in He. rewrite He, wpM_throw, app_nil_r. split; [done|].
      exists rx, tx. split; [done|]. split; [done|]. by left.
    + rewrite errors_Is_refl. eapply wpM_mono; [exact IH|]. cbn.
      intros tr' s' r (-> & rx' & tx' & Ht' & H). split; [done|]. exists rx', tx'.
      split; [done|]. destruct r as [[]|e].
      * destruct H as (pre & m' & post & -> & Hp & Ha). exists (m :: pre), m', post. auto.
      * destruct H as [-> H]. auto.
      * destruct H. split; [done|]. by right.
Qed.

Lemma handleInit_spec s :
  wpM handleInit s (λ tr s' r,
    s' = s ∧ ∃ rx tx, traffic (conn s) tr rx tx ∧
      match r with
      | Ok _ => init_exchange s rx tx
      | Err e => ordinary e
      end).
Proof.
  unfold handleInit. rewrite wpM_bind, wpM_get, wpM_bind, wpM_wrap. wpM_use readMsg_spec.
  intros tr1 s1 [n|e] (-> & rx1 & Ht1 & H1); cbn; [subst rx1|destruct H1; error_exit].
  rewrite wpM_bind, wpM_wrap. wpM_use ReadFull_wpM.
  intros tr2 s2 [methods|e] (-> & rx2 & Ht2 & H2); cbn; [|destruct H2; error_exit].
  destruct H2 as [Hn <-]. rewrite wpM_bind. wpM_use handleInit_loop_spec.
  intros tr3 s3 [[]|e] (-> & rx3 & tx3 & Ht3 & H3); [| |destruct H3; error_exit].
  - destruct H3 as (pre & m & post & -> & Hpre & Hauth). rewrite wpM_ret.
    split; [done|]. exists ([versionV1; n] ++ (pre ++ m :: post) ++ rx3), tx3.
    split; [traffic|]. by apply init_accept.
  - destruct H3 as [-> _]. rewrite wpM_bind. wpM_use s_write_spec.
    intros tr4 s4 [[]|e] (-> & Ht4 & He); cbn in *; error_exit.
Qed.

(** What the two commands do with the sixteen bytes of the identifier. *)
Definition id_received (s' : Server) (rx : list byte) : Prop :=
  (0 < length rx ≤ 16)%nat ∧ uuid_FromBytes (fill 16 rx) = Ok (id s').

(** [handleRegister] and [handleBind] in one statement: [st] is the state entered. *)
Definition id_post (st : State) (s : Server) (tr : list event) (s' : Server)
    (r : result ()) : Prop :=
  ∃ rx tx, traffic (conn s) tr rx tx ∧
    match r with
    | Ok _ => state s = StateProcessing ∧ id_received s' rx ∧
              s' = set_state st (set_id (id s') s) ∧ tx = [versionV1; resSuccess]
    | Err e => ∃ i, s' = set_id i s
    end.

Lemma set_id_id s : set_id (id s) s = s.
Proof. by destruct s. Qed.

(** The two handlers have the same shape, so one script proves both. *)
Ltac id_handler :=
  rewrite wpM_bind; wpM_use s_read_spec; [lia|];
  intros tr1 s1 [buf|e] (-> & rx & Ht1 & H1); cbn;
  [ destruct H1 as [Hl ->]; rewrite wpM_bind, wpM_wrap, wpM_liftR; cbn;
    destruct (uuid_FromBytes (fill 16 rx)) as [i|e] eqn:Ei; cbn;
    [ rewrite wpM_bind, wpM_modify, wpM_bind; wpM_use s_write_spec;
      intros tr2 s2 [[]|e] (-> & Ht2 & He); cbn in *;
      [ rewrite wpM_bind, wpM_get; cbn; case_decide as Hs;
        [ rewrite wpM_throw; do 2 eexists; (split; [traffic|]); by exists i
        | rewrite wpM_modify; do 2 eexists; (split; [traffic|]);
          split; [done|]; by repeat split; cbn; try lia; rewrite ?Ei ]
      | do 2 eexists; (split; [traffic|]); by exists i ]
    | do 2 eexists; (split; [traffic|]); eexists; symmetry; apply set_id_id ]
  | do 2 eexists; (split; [traffic|]); eexists; symmetry; apply set_id_id ].

Lemma handleRegister_spec s : wpM handleRegister s (id_post StateRegistered s).
Proof. unfold handleRegister, id_post. id_handler. Qed.

Lemma handleBind_spec s : wpM handleBind s (id_post StateBound s).
Proof. unfold handleBind, id_post. id_handler. Qed.

(** A command that succeeds: the identifier received and the state entered. *)
Inductive command_exchange (s s' : Server) : list byte → list byte → Prop :=
  | command_register rx :
      id_received s' rx → s' = set_state StateRegistered (set_id (id s') s) →
      command_exchange s s' ([versionV1; cmdRegister] ++ rx) [versionV1; resSuccess]
  | command_bind rx :
      id_received s' rx → s' = set_state StateBound (set_id (id s') s) →
      command_exchange s s' ([versionV1; cmdBind] ++ rx) [versionV1; resSuccess].

Lemma handleCommand_spec s :
  wpM handleCommand s (λ tr s' r,
    ∃ rx tx, traffic (conn s) tr rx tx ∧
      match r with
      | Ok _ => state s = StateProcessing ∧ command_exchange s s' rx tx
      | Err e => ∃ i, s' = set_id i s
      end).
Proof.
  assert (∃ i, s = set_id i s) as Hid by (exists (id s); symmetry; apply set_id_id).
  unfold handleCommand. rewrite wpM_bind, wpM_get, wpM_bind, wpM_wrap.
  wpM_use readMsg_spec. intros tr1 s1 [m|e] (-> & rx1 & Ht1 & H1); cbn;
    [subst rx1 | do 2 eexists; (split; [traffic|done])].
  case_decide as Hreg; [|case_decide as Hbind].
  - subst m. wpM_use handleRegister_spec. intros tr s' r (rx & tx & Ht & H).
    do 2 eexists. split; [traffic|]. destruct r as [[]|e]; [|done].
    destruct H as (? & ? & ? & ->). split; [done|]. by apply command_register.
  - subst m. wpM_use handleBind_spec. intros tr s' r (rx & tx & Ht & H).
    do 2 eexists. split; [traffic|]. destruct r as [[]|e]; [|done].
    destruct H as (? & ? & ? & ->). split; [done|]. by apply command_bind.
  - rewrite wpM_throw. do 2 eexists. split; [traffic|done].
Qed.

Lemma or_close_spec {A} msg (m : M Server A) s (Post : A → list event → Server → Prop)
    (PostE : list event → Server → Prop) :
  wpM m s (λ tr s' r, match r with Ok a => Post a tr s' | Err _ => PostE tr s' end) →
  wpM (or_close msg m) s (λ tr s' r,
    match r with
    | Ok a => Post a tr s'
    | Err e => ∃ tr' c e', tr = tr' ++ [ev (CClose (conn s')) c] ∧ PostE tr' s' ∧ e = Wrapf msg e'
    end).
Proof.
  intros H. unfold or_close. rewrite wpM_bind, wpM_attempt.
  eapply wpM_mono; [exact H|]. intros tr s' [a|e] HP; cbn.
  - by rewrite wpM_ret, app_nil_r.
  - rewrite wpM_bind, wpM_get, wpM_bind, wpM_lift. cbn [wp conn_Close call_].
    intros c. rewrite wpM_throw. eauto 10.
Qed.

(** ** Process: every behaviour, in every world *)

(** The outcome of [Process] from the connected state: it succeeds after exactly one
    initialisation and one command, or it fails with the connection closed last. *)
Definition process_post (s : Server) (tr : list event) (s' : Server) (r : result ()) : Prop :=
  match r with
  | Ok _ => ∃ rx1 tx1 rx2 tx2,
      traffic (conn s) tr (rx1 ++ rx2) (tx1 ++ tx2) ∧
      init_exchange s rx1 tx1 ∧ command_exchange (set_state StateProcessing s) s' rx2 tx2
  | Err _ => ∃ tr' c rx tx i,
      tr = tr' ++ [ev (CClose (conn s)) c] ∧ traffic (conn s) tr' rx tx ∧
      s' = set_id i (set_state StateProcessing s)
  end.

Lemma init_exchange_state st s rx tx :
  init_exchange (set_state st s) rx tx → init_exchange s rx tx.
Proof.
  intros [n pre m post rx' tx' Hn Hpre Ha]. apply init_accept; [done|done|].
  destruct Ha; by econstructor.
Qed.

Lemma Process_spec s :
  state s = StateConnected → wpM Process s (process_post s).
Proof.
  intros Hs. unfold Process. rewrite wpM_bind, wpM_get. rewrite decide_False by auto.
  rewrite wpM_bind, wpM_modify, wpM_bind. set (sp := set_state StateProcessing s).
  eapply wpM_mono.
  { apply (or_close_spec _ _ sp
      (λ _ tr s', s' = sp ∧ ∃ rx tx, traffic (conn s) tr rx tx ∧ init_exchange s rx tx)
      (λ tr s', s' = sp ∧ ∃ rx tx, traffic (conn s) tr rx tx)).
    eapply wpM_mono; [apply handleInit_spec|]. intros tr s' [[]|e] (-> & rx & tx & Ht & H);
      (split; [done|]); exists rx, tx; [|done].
    split; [done|]. by eapply init_exchange_state. }
  intros tr1 s1 [[]|e]; cbn.
  - intros (-> & rx1 & tx1 & Ht1 & H1). eapply wpM_mono.
    { apply (or_close_spec _ _ sp
        (λ _ tr s', ∃ rx tx, traffic (conn s) tr rx tx ∧ command_exchange sp s' rx tx)
        (λ tr s', (∃ i, s' = set_id i sp) ∧ ∃ rx tx, traffic (conn s) tr rx tx)).
      eapply wpM_mono; [apply handleCommand_spec|].
      intros tr s' [[]|e] (rx & tx & Ht & H); [|by eauto]. exists rx, tx. naive_solver. }
    intros tr2 s2 [[]|e]; cbn.
    + intros (rx2 & tx2 & Ht2 & H2). exists rx1, tx1, rx2, tx2. by split; [traffic|].
    + intros (tr' & c & e' & -> & ([i ->] & rx2 & tx2 & Ht2) & _).
      exists (tr1 ++ tr'), c. do 2 eexists. exists i.
      rewrite app_assoc. repeat split; try done. all: traffic.
  - intros (tr' & c & e' & -> & (-> & rx2 & tx2 & Ht2) & _).
    exists tr', c, rx2, tx2, (id s). repeat split; try done; try apply Ht2.
Qed.

Lemma Process_unexpected s tr s' r :
  state s ≠ StateConnected → traces (Process s) tr (s', r) →
  tr = [] ∧ s' = s ∧ r = Err (Errorf "unexpected state: %d" [State_to_Z (state s)]).
Proof.
  intros Hs. revert tr s' r. apply (wpM_traces Process).
  unfold Process. rewrite wpM_bind, wpM_get, decide_True by done. by rewrite wpM_throw.
Qed.

(** ** The commands sent to a registered client *)

(** A request answered on a connection: the receiver is unchanged, nothing but the
    request is sent, and success is exactly the answer [resSuccess]. *)
Definition request_post (s : Server) (req : list byte) (tr : list event) (s' : Server)
    (r : result ()) : Prop :=
  s' = s ∧ ∃ rx tx, traffic (conn s) tr rx tx ∧
    (tx = [] ∧ rx = [] ∨ tx = versionV1 :: req) ∧
    (r = Ok () ↔ rx = [versionV1; resSuccess]) ∧
    (r = Ok () → tx = versionV1 :: req).

(** The last lines of the three senders. *)
Lemma send_reply_spec s (req : list byte) (msg1 msg2 : string) :
  wpM (resp ← wrap msg1 (sendRequest (conn s) req);
       if decide (resp ≠ resSuccess) then throw (Errorf msg2 [Z_of_byte resp])
       else mret ()) s (request_post s req).
Proof.
  rewrite wpM_bind, wpM_wrap. wpM_use sendRequest_spec.
  intros tr s' [m|e] (-> & rx & tx & Ht & Hd & H); cbn.
  - destruct H as [-> ->]. case_decide as Hm; [rewrite wpM_throw | rewrite wpM_ret];
      rewrite app_nil_r; (split; [done|]); do 2 eexists; (split; [exact Ht|]).
    + split; [by right|]. split; [split; [done | by intros [=]] | done].
    + subst m. split; [by right|]. by split.
  - destruct H as [H _]. split; [done|]. exists rx, tx. split; [done|]. split; [done|].
    split; [split; [done|] | done]. intros ->. by destruct (H resSuccess).
Qed.

(** The guard all three start with. *)
Definition send_post (s : Server) (req : list byte) (tr : list event) (s' : Server)
    (r : result ()) : Prop :=
  match state s with
  | StateRegistered => request_post s req tr s' r
  | st => tr = [] ∧ s' = s ∧ r = Err (Errorf "unexpected state: %d" [State_to_Z st])
  end.

Ltac send_guard :=
  unfold send_post; rewrite wpM_bind, wpM_get; cbn;
  case_decide;
  [ by rewrite wpM_throw; destruct (state _)
  | match goal with H : state _ = StateRegistered |- _ => rewrite H end ].

Lemma SendConnectCommand_spec i s :
  wpM (SendConnectCommand i) s (send_post s (cmdConnect :: vec_to_list i)).
Proof. unfold SendConnectCommand. send_guard. apply send_reply_spec. Qed.

Lemma SendPingCommand_spec s : wpM SendPingCommand s (send_post s [cmdPing]).
Proof. unfold SendPingCommand. send_guard. apply send_reply_spec. Qed.

(** The frame of an event on the wire, after the version. *)
Definition event_frame (d : list byte) : list byte :=
  cmdCustomEvent :: put_be 2 (Z.of_nat (length d)) ++ d.

(** The bytes of the envelope, when the event can be sent. *)
Definition event_bytes (name : string) (data : payload) : option (list byte) :=
  match NewCustomEventCommand name data with
  | Ok e =>
      match Marshal_event e with
      | Ok d => if decide (Z.of_nat (length d) <= maxDataLen) then Some d else None
      | Err _ => None
      end
  | Err _ => None
  end.

Lemma SendCustomEvent_spec name data s :
  state s = StateRegistered →
  wpM (SendCustomEvent name data) s (λ tr s' r,
    match event_bytes name data with
    | Some d => request_post s (event_frame d) tr s' r
    | None => tr = [] ∧ s' = s ∧ ∃ e, r = Err e
    end).
Proof.
  intros Hs. unfold SendCustomEvent, event_bytes.
  rewrite wpM_bind, wpM_get, decide_False by tauto.
  rewrite wpM_bind, wpM_wrap, wpM_liftR. cbn.
  destruct (NewCustomEventCommand name data) as [e|e]; cbn; [|by eauto].
  rewrite wpM_bind, wpM_wrap, wpM_liftR. cbn.
  destruct (Marshal_event e) as [d|e']; cbn; [|by eauto].
  case_decide; [rewrite decide_False, wpM_throw by lia; by repeat split; eauto|].
  rewrite decide_True by lia. apply send_reply_spec.
Qed.

(** A call that returns has sent the frame of an event. *)
Lemma event_request name data s tr s' :
  traces (SendCustomEvent name data s) tr (s', Ok ()) →
  ∃ d, event_bytes name data = Some d ∧ sent (conn s) tr = versionV1 :: event_frame d.
Proof.
  intros Htr. destruct (decide (state s = StateRegistered)) as [Hs|Hs].
  - pose proof (proj1 (wpM_traces _ _ _) (SendCustomEvent_spec name data s Hs) _ _ _ Htr) as H.
    cbn in H. destruct (event_bytes name data) as [d|]; [|naive_solver]. exists d.
    destruct H as (_ & rx & tx & (_ & _ & <-) & _ & _ & H). auto.
  - exfalso. revert Htr. unfold SendCustomEvent.
    change (traces ((get ≫= ?f) s) ?t ?r) with (traces (f s s) t r). cbn beta.
    rewrite decide_True by done. by intros [_ [=]].
Qed.

Lemma event_bytes_Marshal name data d :
  event_bytes name data = Some d → ∃ e, json_Marshal data = Ok e.
Proof.
  unfold event_bytes. destruct (NewCustomEventCommand name data) as [e|] eqn:E; [|done].
  intros _. apply NewCustomEventCommand_Ok in E as (d' & H & _). eauto.
Qed.

(** The length field of a frame that is sent gives back the length. *)
Lemma event_frame_length name data d :
  event_bytes name data = Some d → get_be (put_be 2 (Z.of_nat (length d))) = Z.of_nat (length d).
Proof.
  unfold event_bytes. intros H. repeat case_match; simplify_eq.
  apply get_put_be_small. unfold maxDataLen in *. lia.
Qed.

(** C35: Sending an event either sends exactly one frame and succeeds exactly when the
    client answers success, or sends nothing and fails: the envelope must encode and fit
    the sixteen bits of the length field, which then gives its length back. *)
Theorem SendCustomEvent_outcome name data s tr s' r :
  state s = StateRegistered → traces (SendCustomEvent name data s) tr (s', r) →
  match event_bytes name data with
  | Some d =>
      request_post s (event_frame d) tr s' r ∧ Z.of_nat (length d) <= 2 ^ 16 - 1 ∧
      get_be (put_be 2 (Z.of_nat (length d))) = Z.of_nat (length d)
  | None => tr = [] ∧ s' = s ∧ ∃ e, r = Err e
  end.
Proof.
  intros Hs Htr. pose proof (wpM_trace _ _ _ _ _ _ (SendCustomEvent_spec name data s Hs) Htr) as H.
  cbn in H. destruct (event_bytes name data) as [d|] eqn:E; [|exact H]. split; [exact H|].
  split; [|by eapply event_frame_length]. revert E. unfold event_bytes. intros E.
  repeat case_match; by simplify_eq.
Qed.

(** The sixteen bytes of an identifier are read with one [Read]: when they arrive in
    two parts, the server confirms and registers the identifier made of the first part
    and zeros, and the second part is left to be read as the next message. *)
Lemma handleRegister_short_read `{!ExternalsOk X} (s : Server) (i i' : uuid) (k : nat) :
  state s = StateProcessing → (0 < k < 16)%nat → fill 16 (take k i) = vec_to_list i' →
  let w := one_conn (conn s) [take k i; drop k i] in
  (run script_handler (handleRegister s) w).1.2 = (set_state StateRegistered (set_id i' s), Ok ()) ∧
  w_in (run script_handler (handleRegister s) w).2 !! conn s = Some [[]; drop k i].
Proof.
  intros Hs Hk Hi. cbn zeta. unfold one_conn.
  pose proof (lookup_singleton_eq (M := gmap handle) (conn s) [take k i; drop k i]) as Hm.
  revert Hm. generalize ({[conn s := [take k i; drop k i]]} : gmap handle (list (list byte))).
  intros m Hm. pose proof (length_vec_to_list i) as Hl.
  assert (∃ b bs, take k i = b :: bs ∧ (length bs < 15)%nat) as (b & bs & Hb & Hbs).
  { pose proof (length_take_le i k ltac:(lia)) as Ht. destruct (take k i) as [|b bs]; cbn in Ht; [lia|].
    exists b, bs. split; [done|lia]. }
  rewrite Hb in *.
  unfold handleRegister, s_read, s_write, wrap, check, liftR, get, modify, mbind, M_bind, mret, M_ret.
  cbn -[lookup insert fill take drop]. rewrite Hm. cbn -[lookup insert fill take drop].
  rewrite (take_ge bs), (drop_ge bs), (take_ge (b :: bs)), Hi, uuid_FromBytes_ok by (cbn; lia).
  cbn -[lookup insert take drop]. rewrite decide_False by (rewrite Hs; tauto).
  cbn -[lookup insert take drop]. split; [done|]. apply lookup_insert_eq.
Qed.

End server_specs.

(** ** Witnesses *)

Definition demo_server : Server := set_state StateRegistered (NewServer 3%nat [WithNoAuth]).
Definition demo_answer : world := one_conn 3%nat [[versionV1]; [resSuccess]].

Lemma SendCustomEvent_outcome_witness :
  let p := run script_handler (SendCustomEvent (X := demo) "news" [x31] demo_server) demo_answer in
  p.1.2.2 = Ok () ∧ ∃ d, event_bytes (X := demo) "news" [x31] = Some d ∧
    request_post demo_server (event_frame d) p.1.1 p.1.2.1 p.1.2.2.
Proof.
  cbn zeta. split; [by vm_compute|].
  destruct (event_bytes (X := demo) "news" [x31]) as [d|] eqn:E; [|by vm_compute in E].
  exists d. split; [done|].
  pose proof (SendCustomEvent_outcome (X := demo) "news" [x31] demo_server _ _ _ eq_refl
    (run_tracesM script_handler (SendCustomEvent (X := demo) "news" [x31]) demo_server demo_answer)) as H.
  rewrite E in H. exact (proj1 H).
Defined.

Lemma handleRegister_short_read_witness : ∃ i' : uuid,
  let s := set_state StateProcessing demo_server in
  fill 16 (repeat x07 8) = vec_to_list i' ∧
  (run script_handler (handleRegister (X := demo) s) (one_conn 3%nat [repeat x07 8; repeat x07 8])).1.2
    = (set_state StateRegistered (set_id i' s), Ok ()).
Proof.
  destruct (uuid_of_list (fill 16 (repeat x07 8))) as [i'|] eqn:E; [|by vm_compute in E].
  assert (fill 16 (repeat x07 8) = vec_to_list i') as Hi by (vm_compute in E; by simplify_eq).
  exists i'. split; [exact Hi|].
  exact (proj1 (handleRegister_short_read (X := demo) (set_state StateProcessing demo_server)
    (vreplicate 16 x07) i' 8 eq_refl ltac:(lia) Hi)).
Defined.
