(* ===== verification/Client.v ===== *)
(** * proto/client.go: the client's side of a connection *)
From S2P Require Import Prelude Static MuxConfig Commands Event GoIO Wire.

(** The receiver of the methods.  The command channel, the wait group and the mutex
    are the world's; [cancel_set] says whether [c.cancel] is not nil. *)
Record Client := mkClient {
  conn : handle;
  cancel_set : bool;
  token : list byte;
  authMode : byte;
  state : clientState;
  disableV2 : bool
}.

(** An option may panic, which is [None]. *)
Definition ClientOption := Client → option Client.

Definition set_state (st : clientState) (c : Client) : Client :=
  mkClient (conn c) (cancel_set c) (token c) (authMode c) st (disableV2 c).
Definition set_cancel (c : Client) : Client :=
  mkClient (conn c) true (token c) (authMode c) (state c) (disableV2 c).
Definition set_conn (h : handle) (c : Client) : Client :=
  mkClient h (cancel_set c) (token c) (authMode c) (state c) (disableV2 c).

Definition NewClient (conn : handle) (opts : list ClientOption) : option Client :=
  fold_left (λ oc opt, c ← oc; opt c) opts
    (Some (mkClient conn false [] noAuth connected false)).

(** The capacity the token is allocated with, computed on bytes: [append] grows the
    slice when it wraps. *)
Definition token_cap (ulen plen : byte) : Z :=
  wrap_u 8 (2 + Z_of_byte ulen + Z_of_byte plen).

Definition userpass_token (username password : string) : list byte :=
  let u := bytes_of_string username in
  let p := bytes_of_string password in
  byte_of_Z (Z.of_nat (length u)) :: u ++ byte_of_Z (Z.of_nat (length p)) :: p.

Definition WithUserPass (username password : string) : result ClientOption :=
  if decide (255 < length (bytes_of_string username) ∨
             255 < length (bytes_of_string password))%nat then
    Err (Errorf "username or password is too long" [])
  else
    Ok (λ c, if decide (authMode c ≠ noAuth) then None
             else Some (mkClient (conn c) (cancel_set c) (userpass_token username password)
                          userPassAuth (state c) (disableV2 c))).

(** proto/client_v2.go declares this option of the embedded client. *)
Definition WithDisableV2Fallback : ClientOption := λ c,
  Some (mkClient (conn c) (cancel_set c) (token c) (authMode c) (state c) true).

Section client.
Context `{X : Externals}.

Definition handleAuth (method : byte) : M Client () :=
  c ← get;
  if decide (method = noAuth) then
    if decide (authMode c ≠ noAuth) then
      throw (Errorf "server replied with different auth method" [])
    else mret ()
  else if decide (method = userPassAuth) then
    if decide (authMode c ≠ userPassAuth) then
      throw (Errorf "server replied with different auth method" [])
    else
      resp ← wrap "failed to send auth token: %w" (sendRequest (conn c) (token c));
      if decide (resp ≠ resSuccess) then
        throw (Errorf "failed to authenticate %d" [Z_of_byte resp])
      else mret ()
  else if decide (method = noAcceptableAuthMethod) then
    throw (Errorf "no acceptable auth method" [])
  else throw (Errorf "unsupported auth method: %d" [Z_of_byte method]).

Definition establish : M Client () :=
  c ← get;
  let methods := [authMode c] in
  let req := byte_of_Z (Z.of_nat (length methods)) :: methods in
  resp ← wrap "failed to establish connection: %w" (sendRequest (conn c) req);
  handleAuth resp.

Definition handleRegister (i : uuid) : M Client () :=
  c ← get;
  resp ← wrap "failed to register: %w"
           (sendRequest (conn c) (cmdRegister :: vec_to_list i));
  if decide (resp = resSuccess) then mret ()
  else if decide (resp = resFailure) then throw (Errorf "failed to register" [])
  else throw (Errorf "unexpected result: %d" [Z_of_byte resp]).

Definition handleBind (i : uuid) : M Client () :=
  c ← get;
  resp ← wrap "failed to bind: %w" (sendRequest (conn c) (cmdBind :: vec_to_list i));
  if decide (resp ≠ resSuccess) then throw (Errorf "failed to bind" [])
  else mret ().

(** [if err := m(); err != nil { c.cancel(); return fmt.Errorf(msg, err) }] *)
Definition or_cancel (msg : string) (m : M Client ()) : M Client () :=
  r ← attempt m;
  match r with
  | Ok _ => mret ()
  | Err e => _ ← lift (call_ CCancel); throw (Wrapf msg e)
  end.

Definition Register (i : uuid) : M Client () :=
  c ← get;
  if decide (state c ≠ connected) then
    throw (Errorf "unexpected state: %d" [clientState_to_Z (state c)])
  else
  modify (set_state processing);;
  modify set_cancel;;
  _ ← lift (call_ (CGo (GCloseOnDone (conn c))));
  or_cancel "failed to init client: %w" establish;;
  or_cancel "failed to handle register: %w" (handleRegister i);;
  modify (set_state registered);;
  _ ← lift (call_ (CGo (GCommandLoop (conn c))));
  mret ().

Definition Bind (i : uuid) : M Client () :=
  c ← get;
  if decide (state c ≠ connected) then
    throw (Errorf "unexpected state: %d" [clientState_to_Z (state c)])
  else
  modify (set_state processing);;
  modify set_cancel;;
  _ ← lift (call_ (CGo (GCloseOnDone (conn c))));
  wrap "failed to init client: %w" establish;;
  wrap "failed to handle bind: %w" (handleBind i);;
  modify (set_state bound).

(** The deferred [c.wg.Wait()] runs after the rest of the body. *)
Definition Close : M Client () :=
  c ← get;
  if decide (state c = disconnected) then mret ()
  else if cancel_set c then
    _ ← lift (call_ CCancel);
    modify (set_state disconnected);;
    r ← attempt (check (conn_Close (conn c)));
    _ ← lift (call_ CWait);
    liftR (mret r)
  else
    _ ← lift (call_ CWait);
    mret ().

(** [_, err := c.conn.Write([]byte{versionV1, resSuccess})] *)
Definition reply (msg : string) : M Client () :=
  c ← get; wrap msg (check (conn_Write (conn c) [versionV1; resSuccess])).

Definition handleConnect : M Client () :=
  c ← get;
  buf ← wrap "failed to read connect request: %w" (liftR (conn_Read (conn c) 16));
  id ← wrap "failed to parse UUID: %w" (liftR (mret (uuid_FromBytes buf)));
  delivered ← lift (call_ (CSelectSend (ConnectCommand id)));
  if delivered : bool then reply "failed to write connect response: %w" else mret ().

Definition handlePing : M Client () := reply "failed to write ping response: %w".

Definition handleCustomEvent : M Client () :=
  c ← get;
  lenBuf ← wrap "failed to read custom event length: %w" (liftR (ReadFull (conn c) 2));
  let dataLen := Z.to_nat (get_be lenBuf) in
  data ← wrap "failed to read custom event: %w" (liftR (ReadFull (conn c) dataLen));
  cmd ← wrap "failed to read custom event: %w" (liftR (mret (Unmarshal_event data)));
  delivered ← lift (call_ (CSelectSend (CustomEvent cmd)));
  if delivered : bool then reply "failed to write custom event response: %w" else mret ().

Definition handleCommand : M Client () :=
  c ← get;
  msg ← wrap "failed to read command: %w" (readMsg (conn c));
  if decide (msg = cmdConnect) then handleConnect
  else if decide (msg = cmdPing) then handlePing
  else if decide (msg = cmdCustomEvent) then handleCustomEvent
  else throw (Errorf "unsupported command: %d" [Z_of_byte msg]).

(** The loop of the goroutine [Register] starts, for [fuel] rounds; [false] when they
    were not enough. *)
Fixpoint command_loop (fuel : nat) : M Client bool :=
  match fuel with
  | O => mret false
  | S fuel' =>
      ctx_done ← lift (call_ CPollDone);
      if ctx_done : bool then mret true
      else
        r ← attempt handleCommand;
        match r with
        | Ok _ => command_loop fuel'
        | Err _ => mret true
        end
  end.

(** The goroutine: the loop, then the deferred calls. *)
Definition command_goroutine (fuel : nat) : M Client bool :=
  finished ← command_loop fuel;
  if finished : bool then
    _ ← lift (call_ CCloseCmds); _ ← lift (call_ CCancel); mret true
  else mret false.

End client.

(** ** New clients *)

(** What the package's options leave alone. *)
Definition setting (o : ClientOption) : Prop := ∀ c c',
  o c = Some c' → conn c' = conn c ∧ state c' = state c ∧ cancel_set c' = cancel_set c.

Lemma WithUserPass_setting u p o : WithUserPass u p = Ok o → setting o.
Proof.
  unfold WithUserPass. case_decide; [done|]. intros [= <-] c c'. case_decide; [done|].
  by intros [= <-].
Qed.

Lemma WithDisableV2Fallback_setting : setting WithDisableV2Fallback.
Proof. by intros c c' [= <-]. Qed.

Lemma NewClient_new h opts c :
  Forall setting opts → NewClient h opts = Some c →
  conn c = h ∧ state c = connected ∧ cancel_set c = false.
Proof.
  unfold NewClient. intros Ho. set (c0 := mkClient h false [] noAuth connected false).
  assert (conn c0 = h ∧ state c0 = connected ∧ cancel_set c0 = false) as Hc0 by done.
  clearbody c0. revert c0 Hc0. induction Ho as [|o opts Ho Hopts IH]; intros c0 Hc0; cbn.
  - by intros [= <-].
  - destruct (o c0) as [c1|] eqn:E; cbn.
    + apply IH. apply Ho in E as (-> & -> & ->). exact Hc0.
    + clear. induction opts; [done|exact IHopts].
Qed.

(** ** Specifications, in every world *)

(** The client's half of an authentication, after the server's choice of [method]. *)
Inductive client_auth (c : Client) : byte → list byte → list byte → Prop :=
  | client_none :
      authMode c = noAuth → client_auth c noAuth [] []
  | client_userpass :
      authMode c = userPassAuth →
      client_auth c userPassAuth [versionV1; resSuccess] (versionV1 :: token c).

Inductive establish_exchange (c : Client) : list byte → list byte → Prop :=
  | establish_ok m rx tx :
      client_auth c m rx tx →
      establish_exchange c ([versionV1; m] ++ rx) ([versionV1; x01; authMode c] ++ tx).

Section client_specs.
Context `{X : Externals}.
Implicit Types c : Client.

Lemma client_handleAuth_spec m c :
  wpM (handleAuth m) c (λ tr c' r,
    c' = c ∧ ∃ rx tx, traffic (conn c) tr rx tx ∧
      match r with
      | Ok _ => client_auth c m rx tx
      | Err e => True
      end).
Proof.
  unfold handleAuth. rewrite wpM_bind, wpM_get.
  case_decide as Hm; [|case_decide as Hm2; [|case_decide as Hm3]]; subst.
  - case_decide; [error_exit|]. rewrite wpM_ret. split; [done|]. exists [], [].
    split; [traffic|]. by constructor.
  - case_decide; [error_exit|]. rewrite wpM_bind, wpM_wrap. wpM_use sendRequest_spec.
    intros tr c' [a|e] (-> & rx & tx & Ht & _ & Hr); cbn; [|error_exit].
    destruct Hr as [-> ->]. case_decide; [error_exit|]. subst a. rewrite wpM_ret.
    split; [done|]. do 2 eexists. split; [traffic|]. by constructor.
  - error_exit.
  - error_exit.
Qed.

Lemma establish_spec c :
  wpM establish c (λ tr c' r,
    c' = c ∧ ∃ rx tx, traffic (conn c) tr rx tx ∧
      match r with
      | Ok _ => establish_exchange c rx tx
      | Err e => True
      end).
Proof.
  unfold establish. rewrite wpM_bind, wpM_get, wpM_bind, wpM_wrap. wpM_use sendRequest_spec.
  intros tr c' [m|e] (-> & rx & tx & Ht & _ & H); cbn; [|error_exit].
  destruct H as [-> ->]. wpM_use client_handleAuth_spec.
  intros tr' c' r (-> & rx' & tx' & Ht' & H). split; [done|].
  exists ([versionV1; m] ++ rx'), ([versionV1; x01; authMode c] ++ tx').
  split; [traffic|]. destruct r; [|done]. by constructor.
Qed.

(** [handleRegister] and [handleBind] succeed exactly when the answer is [resSuccess]. *)
Definition id_request_post (c : Client) (cmd : byte) (i : uuid) (tr : list event)
    (c' : Client) (r : result ()) : Prop :=
  c' = c ∧ ∃ rx tx, traffic (conn c) tr rx tx ∧
    match r with
    | Ok _ => rx = [versionV1; resSuccess] ∧ tx = versionV1 :: cmd :: vec_to_list i
    | Err e => rx ≠ [versionV1; resSuccess]
    end.

Lemma client_handleRegister_spec i c :
  wpM (handleRegister i) c (id_request_post c cmdRegister i).
Proof.
  unfold handleRegister. rewrite wpM_bind, wpM_get, wpM_bind, wpM_wrap.
  wpM_use sendRequest_spec.
  intros tr c' [m|e] (-> & rx & tx & Ht & _ & H); cbn.
  - destruct H as [-> ->]. case_decide; [|case_decide];
      (split; [done|]); do 2 eexists; (split; [traffic|]); cbn; [by subst m|by subst m|congruence].
  - split; [done|]. do 2 eexists. split; [traffic|]. apply H.
Qed.

Lemma client_handleBind_spec i c : wpM (handleBind i) c (id_request_post c cmdBind i).
Proof.
  unfold handleBind. rewrite wpM_bind, wpM_get, wpM_bind, wpM_wrap.
  wpM_use sendRequest_spec.
  intros tr c' [m|e] (-> & rx & tx & Ht & _ & H); cbn.
  - destruct H as [-> ->]. case_decide;
      (split; [done|]); do 2 eexists; (split; [traffic|]); cbn; [congruence|by subst m].
  - split; [done|]. do 2 eexists. split; [traffic|]. apply H.
Qed.

(** What the two registration methods do, [go] being the watcher they start first:
    on success one exchange each of [establish] and of the command; otherwise the
    traffic so far. *)
Definition open_post (c : Client) (cmd : byte) (i : uuid) (st : clientState)
    (ok_end err_end : list event) (tr : list event) (c' : Client) (r : result ()) : Prop :=
  ∃ tr' rx tx, traffic (conn c) tr' rx tx ∧
    match r with
    | Ok _ =>
        tr = ev (CGo (GCloseOnDone (conn c))) () :: tr' ++ ok_end ∧
        c' = set_state st (set_cancel c) ∧
        ∃ rx' tx', establish_exchange c rx' tx' ∧
          rx = rx' ++ [versionV1; resSuccess] ∧ tx = tx' ++ versionV1 :: cmd :: vec_to_list i
    | Err e =>
        tr = ev (CGo (GCloseOnDone (conn c))) () :: tr' ++ err_end ∧
        c' = set_state processing (set_cancel c)
    end.

Lemma or_cancel_spec msg (m : M Client ()) c (Post : list event → Client → Prop)
    (PostE : list event → Client → Prop) :
  wpM m c (λ tr c' r, match r with Ok _ => Post tr c' | Err _ => PostE tr c' end) →
  wpM (or_cancel msg m) c (λ tr c' r,
    match r with
    | Ok _ => Post tr c'
    | Err e => ∃ tr', tr = tr' ++ [ev CCancel ()] ∧ PostE tr' c'
    end).
Proof.
  intros H. unfold or_cancel. rewrite wpM_bind, wpM_attempt.
  eapply wpM_mono; [exact H|]. intros tr c' [[]|e] HP; cbn.
  - by rewrite wpM_ret, app_nil_r.
  - rewrite wpM_bind, wpM_lift. cbn [wp call_]. intros []. rewrite wpM_throw. eauto.
Qed.

Lemma establish_exchange_cancel st c rx tx :
  establish_exchange (set_state st (set_cancel c)) rx tx → establish_exchange c rx tx.
Proof.
  intros [m rx' tx' H]. change (authMode (set_state st (set_cancel c))) with (authMode c).
  apply establish_ok. destruct H as [H|H]; [exact (client_none c H) | exact (client_userpass c H)].
Qed.

Lemma client_Register_spec i c :
  state c = connected →
  wpM (Register i) c
    (open_post c cmdRegister i registered [ev (CGo (GCommandLoop (conn c))) ()] [ev CCancel ()]).
Proof.
  intros Hs. unfold Register. rewrite wpM_bind, wpM_get, decide_False by tauto.
  rewrite wpM_bind, wpM_modify, wpM_bind, wpM_modify, wpM_bind, wpM_lift.
  cbn [wp call_]. intros []. rewrite wpM_bind. set (cp := set_cancel (set_state processing c)).
  eapply wpM_mono.
  { apply (or_cancel_spec _ _ cp
      (λ tr c', c' = cp ∧ ∃ rx tx, traffic (conn c) tr rx tx ∧ establish_exchange c rx tx)
      (λ tr c', c' = cp ∧ ∃ rx tx, traffic (conn c) tr rx tx)).
    eapply wpM_mono; [apply establish_spec|]. intros tr c' [[]|e] (-> & rx & tx & Ht & H);
      (split; [done|]); exists rx, tx; [|done].
    split; [done|]. by apply (establish_exchange_cancel processing). }
  intros tr1 c1 [[]|e]; cbn.
  - intros (-> & rx1 & tx1 & Ht1 & H1). rewrite wpM_bind. eapply wpM_mono.
    { apply (or_cancel_spec _ _ cp
        (λ tr c', c' = cp ∧ traffic (conn c) tr [versionV1; resSuccess]
                              (versionV1 :: cmdRegister :: vec_to_list i))
        (λ tr c', c' = cp ∧ ∃ rx tx, traffic (conn c) tr rx tx)).
      eapply wpM_mono; [apply client_handleRegister_spec|].
      intros tr c' [[]|e] (-> & rx & tx & Ht & H); (split; [done|]); [|by eauto].
      by destruct H as [-> ->]. }
    intros tr2 c2 [[]|e]; cbn.
    + intros (-> & Ht2). rewrite wpM_bind, wpM_modify, wpM_bind, wpM_lift.
      cbn [wp call_]. intros []. rewrite wpM_ret.
      exists (tr1 ++ tr2). do 2 eexists. split; [traffic|].
      split; [by rewrite <-app_assoc|]. split; [done|]. by exists rx1, tx1.
    + intros (tr' & -> & -> & rx & tx & Ht). exists (tr1 ++ tr'). do 2 eexists.
      split; [traffic|]. split; [by rewrite <-app_assoc|done].
  - intros (tr' & -> & -> & rx & tx & Ht). by exists tr', rx, tx.
Qed.

Lemma client_Bind_spec i c :
  state c = connected → wpM (Bind i) c (open_post c cmdBind i bound [] []).
Proof.
  intros Hs. unfold Bind. rewrite wpM_bind, wpM_get, decide_False by tauto.
  rewrite wpM_bind, wpM_modify, wpM_bind, wpM_modify, wpM_bind, wpM_lift.
  cbn [wp call_]. intros []. rewrite wpM_bind, wpM_wrap.
  set (cp := set_cancel (set_state processing c)). wpM_use establish_spec.
  intros tr1 c1 [[]|e] (-> & rx1 & tx1 & Ht1 & H1); cbn.
  - rewrite wpM_bind, wpM_wrap. wpM_use client_handleBind_spec.
    intros tr2 c2 [[]|e] (-> & rx2 & tx2 & Ht2 & H2); cbn.
    + destruct H2 as [-> ->]. rewrite wpM_modify.
      exists (tr1 ++ tr2). do 2 eexists. split; [traffic|].
      split; [by rewrite !app_nil_r|]. split; [done|]. exists rx1, tx1.
      split; [|done]. by apply (establish_exchange_cancel processing).
    + exists (tr1 ++ tr2). do 2 eexists. split; [traffic|]. by rewrite app_nil_r.
  - exists tr1, rx1, tx1. by rewrite app_nil_r.
Qed.

(** ** The command handler *)

(** The bytes of a command frame, after the two bytes of the message. *)
Inductive frame : Command → list byte → Prop :=
  | frame_connect d i :
      (0 < length d ≤ 16)%nat → uuid_FromBytes (fill 16 d) = Ok i →
      frame (ConnectCommand i) ([versionV1; cmdConnect] ++ d)
  | frame_event len d e :
      length len = 2%nat → Z.of_nat (length d) = get_be len →
      Unmarshal_event d = Ok e →
      frame (CustomEvent e) ([versionV1; cmdCustomEvent] ++ len ++ d).

(** A round that succeeds answered a ping, or took one frame off the connection, put
    its command on the channel and only then acknowledged it, or was cancelled. *)
Inductive round_ok (c : Client) : list event → Prop :=
  | round_ping tr :
      traffic (conn c) tr [versionV1; cmdPing] [versionV1; resSuccess] → round_ok c tr
  | round_deliver cmd rx tr1 tr2 :
      frame cmd rx → traffic (conn c) tr1 rx [] →
      traffic (conn c) tr2 [] [versionV1; resSuccess] →
      round_ok c (tr1 ++ ev (CSelectSend cmd) true :: tr2)
  | round_cancelled cmd rx tr1 :
      frame cmd rx → traffic (conn c) tr1 rx [] →
      round_ok c (tr1 ++ [ev (CSelectSend cmd) false]).

Lemma reply_spec msg c :
  wpM (reply msg) c (λ tr c' r,
    c' = c ∧ traffic (conn c) tr [] (if is_Ok r then [versionV1; resSuccess] else [])).
Proof.
  unfold reply. rewrite wpM_bind, wpM_get, wpM_wrap. wpM_use conn_Write_wpM.
  by intros tr c' [u|e] (-> & Ht & He); cbn.
Qed.

(** The end of the two delivering handlers. *)
Lemma deliver_spec c cmd msg tr1 rx :
  frame cmd rx → traffic (conn c) tr1 rx [] →
  wpM (delivered ← lift (call_ (CSelectSend cmd));
       if delivered : bool then reply msg else mret ()) c (λ tr c' r,
    c' = c ∧ (is_Ok r = true → round_ok c (tr1 ++ tr))).
Proof.
  intros Hf Ht1. rewrite wpM_bind, wpM_lift. cbn [wp call_]. intros [].
  - wpM_use reply_spec. intros tr c' r (-> & Ht). split; [done|]. intros Hr. rewrite Hr in Ht.
    by apply (round_deliver c cmd rx tr1 tr).
  - rewrite wpM_ret. split; [done|]. intros _. by apply (round_cancelled c cmd rx).
Qed.

Lemma handleConnect_spec c tr1 :
  traffic (conn c) tr1 [versionV1; cmdConnect] [] →
  wpM handleConnect c (λ tr c' r, c' = c ∧ (is_Ok r = true → round_ok c (tr1 ++ tr))).
Proof.
  intros Ht1. unfold handleConnect. rewrite wpM_bind, wpM_get, wpM_bind, wpM_wrap.
  wpM_use conn_Read_wpM; [lia|].
  intros tr2 c2 [buf|e] (-> & rx & Ht2 & Hl & H); cbn; [|done].
  destruct H as [Hpos ->]. rewrite wpM_bind, wpM_wrap, wpM_liftR. cbn.
  destruct (uuid_FromBytes (fill 16 rx)) as [i|e] eqn:Ei; cbn; [|done].
  wpM_use (deliver_spec c (ConnectCommand i) _ (tr1 ++ tr2) ([versionV1; cmdConnect] ++ rx)).
  - by constructor.
  - traffic.
  - intros tr c' r [-> H]. by rewrite app_assoc.
Qed.

Lemma handleCustomEvent_spec c tr1 :
  traffic (conn c) tr1 [versionV1; cmdCustomEvent] [] →
  wpM handleCustomEvent c (λ tr c' r, c' = c ∧ (is_Ok r = true → round_ok c (tr1 ++ tr))).
Proof.
  intros Ht1. unfold handleCustomEvent. rewrite wpM_bind, wpM_get, wpM_bind, wpM_wrap.
  wpM_use ReadFull_wpM. intros tr2 c2 [len|e] (-> & rx & Ht2 & H); cbn; [|done].
  destruct H as [Hlen <-]. rewrite wpM_bind, wpM_wrap.
  wpM_use ReadFull_wpM. intros tr3 c3 [d|e] (-> & rx3 & Ht3 & H); cbn; [|done].
  destruct H as [Hd <-]. rewrite wpM_bind, wpM_wrap, wpM_liftR. cbn.
  destruct (Unmarshal_event d) as [e|e] eqn:Ee; cbn; [|done].
  wpM_use (deliver_spec c (CustomEvent e) _ (tr1 ++ tr2 ++ tr3)
             ([versionV1; cmdCustomEvent] ++ len ++ d)).
  - constructor; [done| |done]. rewrite Hd, Z2Nat.id; [done|]. apply get_be_nonneg.
  - traffic.
  - intros tr c' r [-> H]. by rewrite <-!app_assoc in *.
Qed.

Lemma client_handleCommand_spec c :
  wpM handleCommand c (λ tr c' r, c' = c ∧ (is_Ok r = true → round_ok c tr)).
Proof.
  unfold handleCommand. rewrite wpM_bind, wpM_get, wpM_bind, wpM_wrap.
  wpM_use readMsg_spec. intros tr1 c1 [m|e] (-> & rx1 & Ht1 & H1); cbn; [subst rx1|done].
  case_decide; [|case_decide; [|case_decide]]; try subst m.
  - by apply handleConnect_spec.
  - unfold handlePing. wpM_use reply_spec. intros tr c' r (-> & Ht). split; [done|].
    intros Hr. rewrite Hr in Ht. apply round_ping. traffic.
  - by apply handleCustomEvent_spec.
  - by rewrite wpM_throw.
Qed.

End client_specs.
