(* ===== verification/Pair.v ===== *)
(** * Two programs at the two ends of a connection

    A configuration is the client's program, the server's program, the bytes in
    flight each way and which ends are closed.  [exec] runs the next call of one side;
    a read takes what is in flight, up to the buffer's length, or less when the
    schedule says so (a stream may be cut anywhere).  [inevitable] is the strong
    guarantee: whatever the schedule does next, the run goes on and ends where [Q]
    holds. *)
From S2P Require Import Prelude MuxConfig Commands GoIO.

Record cfg (A B : Type) := Cfg {
  cl : io A;
  sv : io B;
  to_s : list byte;
  to_c : list byte;
  c_closed : bool;
  s_closed : bool
}.
Arguments Cfg {A B} cl sv to_s to_c c_closed s_closed.
Arguments cl {A B} _.
Arguments sv {A B} _.
Arguments to_s {A B} _.
Arguments to_c {A B} _.
Arguments c_closed {A B} _.
Arguments s_closed {A B} _.

(** The next call of one program, at the end [h]: the program after it, what is left
    of the bytes in flight towards it, what it sends and whether it closes its end.
    [size] bounds what one read delivers to [size + 1] bytes.  A closed peer ends the
    stream once it is drained; a context is never cancelled, and a command channel and a
    request's channel have room in these runs (for the latter see
    Dispatch.delivery_never_blocks); calls on yamux sessions and reads into an empty
    buffer are not part of them. *)
Definition local {A} (h : handle) (size : option nat) (p : io A) (inbox : list byte)
    (peer_closed : bool) : option (io A * list byte * list byte * bool) :=
  match p with
  | Ret _ => None
  | Call c k =>
      match c as c return (answer c → io A) → option (io A * list byte * list byte * bool) with
      | CRead h' n => λ k,
          if decide (h' = h) then
            match inbox with
            | [] => if peer_closed then Some (k (RdErr [] ioEOF), [], [], false) else None
            | b :: bs =>
                if decide (n = 0%nat) then None else
                let m := match size with None => n | Some z => Nat.min n (S z) end in
                Some (k (RdData b (take (m - 1) bs)), drop (m - 1) bs, [], false)
            end
          else None
      | CWrite h' bs => λ k,
          if decide (h' = h) then Some (k None, inbox, bs, false) else None
      | CClose h' => λ k,
          if decide (h' = h) then Some (k None, inbox, [], true) else None
      | CSelectSend _ => λ k, Some (k true, inbox, [], false)
      | CPollDone => λ k, Some (k false, inbox, [], false)
      | CDeliver _ _ => λ k, Some (k true, inbox, [], false)
      | CCancel | CCloseCmds | CCloseDone | CWait | CGo _ => λ k, Some (k (), inbox, [], false)
      | _ => λ _, None
      end k
  end.

Inductive side := ClientSide | ServerSide.

Section pair.
Context {A B : Type} (hc hs : handle).

Definition exec (who : side) (size : option nat) (c : cfg A B) : option (cfg A B) :=
  match who with
  | ClientSide =>
      '(p, inbox, out, closes) ← local hc size (cl c) (to_c c) (s_closed c);
      Some (Cfg p (sv c) (to_s c ++ out) inbox (c_closed c || closes) (s_closed c))
  | ServerSide =>
      '(p, inbox, out, closes) ← local hs size (sv c) (to_s c) (c_closed c);
      Some (Cfg (cl c) p inbox (to_c c ++ out) (c_closed c) (s_closed c || closes))
  end.

(** One step of a schedule; with [cut = false] reads take all that is in flight. *)
Definition step (cut : bool) (c c' : cfg A B) : Prop :=
  ∃ who size, (cut = false → size = None) ∧ exec who size c = Some c'.

(** Running a given schedule; a side that cannot move is skipped. *)
Fixpoint run_schedule (l : list (side * option nat)) (c : cfg A B) : cfg A B :=
  match l with
  | [] => c
  | (who, size) :: l' => run_schedule l' (default c (exec who size c))
  end.

Inductive inevitable (cut : bool) (Q : cfg A B → Prop) : cfg A B → Prop :=
  | inev_now c : Q c → inevitable cut Q c
  | inev_step c :
      (∃ c', step cut c c') → (∀ c', step cut c c' → inevitable cut Q c') →
      inevitable cut Q c.

Lemma inev_mono cut (Q Q' : cfg A B → Prop) c :
  (∀ c, Q c → Q' c) → inevitable cut Q c → inevitable cut Q' c.
Proof.
  intros HQ. induction 1 as [c Hc|c Hs _ IH]; [by apply inev_now, HQ|]. by apply inev_step.
Qed.

(** Both sides have returned. *)
Definition finished (a : A) (b : B) (c : cfg A B) : Prop :=
  cl c = Ret a ∧ sv c = Ret b.

Lemma run_schedule_steps l c : rtc (step true) c (run_schedule l c).
Proof.
  revert c. induction l as [|[who size] l IH]; intros c; [apply rtc_refl|]. cbn.
  destruct (exec who size c) as [c'|] eqn:E; cbn; [|apply IH].
  eapply rtc_l; [by exists who, size|]. apply IH.
Qed.

(** The rules the proofs use: with uncut reads each side has at most one next step. *)
Lemma inev_exec Q c oc os :
  exec ClientSide None c = oc → exec ServerSide None c = os →
  is_Some oc ∨ is_Some os →
  (∀ c', oc = Some c' → inevitable false Q c') →
  (∀ c', os = Some c' → inevitable false Q c') →
  inevitable false Q c.
Proof.
  intros <- <- Hsome Hc Hs. apply inev_step.
  - destruct Hsome as [[c' H]|[c' H]]; exists c';
      [exists ClientSide, None | exists ServerSide, None]; by split.
  - intros c' (who & size & Hn & H). rewrite (Hn eq_refl) in H. destruct who; auto.
Qed.

(** One side moves while the other is blocked. *)
Lemma inev_client Q p q i o cc sc p' i' out closes :
  local hc None p i sc = Some (p', i', out, closes) →
  local hs None q o cc = None →
  inevitable false Q (Cfg p' q (o ++ out) i' (cc || closes) sc) →
  inevitable false Q (Cfg p q o i cc sc).
Proof.
  intros Hp Hq H. eapply inev_exec; cbn; rewrite ?Hp, ?Hq; cbn; [done|done|by left|..].
  - by intros c' [= <-].
  - done.
Qed.

Lemma inev_server Q p q i o cc sc q' o' out closes :
  local hs None q o cc = Some (q', o', out, closes) →
  local hc None p i sc = None →
  inevitable false Q (Cfg p q' o' (i ++ out) cc (sc || closes)) →
  inevitable false Q (Cfg p q o i cc sc).
Proof.
  intros Hq Hp H. eapply inev_exec; cbn; rewrite ?Hp, ?Hq; cbn; [done|done|by right|..].
  - done.
  - by intros c' [= <-].
Qed.

(** Both sides can move: both orders are covered. *)
Lemma inev_both Q p q i o cc sc p' i' out closes q' o' out' closes' :
  local hc None p i sc = Some (p', i', out, closes) →
  local hs None q o cc = Some (q', o', out', closes') →
  inevitable false Q (Cfg p' q (o ++ out) i' (cc || closes) sc) →
  inevitable false Q (Cfg p q' o' (i ++ out') cc (sc || closes')) →
  inevitable false Q (Cfg p q o i cc sc).
Proof.
  intros Hp Hq H H'. eapply inev_exec; cbn; rewrite ?Hp, ?Hq; cbn; [done|done|by left|..];
    by intros c' [= <-].
Qed.

End pair.

(** ** What the head of a program does *)

Section local.
Context {A : Type} (h : handle).

Lemma local_ret (a : A) i pc : local h None (Ret a) i pc = None.
Proof. done. Qed.

Lemma local_blocked n (k : rd → io A) : local h None (Call (CRead h n) k) [] false = None.
Proof. cbn. by rewrite decide_True. Qed.

Lemma local_read n (k : rd → io A) b bs pc :
  n ≠ 0%nat →
  local h None (Call (CRead h n) k) (b :: bs) pc =
    Some (k (RdData b (take (n - 1) bs)), drop (n - 1) bs, [], false).
Proof. intros Hn. cbn. by rewrite decide_True, decide_False. Qed.

Lemma local_eof n (k : rd → io A) :
  local h None (Call (CRead h n) k) [] true = Some (k (RdErr [] ioEOF), [], [], false).
Proof. cbn. by rewrite decide_True. Qed.

Lemma local_write bs (k : option io_error → io A) i pc :
  local h None (Call (CWrite h bs) k) i pc = Some (k None, i, bs, false).
Proof. cbn. by rewrite decide_True. Qed.

Lemma local_close (k : option io_error → io A) i pc :
  local h None (Call (CClose h) k) i pc = Some (k None, i, [], true).
Proof. cbn. by rewrite decide_True. Qed.

Lemma local_go g (k : () → io A) i pc :
  local h None (Call (CGo g) k) i pc = Some (k (), i, [], false).
Proof. done. Qed.

Lemma local_cancel (k : () → io A) i pc :
  local h None (Call CCancel k) i pc = Some (k (), i, [], false).
Proof. done. Qed.

Lemma local_close_done (k : () → io A) i pc :
  local h None (Call CCloseDone k) i pc = Some (k (), i, [], false).
Proof. done. Qed.

Lemma local_yamux_server h' cfg (k : io_error + session → io A) i pc :
  local h None (Call (CYamuxServer h' cfg) k) i pc = None.
Proof. done. Qed.

Lemma local_yamux_client h' cfg (k : io_error + session → io A) i pc :
  local h None (Call (CYamuxClient h' cfg) k) i pc = None.
Proof. done. Qed.

Lemma local_select cmd (k : bool → io A) i pc :
  local h None (Call (CSelectSend cmd) k) i pc = Some (k true, i, [], false).
Proof. done. Qed.

Lemma local_deliver ch h' (k : bool → io A) i pc :
  local h None (Call (CDeliver ch h') k) i pc = Some (k true, i, [], false).
Proof. done. Qed.

Lemma local_poll (k : bool → io A) i pc :
  local h None (Call CPollDone k) i pc = Some (k false, i, [], false).
Proof. done. Qed.

End local.

(** An evaluation context: what is around a program that runs first. *)
Definition ctx {A B} (K : io A → io B) : Prop :=
  ∀ c k, K (Call c k) = Call c (λ r, K (k r)).

(** Bring both programs, each in its context, to their next call. *)
Ltac ctx_heads HKC HKS :=
  cbn beta;
  lazymatch goal with
  | |- inevitable ?hc ?hs ?b ?Q (Cfg (?KC ?p) (?KS ?q) ?o ?i ?cc ?sc) =>
      let p' := eval hnf in p in
      let q' := eval hnf in q in
      let o' := eval cbn in o in
      let i' := eval cbn in i in
      let cc' := eval cbn in cc in
      let sc' := eval cbn in sc in
      change (inevitable hc hs b Q (Cfg (KC p') (KS q') o' i' cc' sc'));
      rewrite ?HKC, ?HKS
  end.

(** Bring both programs to their next call. *)
Ltac heads :=
  lazymatch goal with
  | |- inevitable ?hc ?hs ?b ?Q (Cfg ?p ?q ?o ?i ?cc ?sc) =>
      let p' := eval hnf in p in
      let q' := eval hnf in q in
      let o' := eval cbn in o in
      let i' := eval cbn in i in
      let cc' := eval cbn in cc in
      let sc' := eval cbn in sc in
      change (inevitable hc hs b Q (Cfg p' q' o' i' cc' sc'))
  end.

Ltac moves :=
  first [ apply local_write | apply local_read; done | apply local_eof | apply local_close | apply local_go
        | apply local_cancel | apply local_close_done | apply local_select | apply local_poll | apply local_deliver ].
Ltac blocked :=
  first [ apply local_ret | apply local_blocked | apply local_yamux_server | apply local_yamux_client ].

(** A program whose next call is a read is blocked with nothing in flight. *)
Ltac wait_read :=
  lazymatch goal with
  | |- local ?h None ?q [] false = None =>
      let q' := eval hnf in q in change (local h None q' [] false = None);
      apply local_blocked
  end.

(** One step of the run, by whichever side can move. *)
Ltac par1 :=
  heads;
  first
    [ eapply inev_client; [moves | blocked |]
    | eapply inev_server; [moves | blocked |] ].

(** One step by whichever side can move, both orders when both can. *)
Ltac par_any :=
  heads;
  first
    [ eapply inev_client; [moves | blocked |]
    | eapply inev_server; [moves | blocked |]
    | eapply inev_both; [moves | moves | |] ].

(** The same inside two contexts. *)
Ltac par_ctx HKC HKS :=
  ctx_heads HKC HKS;
  first
    [ eapply inev_client; [moves | blocked |]
    | eapply inev_server; [moves | blocked |] ];
  cbn beta.

(** ** The traces of the two sides

    [traced acc p] is [p] returning, with its result, the events it exchanged after [acc].
    What is inevitable of two programs is inevitable of them traced, and what they return
    then is one of their traces, so that the programs' specifications apply to it. *)

Fixpoint traced {A} (acc : list event) (p : io A) : io (list event * A) :=
  match p with
  | Ret a => Ret (acc, a)
  | Call c k => Call c (λ r, traced (acc ++ [ev c r]) (k r))
  end.

(** The answers of these runs to the calls that are not on the connection. *)
Definition paired (e : event) : Prop :=
  match e with
  | existT c r =>
      match c as c return answer c → Prop with
      | CDeliver _ _ | CSelectSend _ => λ r, r = true
      | CPollDone => λ r, r = false
      | _ => λ _, True
      end r
  end.

(** [p0] becomes [p] by exchanging [acc]. *)
Definition reaches {A} (p0 : io A) (acc : list event) (p : io A) : Prop :=
  Forall paired acc ∧ ∀ tr a, traces p tr a → traces p0 (acc ++ tr) a.

Section traced.
Context {A : Type} (h : handle).
Implicit Types p : io A.

Lemma reaches_refl p : reaches p [] p.
Proof. by split. Qed.

Lemma reaches_Ret p acc a : reaches p acc (Ret a) → traces p acc a.
Proof. intros [_ H]. rewrite <-(app_nil_r acc). by apply H. Qed.

Lemma reaches_call p0 acc c r (k : answer c → io A) :
  reaches p0 acc (Call c k) → paired (ev c r) → reaches p0 (acc ++ [ev c r]) (k r).
Proof.
  intros [HF H] He. split; [by apply Forall_app_2; [|constructor]|].
  intros tr a Htr. rewrite <-app_assoc. apply H. by exists r, tr.
Qed.

(** What a step adds to the trace: what it took from the bytes in flight, and what it
    sent. *)
Definition flows (acc acc' : list event) (i i' out : list byte) : Prop :=
  received h acc' ++ i' = received h acc ++ i ∧ sent h acc' = sent h acc ++ out.

Lemma local_traced size p p0 acc i pc :
  match local h size p i pc with
  | Some (p', i', out, closes) => reaches p0 acc p → ∃ acc',
      local h size (traced acc p) i pc = Some (traced acc' p', i', out, closes) ∧
      reaches p0 acc' p' ∧ flows acc acc' i i' out
  | None => local h size (traced acc p) i pc = None
  end.
Proof.
  destruct p as [a|c k]; [done|].
  destruct c; cbn; try (destruct (decide _); cbn); try done; try (destruct i as [|b i]; [destruct pc; cbn; try done|]);
    try (destruct (decide (n = 0%nat)); cbn; try done).
  all: intros Hr; eexists; (split; [reflexivity|]); (split; [by apply (reaches_call _ _ _ _ _ Hr)|]).
  all: unfold flows; rewrite received_app, sent_app; unfold received, sent; subst; cbn;
    rewrite ?decide_True, ?app_nil_r by done; cbn; rewrite ?app_nil_r; try done.
  - by rewrite take_nil, app_nil_r.
  - split; [|done]. rewrite <-app_assoc. f_equal. destruct n as [|n]; [done|]. cbn [take app].
    f_equal. rewrite take_take, Nat.min_r; [apply take_drop|]. destruct size; cbn; lia.
Qed.

End traced.

Section traced_pair.
Context {A B : Type} (hc hs : handle).
Implicit Types c : cfg A B.

(** What one side sent is what the other received, and what is still in flight. *)
Definition conserved (tp tq : list event) (to_s to_c : list byte) : Prop :=
  sent hc tp = received hs tq ++ to_s ∧ sent hs tq = received hc tp ++ to_c.

(** A configuration of traced programs, over one that satisfies [Q]. *)
Definition over (p0 : io A) (q0 : io B) (Q : cfg A B → Prop)
    (f : cfg (list event * A) (list event * B)) : Prop :=
  ∃ (c : cfg A B) tp tq, f = Cfg (traced tp (cl c)) (traced tq (sv c)) (to_s c) (to_c c) (c_closed c) (s_closed c) ∧
    reaches p0 tp (cl c) ∧ reaches q0 tq (sv c) ∧ conserved tp tq (to_s c) (to_c c) ∧ Q c.

Lemma exec_traced p0 q0 who size c tp tq :
  reaches p0 tp (cl c) → reaches q0 tq (sv c) → conserved tp tq (to_s c) (to_c c) →
  let f := Cfg (traced tp (cl c)) (traced tq (sv c)) (to_s c) (to_c c) (c_closed c) (s_closed c) in
  match exec hc hs who size c with
  | Some c' => ∃ tp' tq',
      exec hc hs who size f = Some (Cfg (traced tp' (cl c')) (traced tq' (sv c'))
        (to_s c') (to_c c') (c_closed c') (s_closed c')) ∧
      reaches p0 tp' (cl c') ∧ reaches q0 tq' (sv c') ∧ conserved tp' tq' (to_s c') (to_c c')
  | None => exec hc hs who size f = None
  end.
Proof.
  destruct c as [p q o i cc sc]. intros Hp Hq [Hcs Hsc]. cbn in Hcs, Hsc. destruct who; cbn in *.
  - pose proof (local_traced hc size p p0 tp i sc) as H.
    destruct (local hc size p i sc) as [[[[p' i'] out] closes]|]; cbn; [|by rewrite H].
    destruct (H Hp) as (tp' & -> & Hp' & Hi & Ho). exists tp', tq.
    do 3 (split; [done|]). unfold conserved. cbn [to_s to_c].
    by rewrite Ho, Hcs, Hi, app_assoc.
  - pose proof (local_traced hs size q q0 tq o cc) as H.
    destruct (local hs size q o cc) as [[[[q' o'] out] closes]|]; cbn; [|by rewrite H].
    destruct (H Hq) as (tq' & -> & Hq' & Hi & Ho). exists tp, tq'.
    do 3 (split; [done|]). unfold conserved. cbn [to_s to_c].
    by rewrite Ho, Hsc, Hi, app_assoc.
Qed.

Lemma inev_over p0 q0 cut Q c tp tq :
  reaches p0 tp (cl c) → reaches q0 tq (sv c) → conserved tp tq (to_s c) (to_c c) →
  inevitable hc hs cut Q c →
  inevitable hc hs cut (over p0 q0 Q)
    (Cfg (traced tp (cl c)) (traced tq (sv c)) (to_s c) (to_c c) (c_closed c) (s_closed c)).
Proof.
  intros Hp Hq Hf H. revert tp tq Hp Hq Hf.
  induction H as [c Hc|c (c1 & who1 & size1 & Hn1 & Hc1) _ IH]; intros tp tq Hp Hq Hf.
  { apply inev_now. by exists c, tp, tq. }
  apply inev_step.
  - pose proof (exec_traced p0 q0 who1 size1 c tp tq Hp Hq Hf) as H. cbn zeta in H.
    rewrite Hc1 in H. destruct H as (tp' & tq' & H & _). eexists. by exists who1, size1.
  - intros f (who & size & Hn & Hf').
    pose proof (exec_traced p0 q0 who size c tp tq Hp Hq Hf) as H. cbn zeta in H.
    destruct (exec hc hs who size c) as [c'|] eqn:E; [|congruence].
    destruct H as (tp' & tq' & H & Hp' & Hq' & Hcons). rewrite H in Hf'. injection Hf' as <-.
    apply IH; [by exists who, size|done..].
Qed.

(** Two fresh programs that inevitably end with results of which [R] holds: traced, they
    end with such results and traces of theirs, which agree on what went over the
    connection. *)
Lemma inev_traced p q cut (R : A → B → bool → bool → Prop) :
  inevitable hc hs cut (λ f : cfg A B, ∃ a b, finished a b f ∧ R a b (c_closed f) (s_closed f)) (Cfg p q [] [] false false) →
  inevitable hc hs cut (λ f : cfg (list event * A) (list event * B), ∃ tp tq a b, finished (tp, a) (tq, b) f ∧
      R a b (c_closed f) (s_closed f) ∧
      traces p tp a ∧ traces q tq b ∧ Forall paired tp ∧ Forall paired tq ∧
      conserved tp tq (to_s f) (to_c f))
    (Cfg (traced [] p) (traced [] q) [] [] false false).
Proof.
  intros H. apply (inev_over p q) with (tp := []) (tq := []) in H; [|apply reaches_refl..|done].
  eapply inev_mono; [|exact H].
  intros f (c & tp & tq & -> & Hp & Hq & Hcons & a & b & [Ha Hb] & HR). rewrite Ha in Hp. rewrite Hb in Hq.
  exists tp, tq, a, b. unfold finished. cbn. rewrite Ha, Hb.
  split; [done|]. split; [done|]. split; [by apply reaches_Ret|]. split; [by apply reaches_Ret|].
  split; [apply Hp|]. split; [apply Hq|done].
Qed.

End traced_pair.
