(* ===== verification/Handshake.v ===== *)
(** * The handshake: both sides together

    The client's [Register] and [Bind] run against the server's [Process] over one
    connection, under every schedule. *)
From S2P Require Import Prelude Static MuxConfig Commands Demo GoIO Wire.
From S2P Require Import Client.
From S2P Require Import Server.
From S2P Require Import Pair.

(** ** Rules for the methods' calls, in any context *)

Section rules.
Context {A B : Type} (Q : cfg A B → Prop) (hc hs : handle).

Lemma ctx_bind {C D E} (K : io D → io E) (f : C → io D) : ctx K → ctx (λ q, K (q ≫= f)).
Proof. intros HK c k. apply HK. Qed.

(** The server reads a message while the client waits. *)
Lemma par_s_readMsg {S} (p : io A) (K : io (S * result byte) → io B) s m rest i :
  ctx K → local hc None p i false = None →
  inevitable hc hs false Q (Cfg p (K (Ret (s, Ok m))) rest i false false) →
  inevitable hc hs false Q (Cfg p (K (readMsg hs s)) (versionV1 :: m :: rest) i false false).
Proof.
  intros HK Hp H. eapply inev_server; [|done|].
  { let q := eval hnf in (readMsg hs s) in change (readMsg hs s) with q.
    rewrite HK. by apply local_read. }
  cbn -[rd_bytes]. rewrite app_nil_r. exact H.
Qed.

Lemma par_c_readMsg {S} (q : io B) (K : io (S * result byte) → io A) s m rest o :
  ctx K → local hs None q o false = None →
  inevitable hc hs false Q (Cfg (K (Ret (s, Ok m))) q o rest false false) →
  inevitable hc hs false Q (Cfg (K (readMsg hc s)) q o (versionV1 :: m :: rest) false false).
Proof.
  intros HK Hp H. eapply inev_client; [|done|].
  { let q := eval hnf in (readMsg hc s) in change (readMsg hc s) with q.
    rewrite HK. by apply local_read. }
  cbn -[rd_bytes]. rewrite app_nil_r. exact H.
Qed.

(** A request: it is in flight, and the sender waits for the answer. *)
Lemma par_c_sendRequest {S} (q : io B) (K : io (S * result byte) → io A) s req :
  ctx K → local hs None q [] false = None →
  inevitable hc hs false Q (Cfg (K (readMsg hc s)) q (versionV1 :: req) [] false false) →
  inevitable hc hs false Q (Cfg (K (sendRequest hc req s)) q [] [] false false).
Proof.
  intros HK Hp H. eapply inev_client; [|done|].
  { let q := eval hnf in (sendRequest hc req s) in change (sendRequest hc req s) with q.
    rewrite HK. apply local_write. }
  exact H.
Qed.

Lemma par_s_sendRequest {S} (p : io A) (K : io (S * result byte) → io B) s req :
  ctx K → local hc None p [] false = None →
  inevitable hc hs false Q (Cfg p (K (readMsg hs s)) [] (versionV1 :: req) false false) →
  inevitable hc hs false Q (Cfg p (K (sendRequest hs req s)) [] [] false false).
Proof.
  intros HK Hp H. eapply inev_server; [|done|].
  { let q := eval hnf in (sendRequest hs req s) in change (sendRequest hs req s) with q.
    rewrite HK. apply local_write. }
  exact H.
Qed.

(** A side that waits for a message with nothing in flight is blocked. *)
Lemma readMsg_blocked {S T} h (K : io (S * result byte) → io T) s :
  ctx K → local h None (K (readMsg h s)) [] false = None.
Proof.
  intros HK. let q := eval hnf in (readMsg h s) in change (readMsg h s) with q.
  rewrite HK. apply local_blocked.
Qed.

End rules.

Section server_rules.
Context {A B : Type} (Q : cfg A B → Prop) (hc : handle).
Implicit Types (p : io A) (s : Server).

Lemma par_s_read p (K : io (Server * result (list byte)) → io B) s msg n d rest i :
  ctx K → local hc None p i false = None → length d = n → (0 < n)%nat →
  inevitable hc (conn s) false Q (Cfg p (K (Ret (s, Ok d))) rest i false false) →
  inevitable hc (conn s) false Q (Cfg p (K (s_read msg n s)) (d ++ rest) i false false).
Proof.
  intros HK Hp <- Hn H. destruct d as [|b bs]; [cbn in Hn; lia|].
  change ((b :: bs) ++ rest) with (b :: (bs ++ rest)). eapply inev_server; [|done|].
  { let q := eval hnf in (s_read msg (length (b :: bs)) s) in
    change (s_read msg (length (b :: bs)) s) with q. rewrite HK. by apply local_read. }
  cbn beta. rewrite app_nil_r. cbn [length].
  replace (S (length bs) - 1)%nat with (length bs) by lia.
  rewrite take_app_length, drop_app_length.
  match goal with |- context [K ?q] => let q' := eval hnf in q in change (K q) with (K q') end.
  change (fill _ (rd_bytes (S (length bs)) (RdData b bs)))
    with (fill (S (length bs)) (take (S (length bs)) (b :: bs))).
  rewrite (firstn_all2 (n := S (length bs))) by done.
  change (S (length bs)) with (length (b :: bs)). by rewrite fill_exact.
Qed.

Lemma par_s_write p (K : io (Server * result ()) → io B) s msg bs o :
  ctx K → local hc None p [] false = None →
  inevitable hc (conn s) false Q (Cfg p (K (Ret (s, Ok ()))) o bs false false) →
  inevitable hc (conn s) false Q (Cfg p (K (s_write msg bs s)) o [] false false).
Proof.
  intros HK Hp H. eapply inev_server; [|done|].
  { let q := eval hnf in (s_write msg bs s) in change (s_write msg bs s) with q.
    rewrite HK. apply local_write. }
  exact H.
Qed.

End server_rules.

(** ** The authentication phase *)

Section credentials.
Context {A B : Type} (Q : cfg A B → Prop) (hc : handle) (s : Server).
Context (auth : string → string → bool) (user pass : string).
Context (Hu : (0 < length (bytes_of_string user) < 256)%nat).
Context (Hp : (0 < length (bytes_of_string pass) < 256)%nat).

(** The server after the credentials are in flight: it checks exactly the user name and
    the password of the token. *)
Lemma par_credentials (p : io A) (K : io (Server * result ()) → io B) :
  ctx K → local hc None p [] false = None →
  inevitable hc (conn s) false Q
    (if auth user pass
     then Cfg p (K (Ret (s, Ok ()))) [] [versionV1; resSuccess] false false
     else Cfg p (K (Ret (s, Err (Errorf "authentication failed" [])))) []
            [versionV1; resFailure] false false) →
  inevitable hc (conn s) false Q
    (Cfg p (K (handleCredentials auth (byte_of_Z (Z.of_nat (length (bytes_of_string user)))) s))
       (drop 1 (userpass_token user pass)) [] false false).
Proof.
  intros HK Hb H. unfold handleCredentials, userpass_token. cbn [drop].
  remember (bytes_of_string user) as u eqn:Eu. remember (bytes_of_string pass) as w eqn:Ew.
  rewrite nat_of_byte_of_nat by lia. rewrite decide_False by lia.
  apply (par_s_read _ _ _ (λ q, K (q ≫= after _))); [by apply ctx_bind|done|lia..|].
  cbn beta.
  apply (par_s_read _ _ _ (λ q, K (q ≫= after _)) _ _ _ [_]); [by apply ctx_bind|done|done|lia|].
  cbn beta. rewrite <-(app_nil_r w) at 2.
  match goal with
  | |- context [K (Ret (s, Ok [?b]) ≫= after ?f)] =>
      change (K (Ret (s, Ok [b]) ≫= after f)) with (K (f [b] s)); cbn [lookup_total list_lookup_total]
  end.
  rewrite nat_of_byte_of_nat by lia. rewrite decide_False by lia.
  apply (par_s_read _ _ _ (λ q, K (q ≫= after _))); [by apply ctx_bind|done|lia..|].
  cbn beta.
  match goal with
  | |- context [K (Ret (s, Ok w) ≫= after ?f)] =>
      change (K (Ret (s, Ok w) ≫= after f)) with (K (f w s)); cbn beta
  end.
  rewrite Eu, Ew, !string_bytes. destruct (auth user pass).
  - by apply (par_s_write _ _ _ K).
  - apply (par_s_write _ _ _ (λ q, K (q ≫= after _))); [by apply ctx_bind|done|]. exact H.
Qed.

End credentials.

Ltac solve_ctx := intros ? ?; match goal with H : ctx _ |- _ => exact (H _ _) end.

Lemma par_s_ReadFull {A B T} (Q : cfg A B → Prop) hc hs (p : io A) (K : io (T * result (list byte)) → io B) s n d rest i :
  ctx K → local hc None p i false = None → length d = n →
  inevitable hc hs false Q (Cfg p (K (Ret (s, Ok d))) rest i false false) →
  inevitable hc hs false Q (Cfg p (K (liftR (ReadFull hs n) s)) (d ++ rest) i false false).
Proof.
  intros HK Hp <- H. destruct d as [|b bs]; [exact H|].
  change ((b :: bs) ++ rest) with (b :: (bs ++ rest)). eapply inev_server; [|done|].
  { let q := eval hnf in (liftR (ReadFull hs (length (b :: bs))) s) in
    change (liftR (ReadFull hs (length (b :: bs))) s) with q. rewrite HK. by apply local_read. }
  cbn beta. rewrite app_nil_r. cbn [length].
  replace (S (length bs) - 1)%nat with (length bs) by lia.
  rewrite take_app_length, drop_app_length.
  set (d := rd_bytes (S (length bs)) (RdData b bs)).
  assert (d = b :: bs) as Hd by (by unfold d; cbn; rewrite firstn_all).
  match goal with |- context [K ?q] =>
    change (K q) with (K (ReadFull_loop (length bs) hs (S (length bs) - length d) ([] ++ d) ≫= λ r, Ret (s, r))) end.
  rewrite Hd. cbn [length app]. rewrite Nat.sub_diag. destruct bs; exact H.
Qed.

Section establish.
Context {A B : Type} (Q : cfg A B → Prop) (c : Client) (s : Server).
Context (KC : io (Client * result ()) → io A) (KS : io (Server * result ()) → io B).
Context (HKC : ctx KC) (HKS : ctx KS).

(** Up to the server's choice of a method. *)
Lemma par_methods :
  inevitable (Client.conn c) (conn s) false Q
    (Cfg (KC ((readMsg (Client.conn c) c ≫= λ '(c', r), Ret (c', wrap_err "failed to establish connection: %w" r)) ≫= after Client.handleAuth))
         (KS (handleInit_loop [Client.authMode c] s ≫= after (λ handled : bool,
            if handled then mret ()
            else s_write "failed to write auth method response: %w" [versionV1; noAcceptableAuthMethod];;
                 throw (Errorf "no acceptable auth method" [])))) [] [] false false) →
  inevitable (Client.conn c) (conn s) false Q
    (Cfg (KC (establish c)) (KS (handleInit s)) [] [] false false).
Proof.
  intros H. unfold establish, handleInit.
  apply (par_c_sendRequest _ _ _ _ (λ q, KC ((q ≫= _) ≫= after _))); [solve_ctx| |].
  { apply (readMsg_blocked _ (λ q, KS ((q ≫= _) ≫= after _))). solve_ctx. }
  cbn beta.
  apply (par_s_readMsg _ _ _ _ (λ q, KS ((q ≫= _) ≫= after _))); [solve_ctx| |].
  { apply (readMsg_blocked _ (λ q, KC ((q ≫= _) ≫= after _))). solve_ctx. }
  cbn beta.
  apply (par_s_ReadFull _ _ _ _ (λ q, KS ((q ≫= _) ≫= after _)) _ _ [_] []); [solve_ctx| | |].
  { apply (readMsg_blocked _ (λ q, KC ((q ≫= _) ≫= after _))). solve_ctx. }
  { done. }
  exact H.
Qed.

(** Both sides agree on a method and, if it needs them, on credentials. *)
Inductive agree : Prop :=
  | agree_none : Client.authMode c = noAuth → noAuth_ok s = true → agree
  | agree_userpass auth user pass :
      Client.authMode c = userPassAuth → Client.token c = userpass_token user pass →
      userPassAuth_fn s = Some auth → auth user pass = true →
      (0 < length (bytes_of_string user) < 256)%nat →
      (0 < length (bytes_of_string pass) < 256)%nat → agree.


Lemma handleAuth_none_eq :
  noAuth_ok s = true →
  handleAuth noAuth s = s_write "failed to write auth method response: %w" [versionV1; noAuth] s.
Proof. intros H. unfold handleAuth. cbv [mbind M_bind get mbind io_bind after]. by rewrite H. Qed.

Lemma handleAuth_userpass_eq auth :
  userPassAuth_fn s = Some auth → handleAuth userPassAuth s = handleUserPassAuth auth s.
Proof. intros H. unfold handleAuth. cbv [mbind M_bind get mbind io_bind after]. by rewrite H. Qed.

(** The loop over one method, as what runs around [handleAuth]. *)
Definition loop_rest (m : byte) : result () → M Server bool := λ r,
  match r with
  | Err e =>
      if errors_Is e ErrUnsupportedAuthMethod then handleInit_loop []
      else throw (Wrapf "failed to handle auth method: %w" e)
  | Ok _ => mret true
  end.

Lemma handleInit_loop_one m :
  handleInit_loop [m] s = (handleAuth m s ≫= λ '(s', r), Ret (s', Ok r)) ≫= after (loop_rest m).
Proof. done. Qed.


Lemma client_handleAuth_none_eq :
  Client.authMode c = noAuth → Client.handleAuth noAuth c = Ret (c, Ok ()).
Proof. intros H. unfold Client.handleAuth. cbv [mbind M_bind get io_bind after]. by rewrite H. Qed.

(** What the client does with the answer to its token. *)
Definition token_rest : byte → M Client () := λ resp,
  if decide (resp ≠ resSuccess) then
    throw (Errorf "failed to authenticate %d" [Z_of_byte resp])
  else mret ().

Lemma client_handleAuth_userpass_eq :
  Client.authMode c = userPassAuth →
  Client.handleAuth userPassAuth c =
    (sendRequest (Client.conn c) (Client.token c) c
       ≫= λ '(c', r), Ret (c', wrap_err "failed to send auth token: %w" r)) ≫= after token_rest.
Proof.
  intros H. unfold Client.handleAuth.
  change ((get ≫= ?f) c) with (f c c). cbn beta.
  rewrite decide_False by done. rewrite decide_True by done.
  by rewrite decide_False by (rewrite H; tauto).
Qed.


(** The client while it waits for the server's choice, and for the verdict on its token. *)
Definition method_wait : io (Client * result ()) :=
  (readMsg (Client.conn c) c
     ≫= λ '(c', r), Ret (c', wrap_err "failed to establish connection: %w" r))
  ≫= after Client.handleAuth.

Definition token_wait : io (Client * result ()) :=
  (readMsg (Client.conn c) c
     ≫= λ '(c', r), Ret (c', wrap_err "failed to send auth token: %w" r)) ≫= after token_rest.

Lemma method_wait_blocked : local (Client.conn c) None (KC method_wait) [] false = None.
Proof. apply (readMsg_blocked _ (λ q, KC ((q ≫= _) ≫= after _))). solve_ctx. Qed.

Lemma token_wait_blocked : local (Client.conn c) None (KC token_wait) [] false = None.
Proof. apply (readMsg_blocked _ (λ q, KC ((q ≫= _) ≫= after _))). solve_ctx. Qed.

Definition auth_failed : error :=
  Wrapf "failed to handle auth method: %w" (Errorf "authentication failed" []).

(** User name and password, up to the server's verdict. *)
Lemma par_userpass auth user pass :
  Client.authMode c = userPassAuth → Client.token c = userpass_token user pass →
  userPassAuth_fn s = Some auth →
  (0 < length (bytes_of_string user) < 256)%nat →
  (0 < length (bytes_of_string pass) < 256)%nat →
  inevitable (Client.conn c) (conn s) false Q
    (if auth user pass
     then Cfg (KC token_wait) (KS (Ret (s, Ok ()))) [] [versionV1; resSuccess] false false
     else Cfg (KC token_wait) (KS (Ret (s, Err auth_failed))) [] [versionV1; resFailure]
            false false) →
  inevitable (Client.conn c) (conn s) false Q
    (Cfg (KC (establish c)) (KS (handleInit s)) [] [] false false).
Proof.
  intros Hc Ht Hs Hu Hp H. apply par_methods. rewrite handleInit_loop_one, Hc.
  assert (∀ {T} (K : io (Server * result byte) → io T), ctx K →
    local (conn s) None (K (readMsg (conn s) s)) [] false = None) as Hsb
    by (intros; by apply readMsg_blocked).
  rewrite (handleAuth_userpass_eq auth) by done. unfold handleUserPassAuth.
  apply (par_s_sendRequest _ _ _ _
           (λ q, KS (((((q ≫= _) ≫= after _) ≫= _) ≫= after _) ≫= after _)));
    [solve_ctx | apply method_wait_blocked |]. cbn beta.
  apply (par_c_readMsg _ _ _ _ (λ q, KC ((q ≫= _) ≫= after _))); [solve_ctx| |].
  { apply (Hsb _ (λ q, KS (((((q ≫= _) ≫= after _) ≫= _) ≫= after _) ≫= after _))). solve_ctx. }
  cbn beta.
  change (KC (_ ≫= after Client.handleAuth)) with (KC (Client.handleAuth userPassAuth c)).
  rewrite client_handleAuth_userpass_eq, Ht by done.
  apply (par_c_sendRequest _ _ _ _ (λ q, KC ((q ≫= _) ≫= after _))); [solve_ctx| |].
  { apply (Hsb _ (λ q, KS (((((q ≫= _) ≫= after _) ≫= _) ≫= after _) ≫= after _))). solve_ctx. }
  cbn beta. unfold userpass_token at 1.
  apply (par_s_readMsg _ _ _ _
           (λ q, KS (((((q ≫= _) ≫= after _) ≫= _) ≫= after _) ≫= after _)));
    [solve_ctx | apply token_wait_blocked |]. cbn beta.
  apply (par_credentials _ _ _ auth user pass Hu Hp _
           (λ q, KS (((q ≫= _) ≫= after _) ≫= after _)));
    [solve_ctx | apply token_wait_blocked |].
  by destruct (auth user pass).
Qed.

(** After an authentication that succeeds the server waits for a command. *)
Lemma par_establish :
  local (conn s) None (KS (Ret (s, Ok ()))) [] false = None → agree →
  inevitable (Client.conn c) (conn s) false Q
    (Cfg (KC (Ret (c, Ok ()))) (KS (Ret (s, Ok ()))) [] [] false false) →
  inevitable (Client.conn c) (conn s) false Q
    (Cfg (KC (establish c)) (KS (handleInit s)) [] [] false false).
Proof.
  intros Hwait [Hc Hs | auth user pass Hc Ht Hs Ha Hu Hp] H.
  - apply par_methods. rewrite handleInit_loop_one, Hc, handleAuth_none_eq by done.
    apply (par_s_write _ _ _ (λ q, KS (((q ≫= _) ≫= after _) ≫= after _)));
      [solve_ctx | apply method_wait_blocked |]. cbn beta.
    apply (par_c_readMsg _ _ _ _ (λ q, KC ((q ≫= _) ≫= after _))); [solve_ctx|exact Hwait|].
    cbn beta. change (KC (_ ≫= after Client.handleAuth)) with (KC (Client.handleAuth noAuth c)).
    rewrite client_handleAuth_none_eq by done. exact H.
  - apply (par_userpass auth user pass); [done..|]. rewrite Ha.
    apply (par_c_readMsg _ _ _ _ (λ q, KC ((q ≫= _) ≫= after _))); [solve_ctx|exact Hwait|].
    exact H.
Qed.

(** A client without credentials and a server that requires them. *)
Lemma par_refused :
  Client.authMode c = noAuth → noAuth_ok s = false →
  inevitable (Client.conn c) (conn s) false Q
    (Cfg (KC method_wait) (KS (Ret (s, Err (Errorf "no acceptable auth method" [])))) []
       [versionV1; noAcceptableAuthMethod] false false) →
  inevitable (Client.conn c) (conn s) false Q
    (Cfg (KC (establish c)) (KS (handleInit s)) [] [] false false).
Proof.
  intros Hc Hs H. apply par_methods. rewrite handleInit_loop_one, Hc.
  assert (handleAuth noAuth s = Ret (s, Err ErrUnsupportedAuthMethod)) as ->.
  { unfold handleAuth. change ((get ≫= ?f) s) with (f s s). cbn beta.
    rewrite decide_True by done. by rewrite Hs. }
  apply (par_s_write _ _ _ (λ q, KS (q ≫= after _)));
    [solve_ctx | apply method_wait_blocked |]. exact H.
Qed.

End establish.

(** The authentication phase of the client [c] and the server [s], in whatever contexts they
    run: what is left is that the two agree, and the run after it. *)
Ltac par_established c s :=
  match goal with |- inevitable _ _ _ ?Q (Cfg ?p ?q _ _ _ _) =>
    let p' := eval pattern (establish c) in p in
    let q' := eval pattern (handleInit s) in q in
    match p' with ?KC _ => match q' with ?KS _ =>
      refine (par_establish Q c s KC KS _ _ _ _ _) end end end;
    [by intros ??|by intros ??|wait_read| |cbn beta].

(** ** Registering and binding *)

Section handshake.
Context `{X : Externals} {XOk : ExternalsOk X}.
Implicit Types (c : Client) (s : Server) (i : uuid).

(** The bytes of an identifier. *)
Lemma uuid_cons i : ∃ b bs, vec_to_list i = b :: bs ∧ length bs = 15%nat.
Proof.
  pose proof (length_vec_to_list i) as Hl. destruct (vec_to_list i) as [|b bs]; [done|].
  exists b, bs. split; [done|]. cbn in Hl. lia.
Qed.

(** One [Read] of an identifier that arrived whole. *)
Lemma uuid_read i b bs :
  vec_to_list i = b :: bs → uuid_FromBytes (fill 16 (rd_bytes 16 (RdData b bs))) = Ok i.
Proof.
  intros Hi. pose proof (length_vec_to_list i) as Hl. rewrite Hi in Hl. cbn in Hl.
  rewrite <-uuid_FromBytes_ok, Hi. f_equal. cbn -[fill]. rewrite (take_ge bs) by lia.
  unfold fill. rewrite take_ge by (cbn; lia). cbn [length].
  replace (16 - S (length bs))%nat with 0%nat by lia. apply app_nil_r.
Qed.

Lemma Process_connected s :
  state s = StateConnected →
  Process s =
    ((handleInit (set_state StateProcessing s) ≫= λ '(s', r), Ret (s', Ok r))
       ≫= after (λ r, match r with
                      | Ok a => mret a
                      | Err e => s ← get; _ ← lift (conn_Close (conn s));
                                 throw (Wrapf "failed to handle init: %w" e)
                      end))
    ≫= after (λ _, or_close "failed to handle command: %w" handleCommand).
Proof.
  intros H. unfold Process. change ((get ≫= ?f) s) with (f s s). cbn beta.
  by rewrite decide_False by (rewrite H; tauto).
Qed.

Lemma Register_connected i c :
  Client.state c = connected →
  Client.Register i c =
    Call (CGo (GCloseOnDone (Client.conn c))) (λ _,
      let c' := set_cancel (Client.set_state processing c) in
      ((establish c' ≫= λ '(c'', r), Ret (c'', Ok r))
         ≫= after (λ r, match r with
                        | Ok _ => mret ()
                        | Err e => _ ← lift (call_ CCancel);
                                   throw (Wrapf "failed to init client: %w" e)
                        end))
      ≫= after (λ _,
        or_cancel "failed to handle register: %w" (Client.handleRegister i);;
        modify (Client.set_state registered);;
        _ ← lift (call_ (CGo (GCommandLoop (Client.conn c))));
        mret ())).
Proof.
  intros H. unfold Client.Register. change ((get ≫= ?f) c) with (f c c). cbn beta.
  by rewrite decide_False by (rewrite H; tauto).
Qed.

Lemma agree_states c s st st' :
  agree c s → agree (set_cancel (Client.set_state st c)) (set_state st' s).
Proof. intros [? ?|auth user pass ??????]; [by apply agree_none | by apply (agree_userpass _ _ auth user pass)]. Qed.

(** The server reads an identifier. *)
Lemma par_s_id {A B} (Q : cfg A B → Prop) hc p (K : io (Server * result ()) → io B) s msg msg' f i :
  ctx K → local hc None p [] false = None →
  inevitable hc (conn s) false Q (Cfg p (K (f i s)) [] [] false false) →
  inevitable hc (conn s) false Q
    (Cfg p (K ((buf ← s_read msg 16;
                id ← wrap msg' (liftR (mret (uuid_FromBytes buf))); f id) s))
       (vec_to_list i) [] false false).
Proof.
  intros HK Hp H. rewrite <-(app_nil_r (vec_to_list i)).
  apply (par_s_read _ _ _ (λ q, K (q ≫= after _)));
    [by apply ctx_bind | done | apply length_vec_to_list | lia |].
  cbn beta.
  match goal with |- context [K (Ret (s, Ok ?d) ≫= after ?g)] =>
    change (K (Ret (s, Ok d) ≫= after g))
      with (K ((id ← wrap msg' (liftR (mret (uuid_FromBytes d))); f id) s)) end.
  rewrite uuid_FromBytes_ok. exact H.
Qed.

(** A [Process] whose command handler has been chosen. *)
Ltac at_command m :=
  lazymatch goal with |- inevitable _ _ _ _ (Cfg ?p ?q _ _ _ _) =>
    change q with ((m ≫= λ '(s', r), Ret (s', Ok r)) ≫= after
      (λ r, match r with
            | Ok a => mret a
            | Err e => s ← get; _ ← lift (conn_Close (conn s));
                       throw (Wrapf "failed to handle command: %w" e)
            end)) end.

(** C2: A client that registers with a server it agrees with on a method and, if that
    needs them, on credentials: whatever the scheduling of the two, the client ends
    registered without an error, and the server ends registered under the identifier the
    client sent. A [Read] takes everything in flight, up to what it asks for. (File
    Fragments has the other cuts.) *)
Theorem register_goes c s i :
  Client.state c = connected → state s = StateConnected → agree c s →
  inevitable (Client.conn c) (conn s) false
    (finished (Client.set_state registered (set_cancel c), Ok ())
              (set_state StateRegistered (set_id i s), Ok ()))
    (Cfg (Client.Register i c) (Process s) [] [] false false).
Proof.
  intros Hc Hs Hag. rewrite Process_connected, Register_connected by done.
  eapply inev_client; [apply local_go | wait_read |]. cbn zeta.
  apply (par_establish _ (set_cancel (Client.set_state processing c)) (set_state StateProcessing s)
           (λ q, ((q ≫= _) ≫= after _) ≫= after _) (λ q, ((q ≫= _) ≫= after _) ≫= after _));
    [by intros ??|by intros ??|wait_read|by apply agree_states|].
  cbn beta. do 2 par1. at_command (handleRegister (set_state StateProcessing s)).
  apply (par_s_id _ _ _ (λ q, (q ≫= _) ≫= after _)); [by intros ??|wait_read|].
  cbn beta. repeat par1. heads. by apply inev_now.
Qed.

Lemma Bind_connected i c :
  Client.state c = connected →
  Client.Bind i c =
    Call (CGo (GCloseOnDone (Client.conn c))) (λ _,
      let c' := set_cancel (Client.set_state processing c) in
      (establish c' ≫= λ '(c'', r), Ret (c'', wrap_err "failed to init client: %w" r))
      ≫= after (λ _,
        wrap "failed to handle bind: %w" (Client.handleBind i);;
        modify (Client.set_state bound))).
Proof.
  intros H. unfold Client.Bind. change ((get ≫= ?f) c) with (f c c). cbn beta.
  by rewrite decide_False by (rewrite H; tauto).
Qed.

(** Likewise, whatever the scheduling, a client that binds and the server it agrees
    with both end bound, the server under the identifier the client asked for. *)
Lemma bind_goes c s i :
  Client.state c = connected → state s = StateConnected → agree c s →
  inevitable (Client.conn c) (conn s) false
    (finished (Client.set_state bound (set_cancel c), Ok ())
              (set_state StateBound (set_id i s), Ok ()))
    (Cfg (Client.Bind i c) (Process s) [] [] false false).
Proof.
  intros Hc Hs Hag. rewrite Process_connected, Bind_connected by done.
  eapply inev_client; [apply local_go | wait_read |]. cbn zeta.
  apply (par_establish _ (set_cancel (Client.set_state processing c))
           (set_state StateProcessing s)
           (λ q, (q ≫= _) ≫= after _) (λ q, ((q ≫= _) ≫= after _) ≫= after _));
    [by intros ??|by intros ??|wait_read|by apply agree_states|].
  cbn beta. do 2 par1. at_command (handleBind (set_state StateProcessing s)).
  apply (par_s_id _ _ _ (λ q, (q ≫= _) ≫= after _)); [by intros ??|wait_read|].
  cbn beta. repeat par1. heads. by apply inev_now.
Qed.

(** What both methods return when the server refuses the client. *)
Definition refused c s (ec es : error) (f : cfg (Client * result ()) (Server * result ())) : Prop :=
  finished (set_cancel (Client.set_state processing c), Err (Wrapf "failed to init client: %w" ec))
           (set_state StateProcessing s, Err (Wrapf "failed to handle init: %w" es)) f
  ∧ s_closed f = true.

(** C30: Credentials the server's function refuses never register a client: whatever the
    scheduling, both sides end with an authentication error, the server unregistered and
    its connection closed. A [Read] takes everything in flight, up to what it asks for.
    The credentials are not empty, so that the function is asked. *)
Theorem register_rejected c s i auth user pass :
  Client.state c = connected → state s = StateConnected →
  Client.authMode c = userPassAuth → Client.token c = userpass_token user pass →
  userPassAuth_fn s = Some auth → auth user pass = false →
  (0 < length (bytes_of_string user) < 256)%nat →
  (0 < length (bytes_of_string pass) < 256)%nat →
  inevitable (Client.conn c) (conn s) false
    (refused c s (Errorf "failed to authenticate %d" [Z_of_byte resFailure]) auth_failed)
    (Cfg (Client.Register i c) (Process s) [] [] false false).
Proof.
  intros Hc Hs Hm Ht Ha Hr Hu Hp. rewrite Process_connected, Register_connected by done.
  eapply inev_client; [apply local_go | wait_read |]. cbn zeta.
  apply (par_userpass _ (set_cancel (Client.set_state processing c)) (set_state StateProcessing s)
           (λ q, ((q ≫= _) ≫= after _) ≫= after _) (λ q, ((q ≫= _) ≫= after _) ≫= after _))
           with (auth := auth) (user := user) (pass := pass);
    [by intros ??|by intros ??|done..|].
  rewrite Hr. cbn beta. repeat par_any. all: heads; apply inev_now; by repeat split.
Qed.

(** A client without credentials is refused by a server that requires them, whatever
    the scheduling: neither waits for the other, both end with an error and the server's
    connection is closed. *)
Lemma register_refused c s i :
  Client.state c = connected → state s = StateConnected →
  Client.authMode c = noAuth → noAuth_ok s = false →
  inevitable (Client.conn c) (conn s) false
    (refused c s (Errorf "no acceptable auth method" []) (Errorf "no acceptable auth method" []))
    (Cfg (Client.Register i c) (Process s) [] [] false false).
Proof.
  intros Hc Hs Hm Hn. rewrite Process_connected, Register_connected by done.
  eapply inev_client; [apply local_go | wait_read |]. cbn zeta.
  apply (par_refused _ (set_cancel (Client.set_state processing c)) (set_state StateProcessing s)
           (λ q, ((q ≫= _) ≫= after _) ≫= after _) (λ q, ((q ≫= _) ≫= after _) ≫= after _));
    [by intros ??|by intros ??|done..|].
  cbn beta. repeat par_any. all: heads; apply inev_now; by repeat split.
Qed.

End handshake.

(** ** Witnesses *)

Definition demo_c : Client := mkClient 3%nat false [] noAuth connected false.
Definition demo_s : Server := NewServer 5%nat [WithNoAuth].
Definition demo_id : uuid := vreplicate 16 x07.

Lemma register_goes_witness :
  inevitable 3%nat 5%nat false
    (finished (Client.set_state registered (set_cancel demo_c), Ok ())
              (set_state StateRegistered (set_id demo_id demo_s), Ok ()))
    (Cfg (Client.Register demo_id demo_c) (Process (X := demo) demo_s) [] [] false false).
Proof. exact (register_goes demo_c demo_s demo_id eq_refl eq_refl (agree_none demo_c demo_s eq_refl eq_refl)). Defined.

(** With credentials. *)
Definition demo_auth : string → string → bool := λ u p, bool_decide (u = "user" ∧ p = "secret").
Definition demo_cu (p : string) : Client :=
  mkClient 3%nat false (userpass_token "user" p) userPassAuth connected false.
Definition demo_su : Server := NewServer 5%nat [WithUserPassAuth (Some demo_auth)].

Lemma bind_goes_witness :
  inevitable 3%nat 5%nat false
    (finished (Client.set_state bound (set_cancel (demo_cu "secret")), Ok ())
              (set_state StateBound (set_id demo_id demo_su), Ok ()))
    (Cfg (Client.Bind demo_id (demo_cu "secret")) (Process (X := demo) demo_su) [] [] false false).
Proof.
  assert (agree (demo_cu "secret") demo_su) as Ha
    by (apply (agree_userpass (demo_cu "secret") demo_su demo_auth "user" "secret"); vm_compute; by repeat split; try lia).
  exact (bind_goes (demo_cu "secret") demo_su demo_id eq_refl eq_refl Ha).
Defined.

Lemma register_rejected_witness :
  inevitable 3%nat 5%nat false
    (refused (demo_cu "guess") demo_su (Errorf "failed to authenticate %d" [Z_of_byte resFailure]) auth_failed)
    (Cfg (Client.Register demo_id (demo_cu "guess")) (Process (X := demo) demo_su) [] [] false false).
Proof.
  apply (register_rejected (X := demo) (demo_cu "guess") demo_su demo_id demo_auth "user" "guess");
    vm_compute; by repeat split; try lia.
Defined.

Lemma register_refused_witness :
  inevitable 3%nat 5%nat false
    (refused demo_c demo_su (Errorf "no acceptable auth method" []) (Errorf "no acceptable auth method" []))
    (Cfg (Client.Register demo_id demo_c) (Process (X := demo) demo_su) [] [] false false).
Proof. exact (register_refused demo_c demo_su demo_id eq_refl eq_refl eq_refl eq_refl). Defined.
