(* ===== verification/Fragments.v ===== *)
(** * Registration over a connection that cuts the bytes anywhere

    The handshake of file Handshake, without credentials, when every read may return fewer
    bytes than are in flight.  All reads but that of the identifier loop until they have
    what they need. *)
From S2P Require Import Prelude Static MuxConfig Commands Demo GoIO Wire.
From S2P Require Import Client.
From S2P Require Import Server.
From S2P Require Import Pair Handshake.

(** No read of [p] can return, whatever it asks for. *)
Definition waits {A} (h : handle) (p : io A) (i : list byte) : Prop :=
  ∀ size, local h size p i false = None.

Section rules.
Context {A B : Type} (Q : cfg A B → Prop) (hc hs : handle).
Implicit Types (p : io A) (q : io B).

(** One side moves, in as many ways as its read can be cut, while the other waits. *)
Lemma cut_server p q o i :
  waits hc p i →
  (∀ size, ∃ q' o' out closes, local hs size q o false = Some (q', o', out, closes) ∧
     inevitable hc hs true Q (Cfg p q' o' (i ++ out) false closes)) →
  inevitable hc hs true Q (Cfg p q o i false false).
Proof.
  intros Hp Hq. apply inev_step.
  - destruct (Hq None) as (q' & o' & out & cl & E & _).
    eexists. exists ServerSide, None. split; [done|]. cbn. by rewrite E.
  - intros f (who & size & _ & Hf). destruct who; cbn in Hf.
    + by rewrite (Hp size) in Hf.
    + destruct (Hq size) as (q' & o' & out & cl & E & H). rewrite E in Hf. by injection Hf as <-.
Qed.

Lemma cut_client p q o i :
  waits hs q o →
  (∀ size, ∃ p' i' out closes, local hc size p i false = Some (p', i', out, closes) ∧
     inevitable hc hs true Q (Cfg p' q (o ++ out) i' closes false)) →
  inevitable hc hs true Q (Cfg p q o i false false).
Proof.
  intros Hq Hp. apply inev_step.
  - destruct (Hp None) as (p' & i' & out & cl & E & _).
    eexists. exists ClientSide, None. split; [done|]. cbn. by rewrite E.
  - intros f (who & size & _ & Hf). destruct who; cbn in Hf.
    + destruct (Hp size) as (p' & i' & out & cl & E & H). rewrite E in Hf. by injection Hf as <-.
    + by rewrite (Hq size) in Hf.
Qed.

End rules.

(** How many bytes a read of up to [n] returns, of [b :: bs] in flight. *)
Definition cut_size (n : nat) (size : option nat) : nat :=
  match size with None => n | Some z => Nat.min n (S z) end.

Lemma local_read_cut {A} h size n (k : rd → io A) b bs :
  n ≠ 0%nat →
  local h size (Call (CRead h n) k) (b :: bs) false =
    let m := cut_size n size in
    Some (k (RdData b (take (m - 1) bs)), drop (m - 1) bs, [], false).
Proof. intros Hn. cbn. by rewrite decide_True, decide_False. Qed.

Lemma cut_size_pos n size : (0 < n)%nat → (1 ≤ cut_size n size ≤ n)%nat.
Proof. destruct size; cbn; lia. Qed.

Lemma waits_read {A} h n (k : rd → io A) : waits h (Call (CRead h n) k) [].
Proof. intros size. cbn. by rewrite decide_True. Qed.

Lemma waits_ret {A} h (a : A) i : waits h (Ret a) i.
Proof. done. Qed.

(** What such a read returns and leaves, of [b :: d] followed by [rest], when [d] fits. *)
Lemma cut_split m (d rest : list byte) b :
  (m ≤ length d)%nat →
  rd_bytes (S (length d)) (RdData b (take m (d ++ rest))) = b :: take m d ∧
  drop m (d ++ rest) = drop m d ++ rest.
Proof.
  intros Hm. rewrite take_app_le, drop_app_le by lia. split; [|done]. cbn.
  rewrite take_take. by rewrite Nat.min_r by lia.
Qed.

(** [ReadFull] gets what it asks for, however it comes. *)
Section read_full.
Context {A B : Type} (Q : cfg A B → Prop) (hc hs : handle).

Lemma cut_s_loop (p : io A) (K : io (result (list byte)) → io B) fuel d acc rest i :
  ctx K → waits hc p i → (length d ≤ fuel)%nat →
  inevitable hc hs true Q (Cfg p (K (Ret (Ok (acc ++ d)))) rest i false false) →
  inevitable hc hs true Q (Cfg p (K (ReadFull_loop fuel hs (length d) acc)) (d ++ rest) i false false).
Proof.
  intros HK Hp. revert d acc. induction fuel as [|fuel IH]; intros d acc Hf H.
  { destruct d; [|cbn in Hf; lia]. by rewrite app_nil_r in H. }
  destruct d as [|b d]; [by rewrite app_nil_r in H|].
  change ((b :: d) ++ rest) with (b :: (d ++ rest)). apply cut_server; [done|]. intros size.
  destruct (cut_size_pos (S (length d)) size) as [Hm1 Hm2]; [lia|].
  set (m := cut_size (S (length d)) size) in *.
  destruct (cut_split (m - 1) d rest b) as [Hrd Hdrop]; [lia|].
  do 4 eexists. split.
  { cbn [length ReadFull_loop]. change (call_ (CRead hs (S (length d))) ≫= ?f) with (Call (CRead hs (S (length d))) f).
    rewrite HK. by apply local_read_cut. }
  cbn zeta. fold m. cbn beta iota. rewrite Hrd, Hdrop, app_nil_r. cbn [length].
  replace (S (length d) - S (length (take (m - 1) d)))%nat with (length (drop (m - 1) d))
    by (rewrite length_take, length_drop; lia).
  apply IH.
  - rewrite length_drop. cbn in Hf. lia.
  - rewrite <-app_assoc. cbn. by rewrite take_drop.
Qed.

Lemma cut_s_ReadFull {S} (p : io A) (K : io (S * result (list byte)) → io B) s n d rest i :
  ctx K → waits hc p i → length d = n →
  inevitable hc hs true Q (Cfg p (K (Ret (s, Ok d))) rest i false false) →
  inevitable hc hs true Q (Cfg p (K (liftR (ReadFull hs n) s)) (d ++ rest) i false false).
Proof.
  intros HK Hp <- H. change (liftR (ReadFull hs (length d)) s)
    with (ReadFull_loop (length d) hs (length d) [] ≫= λ r, Ret (s, r)).
  by apply (cut_s_loop p (λ q, K (q ≫= λ r, Ret (s, r)))); [apply ctx_bind|..].
Qed.

Lemma cut_s_readMsg {S} (p : io A) (K : io (S * result byte) → io B) s m rest i :
  ctx K → waits hc p i →
  inevitable hc hs true Q (Cfg p (K (Ret (s, Ok m))) rest i false false) →
  inevitable hc hs true Q (Cfg p (K (readMsg hs s)) (versionV1 :: m :: rest) i false false).
Proof.
  intros HK Hp H. change (readMsg hs s) with ((liftR (ReadFull hs 2) s
    ≫= λ '(s', r), Ret (s', wrap_err "failed to read response: %w" r)) ≫= after (λ buf,
      if decide (buf !!! 0%nat ≠ versionV1) then
        throw (Errorf "unexpected version: %d" [Z_of_byte (buf !!! 0%nat)])
      else mret (buf !!! 1%nat))).
  apply (cut_s_ReadFull p (λ q, K ((q ≫= _) ≫= after _)) s 2 [versionV1; m] rest i);
    [solve_ctx|done|done|exact H].
Qed.

(** A single [Read] gets any part of it. *)
Lemma cut_s_read (p : io A) (K : io (Server * result (list byte)) → io B) (s : Server) msg n d i :
  ctx K → conn s = hs → waits hc p i → length d = n → d ≠ [] →
  (∀ k, (0 < k ≤ n)%nat → inevitable hc hs true Q
     (Cfg p (K (Ret (s, Ok (fill n (take k d))))) (drop k d) i false false)) →
  inevitable hc hs true Q (Cfg p (K (s_read msg n s)) d i false false).
Proof.
  intros HK <- Hp <- Hd H. destruct d as [|b d]; [done|]. apply cut_server; [done|]. intros size.
  destruct (cut_size_pos (S (length d)) size) as [Hm1 Hm2]; [lia|].
  remember (cut_size (S (length d)) size) as m eqn:Em. specialize (H m).
  do 4 eexists. split.
  { let q := eval hnf in (s_read msg (length (b :: d)) s) in
    change (s_read msg (length (b :: d)) s) with q. rewrite HK. by apply local_read_cut. }
  cbn zeta. rewrite app_nil_r. change (length (b :: d)) with (S (length d)). rewrite <-Em.
  destruct m as [|m]; [lia|]. replace (S m - 1)%nat with m by lia. cbn [length] in *.
  pose proof (cut_split m d [] b) as Hs. rewrite !app_nil_r in Hs. destruct Hs as [Hs _]; [lia|].
  specialize (H ltac:(lia)). cbn [take drop] in H. rewrite <-Hs in H. exact H.
Qed.

Lemma cut_s_s_write (p : io A) (K : io (Server * result ()) → io B) (s : Server) msg bs o :
  ctx K → conn s = hs → waits hc p [] →
  inevitable hc hs true Q (Cfg p (K (Ret (s, Ok ()))) o bs false false) →
  inevitable hc hs true Q (Cfg p (K (s_write msg bs s)) o [] false false).
Proof.
  intros HK <- Hp H. apply cut_server; [done|]. intros size. do 4 eexists. split.
  { let q := eval hnf in (s_write msg bs s) in change (s_write msg bs s) with q.
    rewrite HK. cbn. by rewrite decide_True. }
  exact H.
Qed.

Lemma cut_s_write (p : io A) (k : option io_error → io B) bs :
  waits hc p [] →
  inevitable hc hs true Q (Cfg p (k None) [] bs false false) →
  inevitable hc hs true Q (Cfg p (Call (CWrite hs bs) k) [] [] false false).
Proof.
  intros Hp H. apply cut_server; [done|]. intros size. do 4 eexists. split; [|exact H].
  cbn. by rewrite decide_True.
Qed.

End read_full.

(** ** The same on the client's side *)

Definition swap {A B} (f : cfg A B) : cfg B A :=
  Cfg (sv f) (cl f) (to_c f) (to_s f) (s_closed f) (c_closed f).

Lemma exec_swap {A B} hc hs who size (c : cfg A B) :
  exec hc hs who size c =
  swap <$> exec hs hc (match who with ClientSide => ServerSide | ServerSide => ClientSide end) size (swap c).
Proof. by destruct c, who; cbn; destruct (local _ _ _ _ _) as [[[[]]]|]. Qed.

Lemma inev_swap {A B} hc hs cut (Q : cfg A B → Prop) c :
  inevitable hs hc cut (λ f, Q (swap f)) (swap c) → inevitable hc hs cut Q c.
Proof.
  remember (swap c) as f eqn:Ef. intros H. revert c Ef.
  induction H as [f Hf|f (f' & who & size & Hz & Hf') _ IH]; intros c ->.
  { apply inev_now. by destruct c. }
  apply inev_step.
  - exists (swap f'). exists (match who with ClientSide => ServerSide | ServerSide => ClientSide end), size.
    split; [done|]. rewrite exec_swap. by destruct who; rewrite Hf'.
  - intros c' (who' & size' & Hz' & Hc'). rewrite exec_swap in Hc'.
    destruct (exec _ _ _ size' (swap c)) as [f''|] eqn:E; [|done]. injection Hc' as <-.
    apply (IH f''); [by eexists _, size'|by destruct f''].
Qed.

Section client_rules.
Context {A B : Type} (Q : cfg A B → Prop) (hc hs : handle).

Lemma cut_c_readMsg {S} (q : io B) (K : io (S * result byte) → io A) s m rest o :
  ctx K → waits hs q o →
  inevitable hc hs true Q (Cfg (K (Ret (s, Ok m))) q o rest false false) →
  inevitable hc hs true Q (Cfg (K (readMsg hc s)) q o (versionV1 :: m :: rest) false false).
Proof.
  intros HK Hp H. apply inev_swap. apply cut_s_readMsg; [done..|].
  apply inev_swap. eapply inev_mono; [|exact H]. by intros [].
Qed.

Lemma cut_c_sendRequest {S} (q : io B) (K : io (S * result byte) → io A) s req :
  ctx K → waits hs q [] →
  inevitable hc hs true Q (Cfg (K (readMsg hc s)) q (versionV1 :: req) [] false false) →
  inevitable hc hs true Q (Cfg (K (sendRequest hc req s)) q [] [] false false).
Proof.
  intros HK Hp H. apply cut_client; [done|]. intros size. do 4 eexists. split.
  { let q := eval hnf in (sendRequest hc req s) in change (sendRequest hc req s) with q.
    rewrite HK. cbn. by rewrite decide_True. }
  exact H.
Qed.

Lemma cut_c_write (q : io B) (k : option io_error → io A) bs :
  waits hs q [] →
  inevitable hc hs true Q (Cfg (k None) q bs [] false false) →
  inevitable hc hs true Q (Cfg (Call (CWrite hc bs) k) q [] [] false false).
Proof.
  intros Hp H. apply inev_swap, cut_s_write; [done|]. apply inev_swap.
  eapply inev_mono; [|exact H]. by intros [].
Qed.

End client_rules.

Lemma readMsg_waits {S T} h (K : io (S * result byte) → io T) s :
  ctx K → waits h (K (readMsg h s)) [].
Proof.
  intros HK. let q := eval hnf in (readMsg h s) in change (readMsg h s) with q.
  rewrite HK. apply waits_read.
Qed.

(** A program whose next call is a read waits. *)
Ltac waits_hnf :=
  lazymatch goal with
  | |- waits ?h ?q [] =>
      let q' := eval hnf in q in change (waits h q' []); first [apply waits_ret | apply waits_read]
  end.

(** ** Without credentials *)

Section establish.
Context {A B : Type} (Q : cfg A B → Prop) (c : Client) (s : Server).
Context (KC : io (Client * result ()) → io A) (KS : io (Server * result ()) → io B).
Context (HKC : ctx KC) (HKS : ctx KS).
Context (Hc : Client.authMode c = noAuth) (Hs : noAuth_ok s = true).

Lemma cut_establish :
  waits (conn s) (KS (Ret (s, Ok ()))) [] →
  inevitable (Client.conn c) (conn s) true Q
    (Cfg (KC (Ret (c, Ok ()))) (KS (Ret (s, Ok ()))) [] [] false false) →
  inevitable (Client.conn c) (conn s) true Q
    (Cfg (KC (establish c)) (KS (handleInit s)) [] [] false false).
Proof.
  intros Hwait H. unfold establish, handleInit.
  apply (cut_c_sendRequest _ _ _ _ (λ q, KC ((q ≫= _) ≫= after _))); [solve_ctx| |].
  { apply (readMsg_waits _ (λ q, KS ((q ≫= _) ≫= after _))). solve_ctx. }
  cbn beta.
  assert (waits (Client.conn c) (KC (method_wait c)) []) as Hcw
    by (apply (readMsg_waits _ (λ q, KC ((q ≫= _) ≫= after _))); solve_ctx).
  apply (cut_s_readMsg _ _ _ _ (λ q, KS ((q ≫= _) ≫= after _))); [solve_ctx|exact Hcw|].
  cbn beta.
  apply (cut_s_ReadFull _ _ _ _ (λ q, KS ((q ≫= _) ≫= after _)) _ _ [_] [] []); [solve_ctx|exact Hcw|done|].
  change (inevitable (Client.conn c) (conn s) true Q
    (Cfg (KC (method_wait c)) (KS (handleInit_loop [Client.authMode c] s ≫= after (λ handled : bool,
            if handled then mret ()
            else s_write "failed to write auth method response: %w" [versionV1; noAcceptableAuthMethod];;
                 throw (Errorf "no acceptable auth method" [])))) [] [] false false)).
  rewrite handleInit_loop_one, Hc, handleAuth_none_eq by done.
  apply (cut_s_s_write _ _ _ _ (λ q, KS (((q ≫= _) ≫= after _) ≫= after _)));
    [solve_ctx|done|exact Hcw|]. cbn beta. unfold method_wait.
  apply (cut_c_readMsg _ _ _ _ (λ q, KC ((q ≫= _) ≫= after _))); [solve_ctx|exact Hwait|].
  cbn beta. change (KC (_ ≫= after Client.handleAuth)) with (KC (Client.handleAuth noAuth c)).
  rewrite client_handleAuth_none_eq by done. exact H.
Qed.

End establish.

(** ** Registration *)

Section fragments.
Context `{X : Externals} {XOk : ExternalsOk X}.
Implicit Types (c : Client) (s : Server) (i : uuid).

(** The first [k] bytes of an identifier, then zeros. *)
Definition truncated (k : nat) i i' : Prop := vec_to_list i' = fill 16 (take k i).

Lemma list_uuid {n} (l : list byte) : length l = n → ∃ v : vec byte n, vec_to_list v = l.
Proof. intros <-. exists (list_to_vec l). apply vec_to_list_to_vec. Qed.

Lemma truncated_exists k i : ∃ i', truncated k i i' ∧ uuid_FromBytes (fill 16 (take k i)) = Ok i'.
Proof.
  unfold truncated. destruct (list_uuid (n := 16) (fill 16 (take k i)) (length_fill _ _)) as [i' Hi'].
  exists i'. split; [done|]. by rewrite <-Hi', uuid_FromBytes_ok.
Qed.

(** C19: Registration without credentials, over a connection that may cut the bytes anywhere:
    whatever the scheduling and the cuts both sides end registered without an error, but
    the server's identifier is the first [k] bytes of the client's followed by zeros, for
    some [k] from one to sixteen. *)
Theorem register_fragmented c s i :
  Client.state c = connected → state s = StateConnected →
  Client.authMode c = noAuth → noAuth_ok s = true →
  inevitable (Client.conn c) (conn s) true
    (λ f, ∃ k i', (0 < k ≤ 16)%nat ∧ truncated k i i' ∧
       finished (Client.set_state registered (set_cancel c), Ok ())
                (set_state StateRegistered (set_id i' s), Ok ()) f)
    (Cfg (Client.Register i c) (Process s) [] [] false false).
Proof.
  intros Hc Hs Ha Hn. rewrite Process_connected, Register_connected by done.
  apply cut_client; [waits_hnf|]. intros size. do 4 eexists. split; [reflexivity|]. cbn zeta.
  set (c1 := set_cancel (Client.set_state processing c)). set (s1 := set_state StateProcessing s).
  change (Client.conn c) with (Client.conn c1). change (conn s) with (conn s1).
  match goal with |- inevitable _ _ _ ?Q (Cfg ?p ?q _ _ _ _) =>
    let p' := eval pattern (establish c1) in p in
    let q' := eval pattern (handleInit s1) in q in
    match p' with ?KC _ => match q' with ?KS _ =>
      refine (cut_establish Q c1 s1 KC KS _ _ Ha Hn _ _) end end end;
    [by intros ??|by intros ??|waits_hnf|cbn beta].
  apply (cut_c_sendRequest _ _ _ _ (λ q, ((((q ≫= _) ≫= after _) ≫= _) ≫= after _) ≫= after _));
    [by intros ??|waits_hnf|]. cbn beta.
  assert (∀ {T} (K : io (Client * result byte) → io T), ctx K →
    waits (Client.conn c1) (K (readMsg (Client.conn c1) c1)) []) as Hcw
    by (intros; by apply readMsg_waits).
  apply (cut_s_readMsg _ _ _ _ (λ q, (((q ≫= _) ≫= after _) ≫= _) ≫= after _) _ cmdRegister (vec_to_list i) []);
    [by intros ??| |].
  { apply (Hcw _ (λ q, ((((q ≫= _) ≫= after _) ≫= _) ≫= after _) ≫= after _)). by intros ??. }
  cbn beta.
  apply (cut_s_read _ _ _ _ (λ q, ((q ≫= after _) ≫= _) ≫= after _) s1 _ 16 (vec_to_list i) []);
    [by intros ??|done| |apply length_vec_to_list| |].
  { apply (Hcw _ (λ q, ((((q ≫= _) ≫= after _) ≫= _) ≫= after _) ≫= after _)). by intros ??. }
  { intros H. pose proof (length_vec_to_list i) as Hl. by rewrite H in Hl. }
  intros k Hk. cbn beta. destruct (truncated_exists k i) as (i' & Hi' & Hu).
  match goal with |- context [Ret (s1, Ok ?d) ≫= after ?f] =>
    change (Ret (s1, Ok d) ≫= after f) with (f d s1) end.
  cbn beta. rewrite Hu.
  apply (cut_s_s_write _ _ _ _ (λ q, ((q ≫= after _) ≫= _) ≫= after _) (set_id i' s1));
    [by intros ??|done| |].
  { apply (Hcw _ (λ q, ((((q ≫= _) ≫= after _) ≫= _) ≫= after _) ≫= after _)). by intros ??. }
  cbn beta.
  apply (cut_c_readMsg _ _ _ _ (λ q, ((((q ≫= _) ≫= after _) ≫= _) ≫= after _) ≫= after _)
           _ resSuccess []); [by intros ??|done|].
  apply cut_client; [done|]. intros size'. do 4 eexists. split; [reflexivity|]. cbn zeta.
  apply inev_now. exists k, i'. by repeat split; try lia.
Qed.

End fragments.

Lemma register_fragmented_witness :
  inevitable 3%nat 5%nat true
    (λ f, ∃ k i', (0 < k ≤ 16)%nat ∧ truncated k demo_id i' ∧
       finished (Client.set_state registered (set_cancel demo_c), Ok ())
                (set_state StateRegistered (set_id i' demo_s), Ok ()) f)
    (Cfg (Client.Register demo_id demo_c) (Process (X := demo) demo_s) [] [] false false).
Proof. exact (register_fragmented (X := demo) demo_c demo_s demo_id eq_refl eq_refl eq_refl eq_refl). Defined.
