(* ===== verification/Delivery.v ===== *)
(** * From the server's senders to the client's command channel

    The client's command goroutine runs against the bytes the server sent, however the
    connection cuts them into segments ([script_handler]): every ping and event is
    answered and every event delivered, in order, and the goroutine ends. *)
From S2P Require Import Prelude Static MuxConfig JsonString Json Commands Event Demo GoIO Wire Server Client.

(** ** Rules for runs against a script *)

Section swp.
Context {S : Type}.

(** The final receiver, result and world of a method. *)
Definition swp {A} (m : M S A) (s : S) (w : world) (Q : S → result A → world → Prop) : Prop :=
  let '(_, (s', r), w') := run script_handler (m s) w in Q s' r w'.

Lemma swp_mono {A} (m : M S A) s w (Q Q' : S → result A → world → Prop) :
  swp m s w Q → (∀ s' r w', Q s' r w' → Q' s' r w') → swp m s w Q'.
Proof. unfold swp. destruct (run _ _ _) as [[tr [s' r]] w']. auto. Qed.

Lemma swp_bind {A B} (m : M S A) (f : A → M S B) s w Q :
  swp m s w (λ s' r w',
    match r with Ok a => swp (f a) s' w' Q | Err e => Q s' (Err e) w' end) →
  swp (m ≫= f) s w Q.
Proof.
  unfold swp, mbind, M_bind. rewrite run_bind.
  destruct (run _ (m s) w) as [[tr [s' [a|e]]] w']; simpl; [|done].
  by destruct (run _ (f a s') w') as [[tr' [s'' r]] w''].
Qed.

Lemma swp_wrap {A} msg (m : M S A) s w Q :
  swp m s w (λ s' r w', Q s' (wrap_err msg r) w') → swp (wrap msg m) s w Q.
Proof. unfold swp, wrap. rewrite run_bind. by destruct (run _ (m s) w) as [[tr [s' r]] w']. Qed.

Lemma swp_attempt {A} (m : M S A) s w Q :
  swp m s w (λ s' r w', Q s' (Ok r) w') → swp (attempt m) s w Q.
Proof. unfold swp, attempt. rewrite run_bind. by destruct (run _ (m s) w) as [[tr [s' r]] w']. Qed.

Lemma swp_ret {A} (a : A) s w (Q : S → result A → world → Prop) :
  Q s (Ok a) w → swp (mret a) s w Q.
Proof. done. Qed.

Lemma swp_get s w (Q : S → result S → world → Prop) : Q s (Ok s) w → swp get s w Q.
Proof. done. Qed.

Lemma swp_liftR {A} (p : io (result A)) s w Q :
  (let '(_, r, w') := run script_handler p w in Q s r w') → swp (liftR p) s w Q.
Proof. unfold swp, liftR. rewrite run_bind. by destruct (run _ p w) as [[tr r] w']. Qed.

Lemma swp_call ca s w (Q : S → result (answer ca) → world → Prop) :
  (let '(r, w') := script_handler w ca in Q s (Ok r) w') → swp (lift (call_ ca)) s w Q.
Proof. intros H. unfold swp, lift. rewrite run_bind. cbn. by destruct (script_handler w ca). Qed.

End swp.

(** ** Reading segments *)

(** The bytes still to be delivered by a connection. *)
Definition pending (h : handle) (w : world) : list byte := concat (default [] (w_in w !! h)).

(** Only the input of the world has changed. *)
Definition same_but_in (w w' : world) : Prop := w' = set_in (w_in w') w.

Lemma read_segments_spec e n segs :
  (0 < n)%nat →
  match read_segments e n segs with
  | (RdData b bs, segs') =>
      concat segs = rd_bytes n (RdData b bs) ++ concat segs'
  | (RdErr bs e', segs') => concat segs = [] ∧ bs = [] ∧ e' = e ∧ segs' = []
  end.
Proof.
  intros Hn. induction segs as [|[|b bs] segs IH]; simpl; [done|exact IH|].
  destruct n as [|n]; [lia|]. simpl. rewrite Nat.sub_0_r, app_assoc, take_take, Nat.min_id.
  by rewrite take_drop.
Qed.

Section reading.
Context (h : handle).

Lemma run_ReadFull_loop fuel n acc w :
  (n ≤ fuel)%nat → (n ≤ length (pending h w))%nat →
  let '(_, r, w') := run script_handler (ReadFull_loop fuel h n acc) w in
  r = Ok (acc ++ take n (pending h w)) ∧ pending h w' = drop n (pending h w) ∧
  same_but_in w w'.
Proof.
  revert n acc w. induction fuel as [|fuel IH]; intros [|n] acc w Hf Hl; simpl; try lia.
  1,2: rewrite app_nil_r; repeat split; by destruct w.
  pose proof (read_segments_spec (w_end w) (S n) (default [] (w_in w !! h)) ltac:(lia)) as Hr.
  destruct (read_segments _ _ _) as [[b bs|bs e] segs].
  - set (d := rd_bytes (S n) (RdData b bs)) in *.
    set (w1 := set_in (<[h:=segs]> (w_in w)) w).
    assert (pending h w = d ++ pending h w1) as Hp.
    { unfold pending at 2, w1. cbn. by rewrite lookup_insert, decide_True by done. }
    assert (0 < length d ≤ S n)%nat as Hd
      by (split; [apply rd_bytes_nonempty; lia | apply rd_bytes_length]).
    change (S n - length (b :: take n bs))%nat with (S n - length d)%nat. change (b :: take n bs) with d.
    rewrite Hp, length_app in Hl.
    clearbody d. 
    assert (S n - length d ≤ fuel)%nat as H1 by lia.
    assert (S n - length d ≤ length (pending h w1))%nat as H2 by lia.
    specialize (IH _ (acc ++ d) w1 H1 H2).
    destruct (run _ _ w1) as [[tr r] w']. destruct IH as (-> & -> & Hs).
    rewrite Hp. repeat split.
    + rewrite <-app_assoc. do 2 f_equal. by rewrite take_app, (take_ge d) by lia.
    + by rewrite drop_app, (drop_ge d) by lia.
    + rewrite Hs. by destruct w.
  - exfalso. unfold pending in Hl. destruct Hr as (E & _). rewrite E in Hl. simpl in Hl. lia.
Qed.

Context {S : Type}.
Implicit Types (s : S).

Lemma swp_ReadFull n s w (Q : S → result (list byte) → world → Prop) :
  (n ≤ length (pending h w))%nat →
  (∀ w', pending h w' = drop n (pending h w) → same_but_in w w' →
         Q s (Ok (take n (pending h w))) w') →
  swp (liftR (ReadFull h n)) s w Q.
Proof.
  intros Hn HQ. apply swp_liftR. unfold ReadFull.
  pose proof (run_ReadFull_loop n n [] w ltac:(lia) Hn) as H.
  destruct (run _ _ _) as [[tr r] w']. destruct H as (-> & ? & ?). by apply HQ.
Qed.

Lemma swp_readMsg m rest s w (Q : S → result byte → world → Prop) :
  pending h w = versionV1 :: m :: rest →
  (∀ w', pending h w' = rest → same_but_in w w' → Q s (Ok m) w') →
  swp (readMsg h) s w Q.
Proof.
  intros Hp HQ. unfold readMsg. apply swp_bind, swp_wrap, swp_ReadFull; rewrite Hp.
  { simpl. lia. }
  intros w' Hw' Hs. cbn. rewrite decide_False by tauto. apply swp_ret. by apply HQ.
Qed.

End reading.

(** ** One round of the command handler *)

(** What the server sends a registered client without waiting on the application. *)
Inductive message :=
  | MPing
  | MEvent (name : string) (d : list byte).

Section delivery.
Context `{X : Externals} {XOk : ExternalsOk X}.
Implicit Types (c : Client) (w : world) (h : handle).

(** The bytes of a message, and the events that can be sent: those of
    [SendCustomEvent] whose data is not nested too deep. *)
Definition message_bytes (m : message) (bs : list byte) : Prop :=
  match m with
  | MPing => bs = [versionV1; cmdPing]
  | MEvent name d => ∃ data env,
      json_Marshal data = Ok d ∧ shallow d = true ∧
      event_bytes name data = Some env ∧ bs = versionV1 :: event_frame env
  end.

Definition message_cmd (m : message) : list Command :=
  match m with MPing => [] | MEvent name d => [CustomEvent (mkEvent (received_name name) d)] end.

(** The world after a message has been handled. *)
Definition handled (c : Client) (m : message) (rest : list byte) (w w' : world) : Prop :=
  pending (Client.conn c) w' = rest ∧
  w_out w' = <[Client.conn c :=
      default [] (w_out w !! Client.conn c) ++ [versionV1; resSuccess]]> (w_out w) ∧
  w_cmds w' = w_cmds w ++ message_cmd m ∧ w_polls w' = w_polls w.

(** What the client decodes of an event that can be sent, and its length. *)
Lemma event_bytes_decode name data d env :
  json_Marshal data = Ok d → event_bytes name data = Some env →
  Unmarshal_event env = (if shallow d then Ok (mkEvent (received_name name) d)
                         else Err syntax_error) ∧
  Z.of_nat (length env) <= maxDataLen.
Proof.
  unfold event_bytes, NewCustomEventCommand. intros Hd H. rewrite Hd in H.
  destruct (NewCommandType name) as [t|e] eqn:Et; [|done].
  apply NewCommandType_Ok in Et as [-> _]. cbn [wrap_err mbind result_bind] in H.
  destruct (Marshal_event _) as [b|e] eqn:Em; [|done]. case_decide; [|done].
  injection H as <-. split; [|done]. by eapply sent_event_decodes.
Qed.

(** The handler on the frame of an event: it decodes the bytes of the frame, and puts
    the event on the channel and answers, or fails with nothing sent. *)
Lemma handleCommand_event c w env rest :
  Z.of_nat (length env) <= maxDataLen →
  pending (Client.conn c) w = (versionV1 :: event_frame env) ++ rest →
  swp Client.handleCommand c w (λ c' r w', c' = c ∧ pending (Client.conn c) w' = rest ∧
    w_polls w' = w_polls w ∧
    match Unmarshal_event env with
    | Ok ev => r = Ok () ∧ w_cmds w' = w_cmds w ++ [CustomEvent ev] ∧
        w_out w' = <[Client.conn c :=
          default [] (w_out w !! Client.conn c) ++ [versionV1; resSuccess]]> (w_out w)
    | Err _ => is_Ok r = false ∧ w_cmds w' = w_cmds w ∧ w_out w' = w_out w
    end).
Proof.
  intros Hlen Hp. unfold Client.handleCommand. apply swp_bind, swp_get, swp_bind, swp_wrap.
  set (len := put_be 2 (Z.of_nat (length env))) in *.
  assert (length len = 2%nat) as Hl2 by apply length_put_be.
  assert (Z.to_nat (get_be len) = length env) as Hlen2.
  { unfold len. rewrite get_put_be_small by (unfold maxDataLen in Hlen; lia). lia. }
  replace ((versionV1 :: event_frame env) ++ rest)
    with (versionV1 :: cmdCustomEvent :: len ++ env ++ rest) in Hp
    by (unfold event_frame; cbn [app]; by rewrite <-app_assoc).
  clearbody len. eapply swp_readMsg; [exact Hp|]. intros w1 Hw1 Hs1. cbn -[handleCustomEvent].
  unfold handleCustomEvent. apply swp_bind, swp_get, swp_bind, swp_wrap.
  apply swp_ReadFull; rewrite Hw1; [rewrite length_app; lia|].
  intros w2. rewrite drop_app_length', take_app_length' by done. intros Hw2 Hs2. cbn [wrap_err].
  rewrite Hlen2. apply swp_bind, swp_wrap, swp_ReadFull; rewrite Hw2; [rewrite length_app; lia|].
  intros w3. rewrite drop_app_length, take_app_length. intros Hw3 Hs3. cbn [wrap_err].
  apply swp_bind, swp_wrap, swp_liftR. destruct (Unmarshal_event env) as [ev|e]; cbn;
    rewrite Hs3, Hs2, Hs1; repeat split; exact Hw3.
Qed.

Lemma handleCommand_message c w m bs rest :
  message_bytes m bs → pending (Client.conn c) w = bs ++ rest →
  swp Client.handleCommand c w (λ c' r w', c' = c ∧ r = Ok () ∧ handled c m rest w w').
Proof.
  intros Hm Hp. destruct m as [|name d]; cbn in Hm.
  - subst bs. unfold Client.handleCommand. apply swp_bind, swp_get, swp_bind, swp_wrap. eapply swp_readMsg; [exact Hp|]. intros w1 Hw1 ->. cbn.
    repeat split; [done|]. cbn. by rewrite app_nil_r.
  - destruct Hm as (data & env & Hd & Hsh & He & ->).
    destruct (event_bytes_decode _ _ _ _ Hd He) as [Hdec Hlen]. rewrite Hsh in Hdec.
    eapply swp_mono; [by apply (handleCommand_event c w env rest)|].
    intros c' r w' (-> & Hp' & Hpolls & H). rewrite Hdec in H.
    destruct H as (-> & Hc & Ho). by repeat split.
Qed.

(** A message read from a connection that is over. *)
Lemma swp_readMsg_end {S} h (s : S) w (Q : S → result byte → world → Prop) :
  pending h w = [] →
  (∀ e w', same_but_in w w' → Q s (Err e) w') → swp (readMsg h) s w Q.
Proof.
  intros Hp HQ. unfold readMsg. apply swp_bind, swp_wrap, swp_liftR. cbn.
  pose proof (read_segments_spec (w_end w) 2 (default [] (w_in w !! h)) ltac:(lia)) as Hr.
  unfold pending in Hp. rewrite Hp in Hr.
  destruct (read_segments _ _ _) as [[b bs|bs e] segs]; [done|].
  destruct Hr as (_ & -> & _). cbn.
  repeat case_decide; apply HQ; by destruct w.
Qed.

Lemma command_loop_delivers c ms bss w fuel :
  Forall2 message_bytes ms bss → pending (Client.conn c) w = concat bss →
  (length ms < w_polls w)%nat → (length ms < fuel)%nat →
  swp (command_loop fuel) c w (λ c' r w',
    c' = c ∧ r = Ok true ∧ w_cmds w' = w_cmds w ++ (ms ≫= message_cmd) ∧
    default [] (w_out w' !! Client.conn c) =
      default [] (w_out w !! Client.conn c) ++ (ms ≫= λ _, [versionV1; resSuccess])).
Proof.
  intros Hms. revert w fuel. induction Hms as [|m bs ms bss Hm Hms IH]; intros w [|fuel] Hp Hw Hf;
    cbn in Hw, Hf; try lia; cbn [command_loop]; apply swp_bind; apply (swp_call CPollDone); cbn;
    rewrite bool_decide_eq_false_2 by lia; apply swp_bind, swp_attempt.
  - unfold Client.handleCommand. apply swp_bind, swp_get, swp_bind, swp_wrap, swp_readMsg_end;
      [exact Hp|]. intros e w' ->. cbn. by rewrite !app_nil_r.
  - set (w1 := mkWorld _ _ _ _ _ _ _ _).
    eapply swp_mono; [apply (handleCommand_message c w1 m bs (concat bss)); done|].
    intros c' r w' (-> & -> & Hp' & Hout & Hcmds & Hpolls).
    eapply swp_mono.
    { apply IH; [exact Hp' | rewrite Hpolls; cbn; lia | lia]. }
    intros c' r w'' (-> & -> & -> & ->). rewrite Hcmds, Hout, lookup_insert, decide_True by done.
    cbn. by rewrite <-!app_assoc.
Qed.

(** C7: The client's command goroutine delivers every event the server sends, in the
    order they were sent, and answers every message, however the connection cuts the
    bytes; when the connection is over the goroutine ends.  (A message is a ping, or an
    event whose data is not nested too deep; the name arrives as [received_name].) *)
Theorem commands_delivered_in_order c ms bss segs polls fuel :
  Forall2 message_bytes ms bss → concat segs = concat bss →
  (length ms < polls)%nat → (length ms < fuel)%nat →
  swp (command_goroutine fuel) c
    (mkWorld {[Client.conn c := segs]} ioEOF ∅ [] [] [] polls [])
    (λ c' r w', c' = c ∧ r = Ok true ∧ w_cmds w' = ms ≫= message_cmd ∧
       default [] (w_out w' !! Client.conn c) = ms ≫= λ _, [versionV1; resSuccess]).
Proof.
  intros Hms Hsegs Hp Hf. unfold command_goroutine. apply swp_bind.
  eapply swp_mono; [apply (command_loop_delivers c ms bss); try done|].
  - unfold pending. cbn. by rewrite lookup_singleton, decide_True by done.
  - intros c' r w' (-> & -> & Hc & Ho). cbn in Hc, Ho. apply swp_bind, (swp_call CCloseCmds). cbn.
    apply swp_bind, (swp_call CCancel). cbn. apply swp_ret. by rewrite Hc, Ho.
Qed.

(** C8: An event the server sent with success and the client's handler, over any cutting
    of the bytes that were sent: the client puts exactly the event with the encoded
    payload on its channel, under its name with replacement characters for what is not
    UTF-8, and sends the answer the server waits for; or, when the payload is nested so
    deep that the event's text exceeds the JSON scanner's limit, the handler fails and
    the client sends nothing, whatever the server took for an answer. *)
Theorem event_sent_is_delivered tr (s s' : Server) c name data segs :
  traces (SendCustomEvent name data s) tr (s', Ok ()) →
  concat segs = sent (Server.conn s) tr →
  ∃ d, json_Marshal data = Ok d ∧
    swp Client.handleCommand c (one_conn (Client.conn c) segs) (λ c' r w',
      c' = c ∧
      if shallow d then
        r = Ok () ∧ w_cmds w' = [CustomEvent (mkEvent (received_name name) d)] ∧
        default [] (w_out w' !! Client.conn c) = [versionV1; resSuccess]
      else is_Ok r = false ∧ w_cmds w' = [] ∧ default [] (w_out w' !! Client.conn c) = []).
Proof.
  intros Htr Hsegs.
  destruct (event_request _ _ _ _ _ Htr) as (env & He & Hsent).
  destruct (event_bytes_Marshal _ _ _ He) as [d Hd]. exists d. split; [done|].
  destruct (event_bytes_decode _ _ _ _ Hd He) as [Hdec Hlen].
  eapply swp_mono.
  { apply (handleCommand_event c _ env []); [done|].
    unfold pending. cbn. rewrite lookup_singleton, decide_True by done. cbn.
    by rewrite Hsegs, app_nil_r. }
  intros c' r w' (-> & _ & _ & H). split; [done|]. rewrite Hdec in H. destruct (shallow d).
  - destruct H as (-> & Hc & Ho). repeat split; [done|].
    by rewrite Ho, lookup_insert, decide_True by done.
  - destruct H as (? & Hc & Ho). repeat split; [done|done|]. by rewrite Ho.
Qed.

(** The ways a connect command can be cut with its identifier in one piece. *)
Definition id_whole (i : uuid) (segs : list (list byte)) : Prop :=
  segs = [versionV1 :: cmdConnect :: vec_to_list i] ∨
  segs = [[versionV1; cmdConnect]; vec_to_list i] ∨
  segs = [[versionV1]; cmdConnect :: vec_to_list i] ∨
  segs = [[versionV1]; [cmdConnect]; vec_to_list i].

(** A [Read] of an identifier that is the next segment. *)
Lemma swp_read_id {S} (s : S) h (i : uuid) w (Q : S → result (list byte) → world → Prop) :
  w_in w !! h = Some [vec_to_list i] ∨ w_in w !! h = Some [[]; vec_to_list i] →
  (∀ w', same_but_in w w' → Q s (Ok (vec_to_list i)) w') →
  swp (liftR (conn_Read h 16)) s w Q.
Proof.
  intros Hw HQ. apply swp_liftR. cbn -[fill lookup].
  assert (∀ b bs, vec_to_list i = b :: bs → fill 16 (b :: take 15 (take 15 bs)) = vec_to_list i) as Hfill.
  { intros b bs E. pose proof (length_vec_to_list i) as Hl. rewrite E in Hl |- *. cbn in Hl.
    rewrite !(take_ge bs) by (cbn; lia). unfold fill. rewrite take_ge by (cbn; lia).
    replace (16 - length (b :: bs))%nat with 0%nat by (cbn; lia). apply app_nil_r. }
  destruct (vec_to_list i) as [|b bs] eqn:E; [by pose proof (length_vec_to_list i) as Hl; rewrite E in Hl|].
  destruct Hw as [Hw|Hw]; rewrite Hw; cbn -[fill];
    rewrite (Hfill b bs eq_refl); apply HQ; by destruct w.
Qed.

(** Reading the head of a connect command leaves the identifier to be read at once. *)
Lemma swp_connect_head {S} (s : S) h (i : uuid) segs w (Q : S → result byte → world → Prop) :
  id_whole i segs → w_in w !! h = Some segs →
  (∀ w', w_in w' !! h = Some [vec_to_list i] ∨ w_in w' !! h = Some [[]; vec_to_list i] →
     same_but_in w w' → Q s (Ok cmdConnect) w') →
  swp (readMsg h) s w Q.
Proof.
  intros Hs Hw HQ. unfold readMsg. apply swp_bind, swp_wrap, swp_liftR. destruct w. cbn in Hw.
  destruct Hs as [->|[->|[->| ->]]];
    repeat (cbn -[lookup insert vec_to_list]; rewrite ?Hw, ?lookup_insert_eq);
    cbn -[lookup insert vec_to_list]; apply swp_ret, HQ; try done;
    cbn -[lookup insert vec_to_list]; rewrite lookup_insert_eq; auto.
Qed.

(** A connect command the server sent with success and the client's handler: when the
    identifier arrives in one piece the client puts exactly the command for it on its
    channel, and sends the answer the server waits for. *)
Lemma connect_sent_is_delivered tr (s s' : Server) c (i : uuid) segs :
  traces (Server.SendConnectCommand i s) tr (s', Ok ()) → id_whole i segs →
  sent (Server.conn s) tr = concat segs ∧
  swp Client.handleCommand c (one_conn (Client.conn c) segs) (λ c' r w',
    c' = c ∧ r = Ok () ∧ w_cmds w' = [ConnectCommand i] ∧
    default [] (w_out w' !! Client.conn c) = [versionV1; resSuccess]).
Proof.
  intros Htr Hs. split.
  - pose proof (wpM_trace _ _ _ _ _ _ (SendConnectCommand_spec i s) Htr) as H.
    unfold send_post in H. destruct (Server.state s); try by destruct H as (_ & _ & H).
    destruct H as (_ & rx & tx & (_ & _ & <-) & _ & _ & H). rewrite H by done.
    destruct Hs as [->|[->|[->| ->]]]; cbn; by rewrite app_nil_r.
  - unfold Client.handleCommand. apply swp_bind, swp_get, swp_bind, swp_wrap.
    eapply swp_connect_head; [exact Hs | apply lookup_singleton_eq |]. intros w1 Hw1 Hsame. cbn.
    unfold handleConnect. apply swp_bind, swp_get, swp_bind, swp_wrap.
    apply (swp_read_id _ _ i); [exact Hw1|]. intros w2 Hsame2. cbn.
    apply swp_bind, swp_wrap, swp_liftR. cbn. rewrite uuid_FromBytes_ok. cbn.
    apply swp_bind. apply (swp_call (CSelectSend _)). cbn. unfold reply.
    apply swp_bind, swp_get, swp_wrap.
    rewrite Hsame2, Hsame. unfold swp, check. cbn -[lookup insert].
    repeat split. by rewrite lookup_insert_eq, lookup_empty.
Qed.

End delivery.

(** ** Witnesses *)

Definition demo_client : Client := mkClient 3%nat true [] noAuth registered false.
Definition demo_server : Server := Server.set_state StateRegistered (NewServer 3%nat [WithNoAuth]).
Definition demo_sent : list event * (Server * result ()) * world :=
  run script_handler (SendCustomEvent (X := demo) "news" [x31] demo_server)
    (one_conn 3%nat [[versionV1; resSuccess]]).

Lemma event_sent_is_delivered_witness :
  ∃ tr s', traces (SendCustomEvent (X := demo) "news" [x31] demo_server) tr (s', Ok ()) ∧
    swp (Client.handleCommand (X := demo)) demo_client
      (one_conn 3%nat ((λ b, [b]) <$> sent 3%nat tr))
      (λ c' r w', c' = demo_client ∧ r = Ok () ∧ w_cmds w' = [CustomEvent (mkEvent "news" [x31])] ∧
        default [] (w_out w' !! 3%nat) = [versionV1; resSuccess]).
Proof.
  assert (demo_sent.1.2.2 = Ok ()) as Hr by (by vm_compute).
  assert (traces (SendCustomEvent (X := demo) "news" [x31] demo_server) demo_sent.1.1
            (demo_sent.1.2.1, Ok ())) as Htr by (rewrite <-Hr; apply run_tracesM).
  exists demo_sent.1.1, demo_sent.1.2.1. split; [exact Htr|].
  assert (concat ((λ b, [b]) <$> sent 3%nat demo_sent.1.1) = sent 3%nat demo_sent.1.1) as Hs
    by (by vm_compute).
  pose proof (event_sent_is_delivered (X := demo) _ _ _ demo_client "news" [x31] _ Htr Hs) as H.
  revert H. generalize demo_sent.1.1.
  intros tr (d & Hd & H).
  assert (d = [x31]) as -> by (vm_compute in Hd; congruence).
  assert (shallow [x31] = true) as Hsh by (by vm_compute).
  assert (received_name "news" = "news") as Hn by (by vm_compute).
  rewrite Hsh, Hn in H. exact H.
Defined.

Lemma connect_sent_is_delivered_witness :
  let i : uuid := vreplicate 16 x07 in
  swp (Client.handleCommand (X := demo)) demo_client
    (one_conn 3%nat [[versionV1]; cmdConnect :: vec_to_list i])
    (λ c' r w', c' = demo_client ∧ r = Ok () ∧ w_cmds w' = [ConnectCommand i] ∧
      default [] (w_out w' !! 3%nat) = [versionV1; resSuccess]).
Proof.
  cbn zeta. set (i := vreplicate 16 x07 : uuid).
  pose proof (run_tracesM script_handler (Server.SendConnectCommand i) demo_server
    (one_conn 3%nat [[versionV1; resSuccess]])) as Htr.
  assert ((run script_handler (Server.SendConnectCommand i demo_server)
    (one_conn 3%nat [[versionV1; resSuccess]])).1.2.2 = Ok ()) as Hr by (by vm_compute).
  rewrite Hr in Htr.
  exact (proj2 (connect_sent_is_delivered (X := demo) _ _ _ demo_client i _ Htr
    (or_intror (or_intror (or_introl eq_refl))))).
Defined.

(** A ping and an event, the bytes arriving one by one. *)
Definition demo_event_text : list byte := Eval vm_compute in
  match Marshal_event (mkEvent "news" [x31]) with Ok bs => bs | Err _ => [] end.

Definition demo_event_bytes : list byte := versionV1 :: event_frame demo_event_text.

Lemma commands_delivered_in_order_witness :
  Forall2 (message_bytes (X := demo)) [MPing; MEvent "news" [x31]]
    [[versionV1; cmdPing]; demo_event_bytes] ∧
  swp (command_goroutine (X := demo) 3) demo_client
    (mkWorld {[3%nat := (λ b, [b]) <$> [versionV1; cmdPing] ++ demo_event_bytes]} ioEOF ∅ [] [] [] 3 [])
    (λ c' r w', c' = demo_client ∧ r = Ok true ∧
       w_cmds w' = [CustomEvent (mkEvent (received_name "news") [x31])] ∧
       default [] (w_out w' !! 3%nat) = [versionV1; resSuccess; versionV1; resSuccess]).
Proof.
  assert (Forall2 (message_bytes (X := demo)) [MPing; MEvent "news" [x31]]
            [[versionV1; cmdPing]; demo_event_bytes]) as Hms.
  { constructor; [done|]. constructor; [|constructor].
    exists [x31], demo_event_text. by repeat split; vm_compute. }
  split; [exact Hms|].
  assert (concat ((λ b, [b]) <$> [versionV1; cmdPing] ++ demo_event_bytes) =
          concat [[versionV1; cmdPing]; demo_event_bytes]) as Hs by (by vm_compute).
  exact (commands_delivered_in_order (X := demo) demo_client _ _ _ 3 3 Hms Hs
           ltac:(cbn; lia) ltac:(cbn; lia)).
Defined.
