(* ===== verification/ServerV2.v ===== *)
(** * proto/server_v2.go: the server's side with multiplexing

    [ServerV2] embeds the receiver of server.go; its promoted methods run on the
    embedded part ([via]).  The yamux library is the world's: creating a session,
    accepting a stream and closing a session are calls. *)
From S2P Require Import Prelude Static MuxConfig Commands Demo GoIO Wire Server.

(** [muxConfig] is a pointer the options never make nil. *)
Record ServerV2 := mkServerV2 {
  base : Server;
  session_ : option session;
  muxConfig : Mux.Config;
  isV2 : bool
}.

Definition ServerV2Option := ServerV2 → ServerV2.

Definition set_base (b : Server) (s : ServerV2) : ServerV2 :=
  mkServerV2 b (session_ s) (muxConfig s) (isV2 s).
Definition set_session (ses : session) (s : ServerV2) : ServerV2 :=
  mkServerV2 (base s) (Some ses) (muxConfig s) true.

Definition WithMuxConfig (config : Mux.Config) : ServerV2Option := λ s,
  mkServerV2 (base s) (session_ s) config (isV2 s).

Definition NewServerV2 (conn : handle) (baseOpts : list ServerOption)
    (v2Opts : list ServerV2Option) : ServerV2 :=
  fold_left (λ s opt, opt s) v2Opts
    (mkServerV2 (NewServer conn baseOpts) None Mux.DefaultConfig false).

(** A method of the embedded receiver. *)
Definition via {A} : M Server A → M ServerV2 A := zoom base set_base.

(** The twelve bytes of a configuration: three big-endian 32-bit numbers. *)
Definition mux_frame (c : Mux.Config) : list byte :=
  put_be 4 (Mux.MaxStreams c) ++ put_be 4 (Mux.StreamWindowSize c)
    ++ put_be 4 (Mux.ConnectionWindowSize c).

#[global] Arguments mux_frame : simpl never.

Section server_v2.
Context `{X : Externals}.

Definition processV2AfterAuth : M ServerV2 () :=
  s ← get;
  let c := conn (base s) in
  _configBuf ← wrap "failed to read mux config: %w" (liftR (ReadFull c 12));
  wrap "failed to write mux ready: %w" (check (conn_Write c [versionV1; cmdMuxReady]));;
  wrap "failed to write mux config: %w" (check (conn_Write c (mux_frame (muxConfig s))));;
  let yamuxCfg := Mux.ToYamux yamux_DefaultConfig (muxConfig s) in
  session ← world_call "failed to create yamux session: %w" (call_ (CYamuxServer c yamuxCfg));
  modify (set_session session);;
  controlStream ← world_call "failed to accept control stream: %w"
                    (call_ (CAcceptStream session));
  regMsg ← wrap "failed to read register command: %w" (readMsg controlStream);
  if decide (regMsg ≠ cmdRegister) then
    throw (Errorf "expected register command, got: %d" [Z_of_byte regMsg])
  else
  buf ← wrap "failed to read register UUID: %w" (liftR (conn_Read controlStream 16));
  id ← wrap "failed to parse UUID: %w" (liftR (mret (uuid_FromBytes buf)));
  modify (λ s, set_base (set_state StateRegistered (set_id id (base s))) s);;
  wrap "failed to write register response: %w"
    (check (conn_Write controlStream [versionV1; resSuccess]));;
  modify (λ s, set_base (set_conn controlStream (base s)) s).

Definition Process : M ServerV2 () :=
  s ← get;
  if decide (state (base s) ≠ StateConnected) then
    throw (Errorf "unexpected state: %d" [State_to_Z (state (base s))])
  else
  modify (λ s, set_base (set_state StateProcessing (base s)) s);;
  via (or_close "failed to handle init: %w" handleInit);;
  s ← get;
  msg ← via (or_close "failed to read command: %w" (readMsg (conn (base s))));
  if decide (msg = cmdMuxInit) then processV2AfterAuth
  else if decide (msg = cmdRegister) then via handleRegister
  else if decide (msg = cmdBind) then via handleBind
  else throw (Errorf "unsupported command: %d" [Z_of_byte msg]).

Definition IsV2 (s : ServerV2) : bool := isV2 s.
Definition Session (s : ServerV2) : option session := session_ s.

Definition AcceptStream : M ServerV2 handle :=
  s ← get;
  match isV2 s, session_ s with
  | true, Some session =>
      world_call "failed to accept stream: %w" (call_ (CAcceptStream session))
  | _, _ => throw (Errorf "not a V2 connection" [])
  end.

Definition SendConnectCommandV2 (i : uuid) : M ServerV2 () :=
  s ← get;
  if decide (state (base s) ≠ StateRegistered) then
    throw (Errorf "unexpected state: %d" [State_to_Z (state (base s))])
  else
  resp ← wrap "failed to send connect command: %w"
           (sendRequest (conn (base s)) (cmdConnect :: vec_to_list i));
  if decide (resp ≠ resSuccess) then
    throw (Errorf "failed to connect: %d" [Z_of_byte resp])
  else mret ().

Definition SendConnectCommand (i : uuid) : M ServerV2 () :=
  s ← get;
  if isV2 s then SendConnectCommandV2 i else via (Server.SendConnectCommand i).

Definition SendCustomEvent (eventName : string) (data : payload) : M ServerV2 () :=
  via (Server.SendCustomEvent eventName data).

(** The result of closing the session is dropped. *)
Definition Close : M ServerV2 () :=
  s ← get;
  match session_ s with
  | Some session => _ ← lift (call_ (CSessionClose session)); via Server.Close
  | None => via Server.Close
  end.

End server_v2.

(** ** Specifications, in every world *)

Section rules.
Context {S : Type}.

Lemma wpM_via {A} (m : M Server A) s Q :
  wpM (via m) s Q ↔ wpM m (base s) (λ tr b r, Q tr (set_base b s) r).
Proof. apply wpM_zoom. Qed.

End rules.

(** Traces in which no connection is closed. *)
Definition keeps_open (tr : list event) : Prop := Forall (λ c, ∀ h, c ≠ CClose h) (calls tr).

Lemma traffic_keeps_open h tr rx tx : traffic h tr rx tx → keeps_open tr.
Proof.
  intros [H _]. eapply Forall_impl; [exact H|]. by intros [] Hc h' [=].
Qed.

Lemma keeps_open_app tr1 tr2 : keeps_open tr1 → keeps_open tr2 → keeps_open (tr1 ++ tr2).
Proof. unfold keeps_open. rewrite calls_app. apply Forall_app_2. Qed.

Lemma keeps_open_cons e tr : (∀ h, projT1 e ≠ CClose h) → keeps_open tr → keeps_open (e :: tr).
Proof. intros He H. by constructor. Qed.

Create HintDb keeps_open.
#[export] Hint Resolve traffic_keeps_open keeps_open_app keeps_open_cons : keeps_open.
#[export] Hint Extern 1 (keeps_open []) => constructor : keeps_open.
#[export] Hint Extern 1 (projT1 _ ≠ CClose _) => cbn; discriminate : keeps_open.

Section server_v2_specs.
Context `{X : Externals}.
Implicit Types s : ServerV2.

(** The upgrade of a connection: the client's parameters are received, the server's
    sent, and the registration is exchanged on the first stream of the session, which
    becomes the receiver's connection. *)
Inductive mux_exchange s : ServerV2 → list event → Prop :=
  | mux_ok cfg tr1 ses stream tr2 rx i :
      length cfg = 12%nat →
      traffic (conn (base s)) tr1 cfg ([versionV1; cmdMuxReady] ++ mux_frame (muxConfig s)) →
      (0 < length rx ≤ 16)%nat → uuid_FromBytes (fill 16 rx) = Ok i →
      traffic stream tr2 ([versionV1; cmdRegister] ++ rx) [versionV1; resSuccess] →
      mux_exchange s
        (set_base (set_conn stream (set_state StateRegistered (set_id i (base s))))
           (set_session ses s))
        (tr1 ++ ev (CYamuxServer (conn (base s)) (Mux.ToYamux yamux_DefaultConfig (muxConfig s)))
                   (inr ses)
             :: ev (CAcceptStream ses) (inr stream) :: tr2).

Definition mux_post s (tr : list event) (s' : ServerV2) (r : result ()) : Prop :=
  match r with
  | Ok _ => mux_exchange s s' tr
  | Err _ => conn (base s') = conn (base s) ∧ keeps_open tr
  end.

(** The error exits: the receiver's connection is what it was and nothing is closed. *)
Ltac mux_error := rewrite ?wpM_throw; cbn; split; [done | solve [eauto 20 with keeps_open]].

Lemma processV2AfterAuth_spec s : wpM processV2AfterAuth s (mux_post s).
Proof.
  unfold processV2AfterAuth, mux_post. rewrite wpM_bind, wpM_get, wpM_bind, wpM_wrap.
  wpM_use ReadFull_wpM. intros tr1 s1 [cfg|e] (-> & rx & Ht1 & H); cbn; [|mux_error].
  destruct H as [Hlen <-]. rewrite wpM_bind, wpM_wrap. wpM_use conn_Write_wpM.
  intros tr2 s2 [[]|e] (-> & Ht2 & _); cbn in *; [|mux_error].
  rewrite wpM_bind, wpM_wrap. wpM_use conn_Write_wpM.
  intros tr3 s3 [[]|e] (-> & Ht3 & _); cbn in *; [|mux_error].
  rewrite wpM_bind, wpM_world_call. cbn [wp call_]. intros [e|ses]; cbn; [mux_error|].
  rewrite wpM_bind, wpM_modify, wpM_bind, wpM_world_call. cbn [wp call_].
  intros [e|stream]; cbn; [mux_error|].
  rewrite wpM_bind, wpM_wrap. wpM_use readMsg_spec.
  intros tr4 s4 [m|e] (-> & rx4 & Ht4 & H4); cbn; [subst rx4|mux_error].
  case_decide as Hm; [mux_error|]. subst m.
  rewrite wpM_bind, wpM_wrap. wpM_use conn_Read_wpM; [lia|].
  intros tr5 s5 [buf|e] (-> & rx5 & Ht5 & Hl5 & H5); cbn; [|mux_error].
  destruct H5 as [Hpos ->]. rewrite wpM_bind, wpM_wrap, wpM_liftR. cbn.
  destruct (uuid_FromBytes (fill 16 rx5)) as [i|e] eqn:Ei; cbn; [|mux_error].
  rewrite wpM_bind, wpM_modify, wpM_bind, wpM_wrap. wpM_use conn_Write_wpM.
  intros tr6 s6 [[]|e] (-> & Ht6 & _); cbn in *; [|mux_error].
  rewrite wpM_modify, !app_nil_r, (app_assoc tr1), (app_assoc _ tr3).
  apply (mux_ok s cfg _ ses stream (tr4 ++ tr5 ++ tr6) rx5 i); [done| |lia|done|]; traffic.
Qed.

(** ** Process: a first-version or a multiplexed connection *)

(** The three outcomes of [Process] from the connected state.  A failure of the
    initialisation, or before a command has come, closes the connection last; a failure
    after it does not. *)
Inductive process_post s : list event → ServerV2 → result () → Prop :=
  | process_v1 tr rx1 tx1 rx2 tx2 b :
      traffic (conn (base s)) tr (rx1 ++ rx2) (tx1 ++ tx2) →
      init_exchange (base s) rx1 tx1 →
      command_exchange (set_state StateProcessing (base s)) b rx2 tx2 →
      process_post s tr (set_base b s) (Ok ())
  | process_v2 tr1 rx1 tx1 tr2 s' :
      traffic (conn (base s)) tr1 (rx1 ++ [versionV1; cmdMuxInit]) tx1 →
      init_exchange (base s) rx1 tx1 →
      mux_exchange (set_base (set_state StateProcessing (base s)) s) s' tr2 →
      process_post s (tr1 ++ tr2) s' (Ok ())
  | process_closed tr c rx tx e :
      traffic (conn (base s)) tr rx tx →
      process_post s (tr ++ [ev (CClose (conn (base s))) c])
        (set_base (set_state StateProcessing (base s)) s) (Err e)
  | process_open tr1 rx1 m tx1 tr2 s' e :
      traffic (conn (base s)) tr1 (rx1 ++ [versionV1; m]) tx1 → init_exchange (base s) rx1 tx1 →
      keeps_open tr2 → conn (base s') = conn (base s) →
      process_post s (tr1 ++ tr2) s' (Err e).

Lemma v2_Process_spec s :
  state (base s) = StateConnected → wpM Process s (process_post s).
Proof.
  intros Hs. unfold Process. rewrite wpM_bind, wpM_get, decide_False by tauto.
  rewrite wpM_bind, wpM_modify, wpM_bind, wpM_via.
  set (bp := set_state StateProcessing (base s)). set (sp := set_base bp s).
  eapply wpM_mono.
  { apply (or_close_spec _ _ bp
      (λ _ tr b, b = bp ∧ ∃ rx tx, traffic (conn (base s)) tr rx tx ∧ init_exchange (base s) rx tx)
      (λ tr b, b = bp ∧ ∃ rx tx, traffic (conn (base s)) tr rx tx)).
    eapply wpM_mono; [apply handleInit_spec|]. intros tr b [[]|e] (-> & rx & tx & Ht & H);
      (split; [done|]); exists rx, tx; [|done]. split; [done|]. by eapply init_exchange_state. }
  intros tr1 b1 [[]|e]; cbn.
  2: { intros (tr' & c & e' & -> & (-> & rx & tx & Ht) & _).
       change (set_base bp sp) with (set_base bp s). by eapply process_closed. }
  intros (-> & rx1 & tx1 & Ht1 & Hinit). rewrite wpM_bind, wpM_get. cbn.
  rewrite wpM_bind, wpM_via. eapply wpM_mono.
  { apply (or_close_spec _ _ bp
      (λ m tr b, b = bp ∧ traffic (conn (base s)) tr [versionV1; m] [])
      (λ tr b, b = bp ∧ ∃ rx, traffic (conn (base s)) tr rx [])).
    eapply wpM_mono; [apply readMsg_spec|]. intros tr b [m|e] (-> & rx & Ht & H);
      (split; [done|]); [by subst rx | by exists rx]. }
  intros tr2 b2 [m|e]; cbn.
  2: { intros (tr' & c & e' & -> & (-> & rx & Ht) & _).
       change (set_base bp (set_base bp sp)) with (set_base bp s). rewrite app_assoc.
       eapply process_closed. by eapply traffic_app. }
  intros (-> & Ht2).
  assert (traffic (conn (base s)) (tr1 ++ tr2) (rx1 ++ [versionV1; m]) tx1) as Ht12 by traffic.
  case_decide as Hm; [|case_decide as Hr; [|case_decide as Hb]]; try subst m.
  - wpM_use processV2AfterAuth_spec. intros tr3 s3 [[]|e] H; cbn in H; rewrite app_assoc.
    + by eapply process_v2.
    + destruct H. by eapply process_open.
  - rewrite wpM_via. change (base (set_base _ _)) with bp. wpM_use handleRegister_spec. intros tr3 b3 [[]|e] (rx & tx & Ht & H);
      rewrite app_assoc; change (conn bp) with (conn (base s)) in Ht.
    + destruct H as (Hst & Hid & Hb & ->).
      eapply (process_v1 s _ rx1 tx1 ([versionV1; cmdRegister] ++ rx) [versionV1; resSuccess]);
        [traffic|done|].
      by apply command_register.
    + destruct H as [i ->]. eapply process_open; [done|done| |done].
      by eapply traffic_keeps_open.
  - rewrite wpM_via. change (base (set_base _ _)) with bp. wpM_use handleBind_spec. intros tr3 b3 [[]|e] (rx & tx & Ht & H);
      rewrite app_assoc; change (conn bp) with (conn (base s)) in Ht.
    + destruct H as (Hst & Hid & Hb & ->).
      eapply (process_v1 s _ rx1 tx1 ([versionV1; cmdBind] ++ rx) [versionV1; resSuccess]);
        [traffic|done|].
      by apply command_bind.
    + destruct H as [i ->]. eapply process_open; [done|done| |done].
      by eapply traffic_keeps_open.
  - rewrite wpM_throw, app_nil_r. rewrite <-(app_nil_r (tr1 ++ tr2)).
    by eapply process_open; [..|constructor|].
Qed.

(** ** The other methods *)

Lemma AcceptStream_spec s :
  wpM AcceptStream s (λ tr s' r,
    s' = s ∧
    match isV2 s, session_ s with
    | true, Some ses => ∃ a, tr = [ev (CAcceptStream ses) a] ∧
        r = match a with
            | inl e => Err (Wrapf "failed to accept stream: %w" (IOErr e))
            | inr stream => Ok stream
            end
    | _, _ => tr = [] ∧ r = Err (Errorf "not a V2 connection" [])
    end).
Proof.
  unfold AcceptStream. rewrite wpM_bind, wpM_get. destruct (isV2 s), (session_ s); try done.
  rewrite wpM_world_call. cbn [wp call_]. intros [e|stream]; (split; [done|]); by eexists.
Qed.

(** Both modes send the same request on the receiver's current connection. *)
Lemma SendConnectCommand_modes i s : SendConnectCommandV2 i s ≡ via (Server.SendConnectCommand i) s.
Proof.
  destruct s as [b ses mc v2]. unfold SendConnectCommandV2, via, zoom, Server.SendConnectCommand.
  change ((get ≫= ?f) ?x) with (f x x). cbn beta.
  change ((get ≫= ?f) ?x) with (f x x). cbn beta.
  change (base (mkServerV2 b ses mc v2)) with b.
  case_decide; [done|]. unfold mbind, M_bind, wrap.
  rewrite !(sendRequest_frame _ _ b), (sendRequest_frame _ _ (mkServerV2 b ses mc v2)).
  change (io_bind ?A ?B ?f ?p) with (p ≫= f). rewrite !bind_assoc.
  apply bind_equiv; [done|]. intros [u [m|e]]; cbn; [by case_decide | done].
Qed.

(** So in both modes the command is [Server]'s. *)
Lemma v2_SendConnectCommand_spec i s :
  wpM (SendConnectCommand i) s (λ tr s' r,
    s' = set_base (base s') s ∧
    send_post (base s) (cmdConnect :: vec_to_list i) tr (base s') r).
Proof.
  assert (wpM (via (Server.SendConnectCommand i)) s (λ tr s' r,
    s' = set_base (base s') s ∧
    send_post (base s) (cmdConnect :: vec_to_list i) tr (base s') r)) as H.
  { rewrite wpM_via. by wpM_use Server.SendConnectCommand_spec. }
  unfold SendConnectCommand. rewrite wpM_bind, wpM_get. destruct (isV2 s); [|exact H].
  eapply wpM_equiv; [symmetry; apply SendConnectCommand_modes | exact H].
Qed.

(** C36: The connect command is the same program in both modes: whatever the receiver's
    mode, [SendConnectCommand] makes exactly the calls [Server]'s makes on the embedded
    receiver, and returns the same. *)
Theorem SendConnectCommand_any_mode i s : SendConnectCommand i s ≡ via (Server.SendConnectCommand i) s.
Proof.
  unfold SendConnectCommand. change ((get ≫= ?f) s) with (f s s). cbn beta.
  destruct (isV2 s); [apply SendConnectCommand_modes | done].
Qed.

(** Closing ends the session, then the connection, and leaves the disconnected state. *)
Lemma v2_Close_spec s :
  wpM Close s (λ tr s' _,
    s' = set_base (set_state StateDisconnected (base s)) s ∧
    calls tr = (match session_ s with Some ses => [CSessionClose ses] | None => [] end)
                 ++ [CClose (conn (base s))]).
Proof.
  unfold Close. rewrite wpM_bind, wpM_get. destruct (session_ s) as [ses|];
    [rewrite wpM_bind, wpM_lift; cbn [wp call_]; intros r | ];
    rewrite wpM_via; unfold Server.Close; rewrite wpM_bind, wpM_modify, wpM_bind, wpM_get, wpM_check;
    intros [e|]; done.
Qed.

(** Both sides read the parameters the other sent. *)
Lemma mux_frame_length c : length (mux_frame c) = 12%nat.
Proof. unfold mux_frame. by rewrite !length_app, !length_put_be. Qed.


(** ** Authentication *)

(** The received bytes hold credentials that [auth] accepts. *)
Definition authenticated (auth : string → string → bool) (rx : list byte) : Prop :=
  ∃ pre ulen u plen p post,
    rx = pre ++ (versionV1 :: ulen :: u ++ plen :: p) ++ post ∧
    field ulen u ∧ field plen p ∧ auth (field_string ulen u) (field_string plen p) = true.

Lemma init_exchange_auth (b : Server) auth rx tx rx' :
  noAuth_ok b = false → userPassAuth_fn b = Some auth →
  init_exchange b rx tx → authenticated auth (rx ++ rx').
Proof.
  intros Hn Ha [n pre m post rx1 tx1 Hl Hpre Hex]. destruct Hex as [H|auth' ulen u plen p H Hu Hp Hok].
  - by rewrite Hn in H.
  - rewrite Ha in H. injection H as <-.
    exists ([versionV1; n] ++ pre ++ userPassAuth :: post), ulen, u, plen, p, rx'.
    split; [by rewrite <-!app_assoc|done].
Qed.

Lemma NewServerV2_auth h auth cfgs :
  let s := NewServerV2 h [WithUserPassAuth (Some auth)] (WithMuxConfig <$> cfgs) in
  base s = NewServer h [WithUserPassAuth (Some auth)].
Proof.
  cbn zeta. unfold NewServerV2. induction cfgs as [|c cfgs IH] using rev_ind; [done|].
  rewrite fmap_app, fold_left_app. exact IH.
Qed.

(** C1: A server that was given an authentication function, and no leave for clients
    without credentials, lets a connection register or bind only after it received
    credentials that the function accepts, over both versions and however the bytes
    came. *)
Theorem authentication_required h auth cfgs tr s' :
  traces (Process (NewServerV2 h [WithUserPassAuth (Some auth)] (WithMuxConfig <$> cfgs))) tr (s', Ok ()) →
  authenticated auth (received h tr).
Proof.
  intros Htr. set (s := NewServerV2 _ _ _) in *.
  pose proof (NewServerV2_auth h auth cfgs) as Hb. fold s in Hb.
  assert (state (base s) = StateConnected) as Hs by (by rewrite Hb).
  pose proof (wpM_trace _ _ _ _ _ _ (v2_Process_spec s Hs) Htr) as H.
  assert (noAuth_ok (base s) = false ∧ userPassAuth_fn (base s) = Some auth ∧ conn (base s) = h)
    as (Hn & Ha & Hc) by (by rewrite Hb).
  clear Hb Htr. clearbody s.
  inversion H as [? rx1 tx1 rx2 tx2 b Ht Hi _|tr1 rx1 tx1 tr2 ? Ht Hi _| |]; subst.
  - destruct Ht as (_ & -> & _). by eapply init_exchange_auth.
  - rewrite received_app. destruct Ht as (_ & -> & _). rewrite <-app_assoc.
    by eapply init_exchange_auth.
Qed.

End server_v2_specs.

(** ** Witnesses *)

Definition demo_auth : string → string → bool := λ u p, bool_decide (u = "user" ∧ p = "secret").
Definition demo_segments : list (list byte) :=
  [[versionV1; x01]; [userPassAuth]; [versionV1; x04]; bytes_of_string "user"; [x06];
   bytes_of_string "secret"; [versionV1; cmdRegister]; repeat x07 16].
Definition demo_v2_server : ServerV2 :=
  NewServerV2 3%nat [WithUserPassAuth (Some demo_auth)] (WithMuxConfig <$> [Mux.DefaultConfig]).
Definition demo_processed : list event * (ServerV2 * result ()) * world :=
  run script_handler (Process (X := demo) demo_v2_server) (one_conn 3%nat demo_segments).

Lemma authentication_required_witness : authenticated demo_auth (concat demo_segments).
Proof.
  assert (demo_processed.1.2.2 = Ok ()) as Hr by (by vm_compute).
  assert (received 3%nat demo_processed.1.1 = concat demo_segments) as <- by (by vm_compute).
  apply (authentication_required (X := demo) 3%nat demo_auth [Mux.DefaultConfig] _ demo_processed.1.2.1).
  rewrite <-Hr. exact (run_tracesM script_handler (Process (X := demo)) demo_v2_server _).
Defined.


