(* ===== verification/ClientV2.v ===== *)
(** * proto/client_v2.go: the client's side with multiplexing *)
From S2P Require Import Prelude Static MuxConfig Commands Demo GoIO Wire Client.
From S2P Require ServerV2.
Import ServerV2 (mux_frame, mux_frame_length).

Record ClientV2 := mkClientV2 {
  base : Client;
  session_ : option session;
  muxConfig : Mux.Config;
  isV2 : bool
}.

Definition ClientV2Option := ClientV2 → ClientV2.

Definition set_base (b : Client) (c : ClientV2) : ClientV2 :=
  mkClientV2 b (session_ c) (muxConfig c) (isV2 c).
Definition set_session (ses : session) (c : ClientV2) : ClientV2 :=
  mkClientV2 (base c) (Some ses) (muxConfig c) true.
Definition set_v1 (c : ClientV2) : ClientV2 :=
  mkClientV2 (base c) (session_ c) (muxConfig c) false.

Definition WithMuxConfigClient (config : Mux.Config) : ClientV2Option := λ c,
  mkClientV2 (base c) (session_ c) config (isV2 c).

(** [None] when an option of the embedded client panics. *)
Definition NewClientV2 (conn : handle) (baseOpts : list ClientOption)
    (v2Opts : list ClientV2Option) : option ClientV2 :=
  b ← NewClient conn baseOpts;
  Some (fold_left (λ c opt, opt c) v2Opts (mkClientV2 b None Mux.DefaultConfig false)).

(** A method of the embedded receiver. *)
Definition via {A} : M Client A → M ClientV2 A := zoom base set_base.

Definition upd (f : Client → Client) : M ClientV2 () := modify (λ c, set_base (f (base c)) c).

Section client_v2.
Context `{X : Externals}.

Definition tryV2Registration (i : uuid) : M ClientV2 () :=
  wrap "failed to establish connection: %w" (via establish);;
  c ← get;
  let cn := conn (base c) in
  let configBuf := cmdMuxInit :: mux_frame (muxConfig c) in
  resp ← wrap "server does not support V2 or connection error: %w" (sendRequest cn configBuf);
  if decide (resp ≠ cmdMuxReady) then
    throw (Errorf "server does not support V2: response %d" [Z_of_byte resp])
  else
  _negotiated ← wrap "failed to read mux config: %w" (liftR (ReadFull cn 12));
  let yamuxCfg := Mux.ToYamux yamux_DefaultConfig (muxConfig c) in
  session ← world_call "failed to create yamux session: %w" (call_ (CYamuxClient cn yamuxCfg));
  modify (set_session session);;
  controlStream ← world_call "failed to open control stream: %w" (call_ (COpenStream session));
  regResp ← wrap "failed to send register: %w"
              (sendRequest controlStream (cmdRegister :: vec_to_list i));
  if decide (regResp ≠ resSuccess) then
    throw (Errorf "registration failed: %d" [Z_of_byte regResp])
  else
  upd (set_state registered);;
  _ ← lift (call_ (CGo (GCommandLoop controlStream)));
  mret ().

(** The goroutine the registration starts: the stream becomes the connection, then the
    loop of client.go. *)
Definition command_goroutine (controlStream : handle) (fuel : nat) : M ClientV2 bool :=
  upd (set_conn controlStream);;
  via (Client.command_goroutine fuel).

Definition registerV1 (i : uuid) : M ClientV2 () :=
  modify set_v1;;
  via (or_cancel "failed to establish connection: %w" establish);;
  via (or_cancel "failed to handle register: %w" (handleRegister i));;
  upd (set_state registered);;
  c ← get;
  _ ← lift (call_ (CGo (GCommandLoop (conn (base c)))));
  mret ().

Definition Register (i : uuid) : M ClientV2 () :=
  c ← get;
  if decide (state (base c) ≠ connected) then
    throw (Errorf "unexpected state: %d" [clientState_to_Z (state (base c))])
  else
  upd (set_state processing);;
  upd set_cancel;;
  _ ← lift (call_ (CGo (GCloseOnDone (conn (base c)))));
  if disableV2 (base c) then registerV1 i
  else
    wrap "V2 registration failed and fallback requires reconnection: %w" (tryV2Registration i).

(** [_ = stream.Close()] and the error. *)
Definition close_stream (stream : handle) (e : error) : M ClientV2 () :=
  _ ← lift (conn_Close stream); throw e.

Definition bindV2Stream (i : uuid) : M ClientV2 () :=
  c ← get;
  match session_ c with
  | None => throw (Errorf "no yamux session available" [])
  | Some session =>
      stream ← world_call "failed to open stream: %w" (call_ (COpenStream session));
      r ← attempt (sendRequest stream (cmdBind :: vec_to_list i));
      match r with
      | Err e => close_stream stream (Wrapf "failed to send bind: %w" e)
      | Ok resp =>
          if decide (resp ≠ resSuccess) then
            close_stream stream (Errorf "bind failed: %d" [Z_of_byte resp])
          else
            upd (set_state bound);;
            upd (set_conn stream)
      end
  end.

Definition Bind (i : uuid) : M ClientV2 () :=
  c ← get;
  if isV2 c then bindV2Stream i else via (Client.Bind i).

Definition IsV2 (c : ClientV2) : bool := isV2 c.
Definition Session (c : ClientV2) : option session := session_ c.

Definition Close : M ClientV2 () :=
  c ← get;
  match isV2 c, session_ c with
  | true, Some session => _ ← lift (call_ (CSessionClose session)); via Client.Close
  | _, _ => via Client.Close
  end.

End client_v2.

(** ** New clients *)

Definition setting (o : ClientV2Option) : Prop := ∀ c,
  base (o c) = base c ∧ session_ (o c) = session_ c ∧ isV2 (o c) = isV2 c.

Lemma WithMuxConfigClient_setting cfg : setting (WithMuxConfigClient cfg).
Proof. done. Qed.

Lemma NewClientV2_new h opts v2opts c :
  Forall Client.setting opts → Forall setting v2opts → NewClientV2 h opts v2opts = Some c →
  conn (base c) = h ∧ state (base c) = connected ∧ cancel_set (base c) = false ∧
  session_ c = None ∧ isV2 c = false.
Proof.
  intros Ho Hv. unfold NewClientV2. destruct (NewClient h opts) as [b|] eqn:Eb; [|done].
  apply (NewClient_new _ _ _ Ho) in Eb as (Hb1 & Hb2 & Hb3). intros [= <-].
  assert (∀ c, conn (base c) = h ∧ state (base c) = connected ∧ cancel_set (base c) = false ∧
            session_ c = None ∧ isV2 c = false →
            let c' := fold_left (λ c opt, opt c) v2opts c in
            conn (base c') = h ∧ state (base c') = connected ∧ cancel_set (base c') = false ∧
            session_ c' = None ∧ isV2 c' = false) as H; [|by apply H].
  induction Hv as [|o v2opts Ho' Hv IH]; intros c Hc; [done|].
  apply IH. by destruct (Ho' c) as (-> & -> & ->).
Qed.

(** ** Specifications, in every world *)

Section client_v2_specs.
Context `{X : Externals}.
Implicit Types c : ClientV2.
#[local] Arguments ReadFull : simpl never.

Lemma wpM_via_client {A} (m : M Client A) c Q :
  wpM (via m) c Q ↔ wpM m (base c) (λ tr b r, Q tr (set_base b c) r).
Proof. apply wpM_zoom. Qed.

(** Traces in which the context is never cancelled and no connection closed. *)
Definition undisturbed (tr : list event) : Prop :=
  Forall (λ a, a ≠ CCancel ∧ ∀ h, a ≠ CClose h) (calls tr).

Lemma undisturbed_traffic h tr rx tx : traffic h tr rx tx → undisturbed tr.
Proof. intros [H _]. eapply Forall_impl; [exact H|]. by intros []. Qed.

Lemma undisturbed_app tr1 tr2 : undisturbed tr1 → undisturbed tr2 → undisturbed (tr1 ++ tr2).
Proof. unfold undisturbed. rewrite calls_app. apply Forall_app_2. Qed.

Lemma undisturbed_cons e tr :
  projT1 e ≠ CCancel → (∀ h, projT1 e ≠ CClose h) → undisturbed tr → undisturbed (e :: tr).
Proof. intros ???. by constructor. Qed.

Create HintDb undisturbed.
#[local] Hint Resolve undisturbed_traffic undisturbed_app undisturbed_cons : undisturbed.
#[local] Hint Extern 1 (undisturbed []) => constructor : undisturbed.
#[local] Hint Extern 1 (projT1 _ ≠ _) => cbn; discriminate : undisturbed.

(** The registration over a multiplexed connection: the exchanges, and the goroutine
    started on the control stream. *)
Inductive mux_exchange c (i : uuid) : ClientV2 → list event → Prop :=
  | mux_ok tr1 rx1 tx1 cfg ses stream tr2 :
      establish_exchange (base c) rx1 tx1 → length cfg = 12%nat →
      traffic (conn (base c)) tr1 (rx1 ++ [versionV1; cmdMuxReady] ++ cfg)
        (tx1 ++ versionV1 :: cmdMuxInit :: mux_frame (muxConfig c)) →
      traffic stream tr2 [versionV1; resSuccess] (versionV1 :: cmdRegister :: vec_to_list i) →
      mux_exchange c i (set_base (set_state registered (base c)) (set_session ses c))
        (tr1 ++ ev (CYamuxClient (conn (base c)) (Mux.ToYamux yamux_DefaultConfig (muxConfig c)))
                   (inr ses)
             :: ev (COpenStream ses) (inr stream) :: tr2 ++ [ev (CGo (GCommandLoop stream)) ()]).

Definition mux_post c (i : uuid) (tr : list event) (c' : ClientV2) (r : result ()) : Prop :=
  match r with
  | Ok _ => mux_exchange c i c' tr
  | Err _ => base c' = base c ∧ undisturbed tr
  end.

Ltac mux_error := rewrite ?wpM_throw; cbn; split; [done | solve [eauto 20 with undisturbed]].

Lemma tryV2Registration_spec i c : wpM (tryV2Registration i) c (mux_post c i).
Proof.
  destruct c as [b os mc v2]. unfold tryV2Registration, mux_post.
  rewrite wpM_bind, wpM_wrap, wpM_via_client. wpM_use establish_spec.
  intros tr1 b1 [[]|e] (-> & rx1 & tx1 & Ht1 & H1); cbn; [|mux_error].
  rewrite wpM_bind, wpM_get. cbn. rewrite wpM_bind, wpM_wrap. wpM_use sendRequest_spec.
  intros tr2 c2 [m|e] (-> & rx2 & tx2 & Ht2 & _ & H2); cbn; [|mux_error].
  destruct H2 as [-> ->]. case_decide; [mux_error|]. subst m.
  rewrite wpM_bind, wpM_wrap. wpM_use ReadFull_wpM.
  intros tr3 c3 [cfg|e] (-> & rx3 & Ht3 & H3); cbn; [|mux_error]. destruct H3 as [Hlen <-].
  rewrite wpM_bind, wpM_world_call. cbn [wp call_]. intros [e|ses]; cbn; [mux_error|].
  rewrite wpM_bind, wpM_modify, wpM_bind, wpM_world_call. cbn [wp call_].
  intros [e|stream]; cbn; [mux_error|].
  rewrite wpM_bind, wpM_wrap. wpM_use sendRequest_spec.
  intros tr4 c4 [m|e] (-> & rx4 & tx4 & Ht4 & _ & H4); cbn; [|mux_error].
  destruct H4 as [-> ->]. case_decide; [mux_error|]. subst m.
  unfold upd. rewrite wpM_bind, wpM_modify, wpM_bind, wpM_lift. cbn [wp call_]. intros [].
  rewrite wpM_ret. rewrite (app_assoc tr1), (app_assoc _ tr3).
  apply (mux_ok (mkClientV2 b os mc v2) i _ rx1 tx1 cfg ses stream tr4); [done|done| |traffic].
  cbn. traffic.
Qed.

(** [Register] from the connected state, over both protocols; the watcher is started
    first, and only the first version ever cancels it. *)
Definition register_post c (i : uuid) (tr : list event) (c' : ClientV2) (r : result ()) : Prop :=
  ∃ tr', tr = ev (CGo (GCloseOnDone (conn (base c)))) () :: tr' ∧
    let c1 := set_base (set_cancel (set_state processing (base c))) c in
    if disableV2 (base c) then
      ∃ tr'' rx tx, traffic (conn (base c)) tr'' rx tx ∧
        match r with
        | Ok _ =>
            tr' = tr'' ++ [ev (CGo (GCommandLoop (conn (base c)))) ()] ∧
            c' = set_v1 (set_base (set_state registered (base c1)) c) ∧
            ∃ rx' tx', establish_exchange (base c) rx' tx' ∧
              rx = rx' ++ [versionV1; resSuccess] ∧
              tx = tx' ++ versionV1 :: cmdRegister :: vec_to_list i
        | Err _ => tr' = tr'' ++ [ev CCancel ()] ∧ c' = set_v1 c1
        end
    else
      match r with
      | Ok _ => mux_exchange c1 i c' tr'
      | Err e =>
          base c' = base c1 ∧ undisturbed tr' ∧
          ∃ e', e = Wrapf "V2 registration failed and fallback requires reconnection: %w" e'
      end.

Lemma registerV1_spec i c :
  wpM (registerV1 i) c (λ tr c' r,
    ∃ tr' rx tx, traffic (conn (base c)) tr' rx tx ∧
      match r with
      | Ok _ =>
          tr = tr' ++ [ev (CGo (GCommandLoop (conn (base c)))) ()] ∧
          c' = set_v1 (set_base (set_state registered (base c)) c) ∧
          ∃ rx' tx', establish_exchange (base c) rx' tx' ∧
            rx = rx' ++ [versionV1; resSuccess] ∧
            tx = tx' ++ versionV1 :: cmdRegister :: vec_to_list i
      | Err _ => tr = tr' ++ [ev CCancel ()] ∧ c' = set_v1 c
      end).
Proof.
  destruct c as [b os mc v2]. unfold registerV1.
  rewrite wpM_bind, wpM_modify, wpM_bind, wpM_via_client. eapply wpM_mono.
  { apply (or_cancel_spec _ _ b
      (λ tr b', b' = b ∧ ∃ rx tx, traffic (conn b) tr rx tx ∧ establish_exchange b rx tx)
      (λ tr b', b' = b ∧ ∃ rx tx, traffic (conn b) tr rx tx)).
    eapply wpM_mono; [apply establish_spec|]. intros tr b' [[]|e] (-> & rx & tx & Ht & H);
      (split; [done|]); by exists rx, tx. }
  intros tr1 b1 [[]|e]; cbn.
  2: { intros (tr' & -> & -> & rx & tx & Ht). by exists tr', rx, tx. }
  intros (-> & rx1 & tx1 & Ht1 & H1). rewrite wpM_bind, wpM_via_client. eapply wpM_mono.
  { apply (or_cancel_spec _ _ b
      (λ tr b', b' = b ∧ traffic (conn b) tr [versionV1; resSuccess]
                           (versionV1 :: cmdRegister :: vec_to_list i))
      (λ tr b', b' = b ∧ ∃ rx tx, traffic (conn b) tr rx tx)).
    eapply wpM_mono; [apply client_handleRegister_spec|].
    intros tr b' [[]|e] (-> & rx & tx & Ht & H); (split; [done|]); [|by eauto].
    by destruct H as [-> ->]. }
  intros tr2 b2 [[]|e]; cbn.
  2: { intros (tr' & -> & -> & rx & tx & Ht). exists (tr1 ++ tr').
       do 2 eexists. split; [traffic|]. by rewrite <-app_assoc. }
  intros (-> & Ht2). unfold upd.
  rewrite wpM_bind, wpM_modify, wpM_bind, wpM_get, wpM_bind, wpM_lift.
  cbn [wp call_]. intros []. rewrite wpM_ret. exists (tr1 ++ tr2). do 2 eexists.
  split; [traffic|]. split; [by rewrite <-app_assoc|]. split; [done|]. by exists rx1, tx1.
Qed.

Lemma Register_spec i c :
  state (base c) = connected → wpM (Register i) c (register_post c i).
Proof.
  intros Hs. unfold Register, upd. rewrite wpM_bind, wpM_get, decide_False by tauto.
  rewrite wpM_bind, wpM_modify, wpM_bind, wpM_modify, wpM_bind, wpM_lift.
  cbn [wp call_]. intros []. unfold register_post.
  destruct (disableV2 (base c)).
  - wpM_use registerV1_spec. intros tr c' r (tr' & rx & tx & Ht & H). eexists. split; [done|].
    exists tr', rx, tx. split; [exact Ht|]. destruct r; [|exact H].
    destruct H as (-> & -> & rx' & tx' & He & -> & ->). split; [done|]. split; [done|].
    exists rx', tx'. split; [|done]. by apply (establish_exchange_cancel processing).
  - rewrite wpM_wrap. wpM_use tryV2Registration_spec. intros tr c' [[]|e] H; cbn in H;
      eexists; (split; [done|]); cbn.
    + exact H.
    + destruct H. split; [done|]. split; [done|]. by eexists.
Qed.

(** What is left of a registration: a client that [Close] closes and, when it is one of
    the second version, the session that was made over the connection. *)
Lemma Register_session i c :
  state (base c) = connected →
  wpM (Register i) c (λ tr c' r,
    conn (base c') = conn (base c) ∧ state (base c') ≠ disconnected ∧ cancel_set (base c') = true ∧
    (r = Ok () → IsV2 c' = true → ∃ ses cfg,
       Session c' = Some ses ∧ ev (CYamuxClient (conn (base c)) cfg) (inr ses) ∈ tr)).
Proof.
  intros Hs. wpM_use Register_spec; [exact Hs|]. intros tr c' r (tr' & -> & H).
  destruct (disableV2 (base c)).
  - destruct H as (tr'' & rx & tx & _ & H).
    destruct r; [destruct H as (-> & -> & _)|destruct H as (-> & ->)]; by repeat split.
  - destruct r as [[]|e]; [|by destruct H as (-> & _)]. inversion H; subst.
    do 3 (split; [done|]). intros _ _. do 2 eexists. split; [done|]. right.
    apply elem_of_app. right. left.
Qed.

(** The calls of [Close] on a client whose context was made and that is not
    disconnected: the session first, then the connection, and the wait for the goroutine. *)
Definition closing_calls c (tr : list event) : Prop :=
  ∃ tr' cl, tr = tr' ++ [ev CCancel (); ev (CClose (conn (base c))) cl; ev CWait ()] ∧
    calls tr' = match isV2 c, session_ c with true, Some ses => [CSessionClose ses] | _, _ => [] end.

Lemma client_Close_spec c :
  state (base c) ≠ disconnected → cancel_set (base c) = true →
  wpM Close c (λ tr _ _, closing_calls c tr).
Proof.
  intros Hs Hc.
  assert (∀ tr' (Q := λ tr, closing_calls c (tr' ++ tr)),
    calls tr' = match isV2 c, session_ c with true, Some ses => [CSessionClose ses] | _, _ => [] end →
    wpM (via Client.Close) c (λ tr _ _, Q tr)) as H.
  { intros tr' Q Htr. unfold Q. rewrite wpM_via_client. unfold Client.Close.
    rewrite wpM_bind, wpM_get, decide_False, Hc by done.
    rewrite wpM_bind, wpM_lift. cbn [wp call_]. intros [].
    rewrite wpM_bind, wpM_modify, wpM_bind, wpM_attempt, wpM_check. cbn [wp conn_Close call_]. intros cl.
    rewrite wpM_bind, wpM_lift. cbn [wp call_]. intros []. rewrite wpM_liftR. cbn [wp].
    exists tr', cl. by split. }
  unfold Close. rewrite wpM_bind, wpM_get.
  destruct (isV2 c) eqn:Ev, (session_ c) as [ses|] eqn:Es; [|apply (H []); by rewrite ?Ev, ?Es..].
  rewrite wpM_bind, wpM_lift. cbn [wp call_]. intros r.
  apply (H [ev (CSessionClose ses) r]). by rewrite ?Ev, ?Es.
Qed.

(** Registration is over the first version exactly when the second is disabled, and
    there is no fallback: with the second version enabled either the whole upgrade is
    exchanged and the client holds a session, or an error is returned, the client holds
    nothing of the registration and the connection is not closed. *)
Lemma Register_outcome i c tr c' r :
  state (base c) = connected → traces (Register i c) tr (c', r) → register_post c i tr c' r.
Proof. intros Hs. by apply (wpM_trace (Register i)), Register_spec. Qed.

(** ** Binding a stream *)

Definition bind_post c (i : uuid) (tr : list event) (c' : ClientV2) (r : result ()) : Prop :=
  match session_ c with
  | None => tr = [] ∧ c' = c ∧ r = Err (Errorf "no yamux session available" [])
  | Some ses =>
      (∃ e, tr = [ev (COpenStream ses) (inl e)] ∧ c' = c ∧
            r = Err (Wrapf "failed to open stream: %w" (IOErr e))) ∨
      (∃ stream tr' rx tx, traffic stream tr' rx tx ∧
        match r with
        | Ok _ =>
            tr = ev (COpenStream ses) (inr stream) :: tr' ∧
            rx = [versionV1; resSuccess] ∧ tx = versionV1 :: cmdBind :: vec_to_list i ∧
            c' = set_base (set_conn stream (set_state bound (base c))) c
        | Err _ =>
            ∃ cl, tr = ev (COpenStream ses) (inr stream) :: tr' ++ [ev (CClose stream) cl] ∧
            c' = c
        end)
  end.

Lemma bindV2Stream_spec i c : wpM (bindV2Stream i) c (bind_post c i).
Proof.
  unfold bindV2Stream, bind_post, close_stream, upd. rewrite wpM_bind, wpM_get.
  destruct (session_ c) as [ses|]; [|done]. rewrite wpM_bind, wpM_world_call.
  cbn [wp call_]. intros [e|stream]; cbn; [left; by exists e|].
  rewrite wpM_bind, wpM_attempt. wpM_use sendRequest_spec.
  intros tr c1 [m|e] (-> & rx & tx & Ht & _ & H); cbn.
  - destruct H as [-> ->]. case_decide.
    + rewrite wpM_bind, wpM_lift. cbn [wp conn_Close call_]. intros cl. rewrite wpM_throw.
      right. exists stream, tr. eauto 10.
    + subst m. rewrite wpM_bind, !wpM_modify. right. exists stream, tr.
      do 2 eexists. split; [exact Ht|]. by rewrite !app_nil_r.
  - rewrite wpM_bind, wpM_lift. cbn [wp conn_Close call_]. intros cl. rewrite wpM_throw.
    right. exists stream, tr. eauto 10.
Qed.

End client_v2_specs.

(** ** Witness: an upgrade *)

Definition demo_client : ClientV2 :=
  mkClientV2 (mkClient 3%nat false [] noAuth connected false) None Mux.DefaultConfig false.
Definition demo_world : world :=
  mkWorld {[3%nat := [[versionV1; noAuth]; [versionV1; cmdMuxReady]; repeat x01 5; repeat x01 7];
            7%nat := [[versionV1]; [resSuccess]]]}
    ioEOF ∅ [] [inr 1%nat] [inr 7%nat] 0 [].
Definition demo_id : uuid := vreplicate 16 x07.
Definition demo_registered : list event * (ClientV2 * result ()) * world :=
  run script_handler (Register (X := demo) demo_id demo_client) demo_world.

Lemma Register_outcome_witness :
  demo_registered.1.2.2 = Ok () ∧ Session demo_registered.1.2.1 = Some 1%nat ∧
  register_post (X := demo) demo_client demo_id demo_registered.1.1 demo_registered.1.2.1
    demo_registered.1.2.2.
Proof.
  split; [by vm_compute|]. split; [by vm_compute|].
  exact (Register_outcome (X := demo) demo_id demo_client _ _ _ eq_refl
    (run_tracesM script_handler (Register (X := demo) demo_id) demo_client demo_world)).
Defined.
