(* ===== verification/Metrics.v ===== *)
(** * pool/metrics.go: counters at their machine widths

    Every method is one or two atomic operations on counters of 32 or 64 bits; each
    atomic operation is one assignment here, with its wrap-around. *)
From S2P Require Import Prelude.

Record Metrics := mkMetrics {
  activeStreams : Z;     (* int64 *)
  totalStreams : Z;      (* int64 *)
  connectionCount : Z;   (* int32 *)
  bytesSent : Z;         (* uint64 *)
  bytesReceived : Z;     (* uint64 *)
  latencySum : Z;        (* int64 *)
  latencyCount : Z       (* int64 *)
}.

Definition NewMetrics : Metrics := mkMetrics 0 0 0 0 0 0 0.

Definition ActiveStreams (m : Metrics) : Z := activeStreams m.
Definition TotalStreams (m : Metrics) : Z := totalStreams m.
Definition ConnectionCount (m : Metrics) : Z := connectionCount m.
Definition BytesSent (m : Metrics) : Z := bytesSent m.
Definition BytesReceived (m : Metrics) : Z := bytesReceived m.

Definition set_streams (a t : Z) (m : Metrics) : Metrics :=
  mkMetrics a t (connectionCount m) (bytesSent m) (bytesReceived m) (latencySum m)
    (latencyCount m).
Definition set_latency (s c : Z) (m : Metrics) : Metrics :=
  mkMetrics (activeStreams m) (totalStreams m) (connectionCount m) (bytesSent m)
    (bytesReceived m) s c.

Definition IncrementActiveStreams (m : Metrics) : Metrics :=
  set_streams (wrap_s 64 (activeStreams m + 1)) (wrap_s 64 (totalStreams m + 1)) m.
Definition DecrementActiveStreams (m : Metrics) : Metrics :=
  set_streams (wrap_s 64 (activeStreams m - 1)) (totalStreams m) m.

(** [m.connectionCount.Store(int32(count))] *)
Definition SetConnectionCount (count : Z) (m : Metrics) : Metrics :=
  mkMetrics (activeStreams m) (totalStreams m) (wrap_s 32 count) (bytesSent m)
    (bytesReceived m) (latencySum m) (latencyCount m).

Definition AddBytesSent (n : Z) (m : Metrics) : Metrics :=
  mkMetrics (activeStreams m) (totalStreams m) (connectionCount m)
    (wrap_u 64 (bytesSent m + n)) (bytesReceived m) (latencySum m) (latencyCount m).
Definition AddBytesReceived (n : Z) (m : Metrics) : Metrics :=
  mkMetrics (activeStreams m) (totalStreams m) (connectionCount m) (bytesSent m)
    (wrap_u 64 (bytesReceived m + n)) (latencySum m) (latencyCount m).

Definition RecordLatency (d : Z) (m : Metrics) : Metrics :=
  set_latency (wrap_s 64 (latencySum m + d)) (wrap_s 64 (latencyCount m + 1)) m.

(** Go's integer division truncates towards zero. *)
Definition AvgLatency (m : Metrics) : Z :=
  if decide (latencyCount m = 0) then 0
  else wrap_s 64 (Z.quot (latencySum m) (latencyCount m)).

Definition ResetLatency (m : Metrics) : Metrics := set_latency 0 0 m.

Record ConnMetrics := mkConnMetrics {
  createdAt : Z;
  c_totalStreams : Z;    (* int64 *)
  c_activeStreams : Z    (* int32 *)
}.

(** [now] is the clock's value. *)
Definition NewConnMetrics (now : Z) : ConnMetrics := mkConnMetrics now 0 0.
Definition c_ActiveStreams (c : ConnMetrics) : Z := c_activeStreams c.
Definition c_IncrementActiveStreams (c : ConnMetrics) : ConnMetrics :=
  mkConnMetrics (createdAt c) (wrap_s 64 (c_totalStreams c + 1))
    (wrap_s 32 (c_activeStreams c + 1)).
Definition c_DecrementActiveStreams (c : ConnMetrics) : ConnMetrics :=
  mkConnMetrics (createdAt c) (c_totalStreams c) (wrap_s 32 (c_activeStreams c - 1)).
Definition c_TotalStreams (c : ConnMetrics) : Z := c_totalStreams c.

(** [time.Since]: the difference of two instants, saturated to a [Duration]. *)
Definition time_Since (now t : Z) : Z :=
  Z.max (- 2 ^ 63) (Z.min (2 ^ 63 - 1) (now - t)).
Definition Age (now : Z) (c : ConnMetrics) : Z := time_Since now (createdAt c).

(** The widths of the fields. *)
Definition metrics_wf (m : Metrics) : Prop :=
  - 2 ^ 63 <= activeStreams m < 2 ^ 63 ∧ - 2 ^ 63 <= totalStreams m < 2 ^ 63 ∧
  - 2 ^ 31 <= connectionCount m < 2 ^ 31 ∧
  0 <= bytesSent m < 2 ^ 64 ∧ 0 <= bytesReceived m < 2 ^ 64 ∧
  - 2 ^ 63 <= latencySum m < 2 ^ 63 ∧ - 2 ^ 63 <= latencyCount m < 2 ^ 63.

(** ** The operations as commands, and their effect on the counters *)

Inductive op :=
  | OInc | ODec | OSetCount (n : Z) | OSent (n : Z) | OReceived (n : Z)
  | OLatency (d : Z) | OReset.

Definition apply_op (o : op) (m : Metrics) : Metrics :=
  match o with
  | OInc => IncrementActiveStreams m
  | ODec => DecrementActiveStreams m
  | OSetCount n => SetConnectionCount n m
  | OSent n => AddBytesSent n m
  | OReceived n => AddBytesReceived n m
  | OLatency d => RecordLatency d m
  | OReset => ResetLatency m
  end.

Definition apply_ops (ops : list op) (m : Metrics) : Metrics :=
  fold_left (λ m o, apply_op o m) ops m.

Lemma wrap_u_range w z : 0 < w → 0 <= wrap_u w z < 2 ^ w.
Proof. intros. unfold wrap_u. apply Z.mod_pos_bound. by apply Z.pow_pos_nonneg; lia. Qed.

Lemma apply_op_wf o m : metrics_wf m → metrics_wf (apply_op o m).
Proof.
  intros H. unfold metrics_wf in *. destruct o; cbn;
    repeat match goal with
    | |- context [wrap_s ?w ?z] =>
        pose proof (wrap_s_range w z ltac:(lia)); generalize dependent (wrap_s w z); intros
    | |- context [wrap_u ?w ?z] =>
        pose proof (wrap_u_range w z ltac:(lia)); generalize dependent (wrap_u w z); intros
    end; lia.
Qed.

(** The wrap-around of a sum is that of the exact sum. *)
Lemma wrap_s_add_l w a b : wrap_s w (wrap_s w a + b) = wrap_s w (a + b).
Proof.
  unfold wrap_s. set (h := 2 ^ (w - 1)). f_equal.
  replace ((a + h) mod 2 ^ w - h + b + h) with ((a + h) mod 2 ^ w + b) by lia.
  rewrite Zplus_mod_idemp_l. f_equal. lia.
Qed.

Lemma wrap_s_0 w : 0 < w → wrap_s w 0 = 0.
Proof. intros. apply wrap_s_id; [done|].
  assert (0 < 2 ^ (w - 1)) by (apply Z.pow_pos_nonneg; lia). lia. Qed.

(** The exact balance of the streams opened and closed. *)
Definition balance (o : op) : Z := match o with OInc => 1 | ODec => -1 | _ => 0 end.
Definition sum_by (f : op → Z) (ops : list op) : Z := fold_right (λ o z, f o + z) 0 ops.

Lemma activeStreams_ops ops m :
  metrics_wf m →
  activeStreams (apply_ops ops m) = wrap_s 64 (activeStreams m + sum_by balance ops).
Proof.
  revert m. induction ops as [|o ops IH]; intros m Hm; cbn.
  - rewrite Z.add_0_r, wrap_s_id; [done|done|]. apply Hm.
  - fold (apply_ops ops (apply_op o m)). rewrite IH by (by apply apply_op_wf).
    unfold sum_by. destruct o; cbn; rewrite ?wrap_s_add_l; f_equal; lia.
Qed.

(** Recorded latencies. *)
Definition zsum (l : list Z) : Z := fold_right Z.add 0 l.
Definition record_all (ds : list Z) (m : Metrics) : Metrics :=
  fold_left (λ m d, RecordLatency d m) ds m.

Lemma record_all_latency ds s c m :
  latencySum m = wrap_s 64 s → latencyCount m = wrap_s 64 c →
  latencySum (record_all ds m) = wrap_s 64 (s + zsum ds) ∧
  latencyCount (record_all ds m) = wrap_s 64 (c + Z.of_nat (length ds)).
Proof.
  revert s c m. induction ds as [|d ds IH]; intros s c m Hs Hc.
  - cbn. by rewrite !Z.add_0_r.
  - change (record_all (d :: ds) m) with (record_all ds (RecordLatency d m)). destruct (IH (s + d) (c + 1) (RecordLatency d m)) as [-> ->];
      [cbn; by rewrite Hs, wrap_s_add_l | cbn; by rewrite Hc, wrap_s_add_l |].
    change (zsum (d :: ds)) with (d + zsum ds). cbn [length]. split; f_equal; lia.
Qed.

Lemma zsum_bounds lo hi ds :
  Forall (λ d, lo <= d <= hi) ds →
  lo * Z.of_nat (length ds) <= zsum ds <= hi * Z.of_nat (length ds).
Proof.
  induction 1 as [|d ds Hd Hds IH]; [cbn; lia|].
  change (zsum (d :: ds)) with (d + zsum ds). cbn [length]. lia.
Qed.

(** Go's division of a value between two multiples of the divisor. *)
Lemma quot_between lo hi s c : 0 < c → lo * c <= s <= hi * c → lo <= Z.quot s c <= hi.
Proof.
  intros Hc [Hl Hh]. split.
  - rewrite <-(Z.quot_mul lo c) by lia. apply Z.quot_le_mono; lia.
  - rewrite <-(Z.quot_mul hi c) by lia. apply Z.quot_le_mono; lia.
Qed.

(** ** Properties *)

(** Whatever the counters are asked to do, in any order and however long, every
    counter stays in the range of its machine type. *)
Lemma counters_in_range ops : metrics_wf (apply_ops ops NewMetrics).
Proof.
  assert (metrics_wf NewMetrics) as H by (unfold metrics_wf; cbn; lia).
  revert H. generalize NewMetrics. induction ops as [|o ops IH]; intros m H; [done|].
  by apply (IH (apply_op o m)), apply_op_wf.
Qed.

(** The average latency of a window is the truncated mean of the latencies recorded
    since the last reset, and lies between the least and the greatest of them, as long
    as their sum fits in 64 bits. *)
Lemma average_latency m ds lo hi :
  ds ≠ [] → Forall (λ d, lo <= d <= hi) ds →
  - 2 ^ 63 <= zsum ds < 2 ^ 63 → Z.of_nat (length ds) < 2 ^ 63 →
  AvgLatency (record_all ds (ResetLatency m)) = Z.quot (zsum ds) (Z.of_nat (length ds)) ∧
  lo <= AvgLatency (record_all ds (ResetLatency m)) <= hi.
Proof.
  intros Hne Hds Hsum Hlen. pose proof (zsum_bounds lo hi ds Hds) as Hb.
  assert (0 < Z.of_nat (length ds)) as Hpos by (destruct ds; [done|cbn; lia]).
  destruct (record_all_latency ds 0 0 (ResetLatency m)) as [Hs Hc];
    [symmetry; by apply wrap_s_0..|].
  rewrite Z.add_0_l, wrap_s_id in Hs, Hc by lia.
  unfold AvgLatency. rewrite Hs, Hc, decide_False by lia.
  pose proof (quot_between lo hi _ _ Hpos Hb) as Hq.
  rewrite wrap_s_id; [done|lia|].
  assert (- 2 ^ 63 <= Z.quot (zsum ds) (Z.of_nat (length ds)) <= 2 ^ 63 - 1); [|lia].
  apply quot_between; [done|nia].
Qed.

Lemma average_latency_witness :
  AvgLatency (record_all [5; 8; 8] (ResetLatency NewMetrics)) = Z.quot 21 3 ∧ 5 <= 7 <= 8.
Proof.
  assert (Forall (λ d, 5 <= d <= 8) [5; 8; 8]) as H by (repeat constructor; lia).
  exact (average_latency NewMetrics [5; 8; 8] 5 8 ltac:(discriminate) H
           ltac:(cbn; lia) ltac:(cbn; lia)).
Defined.
