(* ===== verification/MuxConn.v ===== *)
(** * pool/mux_conn.go: multiplexed connections and their streams

    [MuxConn] and [trackedStream] are shared through pointers: the heap maps each
    pointer to its object, and a method runs in the heap.  A stream's [onClose] is the
    decrement of its connection's counter, which the pointer to that connection stands
    for.  A pointer that is dereferenced is never nil; a control stream may be. *)
From S2P Require Import Prelude MuxConfig Commands GoIO Wire Metrics.

Record MuxConn := mkMuxConn {
  session_ : session;
  control : option handle;
  metrics : ConnMetrics;
  closed : bool
}.

Record trackedStream := mkTracked {
  t_Conn : handle;
  t_onClose : nat;
  t_once : bool
}.

Record heap := mkHeap {
  muxes : gmap nat MuxConn;
  tstreams : gmap nat trackedStream
}.

#[export] Instance MuxConn_inhabited : Inhabited MuxConn :=
  populate (mkMuxConn 0%nat None (NewConnMetrics 0) false).
#[export] Instance trackedStream_inhabited : Inhabited trackedStream :=
  populate (mkTracked 0%nat 0%nat false).

Definition mux (h : heap) (m : nat) : MuxConn := muxes h !!! m.

Definition set_metrics (f : ConnMetrics → ConnMetrics) (c : MuxConn) : MuxConn :=
  mkMuxConn (session_ c) (control c) (f (metrics c)) (closed c).
Definition set_closed (c : MuxConn) : MuxConn :=
  mkMuxConn (session_ c) (control c) (metrics c) true.
Definition on_mux (m : nat) (f : MuxConn → MuxConn) (h : heap) : heap :=
  mkHeap (alter f m (muxes h)) (tstreams h).
Definition set_once (t : trackedStream) : trackedStream :=
  mkTracked (t_Conn t) (t_onClose t) true.

(** The pointer of the new object; [now] is the clock. *)
Definition NewMuxConn (session : session) (control : option handle) (now : Z) (h : heap) : nat * heap :=
  let m := fresh (dom (muxes h)) in
  (m, mkHeap (<[m := mkMuxConn session control (NewConnMetrics now) false]> (muxes h))
        (tstreams h)).

(** [&trackedStream{Conn: stream, onClose: m.metrics.DecrementActiveStreams}] *)
Definition new_tracked (stream : handle) (m : nat) : M heap nat := λ h,
  let t := fresh (dom (tstreams h)) in
  Ret (mkHeap (muxes h) (<[t := mkTracked stream m false]> (tstreams h)), Ok t).

(** [OpenStream] and [AcceptStream] differ in the session's method and a message. *)
Definition take_stream (msg : string) (c : session → call)
    (conv : ∀ s, answer (c s) → io_error + handle) (m : nat) : M heap nat :=
  h ← get;
  if closed (mux h m) then throw (Errorf "connection is closed" [])
  else
  stream ← world_call msg (r ← call_ (c (session_ (mux h m))); Ret (conv _ r));
  modify (on_mux m (set_metrics c_IncrementActiveStreams));;
  new_tracked stream m.

Definition OpenStream (m : nat) : M heap nat :=
  take_stream "failed to open stream: %w" COpenStream (λ _ r, r) m.
Definition AcceptStream (m : nat) : M heap nat :=
  take_stream "failed to accept stream: %w" CAcceptStream (λ _ r, r) m.

Definition NumStreams (h : heap) (m : nat) : Z := c_ActiveStreams (metrics (mux h m)).
Definition Control (h : heap) (m : nat) : option handle := control (mux h m).
Definition Session (h : heap) (m : nat) : session := session_ (mux h m).
Definition IsClosed (h : heap) (m : nat) : bool := closed (mux h m).

Definition Close (m : nat) : M heap () :=
  h ← get;
  if closed (mux h m) then mret ()
  else
  modify (on_mux m set_closed);;
  wrap "failed to close session: %w" (check (call_ (CSessionClose (session_ (mux h m))))).

(** [t.once.Do(t.onClose)] *)
Definition once_Do (t : nat) (h : heap) : heap :=
  let ts := tstreams h !!! t in
  if t_once ts then h
  else on_mux (t_onClose ts) (set_metrics c_DecrementActiveStreams)
         (mkHeap (muxes h) (alter set_once t (tstreams h))).

(** [Close] of [trackedStream]. *)
Definition CloseTracked (t : nat) : M heap () :=
  modify (once_Do t);;
  h ← get;
  check (conn_Close (t_Conn (tstreams h !!! t))).

(** ** The streams that count *)

Definition counts (m : nat) (kt : nat * trackedStream) : Prop :=
  t_onClose kt.2 = m ∧ t_once kt.2 = false.
#[export] Instance counts_dec m kt : Decision (counts m kt).
Proof. unfold counts. apply _. Defined.

(** How many streams of [m] have been opened or accepted and not closed. *)
Definition open_count (h : heap) (m : nat) : nat := size (filter (counts m) (tstreams h)).

(** Every counter is exact, up to its width, and every stream is of a connection. *)
Definition accounted (h : heap) : Prop :=
  (∀ m c, muxes h !! m = Some c →
     c_activeStreams (metrics c) = wrap_s 32 (Z.of_nat (open_count h m))) ∧
  (∀ t ts, tstreams h !! t = Some ts → is_Some (muxes h !! t_onClose ts)).

Section accounting.
Implicit Types (h : heap).

Lemma open_count_new h t stream m m' :
  tstreams h !! t = None →
  open_count (mkHeap (muxes h) (<[t := mkTracked stream m false]> (tstreams h))) m' =
    ((if decide (m = m') then 1 else 0) + open_count h m')%nat.
Proof.
  intros Ht. unfold open_count. cbn. rewrite map_filter_insert.
  destruct (decide (m = m')) as [->|Hne].
  - rewrite decide_True by done. rewrite map_size_insert_None; [done|].
    apply map_lookup_filter_None. by left.
  - rewrite decide_False by (intros [? _]; done). by rewrite delete_id.
Qed.

Lemma open_count_once h t ts m' :
  tstreams h !! t = Some ts → t_once ts = false →
  open_count h m' =
    ((if decide (t_onClose ts = m') then 1 else 0)
     + open_count (mkHeap (muxes h) (alter set_once t (tstreams h))) m')%nat.
Proof.
  intros Ht Hts. unfold open_count. cbn.
  assert (alter set_once t (tstreams h) = <[t := set_once ts]> (tstreams h)) as ->.
  { apply map_eq. intros k. destruct (decide (k = t)) as [->|Hk].
    - by rewrite lookup_alter_eq, Ht, lookup_insert_eq.
    - by rewrite lookup_alter_ne, lookup_insert_ne. }
  rewrite map_filter_insert, (decide_False (P := counts m' _)) by (by intros [_ [=]]).
  rewrite map_filter_delete.
  destruct (decide (t_onClose ts = m')) as [<-|Hne].
  - rewrite map_size_delete_Some; [|eexists; apply map_lookup_filter_Some_2; [exact Ht|done]].
    assert (0 < size (filter (counts (t_onClose ts)) (tstreams h)))%nat as Hpos; [|lia].
    apply Nat.neq_0_lt_0, map_size_ne_0_lookup. exists t.
    eexists. by apply map_lookup_filter_Some_2.
  - rewrite map_size_delete_None; [done|]. apply map_lookup_filter_None. right.
    intros ? E [? _]. cbn in *. congruence.
Qed.

(** The counters follow. *)
Lemma accounted_new h stream m c :
  accounted h → muxes h !! m = Some c →
  accounted (mkHeap (muxes (on_mux m (set_metrics c_IncrementActiveStreams) h))
               (<[fresh (dom (tstreams h)) := mkTracked stream m false]> (tstreams h))).
Proof.
  intros [Hc Ht] Hm. set (t := fresh _).
  assert (tstreams h !! t = None) as Hfresh by (apply not_elem_of_dom, is_fresh).
  split; cbn.
  - intros m' c'. change (alter ?f ?k ?x) with (alter f k x).
    change (open_count _ m') with
      (open_count (mkHeap (muxes h) (<[t := mkTracked stream m false]> (tstreams h))) m').
    rewrite open_count_new by done. intros Hl. destruct (decide (m = m')) as [<-|Hne].
    + rewrite lookup_alter_eq, Hm in Hl. injection Hl as <-. cbn.
      rewrite (Hc _ _ Hm), wrap_s_add_l. f_equal. lia.
    + rewrite lookup_alter_ne in Hl by done. by apply Hc.
  - intros t' ts. destruct (decide (t' = t)) as [->|Hne].
    + rewrite lookup_insert_eq. intros [= <-]. cbn. rewrite lookup_alter_eq, Hm. by eexists.
    + rewrite lookup_insert_ne by done. intros Hl. destruct (Ht _ _ Hl) as [c' Hc'].
      destruct (decide (m = t_onClose ts)) as [->|]; [rewrite lookup_alter_eq, Hc'; by eexists|].
      rewrite lookup_alter_ne by done. by eexists.
Qed.

Lemma accounted_once h t ts :
  accounted h → tstreams h !! t = Some ts → accounted (once_Do t h).
Proof.
  intros [Hc Ht] Hl. unfold once_Do. rewrite (lookup_total_correct _ _ _ Hl).
  destruct (t_once ts) eqn:Ho; [done|]. destruct (Ht _ _ Hl) as [c0 Hc0]. split; cbn.
  - intros m c.
    pose proof (open_count_once h t ts m Hl Ho) as Hn. intros Hm.
    change (open_count _ m) with
      (open_count (mkHeap (muxes h) (alter set_once t (tstreams h))) m).
    destruct (decide (t_onClose ts = m)) as [<-|Hne].
    + rewrite lookup_alter_eq, Hc0 in Hm. injection Hm as <-. cbn.
      rewrite (Hc _ _ Hc0), Hn. unfold Z.sub. rewrite wrap_s_add_l. f_equal. lia.
    + rewrite lookup_alter_ne in Hm by done. rewrite (Hc _ _ Hm), Hn. done.
  - intros t' ts' Hl'. assert (∃ u, tstreams h !! t' = Some u ∧ t_onClose u = t_onClose ts') as (u & Hu & <-).
    { destruct (decide (t = t')) as [<-|].
      - rewrite lookup_alter_eq, Hl in Hl'. injection Hl' as <-. by exists ts.
      - rewrite lookup_alter_ne in Hl' by done. by exists ts'. }
    destruct (Ht _ _ Hu) as [c Hcu].
    destruct (decide (t_onClose ts = t_onClose u)) as [->|];
      [rewrite lookup_alter_eq, Hcu; by eexists | rewrite lookup_alter_ne by done; by eexists].
Qed.

End accounting.

(** ** The methods, in every world *)

Section mux_specs.
Implicit Types (h : heap).

Lemma take_stream_spec msg c conv m h :
  wpM (take_stream msg c conv m) h (λ tr h' r,
    if closed (mux h m) then tr = [] ∧ h' = h ∧ r = Err (Errorf "connection is closed" [])
    else ∃ a, tr = [ev (c (session_ (mux h m))) a] ∧
      match conv _ a with
      | inl e => h' = h ∧ r = Err (Wrapf msg (IOErr e))
      | inr stream =>
          let t := fresh (dom (tstreams h)) in
          r = Ok t ∧
          h' = mkHeap (muxes (on_mux m (set_metrics c_IncrementActiveStreams) h))
                 (<[t := mkTracked stream m false]> (tstreams h))
      end).
Proof.
  unfold take_stream. rewrite wpM_bind, wpM_get. destruct (closed (mux h m)); [done|].
  rewrite wpM_bind, wpM_world_call. cbn [wp call_ mbind io_bind]. intros a.
  destruct (conv _ a) as [e|stream] eqn:E; cbn.
  - exists a. by rewrite E.
  - rewrite wpM_bind, wpM_modify. cbn. exists a. by rewrite E.
Qed.

Lemma take_stream_accounted msg c conv m h :
  accounted h → is_Some (muxes h !! m) →
  wpM (take_stream msg c conv m) h (λ _ h' _, accounted h').
Proof.
  intros Ha [x Hx]. wpM_use take_stream_spec. intros tr h' r.
  destruct (closed _); [by intros (_ & -> & _)|]. intros (a & _ & H).
  destruct (conv _ a); [by destruct H as [-> _]|]. destruct H as [_ ->].
  by eapply accounted_new.
Qed.

Lemma CloseTracked_spec t h :
  wpM (CloseTracked t) h (λ tr h' r,
    h' = once_Do t h ∧ ∃ a, tr = [ev (CClose (t_Conn (tstreams h !!! t))) a] ∧
    r = match a with None => Ok () | Some e => Err (IOErr e) end).
Proof.
  unfold CloseTracked. rewrite wpM_bind, wpM_modify, wpM_bind, wpM_get, wpM_check. cbn.
  intros a. split; [done|]. exists a. split; [|done]. do 2 f_equal.
  unfold once_Do. destruct (t_once _) eqn:E; [done|]. cbn.
  destruct (tstreams h !! t) as [ts|] eqn:Et.
  - by rewrite !lookup_total_alt, lookup_alter_eq, Et.
  - by rewrite !lookup_total_alt, lookup_alter_eq, Et.
Qed.

(** Closing a connection twice closes its session once. *)
Lemma Close_spec m h :
  wpM (Close m) h (λ tr h' r,
    if closed (mux h m) then tr = [] ∧ h' = h ∧ r = Ok ()
    else ∃ a, tr = [ev (CSessionClose (session_ (mux h m))) a] ∧
      h' = on_mux m set_closed h ∧
      r = match a with
          | None => Ok ()
          | Some e => Err (Wrapf "failed to close session: %w" (IOErr e))
          end).
Proof.
  unfold Close. rewrite wpM_bind, wpM_get. destruct (closed _); [done|].
  rewrite wpM_bind, wpM_modify, wpM_wrap, wpM_check. cbn. intros [e|]; eauto.
Qed.

End mux_specs.

(** ** Runs of the methods, in any order, by any number of holders of the pointers *)

(** A pointer that is used was returned by an earlier method. *)
Inductive mux_step (h : heap) : heap → Prop :=
  | step_new ses ct now : mux_step h (NewMuxConn ses ct now h).2
  | step_open m tr h' r :
      is_Some (muxes h !! m) → traces (OpenStream m h) tr (h', r) → mux_step h h'
  | step_accept m tr h' r :
      is_Some (muxes h !! m) → traces (AcceptStream m h) tr (h', r) → mux_step h h'
  | step_close_stream t tr h' r :
      is_Some (tstreams h !! t) → traces (CloseTracked t h) tr (h', r) → mux_step h h'
  | step_close m tr h' r :
      is_Some (muxes h !! m) → traces (Close m h) tr (h', r) → mux_step h h'.

Definition empty_heap : heap := mkHeap ∅ ∅.

Lemma set_closed_accounted m h : accounted h → accounted (on_mux m set_closed h).
Proof.
  intros [Hc Ht]. split; cbn.
  - intros m' c. destruct (decide (m = m')) as [<-|]; [|rewrite lookup_alter_ne by done; apply Hc].
    rewrite lookup_alter_eq. destruct (muxes h !! m) as [c0|] eqn:E; [|done].
    intros [= <-]. exact (Hc m c0 E).
  - intros t ts Hl. destruct (Ht _ _ Hl) as [c Hcu].
    destruct (decide (m = t_onClose ts)) as [->|];
      [rewrite lookup_alter_eq, Hcu; by eexists | rewrite lookup_alter_ne by done; by eexists].
Qed.

Lemma NewMuxConn_accounted ses ct now h :
  accounted h → accounted (NewMuxConn ses ct now h).2.
Proof.
  intros [Hc Ht]. unfold NewMuxConn. set (m := fresh _).
  assert (muxes h !! m = None) as Hm by (apply not_elem_of_dom, is_fresh). split; cbn.
  - intros m' c. destruct (decide (m = m')) as [<-|].
    + rewrite lookup_insert_eq. intros [= <-]. cbn.
      replace (open_count _ m) with 0%nat; [by rewrite wrap_s_0|]. symmetry.
      apply map_size_empty_iff, map_empty_filter. intros t ts Hl [Heq _]. cbn in Heq.
      destruct (Ht _ _ Hl) as [c' Hc']. congruence.
    + rewrite lookup_insert_ne by done. apply Hc.
  - intros t ts Hl. destruct (Ht _ _ Hl) as [c' Hc'].
    rewrite lookup_insert_ne by congruence. by eexists.
Qed.

Lemma mux_step_accounted h h' : accounted h → mux_step h h' → accounted h'.
Proof.
  intros Ha [ses ct now|m tr h1 r Hm Htr|m tr h1 r Hm Htr|t tr h1 r [ts Hts] Htr|m tr h1 r Hm Htr].
  - by apply NewMuxConn_accounted.
  - by apply (proj1 (wpM_traces _ _ _) (take_stream_accounted _ _ _ m h Ha Hm) _ _ _ Htr).
  - by apply (proj1 (wpM_traces _ _ _) (take_stream_accounted _ _ _ m h Ha Hm) _ _ _ Htr).
  - apply (proj1 (wpM_traces _ _ _) (CloseTracked_spec t h)) in Htr as [-> _].
    by eapply accounted_once.
  - apply (proj1 (wpM_traces _ _ _) (Close_spec m h)) in Htr. destruct (closed _).
    + by destruct Htr as (_ & -> & _).
    + destruct Htr as (a & _ & -> & _). by apply set_closed_accounted.
Qed.

Lemma accounted_empty : accounted empty_heap.
Proof. split; cbn; by intros ?? H%lookup_empty_Some. Qed.

(** C31: After any run of the methods the counter of a connection is the number of its
    streams that were opened or accepted and not closed (closing a stream again does not
    count), up to the 32 bits of the counter. *)
Theorem streams_accounted h m c :
  rtc mux_step empty_heap h → muxes h !! m = Some c →
  NumStreams h m = wrap_s 32 (Z.of_nat (open_count h m)) ∧
  (Z.of_nat (open_count h m) < 2 ^ 31 → NumStreams h m = Z.of_nat (open_count h m)).
Proof.
  intros Hr Hm. assert (accounted h) as [Hc _].
  { revert Hr. generalize accounted_empty. generalize empty_heap. intros h0 H0 Hr.
    induction Hr as [|h1 h2 h3 H12 H23 IH]; [done|]. apply IH; [done|]. by eapply mux_step_accounted. }
  assert (NumStreams h m = wrap_s 32 (Z.of_nat (open_count h m))) as ->.
  { unfold NumStreams, mux. rewrite (lookup_total_correct _ _ _ Hm). by apply Hc. }
  split; [done|]. intros. apply wrap_s_id; lia.
Qed.

(** The heap of the witness: a connection, a stream opened on it and closed twice, and
    a second stream. *)
Definition demo_world : world := mkWorld ∅ ioEOF ∅ [] [] [inr 7%nat; inr 8%nat] 0 [].
Definition demo0 : heap * world := ((NewMuxConn 3%nat (Some 4%nat) 0 empty_heap).2, demo_world).
Definition demo1 : heap * world := script (OpenStream 0) demo0.
Definition demo2 : heap * world := script (CloseTracked 0) demo1.
Definition demo3 : heap * world := script (CloseTracked 0) demo2.
Definition demo4 : heap * world := script (OpenStream 0) demo3.

Lemma demo4_reachable : rtc mux_step empty_heap demo4.1.
Proof.
  assert (is_Some (muxes demo0.1 !! 0%nat)) as H0 by (vm_compute; by eexists).
  assert (is_Some (tstreams demo1.1 !! 0%nat)) as H1 by (vm_compute; by eexists).
  assert (is_Some (tstreams demo2.1 !! 0%nat)) as H2 by (vm_compute; by eexists).
  assert (is_Some (muxes demo3.1 !! 0%nat)) as H3 by (vm_compute; by eexists).
  destruct (script_traces (OpenStream 0) demo0) as (? & ? & T1).
  destruct (script_traces (CloseTracked 0) demo1) as (? & ? & T2).
  destruct (script_traces (CloseTracked 0) demo2) as (? & ? & T3).
  destruct (script_traces (OpenStream 0) demo3) as (? & ? & T4).
  eapply rtc_l; [exact (step_new _ 3%nat (Some 4%nat) 0)|]. eapply rtc_l; [exact (step_open _ _ _ _ _ H0 T1)|].
  eapply rtc_l; [exact (step_close_stream _ _ _ _ _ H1 T2)|].
  eapply rtc_l; [exact (step_close_stream _ _ _ _ _ H2 T3)|].
  apply rtc_once. exact (step_open _ _ _ _ _ H3 T4).
Qed.

Lemma streams_accounted_witness :
  ∃ c, muxes demo4.1 !! 0%nat = Some c ∧ NumStreams demo4.1 0 = 1.
Proof.
  assert (∃ c, muxes demo4.1 !! 0%nat = Some c) as [c Hc] by (vm_compute; by eexists).
  exists c. split; [exact Hc|].
  destruct (streams_accounted demo4.1 0%nat c demo4_reachable Hc) as [_ ->]; [vm_compute; reflexivity|].
  vm_compute; reflexivity.
Defined.
