(* ===== verification/PoolConfig.v ===== *)
(** * pool/pool.go, its configuration *)
From S2P Require Import Prelude MuxConfig.

(** [int]s and durations, both 64 bits. *)
Record Config := mkConfig {
  MinConnections : Z;
  MaxConnections : Z;
  ScaleUpThreshold : Z;
  ScaleDownThreshold : Z;
  LatencyThreshold : Z;
  ScaleCooldown : Z;
  MonitorInterval : Z
}.

Definition DefaultConfig : Config := mkConfig 1 10 800 200 (100 * Millisecond) (30 * Second)
  (10 * Second).

(** The receiver is updated in place; on the error its two intervals are as they were. *)
Definition Validate (c : Config) : Config * result () :=
  let mn := if decide (MinConnections c < 1) then 1 else MinConnections c in
  let mx := if decide (MaxConnections c < mn) then mn else MaxConnections c in
  let up := if decide (ScaleUpThreshold c = 0) then 800 else ScaleUpThreshold c in
  let down := if decide (ScaleDownThreshold c = 0) then 200 else ScaleDownThreshold c in
  if decide (up <= down) then
    (mkConfig mn mx up down (LatencyThreshold c) (ScaleCooldown c) (MonitorInterval c),
     Err (Errorf "scale down threshold must be less than scale up threshold" []))
  else
    let cd := if decide (ScaleCooldown c = 0) then 30 * Second else ScaleCooldown c in
    let mi := if decide (MonitorInterval c = 0) then 10 * Second else MonitorInterval c in
    (mkConfig mn mx up down (LatencyThreshold c) cd mi, Ok ()).

(** What a pool relies on. *)
Definition valid (c : Config) : Prop :=
  1 <= MinConnections c <= MaxConnections c ∧
  ScaleUpThreshold c ≠ 0 ∧ ScaleDownThreshold c ≠ 0 ∧
  ScaleDownThreshold c < ScaleUpThreshold c ∧
  ScaleCooldown c ≠ 0 ∧ MonitorInterval c ≠ 0.

(** Fields that are set are kept: a valid configuration is left as it is. *)
Lemma Validate_valid c : valid c → Validate c = (c, Ok ()).
Proof.
  intros (? & ? & ? & ? & ? & ?). unfold Validate. destruct c; cbn in *.
  rewrite (decide_False (P := MinConnections0 < 1)) by lia.
  rewrite (decide_False (P := MaxConnections0 < _)) by lia.
  rewrite (decide_False (P := ScaleUpThreshold0 = 0)) by lia.
  rewrite (decide_False (P := ScaleDownThreshold0 = 0)) by lia.
  rewrite (decide_False (P := ScaleUpThreshold0 <= _)) by lia.
  rewrite (decide_False (P := ScaleCooldown0 = 0)) by lia.
  by rewrite (decide_False (P := MonitorInterval0 = 0)) by lia.
Qed.

Lemma Validate_unordered mn mx up down lt cd mi :
  1 <= mn → mn <= mx → up ≠ 0 → down ≠ 0 → up <= down →
  Validate (mkConfig mn mx up down lt cd mi) = (mkConfig mn mx up down lt cd mi,
    Err (Errorf "scale down threshold must be less than scale up threshold" [])).
Proof.
  intros. unfold Validate. cbn. rewrite (decide_False (P := mn < 1)) by lia.
  rewrite (decide_False (P := mx < mn)) by lia. rewrite (decide_False (P := up = 0)) by done.
  rewrite (decide_False (P := down = 0)) by done. by rewrite decide_True.
Qed.

Lemma Validate_Ok c c' : Validate c = (c', Ok ()) → valid c'.
Proof.
  unfold Validate, valid. destruct c; cbn.
  match goal with |- context [decide (?a <= ?b)] => destruct (decide (a <= b)); [done|] end.
  intros [= <-]. cbn. split_and!; try (by repeat case_decide; unfold Second, Millisecond; lia).
Qed.

(** Validating a pool's configuration either fails, exactly when the thresholds it
    would use are not ordered, or establishes what the pool relies on (at least one
    connection, ordered bounds and thresholds, intervals that are set); validating
    again changes nothing. *)
Lemma Validate_correct c :
  let '(c', r) := Validate c in
  match r with
  | Ok _ => valid c' ∧ Validate c' = (c', Ok ())
  | Err _ => ScaleUpThreshold c' <= ScaleDownThreshold c' ∧ ∃ e, Validate c' = (c', Err e)
  end.
Proof.
  destruct (Validate c) as [c' [[]|e]] eqn:E.
  - apply Validate_Ok in E. split; [done|]. by apply Validate_valid.
  - revert E. unfold Validate. destruct c; cbn.
    match goal with |- context [decide (?a <= ?b)] => destruct (decide (a <= b)) as [Hle|]; [|done] end.
    intros [= <- <-]. cbn. split; [exact Hle|].
    eexists. apply Validate_unordered; try done; by repeat case_decide; lia.
Qed.
