(* ===== verification/Selector.v ===== *)
(** * pool/selector.go: which connection carries the next stream

    [Selector] is the source's interface.  The pool is verified against it; the
    implementation, the connection with the fewest streams, has its own theorem.  A
    selector reads the connections through [num], their numbers of streams at the time
    of the call. *)
From S2P Require Import Prelude.

Class Selector := {
  Select : (nat → Z) → list nat → option nat;
  Select_member : ∀ num conns c, Select num conns = Some c → c ∈ conns;
  Select_nil : ∀ num conns, Select num conns = None ↔ conns = []
}.

(** The loop over [conns[1:]], with the best candidate so far. *)
Fixpoint least_loop (num : nat → Z) (best : nat) (minStreams : Z) (conns : list nat) : nat :=
  match conns with
  | [] => best
  | c :: cs =>
      let n := num c in
      if decide (n < minStreams) then least_loop num c n cs
      else least_loop num best minStreams cs
  end.

Definition least_Select (num : nat → Z) (conns : list nat) : option nat :=
  match conns with
  | [] => None
  | best :: cs => Some (least_loop num best (num best) cs)
  end.

(** [l] split at its first minimum. *)
Definition first_min (num : nat → Z) (l : list nat) (c : nat) : Prop :=
  ∃ pre post, l = pre ++ c :: post ∧
    Forall (λ x, num c < num x) pre ∧ Forall (λ x, num c <= num x) post.

Lemma least_loop_spec num pre best mid conns :
  Forall (λ x, num best < num x) pre → Forall (λ x, num best <= num x) mid →
  first_min num (pre ++ best :: mid ++ conns) (least_loop num best (num best) conns).
Proof.
  revert pre best mid. induction conns as [|c cs IH]; intros pre best mid Hpre Hmid; cbn.
  - exists pre, mid. by rewrite app_nil_r.
  - case_decide as H.
    + replace (pre ++ best :: mid ++ c :: cs) with ((pre ++ best :: mid) ++ c :: [] ++ cs)
        by (by rewrite <-app_assoc).
      apply IH; [|done]. apply Forall_app; split; [|constructor; [done|]];
        (eapply Forall_impl; [eassumption|]); cbn; lia.
    + replace (mid ++ c :: cs) with ((mid ++ [c]) ++ cs) by (by rewrite <-app_assoc).
      apply IH; [done|]. apply Forall_app; split; [done|]. constructor; [lia|done].
Qed.

Lemma least_Select_spec num conns c :
  least_Select num conns = Some c → first_min num conns c.
Proof.
  destruct conns as [|best cs]; [done|]. intros [= <-].
  by apply (least_loop_spec num [] best []).
Qed.

Lemma first_min_member num conns c : first_min num conns c → c ∈ conns.
Proof. intros (pre & post & -> & _). apply elem_of_app. right. by left. Qed.

Lemma least_Select_nil num conns : least_Select num conns = None ↔ conns = [].
Proof. by destruct conns. Qed.

#[export] Instance LeastStreamsSelector : Selector := {
  Select := least_Select;
  Select_member num conns c H := first_min_member num conns c (least_Select_spec num conns c H);
  Select_nil := least_Select_nil
}.

(** The default selector returns nothing exactly for an empty pool, and otherwise
    the first of the connections that carry the fewest streams. *)
Lemma LeastStreams_first_min num conns :
  match Select (Selector := LeastStreamsSelector) num conns with
  | None => conns = []
  | Some c => first_min num conns c
  end.
Proof.
  cbn. destruct (least_Select num conns) as [c|] eqn:E; [by apply least_Select_spec|].
  by destruct conns.
Qed.
