(* ===== verification/Scaler.v ===== *)
(** * pool/scaler.go: when the pool grows and shrinks *)
From S2P Require Import Prelude MuxConfig PoolConfig Metrics.

Inductive ScaleAction := ScaleNone | ScaleUp | ScaleDown.

(** [config] is shared with the pool; the mutex makes each method one step. *)
Record AutoScaler := mkScaler {
  config : Config;
  lastScaleTime : Z
}.

Definition NewAutoScaler (config : Config) (now : Z) : AutoScaler := mkScaler config now.

(** [activeStreams / int64(connCount)] *)
Definition avgStreamsPerConn (m : Metrics) : Z :=
  wrap_s 64 (Z.quot (ActiveStreams m) (ConnectionCount m)).

(** The two halves of [Evaluate] after the pool is known not to be empty. *)
Definition wants_up (c : Config) (m : Metrics) : bool :=
  bool_decide (ScaleUpThreshold c < avgStreamsPerConn m) ||
  (bool_decide (0 < LatencyThreshold c) && bool_decide (LatencyThreshold c < AvgLatency m)).

Definition wants_down (c : Config) (m : Metrics) : bool :=
  bool_decide (avgStreamsPerConn m < ScaleDownThreshold c) &&
  (bool_decide (LatencyThreshold c = 0) ||
   bool_decide (AvgLatency m < Z.quot (LatencyThreshold c) 2)).

Definition Evaluate (now : Z) (m : Metrics) (s : AutoScaler) : ScaleAction :=
  let c := config s in
  if decide (time_Since now (lastScaleTime s) < ScaleCooldown c) then ScaleNone
  else if decide (ConnectionCount m = 0) then
    if decide (0 < MinConnections c) then ScaleUp else ScaleNone
  else if bool_decide (ConnectionCount m < MaxConnections c) && wants_up c m then ScaleUp
  else if bool_decide (MinConnections c < ConnectionCount m) && wants_down c m then ScaleDown
  else ScaleNone.

Definition RecordScale (now : Z) (s : AutoScaler) : AutoScaler := mkScaler (config s) now.

(** ** Properties *)

Section scaler.
Implicit Types (c : Config) (m : Metrics) (s : AutoScaler).

Lemma Evaluate_up (now : Z) m s :
  Evaluate now m s = ScaleUp →
  ConnectionCount m = 0 ∧ 0 < MinConnections (config s) ∨
  ConnectionCount m ≠ 0 ∧ ConnectionCount m < MaxConnections (config s) ∧
  wants_up (config s) m = true.
Proof.
  unfold Evaluate. cbn. case_decide; [done|]. case_decide; [case_decide; [by left|done]|].
  destruct (bool_decide (_ < MaxConnections _)) eqn:E1; cbn;
    [apply bool_decide_eq_true in E1; destruct (wants_up _ _) eqn:E2; [by right|]|];
    by destruct (_ && _).
Qed.

Lemma Evaluate_down (now : Z) m s :
  Evaluate now m s = ScaleDown →
  ConnectionCount m ≠ 0 ∧ MinConnections (config s) < ConnectionCount m ∧
  wants_down (config s) m = true.
Proof.
  unfold Evaluate. cbn. case_decide; [done|]. case_decide; [by case_decide|].
  destruct (bool_decide (_ < MaxConnections _) && _); [done|].
  destruct (bool_decide (MinConnections _ < _)) eqn:E1; [|done].
  apply bool_decide_eq_true in E1. destruct (wants_down _ _); done.
Qed.

(** The average of non-negative streams over a positive number of connections. *)
Lemma avg_div m :
  0 <= ActiveStreams m < 2 ^ 63 → 0 < ConnectionCount m →
  avgStreamsPerConn m = ActiveStreams m / ConnectionCount m.
Proof.
  intros Ha Hc. unfold avgStreamsPerConn. rewrite Z.quot_div_nonneg by lia.
  apply wrap_s_id; [done|]. split.
  - assert (0 <= ActiveStreams m / ConnectionCount m) by (apply Z.div_pos; lia). lia.
  - apply Z.div_lt_upper_bound; nia.
Qed.

(** The scaler asks for a connection only below the maximum and gives one up only
    above the minimum, asks for one when a pool that should not be empty is, and does
    nothing before the cooldown since the last recorded change is over. *)
Lemma Evaluate_bounds (now : Z) m s :
  valid (config s) → 0 <= ConnectionCount m →
  (Evaluate now m s = ScaleUp → ConnectionCount m < MaxConnections (config s)) ∧
  (Evaluate now m s = ScaleDown → MinConnections (config s) < ConnectionCount m) ∧
  (ConnectionCount m = 0 → ScaleCooldown (config s) <= time_Since now (lastScaleTime s) →
   Evaluate now m s = ScaleUp) ∧
  (∀ t, 0 <= now - t < ScaleCooldown (config s) → ScaleCooldown (config s) < 2 ^ 63 →
   Evaluate now m (RecordScale t s) = ScaleNone).
Proof.
  intros (Hmin & _) Hc. repeat split.
  - intros [[-> _]|(_ & ? & _)]%Evaluate_up; lia.
  - by intros (_ & ? & _)%Evaluate_down.
  - intros H0 Ht. unfold Evaluate. by rewrite decide_False, !decide_True by lia.
  - intros t Ht Hw. unfold Evaluate, time_Since. cbn. rewrite decide_True; [done|]. lia.
Qed.

Lemma wants_up_streams c m : ScaleUpThreshold c < avgStreamsPerConn m → wants_up c m = true.
Proof. intros. unfold wants_up. by rewrite bool_decide_eq_true_2. Qed.

(** C38: The thresholds do not make the pool flap: it is never the case that the streams
    of [n] connections exceed the upper threshold while the same streams over [n + 1]
    make the scaler ask for a connection less, as long as the lower threshold is at most
    half of the upper one (as in the default configuration). *)
Theorem scaling_does_not_flap (now : Z) m m' s :
  2 * ScaleDownThreshold (config s) <= ScaleUpThreshold (config s) + 1 →
  0 <= ScaleDownThreshold (config s) →
  ActiveStreams m' = ActiveStreams m → 0 <= ActiveStreams m < 2 ^ 63 →
  0 < ConnectionCount m → ConnectionCount m' = ConnectionCount m + 1 →
  ~ (ScaleUpThreshold (config s) < avgStreamsPerConn m ∧ Evaluate now m' s = ScaleDown).
Proof.
  intros Ht Hd Ha Hr Hc Hc' [Hup Hdown].
  apply Evaluate_down in Hdown as (_ & _ & Hdown). unfold wants_down in Hdown.
  apply andb_prop in Hdown as [Hdown _]. apply bool_decide_eq_true in Hdown.
  rewrite avg_div, Ha, Hc' in Hdown by lia. rewrite avg_div in Hup by lia.
  set (n := ConnectionCount m) in *. set (a := ActiveStreams m) in *.
  pose proof (Z.mul_div_le a n ltac:(lia)).
  pose proof (Z.mul_succ_div_gt a (n + 1) ltac:(lia)). nia.
Qed.

End scaler.

Definition demo_metrics (streams count : Z) : Metrics := mkMetrics streams streams count 0 0 0 0.

Lemma Evaluate_bounds_witness :
  Evaluate (40 * Second) (demo_metrics 0 0) (NewAutoScaler DefaultConfig 0) = ScaleUp.
Proof.
  refine (proj1 (proj2 (proj2 (Evaluate_bounds (40 * Second) (demo_metrics 0 0)
            (NewAutoScaler DefaultConfig 0) _ _))) _ _); [|done|done|done].
  unfold valid. cbn. unfold Second, Millisecond. lia.
Defined.

Lemma scaling_does_not_flap_witness :
  avgStreamsPerConn (demo_metrics 801 1) = 801 ∧
  Evaluate (40 * Second) (demo_metrics 801 2) (NewAutoScaler DefaultConfig 0) ≠ ScaleDown.
Proof.
  split; [by vm_compute|]. intros H.
  refine (scaling_does_not_flap (40 * Second) (demo_metrics 801 1) (demo_metrics 801 2)
            (NewAutoScaler DefaultConfig 0) _ _ eq_refl _ _ eq_refl (conj _ H)); by vm_compute.
Defined.
