(* ===== verification/Pool.v ===== *)
(** * pool/pool.go: the connection pool

    The pool runs in a state with the heap of MuxConn.v and the streams it wraps.  Each
    method is verified against the [Selector] interface; [onNewConn], the factory the
    application passes to [Start], is a method of which only its contract is known, and
    which may change the state as any concurrent call could. *)
From S2P Require Import Prelude MuxConfig PoolConfig Commands GoIO Wire Metrics.
From S2P Require MuxConn.
From S2P Require Import Selector Scaler.
Import MuxConn (heap).

Record Pool := mkPool {
  p_config : Config;
  connections : list nat;
  p_metrics : Metrics;
  scaler : AutoScaler;
  has_factory : bool;   (* p.onNewConn != nil *)
  cancel_set : bool     (* p.cancel != nil *)
}.

Record poolTrackedStream := mkPTracked {
  ps_Conn : nat;
  ps_once : bool
}.

Record st := mkSt {
  pool : Pool;
  hp : heap;
  pstreams : gmap nat poolTrackedStream
}.

#[export] Instance poolTrackedStream_inhabited : Inhabited poolTrackedStream :=
  populate (mkPTracked 0%nat false).

(** [config] may be nil; an invalid one panics, which is [None].  The caller's
    configuration is updated through the pointer, and is the pool's. *)
Definition New (config : option Config) (now : Z) : option Pool :=
  let '(c, r) := Validate (default DefaultConfig config) in
  match r with
  | Err _ => None
  | Ok _ => Some (mkPool c [] NewMetrics (NewAutoScaler c now) false false)
  end.

Definition set_pool (f : Pool → Pool) (s : st) : st := mkSt (f (pool s)) (hp s) (pstreams s).
Definition set_heap (h : heap) (s : st) : st := mkSt (pool s) h (pstreams s).

(** [p.connections = ...; p.metrics.SetConnectionCount(len(p.connections))] *)
Definition set_connections (l : list nat) (p : Pool) : Pool :=
  mkPool (p_config p) l (SetConnectionCount (Z.of_nat (length l)) (p_metrics p)) (scaler p)
    (has_factory p) (cancel_set p).
Definition on_metrics (f : Metrics → Metrics) (p : Pool) : Pool :=
  mkPool (p_config p) (connections p) (f (p_metrics p)) (scaler p) (has_factory p) (cancel_set p).
Definition on_scaler (f : AutoScaler → AutoScaler) (p : Pool) : Pool :=
  mkPool (p_config p) (connections p) (p_metrics p) (f (scaler p)) (has_factory p) (cancel_set p).
Definition set_started (factory : bool) (p : Pool) : Pool :=
  mkPool (p_config p) (connections p) (p_metrics p) (scaler p) factory true.

(** A method of a [MuxConn] or of its streams. *)
Definition on_heap {A} : M heap A → M st A := zoom hp set_heap.

(** The connections' numbers of streams, as a selector sees them. *)
Definition num (s : st) : nat → Z := MuxConn.NumStreams (hp s).

Section pool.
Context `{Sel : Selector}.

(** [factory] says whether the function passed is not nil; the goroutine [Start]
    launches is [monitorAndScale], below. *)
Definition Start (factory : bool) : M st () :=
  modify (set_pool (set_started factory));;
  lift (call_ (CGo GMonitor)).

Definition AddConnection (conn : nat) : M st () :=
  s ← get;
  let l := connections (pool s) in
  if decide (MaxConnections (p_config (pool s)) <= Z.of_nat (length l)) then
    throw (Errorf "pool is at maximum capacity" [])
  else modify (set_pool (set_connections (l ++ [conn]))).

(** [append(l[:i], l[i+1:]...)] *)
Definition remove_at (i : nat) (l : list nat) : list nat := take i l ++ drop (S i) l.

Definition RemoveConnection (conn : nat) : M st () :=
  s ← get;
  match list_find (λ c, c = conn) (connections (pool s)) with
  | None => throw (Errorf "connection not found in pool" [])
  | Some (i, c) =>
      _ ← attempt (on_heap (MuxConn.Close c));
      modify (set_pool (λ p, set_connections (remove_at i (connections p)) p))
  end.

(** [&poolTrackedStream{Conn: stream, onClose: p.metrics.DecrementActiveStreams}] *)
Definition new_ptracked (stream : nat) : M st nat := λ s,
  let t := fresh (dom (pstreams s)) in
  Ret (mkSt (pool s) (hp s) (<[t := mkPTracked stream false]> (pstreams s)), Ok t).

Definition OpenStream : M st nat :=
  s ← get;
  match Select (num s) (connections (pool s)) with
  | None => throw (Errorf "no connections available in pool" [])
  | Some conn =>
      stream ← wrap "failed to open stream: %w" (on_heap (MuxConn.OpenStream conn));
      modify (set_pool (on_metrics IncrementActiveStreams));;
      new_ptracked stream
  end.

Definition Connections (s : st) : list nat := connections (pool s).

(** [conn.Close()] for each connection, the errors only logged. *)
Fixpoint close_all (l : list nat) : M st () :=
  match l with
  | [] => mret ()
  | c :: l' => _ ← attempt (on_heap (MuxConn.Close c)); close_all l'
  end.

Definition Close : M st () :=
  s ← get;
  (if cancel_set (pool s) then _ ← lift (call_ CCancel); _ ← lift (call_ CWait); mret ()
   else mret ());;
  close_all (connections (pool s));;
  modify (set_pool (set_connections []));;
  mret ().

(** The loop of [scaleDown]: [minStreams] is -1 until a connection has been seen. *)
Fixpoint down_loop (n : nat → Z) (i : nat) (minStreams : Z) (target : option (nat * nat))
    (l : list nat) : option (nat * nat) :=
  match l with
  | [] => target
  | c :: l' =>
      let streams := n c in
      if decide (minStreams = -1 ∨ streams < minStreams) then
        down_loop n (S i) streams (Some (c, i)) l'
      else down_loop n (S i) minStreams target l'
  end.

Definition scaleDown : M st () :=
  s ← get;
  let l := connections (pool s) in
  if decide (Z.of_nat (length l) <= MinConnections (p_config (pool s))) then
    throw (Errorf "already at minimum connections" [])
  else
  match down_loop (num s) 0 (-1) None l with
  | None => throw (Errorf "no connection to remove" [])
  | Some (target, targetIdx) =>
      _ ← attempt (on_heap (MuxConn.Close target));
      modify (set_pool (λ p, set_connections (remove_at targetIdx (connections p)) p))
  end.

(** [Close] of [poolTrackedStream]. *)
Definition ps_once_Do (t : nat) (s : st) : st :=
  let ps := pstreams s !!! t in
  if ps_once ps then s
  else mkSt (on_metrics DecrementActiveStreams (pool s)) (hp s)
         (<[t := mkPTracked (ps_Conn ps) true]> (pstreams s)).

Definition ClosePTracked (t : nat) : M st () :=
  modify (ps_once_Do t);;
  s ← get;
  on_heap (MuxConn.CloseTracked (ps_Conn (pstreams s !!! t))).

Section factory.
Context (onNewConn : M st nat).

Definition scaleUp : M st () :=
  s ← get;
  if decide (MaxConnections (p_config (pool s)) <= Z.of_nat (length (connections (pool s)))) then
    throw (Errorf "already at maximum connections" [])
  else if has_factory (pool s) then
    conn ← wrap "failed to create new connection: %w" onNewConn;
    AddConnection conn
  else throw (Errorf "no connection factory configured" []).

(** [if err := m(); err != nil { log } else { p.scaler.RecordScale() }]; [now] is the
    clock when the change is recorded. *)
Definition scaled (now : Z) (m : M st ()) : M st () :=
  r ← attempt m;
  match r with
  | Err _ => mret ()
  | Ok _ => modify (set_pool (on_scaler (RecordScale now)))
  end.

(** [t0] and [t1] are the clock at the decision and at the record. *)
Definition evaluateScaling (t0 t1 : Z) : M st () :=
  s ← get;
  (match Evaluate t0 (p_metrics (pool s)) (scaler (pool s)) with
   | ScaleUp => scaled t1 scaleUp
   | ScaleDown => scaled t1 scaleDown
   | ScaleNone => mret ()
   end);;
  modify (set_pool (on_metrics ResetLatency)).

(** The goroutine, for the ticks that come before the context is done. *)
Fixpoint monitorAndScale (ticks : list (Z * Z)) : M st () :=
  match ticks with
  | [] => mret ()
  | (t0, t1) :: ticks' => evaluateScaling t0 t1;; monitorAndScale ticks'
  end.

End factory.
End pool.

(** ** The invariant *)

Definition ps_open (kt : nat * poolTrackedStream) : Prop := ps_once kt.2 = false.
#[export] Instance ps_open_dec kt : Decision (ps_open kt).
Proof. unfold ps_open. apply _. Defined.

(** How many of the streams the pool handed out have not been closed. *)
Definition ps_count (s : st) : nat := size (filter ps_open (pstreams s)).

(** The pool holds at most the maximum of connections (the minimum is a bound of the
    scaling only, see [rescaled]), its gauges are exact up to their widths, and the
    pointers it holds are those of the heap. *)
Record pool_ok (s : st) : Prop := mkPoolOk {
  ok_config : valid (p_config (pool s));
  ok_scaler : config (scaler (pool s)) = p_config (pool s);
  ok_max : Z.of_nat (length (connections (pool s))) <= MaxConnections (p_config (pool s));
  ok_count : connectionCount (p_metrics (pool s)) =
               wrap_s 32 (Z.of_nat (length (connections (pool s))));
  ok_conns : Forall (λ c, is_Some (MuxConn.muxes (hp s) !! c)) (connections (pool s));
  ok_heap : MuxConn.accounted (hp s);
  ok_active : activeStreams (p_metrics (pool s)) = wrap_s 64 (Z.of_nat (ps_count s));
  ok_streams : ∀ t ps, pstreams s !! t = Some ps →
                 is_Some (MuxConn.tstreams (hp s) !! ps_Conn ps)
}.

(** The heap only grows. *)
Definition heap_le (h h' : heap) : Prop :=
  dom (MuxConn.muxes h) ⊆ dom (MuxConn.muxes h') ∧
  dom (MuxConn.tstreams h) ⊆ dom (MuxConn.tstreams h').

#[export] Instance heap_le_preorder : PreOrder heap_le.
Proof.
  split; [by intros h; split|]. intros h1 h2 h3 [??] [??]. split; by etransitivity.
Qed.

Section invariant.
Context `{Sel : Selector}.
Implicit Types (s : st).

Lemma on_heap_ok {A} (m : M heap A) s (Q : result A → heap → Prop) :
  pool_ok s →
  wpM m (hp s) (λ _ h' r, MuxConn.accounted h' ∧ heap_le (hp s) h' ∧ Q r h') →
  wpM (on_heap m) s (λ _ s' r,
    pool_ok s' ∧ (∃ h', s' = set_heap h' s) ∧ heap_le (hp s) (hp s') ∧ Q r (hp s')).
Proof.
  intros Hs Hm. unfold on_heap. rewrite wpM_zoom. eapply wp_mono; [exact Hm|].
  intros tr [h' r] (Ha & [Hd1 Hd2] & HQ). split; [|split; [by exists h'|by split]].
  destruct Hs. constructor; cbn; try done.
  - eapply Forall_impl; [eassumption|]. intros c. rewrite <-!elem_of_dom. apply Hd1.
  - intros t ps Hl. apply elem_of_dom, Hd2, elem_of_dom. by eapply ok_streams0.
Qed.

(** Which connections of the heap are closed, before and after closing [m]. *)
Definition closes (h : heap) (m : nat) (h' : heap) : Prop :=
  (is_Some (MuxConn.muxes h !! m) → MuxConn.IsClosed h' m = true) ∧
  ∀ m', MuxConn.IsClosed h m' = true → MuxConn.IsClosed h' m' = true.

Lemma mux_Close_heap m h :
  MuxConn.accounted h →
  wpM (MuxConn.Close m) h (λ _ h' _, MuxConn.accounted h' ∧ heap_le h h' ∧ closes h m h').
Proof.
  intros Ha. wpM_use MuxConn.Close_spec. intros tr h' r.
  destruct (MuxConn.closed _) eqn:Ec; [by intros (_ & -> & _)|]. intros (a & _ & -> & _).
  split; [by apply MuxConn.set_closed_accounted|]. split.
  - split; cbn; [by rewrite dom_alter_L | done].
  - unfold closes, MuxConn.IsClosed, MuxConn.mux. split; cbn.
    + intros [c Hc]. by rewrite lookup_total_alt, lookup_alter_eq, Hc.
    + intros m' Hm'. rewrite lookup_total_alt in *. destruct (decide (m = m')) as [<-|].
      * rewrite lookup_alter_eq. by destruct (MuxConn.muxes h !! m).
      * by rewrite lookup_alter_ne.
Qed.

Lemma CloseTracked_heap t h :
  MuxConn.accounted h → is_Some (MuxConn.tstreams h !! t) →
  wpM (MuxConn.CloseTracked t) h (λ _ h' _, MuxConn.accounted h' ∧ heap_le h h' ∧ True).
Proof.
  intros Ha [ts Hts]. wpM_use MuxConn.CloseTracked_spec. intros tr h' r (-> & _).
  split; [by eapply MuxConn.accounted_once|]. split; [|done]. unfold MuxConn.once_Do.
  destruct (MuxConn.t_once _); [done|]. split; cbn; by rewrite dom_alter_L.
Qed.

Lemma OpenStream_heap m h :
  MuxConn.accounted h → is_Some (MuxConn.muxes h !! m) →
  wpM (MuxConn.OpenStream m) h (λ _ h' r, MuxConn.accounted h' ∧ heap_le h h' ∧
    ∀ t, r = Ok t → is_Some (MuxConn.tstreams h' !! t)).
Proof.
  intros Ha [c Hc]. unfold MuxConn.OpenStream. wpM_use MuxConn.take_stream_spec.
  intros tr h' r. destruct (MuxConn.closed _); [by intros (_ & -> & ->)|].
  intros (a & _ & H). destruct a as [e|stream]; [by destruct H as [-> ->]|].
  destruct H as [-> ->]. split; [by eapply MuxConn.accounted_new|]. split.
  - split; cbn; [by rewrite dom_alter_L|]. rewrite dom_insert_L. set_solver.
  - intros t [= <-]. cbn. rewrite lookup_insert_eq. by eexists.
Qed.

(** Changes of the pool's own fields. *)
Lemma set_connections_ok l s :
  pool_ok s → Z.of_nat (length l) <= MaxConnections (p_config (pool s)) →
  Forall (λ c, is_Some (MuxConn.muxes (hp s) !! c)) l →
  pool_ok (set_pool (set_connections l) s).
Proof. intros [] Hl Hf. by constructor. Qed.

Lemma set_started_ok b s : pool_ok s → pool_ok (set_pool (set_started b) s).
Proof. intros []. by constructor. Qed.

Lemma Start_spec b s :
  wpM (Start b) s (λ tr s' r, tr = [ev (CGo GMonitor) ()] ∧ s' = set_pool (set_started b) s ∧ r = Ok ()).
Proof. unfold Start. rewrite wpM_bind, wpM_modify, wpM_lift. cbn [wp call_]. by intros []. Qed.

Lemma remove_at_length i l : (i < length l)%nat → S (length (remove_at i l)) = length l.
Proof. intros. unfold remove_at. rewrite length_app, length_take, length_drop. lia. Qed.

Lemma remove_at_sublist i l : remove_at i l `sublist_of` l.
Proof.
  unfold remove_at. rewrite <-(take_drop i l) at 3. apply sublist_app; [done|].
  rewrite <-(take_drop 1 (drop i l)), drop_drop. replace (i + 1)%nat with (S i) by lia.
  by apply sublist_inserts_l.
Qed.

Lemma remove_at_ok i s :
  pool_ok s → pool_ok (set_pool (λ p, set_connections (remove_at i (connections p)) p) s).
Proof.
  intros Hs. change (pool_ok (set_pool (set_connections (remove_at i (connections (pool s)))) s)).
  pose proof (remove_at_sublist i (connections (pool s))) as Hsub.
  apply set_connections_ok; [done| |].
  - apply sublist_length in Hsub. destruct Hs. lia.
  - destruct Hs. rewrite Forall_forall in *. intros c Hc. apply ok_conns0.
    by eapply elem_of_sublist.
Qed.

Lemma AddConnection_ok c s :
  pool_ok s → is_Some (MuxConn.muxes (hp s) !! c) →
  wpM (AddConnection c) s (λ _ s' _, pool_ok s').
Proof.
  intros Hs Hc. unfold AddConnection. rewrite wpM_bind, wpM_get.
  case_decide; [by rewrite wpM_throw|]. rewrite wpM_modify.
  apply set_connections_ok; [done|rewrite length_app; cbn; lia|].
  apply Forall_app. split; [by destruct Hs|]. by constructor.
Qed.

Lemma RemoveConnection_ok c s : pool_ok s → wpM (RemoveConnection c) s (λ _ s' _, pool_ok s').
Proof.
  intros Hs. unfold RemoveConnection. rewrite wpM_bind, wpM_get.
  destruct (list_find _ _) as [[i c']|]; [|by rewrite wpM_throw].
  rewrite wpM_bind, wpM_attempt. wpM_use (on_heap_ok _ s (λ _ h', closes (hp s) c' h') Hs (mux_Close_heap c' _ (ok_heap _ Hs))).
  intros tr s' r (Hs' & _). rewrite wpM_modify. by apply remove_at_ok.
Qed.

(** The stream handed out is a new one, and open. *)
Lemma OpenStream_tracked s :
  pool_ok s → wpM OpenStream s (λ _ s' r, pool_ok s' ∧
    match r with
    | Ok t => pstreams s !! t = None ∧ ∃ c, pstreams s' = <[t := mkPTracked c false]> (pstreams s)
    | Err _ => pstreams s' = pstreams s
    end).
Proof.
  intros Hs. unfold OpenStream. rewrite wpM_bind, wpM_get.
  destruct (Select _ _) as [c|] eqn:E; [|by rewrite wpM_throw].
  rewrite wpM_bind, wpM_wrap. eapply wpM_mono.
  { apply (on_heap_ok _ s _ Hs (OpenStream_heap c _ (ok_heap _ Hs)
      (proj1 (Forall_forall _ _) (ok_conns _ Hs) c (Select_member _ _ _ E)))). }
  intros tr s' [t|e] (Hs' & [h' ->] & _ & Ht); cbn; [|done].
  rewrite wpM_bind, wpM_modify. unfold new_ptracked. cbn.
  specialize (Ht t eq_refl). set (u := fresh (dom (pstreams s))).
  assert (pstreams s !! u = None) as Hf by (apply not_elem_of_dom, is_fresh).
  split; [|by eauto]. destruct Hs'. constructor; cbn in *; try done.
  - unfold ps_count in *. cbn in *. rewrite map_filter_insert_True by done.
    rewrite map_size_insert_None by (apply map_lookup_filter_None; by left).
    rewrite ok_active0, wrap_s_add_l. f_equal. lia.
  - intros t' ps. destruct (decide (t' = u)) as [->|].
    + rewrite lookup_insert_eq. by intros [= <-].
    + rewrite lookup_insert_ne by done. apply ok_streams0.
Qed.

Lemma OpenStream_ok s : pool_ok s → wpM OpenStream s (λ _ s' _, pool_ok s').
Proof. intros Hs. wpM_use (OpenStream_tracked s Hs). by intros tr s' r [H _]. Qed.

(** Closing a stream counts once. *)
Lemma ps_once_Do_count t c s :
  pstreams s !! t = Some (mkPTracked c false) →
  S (ps_count (ps_once_Do t s)) = ps_count s.
Proof.
  intros Ht. unfold ps_once_Do. rewrite (lookup_total_correct _ _ _ Ht). unfold ps_count. cbn.
  rewrite map_filter_insert_False by done. rewrite map_filter_delete.
  rewrite map_size_delete_Some by (eexists; by apply map_lookup_filter_Some_2).
  assert (0 < size (filter ps_open (pstreams s)))%nat; [|lia].
  apply Nat.neq_0_lt_0, map_size_ne_0_lookup. exists t. eexists. by apply map_lookup_filter_Some_2.
Qed.

Lemma ps_once_Do_ok t s :
  pool_ok s → is_Some (pstreams s !! t) →
  pool_ok (ps_once_Do t s) ∧ is_Some (pstreams (ps_once_Do t s) !! t).
Proof.
  intros Hs [[c o] Hps]. pose proof (ps_once_Do_count t c s) as Hc. unfold ps_once_Do in *.
  rewrite (lookup_total_correct _ _ _ Hps) in *. cbn in *. destruct o; cbn in *; [by eauto|].
  split; [|rewrite lookup_insert_eq; by eexists]. specialize (Hc Hps).
  destruct Hs. constructor; cbn; try done.
  - rewrite ok_active0. unfold Z.sub. rewrite wrap_s_add_l. f_equal. lia.
  - intros t' p'. destruct (decide (t' = t)) as [->|].
    + rewrite lookup_insert_eq. intros [= <-]. cbn. by eapply (ok_streams0 _ _ Hps).
    + rewrite lookup_insert_ne by done. apply ok_streams0.
Qed.

Lemma ClosePTracked_tracked t s :
  pool_ok s → is_Some (pstreams s !! t) →
  wpM (ClosePTracked t) s (λ _ s' _, pool_ok s' ∧ pstreams s' = pstreams (ps_once_Do t s)).
Proof.
  intros Hs Hps. unfold ClosePTracked. rewrite wpM_bind, wpM_modify, wpM_bind, wpM_get.
  destruct (ps_once_Do_ok t s Hs Hps) as [Hs' [ps' Hps']].
  rewrite (lookup_total_correct _ _ _ Hps'). eapply wpM_mono.
  { apply (on_heap_ok _ _ (λ _ _, True) Hs'), CloseTracked_heap; [by destruct Hs'|].
    by eapply (ok_streams _ Hs'). }
  by intros tr s' r (H & [h' ->] & _).
Qed.

Lemma ClosePTracked_ok t s :
  pool_ok s → is_Some (pstreams s !! t) → wpM (ClosePTracked t) s (λ _ s' _, pool_ok s').
Proof. intros Hs Ht. wpM_use (ClosePTracked_tracked t s Hs Ht). by intros tr s' r [H _]. Qed.

Lemma close_all_ok l s :
  pool_ok s → Forall (λ c, is_Some (MuxConn.muxes (hp s) !! c)) l →
  wpM (close_all l) s (λ _ s' r, r = Ok () ∧ pool_ok s' ∧
    Forall (λ c, MuxConn.IsClosed (hp s') c = true) l ∧
    ∀ c, MuxConn.IsClosed (hp s) c = true → MuxConn.IsClosed (hp s') c = true).
Proof.
  revert s. induction l as [|c l IH]; intros s Hs Hl; cbn [close_all]; [by rewrite wpM_ret|].
  apply Forall_cons in Hl as [Hc Hl]. rewrite wpM_bind, wpM_attempt.
  wpM_use (on_heap_ok _ s (λ _ h', closes (hp s) c h') Hs (mux_Close_heap c _ (ok_heap _ Hs))).
  intros tr s' r (Hs' & [h' E] & [Hle _] & [Hcl Hmono]). eapply wpM_mono; [apply IH; [done|]|].
  - eapply Forall_impl; [exact Hl|]. intros x. rewrite <-!elem_of_dom. apply Hle.
  - intros tr' s'' r' (-> & ? & Hf & Hm). split; [done|]. split; [done|]. auto.
Qed.

Lemma Close_ok s :
  pool_ok s → wpM Close s (λ _ s' r, r = Ok () ∧ pool_ok s' ∧ connections (pool s') = [] ∧
    Forall (λ c, MuxConn.IsClosed (hp s') c = true) (connections (pool s))).
Proof.
  intros Hs. unfold Close.
  assert (wpM (close_all (connections (pool s));; modify (set_pool (set_connections []));; mret ()) s
            (λ _ s' r, r = Ok () ∧ pool_ok s' ∧ connections (pool s') = [] ∧
               Forall (λ c, MuxConn.IsClosed (hp s') c = true) (connections (pool s)))) as H.
  { rewrite wpM_bind. eapply wpM_mono; [apply (close_all_ok (connections (pool s)) s Hs); by destruct Hs|].
    intros tr s' r (-> & Hs' & Hf & _). rewrite wpM_bind, wpM_modify, wpM_ret.
    split; [done|]. split; [|done]. apply set_connections_ok; [done| |done].
    destruct (ok_config _ Hs'). cbn. lia. }
  rewrite wpM_bind, wpM_get, wpM_bind. destruct (cancel_set (pool s)); [|by rewrite wpM_ret].
  rewrite wpM_bind, wpM_lift. cbn [wp call_]. intros [].
  rewrite wpM_bind, wpM_lift. cbn [wp call_]. intros [].
  rewrite wpM_ret. exact H.
Qed.

(** ** Shrinking *)

Lemma down_loop_least n i mn tgt tgti l :
  Forall (λ c, 0 <= n c) l → 0 <= mn → mn = n tgt →
  ∃ k, down_loop n i mn (Some (tgt, tgti)) l = Some (least_loop n tgt mn l, k) ∧
    (k = tgti ∧ least_loop n tgt mn l = tgt ∨
     ∃ j, k = (i + j)%nat ∧ l !! j = Some (least_loop n tgt mn l)).
Proof.
  revert i mn tgt tgti. induction l as [|c l IH]; intros i mn tgt tgti Hl Hmn ->; cbn.
  - exists tgti. by split; [|left].
  - apply Forall_cons in Hl as [Hc Hl].
    destruct (decide (n c < n tgt)) as [Hlt|Hge].
    + rewrite decide_True by (by right).
      destruct (IH (S i) (n c) c i Hl Hc eq_refl) as (k & -> & Hk). exists k. split; [done|].
      right. destruct Hk as [[-> ->]|(j & -> & Hj)]; [exists 0%nat|exists (S j)];
        (split; [lia|done]).
    + rewrite decide_False by lia.
      destruct (IH (S i) (n tgt) tgt tgti Hl Hmn eq_refl) as (k & -> & Hk). exists k.
      split; [done|]. destruct Hk as [[-> ->]|(j & -> & Hj)]; [by left|].
      right. exists (S j). split; [lia|done].
Qed.

(** The loop of [scaleDown] finds what the default selector selects, and where. *)
Lemma down_loop_Select n l :
  Forall (λ c, 0 <= n c) l →
  match least_Select n l with
  | None => down_loop n 0 (-1) None l = None
  | Some c => ∃ k, down_loop n 0 (-1) None l = Some (c, k) ∧ l !! k = Some c
  end.
Proof.
  destruct l as [|c l]; [done|]. intros [Hc Hl]%Forall_cons. cbn.
  destruct (down_loop_least n 1 (n c) c 0 l Hl Hc eq_refl) as (k & -> & Hk).
  exists k. split; [done|]. destruct Hk as [[-> ->]|(j & -> & Hj)]; done.
Qed.

(** The factory's contract: it keeps the invariant and returns a connection of the heap.
    What else changes while it runs is left open, as any other method of the pool may run
    then; what the listener's factory does is in Listener.v. *)
Definition factory_ok (onNewConn : M st nat) : Prop := ∀ s, pool_ok s →
  wpM onNewConn s (λ _ s' r, pool_ok s' ∧
    ∀ c, r = Ok c → is_Some (MuxConn.muxes (hp s') !! c)).

Lemma scaleDown_spec s :
  pool_ok s → Forall (λ c, 0 <= num s c) (connections (pool s)) →
  wpM scaleDown s (λ tr s' r,
    let l := connections (pool s) in
    if decide (Z.of_nat (length l) <= MinConnections (p_config (pool s))) then
      tr = [] ∧ s' = s ∧ r = Err (Errorf "already at minimum connections" [])
    else ∃ i c, l !! i = Some c ∧ first_min (num s) l c ∧ r = Ok () ∧ pool_ok s' ∧
      connections (pool s') = remove_at i l ∧ MuxConn.IsClosed (hp s') c = true).
Proof.
  intros Hs Hn. unfold scaleDown. rewrite wpM_bind, wpM_get. cbn zeta.
  case_decide as Hmin; [by rewrite wpM_throw|].
  pose proof (down_loop_Select (num s) (connections (pool s)) Hn) as Hd.
  destruct (least_Select (num s) (connections (pool s))) as [c|] eqn:E.
  2: { apply least_Select_nil in E. exfalso. apply Hmin. rewrite E. cbn.
       destruct (ok_config _ Hs). lia. }
  destruct Hd as (k & -> & Hk). rewrite wpM_bind, wpM_attempt.
  wpM_use (on_heap_ok _ s (λ _ h', closes (hp s) c h') Hs (mux_Close_heap c _ (ok_heap _ Hs))).
  intros tr s' r (Hs' & [h' ->] & _ & [Hc _]). rewrite wpM_modify. exists k, c.
  split; [done|]. split; [by apply least_Select_spec|]. split; [done|].
  split; [by apply remove_at_ok|]. split; [done|]. apply Hc.
  destruct Hs. rewrite Forall_forall in *. apply ok_conns0. by eapply list_elem_of_lookup_2.
Qed.

Lemma scaleDown_ok s : pool_ok s → wpM scaleDown s (λ _ s' _, pool_ok s').
Proof.
  intros Hs. unfold scaleDown. rewrite wpM_bind, wpM_get. cbn zeta.
  case_decide; [by rewrite wpM_throw|]. destruct (down_loop _ _ _ _ _) as [[c k]|]; [|by rewrite wpM_throw].
  rewrite wpM_bind, wpM_attempt.
  wpM_use (on_heap_ok _ s (λ _ h', closes (hp s) c h') Hs (mux_Close_heap c _ (ok_heap _ Hs))).
  intros tr s' r (Hs' & _). rewrite wpM_modify. by apply remove_at_ok.
Qed.

Lemma scaleUp_ok f s : factory_ok f → pool_ok s → wpM (scaleUp f) s (λ _ s' _, pool_ok s').
Proof.
  intros Hf Hs. unfold scaleUp. rewrite wpM_bind, wpM_get. case_decide; [by rewrite wpM_throw|].
  destruct (has_factory _); [|by rewrite wpM_throw]. rewrite wpM_bind, wpM_wrap.
  eapply wpM_mono; [by apply Hf|]. intros tr s' [c|e] [Hs' Hc]; cbn; [|done].
  apply AddConnection_ok; [done|]. by apply Hc.
Qed.

Lemma on_scaler_ok t s : pool_ok s → pool_ok (set_pool (on_scaler (RecordScale t)) s).
Proof. intros []. by constructor. Qed.

Lemma ResetLatency_ok s : pool_ok s → pool_ok (set_pool (on_metrics ResetLatency) s).
Proof. intros []. by constructor. Qed.

Lemma evaluateScaling_ok f t0 t1 s :
  factory_ok f → pool_ok s → wpM (evaluateScaling f t0 t1) s (λ _ s' _, pool_ok s').
Proof.
  intros Hf Hs. unfold evaluateScaling.
  assert (∀ m : M st (), wpM m s (λ _ s' _, pool_ok s') →
            wpM (scaled t1 m) s (λ _ s' r, pool_ok s' ∧ r = Ok ())) as Hm.
  { intros m H. unfold scaled. rewrite wpM_bind, wpM_attempt. eapply wpM_mono; [exact H|].
    intros tr s' [[]|e] Hs'; cbn; [rewrite wpM_modify | rewrite wpM_ret]; split; try done.
    by apply on_scaler_ok. }
  rewrite wpM_bind, wpM_get, wpM_bind.
  eapply wpM_mono with (Q := λ _ s' r, pool_ok s' ∧ r = Ok ()).
  - destruct (Evaluate _ _ _); [by rewrite wpM_ret|apply Hm..];
      [by apply scaleUp_ok | by apply scaleDown_ok].
  - intros tr s' r [Hs' ->]. rewrite wpM_modify. by apply ResetLatency_ok.
Qed.

Lemma monitor_ok f ticks s :
  factory_ok f → pool_ok s → wpM (monitorAndScale f ticks) s (λ _ s' _, pool_ok s').
Proof.
  intros Hf. revert s. induction ticks as [|[t0 t1] ticks IH]; intros s Hs; cbn [monitorAndScale]; [done|].
  rewrite wpM_bind. eapply wpM_mono; [by apply evaluateScaling_ok|].
  intros tr s' [[]|e] Hs'; [by apply IH | done].
Qed.

(** ** What scaling does to the connections *)

(** The change the decision [a] makes to a pool: none, or one connection less, which is
    closed and idlest as long as the counters are counts, and only above the minimum; or
    one more, only below the maximum, which is looked at again when the factory, which
    may run beside anything, has returned. *)
Definition rescaled (f : M st nat) (a : ScaleAction) s s' : Prop :=
  let l := connections (pool s) in
  let cfg := p_config (pool s) in
  match a with
  | ScaleNone => connections (pool s') = l
  | ScaleDown =>
      if decide (Z.of_nat (length l) <= MinConnections cfg) then connections (pool s') = l
      else MinConnections cfg <= Z.of_nat (length (connections (pool s'))) ∧
        ∃ i c, l !! i = Some c ∧ connections (pool s') = remove_at i l ∧
          MuxConn.IsClosed (hp s') c = true ∧
          (Forall (λ c, 0 <= num s c) l → first_min (num s) l c)
  | ScaleUp =>
      if decide (MaxConnections cfg <= Z.of_nat (length l)) then connections (pool s') = l
      else if has_factory (pool s) then
        ∃ tr s1 r, traces (f s) tr (s1, r) ∧
          connections (pool s') = connections (pool s1) ++
            match r with
            | Ok c => if decide (MaxConnections (p_config (pool s1)) <=
                                 Z.of_nat (length (connections (pool s1)))) then [] else [c]
            | Err _ => []
            end
      else connections (pool s') = l
  end.

Lemma rescaled_ext f a s s1 s2 :
  connections (pool s1) = connections (pool s2) → hp s1 = hp s2 →
  rescaled f a s s1 → rescaled f a s s2.
Proof. intros E1 E2. unfold rescaled. by rewrite E1, E2. Qed.

(** The loop of [scaleDown] finds a connection of the list, whatever the counters. *)
Lemma down_loop_member n i mn tgt l k c :
  down_loop n i mn (Some tgt) l = Some (c, k) →
  tgt = (c, k) ∨ ∃ j, k = (i + j)%nat ∧ l !! j = Some c.
Proof.
  revert i mn tgt. induction l as [|x l IH]; intros i mn tgt; cbn; [intros [= ->]; by left|].
  case_decide; intros [H'|(j & -> & Hj)]%IH.
  - injection H' as -> ->. right. exists 0%nat. by split; [lia|].
  - right. exists (S j). by split; [lia|].
  - by left.
  - right. exists (S j). by split; [lia|].
Qed.

Lemma down_loop_some n i mn tgt l : is_Some (down_loop n i mn (Some tgt) l).
Proof. revert i mn tgt. induction l as [|x l IH]; intros; cbn; [by eexists|]. by case_decide. Qed.

Lemma scaleDown_rescaled f s :
  pool_ok s → wpM scaleDown s (λ _ s' _, rescaled f ScaleDown s s').
Proof.
  intros Hs. unfold scaleDown. rewrite wpM_bind, wpM_get. cbn zeta. unfold rescaled.
  case_decide as Hmin; [by rewrite wpM_throw|].
  assert (∃ c k, down_loop (num s) 0 (-1) None (connections (pool s)) = Some (c, k) ∧
    connections (pool s) !! k = Some c ∧
    (Forall (λ c, 0 <= num s c) (connections (pool s)) → first_min (num s) (connections (pool s)) c))
    as (c & k & Hd & Hk & Hfm).
  { pose proof (down_loop_Select (num s) (connections (pool s))) as HS.
    destruct (connections (pool s)) as [|x l] eqn:El; [destruct (ok_config _ Hs); cbn in *; lia|].
    cbn [down_loop] in *. rewrite decide_True in * by (by left).
    destruct (down_loop_some (num s) 1 (num s x) (x, 0%nat) l) as [[c k] E]. exists c, k.
    split; [done|]. split.
    - apply down_loop_member in E as [[= <- <-]|(j & -> & Hj)]; [done|exact Hj].
    - intros Hn. specialize (HS Hn). destruct (least_Select _ _) as [c'|] eqn:Es; [|congruence].
      destruct HS as (k' & E' & _). rewrite E in E'. injection E' as <- _.
      by apply least_Select_spec. }
  rewrite Hd, wpM_bind, wpM_attempt.
  wpM_use (on_heap_ok _ s (λ _ h', closes (hp s) c h') Hs (mux_Close_heap c _ (ok_heap _ Hs))).
  intros tr s' r (Hs' & [h' ->] & _ & [Hc _]). rewrite wpM_modify. cbn in *.
  pose proof (remove_at_length k _ (lookup_lt_Some _ _ _ Hk)).
  split; [lia|]. exists k, c. do 2 (split; [done|]). split; [|exact Hfm]. apply Hc.
  eapply (proj1 (Forall_forall _ _) (ok_conns _ Hs)). by eapply list_elem_of_lookup_2.
Qed.

Lemma scaleUp_rescaled f s : wpM (scaleUp f) s (λ _ s' _, rescaled f ScaleUp s s').
Proof.
  unfold scaleUp, rescaled. rewrite wpM_bind, wpM_get. case_decide; [by rewrite wpM_throw|].
  destruct (has_factory _); [|by rewrite wpM_throw]. rewrite wpM_bind, wpM_wrap. apply wpM_traces.
  intros tr s1 [c|e] Htr; cbn.
  - unfold AddConnection. rewrite wpM_bind, wpM_get. cbn zeta. case_decide as Hc.
    + rewrite wpM_throw. exists tr, s1, (Ok c). by rewrite decide_True, app_nil_r.
    + rewrite wpM_modify. exists tr, s1, (Ok c). by rewrite decide_False.
  - exists tr, s1, (Err e). by rewrite app_nil_r.
Qed.

(** A tick makes the change that was decided. *)
Lemma evaluateScaling_rescaled f t0 t1 s :
  pool_ok s → wpM (evaluateScaling f t0 t1) s (λ _ s' _,
    rescaled f (Evaluate t0 (p_metrics (pool s)) (scaler (pool s))) s s').
Proof.
  intros Hs. unfold evaluateScaling. rewrite wpM_bind, wpM_get, wpM_bind.
  set (a := Evaluate _ _ _).
  assert (∀ m : M st (), wpM m s (λ _ s' _, rescaled f a s s') →
            wpM (scaled t1 m) s (λ _ s' r, rescaled f a s s' ∧ r = Ok ())) as Hm.
  { intros m H. unfold scaled. rewrite wpM_bind, wpM_attempt. eapply wpM_mono; [exact H|].
    intros tr s' [[]|e] Hs'; cbn; [rewrite wpM_modify | rewrite wpM_ret]; (split; [|done]); [|done].
    by eapply rescaled_ext; [..|exact Hs']. }
  eapply wpM_mono with (Q := λ _ s' r, rescaled f a s s' ∧ r = Ok ()).
  - destruct a; [by rewrite wpM_ret|apply Hm..]; [apply scaleUp_rescaled|by apply scaleDown_rescaled].
  - intros tr s' r [Hr ->]. rewrite wpM_modify. by eapply rescaled_ext; [..|exact Hr].
Qed.

(** ** Runs of the pool *)

(** The methods of the pool, of its connections and of its streams, called in any order.
    A tick of the monitor is one of them, and so are the changes it decides on, which come
    after the decision and may find another pool. *)
Inductive pool_step (f : M st nat) s : st → Prop :=
  | step_method (m : M st ()) tr s' r :
      (∃ b, m = Start b) ∨ (∃ c, is_Some (MuxConn.muxes (hp s) !! c) ∧ m = AddConnection c) ∨
      (∃ c, m = RemoveConnection c) ∨ m = Close ∨
      (∃ t, is_Some (pstreams s !! t) ∧ m = ClosePTracked t) ∨
      (∃ t0 t1, m = evaluateScaling f t0 t1) ∨ m = scaleUp f ∨ m = scaleDown →
      traces (m s) tr (s', r) → pool_step f s s'
  | step_open tr s' r : traces (OpenStream s) tr (s', r) → pool_step f s s'
  | step_new_mux ses ct now :
      pool_step f s (set_heap (MuxConn.NewMuxConn ses ct now (hp s)).2 s).

Lemma pool_step_ok f s s' : factory_ok f → pool_ok s → pool_step f s s' → pool_ok s'.
Proof.
  intros Hf Hs [m tr s1 r Hm Htr|tr s1 r Htr|ses ct now].
  - eapply (proj1 (wpM_traces m s (λ _ s' _, pool_ok s'))); [|exact Htr].
    destruct Hm as [[b ->]|[(c & Hc & ->)|[[c ->]|[->|[(t & Ht & ->)|[(t0 & t1 & ->)|[->| ->]]]]]]].
    + wpM_use Start_spec. intros ??? (_ & -> & _). by apply set_started_ok.
    + by apply AddConnection_ok.
    + by apply RemoveConnection_ok.
    + eapply wpM_mono; [by apply Close_ok|]. by intros ??? (_ & ? & _).
    + by apply ClosePTracked_ok.
    + by apply evaluateScaling_ok.
    + by apply scaleUp_ok.
    + by apply scaleDown_ok.
  - by apply (proj1 (wpM_traces _ _ _) (OpenStream_ok s Hs) _ _ _ Htr).
  - destruct Hs. constructor; cbn; try done.
    + eapply Forall_impl; [eassumption|]. intros c Hc. cbn.
      destruct (decide (c = fresh (dom (MuxConn.muxes (hp s))))) as [->|].
      * rewrite lookup_insert_eq. by eexists.
      * by rewrite lookup_insert_ne.
    + by apply (MuxConn.NewMuxConn_accounted ses ct now).
Qed.

Lemma pool_steps_ok f s s' : factory_ok f → pool_ok s → rtc (pool_step f) s s' → pool_ok s'.
Proof.
  intros Hf Hs Hr. induction Hr as [s|s1 s2 s3 H12 H23 IH]; [done|].
  apply IH. by eapply pool_step_ok.
Qed.

Lemma New_ok cfg now p h :
  New cfg now = Some p → MuxConn.accounted h → pool_ok (mkSt p h ∅).
Proof.
  unfold New. intros H Hh. destruct (Validate _) as [c [[]|e]] eqn:E; [|done]. injection H as <-.
  apply Validate_Ok in E. constructor; cbn; try done.
  destruct E. lia.
Qed.

(** ** Properties *)

(** The capacity is checked again once the factory has returned: a connection that
    arrives when the pool has filled up meanwhile is refused, and nothing closes it. *)
Lemma scaleUp_full_leaks f s tr s1 c :
  Z.of_nat (length (connections (pool s))) < MaxConnections (p_config (pool s)) →
  has_factory (pool s) = true →
  traces (f s) tr (s1, Ok c) →
  MaxConnections (p_config (pool s1)) <= Z.of_nat (length (connections (pool s1))) →
  traces (scaleUp f s) tr (s1, Err (Errorf "pool is at maximum capacity" [])).
Proof.
  intros Hs Hf Htr Hfull. unfold scaleUp. change ((get ≫= ?g) s) with (g s s). cbn beta.
  rewrite decide_False, Hf by lia. unfold mbind at 1, M_bind. rewrite traces_bind.
  exists tr, (s1, Ok c), []. rewrite app_nil_r. split; [done|]. split.
  - unfold wrap. rewrite traces_bind. exists tr, (s1, Ok c), []. by rewrite app_nil_r.
  - cbn. unfold AddConnection. change ((get ≫= ?g) s1) with (g s1 s1). cbn beta zeta.
    by rewrite decide_True.
Qed.

(** C27: From a pool [New] returned, whatever methods are called in whatever order (ticks
    of the monitor included, with any selector and any factory that keeps to its
    contract), the pool never holds more than the maximum of connections; its connection
    gauge is the number of its connections and its stream gauge the number of streams it
    handed out that are not closed, up to their 32 and 64 bits; and the counters of its
    connections are exact up to theirs.  A tick changes the connections as was decided
    from the metrics and in no other way: shrinking takes exactly one, closed and, as long
    as the counters have not wrapped, the idlest, and never leaves fewer than the minimum;
    growing adds at most the one connection the factory returned to those there are then,
    with the maximum looked at before and after.  The minimum is not a bound of the pool,
    which starts empty. *)
Theorem pool_invariant f cfg now p h s :
  factory_ok f → New cfg now = Some p → MuxConn.accounted h →
  rtc (pool_step f) (mkSt p h ∅) s →
  pool_ok s ∧
  (∀ tr s' r, traces (scaleDown s) tr (s', r) → rescaled f ScaleDown s s') ∧
  (∀ tr s' r, traces (scaleUp f s) tr (s', r) → rescaled f ScaleUp s s') ∧
  (∀ t0 t1 tr s' r, traces (evaluateScaling f t0 t1 s) tr (s', r) →
     rescaled f (Evaluate t0 (p_metrics (pool s)) (scaler (pool s))) s s').
Proof.
  intros Hf Hp Hh Hr. assert (pool_ok s) as Hs
    by (eapply pool_steps_ok; [done | by eapply New_ok | exact Hr]).
  split; [exact Hs|]. split_and!; intros *; intros Htr.
  - exact (wpM_trace _ _ _ _ _ _ (scaleDown_rescaled f s Hs) Htr).
  - exact (wpM_trace _ _ _ _ _ _ (scaleUp_rescaled f s) Htr).
  - exact (wpM_trace _ _ _ _ _ _ (evaluateScaling_rescaled f t0 t1 s Hs) Htr).
Qed.

(** Scaling down above the minimum closes and removes exactly one connection, the
    first of those that carry the fewest streams, and leaves at least the minimum; at
    the minimum it changes nothing. *)
Lemma scaleDown_removes_idlest s tr s' r :
  pool_ok s → Forall (λ c, 0 <= num s c) (connections (pool s)) →
  traces (scaleDown s) tr (s', r) →
  let l := connections (pool s) in
  if decide (Z.of_nat (length l) <= MinConnections (p_config (pool s))) then
    s' = s ∧ tr = [] ∧ is_Ok r = false
  else
    r = Ok () ∧ (∃ i c, l !! i = Some c ∧ first_min (num s) l c ∧
      connections (pool s') = remove_at i l ∧ MuxConn.IsClosed (hp s') c = true) ∧
    S (length (connections (pool s'))) = length l ∧
    MinConnections (p_config (pool s)) <= Z.of_nat (length (connections (pool s'))).
Proof.
  intros Hs Hn Htr. pose proof (proj1 (wpM_traces _ _ _) (scaleDown_spec s Hs Hn) _ _ _ Htr) as H.
  cbn in *. case_decide as Hd; [by destruct H as (-> & -> & ->)|].
  destruct H as (i & c & Hl & Hm & -> & Hok & Hc & Hcl).
  pose proof (remove_at_length i _ (lookup_lt_Some _ _ _ Hl)) as Hlen. rewrite Hc.
  split; [done|]. split; [by exists i, c|]. split; [done|]. lia.
Qed.

(** Closing the pool closes every connection it holds and leaves it empty. *)
Lemma Close_closes_all s tr s' r :
  pool_ok s → traces (Close s) tr (s', r) →
  r = Ok () ∧ connections (pool s') = [] ∧ connectionCount (p_metrics (pool s')) = 0 ∧
  Forall (λ c, MuxConn.IsClosed (hp s') c = true) (connections (pool s)).
Proof.
  intros Hs Htr.
  pose proof (proj1 (wpM_traces _ _ _) (Close_ok s Hs) _ _ _ Htr) as (-> & Hs' & Hc & Hf).
  split; [done|]. split; [done|]. split; [|done]. rewrite (ok_count _ Hs'), Hc. by apply wrap_s_0.
Qed.

(** What [OpenStream] does, [c] being the selected connection. *)
Definition open_post s (tr : list event) s' (r : result nat) : Prop :=
  match Select (num s) (connections (pool s)) with
  | None => connections (pool s) = [] ∧ s' = s ∧ tr = [] ∧ is_Ok r = false
  | Some c => c ∈ connections (pool s) ∧
      match r with
      | Ok t => ∃ a, tr = [ev (COpenStream (MuxConn.Session (hp s) c)) (inr a)] ∧
          (∃ ps ts, pstreams s' !! t = Some ps ∧ ps_once ps = false ∧
             MuxConn.tstreams (hp s') !! ps_Conn ps = Some ts ∧
             MuxConn.t_Conn ts = a ∧ MuxConn.t_onClose ts = c) ∧
          ActiveStreams (p_metrics (pool s')) = wrap_s 64 (ActiveStreams (p_metrics (pool s)) + 1)
      | Err _ => s' = s
      end
  end.

Lemma OpenStream_spec s : wpM OpenStream s (open_post s).
Proof.
  unfold OpenStream, open_post. rewrite wpM_bind, wpM_get.
  destruct (Select _ _) as [c|] eqn:E; [|by apply Select_nil in E].
  apply Select_member in E. rewrite wpM_bind, wpM_wrap. unfold on_heap. rewrite wpM_zoom.
  eapply wp_mono; [apply MuxConn.take_stream_spec|]. destruct s as [p h pss]. cbn.
  intros tr [h' r] H. cbn in *. unfold MuxConn.Session.
  destruct (MuxConn.closed _); [by destruct H as (-> & -> & ->)|].
  destruct H as (a & -> & H). destruct a as [e|stream]; [by destruct H as [-> ->]|].
  destruct H as [-> ->]. cbn. rewrite wpM_bind, wpM_modify. cbn. split; [done|]. exists stream.
  split; [done|]. split; [|done]. do 2 eexists.
  split; [by rewrite lookup_insert_eq|]. cbn. by rewrite lookup_insert_eq.
Qed.

(** A stream is opened on the connection the selector chose among the pool's, and
    the pool's gauge counts it; a pool without connections refuses, and a failure
    leaves the pool as it was. *)
Lemma OpenStream_selected s tr s' r : traces (OpenStream s) tr (s', r) → open_post s tr s' r.
Proof. apply (wpM_traces OpenStream), OpenStream_spec. Qed.

End invariant.

(** ** Witnesses: a pool of two connections, one of them with a stream *)

Definition demo_pool : Pool :=
  mkPool DefaultConfig [] NewMetrics (NewAutoScaler DefaultConfig 0) false false.
Definition demo_heap : heap :=
  (MuxConn.NewMuxConn 5%nat None 0 (MuxConn.NewMuxConn 3%nat (Some 4%nat) 0 MuxConn.empty_heap).2).2.
Definition demo_factory : M st nat := throw (Errorf "no network" []).

Definition demo0 : st * world := (mkSt demo_pool demo_heap ∅, MuxConn.demo_world).
Definition demo1 : st * world := script (AddConnection 0) demo0.
Definition demo2 : st * world := script (AddConnection 1) demo1.
Definition demo3 : st * world := script OpenStream demo2.

Lemma demo_factory_ok : factory_ok demo_factory.
Proof. intros s Hs. unfold demo_factory. by rewrite wpM_throw. Qed.

Lemma demo_heap_ok : MuxConn.accounted demo_heap.
Proof. apply MuxConn.NewMuxConn_accounted, MuxConn.NewMuxConn_accounted, MuxConn.accounted_empty. Qed.

Lemma demo3_steps : rtc (pool_step demo_factory) demo0.1 demo3.1.
Proof.
  destruct (script_traces (AddConnection 0) demo0) as (tr1 & r1 & T1).
  destruct (script_traces (AddConnection 1) demo1) as (tr2 & r2 & T2).
  destruct (script_traces OpenStream demo2) as (tr3 & r3 & T3).
  assert (is_Some (MuxConn.muxes (hp demo0.1) !! 0%nat)) as H0 by (vm_compute; by eexists).
  assert (is_Some (MuxConn.muxes (hp demo1.1) !! 1%nat)) as H1 by (vm_compute; by eexists).
  eapply rtc_l; [eapply step_method; [right; left; by exists 0%nat|exact T1]|].
  eapply rtc_l; [eapply step_method; [right; left; by exists 1%nat|exact T2]|].
  apply rtc_once. by eapply step_open.
Qed.

Lemma demo3_ok : pool_ok demo3.1.
Proof.
  apply (pool_steps_ok demo_factory demo0.1); [apply demo_factory_ok| |apply demo3_steps].
  by apply (New_ok None 0 demo_pool demo_heap); [|apply demo_heap_ok].
Qed.

Lemma pool_invariant_witness :
  pool_ok demo3.1 ∧ connections (pool demo3.1) = [0%nat; 1%nat] ∧
  rescaled demo_factory ScaleDown demo3.1 (script scaleDown demo3).1 ∧
  connections (pool (script scaleDown demo3).1) = [0%nat].
Proof.
  destruct (pool_invariant demo_factory None 0 demo_pool demo_heap demo3.1 demo_factory_ok eq_refl
              demo_heap_ok demo3_steps) as (Hok & Hdown & _).
  split; [exact Hok|]. split; [by vm_compute|]. split; [|by vm_compute].
  destruct (script_traces scaleDown demo3) as (tr & r & Htr). exact (Hdown tr _ r Htr).
Defined.

Lemma scaleDown_removes_idlest_witness :
  ∃ tr r, traces (scaleDown demo3.1) tr ((script scaleDown demo3).1, r) ∧ r = Ok ().
Proof.
  destruct (script_traces scaleDown demo3) as (tr & r & Htr). exists tr, r. split; [exact Htr|].
  assert (Forall (λ c, 0 <= num demo3.1 c) (connections (pool demo3.1))) as Hn
    by (vm_compute; repeat constructor; discriminate).
  pose proof (scaleDown_removes_idlest demo3.1 tr _ r demo3_ok Hn Htr) as H. cbn zeta in H.
  rewrite decide_False in H by (vm_compute; by intros []).
  exact (proj1 H).
Defined.

Lemma Close_closes_all_witness :
  connections (pool demo3.1) ≠ [] ∧ connections (pool (script Close demo3).1) = [].
Proof.
  split; [by vm_compute|]. destruct (script_traces Close demo3) as (tr & r & Htr).
  exact (proj1 (proj2 (Close_closes_all demo3.1 tr _ r demo3_ok Htr))).
Defined.

Lemma OpenStream_selected_witness :
  ∃ tr r, traces (OpenStream demo2.1) tr (demo3.1, r) ∧ open_post demo2.1 tr demo3.1 r.
Proof.
  destruct (script_traces OpenStream demo2) as (tr & r & Htr). exists tr, r.
  split; [exact Htr | exact (OpenStream_selected demo2.1 tr _ r Htr)].
Defined.
