(* ===== verification/PoolConc.v ===== *)
(** * pool/pool.go: [Close] and the monitor goroutine, interleaved

    The methods of Pool.v are one step each; here the two places where a goroutine can
    wait are separate steps: the pool's mutex and the wait group.  [Close] holds the
    mutex while it waits for the goroutine; the goroutine takes the mutex when it
    scales.  Critical sections of the monitor do not wait, so each is one step that needs
    the mutex to be free. *)
From S2P Require Import Prelude Scaler.

(** Where [Close] is. *)
Inductive closer :=
  | CStart       (** before [p.mu.Lock()] *)
  | CLocked      (** before [p.cancel()] *)
  | CWaiting     (** at [p.wg.Wait()] *)
  | CClosing     (** closing the connections *)
  | CDone.

(** Where the monitor goroutine is. *)
Inductive monitor :=
  | MSelect      (** at the select of [monitorAndScale] *)
  | MEvaluate    (** a tick was taken *)
  | MUp          (** at [p.mu.RLock()] of [scaleUp] *)
  | MFactory     (** in [onNewConn] *)
  | MAdd         (** at [p.mu.Lock()] of [AddConnection] *)
  | MDown        (** at [p.mu.Lock()] of [scaleDown] *)
  | MExit.       (** returned: [p.wg.Done()] *)

#[export] Instance closer_eq_dec : EqDecision closer.
Proof. solve_decision. Defined.
#[export] Instance monitor_eq_dec : EqDecision monitor.
Proof. solve_decision. Defined.

Record conc := mkConc {
  closer_at : closer;
  monitor_at : monitor;
  cancelled : bool
}.

(** The mutex is free for the monitor. *)
Definition lock_free (c : closer) : bool :=
  match c with CStart | CDone => true | _ => false end.

Inductive conc_step : conc → conc → Prop :=
  | close_lock m b : conc_step (mkConc CStart m b) (mkConc CLocked m b)
  | close_cancel m b : conc_step (mkConc CLocked m b) (mkConc CWaiting m true)
  | close_wait b : conc_step (mkConc CWaiting MExit b) (mkConc CClosing MExit b)
  | close_unlock m b : conc_step (mkConc CClosing m b) (mkConc CDone m b)
  | monitor_done c : conc_step (mkConc c MSelect true) (mkConc c MExit true)
  | monitor_tick c b : conc_step (mkConc c MSelect b) (mkConc c MEvaluate b)
  | monitor_evaluate c b action :
      conc_step (mkConc c MEvaluate b)
        (mkConc c (match action with ScaleUp => MUp | ScaleDown => MDown | ScaleNone => MSelect end) b)
  | monitor_up c b m :
      lock_free c = true → m = MFactory ∨ m = MSelect →
      conc_step (mkConc c MUp b) (mkConc c m b)
  | monitor_factory c b m :
      m = MAdd ∨ m = MSelect → conc_step (mkConc c MFactory b) (mkConc c m b)
  | monitor_add c b : lock_free c = true → conc_step (mkConc c MAdd b) (mkConc c MSelect b)
  | monitor_down c b : lock_free c = true → conc_step (mkConc c MDown b) (mkConc c MSelect b).

Definition initial : conc := mkConc CStart MSelect false.
Definition reachable (s : conc) : Prop := rtc conc_step initial s.

(** Both have returned. *)
Definition finished (s : conc) : Prop := closer_at s = CDone ∧ monitor_at s = MExit.

(** [Close] waits for a goroutine that waits for the mutex [Close] holds. *)
Definition deadlocked (s : conc) : Prop :=
  closer_at s = CWaiting ∧ (monitor_at s = MUp ∨ monitor_at s = MAdd ∨ monitor_at s = MDown).

Definition stuck (s : conc) : Prop := ∀ s', ~ conc_step s s'.

#[export] Instance finished_dec s : Decision (finished s).
Proof. unfold finished. apply _. Defined.
#[export] Instance deadlocked_dec s : Decision (deadlocked s).
Proof. unfold deadlocked. apply _. Defined.

(** What holds of every reachable state: once the lock is released for good, the
    goroutine has exited, and the context is cancelled from the wait on. *)
Definition conc_ok (s : conc) : Prop :=
  match closer_at s with
  | CStart | CLocked => cancelled s = false ∧ monitor_at s ≠ MExit
  | CWaiting => cancelled s = true
  | CClosing | CDone => cancelled s = true ∧ monitor_at s = MExit
  end.

Lemma conc_step_ok s s' : conc_ok s → conc_step s s' → conc_ok s'.
Proof.
  unfold conc_ok. intros Hs Hst.
  destruct Hst as [| | | | | |? ? []|? ? ? ? [-> | ->]|? ? ? [-> | ->]| |];
    repeat match goal with c : closer |- _ => destruct c end; cbn in *; naive_solver.
Qed.

Lemma conc_reachable_ok s : reachable s → conc_ok s.
Proof.
  intros H. assert (conc_ok initial) as H0 by done. revert H0.
  induction H as [|s1 s2 s3 H12 _ IH]; [done|]. intros H0. apply IH. by eapply conc_step_ok.
Qed.

Lemma deadlocked_stuck s : deadlocked s → stuck s.
Proof.
  destruct s as [c m b]. intros [Hc Hm]. cbn in *. subst c.
  intros s' Hst. inversion Hst; subst; cbn in *; naive_solver.
Qed.

Lemma not_deadlocked_steps s :
  conc_ok s → ~ finished s → ~ deadlocked s → ∃ s', conc_step s s'.
Proof.
  destruct s as [c m b]. unfold conc_ok, finished, deadlocked. cbn. intros Ho Hf Hd.
  destruct c.
  - eexists. apply close_lock.
  - eexists. apply close_cancel.
  - destruct m; try (by exfalso; apply Hd; tauto).
    + eexists. apply monitor_tick.
    + eexists. by apply (monitor_evaluate _ _ ScaleNone).
    + eexists. apply monitor_factory. by right.
    + eexists. apply close_wait.
  - eexists. apply close_unlock.
  - exfalso. apply Hf. by destruct Ho.
Qed.

(** [Close] and the monitor goroutine can only be stuck in one way: [Close] holds the
    mutex and waits for a goroutine that waits for the mutex to scale; every other state
    before both have returned has a next step. *)
Lemma Close_stuck_only_in_deadlock s :
  reachable s → (stuck s ↔ finished s ∨ deadlocked s).
Proof.
  intros Hr%conc_reachable_ok. split.
  - intros Hs. destruct (decide (finished s)) as [|Hf]; [by left|].
    destruct (decide (deadlocked s)) as [|Hd]; [by right|].
    destruct (not_deadlocked_steps s Hr Hf Hd) as [s' Hst]. by destruct (Hs s').
  - intros [[Hc Hm]|Hd]; [|by apply deadlocked_stuck].
    destruct s as [c m b]. cbn in *. subst. intros s' Hst. inversion Hst.
Qed.

(** That way is reachable: the monitor takes a tick and decides to scale down, then
    [Close] takes the mutex and waits. *)
Lemma Close_can_deadlock : ∃ s, reachable s ∧ deadlocked s ∧ stuck s.
Proof.
  exists (mkConc CWaiting MDown true). assert (deadlocked (mkConc CWaiting MDown true)) as Hd.
  { split; [done|]. right. by right. }
  split; [|split; [done | by apply deadlocked_stuck]].
  eapply rtc_l; [apply monitor_tick|]. eapply rtc_l; [apply (monitor_evaluate _ _ ScaleDown)|].
  eapply rtc_l; [apply close_lock|]. apply rtc_once, close_cancel.
Qed.

(** C39: [Close] and the monitor goroutine get stuck in exactly one way before both have
    returned, and that way is reachable: [Close] holds the mutex and waits for the
    monitor, which has decided to scale and waits for the mutex. *)
Theorem Close_deadlock :
  (∀ s, reachable s → (stuck s ↔ finished s ∨ deadlocked s)) ∧
  ∃ s, reachable s ∧ deadlocked s ∧ stuck s.
Proof. split; [exact Close_stuck_only_in_deadlock | exact Close_can_deadlock]. Qed.
