(* ===== verification/ConnManager.v ===== *)
(** * connmng/manager.go: the registered connections

    [ServerConn] is the source's interface: a connection is a pointer, and its methods
    run in a store [S] that holds the objects.  The manager is verified against the
    interface's law (closing a connection changes no identifier); file Dialer gives the
    implementation, the servers of ServerV2.v. *)
From S2P Require Import Prelude Static MuxConfig Commands Demo GoIO.

Class ServerConn `{X : Externals} (S : Type) := {
  ID : S → nat → uuid;
  State_ : S → nat → State;
  CloseConn : nat → M S ();
  ConnectCommand_ : nat → uuid → M S ();
  CustomEvent_ : nat → string → payload → M S ();
  (** closing keeps the identifiers *)
  CloseConn_ID : ∀ c s, wpM (CloseConn c) s (λ _ s' _, ∀ c', ID s' c' = ID s c')
}.

Record ConnManager := mkCM {
  connections : list nat;
  current : nat
}.

Definition New : ConnManager := mkCM [] 0.

Section manager.
Context `{X : Externals} {S : Type} {I : ServerConn S}.

(** The manager with the store of the connections. *)
Definition cmst : Type := ConnManager * S.

Definition on_store {A} (m : M S A) : M cmst A := zoom snd (λ s '(b, _), (b, s)) m.
Definition set_connections (l : list nat) : M cmst () :=
  modify (λ '(b, s), (mkCM l (current b), s)).

(** The loops return at the first connection with the identifier. *)
Definition find_id (s : S) (i : uuid) (l : list nat) : option (nat * nat) :=
  list_find (λ c, ID s c = i) l.

#[global] Arguments find_id : simpl never.

Definition AddConnection (serv : nat) : M cmst () :=
  bs ← get;
  let '(b, s) := bs in
  match find_id s (ID s serv) (connections b) with
  | Some (i, conn) =>
      _ ← attempt (on_store (CloseConn conn));
      set_connections (<[i := serv]> (connections b))
  | None => set_connections (connections b ++ [serv])
  end.

Definition RemoveConnection (i : uuid) : M cmst () :=
  bs ← get;
  let '(b, s) := bs in
  match find_id s i (connections b) with
  | Some (k, conn) =>
      _ ← attempt (on_store (CloseConn conn));
      set_connections (take k (connections b) ++ drop (k + 1)%nat (connections b))
  | None => mret ()
  end.

(** The connections' [Close], their errors collected. *)
Fixpoint close_conns (l : list nat) : M cmst (list error) :=
  match l with
  | [] => mret []
  | c :: l' =>
      r ← attempt (on_store (CloseConn c));
      errs ← close_conns l';
      mret (match r with Err e => e :: errs | Ok _ => errs end)
  end.

(** [errors.Join] is kept as its first error. *)
Definition Close : M cmst () :=
  bs ← get;
  errs ← close_conns (connections bs.1);
  set_connections [];;
  match errs with
  | [] => mret ()
  | e :: _ => throw (Wrapf "failed to close connections: %w" e)
  end.

End manager.

(** [None] is the run-time panic of an index out of range; [Some None] the nil result. *)
Definition GetConn (b : ConnManager) : option (option nat * ConnManager) :=
  match connections b with
  | [] => Some (None, b)
  | l =>
      c ← l !! current b;
      Some (Some c, mkCM l ((current b + 1) mod length l))
  end.

(** [n] calls in a row. *)
Fixpoint GetConns (n : nat) (b : ConnManager) : option (list nat * ConnManager) :=
  match n with
  | O => Some ([], b)
  | Datatypes.S n' =>
      '(c, b1) ← GetConn b;
      '(cs, b2) ← GetConns n' b1;
      Some (match c with Some c => c :: cs | None => cs end, b2)
  end.

(** The next index is one of the list: [GetConn] does not panic. *)
Definition in_range (b : ConnManager) : Prop :=
  connections b = [] ∨ (current b < length (connections b))%nat.

Lemma GetConn_panics b : GetConn b = None ↔ ~ in_range b.
Proof.
  unfold GetConn, in_range. destruct b as [[|c l] k]; cbn [connections current].
  { split; [done|]. intros H. exfalso. apply H. by left. }
  destruct (decide (k < length (c :: l))%nat) as [Hk|Hk].
  - destruct (lookup_lt_is_Some_2 _ _ Hk) as [x ->]. cbn. split; [done|]. tauto.
  - rewrite lookup_ge_None_2 by lia. cbn. split; [|done]. intros _ [?|?]; [done|by apply Hk].
Qed.

(** ** Properties *)

Lemma GetConn_at l k c :
  l !! k = Some c → GetConn (mkCM l k) = Some (Some c, mkCM l ((k + 1) mod length l)).
Proof. intros Hc. unfold GetConn. cbn. destruct l as [|c' l']; [done|]. by rewrite Hc. Qed.

(** One round of the calls from position [k] to the end of the list. *)
Lemma GetConns_to_end l k n :
  (k + n = length l)%nat → (0 < n)%nat →
  GetConns n (mkCM l k) = Some (drop k l, mkCM l 0).
Proof.
  revert k. induction n as [|n IH]; intros k Hk Hn; [lia|].
  destruct (lookup_lt_is_Some_2 l k ltac:(lia)) as [c Hc].
  cbn [GetConns]. rewrite (GetConn_at l k c Hc). cbn [mbind option_bind].
  rewrite (drop_S _ _ _ Hc). destruct n as [|n].
  - replace (k + 1)%nat with (length l) by lia. rewrite Nat.Div0.mod_same. cbn.
    by rewrite drop_ge by lia.
  - rewrite Nat.mod_small by lia. rewrite IH by lia. cbn. by rewrite Nat.add_1_r.
Qed.

Lemma GetConns_app n m b l1 b1 l2 b2 :
  GetConns n b = Some (l1, b1) → GetConns m b1 = Some (l2, b2) →
  GetConns (n + m) b = Some (l1 ++ l2, b2).
Proof.
  revert b l1. induction n as [|n IH]; intros b l1; cbn [GetConns].
  - by intros [= <- <-].
  - cbn [Nat.add GetConns]. destruct (GetConn b) as [[c b']|]; cbn; [|done].
    destruct (GetConns n b') as [[cs b'']|] eqn:E; cbn; [|done].
    intros [= <- <-] H2. rewrite (IH _ _ E H2). cbn. by destruct c.
Qed.

Lemma GetConns_from_start l k :
  (k <= length l)%nat → (0 < length l)%nat →
  GetConns k (mkCM l 0) = Some (take k l, mkCM l (k mod length l)).
Proof.
  intros Hk Hl. induction k as [|k IH]; [cbn; by rewrite Nat.Div0.mod_0_l|].
  rewrite <-Nat.add_1_r. specialize (IH ltac:(lia)).
  destruct (lookup_lt_is_Some_2 l k ltac:(lia)) as [c Hc].
  rewrite Nat.add_1_r, (take_S_r _ _ _ Hc), <-Nat.add_1_r.
  eapply GetConns_app; [exact IH|]. rewrite Nat.mod_small by lia. cbn [GetConns].
  rewrite (GetConn_at l k c Hc). done.
Qed.

(** C32: Round robin: as many calls in a row as there are connections return each of them
    once, in order from the current one, and leave the manager as it was. *)
Theorem GetConn_round_robin b :
  connections b ≠ [] → in_range b →
  GetConns (length (connections b)) b =
    Some (drop (current b) (connections b) ++ take (current b) (connections b), b).
Proof.
  destruct b as [l k]. intros Hne [?|Hk]; [done|]. cbn in *.
  replace (length l) with ((length l - k) + k)%nat by lia.
  eapply GetConns_app.
  - apply GetConns_to_end; lia.
  - rewrite GetConns_from_start by lia. by rewrite Nat.mod_small by lia.
Qed.

Lemma GetConn_round_robin_witness :
  GetConns 3 (mkCM [4%nat; 5%nat; 6%nat] 1) = Some ([5%nat; 6%nat; 4%nat], mkCM [4%nat; 5%nat; 6%nat] 1).
Proof. apply (GetConn_round_robin (mkCM [4%nat; 5%nat; 6%nat] 1)); [done|]. right. cbn. lia. Defined.

Section manager_specs.
Context `{X : Externals} {S : Type} {I : ServerConn S}.
Implicit Types (bs : cmst (S := S)).

(** No two connections have the same identifier. *)
Definition unique_ids bs : Prop := NoDup (ID bs.2 <$> connections bs.1).

Lemma on_store_Close c bs :
  wpM (on_store (CloseConn c)) bs (λ _ bs' _,
    bs'.1 = bs.1 ∧ ∀ c', ID bs'.2 c' = ID bs.2 c').
Proof.
  destruct bs as [b s]. unfold on_store. rewrite wpM_zoom. cbn.
  eapply wp_mono; [apply (CloseConn_ID c s)|]. cbn. by intros tr [s' r] H.
Qed.

(** What the three methods do to the list, the identifiers being those of the store. *)
Lemma AddConnection_spec serv bs :
  wpM (AddConnection serv) bs (λ _ bs' r,
    r = Ok () ∧ current bs'.1 = current bs.1 ∧ (∀ c, ID bs'.2 c = ID bs.2 c) ∧
    connections bs'.1 =
      match find_id bs.2 (ID bs.2 serv) (connections bs.1) with
      | Some (i, _) => <[i := serv]> (connections bs.1)
      | None => connections bs.1 ++ [serv]
      end).
Proof.
  unfold AddConnection. rewrite wpM_bind, wpM_get. destruct bs as [b s]. cbn.
  destruct (find_id _ _ _) as [[i c]|].
  - rewrite wpM_bind, wpM_attempt. wpM_use on_store_Close. intros tr [b' s'] r [H1 H2]. cbn in *.
    subst b'. unfold set_connections. rewrite wpM_modify. done.
  - unfold set_connections. by rewrite wpM_modify.
Qed.

Lemma RemoveConnection_spec i bs :
  wpM (RemoveConnection i) bs (λ _ bs' r,
    r = Ok () ∧ current bs'.1 = current bs.1 ∧ (∀ c, ID bs'.2 c = ID bs.2 c) ∧
    connections bs'.1 =
      match find_id bs.2 i (connections bs.1) with
      | Some (k, _) => take k (connections bs.1) ++ drop (k + 1) (connections bs.1)
      | None => connections bs.1
      end).
Proof.
  unfold RemoveConnection. rewrite wpM_bind, wpM_get. destruct bs as [b s]. cbn.
  destruct (find_id _ _ _) as [[k c]|].
  - rewrite wpM_bind, wpM_attempt. wpM_use on_store_Close. intros tr [b' s'] r [H1 H2]. cbn in *.
    subst b'. unfold set_connections. by rewrite wpM_modify.
  - by rewrite wpM_ret.
Qed.

Lemma fmap_ID_ext (s s' : S) (l : list nat) : (∀ c, ID s' c = ID s c) → ID s' <$> l = ID s <$> l.
Proof. intros H. apply list_fmap_ext. auto. Qed.

Lemma AddConnection_unique serv bs :
  unique_ids bs → wpM (AddConnection serv) bs (λ _ bs' _, unique_ids bs').
Proof.
  intros Hu. wpM_use AddConnection_spec. unfold unique_ids in *.
  intros tr bs' r (_ & _ & Hid & ->). rewrite (fmap_ID_ext bs.2) by done.
  destruct (find_id _ _ _) as [[i c]|] eqn:E.
  - apply list_find_Some in E as (Hi & Hc & _). rewrite list_fmap_insert, <-Hc.
    rewrite list_insert_id; [done|]. by rewrite list_lookup_fmap, Hi.
  - apply list_find_None in E. rewrite fmap_app. apply NoDup_app. split; [done|].
    split; [|apply NoDup_singleton]. intros x Hx Hs. apply list_elem_of_singleton in Hs as ->.
    apply list_elem_of_fmap in Hx as (c & Hc & Hin). rewrite Forall_forall in E. by apply (E c).
Qed.

Lemma RemoveConnection_unique i bs :
  unique_ids bs → wpM (RemoveConnection i) bs (λ _ bs' _, unique_ids bs').
Proof.
  intros Hu. wpM_use RemoveConnection_spec. unfold unique_ids in *.
  intros tr bs' r (_ & _ & Hid & ->). rewrite (fmap_ID_ext bs.2) by done.
  destruct (find_id _ _ _) as [[k c]|]; [|done]. eapply sublist_NoDup; [exact Hu|].
  apply fmap_sublist. rewrite <-(take_drop k (connections bs.1)) at 3. apply sublist_app; [done|].
  rewrite <-drop_drop. apply sublist_drop.
Qed.

(** After a removal no connection has the identifier. *)
Lemma RemoveConnection_gone i bs :
  unique_ids bs →
  wpM (RemoveConnection i) bs (λ _ bs' r, r = Ok () ∧
    ∀ c, c ∈ connections bs'.1 → ID bs.2 c ≠ i).
Proof.
  intros Hu. wpM_use RemoveConnection_spec. intros tr bs' r (-> & _ & _ & ->). split; [done|].
  intros c Hc Hi. unfold unique_ids in Hu. destruct (find_id _ _ _) as [[k c0]|] eqn:E.
  - apply list_find_Some in E as (Hk & Hk0 & _).
    rewrite Nat.add_1_r in Hc. rewrite <-(take_drop_middle _ _ _ Hk), fmap_app, fmap_cons in Hu.
    apply NoDup_app in Hu as (_ & Hd & Hu). apply NoDup_cons in Hu as [Hn _].
    rewrite Hk0, <-Hi in Hd, Hn. apply elem_of_app in Hc as [Hc|Hc].
    + apply (Hd (ID bs.2 c)); [by apply list_elem_of_fmap_2 | by left].
    + apply Hn. by apply list_elem_of_fmap_2.
  - apply list_find_None in E. rewrite Forall_forall in E. by apply (E c).
Qed.

Lemma cm_Close_spec bs : wpM Close bs (λ _ bs' _, connections bs'.1 = []).
Proof.
  assert (∀ l bs, wpM (close_conns l) bs (λ _ _ r, is_Ok r = true)) as Hl.
  { intros l. induction l as [|c l IH]; intros bs0; cbn [close_conns]; [by rewrite wpM_ret|].
    rewrite wpM_bind, wpM_attempt. wpM_use on_store_Close. intros tr bs' r _.
    rewrite wpM_bind. eapply wpM_mono; [apply IH|]. by intros tr' bs'' [es|e] H. }
  unfold Close. rewrite wpM_bind, wpM_get, wpM_bind. eapply wpM_mono; [apply Hl|].
  intros tr [b s] [errs|e] H; [|done]. unfold set_connections. rewrite wpM_bind, wpM_modify.
  by destruct errs; [rewrite wpM_ret | rewrite wpM_throw].
Qed.

(** The methods, called in any order. *)
Inductive cm_step bs : cmst → Prop :=
  | cm_method (m : M cmst ()) tr bs' r :
      (∃ c, m = AddConnection c) ∨ (∃ i, m = RemoveConnection i) ∨ m = Close →
      traces (m bs) tr (bs', r) → cm_step bs bs'
  | cm_get c b' : GetConn bs.1 = Some (c, b') → cm_step bs (b', bs.2).

Lemma GetConn_connections b c b' : GetConn b = Some (c, b') → connections b' = connections b.
Proof.
  unfold GetConn. destruct b as [[|x l] k]; cbn [connections current]; [by intros [= _ <-]|].
  destruct (_ !! _) as [y|]; cbn; [|done]. by intros [= _ <-].
Qed.

(** Whatever is called on the manager in whatever order, no two of its connections
    have the same identifier, so a listener that registers again replaces itself. *)
Lemma connections_unique s bs : rtc cm_step (New, s) bs → unique_ids bs.
Proof.
  intros Hr. assert (unique_ids (New, s)) as H0 by apply NoDup_nil_2. revert H0.
  induction Hr as [|bs1 bs2 bs3 H12 _ IH]; [done|]. intros H1. apply IH. clear IH bs3.
  destruct H12 as [m tr bs2 r Hm Htr|c b' Hg].
  - eapply (proj1 (wpM_traces m bs1 (λ _ bs' _, unique_ids bs'))); [|exact Htr].
    destruct Hm as [[c ->]|[[i ->]| ->]];
      [by apply AddConnection_unique | by apply RemoveConnection_unique |].
    eapply wpM_mono; [apply cm_Close_spec|]. cbn. unfold unique_ids. intros ??? ->. apply NoDup_nil_2.
  - unfold unique_ids. cbn. by rewrite (GetConn_connections _ _ _ Hg).
Qed.

(** A scripted call, for the run below. *)
Lemma script_step (m : M cmst ()) sw (Q : cmst → Prop) :
  (∃ c, m = AddConnection c) ∨ (∃ i, m = RemoveConnection i) ∨ m = Close →
  wpM m sw.1 (λ _ bs' _, Q bs') → cm_step sw.1 (script m sw).1 ∧ Q (script m sw).1.
Proof.
  intros Hm HQ. destruct (script_traces m sw) as (tr & r & Htr). split; [by eapply cm_method|].
  exact (proj1 (wpM_traces _ _ _) HQ _ _ _ Htr).
Qed.

Lemma find_id_cons s i c l :
  find_id s i (c :: l) =
    if decide (ID s c = i) then Some (0%nat, c) else prod_map Datatypes.S id <$> find_id s i l.
Proof. unfold find_id. cbn. by case_decide. Qed.

(** The index is not adjusted when a connection is removed: after two
    registrations, one call and the removal of a connection the next call indexes past
    the end of the list, a run-time panic, although a connection is available. *)
Lemma GetConn_can_panic s :
  ID s 0%nat ≠ ID s 1%nat →
  ∃ bs, rtc cm_step (New, s) bs ∧ connections bs.1 = [0%nat] ∧ GetConn bs.1 = None.
Proof.
  intros Hne. set (w := one_conn 0%nat []).
  destruct (script_step (AddConnection 0) ((New, s), w) (λ bs', current bs'.1 = 0%nat ∧
    (∀ c, ID bs'.2 c = ID s c) ∧ connections bs'.1 = [0%nat])) as [S1 (K1 & I1 & C1)];
    [left; by eexists | wpM_use AddConnection_spec; by intros tr bs' r (_ & ? & ? & ?)|].
  destruct (script (AddConnection 0) _) as [bs1 w1]. cbn in *.
  destruct (script_step (AddConnection 1) (bs1, w1) (λ bs', current bs'.1 = 0%nat ∧
    (∀ c, ID bs'.2 c = ID s c) ∧ connections bs'.1 = [0%nat; 1%nat])) as [S2 (K2 & I2 & C2)];
    [left; by eexists | wpM_use AddConnection_spec; intros tr bs' r (_ & Hk & Hi & Hc)|].
  { cbn in Hk, Hi, Hc. rewrite Hk, Hc, C1, find_id_cons, decide_False by (by rewrite !I1).
    split; [done|]. split; [|done]. intros c. by rewrite Hi. }
  destruct (script (AddConnection 1) _) as [bs2 w2]. cbn in *.
  destruct bs2 as [b2 s2]. destruct b2 as [l2 k2]. cbn in *. subst l2 k2.
  assert (GetConn (mkCM [0%nat; 1%nat] 0) = Some (Some 0%nat, mkCM [0%nat; 1%nat] 1)) as G by done.
  destruct (script_step (RemoveConnection (ID s 1%nat)) ((mkCM [0%nat; 1%nat] 1, s2), w2) (λ bs',
    current bs'.1 = 1%nat ∧ connections bs'.1 = [0%nat])) as [S3 (K3 & C3)];
    [right; left; by eexists | wpM_use RemoveConnection_spec; intros tr bs' r (_ & Hk & Hi & Hc)|].
  { cbn in Hk, Hi, Hc. rewrite Hk, Hc, !find_id_cons, decide_False, decide_True by (by rewrite ?I2). done. }
  destruct (script (RemoveConnection _) _) as [[b3 s3] w3]. cbn in *.
  exists (b3, s3). split; [|split; [done|]].
  - eapply rtc_l; [exact S1|]. eapply rtc_l; [exact S2|].
    eapply rtc_l; [exact (cm_get (mkCM [0%nat; 1%nat] 0, s2) _ _ G)|]. by apply rtc_once.
  - cbn. unfold GetConn. by rewrite C3, K3.
Qed.

End manager_specs.

(** ** Witnesses: connections that are their own store of identifiers *)

Definition demo_id (n : nat) : uuid := vreplicate 16 (byte_of_Z (Z.of_nat n)).

Definition demo_conns : ServerConn (X := demo) () := {|
  ID _ c := demo_id c;
  State_ _ _ := StateRegistered;
  CloseConn c := mret ();
  ConnectCommand_ c i := mret ();
  CustomEvent_ c name data := mret ();
  CloseConn_ID c s c' := eq_refl
|}.

Lemma GetConn_can_panic_witness :
  ∃ bs, rtc (cm_step (I := demo_conns)) (New, ()) bs ∧
        connections bs.1 = [0%nat] ∧ GetConn bs.1 = None.
Proof. apply (GetConn_can_panic (I := demo_conns) ()). by vm_compute. Defined.

Lemma connections_unique_witness :
  unique_ids (I := demo_conns) (script (AddConnection (I := demo_conns) 3) ((New, ()), one_conn 0%nat [])).1.
Proof.
  apply (connections_unique (I := demo_conns) ()). apply rtc_once.
  destruct (script_traces (AddConnection (I := demo_conns) 3) ((New, ()), one_conn 0%nat [])) as (tr & r & H).
  eapply cm_method; [left; by exists 3%nat | exact H].
Defined.
