(* ===== verification/Racing.v ===== *)
(** * connmng/manager.go: [GetConn] in several goroutines

    [GetConn] holds the read lock only, so calls of it run at the same time and write the
    index next to one another; [AddConnection] holds the lock alone.  A transition system
    with one step for each access of a call to the manager: the index read to pick the
    connection, the connection, the index read again to advance it, the index written.
    (Reads and writes of the index are taken to be atomic.)  Dials and events call
    [GetConn] without a lock of their own (dialer.go). *)
From S2P Require Import Prelude Static MuxConfig Commands Demo GoIO ConnManager.

(** Where a call is; it holds the read lock from [Locked] to [Stored]. *)
Inductive pc :=
  | Idle
  | Locked
  | Indexed (k : nat)
  | Picked (c : nat)
  | Loaded (c k : nat)
  | Stored (c : nat)
  | Returned (r : option nat)
  | Panicked.

Definition reading (p : pc) : bool :=
  match p with Idle | Returned _ | Panicked => false | _ => true end.

Record race (S : Type) := Race {
  mgr : ConnManager;
  objs : S;
  callers : list pc
}.
Arguments Race {S} mgr objs callers.
Arguments mgr {S} _.
Arguments objs {S} _.
Arguments callers {S} _.

Section racing.
Context `{X : Externals} {S : Type} {I : ServerConn S}.
Implicit Types (s : race S) (t : nat).

Definition at_pc t (p : pc) s : Prop := callers s !! t = Some p.
Definition move t (p : pc) s : race S := Race (mgr s) (objs s) (<[t := p]> (callers s)).

(** [defer b.mu.RUnlock()] is the last step of a call, or the one that leaves the
    section early. *)
Inductive race_step : race S → race S → Prop :=
  | race_lock t s : at_pc t Idle s → race_step s (move t Locked s)
  | race_empty t s :
      at_pc t Locked s → connections (mgr s) = [] → race_step s (move t (Returned None) s)
  | race_index t s :
      at_pc t Locked s → connections (mgr s) ≠ [] →
      race_step s (move t (Indexed (current (mgr s))) s)
  | race_pick t s k c :
      at_pc t (Indexed k) s → connections (mgr s) !! k = Some c →
      race_step s (move t (Picked c) s)
  | race_panic t s k :
      at_pc t (Indexed k) s → connections (mgr s) !! k = None →
      race_step s (move t Panicked s)
  | race_load t s c :
      at_pc t (Picked c) s → race_step s (move t (Loaded c (current (mgr s))) s)
  | race_store t s c k :
      at_pc t (Loaded c k) s →
      race_step s (move t (Stored c)
        (Race (mkCM (connections (mgr s)) ((k + 1) mod length (connections (mgr s))))
           (objs s) (callers s)))
  | race_unlock t s c : at_pc t (Stored c) s → race_step s (move t (Returned (Some c)) s)
  | race_again t s r : at_pc t (Returned r) s → race_step s (move t Idle s)
  | race_add s serv tr b' o' r :
      Forall (λ p, reading p = false) (callers s) →
      traces (AddConnection serv (mgr s, objs s)) tr ((b', o'), r) →
      race_step s (Race b' o' (callers s)).

(** ** What holds at every moment *)

(** The index is one of the list, or that of its first connection to come. *)
Definition ready (b : ConnManager) : Prop :=
  (current b < Nat.max 1 (length (connections b)))%nat.

(** What a call knows is about the list, which no one changes while it reads. *)
Definition pc_ok (b : ConnManager) (p : pc) : Prop :=
  match p with
  | Indexed k => (k < length (connections b))%nat
  | Picked c | Stored c => c ∈ connections b
  | Loaded c k => c ∈ connections b ∧ (k < length (connections b))%nat
  | Panicked => False
  | _ => True
  end.

Definition race_ok s : Prop := ready (mgr s) ∧ Forall (pc_ok (mgr s)) (callers s).

Lemma pc_ok_not_reading b b' p : reading p = false → pc_ok b p → pc_ok b' p.
Proof. by destruct p. Qed.

Lemma race_ok_move t p p' s :
  race_ok s → at_pc t p s → (pc_ok (mgr s) p → pc_ok (mgr s) p') → race_ok (move t p' s).
Proof.
  intros [Hr Hf] Ht Hp. split; [done|]. cbn. apply Forall_insert; [done|].
  apply Hp. by eapply Forall_lookup_1.
Qed.

Lemma AddConnection_ready serv (b : ConnManager) (o : S) :
  ready b → wpM (AddConnection serv) (b, o) (λ _ bs' _, ready bs'.1).
Proof.
  intros Hr. wpM_use AddConnection_spec. intros tr [b' o'] r (_ & Hk & _ & Hc).
  unfold ready in *. cbn in *. rewrite Hk, Hc. destruct (find_id _ _ _) as [[i c]|].
  - by rewrite length_insert.
  - rewrite length_app. cbn. lia.
Qed.

Lemma race_step_ok s s' : race_ok s → race_step s s' → race_ok s'.
Proof.
  intros Hok Hstep. pose proof Hok as [Hr Hf].
  destruct Hstep as [t s Ht|t s Ht He|t s Ht Hne|t s k c Ht Hk|t s k Ht Hk|t s c Ht|t s c k Ht
                    |t s c Ht|t s r Ht|s serv tr b' o' r Hno Htr].
  - by eapply race_ok_move.
  - by eapply race_ok_move.
  - eapply race_ok_move; [done..|]. intros _. cbn. unfold ready in Hr.
    destruct (connections (mgr s)); [done|]. cbn in *. lia.
  - eapply race_ok_move; [done..|]. intros _. by eapply list_elem_of_lookup_2.
  - exfalso. pose proof (Forall_lookup_1 _ _ _ _ Hf Ht) as H. cbn in H.
    apply lookup_ge_None in Hk. lia.
  - eapply race_ok_move; [done..|]. intros Hc. split; [done|]. unfold ready in Hr.
    cbn in Hc. destruct (connections (mgr s)); [by apply elem_of_nil in Hc|]. cbn in *. lia.
  - destruct (Forall_lookup_1 _ _ _ _ Hf Ht) as [Hc Hk]. split.
    + unfold ready. cbn. pose proof (Nat.mod_upper_bound (k + 1) (length (connections (mgr s)))). lia.
    + cbn. apply Forall_insert; [|done]. eapply Forall_impl; [exact Hf|]. by intros [].
  - eapply race_ok_move; [done..|]. done.
  - by eapply race_ok_move.
  - split.
    + exact (proj1 (wpM_traces _ _ _) (AddConnection_ready serv _ _ Hr) _ _ _ Htr).
    + apply Forall_forall. intros p Hp. cbn in Hp. rewrite Forall_forall in Hno, Hf.
      eapply pc_ok_not_reading; [by apply Hno|by apply Hf].
Qed.

Lemma race_reachable_ok b o n s :
  ready b → rtc race_step (Race b o (replicate n Idle)) s → race_ok s.
Proof.
  intros Hb Hs. assert (race_ok (Race b o (replicate n Idle))) as H
    by (split; [done|by apply Forall_replicate]).
  induction Hs as [|s1 s2 s3 H12 _ IH]; [done|]. apply IH. by eapply race_step_ok.
Qed.

(** ** Runs *)

(** A step of caller [t], the callers written out. *)
Lemma step_at (b b' : ConnManager) (o : S) t p p' ps :
  (∀ ps, ps !! t = Some p → race_step (Race b o ps) (Race b' o (<[t := p']> ps))) →
  (t < length ps)%nat →
  race_step (Race b o (<[t := p]> ps)) (Race b' o (<[t := p']> ps)).
Proof.
  intros H Ht. rewrite <-(list_insert_insert_eq ps t p' p). apply H.
  by apply list_lookup_insert_eq.
Qed.

(** One call with no other in between does what [GetConn] does. *)
Lemma solo t (b b' : ConnManager) (o : S) ps r :
  ps !! t = Some Idle → GetConn b = Some (r, b') →
  rtc race_step (Race b o ps) (Race b' o (<[t := Returned r]> ps)).
Proof.
  intros Ht Hg. pose proof (lookup_lt_Some _ _ _ Ht) as Hlt.
  rewrite <-(list_insert_id _ _ _ Ht) at 1. destruct b as [l k]. unfold GetConn in Hg. cbn in Hg.
  eapply rtc_l; [apply (step_at _ (mkCM l k) o t Idle Locked); [|done]; intros;
                 by apply (race_lock t (Race _ _ _))|].
  destruct l as [|c0 l0].
  { injection Hg as <- <-. apply rtc_once, step_at; [|done]. intros.
    by apply (race_empty t (Race _ _ _)). }
  destruct ((c0 :: l0) !! k) as [c|] eqn:Hc; [|done]. injection Hg as <- <-.
  eapply rtc_l; [apply (step_at _ (mkCM (c0 :: l0) k) o t Locked (Indexed k)); [|done]; intros;
                 by apply (race_index t (Race (mkCM (c0 :: l0) k) _ _))|].
  eapply rtc_l; [apply (step_at _ (mkCM (c0 :: l0) k) o t _ (Picked c)); [|done]; intros;
                 by apply (race_pick t (Race _ _ _) k)|].
  eapply rtc_l; [apply (step_at _ (mkCM (c0 :: l0) k) o t _ (Loaded c k)); [|done]; intros;
                 by apply (race_load t (Race (mkCM (c0 :: l0) k) _ _))|].
  eapply rtc_l; [apply (step_at _ (mkCM (c0 :: l0) ((k + 1) mod length (c0 :: l0))) o t _ (Stored c));
                 [|done]; intros; by apply (race_store t (Race (mkCM (c0 :: l0) k) _ _) c k)|].
  apply rtc_once, step_at; [|done]. intros. by apply (race_unlock t (Race _ _ _)).
Qed.

(** All the callers from one place to the next. *)
Lemma phase (b : ConnManager) (o : S) p p' n j :
  (∀ t ps, ps !! t = Some p → race_step (Race b o ps) (Race b o (<[t := p']> ps))) →
  rtc race_step (Race b o (replicate j p' ++ replicate n p)) (Race b o (replicate (j + n) p')).
Proof.
  intros H. induction n as [|n IH] in j |- *.
  - rewrite Nat.add_0_r, app_nil_r. apply rtc_refl.
  - eapply rtc_l.
    + apply (H j). rewrite lookup_app_r, length_replicate by (rewrite length_replicate; lia).
      by rewrite Nat.sub_diag.
    + rewrite insert_app_r_alt, length_replicate, Nat.sub_diag by (rewrite length_replicate; lia).
      cbn. replace (p' :: replicate n p) with (replicate 1 p' ++ replicate n p) by done.
      rewrite app_assoc, <-replicate_add. replace (j + Datatypes.S n)%nat with ((j + 1) + n)%nat by lia.
      apply IH.
Qed.

(** Calls that run at once: all get the same connection, and the index advances by one. *)
Lemma turns_lost (b : ConnManager) (o : S) n c :
  connections b !! current b = Some c →
  rtc race_step (Race b o (replicate (Datatypes.S n) Idle))
    (Race (mkCM (connections b) ((current b + 1) mod length (connections b))) o
       (replicate (Datatypes.S n) (Returned (Some c)))).
Proof.
  intros Hc. destruct b as [l k]. cbn [connections current] in *.
  assert (l ≠ []) as Hne by by intros ->.
  etransitivity; [apply (phase (mkCM l k) o Idle Locked (Datatypes.S n) 0); intros;
                  by apply (race_lock t (Race _ _ _))|]. cbn [Nat.add].
  etransitivity; [apply (phase (mkCM l k) o Locked (Indexed k) (Datatypes.S n) 0); intros;
                  by apply (race_index t (Race (mkCM l k) _ _))|]. cbn [Nat.add].
  etransitivity; [apply (phase (mkCM l k) o (Indexed k) (Picked c) (Datatypes.S n) 0); intros;
                  by apply (race_pick t (Race _ _ _) k)|]. cbn [Nat.add].
  etransitivity; [apply (phase (mkCM l k) o (Picked c) (Loaded c k) (Datatypes.S n) 0); intros;
                  by apply (race_load t (Race (mkCM l k) _ _))|]. cbn [Nat.add].
  eapply rtc_l; [by apply (race_store 0 (Race (mkCM l k) o (replicate (Datatypes.S n) _)) c k)|].
  set (b' := mkCM l ((k + 1) mod length l)).
  etransitivity; [apply (phase b' o (Loaded c k) (Stored c) n 1); intros;
                  by apply (race_store t (Race b' _ _) c k)|]. cbn [Nat.add].
  apply (phase b' o (Stored c) (Returned (Some c)) (Datatypes.S n) 0). intros.
  by apply (race_unlock t (Race b' _ _)).
Qed.

(** C33: [GetConn] in several goroutines, with registrations in between, from a manager
    whose index is in range: however they interleave no call panics (that needs a
    removal), and a call that has picked a connection and holds the lock has one of the
    manager's; but the turns are not kept: any number of calls can run at once and all
    return the same connection, the index advancing by one. *)
Theorem GetConn_concurrent b o n :
  ready b →
  (∀ s t p, rtc race_step (Race b o (replicate n Idle)) s → at_pc t p s →
     ready (mgr s) ∧ p ≠ Panicked ∧
     ∀ c, p = Picked c ∨ p = Stored c → c ∈ connections (mgr s)) ∧
  (∀ c, connections b !! current b = Some c → (0 < n)%nat →
     rtc race_step (Race b o (replicate n Idle))
       (Race (mkCM (connections b) ((current b + 1) mod length (connections b))) o
          (replicate n (Returned (Some c))))).
Proof.
  intros Hb. split.
  - intros s t p Hs Ht. destruct (race_reachable_ok _ _ _ _ Hb Hs) as [Hr Hf].
    pose proof (Forall_lookup_1 _ _ _ _ Hf Ht) as H. split_and!; [done|by intros ->|].
    by intros c [-> | ->].
  - intros c Hc Hn. destruct n as [|n]; [lia|]. by apply turns_lost.
Qed.

End racing.

(** ** Witness: three calls at once over two connections *)

Lemma GetConn_concurrent_witness :
  let b := mkCM [4%nat; 5%nat] 1 in
  rtc (race_step (I := demo_conns)) (Race b () (replicate 3 Idle))
    (Race (mkCM [4%nat; 5%nat] 0) () (replicate 3 (Returned (Some 5%nat)))).
Proof.
  intros b. assert (ready b) as Hb by (by vm_compute; lia).
  exact (proj2 (GetConn_concurrent (I := demo_conns) b () 3 Hb) 5%nat eq_refl ltac:(lia)).
Defined.
