(* ===== verification/Dialer.v ===== *)
(** * dialer.go: the side that dials through registered listeners

    The servers are objects of a store, named by pointers, and implement the
    [ServerConn] interface of connmng.  A pending request is a channel of capacity one,
    known by its pointer; sends and receives on it are calls.  The methods here are what
    one goroutine does; file Dispatch interleaves them. *)
From S2P Require Import Prelude Static MuxConfig Commands Demo GoIO Wire.
From S2P Require Import Server.
From S2P Require ServerV2.
From S2P Require Import ConnManager.

#[export] Instance ServerV2_inhabited : Inhabited ServerV2.ServerV2 :=
  populate (ServerV2.NewServerV2 0%nat [] []).

Abbreviation store := (gmap nat ServerV2.ServerV2).

(** A method of the server [c] points to. *)
Definition on_server {A} (c : nat) (m : M ServerV2.ServerV2 A) : M store A :=
  zoom (λ s, s !!! c) (λ v s, <[c := v]> s) m.

Definition server_at (s : store) (c : nat) : Server := ServerV2.base (s !!! c).

Section servers.
Context `{X : Externals}.

Lemma on_server_Close_ID c (s : store) :
  wpM (on_server c ServerV2.Close) s (λ _ s' _, ∀ c', id (server_at s' c') = id (server_at s c')).
Proof.
  unfold on_server. rewrite wpM_zoom. eapply wp_mono; [apply (ServerV2.v2_Close_spec (s !!! c))|].
  intros tr [v r] [E _] c'. cbn [fst snd] in *. unfold server_at.
  destruct (decide (c = c')) as [<-|Hne].
  - rewrite lookup_total_insert_eq, E. done.
  - by rewrite lookup_total_insert_ne.
Qed.

(** *proto.ServerV2 implements [connmng.ServerConn]. *)
#[export] Instance servers_conn : ServerConn store := {
  ID s c := id (server_at s c);
  State_ s c := state (server_at s c);
  CloseConn c := on_server c ServerV2.Close;
  ConnectCommand_ c i := on_server c (ServerV2.SendConnectCommand i);
  CustomEvent_ c name data := on_server c (ServerV2.SendCustomEvent name data);
  CloseConn_ID := on_server_Close_ID
}.

End servers.

(** The TLS configuration is opaque. *)
Record Dialer := mkDialer {
  listen : string;
  tlsConfig : option nat;
  serverOpts : list ServerOption;
  cm : ConnManager;
  servers : store;
  requests : gmap uuid nat;
  next_ch : nat;
  started : bool
}.

Definition DialerOption := Dialer → Dialer.

Definition set_cm (cs : ConnManager * store) (d : Dialer) : Dialer :=
  mkDialer (listen d) (tlsConfig d) (serverOpts d) cs.1 cs.2 (requests d) (next_ch d) (started d).
Definition set_requests (r : gmap uuid nat) (n : nat) (d : Dialer) : Dialer :=
  mkDialer (listen d) (tlsConfig d) (serverOpts d) (cm d) (servers d) r n (started d).
Definition set_started (d : Dialer) : Dialer :=
  mkDialer (listen d) (tlsConfig d) (serverOpts d) (cm d) (servers d) (requests d) (next_ch d) true.

Definition WithUserPassAuth (auth : option (string → string → bool)) : DialerOption := λ d,
  mkDialer (listen d) (tlsConfig d) (serverOpts d ++ [Server.WithUserPassAuth auth]) (cm d)
    (servers d) (requests d) (next_ch d) (started d).
Definition WithDialerTLSConfig (config : nat) : DialerOption := λ d,
  mkDialer (listen d) (Some config) (serverOpts d) (cm d) (servers d) (requests d) (next_ch d)
    (started d).

Definition NewDialer (listen : string) (opts : list DialerOption) : Dialer :=
  fold_left (λ d opt, opt d) opts (mkDialer listen None [] New ∅ ∅ 0 false).

Section dialer.
Context `{X : Externals}.

Definition on_cm {A} (m : M (cmst (S := store)) A) : M Dialer A :=
  zoom (λ d, (cm d, servers d)) set_cm m.
Definition on_servers {A} (m : M store A) : M Dialer A :=
  zoom servers (λ s d, set_cm (cm d, s) d) m.

Definition addRequest (i : uuid) : M Dialer nat :=
  d ← get;
  modify (set_requests (<[i := next_ch d]> (requests d)) (S (next_ch d)));;
  mret (next_ch d).

Definition removeRequest (i : uuid) : M Dialer (option nat) :=
  d ← get;
  match requests d !! i with
  | None => mret None
  | Some ch => modify (set_requests (delete i (requests d)) (next_ch d));; mret (Some ch)
  end.

(** A nil result is an error of the callers; an index out of range unwinds. *)
Definition GetConn_ : M Dialer (option nat) :=
  d ← get;
  match GetConn (cm d) with
  | None => throw RuntimePanic
  | Some (c, b) => modify (set_cm (b, servers d));; mret c
  end.

(** [s := d.cm.GetConn(); if s == nil || s.State() != proto.StateRegistered] *)
Definition registered_conn : M Dialer nat :=
  c ← GetConn_;
  d ← get;
  match c with
  | None => throw (Errorf "no connection is available" [])
  | Some c =>
      if decide (State_ (servers d) c ≠ StateRegistered) then
        throw (Errorf "no connection is available" [])
      else mret c
  end.

(** [d.cm.RemoveConnection(s.ID())] *)
Definition remove_conn (c : nat) : M Dialer () :=
  d ← get; on_cm (RemoveConnection (ID (servers d) c)).

(** The deferred [d.removeRequest(id)] runs on every path after [addRequest]. *)
Definition DialContext : M Dialer handle :=
  c ← registered_conn;
  i ← lift (call_ CNewUUID);
  ch ← addRequest i;
  r ← attempt (on_servers (ConnectCommand_ c i));
  match r with
  | Err e =>
      remove_conn c;;
      _ ← removeRequest i;
      throw (Wrapf "failed to request connection: %w" e)
  | Ok _ =>
      conn ← lift (call_ (CSelectConn ch));
      _ ← removeRequest i;
      match conn with
      | None => throw ContextErr
      | Some h => mret h
      end
  end.

Definition SendEvent (name : string) (data : payload) : M Dialer () :=
  c ← registered_conn;
  r ← attempt (on_servers (CustomEvent_ c name data));
  match r with
  | Err e => remove_conn c;; throw (Wrapf "failed to send event: %w" e)
  | Ok _ => mret ()
  end.

Definition go (g : goroutine) : M Dialer () := _ ← lift (call_ (CGo g)); mret ().

(** A failed listen leaves the context cancellable. *)
Definition Start : M Dialer () :=
  modify set_started;;
  d ← get;
  wrap "failed to listen: %w"
    (check (call_ (CListen (listen d) (bool_decide (is_Some (tlsConfig d))))));;
  go GServe;;
  go GCloseListener.

Definition Stop : M Dialer () :=
  d ← get;
  if started d then
    _ ← lift (call_ CCancel); _ ← lift (call_ CWait); mret ()
  else mret ().

(** The accept loop, for [fuel] connections at most; [false] when they were not enough. *)
Fixpoint serve (fuel : nat) : M Dialer bool :=
  match fuel with
  | O => mret false
  | S fuel' =>
      r ← lift (call_ CAcceptConn);
      match (r : io_error + handle) with
      | inl _ => _ ← lift (call_ CCancel); mret true
      | inr conn => go (GHandleConn conn);; serve fuel'
      end
  end.

(** A new object of the store. *)
Definition new_server (v : ServerV2.ServerV2) : M Dialer nat := λ d,
  let c := fresh (dom (servers d)) in
  Ret (set_cm (cm d, <[c := v]> (servers d)) d, Ok c).

Definition handleV1RegisteredConnection (c : nat) : M Dialer () :=
  on_cm (AddConnection c);; go (GRemoveOnDone c).
Definition handleV2RegisteredConnection (c : nat) : M Dialer () :=
  on_cm (AddConnection c);; go (GAcceptStreams c).

(** The goroutine of a V1 connection, once the dialer's context is done. *)
Definition v1_goroutine (c : nat) : M Dialer () := remove_conn c.

(** The loop of the goroutine of a V2 connection, for [fuel] streams at most. *)
Fixpoint accept_loop (fuel : nat) (c : nat) : M Dialer bool :=
  match fuel with
  | O => mret false
  | S fuel' =>
      r ← attempt (on_servers (on_server c ServerV2.AcceptStream));
      match r with
      | Err _ => mret true
      | Ok stream => go (GHandleStream stream);; accept_loop fuel' c
      end
  end.

(** The goroutine: it starts one that closes the session when the dialer stops, and ends
    that one first; the deferred removal names the identifier the connection had at the
    start. *)
Definition v2_goroutine (fuel : nat) (c : nat) : M Dialer bool :=
  d ← get;
  let i := ID (servers d) c in
  go (GCloseServerOnDone c);;
  finished ← accept_loop fuel c;
  if finished : bool then
    _ ← lift (call_ CCloseDone);
    on_cm (RemoveConnection i);;
    mret true
  else mret false.

(** The watcher of the handshake, started first, waits for [CCancel], to close the
    connection, and for [CCloseDone], to spare it (file Watcher has their interleaving). *)
Definition handleConnection (conn : handle) : M Dialer () :=
  go (GCloseOnDone conn);;
  d ← get;
  c ← new_server (ServerV2.NewServerV2 conn (serverOpts d) []);
  r ← attempt (on_servers (on_server c ServerV2.Process));
  d ← get;
  (match r with
   | Err _ => mret ()
   | Ok _ =>
       match State_ (servers d) c with
       | StateRegistered =>
           _ ← lift (call_ CCloseDone);
           if ServerV2.IsV2 (servers d !!! c) then handleV2RegisteredConnection c
           else handleV1RegisteredConnection c
       | StateBound =>
           req ← removeRequest (ID (servers d) c);
           match req with
           | None => mret ()
           | Some ch =>
               sent ← lift (call_ (CDeliver ch conn));
               if sent : bool then _ ← lift (call_ CCloseDone); mret () else mret ()
           end
       | _ => mret ()
       end
   end);;
  _ ← lift (call_ CCancel);
  mret ().

(** [_ = stream.Close()] and return. *)
Definition close_stream (stream : handle) : M Dialer () :=
  _ ← lift (conn_Close stream); mret ().

(** A failing step closes the stream. *)
Definition or_close_stream {A} (stream : handle) (p : io (result A)) (k : A → M Dialer ()) :
    M Dialer () :=
  r ← attempt (liftR p);
  match r with
  | Err _ => close_stream stream
  | Ok a => k a
  end.

Definition handleV2Stream (stream : handle) : M Dialer () :=
  or_close_stream stream (conn_Read stream 2) (λ buf,
  if decide (buf !!! 0%nat ≠ VersionV1) then close_stream stream
  else if decide (buf !!! 1%nat ≠ CmdBind) then close_stream stream
  else
  or_close_stream stream (conn_Read stream 16) (λ uuidBuf,
  or_close_stream stream (Ret (uuid_FromBytes uuidBuf)) (λ id,
  or_close_stream stream (e ← conn_Write stream [VersionV1; ResSuccess];
                          Ret match e with None => Ok () | Some e => Err (IOErr e) end) (λ _,
  req ← removeRequest id;
  match req with
  | None => close_stream stream
  | Some ch =>
      sent ← lift (call_ (CDeliver ch stream));
      if sent : bool then mret () else close_stream stream
  end)))).

End dialer.

(** ** Specifications, in every world *)

(** The calls of the protocols and of their streams. *)
Definition protocol_call (c : call) : Prop :=
  match c with
  | CRead _ _ | CWrite _ _ | CClose _ | CYamuxServer _ _ | CYamuxClient _ _ | CAcceptStream _
  | COpenStream _ | CSessionClose _ => True
  | _ => False
  end.

(** The calls by which a method meets the dialer's requests: an identifier is drawn for
    one, a dial waits on its channel, a connection is handed over. *)
Definition on_request (c : call) : Prop :=
  match c with CNewUUID | CSelectConn _ | CDeliver _ _ => True | _ => False end.
#[export] Instance on_request_dec c : Decision (on_request c).
Proof. destruct c; apply _. Defined.

Definition request_events (tr : list event) : list event := filter (λ e, on_request (projT1 e)) tr.

Lemma request_events_app tr1 tr2 : request_events (tr1 ++ tr2) = request_events tr1 ++ request_events tr2.
Proof. apply filter_app. Qed.

Lemma request_events_nil tr : Forall (λ c, ¬ on_request c) (calls tr) → request_events tr = [].
Proof.
  induction tr as [|e tr IH]; [done|]. intros [He Htr]%Forall_cons. unfold request_events.
  rewrite filter_cons_False by exact He. by apply IH.
Qed.

Lemma protocol_request_events tr : Forall protocol_call (calls tr) → request_events tr = [].
Proof. intros H. apply request_events_nil. eapply Forall_impl; [exact H|]. intros c Hc. destruct c; cbn in *; tauto. Qed.

Lemma traffic_protocol h tr rx tx : traffic h tr rx tx → Forall protocol_call (calls tr).
Proof. intros [H _]. eapply Forall_impl; [exact H|]. intros c Hc. destruct c; cbn in *; tauto. Qed.

Lemma traffic_request_events h tr rx tx : traffic h tr rx tx → request_events tr = [].
Proof. intros H. by eapply protocol_request_events, traffic_protocol. Qed.

Section protocol.
Context `{X : Externals}.

Ltac walk := only_walk ltac:(exact I).

Lemma handleInit_loop_protocol ms : onlyM protocol_call (handleInit_loop ms).
Proof.
  induction ms as [|m ms IH]; cbn [handleInit_loop]; [walk|].
  unfold handleAuth, handleUserPassAuth, handleCredentials, s_read, s_write, sendRequest, readMsg,
    conn_Write. walk.
Qed.

Lemma Process_protocol : onlyM protocol_call ServerV2.Process.
Proof.
  pose proof handleInit_loop_protocol.
  unfold ServerV2.Process, ServerV2.processV2AfterAuth, ServerV2.via, or_close, handleInit,
    handleRegister, handleBind, s_read, s_write, sendRequest, readMsg, world_call, conn_Write,
    conn_Close. walk.
Qed.

Lemma CloseConn_protocol (c : nat) : onlyM protocol_call (CloseConn (ServerConn := servers_conn) c).
Proof. cbn. unfold on_server, ServerV2.Close, ServerV2.via, Server.Close, conn_Close. walk. Qed.

Lemma AddConnection_protocol c : onlyM protocol_call (AddConnection (I := servers_conn) c).
Proof. pose proof CloseConn_protocol. unfold AddConnection, set_connections, on_store. walk. Qed.

Lemma RemoveConnection_protocol i : onlyM protocol_call (RemoveConnection (I := servers_conn) i).
Proof. pose proof CloseConn_protocol. unfold RemoveConnection, set_connections, on_store. walk. Qed.

End protocol.

Section stream.
Context `{X : Externals}.
Implicit Types (d : Dialer).

(** The peer named the request [i]: the bind command and the identifier were read, and
    the confirmation was sent. *)
Definition named (stream : handle) (i : uuid) (tr : list event) : Prop :=
  ∃ x y, traffic stream tr (x ++ y) [versionV1; resSuccess] ∧
    fill 2 x = [versionV1; cmdBind] ∧ uuid_FromBytes (fill 16 y) = Ok i.

(** It named none: the two bytes read first are not a bind command, the identifier could
    not be read, or the confirmation not be written. *)
Definition rd_failed (r : rd) : Prop := match r with RdErr _ _ => True | RdData _ _ => False end.

Inductive unnamed (stream : handle) : list event → Prop :=
  | unnamed_command r1 :
      rd_failed r1 ∨ fill 2 (rd_bytes 2 r1) ≠ [versionV1; cmdBind] →
      unnamed stream [ev (CRead stream 2) r1]
  | unnamed_id r1 r2 :
      ¬ rd_failed r1 → fill 2 (rd_bytes 2 r1) = [versionV1; cmdBind] →
      rd_failed r2 ∨ is_Ok (uuid_FromBytes (fill 16 (rd_bytes 16 r2))) = false →
      unnamed stream [ev (CRead stream 2) r1; ev (CRead stream 16) r2]
  | unnamed_unconfirmed r1 r2 e :
      ¬ rd_failed r1 → fill 2 (rd_bytes 2 r1) = [versionV1; cmdBind] →
      ¬ rd_failed r2 → is_Ok (uuid_FromBytes (fill 16 (rd_bytes 16 r2))) = true →
      unnamed stream [ev (CRead stream 2) r1; ev (CRead stream 16) r2;
                      ev (CWrite stream [versionV1; resSuccess]) (Some e)].

Lemma unnamed_traffic stream tr : unnamed stream tr → ∃ rx, traffic stream tr rx [].
Proof.
  intros [r1 _|r1 r2 _ _ _|r1 r2 e _ _ _ _].
  - eexists. apply traffic_read.
  - eexists. eapply (traffic_cons _ _ _ _ _ [] []); apply traffic_read.
  - eexists. eapply (traffic_cons _ _ _ _ _ [] []); [apply traffic_read|].
    eapply (traffic_cons _ _ _ _ _ [] []); [apply traffic_read|apply traffic_write].
Qed.

(** The ends of a stream that was accepted.  It is closed, exactly once and last: without
    an answer when it named no request, and after the confirmation when the request it
    named is not pending or ends first.  Otherwise it is handed to that request, which is
    no longer pending. *)
Definition stream_post (stream : handle) d (tr : list event) d' (r : result ()) : Prop :=
  r = Ok () ∧
  ((∃ tr' cl, tr = tr' ++ [ev (CClose stream) cl] ∧ unnamed stream tr' ∧ d' = d) ∨
   ∃ tr' i, named stream i tr' ∧
     match requests d !! i with
     | None => d' = d ∧ ∃ cl, tr = tr' ++ [ev (CClose stream) cl]
     | Some ch => d' = set_requests (delete i (requests d)) (next_ch d) d ∧
         (tr = tr' ++ [ev (CDeliver ch stream) true] ∨
          ∃ cl, tr = tr' ++ [ev (CDeliver ch stream) false; ev (CClose stream) cl])
     end).

Lemma close_stream_spec stream d :
  wpM (close_stream stream) d (λ tr d' r,
    r = Ok () ∧ d' = d ∧ ∃ cl, tr = [ev (CClose stream) cl]).
Proof.
  unfold close_stream. rewrite wpM_bind, wpM_lift. cbn [wp conn_Close call_].
  intros cl. rewrite wpM_ret. split; [done|]. split; [done|]. by exists cl.
Qed.

Lemma close_stream_post stream tr d :
  unnamed stream tr → wpM (close_stream stream) d (λ tr', stream_post stream d (tr ++ tr')).
Proof.
  intros Ht. wpM_use close_stream_spec. intros tr' d' r (-> & -> & cl & ->).
  split; [done|]. left. by exists tr, cl.
Qed.

Lemma or_close_stream_post {A} stream (p : io (result A)) k tr d :
  wp p (λ tr' r,
    match r with
    | Ok a => wpM (k a) d (λ tr'', stream_post stream d ((tr ++ tr') ++ tr''))
    | Err _ => unnamed stream (tr ++ tr')
    end) →
  wpM (or_close_stream stream p k) d (λ tr', stream_post stream d (tr ++ tr')).
Proof.
  intros Hp. unfold or_close_stream. rewrite wpM_bind, wpM_attempt, wpM_liftR.
  eapply wp_mono; [exact Hp|]. cbn. intros tr' [a|e] H; cbn.
  - eapply wpM_mono; [exact H|]. intros tr'' d' r. by rewrite app_assoc.
  - eapply wpM_mono; [by apply (close_stream_post stream (tr ++ tr'))|].
    intros tr'' d' r. by rewrite app_assoc.
Qed.

(** A read of the handler. *)
Lemma wp_conn_Read h n Q :
  wp (conn_Read h n) Q ↔
    ∀ r, Q [ev (CRead h n) r] match r with
                              | RdData _ _ => Ok (fill n (rd_bytes n r))
                              | RdErr _ e => Err (IOErr e)
                              end.
Proof. done. Qed.

Lemma fill_2 x : ∃ a b, fill 2 x = [a; b].
Proof. destruct x as [|a [|b x]]; by repeat eexists. Qed.

(** The end of the handler, once the request [i] was named. *)
Lemma hand_over_post stream i tr d :
  named stream i tr →
  wpM (req ← removeRequest i;
       match req with
       | None => close_stream stream
       | Some ch => sent ← lift (call_ (CDeliver ch stream));
                    if sent : bool then mret () else close_stream stream
       end) d (λ tr', stream_post stream d (tr ++ tr')).
Proof.
  intros Hn. rewrite wpM_bind. unfold removeRequest. rewrite wpM_bind, wpM_get.
  destruct (requests d !! i) as [ch|] eqn:Er.
  - rewrite wpM_bind, wpM_modify, wpM_ret, wpM_bind, wpM_lift. cbn [wp call_]. intros [].
    + rewrite wpM_ret. split; [done|]. right. exists tr, i. split; [done|]. rewrite Er.
      split; [done|]. by left.
    + wpM_use close_stream_spec. intros tr1 d1 r (-> & -> & cl & ->). split; [done|]. right.
      exists tr, i. split; [done|]. rewrite Er. split; [done|]. right. by exists cl.
  - rewrite wpM_ret. wpM_use close_stream_spec. intros tr1 d1 r (-> & -> & cl & ->).
    split; [done|]. right. exists tr, i. split; [done|]. rewrite Er. split; [done|]. by exists cl.
Qed.

Lemma handleV2Stream_spec stream d : wpM (handleV2Stream stream) d (stream_post stream d).
Proof.
  unfold handleV2Stream. change (stream_post stream d) with (λ tr', stream_post stream d ([] ++ tr')).
  eapply or_close_stream_post, wp_conn_Read. intros r1. cbn [app].
  assert (rd_failed r1 → unnamed stream [ev (CRead stream 2) r1]) as Hf1
    by (intros; apply unnamed_command; by left).
  pose proof (traffic_read stream 2 r1) as Ht1. destruct r1 as [b1 bs1|bs1 e1]; [clear Hf1|by apply Hf1].
  set (r1 := RdData b1 bs1) in *. assert (¬ rd_failed r1) as Hn1 by (intros []).
  destruct (fill_2 (rd_bytes 2 r1)) as (v & c & Hx). rewrite Hx.
  change ([v; c] !!! 0%nat) with v. change ([v; c] !!! 1%nat) with c.
  assert ([v; c] ≠ [versionV1; cmdBind] → unnamed stream [ev (CRead stream 2) r1]) as Hf1
    by (intros; apply unnamed_command; right; by rewrite Hx).
  case_decide as Hv; [apply (close_stream_post stream [_]), Hf1; intros [= -> ->]; by apply Hv|].
  case_decide as Hb; [apply (close_stream_post stream [_]), Hf1; intros [= -> ->]; by apply Hb|]. clear Hf1.
  subst v c.
  apply (or_close_stream_post stream _ _ [_]), wp_conn_Read. intros r2. cbn [app].
  assert (rd_failed r2 ∨ is_Ok (uuid_FromBytes (fill 16 (rd_bytes 16 r2))) = false →
    unnamed stream [ev (CRead stream 2) r1; ev (CRead stream 16) r2]) as Hf2 by (by apply unnamed_id).
  pose proof (traffic_read stream 16 r2) as Ht2.
  destruct r2 as [b2 bs2|bs2 e2]; [|by apply Hf2; left]. set (r2 := RdData b2 bs2) in *.
  assert (¬ rd_failed r2) as Hn2 by (intros []).
  pose proof (traffic_cons _ _ _ _ _ [] [] Ht1 Ht2) as Ht12.
  apply (or_close_stream_post stream _ _ [_; _]). cbn [wp]. rewrite app_nil_r.
  destruct (uuid_FromBytes (fill 16 (rd_bytes 16 r2))) as [i|e] eqn:Ei; [clear Hf2|by apply Hf2; right].
  apply (or_close_stream_post stream _ _ [_; _]). cbn [wp mbind io_bind conn_Write call_]. intros we.
  pose proof (traffic_write stream [VersionV1; ResSuccess] we) as Ht3.
  destruct we as [we|]; [apply unnamed_unconfirmed; by rewrite ?Ei|].
  apply hand_over_post. exists (rd_bytes 2 r1), (rd_bytes 16 r2). split; [|done].
  eapply traffic_eq; [apply traffic_app; [exact Ht12|exact Ht3]|by rewrite app_nil_r|done].
Qed.

(** C23: A stream the dialer accepted is closed exactly once, as the last thing done with
    it, or handed to the pending request whose identifier the peer sent after a bind
    command, once the peer has the confirmation; that request is then no longer
    pending, so no other stream can be handed to it.  It is closed without an answer when
    it named no request (its first two bytes are not a bind command, or the identifier
    could not be read or confirmed), and after the confirmation exactly when the request it named is
    not pending or ended before the hand-over. *)
Theorem handleV2Stream_disposes stream d tr d' r :
  traces (handleV2Stream stream d) tr (d', r) → stream_post stream d tr d' r.
Proof. apply (wpM_traces (handleV2Stream stream)), handleV2Stream_spec. Qed.

End stream.

(** ** Dialing *)

Section dial.
Context `{X : Externals}.
Implicit Types (d : Dialer).

Lemma wpM_on_cm {A} (m : M (cmst (S := store)) A) d Q :
  wpM (on_cm m) d Q ↔ wpM m (cm d, servers d) (λ tr cs r, Q tr (set_cm cs d) r).
Proof. exact (wpM_zoom (λ d, (cm d, servers d)) set_cm m d Q). Qed.

Lemma wpM_on_servers {A} (m : M store A) d Q :
  wpM (on_servers m) d Q ↔ wpM m (servers d) (λ tr s r, Q tr (set_cm (cm d, s) d) r).
Proof. exact (wpM_zoom servers (λ s d, set_cm (cm d, s) d) m d Q). Qed.

Lemma wpM_on_server {A} c (m : M ServerV2.ServerV2 A) (s : store) Q :
  wpM (on_server c m) s Q ↔ wpM m (s !!! c) (λ tr v r, Q tr (<[c := v]> s) r).
Proof. exact (wpM_zoom (λ s, s !!! c) (λ v s, <[c := v]> s) m s Q). Qed.

Lemma ConnectCommand_spec c i (s : store) :
  wpM (ConnectCommand_ c i) s (λ tr s' r,
    ∃ v, s' = <[c := v]> s ∧
      send_post (server_at s c) (cmdConnect :: vec_to_list i) tr (ServerV2.base v) r).
Proof.
  cbn [ConnectCommand_ servers_conn]. rewrite wpM_on_server.
  wpM_use (ServerV2.v2_SendConnectCommand_spec i (s !!! c)). intros tr v r [_ H]. by exists v.
Qed.

(** Servers that were not closed keep their identifiers, so removing finds them. *)
Lemma remove_conn_spec c d :
  unique_ids (I := servers_conn) (cm d, servers d) →
  wpM (remove_conn c) d (λ tr d' r, r = Ok () ∧ requests d' = requests d ∧ next_ch d' = next_ch d ∧
    c ∉ connections (cm d') ∧ Forall protocol_call (calls tr)).
Proof.
  intros Hu. unfold remove_conn. rewrite wpM_bind, wpM_get, wpM_on_cm. apply wpM_traces.
  intros tr [b s] r Htr. pose proof (only_traces _ _ _ _ (RemoveConnection_protocol _ _) Htr) as Hp.
  apply (wpM_trace _ _ _ _ _ _ (RemoveConnection_gone (I := servers_conn) _ _ Hu)) in Htr as [-> Hc].
  cbn in *. repeat split; try done. intros Hin. by apply (Hc c).
Qed.

(** What a dial over the registered server [c] does; [i] is its new identifier. *)
Definition dial_post (c : nat) d (tr : list event) d' (r : result handle) : Prop :=
  ∃ i tr1 rx tx tr2, tr = ev CNewUUID i :: tr1 ++ tr2 ∧
    traffic (Server.conn (server_at (servers d) c)) tr1 rx tx ∧
    requests d' = delete i (requests d) ∧ next_ch d' = S (next_ch d) ∧
    match r with
    | Ok h => rx = [versionV1; resSuccess] ∧ tx = versionV1 :: cmdConnect :: vec_to_list i ∧
        tr2 = [ev (CSelectConn (next_ch d)) (Some h)]
    | Err e =>
        (e = ContextErr ∧ rx = [versionV1; resSuccess] ∧ tr2 = [ev (CSelectConn (next_ch d)) None]) ∨
        (∃ e', e = Wrapf "failed to request connection: %w" e' ∧ rx ≠ [versionV1; resSuccess] ∧
           (c ∉ connections (cm d')) ∧ Forall protocol_call (calls tr2))
    end.

Definition registered d (c : nat) : Prop := State_ (servers d) c = StateRegistered.
#[export] Instance registered_dec d c : Decision (registered d c).
Proof. unfold registered. apply _. Defined.

Lemma removeRequest_spec i d :
  wpM (removeRequest i) d (λ tr d' r, tr = [] ∧ (∃ ch, r = Ok ch) ∧
    requests d' = delete i (requests d) ∧ cm d' = cm d ∧ servers d' = servers d ∧
    next_ch d' = next_ch d).
Proof.
  unfold removeRequest. rewrite wpM_bind, wpM_get. destruct (requests d !! i) as [ch|] eqn:E.
  - rewrite wpM_bind, wpM_modify, wpM_ret. repeat split. by eexists.
  - rewrite wpM_ret. repeat split; [by eexists|]. by rewrite delete_id.
Qed.

Definition no_conn_err : error := Errorf "no connection is available" [].

Lemma registered_conn_spec d :
  wpM registered_conn d (λ tr d' r, tr = [] ∧
    match GetConn (cm d) with
    | None => d' = d ∧ r = Err RuntimePanic
    | Some (oc, b) => d' = set_cm (b, servers d) d ∧
        match oc with
        | Some c => if decide (registered d c) then r = Ok c else r = Err no_conn_err
        | None => r = Err no_conn_err
        end
    end).
Proof.
  unfold registered_conn, GetConn_. rewrite wpM_bind, wpM_bind, wpM_get.
  destruct (GetConn (cm d)) as [[oc b]|]; [|by rewrite wpM_throw].
  rewrite wpM_bind, wpM_modify, wpM_ret, wpM_bind, wpM_get. destruct oc as [c|]; [|by rewrite wpM_throw].
  unfold registered. change (servers (set_cm (b, servers d) d)) with (servers d).
  repeat case_decide; try tauto; rewrite ?wpM_throw, ?wpM_ret; done.
Qed.

Lemma send_post_registered (s s' : Server) req tr (r : result ()) :
  Server.state s = StateRegistered → send_post s req tr s' r → request_post s req tr s' r.
Proof. unfold send_post. by intros ->. Qed.

(** The rest of [DialContext], once a registered server is found. *)
Lemma dial_spec c d :
  unique_ids (I := servers_conn) (cm d, servers d) →
  registered d c →
  wpM (i ← lift (call_ CNewUUID);
       ch ← addRequest i;
       r ← attempt (on_servers (ConnectCommand_ c i));
       match r with
       | Err e => remove_conn c;; _ ← removeRequest i;
                  throw (Wrapf "failed to request connection: %w" e)
       | Ok _ => conn ← lift (call_ (CSelectConn ch)); _ ← removeRequest i;
                 match conn with None => throw ContextErr | Some h => mret h end
       end) d (dial_post c d).
Proof.
  intros Hu Hreg. rewrite wpM_bind, wpM_lift. cbn [wp call_]. intros i.
  rewrite wpM_bind. unfold addRequest at 1. rewrite wpM_bind, wpM_get, wpM_bind, wpM_modify, wpM_ret.
  rewrite wpM_bind, wpM_attempt. rewrite wpM_on_servers.
  wpM_use (ConnectCommand_spec c i).
  intros tr1 s' r (v & -> & Hsend). apply send_post_registered in Hsend; [|exact Hreg].
  destruct Hsend as (Hv & rx & tx & Ht & _ & Hok & Htx). cbn in Hv, Ht.
  set (d1 := set_cm _ _). assert (requests d1 = <[i := next_ch d]> (requests d)) as Hr1 by done.
  assert (next_ch d1 = S (next_ch d)) as Hn1 by done.
  assert (unique_ids (I := servers_conn) (cm d1, servers d1)) as Hu1.
  { unfold unique_ids in *. cbn. erewrite list_fmap_ext; [exact Hu|]. intros k x _. cbn.
    unfold server_at. destruct (decide (c = x)) as [<-|Hne].
    - by rewrite lookup_total_insert_eq, Hv.
    - by rewrite lookup_total_insert_ne. }
  clearbody d1. destruct r as [[]|e].
  - destruct Hok as [Hok _]. rewrite wpM_bind, wpM_lift. cbn [wp call_]. intros a.
    rewrite wpM_bind. wpM_use removeRequest_spec.
    intros tr2 d2 r (-> & [ch ->] & Hr2 & _ & _ & Hn2).
    assert (requests d2 = delete i (requests d)) as Hrd
      by (by rewrite Hr2, Hr1, delete_insert_eq).
    rewrite Hn1 in Hn2. destruct a as [h|].
    + rewrite wpM_ret. exists i, tr1, rx, tx, [ev (CSelectConn (next_ch d)) (Some h)].
      do 4 (split; [done|]). split; [by apply Hok|]. split; [by apply Htx|done].
    + rewrite wpM_throw. exists i, tr1, rx, tx, [ev (CSelectConn (next_ch d)) None].
      do 4 (split; [done|]). left. split; [done|]. split; [by apply Hok|done].
  - rewrite wpM_bind. eapply wpM_mono; [by apply remove_conn_spec|].
    intros tr2 d2 r (-> & Hr2 & Hn2 & Hc & Hp). rewrite wpM_bind. wpM_use removeRequest_spec.
    intros tr3 d3 r (-> & [ch ->] & Hr3 & Hcm & _ & Hn3). rewrite wpM_throw.
    exists i, tr1, rx, tx, tr2. rewrite !app_nil_r. split; [done|]. split; [done|].
    split; [by rewrite Hr3, Hr2, Hr1, delete_insert_eq|]. split; [by rewrite Hn3, Hn2|].
    right. exists e. split; [done|]. split; [intros Hrx; by apply Hok in Hrx|].
    split; [by rewrite Hcm | exact Hp].
Qed.

(** [DialContext] from any state of the manager. *)
Definition dial_context_post d (tr : list event) d' (r : result handle) : Prop :=
  match GetConn (cm d) with
  | None => tr = [] ∧ d' = d ∧ r = Err RuntimePanic
  | Some (oc, b) =>
      let d1 := set_cm (b, servers d) d in
      match oc with
      | Some c =>
          if decide (registered d c) then dial_post c d1 tr d' r
          else tr = [] ∧ d' = d1 ∧ r = Err no_conn_err
      | None => tr = [] ∧ d' = d1 ∧ r = Err no_conn_err
      end
  end.

Lemma DialContext_spec d :
  unique_ids (I := servers_conn) (cm d, servers d) →
  wpM DialContext d (dial_context_post d).
Proof.
  intros Hu. unfold DialContext, dial_context_post. rewrite wpM_bind.
  wpM_use registered_conn_spec. intros tr d1 r [-> H].
  destruct (GetConn (cm d)) as [[oc b]|] eqn:Eg; [|by destruct H as [-> ->]].
  destruct H as [-> H]. destruct oc as [c|]; [|by subst r].
  destruct (decide (registered d c)) as [Hreg|]; [|by subst r]. subst r. apply dial_spec; [|exact Hreg].
  unfold unique_ids in *. cbn in *. by rewrite (GetConn_connections _ _ _ Eg).
Qed.

(** C21: A dial asks the next registered listener for a connection under a fresh
    identifier and returns exactly what is delivered to that request; if the listener
    does not confirm, it is dropped from the manager; on every path the request is no
    longer pending when the dial is over. *)
Theorem DialContext_outcome d tr d' r :
  unique_ids (I := servers_conn) (cm d, servers d) →
  traces (DialContext d) tr (d', r) → dial_context_post d tr d' r.
Proof. intros Hu. apply (wpM_traces DialContext). by apply DialContext_spec. Qed.

End dial.

(** ** Incoming connections *)

Section incoming.
Context `{X : Externals}.
Implicit Types (d : Dialer).

(** The server [handleConnection] creates, and a run of its [Process]. *)
Definition processed conn d (trP : list event) (v : ServerV2.ServerV2) (r : result ()) : Prop :=
  traces (ServerV2.Process (ServerV2.NewServerV2 conn (serverOpts d) [])) trP (v, r).

Definition conn_id (v : ServerV2.ServerV2) : uuid := id (ServerV2.base v).
Definition conn_state (v : ServerV2.ServerV2) : State := state (ServerV2.base v).

(** The ends of an incoming connection, between the start of the watcher and its
    cancellation: kept as a listener's, handed to the request it names, or left to the
    watcher, which is not told to spare it, because the request's context ended first or
    there was nothing to hand it to. *)
Inductive incoming (conn : handle) d : list event → Dialer → Prop :=
  | incoming_registered trP v c trA d' :
      processed conn d trP v (Ok ()) → conn_state v = StateRegistered →
      c ∈ connections (cm d') → requests d' = requests d → Forall protocol_call (calls trA) →
      incoming conn d (trP ++ ev CCloseDone () :: trA ++
        [ev (CGo (if ServerV2.IsV2 v then GAcceptStreams c else GRemoveOnDone c)) ()]) d'
  | incoming_delivered trP v ch d' :
      processed conn d trP v (Ok ()) → conn_state v = StateBound →
      requests d !! conn_id v = Some ch → requests d' = delete (conn_id v) (requests d) →
      incoming conn d (trP ++ [ev (CDeliver ch conn) true; ev CCloseDone ()]) d'
  | incoming_undelivered trP v ch d' :
      processed conn d trP v (Ok ()) → conn_state v = StateBound →
      requests d !! conn_id v = Some ch → requests d' = delete (conn_id v) (requests d) →
      incoming conn d (trP ++ [ev (CDeliver ch conn) false]) d'
  | incoming_dropped trP v r d' :
      processed conn d trP v r →
      (r = Ok () → match conn_state v with
                   | StateRegistered => False
                   | StateBound => requests d !! conn_id v = None
                   | _ => True
                   end) →
      requests d' = requests d → incoming conn d trP d'.

Lemma go_spec g d : wpM (go g) d (λ tr d' r, tr = [ev (CGo g) ()] ∧ d' = d ∧ r = Ok ()).
Proof. unfold go. rewrite wpM_bind, wpM_lift. cbn [wp call_]. intros []. by rewrite wpM_ret. Qed.

Lemma AddConnection_on_cm c d :
  wpM (on_cm (AddConnection c)) d (λ tr d' r,
    r = Ok () ∧ requests d' = requests d ∧ c ∈ connections (cm d') ∧ Forall protocol_call (calls tr)).
Proof.
  rewrite wpM_on_cm. apply wpM_traces. intros tr [b s] r Htr.
  pose proof (only_traces _ _ _ _ (AddConnection_protocol _ _) Htr) as Hp.
  apply (wpM_trace _ _ _ _ _ _ (AddConnection_spec (I := servers_conn) _ _)) in Htr as (-> & _ & _ & Hc).
  cbn in *. split; [done|]. split; [done|]. split; [|exact Hp]. rewrite Hc.
  destruct (find_id _ _ _) as [[i x]|] eqn:E.
  - apply list_find_Some in E as (Hi & _). apply list_elem_of_lookup_2 with i.
    apply list_lookup_insert_eq. by eapply lookup_lt_Some.
  - apply elem_of_app. right. by left.
Qed.

Lemma handle_registered g c d :
  wpM (on_cm (AddConnection c);; go g) d (λ tr d' r,
    r = Ok () ∧ requests d' = requests d ∧ c ∈ connections (cm d') ∧
    ∃ trA, tr = trA ++ [ev (CGo g) ()] ∧ Forall protocol_call (calls trA)).
Proof.
  rewrite wpM_bind. wpM_use AddConnection_on_cm. intros trA d1 r (-> & Hr & Hc & Hp).
  wpM_use go_spec. intros tr2 d2 r2 (-> & -> & ->). repeat split; try done. by exists trA.
Qed.

Lemma wpM_new_server v d Q :
  wpM (new_server v) d Q ↔
    Q [] (set_cm (cm d, <[fresh (dom (servers d)) := v]> (servers d)) d) (Ok (fresh (dom (servers d)))).
Proof. done. Qed.

Lemma handleConnection_spec conn d :
  wpM (handleConnection conn) d (λ tr d' r,
    r = Ok () ∧ ∃ tr0, tr = ev (CGo (GCloseOnDone conn)) () :: tr0 ++ [ev CCancel ()] ∧
    incoming conn d tr0 d').
Proof.
  unfold handleConnection. rewrite wpM_bind. wpM_use go_spec. intros tr0 d0 r0 (-> & -> & ->).
  cbn beta iota. rewrite wpM_bind, wpM_get, wpM_bind, wpM_new_server.
  set (c := fresh (dom (servers d))). set (v0 := ServerV2.NewServerV2 conn (serverOpts d) []).
  rewrite wpM_bind, wpM_attempt, wpM_on_servers, wpM_on_server. apply wpM_traces.
  cbn [cm servers set_cm fst snd]. rewrite lookup_total_insert_eq. intros trP v r HP.
  rewrite wpM_bind, wpM_get, wpM_bind. cbn [cm servers set_cm fst snd].
  rewrite insert_insert_eq.
  set (d1 := set_cm (cm d, <[c := v]> (servers d)) _).
  apply wpM_mono with (Q := λ tr d' r, r = Ok () ∧ incoming conn d (trP ++ tr) d').
  2: { intros tr d' r' [-> H]. rewrite wpM_bind, wpM_lift. cbn [wp call_]. intros [].
       rewrite wpM_ret. split; [done|]. exists (trP ++ tr). split; [|exact H].
       by rewrite <-app_assoc. }
  assert (requests d1 = requests d) as Hd1 by done.
  destruct r as [[]|e];
    [|rewrite wpM_ret, app_nil_r; split; [done|by eapply incoming_dropped]].
  assert (State_ (<[c := v]> (servers d)) c = conn_state v) as ->
    by (cbn; unfold server_at; by rewrite lookup_total_insert_eq).
  rewrite lookup_total_insert_eq.
  destruct (conn_state v) eqn:Est; try (rewrite wpM_ret, app_nil_r; split;
    [done|eapply incoming_dropped; [exact HP|by rewrite Est|done]]).
  - rewrite wpM_bind, wpM_lift. cbn [wp call_]. intros [].
    assert (wpM (if ServerV2.IsV2 v then handleV2RegisteredConnection c
                 else handleV1RegisteredConnection c) d1 (λ tr d' r,
      r = Ok () ∧ requests d' = requests d1 ∧ c ∈ connections (cm d') ∧
      ∃ trA, tr = trA ++ [ev (CGo (if ServerV2.IsV2 v then GAcceptStreams c else GRemoveOnDone c)) ()] ∧
        Forall protocol_call (calls trA)))
      as H by (destruct (ServerV2.IsV2 v); apply handle_registered).
    eapply wpM_mono; [exact H|]. intros tr d' r (-> & Hr & Hc & trA & -> & Hp). split; [done|].
    by apply (incoming_registered conn d trP v c trA).
  - assert (ID (<[c := v]> (servers d)) c = conn_id v) as ->
      by (cbn; unfold server_at; by rewrite lookup_total_insert_eq).
    rewrite wpM_bind. unfold removeRequest. rewrite wpM_bind, wpM_get.
    change (requests d1) with (requests d).
    destruct (requests d !! conn_id v) as [ch|] eqn:Er.
    2: { rewrite !wpM_ret, app_nil_r. split; [done|].
         eapply incoming_dropped; [exact HP|by rewrite Est|done]. }
    rewrite wpM_bind, wpM_modify, wpM_ret, wpM_bind, wpM_lift. cbn [wp call_]. intros [].
    + rewrite wpM_bind, wpM_lift. cbn [wp call_]. intros []. rewrite wpM_ret. split; [done|].
      by apply (incoming_delivered conn d trP v ch).
    + rewrite wpM_ret. split; [done|]. by apply (incoming_undelivered conn d trP v ch).
Qed.

(** C22: An incoming connection ends in one of these ways: its server registered and the
    manager holds it, or it was bound and handed to the pending request it names, and in
    these two cases only is the handshake's watcher told to spare it.  Otherwise its
    handshake failed, it named no pending request, or the request's context ended first,
    and the watcher, cancelled last, closes it. *)
Theorem handleConnection_outcome conn d tr d' r :
  traces (handleConnection conn d) tr (d', r) →
  r = Ok () ∧ ∃ tr0, tr = ev (CGo (GCloseOnDone conn)) () :: tr0 ++ [ev CCancel ()] ∧
    incoming conn d tr0 d'.
Proof. revert tr d' r. apply (wpM_traces (handleConnection conn)), handleConnection_spec. Qed.

End incoming.

(** ** Witnesses *)

(** A connection that registers with identifier seven, then a dial over it. *)
Definition demo_dialer : Dialer := NewDialer "127.0.0.1:0" [].
Definition demo_uuid : uuid := vreplicate 16 x07.
Definition demo_register_bytes : list byte :=
  [versionV1; x01; noAuth; versionV1; cmdRegister] ++ vec_to_list demo_uuid.

Definition demo_registered : Dialer * world :=
  script (handleConnection (X := demo) 3%nat)
    (demo_dialer, one_conn 3%nat [take 3 demo_register_bytes; take 2 (drop 3 demo_register_bytes);
                                  drop 5 demo_register_bytes; [versionV1; resSuccess]]).

Lemma handleConnection_outcome_witness :
  requests demo_registered.1 = ∅ ∧
  ∃ tr0, incoming (X := demo) 3%nat demo_dialer tr0 demo_registered.1.
Proof.
  split; [by vm_compute|].
  destruct (script_traces (handleConnection (X := demo) 3%nat) (demo_dialer, one_conn 3%nat
    [take 3 demo_register_bytes; take 2 (drop 3 demo_register_bytes);
     drop 5 demo_register_bytes; [versionV1; resSuccess]])) as (tr & r & Htr).
  destruct (handleConnection_outcome (X := demo) 3%nat demo_dialer tr _ r Htr) as (_ & tr0 & _ & H).
  exists tr0. exact H.
Defined.

(** The dial: the listener confirms, then the connection named five is delivered. *)
Definition demo_dial_world : world :=
  mkWorld {[3%nat := [[versionV1; resSuccess]]]} ioEOF ∅ [] [] [inr 5%nat] 0 [].

Definition demo_dialed : list event * (Dialer * result handle) * world :=
  run script_handler (DialContext (X := demo) demo_registered.1) demo_dial_world.

Lemma demo_dialed_result : demo_dialed.1.2.2 = Ok 5%nat.
Proof. by vm_compute. Qed.

Lemma DialContext_outcome_witness :
  dial_context_post (X := demo) demo_registered.1 demo_dialed.1.1 demo_dialed.1.2.1 (Ok 5%nat).
Proof.
  assert (unique_ids (I := servers_conn (X := demo)) (cm demo_registered.1, servers demo_registered.1)) as Hu.
  { unfold unique_ids. apply (bool_decide_unpack _). by vm_compute. }
  assert (traces (DialContext (X := demo) demo_registered.1) demo_dialed.1.1
            (demo_dialed.1.2.1, Ok 5%nat)) as Htr.
  { rewrite <-demo_dialed_result, <-surjective_pairing.
    exact (run_traces script_handler (DialContext (X := demo) demo_registered.1) demo_dial_world). }
  exact (DialContext_outcome (X := demo) _ _ _ _ Hu Htr).
Defined.

(** A stream that binds to a request that is not pending is closed. *)
Lemma handleV2Stream_disposes_witness :
  ∃ tr r, stream_post (X := demo) 9%nat demo_dialer tr
    (script (handleV2Stream (X := demo) 9%nat) (demo_dialer, one_conn 9%nat [[versionV1; cmdBind];
       vec_to_list demo_uuid])).1 r.
Proof.
  destruct (script_traces (handleV2Stream (X := demo) 9%nat) (demo_dialer, one_conn 9%nat
    [[versionV1; cmdBind]; vec_to_list demo_uuid])) as (tr & r & Htr).
  exists tr, r. exact (handleV2Stream_disposes (X := demo) 9%nat demo_dialer tr _ r Htr).
Defined.
