(* ===== verification/Dispatch.v ===== *)
(** * dialer.go: concurrent dials and incoming connections

    Any number of [DialContext] calls and of incoming bound connections (or streams) run
    at once.  They meet in the map of pending requests, whose accesses are atomic under
    the dialer's mutex, and in the requests' channels, of capacity one.  The state says
    where each dial and each bound connection is; a step is one of the atomic accesses,
    a send or receive, or a cancellation.  [uuid.New] returns an identifier no dial has
    used, as documented up to a negligible probability. *)
From S2P Require Import Prelude GoIO.

(** A [DialContext] call, known by its request's channel. *)
Inductive dial_state :=
  | DSending    (** the connect command is being sent *)
  | DWaiting    (** in the select *)
  | DLeaving    (** before the deferred [removeRequest] *)
  | DDone.

(** Where a connection that was bound is. *)
Inductive place :=
  | PBound               (** before [removeRequest(id)] *)
  | PSending (ch : nat)  (** in the select with [req.ch <- conn] *)
  | PChan (ch : nat)     (** in the channel *)
  | PReceived (ch : nat) (** returned by the dial *)
  | PClosed.

Record disp := mkDisp {
  reqs : gmap uuid nat;
  dials : gmap nat (uuid * dial_state);
  conns : gmap handle (uuid * place)
}.

Definition set_dial (ch : nat) (i : uuid) (st : dial_state) (s : disp) : disp :=
  mkDisp (reqs s) (<[ch := (i, st)]> (dials s)) (conns s).
Definition set_conn (h : handle) (j : uuid) (p : place) (s : disp) : disp :=
  mkDisp (reqs s) (dials s) (<[h := (j, p)]> (conns s)).
Definition set_reqs (f : gmap uuid nat → gmap uuid nat) (s : disp) : disp :=
  mkDisp (f (reqs s)) (dials s) (conns s).

(** The channel has no element. *)
Definition chan_empty (s : disp) (ch : nat) : Prop := ∀ h j, conns s !! h ≠ Some (j, PChan ch).

Inductive disp_step (s : disp) : disp → Prop :=
  | dial_start i ch :
      (∀ ch' st, dials s !! ch' ≠ Some (i, st)) → dials s !! ch = None →
      disp_step s (set_reqs (<[i := ch]>) (set_dial ch i DSending s))
  | dial_sent i ch :
      dials s !! ch = Some (i, DSending) → disp_step s (set_dial ch i DWaiting s)
  | dial_failed i ch :
      dials s !! ch = Some (i, DSending) → disp_step s (set_dial ch i DLeaving s)
  | dial_receive i ch h j :
      dials s !! ch = Some (i, DWaiting) → conns s !! h = Some (j, PChan ch) →
      disp_step s (set_conn h j (PReceived ch) (set_dial ch i DLeaving s))
  | dial_cancelled i ch :
      dials s !! ch = Some (i, DWaiting) → disp_step s (set_dial ch i DLeaving s)
  | dial_leave i ch :
      dials s !! ch = Some (i, DLeaving) →
      disp_step s (set_reqs (delete i) (set_dial ch i DDone s))
  | conn_bound h j :
      conns s !! h = None → disp_step s (set_conn h j PBound s)
  | conn_pop h j ch :
      conns s !! h = Some (j, PBound) → reqs s !! j = Some ch →
      disp_step s (set_reqs (delete j) (set_conn h j (PSending ch) s))
  | conn_unknown h j :
      conns s !! h = Some (j, PBound) → reqs s !! j = None →
      disp_step s (set_conn h j PClosed s)
  | conn_deliver h j ch :
      conns s !! h = Some (j, PSending ch) → chan_empty s ch →
      disp_step s (set_conn h j (PChan ch) s)
  | conn_drop h j ch :
      conns s !! h = Some (j, PSending ch) → disp_step s (set_conn h j PClosed s).

Definition initial : disp := mkDisp ∅ ∅ ∅.
Definition reachable (s : disp) : Prop := rtc disp_step initial s.

(** The dial a connection has been matched with. *)
Definition matched (p : place) : option nat :=
  match p with
  | PSending ch | PChan ch | PReceived ch => Some ch
  | PBound | PClosed => None
  end.

(** A pending request belongs to a dial that is not over and is matched with no
    connection; a matched connection carries the identifier of its dial; a dial is
    matched with one connection at most; identifiers are not reused. *)
Record disp_ok (s : disp) : Prop := mkOk {
  ok_pending : ∀ i ch, reqs s !! i = Some ch →
    (∃ st, dials s !! ch = Some (i, st) ∧ st ≠ DDone) ∧
    ∀ h j p, conns s !! h = Some (j, p) → matched p ≠ Some ch;
  ok_matched : ∀ h j p ch, conns s !! h = Some (j, p) → matched p = Some ch →
    ∃ st, dials s !! ch = Some (j, st) ∧
      (p = PReceived ch → st = DLeaving ∨ st = DDone);
  ok_unique : ∀ h1 h2 j1 j2 p1 p2 ch, conns s !! h1 = Some (j1, p1) → conns s !! h2 = Some (j2, p2) →
    matched p1 = Some ch → matched p2 = Some ch → h1 = h2;
  ok_ids : ∀ ch1 ch2 i st1 st2, dials s !! ch1 = Some (i, st1) → dials s !! ch2 = Some (i, st2) →
    ch1 = ch2
}.

Lemma initial_ok : disp_ok initial.
Proof.
  split; cbn.
  - by intros i ch H%lookup_empty_Some.
  - by intros h j p ch H%lookup_empty_Some.
  - by intros h1 h2 j1 j2 p1 p2 ch H%lookup_empty_Some.
  - by intros ch1 ch2 i st1 st2 H%lookup_empty_Some.
Qed.

Section preservation.
Implicit Types s : disp.

(** A dial goes on, keeping its identifier. *)
Lemma set_dial_ok s ch i st st' :
  disp_ok s → dials s !! ch = Some (i, st) → st ≠ DDone →
  (st' = DDone → reqs s !! i = None) →
  (∀ h j, conns s !! h = Some (j, PReceived ch) → st' = DLeaving ∨ st' = DDone) →
  disp_ok (set_dial ch i st' s).
Proof.
  intros [HA HB HC HD] Hch Hst Hdone Hrec. split; cbn.
  - intros i' ch' Hr. destruct (HA _ _ Hr) as [(st0 & Hd & Hne) Hm]. split; [|exact Hm].
    destruct (decide (ch = ch')) as [<-|]; [|rewrite lookup_insert_ne by done; eauto].
    rewrite lookup_insert_eq. rewrite Hch in Hd. injection Hd as -> ->. exists st'.
    split; [done|]. intros ->. by rewrite Hdone in Hr.
  - intros h j p ch' Hh Hp. destruct (HB _ _ _ _ Hh Hp) as (st0 & Hd & Hr).
    destruct (decide (ch = ch')) as [<-|]; [|rewrite lookup_insert_ne by done; eauto].
    rewrite lookup_insert_eq. rewrite Hch in Hd. injection Hd as -> ->. exists st'.
    split; [done|]. intros ->. by apply (Hrec h j).
  - exact HC.
  - intros ch1 ch2 i' st1 st2.
    assert (∀ c t, <[ch := (i, st')]> (dials s) !! c = Some (i', t) →
              ∃ t', dials s !! c = Some (i', t')) as H.
    { intros c t. destruct (decide (ch = c)) as [<-|]; [|rewrite lookup_insert_ne by done; eauto].
      rewrite lookup_insert_eq. intros [= <- <-]. eauto. }
    intros [t1 H1]%H [t2 H2]%H. by eapply HD.
Qed.

(** A request disappears. *)
Lemma delete_req_ok s i : disp_ok s → disp_ok (set_reqs (delete i) s).
Proof.
  intros [HA HB HC HD]. split; cbn; try done.
  intros i' ch' [_ Hr]%lookup_delete_Some. by apply HA.
Qed.

(** A connection moves to a place that is not a new match, or is the match of the
    request it has just taken. *)
Lemma set_conn_ok s h j p :
  disp_ok s →
  (∀ ch, matched p = Some ch →
     (∀ i, reqs s !! i ≠ Some ch) ∧
     (∀ h' j' p', h' ≠ h → conns s !! h' = Some (j', p') → matched p' ≠ Some ch) ∧
     ∃ st, dials s !! ch = Some (j, st) ∧ (p = PReceived ch → st = DLeaving ∨ st = DDone)) →
  disp_ok (set_conn h j p s).
Proof.
  intros [HA HB HC HD] Hp. split; cbn; try done.
  - intros i ch Hr. destruct (HA _ _ Hr) as [Hd Hm]. split; [exact Hd|]. intros h' j' p'.
    destruct (decide (h = h')) as [<-|]; [|rewrite lookup_insert_ne by done; apply Hm].
    rewrite lookup_insert_eq. intros [= <- <-] Hc. destruct (Hp _ Hc) as [Hno _]. by apply (Hno i).
  - intros h' j' p' ch. destruct (decide (h = h')) as [<-|]; [|rewrite lookup_insert_ne by done; apply HB].
    rewrite lookup_insert_eq. intros [= <- <-] Hc. by destruct (Hp _ Hc) as (_ & _ & ?).
  - intros h1 h2 j1 j2 p1 p2 ch.
    destruct (decide (h = h1)) as [<-|], (decide (h = h2)) as [<-|]; try done;
      rewrite ?lookup_insert_eq, ?lookup_insert_ne by done.
    + intros [= <- <-] H2 Hc1 Hc2. destruct (Hp _ Hc1) as (_ & Hu & _).
      by destruct (Hu h2 j2 p2 ltac:(done) H2).
    + intros H1 [= <- <-] Hc1 Hc2. destruct (Hp _ Hc2) as (_ & Hu & _).
      by destruct (Hu h1 j1 p1 ltac:(done) H1).
    + apply HC.
Qed.

(** A connection that is already matched keeps its match. *)
Lemma move_conn_ok s h j p p' ch :
  disp_ok s → conns s !! h = Some (j, p) → matched p = Some ch → matched p' = Some ch →
  (p' = PReceived ch → ∃ i st, dials s !! ch = Some (i, st) ∧ (st = DLeaving ∨ st = DDone)) →
  disp_ok (set_conn h j p' s).
Proof.
  intros Hs Hh Hp Hp' Hr. apply set_conn_ok; [done|]. destruct Hs as [HA HB HC HD].
  intros ch' E. rewrite Hp' in E. injection E as <-. split; [|split].
  - intros i Hi. by destruct (HA _ _ Hi) as [_ Hm]; apply (Hm _ _ _ Hh).
  - intros h' j' p0 Hne Hh' Hm. by apply Hne, (HC _ _ _ _ _ _ _ Hh' Hh Hm Hp).
  - destruct (HB _ _ _ _ Hh Hp) as (st & Hd & _). exists st. split; [done|].
    intros Hrec. destruct (Hr Hrec) as (i & st' & Hd' & ?). rewrite Hd in Hd'. by injection Hd' as -> ->.
Qed.

Lemma dial_start_ok s i ch :
  disp_ok s → (∀ ch' st, dials s !! ch' ≠ Some (i, st)) → dials s !! ch = None →
  disp_ok (set_reqs (<[i := ch]>) (set_dial ch i DSending s)).
Proof.
  intros [HA HB HC HD] Hi Hch.
  assert (∀ h j p, conns s !! h = Some (j, p) → matched p ≠ Some ch) as Hno.
  { intros h j p Hh Hp. destruct (HB _ _ _ _ Hh Hp) as (st & Hd & _). congruence. }
  split; cbn.
  - intros i' ch'. destruct (decide (i = i')) as [<-|].
    + rewrite lookup_insert_eq. intros [= <-]. split; [|exact Hno].
      rewrite lookup_insert_eq. by exists DSending.
    + rewrite lookup_insert_ne by done. intros Hr. destruct (HA _ _ Hr) as [(st & Hd & ?) Hm].
      split; [|exact Hm]. exists st. split; [|done]. by rewrite lookup_insert_ne by congruence.
  - intros h j p ch' Hh Hp. destruct (HB _ _ _ _ Hh Hp) as (st & Hd & ?). exists st.
    split; [|done]. by rewrite lookup_insert_ne by congruence.
  - exact HC.
  - intros ch1 ch2 i' st1 st2.
    destruct (decide (ch = ch1)) as [<-|], (decide (ch = ch2)) as [<-|]; try done;
      rewrite ?lookup_insert_eq, ?lookup_insert_ne by done.
    + intros [= <- <-] H2. by destruct (Hi _ _ H2).
    + intros H1 [= <- <-]. by destruct (Hi _ _ H1).
    + apply HD.
Qed.

Lemma disp_step_ok s s' : disp_ok s → disp_step s s' → disp_ok s'.
Proof.
  intros Hs Hst. pose proof Hs as [HA HB HC HD].
  assert (∀ ch i st h j, dials s !! ch = Some (i, st) → conns s !! h = Some (j, PReceived ch) →
            st = DLeaving ∨ st = DDone) as Hrec.
  { intros ch i st h j Hd Hh. destruct (HB _ _ _ _ Hh eq_refl) as (st' & Hd' & Hr).
    rewrite Hd in Hd'. injection Hd' as -> ->. by apply Hr. }
  destruct Hst as [i ch Hi Hch|i ch Hch|i ch Hch|i ch h j Hch Hh|i ch Hch|i ch Hch|h j Hh|h j ch Hh Hr|h j Hh Hr|h j ch Hh He|h j ch Hh].
  - by apply dial_start_ok.
  - eapply set_dial_ok; try done. intros h j Hh. by destruct (Hrec _ _ _ _ _ Hch Hh).
  - eapply set_dial_ok; try done. by left.
  - apply (move_conn_ok _ h j (PChan ch) (PReceived ch) ch); try done.
    + eapply set_dial_ok; try done. by left.
    + intros _. cbn. rewrite lookup_insert_eq. eauto.
  - eapply set_dial_ok; try done. by left.
  - change (disp_ok (set_dial ch i DDone (set_reqs (delete i) s))).
    eapply set_dial_ok; try done; [by apply delete_req_ok|cbn; intros _; apply lookup_delete_eq|by right].
  - by apply set_conn_ok.
  - change (disp_ok (set_conn h j (PSending ch) (set_reqs (delete j) s))).
    apply set_conn_ok; [by apply delete_req_ok|]. intros ch' [= <-]. cbn.
    destruct (HA _ _ Hr) as [(st & Hd & _) Hm]. split; [|split].
    + intros i [Hne Hi]%lookup_delete_Some. destruct (HA _ _ Hi) as [(st' & Hd' & _) _].
      apply Hne. rewrite Hd in Hd'. by injection Hd'.
    + intros h' j' p' _ Hh'. by apply (Hm _ _ _ Hh').
    + by exists st.
  - by apply set_conn_ok.
  - by apply (move_conn_ok _ h j (PSending ch) (PChan ch) ch).
  - by apply set_conn_ok.
Qed.

Lemma reachable_ok s : reachable s → disp_ok s.
Proof.
  intros Hr. pose proof initial_ok as H0. revert H0.
  induction Hr as [|s1 s2 s3 H12 _ IH]; [done|]. intros H. apply IH. by eapply disp_step_ok.
Qed.

End preservation.

(** ** Properties *)

(** A connection on its way to a dial carries its identifier, and is the only one. *)
Lemma one_connection s h j p ch :
  reachable s → conns s !! h = Some (j, p) → matched p = Some ch →
  (∃ st, dials s !! ch = Some (j, st)) ∧
  ∀ h' j' p', conns s !! h' = Some (j', p') → matched p' = Some ch → h' = h.
Proof.
  intros [HA HB HC HD]%reachable_ok Hh Hp. split.
  - destruct (HB _ _ _ _ Hh Hp) as (st & Hd & _). by exists st.
  - intros h' j' p' Hh' Hp'. by apply (HC _ _ _ _ _ _ _ Hh' Hh Hp' Hp).
Qed.

(** Handing a connection to a request never blocks: the channel of a request that was
    taken from the map is empty. *)
Lemma delivery_never_blocks s h j ch :
  reachable s → conns s !! h = Some (j, PSending ch) → ∃ s', disp_step s s' ∧ conns s' !! h = Some (j, PChan ch).
Proof.
  intros [HA HB HC HD]%reachable_ok Hh. exists (set_conn h j (PChan ch) s). split.
  - apply conn_deliver; [done|]. intros h' j' Hh'.
    assert (h' = h) as -> by (by apply (HC _ _ _ _ _ _ _ Hh' Hh eq_refl eq_refl)). congruence.
  - cbn. by rewrite lookup_insert_eq.
Qed.

(** When a dial is over its request is not pending: the map does not grow with the
    dials that have finished. *)
Lemma no_stale_request s ch i :
  reachable s → dials s !! ch = Some (i, DDone) → reqs s !! i = None.
Proof.
  intros [HA HB HC HD]%reachable_ok Hd. destruct (reqs s !! i) as [ch'|] eqn:E; [|done].
  destruct (HA _ _ E) as [(st & Hd' & Hne) _]. rewrite (HD _ _ _ _ _ Hd' Hd) in Hd'. congruence.
Qed.

(** C3: Whatever the interleaving: a connection that a dial returns carries the identifier
    of that dial, and no two connections are returned by, or are on their way to, the
    same dial; handing a connection to a request never blocks; and the request of a dial
    that is over is not pending, so the map does not grow with the dials that have
    finished. *)
Theorem dispatch_safe s :
  reachable s →
  (∀ h j p ch, conns s !! h = Some (j, p) → matched p = Some ch →
     (∃ st, dials s !! ch = Some (j, st)) ∧
     ∀ h' j' p', conns s !! h' = Some (j', p') → matched p' = Some ch → h' = h) ∧
  (∀ h j ch, conns s !! h = Some (j, PSending ch) →
     ∃ s', disp_step s s' ∧ conns s' !! h = Some (j, PChan ch)) ∧
  (∀ ch i, dials s !! ch = Some (i, DDone) → reqs s !! i = None).
Proof.
  intros Hs. split_and!; intros; [by eapply one_connection | by eapply delivery_never_blocks
    | by eapply no_stale_request].
Qed.

(** Nothing receives from the channel of a dial that is over. *)
Definition lost (s : disp) (h : handle) (j : uuid) (ch : nat) : Prop :=
  (∃ i, dials s !! ch = Some (i, DDone)) ∧ conns s !! h = Some (j, PChan ch).

Lemma lost_step s s' h j ch : lost s h j ch → disp_step s s' → lost s' h j ch.
Proof.
  intros [[i Hd] Hh] Hst.
  assert (∀ c i' st s0, dials s !! c ≠ Some (i, DDone) ∨ c ≠ ch → dials s0 = dials s →
    ∃ i, dials (set_dial c i' st s0) !! ch = Some (i, DDone)) as Hd'.
  { intros c i' st s0 Hc E. exists i. cbn. rewrite E, lookup_insert_ne; [done|]. intros ->.
    by destruct Hc. }
  assert (∀ h' j' p s0, conns s0 = conns s → conns s !! h' ≠ Some (j, PChan ch) →
    conns (set_conn h' j' p s0) !! h = Some (j, PChan ch)) as Hh'.
  { intros h' j' p s0 E Hne. cbn. rewrite E, lookup_insert_ne; [done|]. intros ->. by apply Hne. }
  destruct Hst as [i' ch' Hi Hch|i' ch' Hch|i' ch' Hch|i' ch' h' j' Hch Hc|i' ch' Hch|i' ch' Hch|h' j' Hc|h' j' ch' Hc Hr|h' j' Hc Hr|h' j' ch' Hc He|h' j' ch' Hc];
    split; cbn; try (by eexists); try done;
    try (apply (Hd' ch' i'); [left; congruence|done]);
    try (rewrite lookup_insert_ne; [done|]; congruence).
  all: try (exists i; rewrite lookup_insert_ne; [done|]; congruence).
Qed.

(** C40: A connection that is delivered while its dial is being cancelled is lost: there is
    a run in which the dial is over, the connection is in the channel, and it stays
    there whatever happens next, neither returned nor closed. *)
Theorem cancelled_dial_loses_connection :
  ∃ s h j ch, reachable s ∧ (∃ i, dials s !! ch = Some (i, DDone)) ∧
    ∀ s', rtc disp_step s s' → conns s' !! h = Some (j, PChan ch).
Proof.
  set (i := vreplicate 16 x00 : uuid). set (ch := 0%nat). set (h := 0%nat).
  set (s1 := set_reqs (<[i := ch]>) (set_dial ch i DSending initial)).
  set (s2 := set_dial ch i DWaiting s1). set (s3 := set_conn h i PBound s2).
  set (s4 := set_reqs (delete i) (set_conn h i (PSending ch) s3)).
  set (s5 := set_conn h i (PChan ch) s4). set (s6 := set_dial ch i DLeaving s5).
  set (s7 := set_reqs (delete i) (set_dial ch i DDone s6)).
  assert (rtc disp_step initial s7) as Hr.
  { eapply rtc_l; [by apply (dial_start _ i ch)|]. eapply rtc_l; [by apply (dial_sent s1 i ch)|].
    eapply rtc_l; [by apply (conn_bound s2 h i)|]. eapply rtc_l; [by apply (conn_pop s3 h i ch)|].
    eapply rtc_l; [apply (conn_deliver s4 h i ch); [done|]|].
    { intros h' j'. cbn. destruct (decide (h = h')) as [<-|]; [by rewrite lookup_insert_eq|].
      rewrite !lookup_insert_ne by done. by rewrite lookup_empty. }
    eapply rtc_l; [by apply (dial_cancelled s5 i ch)|]. apply rtc_once. by apply (dial_leave s6 i ch). }
  exists s7, h, i, ch. split; [exact Hr|]. split; [by exists i|].
  intros s' Hs'. assert (lost s7 h i ch) as Hl by (split; [by exists i|done]). clear Hr.
  induction Hs' as [|t1 t2 t3 H12 _ IH]; [by destruct Hl|]. apply IH. by eapply lost_step.
Qed.

(** ** Witnesses: one dial whose connection is on its way *)

Definition demo_i : uuid := vreplicate 16 x00.
Definition demo_s1 : disp := set_reqs (<[demo_i := 0%nat]>) (set_dial 0%nat demo_i DSending initial).
Definition demo_s2 : disp := set_conn 0%nat demo_i PBound demo_s1.
Definition demo_s3 : disp := set_reqs (delete demo_i) (set_conn 0%nat demo_i (PSending 0%nat) demo_s2).
Definition demo_s4 : disp := set_dial 0%nat demo_i DLeaving demo_s3.
Definition demo_s5 : disp := set_reqs (delete demo_i) (set_dial 0%nat demo_i DDone demo_s4).

Lemma demo_s3_reachable : reachable demo_s3.
Proof.
  eapply rtc_l; [by apply (dial_start _ demo_i 0%nat)|].
  eapply rtc_l; [by apply (conn_bound demo_s1 0%nat demo_i)|]. apply rtc_once.
  by apply (conn_pop demo_s2 0%nat demo_i 0%nat).
Qed.

Lemma demo_s5_reachable : reachable demo_s5.
Proof.
  unfold reachable. etransitivity; [exact demo_s3_reachable|].
  eapply rtc_l; [by apply (dial_failed demo_s3 demo_i 0%nat)|]. apply rtc_once.
  by apply (dial_leave demo_s4 demo_i 0%nat).
Qed.

Lemma dispatch_safe_witness :
  (∃ st, dials demo_s3 !! 0%nat = Some (demo_i, st)) ∧
  (∃ s', disp_step demo_s3 s' ∧ conns s' !! 0%nat = Some (demo_i, PChan 0%nat)) ∧
  reqs demo_s5 !! demo_i = None.
Proof.
  destruct (dispatch_safe demo_s3 demo_s3_reachable) as (H1 & H2 & _).
  destruct (dispatch_safe demo_s5 demo_s5_reachable) as (_ & _ & H3).
  exact (conj (proj1 (H1 0%nat demo_i (PSending 0%nat) 0%nat eq_refl eq_refl))
          (conj (H2 0%nat demo_i 0%nat eq_refl) (H3 0%nat demo_i eq_refl))).
Defined.
