(* ===== verification/Refine.v ===== *)
(** * The dialer's methods refine the interleaved model

    Dispatch.v describes dials and incoming connections as steps of one transition
    system.  Here the steps are labelled with who takes them and with the call of the
    code each of them is, and every run of the dialer's methods (Dialer.v), whatever the
    world answers, is shown to be a path of that system: the calls of the run that
    concern the requests are the labels of the path, in order, and the dialer's map is
    the system's at both ends.  What the system proves of all interleavings so speaks of
    the code. *)
From S2P Require Import Prelude Static MuxConfig Commands Demo GoIO Wire Server.
From S2P Require ServerV2.
From S2P Require Import ConnManager Dialer.
From S2P Require Dispatch.
Import Dispatch (disp, disp_step, disp_ok, reqs, dials, conns, DSending, DWaiting, DLeaving, DDone,
  PBound, PSending, PChan, PReceived, PClosed, set_dial, set_conn, set_reqs, chan_empty, matched).

(** ** The labelled system *)

(** Who takes a step: the dial whose request has the channel [ch], or the handler of the
    connection or stream [h]. *)
Inductive actor := Dial (ch : nat) | Handler (h : handle).

(** The steps of [disp_step], each with its actor and with the call it is, if it is one:
    [uuid.New()], the select of a dial, and the hand-over of a connection. *)
Inductive act (s : disp) : actor → list event → disp → Prop :=
  | act_start i ch :
      (∀ ch' st, dials s !! ch' ≠ Some (i, st)) → dials s !! ch = None →
      act s (Dial ch) [ev CNewUUID i] (set_reqs (<[i := ch]>) (set_dial ch i DSending s))
  | act_sent i ch :
      dials s !! ch = Some (i, DSending) → act s (Dial ch) [] (set_dial ch i DWaiting s)
  | act_failed i ch :
      dials s !! ch = Some (i, DSending) → act s (Dial ch) [] (set_dial ch i DLeaving s)
  | act_receive i ch h j :
      dials s !! ch = Some (i, DWaiting) → conns s !! h = Some (j, PChan ch) →
      act s (Dial ch) [ev (CSelectConn ch) (Some h)]
        (set_conn h j (PReceived ch) (set_dial ch i DLeaving s))
  | act_cancelled i ch :
      dials s !! ch = Some (i, DWaiting) →
      act s (Dial ch) [ev (CSelectConn ch) None] (set_dial ch i DLeaving s)
  | act_leave i ch :
      dials s !! ch = Some (i, DLeaving) →
      act s (Dial ch) [] (set_reqs (delete i) (set_dial ch i DDone s))
  | act_bound h j :
      conns s !! h = None → act s (Handler h) [] (set_conn h j PBound s)
  | act_pop h j ch :
      conns s !! h = Some (j, PBound) → reqs s !! j = Some ch →
      act s (Handler h) [] (set_reqs (delete j) (set_conn h j (PSending ch) s))
  | act_unknown h j :
      conns s !! h = Some (j, PBound) → reqs s !! j = None →
      act s (Handler h) [] (set_conn h j PClosed s)
  | act_deliver h j ch :
      conns s !! h = Some (j, PSending ch) → chan_empty s ch →
      act s (Handler h) [ev (CDeliver ch h) true] (set_conn h j (PChan ch) s)
  | act_drop h j ch :
      conns s !! h = Some (j, PSending ch) →
      act s (Handler h) [ev (CDeliver ch h) false] (set_conn h j PClosed s).

(** [a] takes the steps whose calls are [tr]; between them only actors of [env] move. *)
Inductive path (a : actor) (env : actor → Prop) : disp → list event → disp → Prop :=
  | path_nil s : path a env s [] s
  | path_own s l s1 tr s2 :
      act s a l s1 → path a env s1 tr s2 → path a env s (l ++ tr) s2
  | path_env s b l s1 tr s2 :
      env b → act s b l s1 → path a env s1 tr s2 → path a env s tr s2.

(** No actor moves but the one whose path it is. *)
Definition alone (a : actor) : Prop := False.

(** The labels add nothing to the system and leave nothing out. *)
Lemma act_step s a l s' : act s a l s' → disp_step s s'.
Proof. destruct 1; by econstructor. Qed.

Lemma step_act s s' : disp_step s s' → ∃ a l, act s a l s'.
Proof. destruct 1; eexists _, _; by econstructor. Qed.

Lemma path_rtc a env s tr s' : path a env s tr s' → rtc disp_step s s'.
Proof.
  induction 1 as [s|s l s1 tr s2 H1 _ IH|s b l s1 tr s2 _ H1 _ IH]; [done|..];
    (eapply rtc_l; [by eapply act_step|exact IH]).
Qed.

(** A state of the system at a moment when the dialer's map is that of [d]: no channel
    has the number the next request gets. *)
Record related (s : disp) (d : Dialer) : Prop := mkRelated {
  rel_ok : disp_ok s;
  rel_reqs : reqs s = requests d;
  rel_next : dials s !! next_ch d = None
}.

(** ** The paths of the system *)

Section paths.
Implicit Types (s : disp) (h : handle) (i j : uuid) (ch : nat).

(** No connection is matched with a channel that is not a dial's. *)
Lemma unmatched_fresh s ch h j p :
  disp_ok s → dials s !! ch = None → conns s !! h = Some (j, p) → matched p ≠ Some ch.
Proof.
  intros Hs Hd Hh Hp. destruct (Dispatch.ok_matched _ Hs _ _ _ _ Hh Hp) as (st & E & _). congruence.
Qed.

(** A channel with which no other connection is matched is empty while [h] is sent. *)
Lemma chan_empty_sending s s' ch h j :
  (∀ h' j' p, conns s !! h' = Some (j', p) → matched p ≠ Some ch) →
  conns s' = <[h := (j, PSending ch)]> (conns s) → chan_empty s' ch.
Proof.
  intros H E h' j'. rewrite E. destruct (decide (h = h')) as [<-|].
  - by rewrite lookup_insert_eq.
  - rewrite lookup_insert_ne by done. intros E'. by apply (H _ _ _ E').
Qed.

(** The state after the handler of [h] handed it, bound as [j], to the request that was
    pending under [j], or dropped it because that request had ended. *)
Definition handed h j ch (b : bool) s : disp :=
  set_conn h j (if b then PChan ch else PClosed)
    (set_reqs (delete j) (set_conn h j (PSending ch) (set_conn h j PBound s))).

(** The handler gets there, on its own path or on another's. *)
Lemma handed_path s a (env : actor → Prop) h j ch (b : bool) l tr s' :
  disp_ok s → conns s !! h = None → reqs s !! j = Some ch →
  (a = Handler h ∧ l = [ev (CDeliver ch h) b] ∨ env (Handler h) ∧ l = []) →
  path a env (handed h j ch b s) tr s' → path a env s (l ++ tr) s'.
Proof.
  intros Hs Hh Hr Ha Hp.
  set (s1 := set_conn h j PBound s).
  set (s2 := set_reqs (delete j) (set_conn h j (PSending ch) s1)).
  assert (act s (Handler h) [] s1) as A1 by by constructor.
  assert (act s1 (Handler h) [] s2) as A2 by (apply act_pop; [cbn; by rewrite lookup_insert_eq|exact Hr]).
  assert (act s2 (Handler h) [ev (CDeliver ch h) b] (handed h j ch b s)) as A3.
  { destruct b; [apply act_deliver|apply act_drop]; try (cbn; by rewrite lookup_insert_eq).
    apply (chan_empty_sending s _ _ h j); [apply (proj2 (Dispatch.ok_pending _ Hs _ _ Hr))|].
    cbn. by rewrite insert_insert_eq. }
  destruct Ha as [[-> ->]|[He ->]].
  - exact (path_own _ _ _ [] _ _ _ A1 (path_own _ _ _ [] _ _ _ A2 (path_own _ _ _ _ _ _ _ A3 Hp))).
  - exact (path_env _ _ _ _ _ _ _ _ He A1 (path_env _ _ _ _ _ _ _ _ He A2
             (path_env _ _ _ _ _ _ _ _ He A3 Hp))).
Qed.

Lemma handed_conn h j ch b s :
  conns (handed h j ch b s) !! h = Some (j, if b then PChan ch else PClosed).
Proof. apply lookup_insert_eq. Qed.

End paths.

(** ** Dials *)

Section refinement.
Context `{X : Externals}.
Implicit Types (d : Dialer) (s : disp).

(** The manager offers a registered server to the next dial. *)
Definition offered d : Prop := ∃ c b, GetConn (cm d) = Some (Some c, b) ∧ registered d c.

(** How a dial ends in the system, told from the calls of its run: under the identifier
    [i] it drew, it waited on its own channel [ch] and received the connection it returns,
    or the context was done first; or the listener was not asked successfully and it did
    not wait. *)
Definition dial_end (ch : nat) (i : uuid) (tr : list event) (r : result handle) s s' : Prop :=
  dials s' !! ch = Some (i, DDone) ∧
  match r with
  | Ok h =>
      request_events tr = [ev CNewUUID i; ev (CSelectConn ch) (Some h)] ∧
      conns s' !! h = Some (i, PReceived ch)
  | Err e =>
      conns s' = conns s ∧
      ((e = ContextErr ∧ request_events tr = [ev CNewUUID i; ev (CSelectConn ch) None]) ∨
       (∃ e', e = Wrapf "failed to request connection: %w" e' ∧ request_events tr = [ev CNewUUID i]))
  end.

(** A step whose actor was last put where the step starts. *)
Ltac act_by H := apply H; cbn; by rewrite lookup_insert_eq.

(** The dial alone, when it receives nothing. *)
Lemma dial_path_ended s env i ch (l : list event) :
  (∀ ch' st, dials s !! ch' ≠ Some (i, st)) → dials s !! ch = None →
  l = [] ∨ l = [ev (CSelectConn ch) None] →
  ∃ s', path (Dial ch) env s (ev CNewUUID i :: l) s' ∧ reqs s' = delete i (reqs s) ∧
    dials s' !! ch = Some (i, DDone) ∧ conns s' = conns s.
Proof.
  intros Hi Hch Hl. pose proof (act_start s i ch Hi Hch) as A1.
  set (s1 := set_reqs _ _) in A1. set (s2 := match l with [] => s1 | _ => set_dial ch i DWaiting s1 end).
  set (s3 := set_dial ch i DLeaving s2). exists (set_reqs (delete i) (set_dial ch i DDone s3)). split.
  - assert (path (Dial ch) env s3 [] (set_reqs (delete i) (set_dial ch i DDone s3))) as Hp
      by (eapply (path_own _ _ _ [] _ []); [act_by (act_leave s3 i ch)|constructor]).
    apply (path_own _ _ _ [_] _ _ _ A1). destruct Hl as [->| ->].
    + eapply (path_own _ _ _ [] _ []); [act_by (act_failed s1 i ch)|exact Hp].
    + eapply (path_own _ _ _ [] _ [_]); [act_by (act_sent s1 i ch)|].
      eapply (path_own _ _ _ [_] _ []); [act_by (act_cancelled s2 i ch)|exact Hp].
  - cbn. destruct Hl as [->| ->]; cbn; by rewrite lookup_insert_eq, delete_insert_eq.
Qed.

(** The dial that receives [h], whose handler moves while it waits. *)
Lemma dial_path_received s (env : actor → Prop) i ch h :
  disp_ok s → (∀ ch' st, dials s !! ch' ≠ Some (i, st)) → dials s !! ch = None →
  conns s !! h = None → env (Handler h) →
  ∃ s', path (Dial ch) env s [ev CNewUUID i; ev (CSelectConn ch) (Some h)] s' ∧
    reqs s' = delete i (reqs s) ∧ dials s' !! ch = Some (i, DDone) ∧
    conns s' !! h = Some (i, PReceived ch).
Proof.
  intros Hs Hi Hch Hh He.
  set (s1 := set_reqs (<[i := ch]>) (set_dial ch i DSending s)).
  assert (disp_ok s1) as Hs1 by (eapply Dispatch.disp_step_ok; [exact Hs|by apply Dispatch.dial_start]).
  set (s2 := set_dial ch i DWaiting s1).
  assert (disp_ok s2) as Hs2.
  { eapply Dispatch.disp_step_ok; [exact Hs1|]. apply Dispatch.dial_sent. cbn. by rewrite lookup_insert_eq. }
  set (s3 := handed h i ch true s2).
  set (s4 := set_conn h i (PReceived ch) (set_dial ch i DLeaving s3)).
  exists (set_reqs (delete i) (set_dial ch i DDone s4)). split.
  - apply (path_own _ _ _ [_] _ _ _ (act_start s i ch Hi Hch)).
    eapply (path_own _ _ _ [] s2); [act_by (act_sent s1 i ch)|].
    eapply (handed_path s2 _ _ h i ch true []); [done|done|by cbn; rewrite lookup_insert_eq|by right|].
    eapply (path_own _ _ _ [_] s4 []).
    { apply (act_receive _ i ch h i); cbn; by rewrite lookup_insert_eq. }
    eapply (path_own _ _ _ [] _ []); [act_by (act_leave s4 i ch)|constructor].
  - cbn. by rewrite !lookup_insert_eq, !delete_insert_eq, ?delete_delete_eq.
Qed.

Lemma dial_context_events i tr1 h rx tx tr2 :
  traffic h tr1 rx tx → request_events (ev CNewUUID i :: tr1 ++ tr2) = ev CNewUUID i :: request_events tr2.
Proof.
  intros Ht. change (ev CNewUUID i :: tr1 ++ tr2) with ([ev CNewUUID i] ++ (tr1 ++ tr2)).
  by rewrite !request_events_app, (traffic_request_events _ _ _ _ Ht).
Qed.

(** C4: Every run of [DialContext] is a path of the interleaved system that starts and
    ends with the dialer's map of pending requests, and whose calls are exactly those of
    the run that concern the requests.  When the manager offers no registered server, the run
    makes none of them and changes no request; otherwise a new dial with the channel of the new request draws its identifier and
    runs to its end.  It returns a connection exactly when the select on that channel
    received it, the only other steps being those of that connection's handler; it
    returns the context's error exactly when that select ended without one; and it does
    not wait when the listener did not confirm.  The identifier is new and the connection
    not yet known. *)
Theorem DialContext_refines d tr d' r s :
  unique_ids (I := servers_conn) (cm d, servers d) →
  traces (DialContext d) tr (d', r) → related s d →
  (∀ i ch st, ev CNewUUID i ∈ tr → dials s !! ch ≠ Some (i, st)) →
  (∀ h, r = Ok h → conns s !! h = None) →
  match request_events tr with
  | [] => ¬ offered d ∧ requests d' = requests d ∧ next_ch d' = next_ch d ∧ is_Ok r = false
  | _ => offered d ∧ ∃ i s',
      path (Dial (next_ch d)) (λ b, ∃ h, r = Ok h ∧ b = Handler h) s (request_events tr) s' ∧
      reqs s' = requests d' ∧ next_ch d' = S (next_ch d) ∧ dial_end (next_ch d) i tr r s s'
  end.
Proof.
  intros Hu Htr [Hok Hreqs Hnext] Hi Hh.
  pose proof (wpM_trace _ _ _ _ _ _ (DialContext_spec d Hu) Htr) as H. unfold dial_context_post in H.
  unfold offered. destruct (GetConn (cm d)) as [[oc b]|]; [|destruct H as (-> & -> & ->); naive_solver].
  destruct oc as [c|]; [|destruct H as (-> & -> & ->); naive_solver].
  destruct (decide (registered d c)); [|destruct H as (-> & -> & ->); naive_solver].
  destruct H as (i & tr1 & rx & tx & tr2 & -> & Ht & Hr & Hn & H).
  change (requests (set_cm (b, servers d) d)) with (requests d) in Hr.
  change (next_ch (set_cm (b, servers d) d)) with (next_ch d) in Hn, H.
  assert (ev CNewUUID i ∈ ev CNewUUID i :: tr1 ++ tr2) as Hin by left.
  specialize (λ ch st, Hi i ch st Hin). unfold dial_end.
  rewrite (dial_context_events i tr1 _ _ _ tr2 Ht). split; [by exists c, b|]. exists i. destruct r as [h|e].
  - destruct H as (_ & _ & ->).
    destruct (dial_path_received s (λ b, ∃ h', Ok h = Ok h' ∧ b = Handler h') i (next_ch d) h Hok Hi Hnext
      (Hh h eq_refl) (ex_intro _ h (conj eq_refl eq_refl))) as (s' & Hs' & Hr' & Hd' & Hc').
    exists s'. split; [exact Hs'|]. split; [by rewrite Hr', Hreqs, Hr|]. split; [exact Hn|by split].
  - set (l := request_events tr2).
    assert (l = [ev (CSelectConn (next_ch d)) None] ∧ e = ContextErr ∨
            l = [] ∧ ∃ e', e = Wrapf "failed to request connection: %w" e') as Hl.
    { destruct H as [(-> & _ & ->)|(e' & -> & _ & _ & Hp)]; [by left|]. right.
      split; [by apply protocol_request_events|by exists e']. }
    destruct (dial_path_ended s (λ b, ∃ h', Err e = Ok h' ∧ b = Handler h') i (next_ch d) l Hi Hnext)
      as (s' & Hs' & Hr' & Hd' & Hc'); [naive_solver|].
    exists s'. split; [exact Hs'|]. split; [by rewrite Hr', Hreqs, Hr|]. split; [exact Hn|].
    split; [exact Hd'|]. split; [exact Hc'|]. destruct Hl as [[-> ->]|[-> [e' ->]]]; [by left|].
    right. by exists e'.
Qed.

(** ** Incoming connections and streams *)

(** The two handlers: of a connection the dialer accepted, and of a stream accepted on
    the session of an upgraded one. *)
Inductive incoming_kind := Connection | Stream.

Definition handle_incoming (k : incoming_kind) (h : handle) : M Dialer () :=
  match k with Connection => handleConnection h | Stream => handleV2Stream h end.

(** What the peer made of [h]: a listener's control connection, the connection of the
    request [i], or nothing. *)
Inductive role := Registers | Binds (i : uuid) | Nothing.

(** The role, from the state and the identifier of the connection's server after the
    handshake, or from the bytes read from the stream before the confirmation. *)
Definition role_of (k : incoming_kind) (h : handle) d (tr : list event) (o : role) : Prop :=
  match k with
  | Connection => ∃ trP v r tr', tr = ev (CGo (GCloseOnDone h)) () :: trP ++ tr' ∧ processed h d trP v r ∧
      o = match r, conn_state v with
          | Ok _, StateRegistered => Registers
          | Ok _, StateBound => Binds (conn_id v)
          | _, _ => Nothing
          end
  | Stream => ∃ tr' tr'', tr = tr' ++ tr'' ∧
      match o with
      | Registers => False
      | Binds i => named h i tr'
      | Nothing => unnamed h tr' ∧ ∃ cl, tr'' = [ev (CClose h) cl]
      end
  end.

(** The code keeps [h], the watcher of a connection being told to spare it; or closes it,
    the stream itself as the last thing done, the connection through its watcher, which
    is cancelled last and not told to spare it. *)
Definition kept_open (k : incoming_kind) (h : handle) (tr : list event) : Prop :=
  match k with
  | Connection => CCloseDone ∈ calls tr
  | Stream => ServerV2.keeps_open tr
  end.
Definition left_closed (k : incoming_kind) (h : handle) (tr : list event) : Prop :=
  match k with
  | Connection => (∃ tr', tr = tr' ++ [ev CCancel ()]) ∧ CCloseDone ∉ calls tr
  | Stream => ∃ tr' cl, tr = tr' ++ [ev (CClose h) cl] ∧ ServerV2.keeps_open tr'
  end.

(** Where a handler's run ends in the system, told from the role of [h] and from the
    requests that were pending. *)
Definition handler_end (k : incoming_kind) (h : handle) d (tr : list event) (o : role) s s' : Prop :=
  match o with
  | Registers => request_events tr = [] ∧ s' = s ∧ kept_open k h tr
  | Nothing => request_events tr = [] ∧ s' = s ∧ left_closed k h tr
  | Binds i =>
      match requests d !! i with
      | None => request_events tr = [] ∧ conns s' !! h = Some (i, PClosed) ∧ left_closed k h tr
      | Some ch => ∃ b : bool, request_events tr = [ev (CDeliver ch h) b] ∧
          conns s' !! h = Some (i, if b then PChan ch else PClosed) ∧
          (if b then kept_open k h tr else left_closed k h tr)
      end
  end.

(** The paths of a handler, by role. *)
Definition role_path (h : handle) d (o : role) (l : list event) s s' : Prop :=
  match o with
  | Registers | Nothing => l = [] ∧ s' = s
  | Binds i =>
      match requests d !! i with
      | None => l = [] ∧ s' = set_conn h i PClosed (set_conn h i PBound s)
      | Some ch => ∃ b, l = [ev (CDeliver ch h) b] ∧ s' = handed h i ch b s
      end
  end.

Lemma role_path_path h d o l s s' :
  related s d → conns s !! h = None → role_path h d o l s s' → path (Handler h) alone s l s'.
Proof.
  intros [Hok Hreqs _] Hh. destruct o as [|i|]; cbn; [by intros [-> ->]; constructor| |by intros [-> ->]; constructor].
  rewrite <-Hreqs. destruct (reqs s !! i) as [ch|] eqn:Er.
  - intros (b & -> & ->).
    eapply (handed_path s _ _ h i ch b [_] []); [exact Hok|exact Hh|exact Er|by left|constructor].
  - intros [-> ->]. eapply (path_own _ _ _ [] _ []); [by apply (act_bound _ h i)|].
    eapply (path_own _ _ _ [] _ []); [|constructor].
    apply act_unknown; [cbn; by rewrite lookup_insert_eq|exact Er].
Qed.

(** The code's part of [handler_end], with what becomes of the requests. *)
Definition code_end (k : incoming_kind) (h : handle) d (tr : list event) (o : role) d' : Prop :=
  match o with
  | Registers => request_events tr = [] ∧ requests d' = requests d ∧ kept_open k h tr
  | Nothing => request_events tr = [] ∧ requests d' = requests d ∧ left_closed k h tr
  | Binds i =>
      match requests d !! i with
      | None => request_events tr = [] ∧ requests d' = requests d ∧ left_closed k h tr
      | Some ch => ∃ b : bool, request_events tr = [ev (CDeliver ch h) b] ∧
          requests d' = delete i (requests d) ∧
          (if b then kept_open k h tr else left_closed k h tr)
      end
  end.

Lemma processed_protocol h d trP v r : processed h d trP v r → Forall protocol_call (calls trP).
Proof. apply only_traces, Process_protocol. Qed.

Lemma protocol_not_done tr : Forall protocol_call (calls tr) → CCloseDone ∉ calls tr.
Proof. intros H Hin. exact (proj1 (Forall_forall _ _) H _ Hin). Qed.

(** The calls of a connection's handler between the start of its watcher and the
    cancellation that ends it. *)
Lemma connection_events h mid :
  request_events (ev (CGo (GCloseOnDone h)) () :: mid ++ [ev CCancel ()]) = request_events mid.
Proof.
  change (ev (CGo (GCloseOnDone h)) () :: mid ++ [ev CCancel ()])
    with ([ev (CGo (GCloseOnDone h)) ()] ++ mid ++ [ev CCancel ()]).
  rewrite !request_events_app. apply app_nil_r.
Qed.

Lemma connection_left_closed h mid :
  CCloseDone ∉ calls mid → left_closed Connection h (ev (CGo (GCloseOnDone h)) () :: mid ++ [ev CCancel ()]).
Proof.
  intros H. split; [by exists (ev (CGo (GCloseOnDone h)) () :: mid)|].
  change (CCloseDone ∉ CGo (GCloseOnDone h) :: calls (mid ++ [ev CCancel ()])).
  rewrite calls_app, not_elem_of_cons, not_elem_of_app. split; [done|]. split; [exact H|].
  by intros [E|[]%elem_of_nil]%elem_of_cons.
Qed.

Lemma connection_kept_open h mid :
  CCloseDone ∈ calls mid → kept_open Connection h (ev (CGo (GCloseOnDone h)) () :: mid ++ [ev CCancel ()]).
Proof. intros H. right. fold calls. rewrite calls_app. apply elem_of_app. by left. Qed.

Lemma handleConnection_code h d tr d' r :
  traces (handleConnection h d) tr (d', r) →
  ∃ o, role_of Connection h d tr o ∧ code_end Connection h d tr o d'.
Proof.
  intros Htr. apply (wpM_trace _ _ _ _ _ _ (handleConnection_spec h d)) in Htr as (_ & mid & -> & Hin).
  destruct Hin as [trP v c trA d' Hp Hst _ Hr HtA|trP v ch d' Hp Hst Hj Hr|trP v ch d' Hp Hst Hj Hr|trP v r0 d' Hp Hst Hr];
    pose proof (processed_protocol _ _ _ _ _ Hp) as HtP.
  - exists Registers. split.
    + eexists trP, v, (Ok ()), _. split; [by rewrite <-app_assoc|]. split; [exact Hp|by rewrite Hst].
    + split; [|split; [exact Hr|]].
      * rewrite connection_events, request_events_app, (protocol_request_events _ HtP).
        change (request_events (trA ++ [ev (CGo (if ServerV2.IsV2 v then GAcceptStreams c else GRemoveOnDone c)) ()]) = []).
        by rewrite request_events_app, (protocol_request_events _ HtA).
      * apply connection_kept_open. rewrite calls_app. apply elem_of_app. right. by left.
  - exists (Binds (conn_id v)). split.
    + eexists trP, v, (Ok ()), _. split; [by rewrite <-app_assoc|]. split; [exact Hp|by rewrite Hst].
    + cbn [code_end]. rewrite Hj. exists true. split; [|split; [exact Hr|]].
      * by rewrite connection_events, request_events_app, (protocol_request_events _ HtP).
      * apply connection_kept_open. rewrite calls_app. apply elem_of_app. right. right. by left.
  - exists (Binds (conn_id v)). split.
    + eexists trP, v, (Ok ()), _. split; [by rewrite <-app_assoc|]. split; [exact Hp|by rewrite Hst].
    + cbn [code_end]. rewrite Hj. exists false. split; [|split; [exact Hr|]].
      * by rewrite connection_events, request_events_app, (protocol_request_events _ HtP).
      * apply connection_left_closed. rewrite calls_app, not_elem_of_app.
        split; [by apply protocol_not_done|]. by intros [E|[]%elem_of_nil]%elem_of_cons.
  - assert (request_events (ev (CGo (GCloseOnDone h)) () :: trP ++ [ev CCancel ()]) = []) as He
      by (rewrite connection_events; by apply protocol_request_events).
    pose proof (connection_left_closed h trP (protocol_not_done _ HtP)) as Hcl.
    eexists. split; [eexists trP, v, r0, _; split; [done|]; by split|].
    destruct r0 as [[]|e]; [specialize (Hst eq_refl)|by split].
    destruct (conn_state v); try done. cbn [code_end]. by rewrite Hst.
Qed.

Lemma handleV2Stream_code h d tr d' r :
  traces (handleV2Stream h d) tr (d', r) →
  ∃ o, role_of Stream h d tr o ∧ code_end Stream h d tr o d'.
Proof.
  intros Htr. apply (wpM_trace _ _ _ _ _ _ (handleV2Stream_spec h d)) in Htr
    as (_ & [(tr' & cl & -> & Hn & ->)|(tr' & i & Hn & H)]).
  - destruct (unnamed_traffic _ _ Hn) as [rx Ht].
    exists Nothing. split; [exists tr', [ev (CClose h) cl]; split; [done|]; split; [done|by exists cl]|].
    split; [by rewrite request_events_app, (traffic_request_events _ _ _ _ Ht)|]. split; [done|].
    exists tr', cl. split; [done|]. by eapply ServerV2.traffic_keeps_open.
  - exists (Binds i). pose proof Hn as (x & y & Ht & _).
    pose proof (traffic_request_events _ _ _ _ Ht) as He.
    pose proof (ServerV2.traffic_keeps_open _ _ _ _ Ht) as Ho.
    cbn [code_end role_of]. destruct (requests d !! i) as [ch|].
    + destruct H as [-> [->|[cl ->]]]; (split; [by eexists tr', _|]); [exists true|exists false];
        (split; [by rewrite request_events_app, He|]); (split; [done|]).
      * apply ServerV2.keeps_open_app; [exact Ho|]. by repeat constructor.
      * exists (tr' ++ [ev (CDeliver ch h) false]), cl. split; [by rewrite <-app_assoc|].
        apply ServerV2.keeps_open_app; [exact Ho|]. by repeat constructor.
    + destruct H as [-> [cl ->]]. split; [by eexists tr', _|].
      split; [by rewrite request_events_app, He|]. split; [done|]. by exists tr', cl.
Qed.

(** C5: Every run of the handler of an incoming connection or of an accepted stream is a
    path of the interleaved system on which nobody else moves, from and to the dialer's
    map of pending requests, and whose calls are exactly the run's hand-overs.  The role
    the peer gave [h], read from the handshake's server or from the stream's bytes, and
    the requests that were pending decide the end: a connection or stream bound to a
    pending request is offered once, to that request's channel, and is then in that
    channel in the system and kept open by the code exactly when the offer was taken; in
    every other case of a binding it is closed in both; one that registered as a
    listener, or was nothing, is unknown to the system, and kept open or closed. *)
Theorem handlers_refine k d h tr d' r s :
  traces (handle_incoming k h d) tr (d', r) → related s d → conns s !! h = None →
  ∃ o s', role_of k h d tr o ∧ path (Handler h) alone s (request_events tr) s' ∧
    reqs s' = requests d' ∧ handler_end k h d tr o s s'.
Proof.
  intros Htr Hrel Hh.
  assert (∃ o, role_of k h d tr o ∧ code_end k h d tr o d') as (o & Ho & Hc)
    by (destruct k; [by eapply handleConnection_code|by eapply handleV2Stream_code]).
  exists o. assert (∃ s', role_path h d o (request_events tr) s s' ∧ reqs s' = requests d' ∧
    handler_end k h d tr o s s') as (s' & Hp & Hr & He).
  { pose proof (rel_reqs _ _ Hrel) as Hreqs. destruct o as [|i|]; cbn in *.
    - exists s. destruct Hc as (H1 & -> & H3). by rewrite Hreqs.
    - destruct (requests d !! i) as [ch|].
      + destruct Hc as (b & H1 & -> & H3). exists (handed h i ch b s). split; [by exists b|].
        split; [cbn; by rewrite Hreqs|]. exists b. split; [exact H1|]. split; [apply handed_conn|exact H3].
      + destruct Hc as (H1 & -> & H3). exists (set_conn h i PClosed (set_conn h i PBound s)).
        split; [done|]. split; [exact Hreqs|]. split; [exact H1|]. split; [apply lookup_insert_eq|exact H3].
    - exists s. destruct Hc as (H1 & -> & H3). by rewrite Hreqs. }
  exists s'. split; [exact Ho|]. split; [by eapply role_path_path|]. by split.
Qed.
End refinement.

(** ** Witnesses: the dial and the stream of Dialer.v, from the initial system *)

Lemma demo_related : related Dispatch.initial demo_registered.1.
Proof. split; [exact Dispatch.initial_ok | vm_compute; reflexivity | apply lookup_empty]. Qed.

Lemma DialContext_refines_witness : ∃ i s',
  path (Dial 0%nat) (λ b, ∃ h, Ok (A := handle) 5%nat = Ok h ∧ b = Handler h) Dispatch.initial
    [ev CNewUUID i; ev (CSelectConn 0%nat) (Some 5%nat)] s' ∧
  conns s' !! 5%nat = Some (i, PReceived 0%nat).
Proof.
  assert (unique_ids (I := servers_conn (X := demo)) (cm demo_registered.1, servers demo_registered.1)) as Hu.
  { unfold unique_ids. apply (bool_decide_unpack _). by vm_compute. }
  assert (traces (DialContext (X := demo) demo_registered.1) demo_dialed.1.1
            (demo_dialed.1.2.1, Ok 5%nat)) as Htr.
  { rewrite <-demo_dialed_result.
    exact (run_tracesM script_handler (DialContext (X := demo)) demo_registered.1 demo_dial_world). }
  pose proof (DialContext_refines (X := demo) demo_registered.1 _ _ _ Dispatch.initial Hu Htr demo_related
    (λ i ch st _ H, ltac:(discriminate (eq_trans (eq_sym (lookup_empty ch)) H))) (λ h _, lookup_empty h)) as H.
  destruct (request_events demo_dialed.1.1) eqn:Ee; [by destruct H as (_ & _ & _ & [=])|].
  rewrite <-Ee in H. destruct H as (_ & i & s' & Hp & _ & _ & _ & He & Hc).
  exists i, s'. rewrite He in Hp. exact (conj Hp Hc).
Defined.

(** A stream bound to the one pending request. *)
Definition demo_pending : Dialer := set_requests {[Dispatch.demo_i := 0%nat]} 1 demo_dialer.
Definition demo_bind_world : world :=
  one_conn 9%nat [[versionV1; cmdBind]; vec_to_list Dispatch.demo_i].
Definition demo_handled : list event * (Dialer * result ()) * world :=
  run script_handler (handleV2Stream (X := demo) 9%nat demo_pending) demo_bind_world.

Lemma demo_handled_events : request_events demo_handled.1.1 = [ev (CDeliver 0%nat 9%nat) true].
Proof. by vm_compute. Qed.

Lemma demo_s1_ok : disp_ok Dispatch.demo_s1.
Proof. eapply Dispatch.disp_step_ok; [exact Dispatch.initial_ok|by apply Dispatch.dial_start]. Qed.

(** Whether the hand-over took place. *)
Definition sent_on (tr : list event) : bool :=
  match tr with [existT (CDeliver _ _) b] => b | _ => false end.

Lemma handlers_refine_witness : ∃ s',
  path (Handler 9%nat) alone Dispatch.demo_s1 [ev (CDeliver 0%nat 9%nat) true] s' ∧ reqs s' = ∅ ∧
  conns s' !! 9%nat = Some (Dispatch.demo_i, PChan 0%nat).
Proof.
  assert (related Dispatch.demo_s1 demo_pending) as Hrel by (split; [exact demo_s1_ok | done | done]).
  destruct (handlers_refine (X := demo) Stream demo_pending 9%nat _ _ _ Dispatch.demo_s1
    (run_tracesM script_handler (handleV2Stream (X := demo) 9%nat) demo_pending demo_bind_world) Hrel eq_refl)
    as (o & s' & _ & Hp & Hr & He).
  exists s'. rewrite <-demo_handled_events. split; [exact Hp|]. split; [rewrite Hr; by vm_compute|].
  destruct o as [|i|]; cbn [handler_end] in He; fold demo_handled in He; rewrite demo_handled_events in He;
    [by destruct He| |by destruct He].
  destruct (requests demo_pending !! i) as [ch|] eqn:Er; [|by destruct He].
  change (({[Dispatch.demo_i := 0%nat]} : gmap uuid nat) !! i = Some ch) in Er.
  apply (lookup_singleton_Some (M := gmap uuid)) in Er as [<- <-]. destruct He as (b & E & Hc & _).
  pose proof (f_equal sent_on E) as Hb. cbn in Hb. subst b. exact Hc.
Defined.
