(* ===== verification/Listener.v ===== *)
(** * listener.go: the listener's side

    The listener dials the server, keeps one control connection (a [ClientV2]), and
    answers each connect command with a connection: a new one over the first protocol, a
    stream over the second, from the pool when one is configured.  Its client and its
    pool are the verified ones of the other files; what the dialer side does with the
    bytes is in Server.v, ServerV2.v and Dialer.v. *)
From S2P Require Import Prelude Static MuxConfig PoolConfig Commands GoIO Wire.
From S2P Require Client ServerV2 ClientV2 MuxConn.
From S2P Require Import Selector Pool Demo.
Import Client (ClientOption).
Import ClientV2 (ClientV2Option).
Import Server (nil_uuid).
#[local] Existing Instance MuxConn.trackedStream_inhabited.

(** The two dialers of the standard library the listener uses: [KeepAlive] of a
    [net.Dialer], and a [tls.Dialer] with its [NetDialer], which may be nil. *)
Inductive dialer_ :=
  | NetDialer (keepAlive : Z)
  | TLSDialer (netDialer : option Z) (config : nat).

Definition dialer_keepAlive (d : dialer_) : Z :=
  match d with
  | NetDialer k => k
  | TLSDialer k _ => default 0 k
  end.

Definition dialer_tls (d : dialer_) : option nat :=
  match d with
  | NetDialer _ => None
  | TLSDialer _ c => Some c
  end.

(** [client] is nil until [Listen] has dialed; handlers are named by numbers; the pool
    comes with the heap its connections and streams live in. *)
Record Listener := mkListener {
  addr : string;
  dialer : dialer_;
  client : option ClientV2.ClientV2;
  eventHandlers : gmap CommandType nat;
  l_pool : option Pool.st;
  muxConfig : option Mux.Config;
  clientOpts : list ClientOption;
  clientV2Opts : list ClientV2Option;
  useV2 : bool
}.

(** An option may panic, which is [None]. *)
Definition ListenerOption := Listener → option Listener.

Definition set_dialer (d : dialer_) (l : Listener) : Listener :=
  mkListener (addr l) d (client l) (eventHandlers l) (l_pool l) (muxConfig l) (clientOpts l)
    (clientV2Opts l) (useV2 l).
Definition set_client (c : ClientV2.ClientV2) (l : Listener) : Listener :=
  mkListener (addr l) (dialer l) (Some c) (eventHandlers l) (l_pool l) (muxConfig l)
    (clientOpts l) (clientV2Opts l) (useV2 l).
Definition set_l_pool (p : Pool.st) (l : Listener) : Listener :=
  mkListener (addr l) (dialer l) (client l) (eventHandlers l) (Some p) (muxConfig l)
    (clientOpts l) (clientV2Opts l) (useV2 l).
Definition set_useV2 (b : bool) (l : Listener) : Listener :=
  mkListener (addr l) (dialer l) (client l) (eventHandlers l) (l_pool l) (muxConfig l)
    (clientOpts l) (clientV2Opts l) b.
Definition add_clientOpt (o : ClientOption) (l : Listener) : Listener :=
  mkListener (addr l) (dialer l) (client l) (eventHandlers l) (l_pool l) (muxConfig l)
    (clientOpts l ++ [o]) (clientV2Opts l) (useV2 l).

(** ** Options *)

Definition WithUserPass (username password : string) : result ListenerOption :=
  opt ← wrap_err "failed to create user pass auth option: %w"
          (Client.WithUserPass username password);
  Ok (λ l, Some (add_clientOpt opt l)).

(** [NetDialer] of the new dialer is the old dialer if that is a [net.Dialer], and nil
    for any other. *)
Definition WithListenerTLSConfig (config : nat) : ListenerOption := λ l,
  let d := match dialer l with NetDialer k => Some k | TLSDialer _ _ => None end in
  Some (set_dialer (TLSDialer d config) l).

Definition WithListenerKeepAlive (interval : Z) : ListenerOption := λ l,
  Some (set_dialer match dialer l with
                   | NetDialer _ => NetDialer interval
                   | TLSDialer _ config => TLSDialer (Some interval) config
                   end l).

Definition WithEventHandler `{X : Externals} (eventName : string) (handler : nat) :
    result ListenerOption :=
  cmdType ← wrap_err "failed to create event handler: %w" (NewCommandType eventName);
  Ok (λ l, Some (mkListener (addr l) (dialer l) (client l)
                   (<[cmdType := handler]> (eventHandlers l)) (l_pool l) (muxConfig l)
                   (clientOpts l) (clientV2Opts l) (useV2 l))).

(** An invalid configuration panics in [pool.New]; [now] is the clock then. *)
Definition WithPoolConfig (config : option Config) (now : Z) : ListenerOption := λ l,
  p ← Pool.New config now;
  Some (set_l_pool (mkSt p MuxConn.empty_heap ∅) l).

Definition WithMuxConfig (config : Mux.Config) : ListenerOption := λ l,
  Some (mkListener (addr l) (dialer l) (client l) (eventHandlers l) (l_pool l) (Some config)
          (clientOpts l) (clientV2Opts l ++ [ClientV2.WithMuxConfigClient config]) (useV2 l)).

Definition WithDisableV2 : ListenerOption := λ l, Some (set_useV2 false l).
Definition WithEnableV2 : ListenerOption := λ l, Some (set_useV2 true l).

(** The listener [Listen] starts from, and the options applied in order. *)
Definition init_listener (a : string) : Listener :=
  mkListener a (NetDialer 0) None ∅ None None [] [] false.

Definition apply_opts (opts : list ListenerOption) (l : Listener) : option Listener :=
  fold_left (λ ol opt, l ← ol; opt l) opts (Some l).

Definition Addr (l : Listener) : string := addr l.

(** ** Operations *)

Section listener.
Context `{X : Externals} `{Sel : Selector}.

(** [l.dialer.DialContext(ctx, "tcp", l.addr.String())] *)
Definition dial (l : Listener) : io (io_error + handle) :=
  call_ (CDial (addr l) (dialer_keepAlive (dialer l)) (dialer_tls (dialer l))).

(** [proto.NewClientV2(conn, l.clientOpts, l.clientV2Opts...)] and [Register] under a
    fresh identifier. *)
Definition register_new {S} (l : Listener) (conn : handle) : M S (ClientV2.ClientV2 * result ()) :=
  match ClientV2.NewClientV2 conn (clientOpts l) (clientV2Opts l) with
  | None => throw RuntimePanic
  | Some c =>
      id ← lift (call_ CNewUUID);
      on_local c (ClientV2.Register id)
  end.

(** [_ = client.Close()], then the error. *)
Definition close_client {S A} (c : ClientV2.ClientV2) (e : error) : M S A :=
  _ ← on_local c ClientV2.Close; throw e.

(** [l.cancel(); _ = l.client.Close()], then the error. *)
Definition abandon {S A} (c : ClientV2.ClientV2) (e : error) : M S A :=
  _ ← lift (call_ CCancel); close_client c e.

(** [muxConn := pool.NewMuxConn(session, nil)], with the clock. *)
Definition new_mux_conn (ses : session) (now : Z) : M Pool.st nat :=
  s ← get;
  let '(m, h) := MuxConn.NewMuxConn ses None now (hp s) in
  modify (set_heap h);; mret m.

(** The end of [Listen]: the first connection of a pool that was configured. *)
Definition init_pool (c : ClientV2.ClientV2) (now : Z) : M Listener () :=
  l ← get;
  match l_pool l with
  | Some p =>
      if ClientV2.IsV2 c then
        match ClientV2.Session c with
        | None => abandon c (Errorf "V2 client has no yamux session" [])
        | Some ses =>
            '(p', r) ← on_local p (m ← new_mux_conn ses now; AddConnection m);
            match r with
            | Err e => abandon c (Wrapf "failed to add connection to pool: %w" e)
            | Ok _ =>
                '(p'', _) ← on_local p' (Pool.Start true);
                modify (set_l_pool p'')
            end
        end
      else mret ()
  | None => mret ()
  end.

(** After the options: the first connection, the registration and the pool.  [None] in
    the receiver's place never happens: the listener is the receiver from here on. *)
Definition connect (now : Z) : M Listener () :=
  modify (λ l, if useV2 l then l else add_clientOpt Client.WithDisableV2Fallback l);;
  l ← get;
  r ← lift (dial l);
  match r with
  | inl e =>
      _ ← lift (call_ CCancel);
      throw (Wrapf "failed to connect to dialler server: %w" (IOErr e))
  | inr conn =>
      '(c, r) ← register_new l conn;
      modify (set_client c);;
      match r with
      | Err e =>
          _ ← lift (call_ CCancel);
          _ ← lift (conn_Close conn);
          throw (Wrapf "failed to register client: %w" e)
      | Ok _ => init_pool c now
      end
  end.

(** The listener is returned with the result, and only to be used on success. *)
Definition Listen (dialerSrv : string) (opts : list ListenerOption) (now : Z) : M () Listener :=
  a ← world_call "failed to resolve address: %w" (call_ (CResolve dialerSrv));
  match apply_opts opts (init_listener a) with
  | None => throw RuntimePanic
  | Some l =>
      '(l', r) ← on_local l (connect now);
      match r with
      | Err e => throw e
      | Ok _ => mret l'
      end
  end.

(** The factory the pool is started with, [l] being the listener's fields, which are not
    changed after [Listen]. *)
Definition createPoolConnection (l : Listener) (now : Z) : M Pool.st nat :=
  conn ← world_call "failed to connect: %w" (dial l);
  '(c, r) ← register_new l conn;
  match r with
  | Err e => close_client c (Wrapf "failed to register: %w" e)
  | Ok _ =>
      if ClientV2.IsV2 c then
        match ClientV2.Session c with
        | None => close_client c (Errorf "V2 client has no yamux session" [])
        | Some ses => new_mux_conn ses now
        end
      else close_client c (Errorf "server does not support V2" [])
  end.

(** What [Accept] returns: a connection or a session's stream, or a stream of the pool. *)
Inductive accepted := Raw (h : handle) | Pooled (t : nat).

(** The stream [bindStream] writes and reads. *)
Definition stream_handle (p : Pool.st) (t : nat) : handle :=
  MuxConn.t_Conn (MuxConn.tstreams (hp p) !!! ps_Conn (pstreams p !!! t)).

Definition bindStream {S} (stream : handle) (i : uuid) : M S () :=
  let req := VersionV1 :: CmdBind :: vec_to_list i in
  wrap "failed to write bind command: %w" (check (conn_Write stream req));;
  resp ← wrap "failed to read bind response: %w" (liftR (conn_Read stream 2));
  if decide (resp !!! 0%nat ≠ VersionV1 ∨ resp !!! 1%nat ≠ ResSuccess) then
    throw (Errorf "bind failed: version=%d, result=%d"
             [Z_of_byte (resp !!! 0%nat); Z_of_byte (resp !!! 1%nat)])
  else mret ().

(** [if err := bindStream(stream, id); err != nil { _ = stream.Close(); return err }] *)
Definition or_close {S} (close m : M S ()) : M S () :=
  r ← attempt m;
  match r with
  | Err e => _ ← attempt close; throw e
  | Ok _ => mret ()
  end.

(** The pool's path of [acceptV2Stream]. *)
Definition accept_pooled (i : uuid) : M Pool.st nat :=
  t ← wrap "failed to open stream from pool: %w" Pool.OpenStream;
  p ← get;
  or_close (ClosePTracked t) (bindStream (stream_handle p t) i);;
  mret t.

Definition acceptV2Stream (i : uuid) : M Listener accepted :=
  l ← get;
  match l_pool l with
  | Some p =>
      t ← zoom (λ _, p) set_l_pool (accept_pooled i);
      mret (Pooled t)
  | None =>
      match client l ≫= ClientV2.Session with
      | None => throw (Errorf "no yamux session available" [])
      | Some ses =>
          stream ← world_call "failed to open stream: %w" (call_ (COpenStream ses));
          or_close (check (conn_Close stream)) (bindStream stream i);;
          mret (Raw stream)
      end
  end.

Definition acceptV1Connection (i : uuid) : M Listener accepted :=
  l ← get;
  r ← lift (dial l);
  match r with
  | inl e =>
      _ ← lift (call_ CCancel);
      throw (Wrapf "failed to connect to dialler server: %w" (IOErr e))
  | inr conn =>
      match Client.NewClient conn (clientOpts l) with
      | None => throw RuntimePanic
      | Some c =>
          '(_, r) ← on_local c (Client.Bind i);
          match r with
          | Err e =>
              _ ← lift (conn_Close conn);
              throw (Wrapf "failed to bind connection: %w" e)
          | Ok _ => mret (Raw conn)
          end
      end
  end.

(** [ErrListenerClosed] *)
Definition ErrListenerClosed : error := Errorf "listener closed" [].

(** The pointee of a [*uuid.UUID]. *)
Definition pointee (p : any_ptr payload) : uuid :=
  match p with PtrUUID i => i | PtrOther _ => nil_uuid end.

(** The loop of [Accept]; no value when the fuel runs out, which is a listener still
    handling events. *)
Fixpoint Accept (fuel : nat) : M Listener (option accepted) :=
  match fuel with
  | O => mret None
  | S fuel' =>
      cmd ← lift (call_ CNextCmd);
      match cmd with
      | None => throw ErrListenerClosed
      | Some cmd =>
          l ← get;
          if decide (Type_ cmd = ConnectCommandType) then
            p ← wrap "failed to parse command payload: %w"
                  (liftR (Ret (ParsePayload cmd (PtrUUID nil_uuid))));
            let isV2 := default false (ClientV2.IsV2 <$> client l) in
            c ← (if isV2 : bool then acceptV2Stream (pointee p) else acceptV1Connection (pointee p));
            mret (Some c)
          else
            match eventHandlers l !! Type_ cmd with
            | Some handler => _ ← lift (call_ (CHandler handler cmd)); Accept fuel'
            | None => throw (Errorf "unexpected command type: %T" [])
            end
      end
  end.

Definition Close : M Listener () :=
  _ ← lift (call_ CCancel);
  l ← get;
  (match l_pool l with
   | Some p => '(p', _) ← on_local p Pool.Close; modify (set_l_pool p')
   | None => mret ()
   end);;
  match client l with
  | Some c =>
      '(c', r) ← on_local c ClientV2.Close;
      modify (set_client c');;
      liftR (Ret r)
  | None => throw RuntimePanic
  end.

End listener.

(** ** Every connection is dialed with the listener's settings *)

Definition dials_with (l : Listener) (c : call) : Prop :=
  match c with
  | CDial a k t => a = addr l ∧ k = dialer_keepAlive (dialer l) ∧ t = dialer_tls (dialer l)
  | _ => True
  end.

Section dials.
Context `{X : Externals} `{Sel : Selector}.
Implicit Types (l : Listener).

Ltac walk := only_walk ltac:(try exact I).

Lemma Register_dials l i : onlyM (dials_with l) (ClientV2.Register i).
Proof.
  unfold ClientV2.Register, ClientV2.registerV1, ClientV2.tryV2Registration, ClientV2.upd,
    ClientV2.via, Client.or_cancel, Client.establish, Client.handleAuth, Client.handleRegister,
    sendRequest, readMsg, world_call, conn_Write. walk.
Qed.

Lemma Client_Bind_dials l i : onlyM (dials_with l) (Client.Bind i).
Proof.
  unfold Client.Bind, Client.establish, Client.handleAuth, Client.handleBind, sendRequest,
    readMsg, conn_Write. walk.
Qed.

Lemma Client_Close_dials l : onlyM (dials_with l) ClientV2.Close.
Proof. unfold ClientV2.Close, ClientV2.via, Client.Close, conn_Close. walk. Qed.

Lemma register_new_dials {S} l l' conn : onlyM (S := S) (dials_with l) (register_new l' conn).
Proof. unfold register_new. pose proof (Register_dials l). walk. Qed.

Lemma dial_dials l l' :
  addr l' = addr l → dialer l' = dialer l → only (dials_with l) (dial l').
Proof. intros Ha Hd. unfold dial. apply only_call. cbn. by rewrite Ha, Hd. Qed.

Lemma close_client_dials {S A} l c e : onlyM (S := S) (dials_with l) (close_client (A := A) c e).
Proof. unfold close_client. pose proof (Client_Close_dials l). walk. Qed.

Lemma new_mux_conn_dials l ses now : onlyM (dials_with l) (new_mux_conn ses now).
Proof. unfold new_mux_conn. walk. Qed.

Lemma createPoolConnection_dials l now : onlyM (dials_with l) (createPoolConnection l now).
Proof.
  unfold createPoolConnection, world_call.
  pose proof (dial_dials l l eq_refl eq_refl). pose proof (@register_new_dials Pool.st l l).
  pose proof (@close_client_dials Pool.st nat l). pose proof (new_mux_conn_dials l). walk.
Qed.

Lemma accept_pooled_dials l i : onlyM (dials_with l) (accept_pooled i).
Proof.
  unfold accept_pooled, or_close, bindStream, Pool.OpenStream, ClosePTracked, new_ptracked,
    MuxConn.OpenStream, MuxConn.take_stream, MuxConn.CloseTracked, on_heap, world_call,
    conn_Write, conn_Close. walk.
Qed.

(** The methods with the listener as receiver: what they change is not the dialer. *)
Definition same_dialer (l l' : Listener) : Prop := addr l' = addr l ∧ dialer l' = dialer l.

Ltac kwalk := keeps_walk ltac:(try exact I) ltac:(try by intros ? []).

Lemma acceptV1_dials l i : keeps (dials_with l) (same_dialer l) (acceptV1Connection i).
Proof.
  pose proof (Client_Bind_dials l). pose proof (dial_dials l).
  unfold acceptV1Connection, conn_Close. apply keeps_get_bind. intros l' [Ha Hd]. kwalk; auto.
Qed.

Lemma acceptV2_dials l i : keeps (dials_with l) (same_dialer l) (acceptV2Stream i).
Proof.
  pose proof (accept_pooled_dials l i).
  unfold acceptV2Stream, or_close, bindStream, world_call, conn_Write, conn_Close. kwalk; auto.
Qed.

Lemma Accept_dials fuel l : keeps (dials_with l) (same_dialer l) (Accept fuel).
Proof.
  induction fuel as [|fuel IH]; cbn [Accept]; [apply keeps_ret|].
  pose proof (acceptV1_dials l). pose proof (acceptV2_dials l). kwalk; auto.
Qed.

Lemma init_pool_dials l c now : keeps (dials_with l) (same_dialer l) (init_pool c now).
Proof.
  pose proof (Client_Close_dials l). pose proof (new_mux_conn_dials l).
  unfold init_pool, abandon, close_client, AddConnection, Pool.Start. kwalk; auto.
Qed.

Lemma connect_dials l now : keeps (dials_with l) (same_dialer l) (connect now).
Proof.
  pose proof (init_pool_dials l). pose proof (dial_dials l).
  unfold connect, conn_Close. apply keeps_bind; [|intros _].
  { apply keeps_modify. intros l' Hl. by destruct (useV2 l'). }
  apply keeps_get_bind. intros l' [Ha Hd]. unfold register_new. pose proof (Register_dials l). kwalk; auto.
Qed.

Lemma close_all_dials l cs : onlyM (dials_with l) (close_all cs).
Proof.
  induction cs as [|c cs IH]; cbn; unfold on_heap, MuxConn.Close; only_walk ltac:(try exact I).
Qed.

Lemma Close_dials l : keeps (dials_with l) (same_dialer l) Close.
Proof.
  pose proof (Client_Close_dials l). pose proof (close_all_dials l). unfold Close, Pool.Close. kwalk; auto.
Qed.
End dials.

(** ** The dialer's settings are the options' *)

(** Options that give the keep-alive interval [k] (the last one given, the default if
    there is none) and the TLS configuration [t], if any: in any order, with TLS at most
    once, among options that leave the dialer alone. *)
Inductive configures : list ListenerOption → Z → option nat → Prop :=
  | configures_nil : configures [] 0 None
  | configures_keepAlive opts k t k' :
      configures opts k t → configures (opts ++ [WithListenerKeepAlive k']) k' t
  | configures_tls opts k c :
      configures opts k None → configures (opts ++ [WithListenerTLSConfig c]) k (Some c)
  | configures_other opts k t (o : ListenerOption) :
      (∀ l l', o l = Some l' → same_dialer l l') →
      configures opts k t → configures (opts ++ [o]) k t.

Definition dial_settings (k : Z) (t : option nat) (c : call) : Prop :=
  match c with
  | CDial _ k' t' => k' = k ∧ t' = t
  | _ => True
  end.

Lemma apply_opts_snoc opts o l : apply_opts (opts ++ [o]) l = apply_opts opts l ≫= o.
Proof. unfold apply_opts. by rewrite fold_left_app. Qed.

Lemma apply_opts_dialer opts k t a l :
  configures opts k t → apply_opts opts (init_listener a) = Some l →
  dialer l = match t with None => NetDialer k | Some c => TLSDialer (Some k) c end.
Proof.
  intros Hc. revert l. induction Hc as [|opts k t k' Hc IH|opts k c Hc IH|opts k t o Ho Hc IH];
    intros l; [by intros [= <-]|..]; rewrite apply_opts_snoc, bind_Some; intros (l1 & Hl1 & E);
    specialize (IH l1 Hl1).
  - injection E as <-. cbn. rewrite IH. by destruct t.
  - injection E as <-. cbn. by rewrite IH.
  - apply Ho in E as [_ ->]. exact IH.
Qed.

Lemma dials_settings l k t tr :
  dialer_keepAlive (dialer l) = k → dialer_tls (dialer l) = t →
  Forall (dials_with l) (calls tr) → Forall (dial_settings k t) (calls tr).
Proof.
  intros <- <- H. eapply Forall_impl; [exact H|]. intros []; cbn; try done. by intros (_ & -> & ->).
Qed.

Section settings.
Context `{X : Externals} `{Sel : Selector}.
Implicit Types (l : Listener).

Lemma Listen_dials srv opts k t now :
  configures opts k t →
  wpM (Listen srv opts now) () (λ tr _ r, Forall (dial_settings k t) (calls tr) ∧
    ∀ l, r = Ok l → dialer_keepAlive (dialer l) = k ∧ dialer_tls (dialer l) = t).
Proof.
  intros Hc. unfold Listen. rewrite wpM_bind, wpM_world_call. cbn [wp call_]. intros [e|a]; cbn.
  { split; [by repeat constructor | done]. }
  destruct (apply_opts opts (init_listener a)) as [l|] eqn:El.
  2: { rewrite wpM_throw. split; [by repeat constructor | done]. }
  pose proof (apply_opts_dialer _ _ _ _ _ Hc El) as Hd.
  assert (dialer_keepAlive (dialer l) = k ∧ dialer_tls (dialer l) = t) as [Hk Ht]
    by (rewrite Hd; by destruct t).
  rewrite wpM_bind, wpM_on_local. eapply wpM_mono; [by apply (connect_dials l)|].
  intros tr l' r [Htr [_ Hd']]. apply (dials_settings l k t) in Htr; [|done..].
  destruct r as [[]|e]; rewrite ?wpM_throw, ?wpM_ret, ?app_nil_r.
  - split; [by constructor|]. intros ? [= <-]. by rewrite Hd'.
  - split; [by constructor|done].
Qed.

(** C34: The keep-alive interval and the TLS configuration given to [Listen], in either
    order and among any other options, are those of every connection the listener
    dials: the control connection, the connections of [Accept], and those of the pool. *)
Theorem keepAlive_on_every_connection srv opts k t now tr l :
  configures opts k t → traces (Listen srv opts now ()) tr ((), Ok l) →
  Forall (dial_settings k t) (calls tr) ∧
  (∀ fuel tr' l' r, traces (Accept fuel l) tr' (l', r) → Forall (dial_settings k t) (calls tr')) ∧
  (∀ now' s tr' s' r, traces (createPoolConnection l now' s) tr' (s', r) →
     Forall (dial_settings k t) (calls tr')).
Proof.
  intros Hc Htr. destruct (wpM_trace _ _ _ _ _ _ (Listen_dials _ _ _ _ now Hc) Htr) as [H1 H2].
  destruct (H2 l eq_refl) as [Hk Ht]. split; [exact H1|]. split.
  - intros fuel tr' l' r Htr'. apply (dials_settings l); [done..|].
    by apply (wpM_trace _ _ _ _ _ _ (Accept_dials fuel l l (conj eq_refl eq_refl))) in Htr' as [? _].
  - intros now' s tr' s' r Htr'. apply (dials_settings l); [done..|].
    eapply only_traces; [|exact Htr']. apply createPoolConnection_dials.
Qed.

(** A second TLS option forgets the dialer, and its keep-alive. *)
Lemma tls_twice_resets_keepAlive k c c' a l :
  apply_opts [WithListenerKeepAlive k; WithListenerTLSConfig c; WithListenerTLSConfig c']
    (init_listener a) = Some l →
  dialer_keepAlive (dialer l) = 0.
Proof. by intros [= <-]. Qed.

End settings.

(** ** Answering a connect command *)

Section accept.
Context `{X : Externals} `{Sel : Selector}.
Implicit Types (l : Listener).

(** The response is read with one [Read]: one byte of version is enough, the zero after
    it in the buffer being the code of success. *)
Lemma bindStream_spec {S} h i (s : S) :
  wpM (bindStream h i) s (λ tr s' r,
    s' = s ∧ ∃ rx tx, traffic h tr rx tx ∧
      match r with
      | Ok _ => fill 2 rx = [VersionV1; ResSuccess] ∧ tx = VersionV1 :: CmdBind :: vec_to_list i
      | Err _ => True
      end).
Proof.
  unfold bindStream. rewrite wpM_bind, wpM_wrap. wpM_use conn_Write_wpM.
  intros tr1 s1 [[]|e] (-> & Ht1 & _); cbn -[fill].
  2: { split; [done|]. do 2 eexists. by split. }
  rewrite wpM_bind, wpM_wrap. eapply wpM_mono; [apply conn_Read_wpM; lia|].
  intros tr2 s2 [buf|e] (-> & rx & Ht2 & _ & H); cbn -[fill].
  2: { split; [done|]. do 2 eexists. split; [traffic|done]. }
  destruct H as [_ ->]. case_decide as Hc; [rewrite wpM_throw|rewrite wpM_ret]; (split; [done|]);
    do 2 eexists; (split; [traffic|]); [done|]. split; [|by cbn; rewrite ?app_nil_r].
  pose proof (length_fill 2 rx) as Hl. destruct (fill 2 rx) as [|a [|b [|]]]; try done. cbn in Hc.
  destruct (decide (a = VersionV1)) as [->|]; [|tauto].
  destruct (decide (b = ResSuccess)) as [->|]; [done|tauto].
Qed.

(** A stream that was opened: bound as [i] and returned, or closed as the last thing done
    with it. *)
Definition bound_or_closed (h : handle) (i : uuid) (tr : list event) (ok : bool) : Prop :=
  ∃ tr' rx tx, traffic h tr' rx tx ∧
    if ok then tr = tr' ∧ fill 2 rx = [VersionV1; ResSuccess] ∧
               tx = VersionV1 :: CmdBind :: vec_to_list i
    else ∃ cl, tr = tr' ++ [ev (CClose h) cl].

Definition session_post l (i : uuid) (tr : list event) l' (r : result accepted) : Prop :=
  l' = l ∧
  match client l ≫= ClientV2.Session with
  | None => tr = [] ∧ r = Err (Errorf "no yamux session available" [])
  | Some ses =>
      (∃ e, tr = [ev (COpenStream ses) (inl e)] ∧
            r = Err (Wrapf "failed to open stream: %w" (IOErr e))) ∨
      (∃ h tr', tr = ev (COpenStream ses) (inr h) :: tr' ∧ bound_or_closed h i tr' (is_Ok r) ∧
         ∀ a, r = Ok a → a = Raw h)
  end.

Lemma acceptV2_session i l :
  l_pool l = None → wpM (acceptV2Stream i) l (session_post l i).
Proof.
  intros Hp. unfold acceptV2Stream, session_post, or_close. rewrite wpM_bind, wpM_get, Hp.
  destruct (client l ≫= ClientV2.Session) as [ses|]; [|done].
  rewrite wpM_bind, wpM_world_call. cbn [wp call_]. intros [e|h]; cbn -[fill].
  { split; [done|]. left. by exists e. }
  rewrite !wpM_bind, wpM_attempt. wpM_use bindStream_spec.
  intros tr l' [[]|e] (-> & rx & tx & Ht & H); cbn -[fill].
  - rewrite wpM_ret. cbn -[fill]. rewrite ?app_nil_r. split; [done|]. right. exists h, tr. split; [f_equal; apply app_nil_r|].
    split; [|by intros ? [= <-]]. exists tr, rx, tx. by destruct H.
  - rewrite wpM_bind, wpM_attempt, wpM_check. cbn [wp conn_Close call_]. intros cl.
    rewrite wpM_throw. cbn -[fill]. rewrite ?app_nil_r. split; [done|]. right. exists h. eexists. split; [reflexivity|].
    split; [|done]. exists tr, rx, tx. split; [done|]. by exists cl.
Qed.

Definition v1_post l (i : uuid) (tr : list event) l' (r : result accepted) : Prop :=
  l' = l ∧
  let d := CDial (addr l) (dialer_keepAlive (dialer l)) (dialer_tls (dialer l)) in
  (∃ e, tr = [ev d (inl e); ev CCancel ()] ∧
        r = Err (Wrapf "failed to connect to dialler server: %w" (IOErr e))) ∨
  (∃ h, tr = [ev d (inr h)] ∧ Client.NewClient h (clientOpts l) = None ∧ r = Err RuntimePanic) ∨
  (∃ h c tr' rx tx, Client.NewClient h (clientOpts l) = Some c ∧ traffic h tr' rx tx ∧
     match r with
     | Ok a =>
         a = Raw h ∧ tr = ev d (inr h) :: ev (CGo (GCloseOnDone h)) () :: tr' ∧
         ∃ rx' tx', Client.establish_exchange c rx' tx' ∧
           rx = rx' ++ [versionV1; resSuccess] ∧ tx = tx' ++ versionV1 :: cmdBind :: vec_to_list i
     | Err _ =>
         ∃ cl, tr = ev d (inr h) :: ev (CGo (GCloseOnDone h)) () :: tr' ++ [ev (CClose h) cl]
     end).

Lemma acceptV1_spec i l :
  Forall Client.setting (clientOpts l) → wpM (acceptV1Connection i) l (v1_post l i).
Proof.
  intros Ho. unfold acceptV1Connection, v1_post, dial. rewrite wpM_bind, wpM_get, wpM_bind, wpM_lift.
  cbn [wp call_]. intros [e|h]; cbn.
  { rewrite wpM_bind, wpM_lift. cbn [wp call_]. intros []. rewrite wpM_throw. split; [done|].
    left. by exists e. }
  destruct (Client.NewClient h (clientOpts l)) as [c|] eqn:Ec.
  2: { rewrite wpM_throw. split; [done|]. right. left. by exists h. }
  destruct (Client.NewClient_new _ _ _ Ho Ec) as (Hh & Hs & _).
  rewrite wpM_bind, wpM_on_local. eapply wpM_mono; [by apply Client.client_Bind_spec|].
  intros tr c' r (tr' & rx & tx & Ht & H). rewrite Hh in *. destruct r as [[]|e]; cbn.
  - destruct H as (-> & -> & H). rewrite wpM_ret. cbn -[fill]. rewrite ?app_nil_r. split; [done|]. right. right.
    exists h, c, tr', rx, tx. by rewrite Ec.
  - destruct H as (-> & ->). rewrite wpM_bind, wpM_lift. cbn [wp conn_Close call_]. intros cl.
    rewrite wpM_throw. cbn -[fill]. rewrite ?app_nil_r. split; [done|]. right. right. exists h, c, tr', rx, tx.
    rewrite Ec. split; [done|]. split; [done|]. exists cl. by rewrite app_comm_cons.
Qed.

(** The pool's path: whatever happens the pool stays well-formed, and it counts one more
    stream exactly when one is returned. *)
Definition pooled_post (p p' : Pool.st) (r : result nat) : Prop :=
  pool_ok p' ∧
  match r with
  | Ok t => pstreams p !! t = None ∧ ∃ c, pstreams p' = <[t := mkPTracked c false]> (pstreams p)
  | Err _ => ps_count p' = ps_count p
  end.

Lemma accept_pooled_spec i p :
  pool_ok p → wpM (accept_pooled i) p (λ _ p' r, pooled_post p p' r).
Proof.
  intros Hp. unfold accept_pooled, or_close. rewrite wpM_bind, wpM_wrap.
  eapply wpM_mono; [by apply OpenStream_tracked|].
  intros tr p1 [t|e] [Hp1 H]; cbn -[fill]; [|by split; [|unfold ps_count; rewrite H]].
  destruct H as (Hnew & c & Hc). rewrite wpM_bind, wpM_get, !wpM_bind, wpM_attempt.
  wpM_use bindStream_spec. intros tr1 p2 [[]|e] (-> & _); cbn -[fill].
  - rewrite wpM_ret, wpM_ret. split; [done|]. split; [done|]. by exists c.
  - rewrite wpM_bind, wpM_attempt.
    assert (pstreams p1 !! t = Some (mkPTracked c false)) as Ht by (by rewrite Hc, lookup_insert_eq).
    eapply wpM_mono; [apply (ClosePTracked_tracked t p1 Hp1); by eexists|].
    intros tr2 p3 r [Hp3 H3]. rewrite wpM_throw. split; [done|]. cbn.
    pose proof (ps_once_Do_count t c p1 Ht) as Hd. unfold ps_count in *. rewrite <-H3, Hc in Hd.
    rewrite (map_filter_insert_True _ _ _ (mkPTracked c false)) in Hd by done.
    rewrite map_size_insert_None in Hd; [lia|]. apply map_lookup_filter_None. by left.
Qed.

Lemma acceptV2_pool i l p :
  l_pool l = Some p → pool_ok p →
  wpM (acceptV2Stream i) l (λ _ l' r, ∃ p' r', pooled_post p p' r' ∧ l' = set_l_pool p' l ∧
    r = (t ← r'; Ok (Pooled t))).
Proof.
  intros Hl Hp. unfold acceptV2Stream. rewrite wpM_bind, wpM_get, Hl, wpM_bind, wpM_zoom.
  eapply wp_mono; [by apply accept_pooled_spec|]. intros tr [p' r] H. cbn in *.
  destruct r as [t|e]; [rewrite wpM_ret|]; exists p'; [exists (Ok t)|exists (Err e)]; by split.
Qed.

(** ** The factory of the pool *)

Lemma NewMuxConn_heap ses now s :
  pool_ok s →
  let '(m, h) := MuxConn.NewMuxConn ses None now (hp s) in
  pool_ok (set_heap h s) ∧ is_Some (MuxConn.muxes h !! m).
Proof.
  intros Hs. pose proof (on_heap_ok (λ h, let '(m, h') := MuxConn.NewMuxConn ses None now h in Ret (h', Ok m))
    s (λ r h', ∀ m, r = Ok m → is_Some (MuxConn.muxes h' !! m)) Hs) as H.
  unfold on_heap in H. rewrite wpM_zoom in H. cbn in H.
  destruct H as (H1 & _ & _ & H2); [|by split; [|apply H2]]. unfold wpM. cbn.
  split; [by apply MuxConn.NewMuxConn_accounted, ok_heap|]. split.
  - split; cbn; [|done]. rewrite dom_insert_L. set_solver.
  - intros m [= <-]. rewrite lookup_insert_eq. by eexists.
Qed.

Lemma on_local_frame {S T A} (t : T) (m : M T A) (s : S) :
  wpM (on_local t m) s (λ _ s' r, s' = s ∧ ∃ x, r = Ok x).
Proof.
  rewrite wpM_on_local. apply wpM_traces. intros tr t' r _. split; [done|]. by eexists.
Qed.

Lemma createPoolConnection_spec l now s :
  wpM (createPoolConnection l now) s (λ _ s' r,
    match r with
    | Ok m => ∃ ses, MuxConn.NewMuxConn ses None now (hp s) = (m, hp s') ∧ s' = set_heap (hp s') s
    | Err _ => s' = s
    end).
Proof.
  unfold createPoolConnection, register_new, close_client, new_mux_conn.
  rewrite wpM_bind, wpM_world_call. cbn [wp call_ dial]. intros [e|h]; cbn; [done|].
  destruct (ClientV2.NewClientV2 _ _ _) as [c|]; rewrite wpM_bind; [|by rewrite wpM_throw].
  rewrite wpM_bind, wpM_lift. cbn [wp call_]. intros i.
  wpM_use on_local_frame. intros tr s1 r (-> & [c' r'] & ->).
  assert (∀ e, wpM (_ ← on_local c' ClientV2.Close; throw (A := nat) e) s (λ _ s' r,
    match r with
    | Ok m => ∃ ses, MuxConn.NewMuxConn ses None now (hp s) = (m, hp s') ∧ s' = set_heap (hp s') s
    | Err _ => s' = s
    end)) as Hclose.
  { intros e. rewrite wpM_bind. wpM_use on_local_frame. intros tr1 s1 r1 (-> & x & ->).
    by rewrite wpM_throw. }
  destruct r' as [[]|e]; [|apply Hclose]. destruct (ClientV2.IsV2 c'); [|apply Hclose].
  destruct (ClientV2.Session c') as [ses|]; [|apply Hclose].
  rewrite wpM_bind, wpM_get. destruct (MuxConn.NewMuxConn ses None now (hp s)) as [m hh] eqn:E.
  rewrite wpM_bind, wpM_modify, wpM_ret. exists ses. by destruct s.
Qed.

(** What a run of the factory did, told from the client it made and registered.  It dialed
    with the listener's settings, and changed the pool's state only when it returned a
    connection: a new one of the heap, open, without streams, over the session that the
    registration made on the dialed connection, the server having accepted the second
    version.  After every other registration the client is closed, and with it the dialed
    connection.  (The options of a client may panic, and then the connection stays open.) *)
Definition factory_post l now s (tr : list event) s' (r : result nat) : Prop :=
  let d := CDial (addr l) (dialer_keepAlive (dialer l)) (dialer_tls (dialer l)) in
  (∃ e, tr = [ev d (inl e)] ∧ s' = s ∧ r = Err (Wrapf "failed to connect: %w" (IOErr e))) ∨
  (∃ h, ClientV2.NewClientV2 h (clientOpts l) (clientV2Opts l) = None ∧
     tr = [ev d (inr h)] ∧ s' = s ∧ r = Err RuntimePanic) ∨
  (∃ h c i trR c' r' tr',
     ClientV2.NewClientV2 h (clientOpts l) (clientV2Opts l) = Some c ∧
     traces (ClientV2.Register i c) trR (c', r') ∧
     Client.conn (ClientV2.base c') = h ∧
     tr = ev d (inr h) :: ev CNewUUID i :: trR ++ tr' ∧
     match r' with
     | Ok _ =>
         if ClientV2.IsV2 c' then ∃ ses cfg m,
           ClientV2.Session c' = Some ses ∧ ev (CYamuxClient h cfg) (inr ses) ∈ trR ∧
           tr' = [] ∧ r = Ok m ∧ MuxConn.muxes (hp s) !! m = None ∧
           s' = set_heap (MuxConn.NewMuxConn ses None now (hp s)).2 s ∧
           MuxConn.Session (hp s') m = ses ∧ MuxConn.IsClosed (hp s') m = false
         else ClientV2.closing_calls c' tr' ∧ s' = s ∧
              r = Err (Errorf "server does not support V2" [])
     | Err e => ClientV2.closing_calls c' tr' ∧ s' = s ∧ r = Err (Wrapf "failed to register: %w" e)
     end).

Lemma close_client_calls {S} c e (s : S) :
  Client.state (ClientV2.base c) ≠ disconnected → Client.cancel_set (ClientV2.base c) = true →
  wpM (close_client (A := nat) c e) s (λ tr s' r, ClientV2.closing_calls c tr ∧ s' = s ∧ r = Err e).
Proof.
  intros Hs Hc. unfold close_client. rewrite wpM_bind, wpM_on_local.
  wpM_use ClientV2.client_Close_spec; [exact Hs|exact Hc|]. intros tr c' r H. rewrite wpM_throw, app_nil_r.
  by split.
Qed.

Lemma createPoolConnection_run l now s :
  Forall Client.setting (clientOpts l) → Forall ClientV2.setting (clientV2Opts l) →
  wpM (createPoolConnection l now) s (factory_post l now s).
Proof.
  intros Ho Hv. unfold createPoolConnection, register_new, factory_post.
  rewrite wpM_bind, wpM_world_call. cbn [wp call_ dial]. intros [e|h]; cbn; [left; by exists e|].
  destruct (ClientV2.NewClientV2 h _ _) as [c|] eqn:Ec; rewrite wpM_bind;
    [|rewrite wpM_throw; right; left; by exists h].
  destruct (ClientV2.NewClientV2_new _ _ _ _ Ho Hv Ec) as (Hh & Hst & _).
  rewrite wpM_bind, wpM_lift. cbn [wp call_]. intros i. rewrite wpM_on_local. apply wpM_traces.
  intros trR c' r' Htr.
  pose proof (wpM_trace _ _ _ _ _ _ (ClientV2.Register_session i c Hst) Htr) as (Hh' & Hs' & Hc' & Hses).
  rewrite Hh in *.
  assert (∀ e, wpM (close_client (A := nat) c' e) s (λ tr s' r, ∃ tr',
    (ev (CDial (addr l) (dialer_keepAlive (dialer l)) (dialer_tls (dialer l))) (inr h) ::
       ev CNewUUID i :: trR ++ tr) =
    (ev (CDial (addr l) (dialer_keepAlive (dialer l)) (dialer_tls (dialer l))) (inr h) ::
       ev CNewUUID i :: trR ++ tr') ∧ ClientV2.closing_calls c' tr' ∧ s' = s ∧ r = Err e)) as Hclose.
  { intros e. wpM_use close_client_calls; [exact Hs'|exact Hc'|]. intros tr s' r H. by exists tr. }
  destruct r' as [[]|e].
  2: { eapply wpM_mono; [apply Hclose|]. intros tr s' r (tr' & E & H).
       right. right. exists h, c, i, trR, c', (Err e), tr'. by rewrite <-E, ?app_nil_r. }
  destruct (ClientV2.IsV2 c') eqn:Ev.
  2: { eapply wpM_mono; [apply Hclose|]. intros tr s' r (tr' & E & H).
       right. right. exists h, c, i, trR, c', (Ok ()), tr'. by rewrite Ev, <-E, ?app_nil_r. }
  destruct (Hses eq_refl eq_refl) as (ses & cfg & Es & Hin). rewrite Es. unfold new_mux_conn.
  rewrite wpM_bind, wpM_get. set (m := fresh (dom (MuxConn.muxes (hp s)))).
  change (MuxConn.NewMuxConn ses None now (hp s)) with (m, (MuxConn.NewMuxConn ses None now (hp s)).2).
  cbn beta iota. rewrite wpM_bind, wpM_modify, wpM_ret.
  right. right. exists h, c, i, trR, c', (Ok ()), []. rewrite Ev, !app_nil_r.
  do 4 (split; [done|]). exists ses, cfg, m. do 4 (split; [done|]).
  split; [apply not_elem_of_dom, is_fresh|]. split; [done|].
  unfold MuxConn.Session, MuxConn.IsClosed, MuxConn.mux. cbn. by rewrite lookup_total_insert_eq.
Qed.

(** C28: The function the listener gives its pool keeps the contract the pool's invariant
    relies on; and, for a listener with the package's clients' options, whatever the
    server and the network do, it dials with the listener's settings and changes nothing
    but adding one new connection, exactly when the client it dialed for registered with
    the second version, and over the session made on that dialed connection; when there
    is no connection it says so, and after a registration that failed or was over the
    first version it closes the dialed connection and changes nothing. *)
Theorem createPoolConnection_factory l now :
  factory_ok (createPoolConnection l now) ∧
  (Forall Client.setting (clientOpts l) → Forall ClientV2.setting (clientV2Opts l) →
   ∀ s tr s' r, traces (createPoolConnection l now s) tr (s', r) → factory_post l now s tr s' r).
Proof.
  split.
  - intros s Hs. wpM_use createPoolConnection_spec. intros tr s' [m|e]; [|by intros ->].
    intros (ses & E & ->). pose proof (NewMuxConn_heap ses now s Hs) as H. rewrite E in H.
    destruct H as [H1 H2]. split; [exact H1|]. by intros ? [= <-].
  - intros Ho Hv s tr s' r. exact (wpM_trace _ _ _ _ _ _ (createPoolConnection_run l now s Ho Hv)).
Qed.

(** ** The loop of [Accept] *)

(** What a connect command asks for: its identifier, or that of an event that was given
    the name of the connect command. *)
Definition connect_id (cmd : Command) : result uuid :=
  p ← wrap_err "failed to parse command payload: %w" (ParsePayload cmd (PtrUUID nil_uuid));
  Ok (pointee p).

(** The answer to a connect command, over the protocol the client registered with. *)
Definition answer_connect l (i : uuid) : M Listener accepted :=
  if default false (ClientV2.IsV2 <$> client l) then acceptV2Stream i else acceptV1Connection i.

(** A run of [Accept]: events go to their handlers in the order they came, nothing else
    happens between them, and one command ends it. *)
Inductive accept_run l : list event → Listener → result (option accepted) → Prop :=
  | run_more : accept_run l [] l (Ok None)
  | run_closed : accept_run l [ev CNextCmd None] l (Err ErrListenerClosed)
  | run_event cmd f tr l' r :
      Type_ cmd ≠ ConnectCommandType → eventHandlers l !! Type_ cmd = Some f →
      accept_run l tr l' r →
      accept_run l (ev CNextCmd (Some cmd) :: ev (CHandler f cmd) () :: tr) l' r
  | run_unexpected cmd :
      Type_ cmd ≠ ConnectCommandType → eventHandlers l !! Type_ cmd = None →
      accept_run l [ev CNextCmd (Some cmd)] l (Err (Errorf "unexpected command type: %T" []))
  | run_parse cmd e :
      Type_ cmd = ConnectCommandType → connect_id cmd = Err e →
      accept_run l [ev CNextCmd (Some cmd)] l (Err e)
  | run_connect cmd i tr l' r :
      Type_ cmd = ConnectCommandType → connect_id cmd = Ok i →
      traces (answer_connect l i l) tr (l', r) →
      accept_run l (ev CNextCmd (Some cmd) :: tr) l' (c ← r; Ok (Some c)).

Lemma Accept_spec fuel l : wpM (Accept fuel) l (accept_run l).
Proof.
  induction fuel as [|fuel IH]; cbn [Accept]; [rewrite wpM_ret; constructor|].
  rewrite wpM_bind, wpM_lift. cbn [wp call_]. intros [cmd|]; [|rewrite wpM_throw; constructor].
  rewrite wpM_bind, wpM_get. case_decide as Hc.
  - rewrite wpM_bind, wpM_wrap, wpM_liftR. cbn [wp].
    destruct (wrap_err _ (ParsePayload cmd (PtrUUID nil_uuid))) as [p|e] eqn:Ep;
      [|by constructor; [|unfold connect_id; rewrite Ep]].
    rewrite wpM_bind. change (if default false _ then _ else _) with (answer_connect l (pointee p)).
    apply wpM_traces. intros tr l' r Htr.
    assert (accept_run l (ev CNextCmd (Some cmd) :: tr) l' (c ← r; Ok (Some c))) as Hrun
      by (apply (run_connect _ _ (pointee p)); [done | unfold connect_id; by rewrite Ep | done]).
    by destruct r as [c|e]; [rewrite wpM_ret; cbn; rewrite app_nil_r|].
  - destruct (eventHandlers l !! Type_ cmd) as [f|] eqn:Ef; [|rewrite wpM_throw; by constructor].
    rewrite wpM_bind, wpM_lift. cbn [wp call_]. intros []. wpM_use IH. intros tr l' r Hrun.
    by apply run_event.
Qed.

(** C24: [Accept] hands the events to their handlers, each to the one registered under its
    name and in the order the client delivered them, until a command ends it: a connect
    command, which is answered over the protocol the client registered with, an event
    nobody handles, or the end of the commands. *)
Theorem Accept_runs fuel l tr l' r : traces (Accept fuel l) tr (l', r) → accept_run l tr l' r.
Proof. apply (wpM_trace (Accept fuel)), Accept_spec. Qed.

(** Over the second version without a pool, a connect command is answered with a new
    stream of the client's session, on which the request for its identifier was written
    and confirmed; when that fails the stream is closed, and nothing is left open. *)
Lemma acceptV2_session_outcome i l tr l' r :
  l_pool l = None → traces (acceptV2Stream i l) tr (l', r) → session_post l i tr l' r.
Proof. intros Hp. by apply (wpM_trace (acceptV2Stream i)), acceptV2_session. Qed.

(** Over the first version a connect command is answered with a new connection on
    which the client authenticated and bound under the command's identifier; when that
    fails the connection is closed, and when there is none the listener is cancelled. *)
Lemma acceptV1_outcome i l tr l' r :
  Forall Client.setting (clientOpts l) →
  traces (acceptV1Connection i l) tr (l', r) → v1_post l i tr l' r.
Proof. intros Ho. by apply (wpM_trace (acceptV1Connection i)), acceptV1_spec. Qed.

(** C29: With a pool, answering a connect command keeps the pool's invariant, and the
    pool counts one more open stream exactly when a stream is returned: no failure
    leaks one. *)
Theorem acceptV2_pool_no_leak i l p tr l' r :
  l_pool l = Some p → pool_ok p → traces (acceptV2Stream i l) tr (l', r) →
  ∃ p', l' = set_l_pool p' l ∧ pool_ok p' ∧
    ps_count p' = (ps_count p + if is_Ok r then 1 else 0)%nat.
Proof.
  intros Hl Hp Htr. apply (wpM_trace _ _ _ _ _ _ (acceptV2_pool i l p Hl Hp)) in Htr
    as (p' & r' & [Hp' H] & -> & ->).
  exists p'. split; [done|]. split; [done|]. destruct r' as [t|e]; cbn; [|lia].
  destruct H as (Hnew & c & Hc). unfold ps_count. rewrite Hc.
  rewrite map_filter_insert_True by done. rewrite map_size_insert_None; [lia|].
  apply map_lookup_filter_None. by left.
Qed.

End accept.

(** ** One byte is enough for [bindStream] *)

(** The confirmation of a stream is read with one [Read]: when its two bytes arrive
    apart, the version alone is taken for a success, and the second byte is left in front
    of the application's data. *)
Lemma bindStream_short_read (h : handle) (i : uuid) (data : list byte) (b : byte) :
  let w := one_conn h [[VersionV1]; b :: data] in
  (run script_handler (bindStream h i ()) w).1.2 = ((), Ok ()) ∧
  w_in (run script_handler (bindStream h i ()) w).2 !! h = Some [[]; b :: data].
Proof.
  unfold one_conn. pose proof (lookup_singleton_eq (M := gmap handle) h [[VersionV1]; b :: data]) as Hm.
  revert Hm. generalize ({[h := [[VersionV1]; b :: data]]} : gmap handle (list (list byte))).
  intros m Hm. unfold bindStream, wrap, check, liftR, mbind, M_bind, mret, M_ret.
  cbn -[lookup insert]. rewrite Hm. cbn -[lookup insert].
  split; [done|]. apply lookup_insert_eq.
Qed.

(** ** Witnesses: a listener over the first version *)

Definition demo_reply : list byte := [versionV1; noAuth].
Definition demo_world : world :=
  mkWorld {[3%nat := [demo_reply; [versionV1; resSuccess]]; 4%nat := [demo_reply; [versionV1; resSuccess]]]}
    ioEOF ∅ [] [] [inr 3%nat; inr 4%nat] 0 [].
Definition demo_opts : list ListenerOption := [WithListenerKeepAlive 30; WithListenerTLSConfig 5].
Definition demo_Listen : list event * (() * result Listener) * world :=
  run script_handler (Listen (X := demo) "server:80" demo_opts 0 ()) demo_world.

Lemma demo_Listen_Ok : ∃ l, demo_Listen.1.2 = ((), Ok l) ∧ l_pool l = None ∧ clientOpts l = [Client.WithDisableV2Fallback].
Proof. eexists. split; [vm_compute; reflexivity|]. by split. Qed.

Lemma demo_configures : configures demo_opts 30 (Some 5%nat).
Proof.
  apply (configures_tls [WithListenerKeepAlive 30]).
  apply (configures_keepAlive [] 0 None 30). constructor.
Qed.

Lemma keepAlive_on_every_connection_witness :
  configures demo_opts 30 (Some 5%nat) ∧ Forall (dial_settings 30 (Some 5%nat)) (calls demo_Listen.1.1) ∧
  CDial "server:80" 30 (Some 5%nat) ∈ calls demo_Listen.1.1.
Proof.
  split; [exact demo_configures|]. destruct demo_Listen_Ok as (l & Hl & _).
  split; [|vm_compute; right; left].
  assert (traces (Listen (X := demo) "server:80" demo_opts 0 ())
            demo_Listen.1.1 ((), Ok l)) as Htr by (rewrite <-Hl; apply run_traces).
  exact (proj1 (keepAlive_on_every_connection (X := demo) (Sel := LeastStreamsSelector)
    "server:80" demo_opts 30 (Some 5%nat) 0 _ l demo_configures Htr)).
Defined.

(** A run of the factory against a server that accepts the second version. *)
Definition demo_accepted : list byte :=
  demo_reply ++ [versionV1; cmdMuxReady] ++ ServerV2.mux_frame Mux.DefaultConfig.
Definition demo_v2_world : world :=
  mkWorld {[5%nat := [demo_accepted]; 6%nat := [[versionV1; resSuccess]]]}
    ioEOF ∅ [] [inr 11%nat] [inr 5%nat; inr 6%nat] 0 [].
Definition demo_made : list event * (st * result nat) * world :=
  run script_handler (createPoolConnection (X := demo) (init_listener "server:80") 1 Pool.demo3.1)
    demo_v2_world.

Lemma createPoolConnection_factory_witness :
  factory_post (X := demo) (init_listener "server:80") 1 Pool.demo3.1 demo_made.1.1 demo_made.1.2.1 (Ok 2%nat) ∧
  MuxConn.Session (hp demo_made.1.2.1) 2 = 11%nat.
Proof.
  split; [|by vm_compute].
  assert (traces (createPoolConnection (X := demo) (init_listener "server:80") 1 Pool.demo3.1)
    demo_made.1.1 (demo_made.1.2.1, Ok 2%nat)) as Htr.
  { assert ((demo_made.1.2.1, Ok 2%nat) = demo_made.1.2) as -> by (by vm_compute).
    exact (run_traces script_handler (createPoolConnection (X := demo) (init_listener "server:80") 1 Pool.demo3.1)
             demo_v2_world). }
  exact (proj2 (createPoolConnection_factory (X := demo) (init_listener "server:80") 1)
           (Forall_nil_2 _) (Forall_nil_2 _) Pool.demo3.1 _ _ _ Htr).
Defined.

(** The listener that [Listen] returned, with a handler, an event and a connect command. *)
Definition demo_uuid : uuid := vreplicate 16 x07.
Definition demo_event : Command := CustomEvent (mkEvent "news" [x31]).
Definition demo_listener : Listener :=
  mkListener "server:80" (NetDialer 0) None {["news" := 9%nat]} None None [] [] false.
Definition demo_cmds : world :=
  mkWorld {[4%nat := [demo_reply; [versionV1; resSuccess]]]} ioEOF ∅ [] [] [inr 4%nat] 0
    [demo_event; ConnectCommand demo_uuid].

Definition demo_Accept : list event * (Listener * result (option accepted)) * world :=
  run script_handler (Accept (X := demo) (Sel := LeastStreamsSelector) 5 demo_listener) demo_cmds.

Lemma Accept_runs_witness :
  demo_Accept.1.2.2 = Ok (Some (Raw 4%nat)) ∧
  accept_run (X := demo) (Sel := LeastStreamsSelector) demo_listener demo_Accept.1.1
    demo_Accept.1.2.1 demo_Accept.1.2.2.
Proof.
  split; [by vm_compute|].
  exact (Accept_runs (X := demo) (Sel := LeastStreamsSelector) 5 demo_listener _ _ _
    (run_tracesM script_handler (Accept 5) demo_listener demo_cmds)).
Defined.

Lemma acceptV1_outcome_witness :
  v1_post demo_listener demo_uuid
    (run script_handler (acceptV1Connection demo_uuid demo_listener) demo_cmds).1.1
    demo_listener (Ok (Raw 4%nat)).
Proof.
  assert (Forall Client.setting (clientOpts demo_listener)) as Ho by constructor.
  exact (acceptV1_outcome demo_uuid demo_listener _ _ _ Ho
    (run_tracesM script_handler (acceptV1Connection demo_uuid) demo_listener demo_cmds)).
Defined.

(** Over a session, without a pool and with one. *)
Definition demo_client : ClientV2.ClientV2 :=
  ClientV2.mkClientV2 (Client.mkClient 3%nat true [] noAuth registered false) (Some 6%nat)
    Mux.DefaultConfig true.
Definition demo_v2 : Listener := set_client demo_client demo_listener.
Definition demo_pooled : Listener := set_l_pool Pool.demo3.1 demo_v2.
Definition demo_streams : world :=
  mkWorld {[4%nat := [[versionV1; resSuccess]]]} ioEOF ∅ [] [] [inr 4%nat] 0 [].

Lemma acceptV2_session_outcome_witness :
  session_post demo_v2 demo_uuid
    (run script_handler (acceptV2Stream (Sel := LeastStreamsSelector) demo_uuid demo_v2) demo_streams).1.1
    demo_v2 (Ok (Raw 4%nat)).
Proof.
  exact (acceptV2_session_outcome (Sel := LeastStreamsSelector) demo_uuid demo_v2 _ _ _ eq_refl
    (run_tracesM script_handler (acceptV2Stream (Sel := LeastStreamsSelector) demo_uuid) demo_v2 demo_streams)).
Defined.

Lemma acceptV2_pool_no_leak_witness : ∃ p',
  (run script_handler (acceptV2Stream (Sel := LeastStreamsSelector) demo_uuid demo_pooled) demo_streams).1.2
    = (set_l_pool p' demo_v2, Ok (Pooled 1%nat)) ∧ pool_ok p' ∧ ps_count p' = 2%nat.
Proof.
  assert (pool_ok Pool.demo3.1) as Hok by exact Pool.demo3_ok.
  destruct (acceptV2_pool_no_leak (Sel := LeastStreamsSelector) demo_uuid demo_pooled Pool.demo3.1 _ _ _ eq_refl Hok
    (run_tracesM script_handler (acceptV2Stream (Sel := LeastStreamsSelector) demo_uuid) demo_pooled demo_streams))
    as (p' & Hp' & Hok' & Hc).
  exists p'. split; [|split; [exact Hok'|]].
  - rewrite (surjective_pairing (run _ _ _).1.2), Hp'. f_equal.
  - rewrite Hc. by vm_compute.
Defined.
