(* ===== verification/Listening.v ===== *)
(** * Starting a listener: the options, the registration and the pool of listener.go

    What [Listen] returns for the options the package offers, and what it leaves behind
    when it fails.  The definitions are those of Listener.v. *)
From S2P Require Import Prelude Static MuxConfig PoolConfig Commands GoIO Wire.
From S2P Require Client ClientV2 MuxConn.
From S2P Require Import Selector Pool Demo Listener.

(** ** The package's options *)

Inductive option_of_package `{X : Externals} : ListenerOption → Prop :=
  | opt_user_pass u p o : WithUserPass u p = Ok o → option_of_package o
  | opt_tls c : option_of_package (WithListenerTLSConfig c)
  | opt_keepAlive k : option_of_package (WithListenerKeepAlive k)
  | opt_handler n f o : WithEventHandler n f = Ok o → option_of_package o
  | opt_pool cfg now : option_of_package (WithPoolConfig cfg now)
  | opt_mux cfg : option_of_package (WithMuxConfig cfg)
  | opt_disable : option_of_package WithDisableV2
  | opt_enable : option_of_package WithEnableV2.

Definition user_pass_option (o : Client.ClientOption) : Prop :=
  ∃ u p, Client.WithUserPass u p = Ok o.

(** The calls of the application that make them, and what a sequence of them asks for:
    the second version, the last word counting; a pool; and how many times credentials
    are given. *)
Inductive choice :=
  | ChooseUserPass (username password : string)
  | ChooseTLS (config : nat)
  | ChooseKeepAlive (interval : Z)
  | ChooseHandler (eventName : string) (handler : nat)
  | ChoosePool (config : option Config) (now : Z)
  | ChooseMux (config : Mux.Config)
  | ChooseDisableV2
  | ChooseEnableV2.

Definition option_of `{X : Externals} (c : choice) : result ListenerOption :=
  match c with
  | ChooseUserPass u p => WithUserPass u p
  | ChooseTLS c => Ok (WithListenerTLSConfig c)
  | ChooseKeepAlive k => Ok (WithListenerKeepAlive k)
  | ChooseHandler n f => WithEventHandler n f
  | ChoosePool cfg now => Ok (WithPoolConfig cfg now)
  | ChooseMux cfg => Ok (WithMuxConfig cfg)
  | ChooseDisableV2 => Ok WithDisableV2
  | ChooseEnableV2 => Ok WithEnableV2
  end.

Definition asks_v2 (cs : list choice) : bool :=
  fold_left (λ b c, match c with
                    | ChooseEnableV2 => true
                    | ChooseDisableV2 => false
                    | _ => b
                    end) cs false.
Definition asks_pool (cs : list choice) : bool :=
  existsb (λ c, match c with ChoosePool _ _ => true | _ => false end) cs.
Definition credentials (cs : list choice) : nat :=
  length (List.filter (λ c, match c with ChooseUserPass _ _ => true | _ => false end) cs).

(** The pool configurations, of which an invalid one panics. *)
Definition pool_valid (c : choice) : Prop :=
  match c with ChoosePool cfg now => is_Some (New cfg now) | _ => True end.
Definition pools_valid (cs : list choice) : Prop := Forall pool_valid cs.

(** What the options make of a new listener: credentials for its clients, and a pool
    without connections. *)
Record configured (a : string) (l : Listener) : Prop := mkConfigured {
  cf_addr : addr l = a;
  cf_opts : Forall user_pass_option (clientOpts l);
  cf_v2opts : Forall ClientV2.setting (clientV2Opts l);
  cf_pool : ∀ p, l_pool l = Some p → pool_ok p ∧ connections (pool p) = []
}.

Section options.
Context `{X : Externals}.

Lemma option_configured o a l l' :
  option_of_package o → configured a l → o l = Some l' → configured a l'.
Proof.
  intros Ho [H0 H1 H2 H3]. destruct Ho as [u p o Ho|c|k|n f o Ho|cfg now|cfg| |].
  - unfold WithUserPass in Ho. destruct (Client.WithUserPass u p) as [co|e] eqn:E; [|done].
    injection Ho as <-. intros [= <-]. constructor; cbn; [done| |done..].
    apply Forall_app. split; [done|]. constructor; [by exists u, p | done].
  - intros [= <-]. by constructor.
  - intros [= <-]. by constructor.
  - unfold WithEventHandler in Ho. destruct (NewCommandType n); [|done].
    injection Ho as <-. intros [= <-]. by constructor.
  - unfold WithPoolConfig. intros (p & Hp & [= <-])%bind_Some. constructor; cbn; [done..|].
    intros ? [= <-]. split; [eapply New_ok; [exact Hp | apply MuxConn.accounted_empty]|].
    unfold New in Hp. destruct (Validate _) as [c [[]|]]; [|done]. by injection Hp as <-.
  - intros [= <-]. constructor; cbn; [done..| |done]. apply Forall_app. split; [done|].
    by repeat constructor.
  - intros [= <-]. by constructor.
  - intros [= <-]. by constructor.
Qed.

Lemma apply_opts_configured opts a l :
  Forall option_of_package opts → apply_opts opts (init_listener a) = Some l → configured a l.
Proof.
  intros Ho. assert (configured a (init_listener a)) as H0 by by constructor.
  revert l. induction opts as [|o opts IH] using rev_ind; intros l; [by intros [= <-]|].
  apply Forall_app in Ho as [Ho Ho']. rewrite apply_opts_snoc, bind_Some. intros (l1 & Hl1 & E).
  apply (option_configured o a l1); [by apply Forall_singleton | by apply IH | done].
Qed.

Lemma option_of_option c o : option_of c = Ok o → option_of_package o.
Proof.
  destruct c; cbn; try (intros [= <-]; constructor); intros H; [by eapply opt_user_pass|by eapply opt_handler].
Qed.

Lemma options_of_package cs opts :
  Forall2 (λ c o, option_of c = Ok o) cs opts → Forall option_of_package opts.
Proof. induction 1; constructor; [by eapply option_of_option|done]. Qed.

Lemma asks_v2_snoc cs c :
  asks_v2 (cs ++ [c]) =
    match c with ChooseEnableV2 => true | ChooseDisableV2 => false | _ => asks_v2 cs end.
Proof. unfold asks_v2. rewrite fold_left_app. by destruct c. Qed.

Lemma asks_pool_snoc cs c :
  asks_pool (cs ++ [c]) = match c with ChoosePool _ _ => true | _ => asks_pool cs end.
Proof. unfold asks_pool. rewrite existsb_app. cbn. destruct c; by rewrite ?orb_false_r, ?orb_true_r. Qed.

Lemma credentials_snoc cs c :
  credentials (cs ++ [c]) =
    match c with ChooseUserPass _ _ => S (credentials cs) | _ => credentials cs end.
Proof.
  unfold credentials. rewrite List.filter_app, length_app. destruct c; cbn; lia.
Qed.

(** What is asked for is what the options set. *)
Definition granted (cs : list choice) (l : Listener) : Prop :=
  useV2 l = asks_v2 cs ∧ bool_decide (is_Some (l_pool l)) = asks_pool cs ∧
  length (clientOpts l) = credentials cs.

Lemma option_granted c o cs l :
  option_of c = Ok o → granted cs l →
  match o l with
  | Some l' => granted (cs ++ [c]) l' ∧ pool_valid c
  | None => ¬ pool_valid c
  end.
Proof.
  unfold granted. rewrite asks_v2_snoc, asks_pool_snoc, credentials_snoc.
  intros Ho (H1 & H2 & H3). destruct c as [u p|c|k|n f|cfg now|cfg| |]; cbn in Ho.
  - unfold WithUserPass in Ho. destruct (Client.WithUserPass u p); [|done]. injection Ho as <-.
    cbn. rewrite length_app, Nat.add_1_r, H3. by rewrite H1, H2.
  - injection Ho as <-. by split.
  - injection Ho as <-. by split.
  - unfold WithEventHandler in Ho. destruct (NewCommandType n); [|done]. injection Ho as <-. by split.
  - injection Ho as <-. unfold WithPoolConfig, pool_valid. destruct (New cfg now) as [p|]; cbn.
    + split; [by split|by eexists].
    + by intros [x Hx].
  - injection Ho as <-. by split.
  - injection Ho as <-. by split.
  - injection Ho as <-. by split.
Qed.

Lemma apply_opts_granted cs opts a :
  Forall2 (λ c o, option_of c = Ok o) cs opts →
  match apply_opts opts (init_listener a) with
  | Some l => granted cs l ∧ pools_valid cs
  | None => ¬ pools_valid cs
  end.
Proof.
  revert cs. induction opts as [|o opts IH] using rev_ind; intros cs Hcs.
  { apply Forall2_nil_inv_r in Hcs as ->. split; [done|constructor]. }
  apply Forall2_app_inv_r in Hcs as (cs1 & cs2 & H1 & H2 & ->).
  apply Forall2_cons_inv_r in H2 as (c & cs3 & Ho & H3 & ->). apply Forall2_nil_inv_r in H3 as ->.
  specialize (IH cs1 H1). rewrite apply_opts_snoc.
  assert (pools_valid (cs1 ++ [c]) ↔ pools_valid cs1 ∧ pool_valid c) as Hv
    by (unfold pools_valid; by rewrite Forall_app, Forall_singleton).
  revert IH. destruct (apply_opts opts (init_listener a)) as [l|]; cbn; [|tauto].
  intros [Hl Hv1]. pose proof (option_granted c o cs1 l Ho Hl) as H.
  destruct (o l) as [l'|]; [|tauto]. destruct H as [Hg Hc]. split; [exact Hg|]. apply Hv. by split.
Qed.

(** Credentials may be given once: the second time, the options of a client panic. *)
Lemma user_pass_clients_count h opts :
  Forall user_pass_option opts →
  match Client.NewClient h opts with
  | Some c => (length opts ≤ 1)%nat ∧ (opts ≠ [] → Client.authMode c ≠ noAuth) ∧
              (opts = [] → Client.authMode c = noAuth)
  | None => (1 < length opts)%nat
  end.
Proof.
  unfold Client.NewClient. induction opts as [|o opts IH] using rev_ind; intros Ho; [cbn; auto with lia|].
  apply Forall_app in Ho as [Ho Ho']. specialize (IH Ho). rewrite fold_left_app, length_app. cbn.
  apply Forall_singleton in Ho' as (u & p & Hup).
  revert IH. destruct (fold_left _ _ _) as [c|]; cbn; [|lia]. intros (Hlen & Hne & Heq).
  unfold Client.WithUserPass in Hup. case_decide; [done|]. injection Hup as <-.
  destruct opts as [|o' opts].
  - rewrite decide_False by (rewrite Heq by done; tauto). cbn. split; [lia|]. by split.
  - rewrite decide_True by (by apply Hne). cbn in *. lia.
Qed.

(** Of the clients' options only the last sets the flag that disables the second
    version. *)
Lemma user_pass_clients h opts c :
  Forall user_pass_option opts → Client.NewClient h opts = Some c → Client.disableV2 c = false.
Proof.
  intros Ho. unfold Client.NewClient. revert c.
  induction opts as [|o opts IH] using rev_ind; intros c; [by intros [= <-]|].
  apply Forall_app in Ho as [Ho Ho']. rewrite fold_left_app. cbn. rewrite bind_Some.
  intros (c1 & Hc1 & E). apply Forall_singleton in Ho' as (u & p & Hup). revert Hup E.
  unfold Client.WithUserPass. case_decide; [done|]. intros [= <-]. case_decide; [done|].
  intros [= <-]. exact (IH Ho c1 Hc1).
Qed.

Lemma user_pass_settings opts : Forall user_pass_option opts → Forall Client.setting opts.
Proof.
  intros Ho. eapply Forall_impl; [exact Ho|]. intros o (u & p & H).
  by eapply Client.WithUserPass_setting.
Qed.

Lemma NewClientV2_disabled h opts v2opts c :
  Forall ClientV2.setting v2opts → ClientV2.NewClientV2 h opts v2opts = Some c →
  Client.NewClient h opts = Some (ClientV2.base c).
Proof.
  intros Hv. unfold ClientV2.NewClientV2. intros (b & -> & [= <-])%bind_Some. f_equal.
  induction v2opts as [|o v2opts IH] using rev_ind; [done|].
  apply Forall_app in Hv as [Hv [Ho _]%Forall_cons]. rewrite fold_left_app. cbn.
  match goal with |- _ = ClientV2.base (o ?x) => destruct (Ho x) as (-> & _) end. by apply IH.
Qed.

End options.

(** ** What [Listen] returns *)

Section listening.
Context `{X : Externals} `{Sel : Selector}.

(** A listener that is ready: its client is registered, over the second version exactly
    when that was enabled, and then has a session; a pool that was configured holds that
    session's connection and was started, or is empty when there is no session. *)
Definition listening (l : Listener) : Prop := ∃ c,
  client l = Some c ∧ Client.state (ClientV2.base c) = registered ∧
  ClientV2.IsV2 c = useV2 l ∧
  Forall Client.setting (clientOpts l) ∧
  (useV2 l = true → is_Some (ClientV2.Session c)) ∧
  ∀ p, l_pool l = Some p → pool_ok p ∧
    if useV2 l then ∃ m ses, connections (pool p) = [m] ∧ has_factory (pool p) = true ∧
                     ClientV2.Session c = Some ses ∧ MuxConn.Session (hp p) m = ses ∧
                     MuxConn.IsClosed (hp p) m = false
    else connections (pool p) = [].

(** A client that was just made over [h], to register with the second version or not. *)
Definition new_client (h : handle) (v2 : bool) (c : ClientV2.ClientV2) : Prop :=
  Client.conn (ClientV2.base c) = h ∧ Client.state (ClientV2.base c) = connected ∧
  Client.disableV2 (ClientV2.base c) = negb v2.

(** The goroutine of a pool that is used. *)
Definition monitors (v2 pooled : bool) : list event :=
  if v2 && pooled then [ev (CGo GMonitor) ()] else [].

(** The run of a [Listen] that returned [l]: one connection was dialed to the resolved
    address, one new client registered over it, with the version the options ask for,
    and the pool they ask for was started. *)
Definition listen_run (srv : string) (cs : list choice) (tr : list event) (l : Listener) : Prop :=
  listening l ∧ useV2 l = asks_v2 cs ∧ bool_decide (is_Some (l_pool l)) = asks_pool cs ∧
  pools_valid cs ∧ (credentials cs ≤ 1)%nat ∧
  ∃ k t h i c0 c trR,
    tr = ev (CResolve srv) (inr (addr l)) :: ev (CDial (addr l) k t) (inr h) :: ev CNewUUID i ::
           trR ++ monitors (asks_v2 cs) (asks_pool cs) ∧
    new_client h (asks_v2 cs) c0 ∧ traces (ClientV2.Register i c0) trR (c, Ok ()) ∧ client l = Some c.

(** The failures: no address; an invalid pool configuration, which panics before anything
    was dialed; no connection; credentials given twice, which panic when the client is
    made and leave the dialed connection open; or a registration that failed, after which
    the listener is cancelled and its connection closed. *)
Inductive listen_failed (srv : string) (cs : list choice) : list event → error → Prop :=
  | failed_resolve e :
      listen_failed srv cs [ev (CResolve srv) (inl e)]
        (Wrapf "failed to resolve address: %w" (IOErr e))
  | failed_pool a :
      ¬ pools_valid cs → listen_failed srv cs [ev (CResolve srv) (inr a)] RuntimePanic
  | failed_dial a k t e :
      pools_valid cs →
      listen_failed srv cs [ev (CResolve srv) (inr a); ev (CDial a k t) (inl e); ev CCancel ()]
        (Wrapf "failed to connect to dialler server: %w" (IOErr e))
  | failed_credentials a k t h :
      pools_valid cs → (1 < credentials cs)%nat →
      listen_failed srv cs [ev (CResolve srv) (inr a); ev (CDial a k t) (inr h)] RuntimePanic
  | failed_register a k t h i c0 trR c cl e :
      pools_valid cs → (credentials cs ≤ 1)%nat → new_client h (asks_v2 cs) c0 →
      traces (ClientV2.Register i c0) trR (c, Err e) →
      listen_failed srv cs
        (ev (CResolve srv) (inr a) :: ev (CDial a k t) (inr h) :: ev CNewUUID i :: trR ++
           [ev CCancel (); ev (CClose h) cl])
        (Wrapf "failed to register client: %w" e).

(** The registration of a new client. *)
Lemma Register_new c i :
  Client.state (ClientV2.base c) = connected →
  wpM (ClientV2.Register i) c (λ _ c' r, r = Ok () →
    Client.state (ClientV2.base c') = registered ∧
    ClientV2.IsV2 c' = negb (Client.disableV2 (ClientV2.base c)) ∧
    (ClientV2.IsV2 c' = true → is_Some (ClientV2.Session c'))).
Proof.
  intros Hs. eapply wpM_mono; [by apply ClientV2.Register_spec|].
  intros tr c' r (tr' & _ & H) ->. destruct (Client.disableV2 (ClientV2.base c)).
  - by destruct H as (tr'' & rx & tx & _ & _ & -> & _).
  - inversion H. subst. split; [done|]. split; [done|]. intros _. by eexists.
Qed.

(** The first connection of a pool that has none: there is room for it. *)
Lemma init_pool_spec c now l :
  (∀ p, l_pool l = Some p → pool_ok p ∧ connections (pool p) = []) →
  (ClientV2.IsV2 c = true → is_Some (ClientV2.Session c)) →
  wpM (init_pool c now) l (λ tr l' r,
    tr = monitors (ClientV2.IsV2 c) (bool_decide (is_Some (l_pool l))) ∧ r = Ok () ∧
    match l_pool l with
    | Some p => ∃ p', l' = set_l_pool p' l ∧ pool_ok p' ∧
        if ClientV2.IsV2 c then ∃ m ses, connections (pool p') = [m] ∧ has_factory (pool p') = true ∧
          ClientV2.Session c = Some ses ∧ MuxConn.Session (hp p') m = ses ∧
          MuxConn.IsClosed (hp p') m = false
        else connections (pool p') = []
    | None => l' = l
    end).
Proof.
  intros Hpool Hses. unfold init_pool, monitors. rewrite wpM_bind, wpM_get.
  destruct (l_pool l) as [p|] eqn:El; cbn [is_Some]; [|by rewrite wpM_ret, andb_false_r].
  rewrite bool_decide_true, andb_true_r by (by eexists).
  destruct (Hpool p eq_refl) as [Hp Hnil]. destruct (ClientV2.IsV2 c) eqn:Ev.
  2: { rewrite wpM_ret. split; [done|]. split; [done|]. exists p. split; [|done]. by destruct l; cbn in *; subst. }
  destruct (Hses eq_refl) as [ses Es]. rewrite Es. rewrite wpM_bind, wpM_on_local.
  unfold new_mux_conn, AddConnection. rewrite !wpM_bind, wpM_get.
  pose proof (NewMuxConn_heap ses now p Hp) as H.
  destruct (MuxConn.NewMuxConn ses None now (hp p)) as [m h] eqn:En. destruct H as [Hh Hm].
  rewrite wpM_bind, wpM_modify, wpM_ret, wpM_bind, wpM_get. cbn. rewrite Hnil. cbn.
  destruct (ok_config _ Hp) as [Hmax _]. rewrite decide_False by lia.
  rewrite wpM_modify, wpM_bind, wpM_on_local. wpM_use Start_spec. intros tr p' r (-> & -> & ->).
  rewrite wpM_modify. split; [done|]. split; [done|]. eexists. split; [done|]. split.
  - apply set_started_ok, set_connections_ok; [done|cbn; lia|]. by constructor.
  - exists m, ses. cbn. split; [done|]. split; [done|]. split; [done|].
    unfold MuxConn.Session, MuxConn.IsClosed, MuxConn.mux. injection En as <- <-. cbn.
    by rewrite lookup_total_insert_eq.
Qed.

(** The listener with the option [Listen] adds when the second version is not enabled. *)
Definition with_fallback (l : Listener) : Listener :=
  if useV2 l then l else add_clientOpt Client.WithDisableV2Fallback l.

Lemma with_fallback_useV2 l : useV2 (with_fallback l) = useV2 l.
Proof. unfold with_fallback. by destruct (useV2 l) eqn:E. Qed.

Lemma with_fallback_pool l : l_pool (with_fallback l) = l_pool l.
Proof. unfold with_fallback. by destruct (useV2 l). Qed.

Lemma with_fallback_client a h l c :
  configured a l →
  ClientV2.NewClientV2 h (clientOpts (with_fallback l)) (clientV2Opts (with_fallback l)) = Some c →
  new_client h (useV2 l) c ∧ Forall Client.setting (clientOpts (with_fallback l)).
Proof.
  intros [_ Ho Hv _] Hc.
  assert (Forall Client.setting (clientOpts (with_fallback l))) as Hset.
  { unfold with_fallback. destruct (useV2 l); [by apply user_pass_settings|]. apply Forall_app.
    split; [by apply user_pass_settings|].
    apply Forall_singleton, Client.WithDisableV2Fallback_setting. }
  assert (clientV2Opts (with_fallback l) = clientV2Opts l) as E by
    (unfold with_fallback; by destruct (useV2 l)).
  rewrite E in Hc. destruct (ClientV2.NewClientV2_new _ _ _ _ Hset Hv Hc) as (Hh & Hs & _).
  split; [|exact Hset]. split; [exact Hh|]. split; [exact Hs|].
  apply NewClientV2_disabled in Hc; [|done].
  unfold with_fallback in Hc. destruct (useV2 l); cbn in *; [by eapply user_pass_clients|].
  unfold Client.NewClient in Hc. rewrite fold_left_app in Hc. cbn in Hc.
  by apply bind_Some in Hc as (c1 & _ & [= <-]).
Qed.

(** The client is made exactly when credentials were given at most once. *)
Lemma with_fallback_made a h l :
  configured a l →
  match ClientV2.NewClientV2 h (clientOpts (with_fallback l)) (clientV2Opts (with_fallback l)) with
  | Some _ => (length (clientOpts l) ≤ 1)%nat
  | None => (1 < length (clientOpts l))%nat
  end.
Proof.
  intros Hl. pose proof (user_pass_clients_count h _ (cf_opts _ _ Hl)) as H.
  assert (is_Some (Client.NewClient h (clientOpts (with_fallback l))) ↔
          is_Some (Client.NewClient h (clientOpts l))) as E.
  { unfold with_fallback. destruct (useV2 l); [done|]. cbn. unfold Client.NewClient.
    rewrite fold_left_app. cbn. destruct (fold_left _ _ _); cbn; split; intros [? ?]; by try eexists. }
  unfold ClientV2.NewClientV2.
  destruct (Client.NewClient h (clientOpts (with_fallback l))) as [c|]; cbn;
    destruct (Client.NewClient h (clientOpts l)) as [c'|]; [by destruct H| | |done]; exfalso.
  - by destruct (proj1 E ltac:(by eexists)).
  - by destruct (proj2 E ltac:(by eexists)).
Qed.

(** The run of [connect], on a listener that was configured. *)
Definition connect_post l (tr : list event) (l' : Listener) (r : result ()) : Prop :=
  ∃ k t, let d := CDial (addr l) k t in
  match r with
  | Ok _ => listening l' ∧ addr l' = addr l ∧ useV2 l' = useV2 l ∧
      bool_decide (is_Some (l_pool l')) = bool_decide (is_Some (l_pool l)) ∧
      (length (clientOpts l) ≤ 1)%nat ∧
      ∃ h i c0 c trR,
        tr = ev d (inr h) :: ev CNewUUID i ::
               trR ++ monitors (useV2 l) (bool_decide (is_Some (l_pool l))) ∧
        new_client h (useV2 l) c0 ∧ traces (ClientV2.Register i c0) trR (c, Ok ()) ∧ client l' = Some c
  | Err e =>
      (∃ e', tr = [ev d (inl e'); ev CCancel ()] ∧
         e = Wrapf "failed to connect to dialler server: %w" (IOErr e')) ∨
      (∃ h, (1 < length (clientOpts l))%nat ∧ tr = [ev d (inr h)] ∧ e = RuntimePanic) ∨
      (∃ h i c0 c trR cl e', (length (clientOpts l) ≤ 1)%nat ∧
         tr = ev d (inr h) :: ev CNewUUID i :: trR ++ [ev CCancel (); ev (CClose h) cl] ∧
         new_client h (useV2 l) c0 ∧ traces (ClientV2.Register i c0) trR (c, Err e') ∧
         e = Wrapf "failed to register client: %w" e')
  end.

(** The end of [connect], once the client [c'] is registered. *)
Lemma connect_ready l c' now :
  (∀ p, l_pool l = Some p → pool_ok p ∧ connections (pool p) = []) →
  Forall Client.setting (clientOpts l) → Client.state (ClientV2.base c') = registered →
  ClientV2.IsV2 c' = useV2 l → (ClientV2.IsV2 c' = true → is_Some (ClientV2.Session c')) →
  wpM (init_pool c' now) (set_client c' l) (λ tr l' r,
    tr = monitors (useV2 l) (bool_decide (is_Some (l_pool l))) ∧ r = Ok () ∧ listening l' ∧
    addr l' = addr l ∧ useV2 l' = useV2 l ∧
    bool_decide (is_Some (l_pool l')) = bool_decide (is_Some (l_pool l)) ∧ client l' = Some c').
Proof.
  intros Hpool Hset Hst Hv2 Hses. eapply wpM_mono; [by apply init_pool_spec|].
  intros tr l' r (-> & -> & H). rewrite Hv2. split; [done|]. split; [done|]. cbn in H.
  destruct (l_pool l) as [p|] eqn:Ep.
  - destruct H as (p' & -> & Hok & Hp'). split; [|by repeat split]. exists c'. cbn. rewrite <-Hv2.
    repeat (split; [done|]). by intros ? [= <-].
  - subst l'. split; [|cbn; by rewrite Ep]. exists c'. cbn. rewrite <-Hv2, Ep.
    by repeat (split; [done|]).
Qed.

Lemma connect_spec a l now : configured a l → wpM (connect now) l (connect_post l).
Proof.
  intros Hl. assert (addr (with_fallback l) = addr l) as Ha by
    (unfold with_fallback; by destruct (useV2 l)).
  unfold connect, connect_post. rewrite wpM_bind, wpM_modify. fold (with_fallback l).
  rewrite wpM_bind, wpM_get, wpM_bind, wpM_lift. unfold dial. rewrite Ha. cbn [wp call_].
  generalize (dialer_keepAlive (dialer (with_fallback l))), (dialer_tls (dialer (with_fallback l))).
  intros k t [e|h].
  { rewrite wpM_bind, wpM_lift. cbn [wp call_]. intros []. rewrite wpM_throw. exists k, t. left. by exists e. }
  rewrite wpM_bind. unfold register_new. pose proof (with_fallback_made a h l Hl) as Hmade.
  destruct (ClientV2.NewClientV2 _ _ _) as [c|] eqn:Ec.
  2: { rewrite wpM_throw. exists k, t. right. left. by exists h. }
  destruct (with_fallback_client _ _ _ _ Hl Ec) as (Hnew & Hset). pose proof Hnew as (_ & Hs & Hd).
  rewrite wpM_bind, wpM_lift. cbn [wp call_]. intros i. rewrite wpM_on_local.
  apply wpM_traces. intros trR c' r Htr.
  pose proof (wpM_trace _ _ _ _ _ _ (Register_new c i Hs) Htr) as H.
  rewrite wpM_bind, wpM_modify. destruct r as [[]|e].
  - destruct (H eq_refl) as (Hst & Hv2 & Hses). clear H. rewrite Hd, negb_involutive in Hv2.
    eapply wpM_mono.
    { apply connect_ready; [|exact Hset|exact Hst|by rewrite with_fallback_useV2|exact Hses].
      rewrite with_fallback_pool. by destruct Hl. }
    rewrite with_fallback_useV2, with_fallback_pool, Ha.
    intros tr' l' r (-> & -> & H1 & H2 & H3 & H4 & H5). exists k, t. do 5 (split; [done|]).
    exists h, i, c, c', trR. by rewrite ?app_nil_r.
  - rewrite wpM_bind, wpM_lift. cbn [wp call_]. intros []. rewrite wpM_bind, wpM_lift.
    cbn [wp conn_Close call_]. intros cl. rewrite wpM_throw. exists k, t. right. right.
    exists h, i, c, c', trR, cl, e. by rewrite ?app_nil_r.
Qed.

Definition listen_post srv cs (tr : list event) (r : result Listener) : Prop :=
  match r with
  | Ok l => listen_run srv cs tr l
  | Err e => listen_failed srv cs tr e
  end.

Lemma Listen_run_spec srv cs opts now :
  Forall2 (λ c o, option_of c = Ok o) cs opts →
  wpM (Listen srv opts now) () (λ tr _ r, listen_post srv cs tr r).
Proof.
  intros Ho. unfold Listen. rewrite wpM_bind, wpM_world_call. cbn [wp call_].
  intros [e|a]; [constructor|]. cbn. pose proof (apply_opts_granted cs opts a Ho) as Hg.
  destruct (apply_opts opts (init_listener a)) as [l|] eqn:El.
  2: { rewrite wpM_throw. by constructor. }
  destruct Hg as [(Hv2 & Hpl & Hcr) Hval].
  pose proof (apply_opts_configured _ _ _ (options_of_package _ _ Ho) El) as Hl.
  rewrite wpM_bind, wpM_on_local. eapply wpM_mono; [by apply (connect_spec a)|].
  pose proof (cf_addr _ _ Hl) as <-. unfold connect_post. rewrite Hv2, Hpl, Hcr.
  intros tr l' [[]|e] (k & t & H).
  - rewrite wpM_ret, app_nil_r. destruct H as (H1 & H2 & H3 & H4 & H5 & h & i & c0 & c & trR & -> & H6).
    do 5 (split; [done|]). exists k, t, h, i, c0, c, trR. by rewrite H2.
  - rewrite wpM_throw, app_nil_r.
    destruct H as [(e' & -> & ->)|[(h & H1 & -> & ->)|(h & i & c0 & c & trR & cl & e' & H1 & -> & H2 & H3 & ->)]].
    + by apply failed_dial.
    + by apply failed_credentials.
    + by eapply failed_register.
Qed.

(** A listener that was returned is ready, whatever options of the package were used. *)
Lemma Listen_spec srv opts now :
  Forall option_of_package opts →
  wpM (Listen srv opts now) () (λ _ _ r, ∀ l, r = Ok l → listening l).
Proof.
  intros Ho. unfold Listen. rewrite wpM_bind, wpM_world_call. cbn [wp call_].
  intros [e|a]; [done|]. cbn. destruct (apply_opts opts (init_listener a)) as [l|] eqn:El;
    [|by rewrite wpM_throw].
  rewrite wpM_bind, wpM_on_local. eapply wpM_mono; [by eapply connect_spec, apply_opts_configured|].
  intros tr l' [[]|e] (k & t & H); [|by rewrite wpM_throw]. rewrite wpM_ret. intros l0 [= <-].
  by destruct H.
Qed.

(** C25: [Listen] with the options of the package, each made by a call of the application,
    either returns a listener that is ready, or fails for one of five reasons.  A ready
    listener has dialed once, to the resolved address, and its client registered over
    that connection; the second version is used exactly when the last of [WithEnableV2]
    and [WithDisableV2] asked for it (never without them, and without any fallback);
    there is a pool exactly when one was asked for, which over the second version holds
    the client's session and was started, and otherwise is empty.  The failures: no
    address; an invalid pool configuration, before anything is dialed; no connection;
    credentials given twice, a panic that leaves the dialed connection open; and a failed
    registration, after which the listener is cancelled and the connection closed. *)
Theorem Listen_outcome srv cs opts now tr r :
  Forall2 (λ c o, option_of c = Ok o) cs opts → traces (Listen srv opts now ()) tr ((), r) →
  listen_post srv cs tr r.
Proof. intros Ho Htr. exact (wpM_trace _ _ _ _ _ _ (Listen_run_spec srv cs opts now Ho) Htr). Qed.

End listening.

Definition demo_choices : list choice := [ChooseKeepAlive 30; ChooseTLS 5].

Lemma Listen_outcome_witness :
  Forall2 (λ c o, option_of (X := demo) c = Ok o) demo_choices demo_opts ∧
  listen_post "server:80" demo_choices demo_Listen.1.1 demo_Listen.1.2.2 ∧ is_Ok demo_Listen.1.2.2 = true.
Proof.
  assert (Forall2 (λ c o, option_of (X := demo) c = Ok o) demo_choices demo_opts) as Ho by repeat constructor.
  split; [exact Ho|]. split; [|by vm_compute].
  assert (traces (Listen (X := demo) "server:80" demo_opts 0 ()) demo_Listen.1.1 ((), demo_Listen.1.2.2)) as Htr.
  { destruct demo_Listen_Ok as (l & Hl & _). rewrite Hl. cbn [snd]. rewrite <-Hl. apply run_traces. }
  exact (Listen_outcome (X := demo) "server:80" demo_choices demo_opts 0 _ _ Ho Htr).
Defined.
