(* ===== verification/Upgrade.v ===== *)
(** * The upgrade of a connection: both sides together

    [ClientV2.Register] and [ServerV2.Process] run at the two ends of a connection up to
    the creation of the yamux session by each, then at the two ends of the stream the
    client opens on it.  Every pair of versions the two sides can speak is covered. *)
From S2P Require Import Prelude Static MuxConfig Commands Demo GoIO Wire.
From S2P Require Import Client.
From S2P Require Import Server.
From S2P Require Import Pair Handshake.
From S2P Require Import ServerV2.
From S2P Require ClientV2.

(** What yamux adds: when both sides create a session on the connection, nothing being in
    flight on it, and one side opens a stream the other accepts, the two run at the ends of
    that stream, whatever the names of sessions and streams are. *)
Definition over_yamux {A B} (hc hs : handle)
    (Q : session → session → handle → cfg A B → Prop) (f : cfg A B) : Prop :=
  ∃ ccfg scfg kc ks,
    f = Cfg (Call (CYamuxClient hc ccfg) kc) (Call (CYamuxServer hs scfg) ks) [] [] false false ∧
    ∀ yc ys, ∃ kc' ks',
      kc (inr yc) = Call (COpenStream yc) kc' ∧ ks (inr ys) = Call (CAcceptStream ys) ks' ∧
      ∀ tc ts, inevitable tc ts false (Q yc ys ts)
        (Cfg (kc' (inr tc)) (ks' (inr ts)) [] [] false false).

(** A list of twelve bytes, element by element. *)
Lemma mux_frame_bytes cfg : ∃ a b d e f g h i j k l m,
  mux_frame cfg = [a; b; d; e; f; g; h; i; j; k; l; m].
Proof.
  pose proof (mux_frame_length cfg) as H.
  destruct (mux_frame cfg) as [|a[|b[|d[|e[|f[|g[|h[|i[|j[|k[|l[|m[|n o]]]]]]]]]]]]]; try done.
  by exists a, b, d, e, f, g, h, i, j, k, l, m.
Qed.

Section upgrade.
Context `{X : Externals} {XOk : ExternalsOk X}.
Implicit Types (c : ClientV2.ClientV2) (s v : ServerV2) (i : uuid).

(** What [Process] does once the client is accepted, and the command has come. *)
Definition v2_rest : M ServerV2 () :=
  s ← get;
  msg ← via (or_close "failed to read command: %w" (readMsg (conn (base s))));
  if decide (msg = cmdMuxInit) then processV2AfterAuth
  else if decide (msg = cmdRegister) then via Server.handleRegister
  else if decide (msg = cmdBind) then via Server.handleBind
  else throw (Errorf "unsupported command: %d" [Z_of_byte msg]).

Lemma v2_Process_connected (v : ServerV2) :
  Server.state (base v) = StateConnected →
  let v1 := set_base (Server.set_state StateProcessing (base v)) v in
  Process v =
    (((Server.handleInit (base v1) ≫= λ '(s', r), Ret (s', Ok r))
       ≫= after (λ r, match r with
                      | Ok a => mret a
                      | Err e => s ← get; _ ← lift (conn_Close (conn s));
                                 throw (Wrapf "failed to handle init: %w" e)
                      end))
      ≫= λ '(s', r), Ret (set_base s' v1, r))
    ≫= after (λ _, v2_rest).
Proof.
  intros H v1. unfold Process. change ((get ≫= ?f) v) with (f v v). cbn beta.
  by rewrite decide_False by (rewrite H; tauto).
Qed.

(** What the client does once its method is accepted, over the second version. *)
Definition upgrade_rest i : M ClientV2.ClientV2 () :=
  c ← get;
  let cn := Client.conn (ClientV2.base c) in
  resp ← wrap "server does not support V2 or connection error: %w"
           (sendRequest cn (cmdMuxInit :: mux_frame (ClientV2.muxConfig c)));
  if decide (resp ≠ cmdMuxReady) then
    throw (Errorf "server does not support V2: response %d" [Z_of_byte resp])
  else
  _negotiated ← wrap "failed to read mux config: %w" (liftR (ReadFull cn 12));
  session ← world_call "failed to create yamux session: %w"
              (call_ (CYamuxClient cn (Mux.ToYamux yamux_DefaultConfig (ClientV2.muxConfig c))));
  modify (ClientV2.set_session session);;
  controlStream ← world_call "failed to open control stream: %w" (call_ (COpenStream session));
  regResp ← wrap "failed to send register: %w"
              (sendRequest controlStream (cmdRegister :: vec_to_list i));
  if decide (regResp ≠ resSuccess) then
    throw (Errorf "registration failed: %d" [Z_of_byte regResp])
  else
  ClientV2.upd (Client.set_state registered);;
  _ ← lift (call_ (CGo (GCommandLoop controlStream)));
  mret ().

(** The client while its registration is in progress. *)
Definition registering c : ClientV2.ClientV2 :=
  ClientV2.set_base (set_cancel (Client.set_state processing (ClientV2.base c))) c.

Lemma v2_Register_connected i c :
  Client.state (ClientV2.base c) = connected → disableV2 (ClientV2.base c) = false →
  ClientV2.Register i c = Call (CGo (GCloseOnDone (Client.conn (ClientV2.base c)))) (λ _,
    ((((establish (ClientV2.base (registering c))
         ≫= λ '(b, r), Ret (ClientV2.set_base b (registering c), r))
        ≫= λ '(s', r), Ret (s', wrap_err "failed to establish connection: %w" r))
       ≫= after (λ _, upgrade_rest i))
     ≫= λ '(s', r),
       Ret (s', wrap_err "V2 registration failed and fallback requires reconnection: %w" r))).
Proof.
  intros H Hd. unfold ClientV2.Register. change ((get ≫= ?f) c) with (f c c). cbn beta.
  rewrite decide_False by (rewrite H; tauto). by rewrite Hd.
Qed.

(** Both ends after the upgrade: registered on the stream, with the session. *)
Definition upgraded c s i (yc ys : session) (ts : handle)
    (f : cfg (ClientV2.ClientV2 * result ()) (ServerV2 * result ())) : Prop :=
  finished
    (ClientV2.set_base (Client.set_state registered (set_cancel (ClientV2.base c)))
       (ClientV2.set_session yc c), Ok ())
    (set_base (Server.set_conn ts (Server.set_state StateRegistered (Server.set_id i (base s))))
       (set_session ys s), Ok ()) f ∧ c_closed f = false ∧ s_closed f = false.

(** C16: A client and a server that both speak the second version and agree on
    authentication: whatever the scheduling, the client's parameters and the server's
    are exchanged and each side creates its yamux session when nothing is in flight on
    the connection any more; then, whatever the scheduling on the stream the client
    opens, both end registered with their sessions, the server under the client's
    identifier. A [Read] takes everything in flight, up to what it asks for. *)
Theorem upgrade_goes c s i :
  Client.state (ClientV2.base c) = connected → disableV2 (ClientV2.base c) = false →
  Server.state (base s) = StateConnected → agree (ClientV2.base c) (base s) →
  inevitable (Client.conn (ClientV2.base c)) (conn (base s)) false
    (over_yamux (Client.conn (ClientV2.base c)) (conn (base s)) (upgraded c s i))
    (Cfg (ClientV2.Register i c) (Process s) [] [] false false).
Proof.
  intros Hc Hd Hs Hag. rewrite v2_Register_connected, v2_Process_connected by done. cbn zeta.
  eapply inev_client; [apply local_go | wait_read |].
  set (s1 := set_base (Server.set_state StateProcessing (base s)) s). 
  par_established (ClientV2.base (registering c)) (base s1); [by apply agree_states|]. unfold upgrade_rest.
  destruct (mux_frame_bytes (ClientV2.muxConfig c)) as (x1&x2&x3&x4&x5&x6&x7&x8&x9&x10&x11&x12&Hx).
  destruct (mux_frame_bytes (muxConfig s)) as (y1&y2&y3&y4&y5&y6&y7&y8&y9&y10&y11&y12&Hy).
  par1. cbn [ClientV2.muxConfig registering ClientV2.set_base]. rewrite Hx. 
  do 3 par1.
  match goal with |- context [mux_frame ?m] =>
    change (mux_frame m) with (mux_frame (muxConfig s)) end.
  rewrite Hy. destruct (uuid_cons i) as (b & bs & Hi & Hl). rewrite Hi. repeat par_any.
  all: heads; apply inev_now; do 4 eexists; split; [reflexivity|]; intros yc ys;
    do 2 eexists; split; [reflexivity|]; split; [reflexivity|]; intros tc ts.
  all: do 2 par1; heads; (eapply inev_server; [by apply local_read | apply local_blocked |]);
    rewrite (take_ge bs), (drop_ge bs) by lia; heads; rewrite (uuid_read i b bs Hi).
  all: repeat par_any; heads; apply inev_now; by repeat split.
Qed.

Lemma v1_Register_connected i c :
  Client.state (ClientV2.base c) = connected → disableV2 (ClientV2.base c) = true →
  ClientV2.Register i c = Call (CGo (GCloseOnDone (Client.conn (ClientV2.base c)))) (λ _,
    (((establish (ClientV2.base (registering c)) ≫= λ '(c'', r), Ret (c'', Ok r))
        ≫= after (λ r, match r with
                       | Ok _ => mret ()
                       | Err e => _ ← lift (call_ CCancel);
                                  throw (Wrapf "failed to establish connection: %w" e)
                       end))
       ≫= λ '(b, r), Ret (ClientV2.set_base b (ClientV2.set_v1 (registering c)), r))
      ≫= after (λ _,
        ClientV2.via (or_cancel "failed to handle register: %w" (Client.handleRegister i));;
        ClientV2.upd (Client.set_state registered);;
        c ← get;
        _ ← lift (call_ (CGo (GCommandLoop (Client.conn (ClientV2.base c)))));
        mret ())).
Proof.
  intros H Hd. unfold ClientV2.Register. change ((get ≫= ?f) c) with (f c c). cbn beta.
  rewrite decide_False by (rewrite H; tauto). by rewrite Hd.
Qed.

(** A client that only speaks the first version and a server that speaks both register
    over the connection itself, without a session. *)
Lemma first_version_goes c s i :
  Client.state (ClientV2.base c) = connected → disableV2 (ClientV2.base c) = true →
  Server.state (base s) = StateConnected → agree (ClientV2.base c) (base s) →
  inevitable (Client.conn (ClientV2.base c)) (conn (base s)) false
    (λ f, finished
      (ClientV2.set_v1 (ClientV2.set_base
         (Client.set_state registered (set_cancel (ClientV2.base c))) c), Ok ())
      (set_base (Server.set_state StateRegistered (Server.set_id i (base s))) s, Ok ()) f ∧
      c_closed f = false ∧ s_closed f = false)
    (Cfg (ClientV2.Register i c) (Process s) [] [] false false).
Proof.
  intros Hc Hd Hs Hag. rewrite v1_Register_connected, v2_Process_connected by done. cbn zeta.
  eapply inev_client; [apply local_go | wait_read |].
  set (s1 := set_base (Server.set_state StateProcessing (base s)) s).
  par_established (ClientV2.base (registering c)) (base s1); [by apply agree_states|]. do 2 par1.
  match goal with |- inevitable _ _ _ _ (Cfg _ ?q _ _ _ _) =>
    change q with (Server.handleRegister (base s1) ≫= λ '(s', r), Ret (set_base s' s1, r)) end.
  apply (par_s_id _ _ _ (λ q, q ≫= _)); [by intros ??|wait_read|].
  cbn beta. repeat par_any; heads; apply inev_now; by repeat split.
Qed.

(** A client that speaks the second version and a server that only speaks the first. *)
Lemma first_version_server c (s : Server) i :
  Client.state (ClientV2.base c) = connected → disableV2 (ClientV2.base c) = false →
  Server.state s = StateConnected → agree (ClientV2.base c) s →
  inevitable (Client.conn (ClientV2.base c)) (conn s) false
    (λ f, ∃ e, finished
      (registering c, Err (Wrapf "V2 registration failed and fallback requires reconnection: %w"
         (Wrapf "server does not support V2 or connection error: %w" e)))
      (Server.set_state StateProcessing s, Err (Wrapf "failed to handle command: %w"
         (Errorf "unsupported command: %d" [Z_of_byte cmdMuxInit]))) f ∧ s_closed f = true)
    (Cfg (ClientV2.Register i c) (Server.Process s) [] [] false false).
Proof.
  intros Hc Hd Hs Hag. rewrite v2_Register_connected, Process_connected by done.
  eapply inev_client; [apply local_go | wait_read |].
  set (s1 := Server.set_state StateProcessing s).
  par_established (ClientV2.base (registering c)) s1; [by apply agree_states|]. unfold upgrade_rest. repeat par_any.
  heads. apply inev_now. eexists. by repeat split.
Qed.

(** C20: The two versions mixed, whatever the scheduling. A client that only speaks the
    first version registers with a server that speaks both: both end registered over the
    connection itself, without a session. A client that speaks the second does not wait
    for ever for a server that only speaks the first: the server refuses the command and
    closes the connection, and the client ends with an error, unregistered. A [Read]
    takes everything in flight, up to what it asks for. (The fallback that is documented
    for the client does not exist.) *)
Theorem mixed_versions c s i :
  Client.state (ClientV2.base c) = connected → Server.state (base s) = StateConnected →
  agree (ClientV2.base c) (base s) →
  if disableV2 (ClientV2.base c) then
    inevitable (Client.conn (ClientV2.base c)) (conn (base s)) false
      (λ f, finished
        (ClientV2.set_v1 (ClientV2.set_base
           (Client.set_state registered (set_cancel (ClientV2.base c))) c), Ok ())
        (set_base (Server.set_state StateRegistered (Server.set_id i (base s))) s, Ok ()) f ∧
        c_closed f = false ∧ s_closed f = false)
      (Cfg (ClientV2.Register i c) (Process s) [] [] false false)
  else
    inevitable (Client.conn (ClientV2.base c)) (conn (base s)) false
      (λ f, ∃ e, finished
        (registering c, Err (Wrapf "V2 registration failed and fallback requires reconnection: %w"
           (Wrapf "server does not support V2 or connection error: %w" e)))
        (Server.set_state StateProcessing (base s), Err (Wrapf "failed to handle command: %w"
           (Errorf "unsupported command: %d" [Z_of_byte cmdMuxInit]))) f ∧ s_closed f = true)
      (Cfg (ClientV2.Register i c) (Server.Process (base s)) [] [] false false).
Proof.
  intros. destruct (disableV2 (ClientV2.base c)) eqn:Hd;
    [by apply first_version_goes | by apply first_version_server].
Qed.

End upgrade.

(** ** Witnesses *)

Definition demo_base (b : bool) : Client :=
  mkClient 3%nat false (userpass_token "user" "secret") userPassAuth connected b.
Definition demo_cl (b : bool) : ClientV2.ClientV2 :=
  ClientV2.mkClientV2 (demo_base b) None Mux.DefaultConfig false.
Definition demo_sv : ServerV2 := NewServerV2 5%nat [WithUserPassAuth (Some demo_auth)] [].

Lemma demo_agree b : agree (demo_base b) (base demo_sv).
Proof. apply (agree_userpass _ _ demo_auth "user" "secret"); vm_compute; by repeat split; try lia. Qed.

Lemma upgrade_goes_witness :
  inevitable 3%nat 5%nat false
    (over_yamux 3%nat 5%nat (upgraded (demo_cl false) demo_sv demo_id))
    (Cfg (ClientV2.Register (X := demo) demo_id (demo_cl false)) (Process (X := demo) demo_sv)
       [] [] false false).
Proof.
  exact (upgrade_goes (X := demo) (demo_cl false) demo_sv demo_id eq_refl eq_refl eq_refl (demo_agree false)).
Defined.

Lemma mixed_versions_witness :
  inevitable 3%nat 5%nat false
    (λ f, finished
      (ClientV2.set_v1 (ClientV2.set_base
         (Client.set_state registered (set_cancel (demo_base true))) (demo_cl true)), Ok ())
      (set_base (Server.set_state StateRegistered (Server.set_id demo_id (base demo_sv))) demo_sv, Ok ()) f ∧
      c_closed f = false ∧ s_closed f = false)
    (Cfg (ClientV2.Register (X := demo) demo_id (demo_cl true)) (Process (X := demo) demo_sv)
       [] [] false false) ∧
  inevitable 3%nat 5%nat false
    (λ f, ∃ e, finished
      (registering (demo_cl false), Err (Wrapf "V2 registration failed and fallback requires reconnection: %w"
         (Wrapf "server does not support V2 or connection error: %w" e)))
      (Server.set_state StateProcessing (base demo_sv), Err (Wrapf "failed to handle command: %w"
         (Errorf "unsupported command: %d" [Z_of_byte cmdMuxInit]))) f ∧ s_closed f = true)
    (Cfg (ClientV2.Register (X := demo) demo_id (demo_cl false)) (Server.Process (X := demo) (base demo_sv))
       [] [] false false).
Proof.
  split.
  - exact (mixed_versions (X := demo) (demo_cl true) demo_sv demo_id eq_refl eq_refl (demo_agree true)).
  - exact (mixed_versions (X := demo) (demo_cl false) demo_sv demo_id eq_refl eq_refl (demo_agree false)).
Defined.
