(* ===== verification/Streams.v ===== *)
(** * Binding a stream: both sides together

    The listener's [bindStream] and the dialer's [handleV2Stream] run at the two ends of a
    yamux stream, under every schedule. *)
From S2P Require Import Prelude Static MuxConfig Commands Demo GoIO Wire.
From S2P Require Import Server.
From S2P Require Import Pair Handshake.
From S2P Require Import Dialer.
From S2P Require Listener.

Section streams.
Context `{X : Externals} {XOk : ExternalsOk X}.
Implicit Types (d : Dialer) (i : uuid).

(** Both ends when the binding is over, with their traces: the listener's without an error;
    the dialer's with the stream handed, last and open, to the request, which is no longer
    pending, or with the stream closed, last, when there was none. *)
Definition stream_bound (hs : handle) d i
    (f : cfg (list event * (() * result ())) (list event * (Dialer * result ()))) : Prop :=
  ∃ tl td, match requests d !! i with
  | Some ch =>
      finished (tl, ((), Ok ()))
        (td ++ [ev (CDeliver ch hs) true],
         (set_requests (delete i (requests d)) (next_ch d) d, Ok ())) f ∧
      s_closed f = false
  | None =>
      finished (tl, ((), Ok ())) (td ++ [ev (CClose hs) None], (d, Ok ())) f ∧ s_closed f = true
  end.

Lemma removeRequest_eq i d :
  removeRequest i d = match requests d !! i with
    | Some ch => Ret (set_requests (delete i (requests d)) (next_ch d) d, Ok (Some ch))
    | None => Ret (d, Ok None)
    end.
Proof. unfold removeRequest. change ((get ≫= ?f) d) with (f d d). cbn beta. by destruct (requests d !! i). Qed.

(** C12: Whatever the scheduling, the listener's request for a stream and the dialer's
    handler of it both finish: when the identifier is that of a pending request, the
    stream is handed to its channel, open, and the request is no longer pending. When it
    is not, the dialer closes the stream, but only after confirming it: the listener's
    side reports success all the same. A [Read] takes everything in flight, up to what
    it asks for. *)
Theorem bind_stream_goes hc hs d i :
  inevitable hc hs false (stream_bound hs d i)
    (Cfg (traced [] (Listener.bindStream hc i ())) (traced [] (handleV2Stream hs d)) [] [] false false).
Proof.
  destruct (uuid_cons i) as (b & bs & Hi & Hl). unfold Listener.bindStream. rewrite Hi.
  par1. cbn. par1. cbn.
  heads. eapply inev_server; [by apply local_read | apply local_blocked |]. cbn beta.
  rewrite (take_ge bs), (drop_ge bs) by lia.
  match goal with |- inevitable _ _ ?z ?Q (Cfg ?p (traced ?acc (io_bind _ _ (after ?f) _)) ?o ?i' ?cc ?sc) =>
    change (inevitable hc hs z Q
      (Cfg p (traced acc (f (Ok (fill 16 (rd_bytes 16 (RdData b bs)))) d)) o i' cc sc)) end.
  cbn beta iota. rewrite (uuid_read i b bs Hi).
  heads. eapply inev_server; [apply local_write | apply local_blocked |]. cbn beta.
  pose proof (removeRequest_eq i d) as Hr. unfold stream_bound.
  match goal with |- inevitable _ _ ?z ?Q (Cfg ?p (traced ?acc _) ?o ?i' ?cc ?sc) =>
    change (inevitable hc hs z Q (Cfg p (traced acc (removeRequest i d ≫= after (λ req,
      match req with
      | None => close_stream hs
      | Some ch => sent ← lift (call_ (CDeliver ch hs)); if sent : bool then mret () else close_stream hs
      end))) o i' cc sc)) end.
  rewrite Hr. destruct (requests d !! i) as [ch|].
  all: repeat par_any; heads.
  all: match goal with |- inevitable _ _ _ _ (Cfg (Ret (?tl, _)) (Ret (?td, _)) _ _ _ _) =>
         apply inev_now; exists tl, (removelast td) end.
  all: by repeat split.
Qed.

End streams.

(** A stream that nobody asked for is confirmed, then closed. *)
Lemma bind_stream_goes_witness :
  inevitable 3%nat 5%nat false
    (λ f, ∃ tl td, finished (tl, ((), Ok ())) (td ++ [ev (CClose 5%nat) None], (demo_dialer, Ok ())) f ∧
       s_closed f = true)
    (Cfg (traced [] (Listener.bindStream 3%nat demo_uuid ()))
       (traced [] (handleV2Stream (X := demo) 5%nat demo_dialer)) [] [] false false).
Proof. exact (bind_stream_goes (X := demo) 3%nat 5%nat demo_dialer demo_uuid). Defined.
