(* ===== verification/Dialing.v ===== *)
(** * A dial, end to end

    The three exchanges of a dial, each with the program of both sides under every
    schedule: the connect command on the listener's control connection, and the
    connection with which the listener answers it, from the dialer's accept to the hand
    over to the pending request.  (File Streams has the answer over a stream.) *)
From S2P Require Import Prelude Static MuxConfig Commands Demo GoIO Wire.
From S2P Require Import Client.
From S2P Require Import Server.
From S2P Require Import Pair Handshake.
From S2P Require ServerV2.
From S2P Require Import Upgrade.
From S2P Require Import ConnManager.
From S2P Require Import Dialer.
From S2P Require Import Streams.
From S2P Require Listener.

(** The commands a run put on the client's channel. *)
Definition offered_of (e : event) : list Command :=
  match e with
  | existT c r =>
      match c as c return answer c → list Command with
      | CSelectSend cmd => λ r, if r : bool then [cmd] else []
      | _ => λ _, []
      end r
  end.
Definition offered (tr : list event) : list Command := tr ≫= offered_of.

(** A call that touches neither connection can be delayed: whatever is inevitable after
    it, of a run in which the other side has finished, is inevitable before it. *)
Lemma inev_go_server {A B} hc hs cut (Q : cfg A B → Prop) g k p o i cc sc :
  (∀ f, Q f → ∃ a, cl f = Ret a) →
  inevitable hc hs cut Q (Cfg p (k ()) o i cc sc) →
  inevitable hc hs cut Q (Cfg p (Call (CGo g) k) o i cc sc).
Proof.
  intros HQ. remember (Cfg p (k ()) o i cc sc) as f eqn:Ef. intros H. revert p o i cc sc Ef.
  induction H as [f Hf|f Hs Hn IH]; intros p o i cc sc ->.
  - apply inev_step; [eexists; by exists ServerSide, None|]. intros f' (who & size & _ & Hf').
    destruct (HQ _ Hf) as [a Ha]. cbn in Ha. subst p. destruct who; cbn in Hf'; [done|].
    injection Hf' as <-. rewrite app_nil_r, orb_false_r. by apply inev_now.
  - apply inev_step; [eexists; by exists ServerSide, None|]. intros f' (who & size & Hz & Hf').
    destruct who; cbn in Hf'.
    + destruct (local hc size p i sc) as [[[[p' i'] out] closes]|] eqn:E; [|done]. cbn in Hf'.
      injection Hf' as <-. refine (IH (Cfg p' (k ()) (o ++ out) i' (cc || closes) sc) _ _ _ _ _ _ eq_refl).
      exists ClientSide, size. split; [done|]. cbn. by rewrite E.
    + injection Hf' as <-. rewrite app_nil_r, orb_false_r. by apply inev_step.
Qed.

Section dialing.
Context `{X : Externals} {XOk : ExternalsOk X}.
Implicit Types (d : Dialer) (i : uuid).

(** ** The connect command *)

(** Whatever the scheduling, a connect command to a registered listener and the
    listener's handler of it both finish without an error: the listener's channel of
    commands has received exactly the command for the identifier that was sent. *)
Lemma connect_goes c s i :
  Server.state s = StateRegistered →
  inevitable (Client.conn c) (conn s) false
    (λ f, ∃ tc ts, finished (tc, (c, Ok ())) (ts, (s, Ok ())) f ∧ offered tc = [ConnectCommand i])
    (Cfg (traced [] (Client.handleCommand c)) (traced [] (Server.SendConnectCommand i s))
       [] [] false false).
Proof.
  intros Hs. destruct (uuid_cons i) as (b & bs & Hi & Hl).
  unfold Server.SendConnectCommand, Client.handleCommand. rewrite Hi.
  change ((get ≫= ?f) s) with (f s s). cbn beta. rewrite decide_False by (rewrite Hs; tauto).
  par1. par1. cbn.
  heads. eapply inev_client; [by apply local_read | apply local_blocked |]. cbn beta.
  rewrite (take_ge bs), (drop_ge bs) by lia. cbn beta.
  match goal with |- inevitable ?hc ?hs ?z ?Q (Cfg (traced ?acc (io_bind _ _ (after ?f) _)) ?q ?o ?i ?cc ?sc) =>
    change (inevitable hc hs z Q
      (Cfg (traced acc (f (fill 16 (rd_bytes 16 (RdData b bs))) c)) q o i cc sc)) end.
  cbn beta. rewrite (uuid_read i b bs Hi). 
  repeat par_any; heads; apply inev_now; do 2 eexists; by repeat split.
Qed.

(** ** The connection that answers *)

(** The new server of an incoming connection, its pointer, and the dialer that has it. *)
Definition incoming_server (h : handle) d : ServerV2.ServerV2 :=
  ServerV2.NewServerV2 h (serverOpts d) [].
Definition incoming_ptr d : nat := fresh (dom (servers d)).
Definition with_server (v : ServerV2.ServerV2) d : Dialer :=
  set_cm (cm d, <[incoming_ptr d := v]> (servers d)) d.

(** What [handleConnection] does with the outcome of [Process]. *)
Definition settle (h : handle) (c : nat) (r : result ()) : M Dialer () :=
  d ← get;
  match r with
   | Err _ => mret ()
   | Ok _ =>
       match State_ (servers d) c with
       | StateRegistered =>
           _ ← lift (call_ CCloseDone);
           if ServerV2.IsV2 (servers d !!! c) then handleV2RegisteredConnection c
           else handleV1RegisteredConnection c
       | StateBound =>
           req ← removeRequest (ID (servers d) c);
           match req with
           | None => mret ()
           | Some ch =>
               sent ← lift (call_ (CDeliver ch h));
               if sent : bool then _ ← lift (call_ CCloseDone); mret () else mret ()
           end
       | _ => mret ()
       end
   end.

Definition after_process (h : handle) (c : nat) (r : result ()) : M Dialer () :=
  settle h c r;; _ ← lift (call_ CCancel); mret ().

Lemma handleConnection_process h d :
  handleConnection h d = Call (CGo (GCloseOnDone h)) (λ _,
    (((ServerV2.Process (incoming_server h d)
        ≫= λ '(v, r), Ret (<[incoming_ptr d := v]> (servers (with_server (incoming_server h d) d)), r))
       ≫= λ '(s, r), Ret (set_cm (cm d, s) (with_server (incoming_server h d) d), r))
      ≫= λ '(d', r), Ret (d', Ok r))
     ≫= after (after_process h (incoming_ptr d))).
Proof.
  assert (∀ v, servers (with_server (incoming_server h d) d) !!! incoming_ptr d = v →
    handleConnection h d = Call (CGo (GCloseOnDone h)) (λ _,
      (((ServerV2.Process v
          ≫= λ '(v, r), Ret (<[incoming_ptr d := v]> (servers (with_server (incoming_server h d) d)), r))
         ≫= λ '(s, r), Ret (set_cm (cm d, s) (with_server (incoming_server h d) d), r))
        ≫= λ '(d', r), Ret (d', Ok r))
       ≫= after (after_process h (incoming_ptr d)))) as H by (by intros v <-).
  apply H, lookup_total_insert_eq.
Qed.

(** A bound connection whose request is pending. *)
Lemma after_process_bound h c ch (v : ServerV2.ServerV2) d :
  servers d !!! c = v → Server.state (ServerV2.base v) = StateBound →
  requests d !! Server.id (ServerV2.base v) = Some ch →
  let d' := set_requests (delete (Server.id (ServerV2.base v)) (requests d)) (next_ch d) d in
  ∃ k, after_process h c (Ok ()) d = Call (CDeliver ch h) k ∧
    k true = Call CCloseDone (λ _, Call CCancel (λ _, Ret (d', Ok ()))).
Proof.
  intros Hv Hs Hr d'. unfold after_process.
  match goal with |- context [(settle h c ?r;; ?k) d] =>
    change ((settle h c r;; k) d) with (settle h c r d ≫= after (λ _, k)) end.
  unfold settle. change ((get ≫= ?f) d) with (f d d). cbn beta iota.
  assert (State_ (servers d) c = StateBound) as -> by (cbn; unfold server_at; by rewrite Hv).
  assert (ID (servers d) c = Server.id (ServerV2.base v)) as -> by (cbn; unfold server_at; by rewrite Hv).
  change ((removeRequest ?i ≫= ?f) d) with ((removeRequest i d) ≫= after f).
  rewrite removeRequest_eq, Hr. eexists. split; reflexivity.
Qed.

(** The listener's connection is bound, the request it names is no longer pending, and
    neither end is closed. *)
Definition answered (l : Listener.Listener) d hc i (a : Listener.Listener * result Listener.accepted)
    (b : Dialer * result ()) (c_closed s_closed : bool) : Prop :=
  a = (l, Ok (Listener.Raw hc)) ∧ b.2 = Ok () ∧ requests b.1 = delete i (requests d) ∧
  c_closed = false ∧ s_closed = false.

(** What [acceptV1Connection] does once the dial has succeeded. *)
Definition after_dial i (h : handle) : M Listener.Listener Listener.accepted :=
  l ← get;
  match Client.NewClient h (Listener.clientOpts l) with
  | None => throw RuntimePanic
  | Some c =>
      '(_, r) ← on_local c (Client.Bind i);
      match r with
      | Err e =>
          _ ← lift (conn_Close h);
          throw (Wrapf "failed to bind connection: %w" e)
      | Ok _ => mret (Listener.Raw h)
      end
  end.

Lemma acceptV1_dial i l : ∃ k,
  Listener.acceptV1Connection i l = Call (CDial (Listener.addr l)
    (Listener.dialer_keepAlive (Listener.dialer l)) (Listener.dialer_tls (Listener.dialer l))) k ∧
  ∀ h, k (inr h) = after_dial i h l.
Proof. eexists. split; reflexivity. Qed.

Lemma accept_handles l d hc hs i ch c :
  Client.NewClient hc (Listener.clientOpts l) = Some c →
  Forall Client.setting (Listener.clientOpts l) → Forall Server.setting (serverOpts d) →
  agree c (NewServer hs (serverOpts d)) → requests d !! i = Some ch →
  inevitable hc hs false
    (λ f, ∃ a b, finished a b f ∧ answered l d hc i a b (c_closed f) (s_closed f))
    (Cfg (after_dial i hc l) (handleConnection hs d) [] [] false false).
Proof.
  intros Hc Hco Hso Hag Hch. unfold after_dial. change ((get ≫= ?f) l) with (f l l).
  cbn beta. rewrite Hc.
  destruct (Client.NewClient_new _ _ _ Hco Hc) as (Hh & Hst & _).
  destruct (NewServer_new hs _ Hso) as [Hsh Hss]. 
  rewrite handleConnection_process, v2_Process_connected by done. cbn zeta.
  apply inev_go_server; [by intros f (a & b & [-> _] & _); eauto|].
  match goal with |- context [(on_local c ?m ≫= ?f) l] =>
    change ((on_local c m ≫= f) l) with ((m c ≫= λ tr, Ret (l, Ok tr)) ≫= after f) end.
  rewrite Bind_connected by done.
  set (v := incoming_server hs d). set (s1 := set_state StateProcessing (ServerV2.base v)).
  change (ServerV2.base (ServerV2.set_base s1 v)) with s1.
  assert (conn s1 = hs) as Hs1 by exact Hsh.
  assert (agree (set_cancel (Client.set_state processing c)) s1) as Hag1 by by apply agree_states.
  assert (Server.state s1 = StateProcessing) as Hst1 by done.
  clearbody s1. subst hs hc.
  match goal with |- inevitable _ _ _ _ (Cfg ?p _ _ _ _ _) =>
    let p' := eval hnf in p in change p with p' end.
  eapply inev_client; [apply local_go | wait_read |]. cbn zeta.
  set (c1 := set_cancel (Client.set_state processing c)) in *.
  par_established c1 s1; [done|]. do 2 par1.
  match goal with |- inevitable _ _ _ _ (Cfg _ ?q _ _ _ _) =>
    change q with (((((Server.handleBind s1
         ≫= λ '(s', r), Ret (ServerV2.set_base s' v, r))
        ≫= λ '(v', r), Ret (<[incoming_ptr d := v']> (servers (with_server v d)), r))
       ≫= λ '(s, r), Ret (set_cm (cm d, s) (with_server v d), r))
      ≫= λ '(d', r), Ret (d', Ok r))
     ≫= after (after_process (conn s1) (incoming_ptr d))) end.
  apply (par_s_id _ _ _ (λ q, (((((q ≫= _) ≫= _) ≫= _) ≫= _) ≫= after _)));
    [by intros ??|wait_read|].
  cbn beta. par1. set (s2 := Server.set_state StateBound (Server.set_id i s1)).
  set (d2 := set_cm (cm d, <[incoming_ptr d := ServerV2.set_base s2 v]> (servers (with_server v d)))
               (with_server v d)).
  match goal with |- inevitable ?hc ?hs ?z ?Q (Cfg ?p ?q ?o ?i ?cc ?sc) =>
    assert (q = after_process (conn s1) (incoming_ptr d) (Ok ()) d2) as Hq end.
  { destruct s1. cbn in Hst1. subst. reflexivity. }
  rewrite Hq. clear Hq.
  destruct (after_process_bound (conn s1) (incoming_ptr d) ch (ServerV2.set_base s2 v) d2)
    as (k & Hk & Hk'); [apply lookup_total_insert_eq|done|done|]. rewrite Hk.
  repeat (par_any; rewrite ?Hk'). all: heads; apply inev_now; do 2 eexists; by repeat split.
Qed.

(** C10: The connection with which a listener answers a connect command, from the end of
    its dial, and the dialer's handler of it: when the two agree on authentication and
    the identifier is that of a pending request, then whatever the scheduling both
    finish; [Accept]'s caller gets the connection, the dialer handed its end to the
    channel of that request, which is no longer pending, and told the watcher to spare
    it before ending the watcher; both ends are open. A [Read] takes everything in
    flight, up to what it asks for. *)
Theorem answer_goes l d hc hs i ch c :
  Client.NewClient hc (Listener.clientOpts l) = Some c →
  Forall Client.setting (Listener.clientOpts l) → Forall Server.setting (serverOpts d) →
  agree c (NewServer hs (serverOpts d)) → requests d !! i = Some ch →
  ∃ k, Listener.acceptV1Connection i l = Call (CDial (Listener.addr l)
         (Listener.dialer_keepAlive (Listener.dialer l)) (Listener.dialer_tls (Listener.dialer l))) k ∧
  inevitable hc hs false
    (λ f, ∃ tl td d' tr, finished (tl, (l, Ok (Listener.Raw hc))) (td, (d', Ok ())) f ∧
       requests d' = delete i (requests d) ∧ c_closed f = false ∧ s_closed f = false ∧
       td = tr ++ [ev (CDeliver ch hs) true; ev CCloseDone (); ev CCancel ()])
    (Cfg (traced [] (k (inr hc))) (traced [] (handleConnection hs d)) [] [] false false).
Proof.
  intros Hc Hco Hso Hag Hch. destruct (acceptV1_dial i l) as (k & Hk & Hr). exists k.
  split; [exact Hk|]. rewrite Hr.
  eapply inev_mono; [|apply inev_traced, (accept_handles l d hc hs i ch c); done].
  intros f (tl & td & a & [d' rd] & Hf & (-> & Hok & Hreq & Hcc & Hsc) & _ & Htr & _ & Hp & _). cbn in Hok, Hreq.
  subst rd. apply (wpM_trace _ _ _ _ _ _ (handleConnection_spec hs d)) in Htr as (_ & tr0 & -> & Hin).
  assert (∀ j, requests d' = delete j (requests d) → j = i) as Hj.
  { intros j Hj. destruct (decide (j = i)) as [|Hne]; [done|]. exfalso.
    pose proof (lookup_delete_ne (requests d) j i Hne) as H. rewrite <-Hj, Hreq, Hch in H.
    by rewrite lookup_delete_eq in H. }
  assert (requests d' ≠ requests d) as Hne.
  { rewrite Hreq. intros H. rewrite <-H, lookup_delete_eq in Hch. done. }
  destruct Hin as [trP v x trA d' _ _ _ H _|trP v ch' d' _ _ Hch' H|trP v ch' d' _ _ Hch' H|trP v r d' _ _ H].
  - by destruct Hne.
  - apply Hj in H. rewrite H, Hch in Hch'. injection Hch' as <-.
    eexists _, _, d', (_ :: trP). split; [exact Hf|]. do 3 (split; [done|]).
    rewrite <-!app_assoc. reflexivity.
  - exfalso. rewrite !Forall_cons, !Forall_app, Forall_singleton in Hp. naive_solver.
  - by destruct Hne.
Qed.

End dialing.

(** ** Witnesses *)

Lemma connect_goes_witness :
  let c := Client.mkClient 3%nat true [] noAuth Static.registered false in
  let s := Server.set_state StateRegistered (NewServer 5%nat [WithNoAuth]) in
  inevitable 3%nat 5%nat false
    (λ f, ∃ tc ts, finished (tc, (c, Ok ())) (ts, (s, Ok ())) f ∧ offered tc = [ConnectCommand demo_uuid])
    (Cfg (traced [] (Client.handleCommand (X := demo) c))
       (traced [] (Server.SendConnectCommand demo_uuid s)) [] [] false false).
Proof.
  intros c s. exact (connect_goes (X := demo) c s demo_uuid eq_refl).
Defined.

(** A dialer with one pending request, and a listener, that agree on a user. *)
Definition demo_pending : Dialer :=
  set_requests {[demo_uuid := 0%nat]} 1
    (NewDialer "127.0.0.1:0" [Dialer.WithUserPassAuth (Some demo_auth)]).

Definition demo_user : ClientOption :=
  match Client.WithUserPass "user" "secret" with Ok o => o | Err _ => Some end.

Definition demo_answering : Listener.Listener :=
  Listener.add_clientOpt demo_user (Listener.init_listener "127.0.0.1:1").

Lemma answer_goes_witness : ∃ k,
  Listener.acceptV1Connection demo_uuid demo_answering = Call (CDial "127.0.0.1:1" 0 None) k ∧
  inevitable 3%nat 5%nat false
    (λ f, ∃ tl td d' tr,
       finished (tl, (demo_answering, Ok (Listener.Raw 3%nat))) (td, (d', Ok ())) f ∧
       requests d' = delete demo_uuid (requests demo_pending) ∧
       c_closed f = false ∧ s_closed f = false ∧
       td = tr ++ [ev (CDeliver 0%nat 5%nat) true; ev CCloseDone (); ev CCancel ()])
    (Cfg (traced [] (k (inr 3%nat))) (traced [] (handleConnection (X := demo) 5%nat demo_pending))
       [] [] false false).
Proof.
  assert (Forall Client.setting (Listener.clientOpts demo_answering)) as Hco.
  { constructor; [|constructor]. by apply (Client.WithUserPass_setting "user" "secret"). }
  assert (Forall Server.setting (serverOpts demo_pending)) as Hso
    by (constructor; [apply WithUserPassAuth_setting|constructor]).
  assert (agree (mkClient 3%nat false (userpass_token "user" "secret") userPassAuth connected false)
            (NewServer 5%nat (serverOpts demo_pending))) as Hag.
  { apply (agree_userpass _ _ demo_auth "user" "secret"); vm_compute; by repeat split; try lia. }
  exact (answer_goes (X := demo) demo_answering demo_pending 3%nat 5%nat demo_uuid 0%nat _
           eq_refl Hco Hso Hag (lookup_singleton_eq _ _)).
Defined.
