(* ===== verification/Sending.v ===== *)
(** * An event and a connect command, end to end

    What the dialer sends over a control connection and the client's handler of it, as the
    two ends of the connection, under every schedule and every way of cutting the bytes; an
    event from [Dialer.SendEvent] to the handler [Accept] calls. *)
From S2P Require Import Prelude Static MuxConfig JsonString Json Commands Event Demo GoIO Wire.
From S2P Require Import Client.
From S2P Require Import Server.
From S2P Require Import Pair Handshake Fragments Delivery.
From S2P Require ServerV2.
From S2P Require Import ConnManager.
From S2P Require Import Dialer Dialing.
From S2P Require Selector Listener.

Section client_rules.
Context {A B : Type} (Q : cfg A B → Prop) (hc hs : handle).

Lemma cut_c_ReadFull {S} (q : io B) (K : io (S * result (list byte)) → io A) s n d rest o :
  ctx K → waits hs q o → length d = n →
  inevitable hc hs true Q (Cfg (K (Ret (s, Ok d))) q o rest false false) →
  inevitable hc hs true Q (Cfg (K (liftR (ReadFull hc n) s)) q o (d ++ rest) false false).
Proof.
  intros HK Hp Hd H. apply inev_swap. apply cut_s_ReadFull; [done..|].
  apply inev_swap. eapply inev_mono; [|exact H]. by intros [].
Qed.

Lemma cut_s_sendRequest {S} (p : io A) (K : io (S * result byte) → io B) s req :
  ctx K → waits hc p [] →
  inevitable hc hs true Q (Cfg p (K (readMsg hs s)) [] (versionV1 :: req) false false) →
  inevitable hc hs true Q (Cfg p (K (sendRequest hs req s)) [] [] false false).
Proof.
  intros HK Hp H. apply inev_swap. apply cut_c_sendRequest; [done..|].
  apply inev_swap. eapply inev_mono; [|exact H]. by intros [].
Qed.

Lemma cut_c_select (q : io B) (k : bool → io A) cmd o i :
  waits hs q o →
  inevitable hc hs true Q (Cfg (k true) q o i false false) →
  inevitable hc hs true Q (Cfg (Call (CSelectSend cmd) k) q o i false false).
Proof.
  intros Hq H. apply cut_client; [done|]. intros size. do 4 eexists. split; [reflexivity|].
  by rewrite app_nil_r.
Qed.

Lemma cut_c_reply (q : io B) (k : option io_error → io A) bs i :
  waits hs q [] →
  inevitable hc hs true Q (Cfg (k None) q bs i false false) →
  inevitable hc hs true Q (Cfg (Call (CWrite hc bs) k) q [] i false false).
Proof.
  intros Hq H. apply cut_client; [done|]. intros size. do 4 eexists. split; [|exact H].
  cbn. by rewrite decide_True.
Qed.

(** A single [Read] gets any part of what is in flight. *)
Lemma cut_c_read {S} (q : io B) (K : io (S * result (list byte)) → io A) s n d o :
  ctx K → waits hs q o → length d = n → d ≠ [] →
  (∀ k, (0 < k ≤ n)%nat → inevitable hc hs true Q
     (Cfg (K (Ret (s, Ok (fill n (take k d))))) q o (drop k d) false false)) →
  inevitable hc hs true Q (Cfg (K (liftR (conn_Read hc n) s)) q o d false false).
Proof.
  intros HK Hq <- Hd H. destruct d as [|b d]; [done|]. apply cut_client; [done|]. intros size.
  destruct (cut_size_pos (Datatypes.S (length d)) size) as [Hm1 Hm2]; [lia|].
  remember (cut_size (Datatypes.S (length d)) size) as m eqn:Em. specialize (H m).
  do 4 eexists. split.
  { let p := eval hnf in (liftR (conn_Read hc (length (b :: d))) s) in
    change (liftR (conn_Read hc (length (b :: d))) s) with p. rewrite HK. by apply local_read_cut. }
  cbn zeta. rewrite app_nil_r. change (length (b :: d)) with (Datatypes.S (length d)). rewrite <-Em.
  destruct m as [|m]; [lia|]. replace (Datatypes.S m - 1)%nat with m by lia. cbn [length] in *.
  pose proof (cut_split m d [] b) as Hs. rewrite !app_nil_r in Hs. destruct Hs as [Hs _]; [lia|].
  specialize (H ltac:(lia)). cbn [take drop] in H. rewrite <-Hs in H. exact H.
Qed.

End client_rules.

(** The client's program, named. *)
Ltac client_is p :=
  lazymatch goal with
  | |- inevitable ?hc ?hs ?z ?Q (Cfg _ ?q ?o ?i ?cc ?sc) =>
      change (inevitable hc hs z Q (Cfg p q o i cc sc))
  end.

(** The client's program, at its next call. *)
Ltac client_hnf :=
  lazymatch goal with
  | |- inevitable ?hc ?hs ?z ?Q (Cfg ?p ?q ?o ?i ?cc ?sc) =>
      let p' := eval hnf in p in change (inevitable hc hs z Q (Cfg p' q o i cc sc))
  end.

Section sending.
Context `{X : Externals} {XOk : ExternalsOk X}.
Implicit Types (c : Client) (s : Server).

(** What [SendCustomEvent] is once its event is encoded. *)
Lemma SendCustomEvent_eq name data env s :
  Server.state s = StateRegistered → event_bytes name data = Some env →
  SendCustomEvent name data s =
    (sendRequest (Server.conn s) (event_frame env) s
       ≫= λ '(s', r), Ret (s', wrap_err "failed to send custom event: %w" r))
    ≫= after (λ resp,
      if decide (resp ≠ resSuccess) then
        throw (Errorf "failed to emit custom event: %d" [Z_of_byte resp])
      else mret ()).
Proof.
  intros Hs. unfold event_bytes, SendCustomEvent.
  change ((get ≫= ?f) s) with (f s s). cbn beta. rewrite decide_False by (rewrite Hs; tauto).
  destruct (NewCustomEventCommand name data) as [e|e]; [|done].
  destruct (Marshal_event e) as [d|e'] eqn:Ed; [|done]. case_decide; [|done].
  intros [= ->].
  change ((wrap ?m (liftR (mret (Ok e))) ≫= ?f) s) with (f e s). cbn beta. rewrite Ed.
  change ((wrap ?m (liftR (mret (Ok env))) ≫= ?f) s) with (f env s). cbn beta.
  rewrite decide_False by lia. done.
Qed.

(** The handler from the decoded event on. *)
Definition deliver_event (ev : CustomEventCommand) : M Client () :=
  delivered ← lift (call_ (CSelectSend (CustomEvent ev)));
  if delivered : bool then reply "failed to write custom event response: %w" else mret ().

(** Both sides finish, the server's inside whatever runs it. *)
Lemma both_finish {T} (K : io (Server * result ()) → io T) c s name data env ev y :
  ctx K → K (Ret (s, Ok ())) = Ret y →
  Server.state s = StateRegistered → event_bytes name data = Some env →
  Z.of_nat (length env) <= maxDataLen → Unmarshal_event env = Ok ev →
  inevitable (Client.conn c) (Server.conn s) true
    (λ f, ∃ a b, finished a b f ∧ a = (c, Ok ()) ∧ b = y)
    (Cfg (Client.handleCommand c) (K (SendCustomEvent name data s)) [] [] false false).
Proof.
  intros HK Hy Hs He Hlen Hdec. rewrite (SendCustomEvent_eq _ _ _ _ Hs He).
  apply (cut_s_sendRequest _ _ _ _ (λ q, K ((q ≫= _) ≫= after _))); [solve_ctx|waits_hnf|].
  cbn beta. set (wait := K _).
  assert (waits (Server.conn s) wait []) as Hw
    by (apply (readMsg_waits _ (λ q, K ((q ≫= _) ≫= after _))); solve_ctx).
  unfold event_frame. set (len := put_be 2 (Z.of_nat (length env))).
  assert (Z.to_nat (get_be len) = length env) as Hl.
  { unfold len. rewrite get_put_be_small by (unfold maxDataLen in Hlen; lia). lia. }
  apply (cut_c_readMsg _ _ _ _ (λ q, (q ≫= _) ≫= after _)); [by intros ??|exact Hw|].
  client_is (handleCustomEvent c).
  apply (cut_c_ReadFull _ _ _ _ (λ q, (q ≫= _) ≫= after _)); [by intros ??|exact Hw|apply length_put_be|].
  cbn beta. client_is ((wrap "failed to read custom event: %w"
      (liftR (ReadFull (Client.conn c) (Z.to_nat (get_be len)))) ≫= λ d : list byte,
      ev ← wrap "failed to read custom event: %w" (liftR (mret (Unmarshal_event d)));
      deliver_event ev) c).
  rewrite Hl. rewrite <-(app_nil_r env) at 2.
  apply (cut_c_ReadFull _ _ _ _ (λ q, (q ≫= _) ≫= after _)); [by intros ??|exact Hw|done|].
  client_is ((wrap "failed to read custom event: %w" (liftR (mret (Unmarshal_event env)))
      ≫= deliver_event) c).
  rewrite Hdec. client_is (deliver_event ev c). client_hnf.
  apply cut_c_select; [exact Hw|]. client_hnf. apply cut_c_write; [exact Hw|].
  apply (cut_s_readMsg _ _ _ _ (λ q, K ((q ≫= _) ≫= after _)) s resSuccess []);
    [solve_ctx|waits_hnf|].
  apply inev_now. exists (c, Ok ()), y. split; [split; [done|exact Hy]|done].
Qed.

(** ** What the client offered, by its trace and the bytes it received *)

Lemma offered_traffic h tr rx tx : traffic h tr rx tx → offered tr = [].
Proof.
  intros [H _]. unfold offered, calls in *. induction tr as [|[cl r] tr IH]; [done|].
  apply Forall_cons in H as [Hc H]. cbn in Hc |- *. rewrite IH by done. by destruct cl.
Qed.

Lemma offered_app tr1 tr2 : offered (tr1 ++ tr2) = offered tr1 ++ offered tr2.
Proof. apply bind_app. Qed.

Lemma frame_of_event cmd rx env rest :
  frame cmd rx → rx ++ rest = versionV1 :: event_frame env →
  Z.of_nat (length env) <= maxDataLen →
  ∃ ev, Unmarshal_event env = Ok ev ∧ cmd = CustomEvent ev.
Proof.
  intros Hf He Hlen. destruct Hf as [d i Hd _|len d e Hl Hd Hu]; [done|].
  exists e. split; [|done]. unfold event_frame in He. cbn [app] in He.
  assert (len ++ d ++ rest = put_be 2 (Z.of_nat (length env)) ++ env) as He'
    by (rewrite app_assoc; congruence).
  clear He. rename He' into He.
  apply app_inj_1 in He as [-> He]; [|by rewrite Hl, length_put_be].
  rewrite get_put_be_small in Hd by (unfold maxDataLen in Hlen; lia).
  rewrite <-(app_nil_r env) in He. apply app_inj_1 in He as [<- _]; [done|lia].
Qed.

Lemma round_offers c tr env rest :
  round_ok c tr → Forall paired tr →
  received (Client.conn c) tr ++ rest = versionV1 :: event_frame env →
  Z.of_nat (length env) <= maxDataLen →
  ∃ ev, Unmarshal_event env = Ok ev ∧ offered tr = [CustomEvent ev].
Proof.
  intros Hr Hp Hrx Hlen. destruct Hr as [tr Ht|cmd rx tr1 tr2 Hf Ht1 Ht2|cmd rx tr1 _ _].
  - destruct Ht as (_ & Ht & _). by rewrite Ht in Hrx.
  - pose proof Ht1 as (_ & Hr1 & _). pose proof Ht2 as (_ & Hr2 & _).
    rewrite received_app in Hrx. change (received ?h (ev ?a ?b :: tr2)) with (received h tr2) in Hrx.
    rewrite Hr1, Hr2, app_nil_r in Hrx.
    destruct (frame_of_event _ _ _ _ Hf Hrx Hlen) as (e & He & ->). exists e. split; [done|].
    rewrite offered_app. change (offered (ev (CSelectSend (CustomEvent e)) true :: tr2))
      with (CustomEvent e :: offered tr2).
    by rewrite (offered_traffic _ _ _ _ Ht1), (offered_traffic _ _ _ _ Ht2).
  - apply Forall_app in Hp as [_ Hp]. by apply Forall_cons in Hp as [[=] _].
Qed.

(** ** [SendEvent] around [SendCustomEvent] *)

Lemma registered_conn_eq (d : Dialer) p v b' :
  GetConn (cm d) = Some (Some p, b') → servers d !! p = Some v →
  state (ServerV2.base v) = StateRegistered →
  registered_conn d = Ret (set_cm (b', servers d) d, Ok p).
Proof.
  intros Hg Hv Hs. unfold registered_conn.
  assert (GetConn_ d = Ret (set_cm (b', servers d) d, Ok (Some p))) as Hm.
  { unfold GetConn_. change ((get ≫= ?f) d) with (f d d). cbn beta. by rewrite Hg. }
  change ((GetConn_ ≫= ?f) d) with (GetConn_ d ≫= after f). rewrite Hm.
  change ((if decide (State_ (servers d) p ≠ StateRegistered)
           then throw (Errorf "no connection is available" []) else mret p)
          (set_cm (b', servers d) d) = Ret (set_cm (b', servers d) d, Ok p)).
  rewrite decide_False; [done|].
  cbn. unfold server_at. rewrite (lookup_total_correct _ _ _ Hv), Hs. tauto.
Qed.

Definition after_event (d : Dialer) (p : nat) (v : ServerV2.ServerV2) (q : io (Server * result ())) :
    io (Dialer * result ()) :=
  ((((q ≫= λ '(s', r), Ret (ServerV2.set_base s' v, r))
       ≫= λ '(v', r), Ret (<[p := v']> (servers d), r))
      ≫= λ '(st, r), Ret (set_cm (cm d, st) d, r))
     ≫= λ '(d', r), Ret (d', Ok r))
    ≫= after (λ r, match r with
                   | Err e => remove_conn p;; throw (Wrapf "failed to send event: %w" e)
                   | Ok _ => mret ()
                   end).

Lemma SendEvent_eq name data (d : Dialer) p v b' :
  GetConn (cm d) = Some (Some p, b') → servers d !! p = Some v →
  state (ServerV2.base v) = StateRegistered →
  SendEvent name data d =
    after_event (set_cm (b', servers d) d) p v (SendCustomEvent name data (ServerV2.base v)).
Proof.
  intros Hg Hv Hs. unfold SendEvent.
  change ((registered_conn ≫= ?f) d) with (registered_conn d ≫= after f).
  rewrite (registered_conn_eq _ _ _ _ Hg Hv Hs).
  rewrite <-(lookup_total_correct _ _ _ Hv). reflexivity.
Qed.

Lemma after_event_ctx d p v : ctx (after_event d p v).
Proof. by intros ??. Qed.

Lemma after_event_Ok d p v s : after_event d p v (Ret (s, Ok ())) =
  Ret (set_cm (cm d, <[p := ServerV2.set_base s v]> (servers d)) d, Ok ()).
Proof. reflexivity. Qed.

(** A send that succeeded inside was the last thing that happened. *)
Lemma after_event_traces d p v q tr d' :
  traces (after_event d p v q) tr (d', Ok ()) → ∃ s', traces q tr (s', Ok ()).
Proof.
  intros H. unfold after_event in H. apply traces_bind in H as (tr1 & [d1 r1] & tr2 & -> & H1 & H2).
  do 4 (apply traces_bind in H1 as (? & [? ?] & ? & -> & H1 & [-> [= -> ->]])).
  rewrite !app_nil_r. cbn [after] in H2.
  match type of H1 with traces q _ (?s', ?r) => destruct r as [[]|e] end.
  - destruct H2 as [-> _]. rewrite app_nil_r. eauto.
  - exfalso. apply traces_bind in H2 as (? & [? []] & ? & _ & _ & H2); by destruct H2 as [_ [=]].
Qed.

(** The encoding loses nothing but invalid bytes: no other name is received as a given
    one. *)
Lemma sanitize_keeps l : xef ∉ sanitize l → sanitize l = l.
Proof.
  unfold sanitize. induction l as [|bs l Hr IH|b l Hs _ IH] using segs_ind; [done|..].
  - rewrite (rune_segs _ Hr). cbn. intros H. rewrite IH by set_solver. done.
  - rewrite Hs. cbn. intros H. exfalso. apply H. by left.
Qed.

(** A name that arrives as a reserved one is that name. *)
Lemma received_plain name n :
  received_name name = n → xef ∉ bytes_of_string n → name = n.
Proof.
  unfold received_name. intros <-. unfold bytes_of_string at 1, string_of_bytes at 1.
  rewrite String.list_byte_of_string_of_list_byte. intros H.
  by rewrite sanitize_keeps, string_bytes.
Qed.

Lemma received_not_reserved name data env :
  event_bytes name data = Some env → received_name name ≠ ConnectCommandType.
Proof.
  unfold event_bytes. destruct (NewCustomEventCommand name data) as [e|] eqn:E; [|done].
  apply NewCustomEventCommand_Ok in E as (d & _ & Hn & _). intros _ Hr.
  apply NewCommandType_Ok in Hn as (_ & _ & Hn & _). apply Hn.
  apply received_plain; [done|]. by_decide.
Qed.

(** What [Accept] does with an event that has a handler. *)
Lemma Accept_event `{Sel : Selector.Selector} fuel (l : Listener.Listener) cmd h :
  Type_ cmd ≠ ConnectCommandType → Listener.eventHandlers l !! Type_ cmd = Some h →
  ∃ k k', Listener.Accept (Datatypes.S fuel) l = Call CNextCmd k ∧
    k (Some cmd) = Call (CHandler h cmd) k' ∧ k' () = Listener.Accept fuel l.
Proof.
  intros Hc Hh. eexists _, _. split; [reflexivity|]. cbn -[decide lookup Type_].
  case_decide; [done|].
  change ((get ≫= ?f) l) with (f l l). cbn beta. rewrite Hh. by split.
Qed.

(** C6: An event from [Dialer.SendEvent] to the handler of the listener whose turn it is.
    When it can be sent and is not nested too deep: whatever the scheduling and however
    the connection cuts the bytes, the send and the client's handler both finish without
    an error, the dialer has changed in its turn only, and the client's channel has
    received exactly the event, with the encoded payload, under its name (with
    replacement characters for what is not UTF-8); from there [Accept] hands it to the
    handler registered under that name, and goes on. *)
Theorem event_goes `{Sel : Selector.Selector} c d b p v name data dat env (l : Listener.Listener) h fuel :
  GetConn (cm d) = Some (Some p, b) → servers d !! p = Some v →
  Server.state (ServerV2.base v) = StateRegistered →
  json_Marshal data = Ok dat → shallow dat = true → event_bytes name data = Some env →
  Listener.eventHandlers l !! received_name name = Some h →
  let cmd := CustomEvent (mkEvent (received_name name) dat) in
  inevitable (Client.conn c) (Server.conn (ServerV2.base v)) true
    (λ f, ∃ tc td, finished (tc, (c, Ok ())) (td, (set_cm (b, servers d) d, Ok ())) f ∧
       offered tc = [cmd])
    (Cfg (traced [] (Client.handleCommand c)) (traced [] (SendEvent name data d))
       [] [] false false) ∧
  ∃ k k', Listener.Accept (Datatypes.S fuel) l = Call CNextCmd k ∧
    k (Some cmd) = Call (CHandler h cmd) k' ∧ k' () = Listener.Accept fuel l.
Proof.
  intros Hg Hv Hs Hd Hsh He Hh cmd. split.
  2:{ apply Accept_event; [by eapply received_not_reserved|done]. }
  destruct (event_bytes_decode _ _ _ _ Hd He) as [Hdec Hlen]. rewrite Hsh in Hdec.
  rewrite (SendEvent_eq _ _ _ _ _ _ Hg Hv Hs).
  set (d1 := set_cm (b, servers d) d).
  assert (after_event d1 p v (Ret (ServerV2.base v, Ok ())) = Ret (d1, Ok ())) as Hy.
  { rewrite after_event_Ok. destruct v. cbn. by rewrite insert_id. }
  eapply inev_mono; [|apply (inev_traced _ _ _ _ _ (λ a b _ _, a = (c, Ok ()) ∧ b = (d1, Ok ())));
    apply (both_finish _ c _ name data env _ _ (after_event_ctx d1 p v) Hy Hs He Hlen Hdec)].
  intros f (tc & td & a & y & Hf & [-> ->] & Hc & Hsrv & Hp & _ & _ & Hcons).
  exists tc, td. split; [done|].
  pose proof (wpM_trace _ _ _ _ _ _ (client_handleCommand_spec c) Hc) as [_ Hr].
  apply after_event_traces in Hsrv as [s' Hsrv].
  destruct (event_request _ _ _ _ _ Hsrv) as (env' & He' & Hsent).
  rewrite He in He'. injection He' as <-. rewrite Hcons in Hsent.
  destruct (round_offers _ _ _ _ (Hr eq_refl) Hp Hsent Hlen) as (e & Hu & ->).
  rewrite Hdec in Hu. by injection Hu as <-.
Qed.

(** ** The connect command, when the connection cuts the bytes *)

Lemma SendConnectCommand_eq (i : uuid) s :
  Server.state s = StateRegistered →
  Server.SendConnectCommand i s =
    (sendRequest (Server.conn s) (cmdConnect :: vec_to_list i) s
       ≫= λ '(s', r), Ret (s', wrap_err "failed to send connect command: %w" r))
    ≫= after (λ resp,
      if decide (resp ≠ resSuccess) then
        throw (Errorf "failed to connect: %d" [Z_of_byte resp])
      else mret ()).
Proof.
  intros Hs. unfold Server.SendConnectCommand. change ((get ≫= ?f) s) with (f s s). cbn beta.
  by rewrite decide_False by (rewrite Hs; tauto).
Qed.

Definition deliver_connect (i : uuid) : M Client () :=
  delivered ← lift (call_ (CSelectSend (ConnectCommand i)));
  if delivered : bool then reply "failed to write connect response: %w" else mret ().

Lemma both_finish_connect c s (i : uuid) :
  Server.state s = StateRegistered →
  inevitable (Client.conn c) (Server.conn s) true
    (λ f, ∃ a b, finished a b f ∧ a = (c, Ok ()) ∧ b = (s, Ok ()))
    (Cfg (Client.handleCommand c) (Server.SendConnectCommand i s) [] [] false false).
Proof.
  intros Hs. rewrite (SendConnectCommand_eq _ _ Hs).
  apply (cut_s_sendRequest _ _ _ _ (λ q, (q ≫= _) ≫= after _)); [by intros ??|waits_hnf|].
  set (wait := (readMsg (Server.conn s) s ≫= _) ≫= _).
  assert (waits (Server.conn s) wait []) as Hw
    by (apply (readMsg_waits _ (λ q, (q ≫= _) ≫= after _)); by intros ??).
  apply (cut_c_readMsg _ _ _ _ (λ q, (q ≫= _) ≫= after _)); [by intros ??|exact Hw|].
  client_is (handleConnect c).
  apply (cut_c_read _ _ _ _ (λ q, (q ≫= _) ≫= after _));
    [by intros ??|exact Hw|apply length_vec_to_list|by destruct (uuid_cons i) as (? & ? & -> & _)|].
  intros k Hk. destruct (truncated_exists k i) as (i' & _ & Hi'). cbn beta.
  client_is ((wrap "failed to parse UUID: %w" (liftR (mret (uuid_FromBytes (fill 16 (take k i)))))
      ≫= deliver_connect) c).
  rewrite Hi'. client_is (deliver_connect i' c). client_hnf.
  apply cut_c_select; [exact Hw|]. client_hnf. apply cut_c_reply; [exact Hw|].
  apply (cut_s_readMsg _ _ _ _ (λ q, (q ≫= _) ≫= after _) s resSuccess []);
    [by intros ??|apply waits_ret|].
  apply inev_now. do 2 eexists. by repeat split.
Qed.

Lemma connect_request (i : uuid) s tr s' :
  Server.state s = StateRegistered → traces (Server.SendConnectCommand i s) tr (s', Ok ()) →
  sent (Server.conn s) tr = versionV1 :: cmdConnect :: vec_to_list i.
Proof.
  intros Hs Htr. pose proof (wpM_trace _ _ _ _ _ _ (SendConnectCommand_spec i s) Htr) as H.
  unfold send_post in H. rewrite Hs in H. destruct H as (_ & rx & tx & (_ & _ & <-) & _ & _ & H).
  by apply H.
Qed.

(** The identifier in the command is what had arrived of it. *)
Lemma round_offers_connect c tr (i : uuid) rest :
  round_ok c tr → Forall paired tr →
  received (Client.conn c) tr ++ rest = versionV1 :: cmdConnect :: vec_to_list i →
  ∃ k i', (0 < k ≤ 16)%nat ∧ truncated k i i' ∧
    offered tr = [ConnectCommand i'] ∧ rest = drop k (vec_to_list i).
Proof.
  intros Hr Hp Hrx. destruct Hr as [tr Ht|cmd rx tr1 tr2 Hf Ht1 Ht2|cmd rx tr1 _ _].
  - destruct Ht as (_ & Ht & _). by rewrite Ht in Hrx.
  - pose proof Ht1 as (_ & Hr1 & _). pose proof Ht2 as (_ & Hr2 & _).
    rewrite received_app in Hrx. change (received ?h (ev ?a ?b :: tr2)) with (received h tr2) in Hrx.
    rewrite Hr1, Hr2, app_nil_r in Hrx.
    destruct Hf as [d i' Hd Hi'|len d e Hl _ _]; [|done]. cbn [app] in Hrx.
    assert (d ++ rest = vec_to_list i) as E by congruence.
    exists (length d), i'. split; [done|].
    assert (truncated (length d) i i') as Ht.
    { destruct (truncated_exists (length d) i) as (i'' & Ht & Hi'').
      rewrite <-E, take_app_length, Hi' in Hi''. injection Hi'' as <-. exact Ht. }
    split; [exact Ht|]. split; [|by rewrite <-E, drop_app_length].
    rewrite offered_app. change (offered (ev (CSelectSend (ConnectCommand i')) true :: tr2))
      with (ConnectCommand i' :: offered tr2).
    by rewrite (offered_traffic _ _ _ _ Ht1), (offered_traffic _ _ _ _ Ht2).
  - apply Forall_app in Hp as [_ Hp]. by apply Forall_cons in Hp as [[=] _].
Qed.

(** A connect command to a registered listener over a connection that may cut the
    bytes anywhere: whatever the scheduling and the cuts, the send and the handler both
    finish without an error, but the command the listener's channel has received names the
    first [k] bytes of the identifier followed by zeros, for some [k] from one to
    sixteen; the rest stays in front of the next commands. *)
Lemma connect_fragmented c s (i : uuid) :
  Server.state s = StateRegistered →
  inevitable (Client.conn c) (Server.conn s) true
    (λ f, ∃ tc ts k i', finished (tc, (c, Ok ())) (ts, (s, Ok ())) f ∧
       (0 < k ≤ 16)%nat ∧ truncated k i i' ∧
       offered tc = [ConnectCommand i'] ∧ to_c f = drop k (vec_to_list i))
    (Cfg (traced [] (Client.handleCommand c)) (traced [] (Server.SendConnectCommand i s))
       [] [] false false).
Proof.
  intros Hs.
  eapply inev_mono; [|apply (inev_traced _ _ _ _ _ (λ a b _ _, a = (c, Ok ()) ∧ b = (s, Ok ())));
    by apply (both_finish_connect c s i Hs)].
  intros f (tc & ts & a & b & Hf & [-> ->] & Hc & Hsrv & Hp & _ & _ & Hcons).
  pose proof (wpM_trace _ _ _ _ _ _ (client_handleCommand_spec c) Hc) as [_ Hr].
  pose proof (connect_request _ _ _ _ Hs Hsrv) as Hsent.
  rewrite Hcons in Hsent.
  destruct (round_offers_connect _ _ _ _ (Hr eq_refl) Hp Hsent) as (k & i' & Hk & Ht & Ho & Hrest).
  exists tc, ts, k, i'. exact (conj Hf (conj Hk (conj Ht (conj Ho Hrest)))).
Qed.

(** C11: A connect command to a registered listener: whatever the scheduling, and however
    the connection cuts the bytes when it does ([cut]), the send and the handler both
    finish without an error.  Over a connection that cuts nothing the listener's channel
    has received exactly the command for the identifier that was sent; otherwise the
    command names the first [k] bytes of it followed by zeros, for some [k] from one to
    sixteen. *)
Theorem connect_command_goes cut c s (i : uuid) :
  Server.state s = StateRegistered →
  inevitable (Client.conn c) (Server.conn s) cut
    (λ f, ∃ tc ts k i', finished (tc, (c, Ok ())) (ts, (s, Ok ())) f ∧
       (0 < k ≤ 16)%nat ∧ (cut = false → i' = i) ∧ truncated k i i' ∧
       offered tc = [ConnectCommand i'])
    (Cfg (traced [] (Client.handleCommand c)) (traced [] (Server.SendConnectCommand i s))
       [] [] false false).
Proof.
  intros Hs. destruct cut.
  - eapply inev_mono; [|by apply connect_fragmented].
    intros f (tc & ts & k & i' & Hf & Hk & Ht & Ho & _). by exists tc, ts, k, i'.
  - eapply inev_mono; [|by apply connect_goes].
    intros f (tc & ts & Hf & Ho). exists tc, ts, 16%nat, i.
    assert (truncated 16 i i) as Ht.
    { unfold truncated, fill. pose proof (length_vec_to_list i) as Hl.
      rewrite (take_ge (vec_to_list i)), take_ge by lia. by rewrite Hl, app_nil_r. }
    exact (conj Hf (conj (conj (Nat.lt_0_succ _) (le_n _)) (conj (λ _, eq_refl) (conj Ht Ho)))).
Qed.

End sending.

(** ** Witness *)

Definition demo_registered : ServerV2.ServerV2 :=
  ServerV2.set_base (set_state StateRegistered (NewServer 5%nat [WithNoAuth]))
    (ServerV2.NewServerV2 5%nat [] []).
Definition demo_dialer : Dialer :=
  set_cm (mkCM [0%nat] 0, {[0%nat := demo_registered]}) (NewDialer "127.0.0.1:0" []).
Definition demo_handling : Listener.Listener := Eval vm_compute in
  let l := Listener.init_listener "127.0.0.1:1" in
  match Listener.WithEventHandler (X := demo) "news" 7%nat with
  | Ok o => default l (o l)
  | Err _ => l
  end.

Lemma event_goes_witness :
  let cmd := CustomEvent (mkEvent (received_name "news") [x31]) in
  inevitable 3%nat 5%nat true
    (λ f, ∃ tc td, finished (tc, (demo_client, Ok ())) (td, (demo_dialer, Ok ())) f ∧ offered tc = [cmd])
    (Cfg (traced [] (Client.handleCommand (X := demo) demo_client))
       (traced [] (SendEvent (X := demo) "news" [x31] demo_dialer)) [] [] false false) ∧
  ∃ k k', Listener.Accept (X := demo) (Sel := Selector.LeastStreamsSelector) 2 demo_handling = Call CNextCmd k ∧
    k (Some cmd) = Call (CHandler 7%nat cmd) k' ∧ k' () = Listener.Accept (X := demo) (Sel := Selector.LeastStreamsSelector) 1 demo_handling.
Proof.
  assert (json_Marshal (Externals := demo) [x31] = Ok [x31]) as Hd by (by vm_compute).
  assert (shallow [x31] = true) as Hsh by (by vm_compute).
  assert (event_bytes (X := demo) "news" [x31] = Some demo_event_text) as He by (by vm_compute).
  assert (Listener.eventHandlers demo_handling !! received_name "news" = Some 7%nat) as Hh
    by (by vm_compute).
  exact (event_goes (X := demo) (Sel := Selector.LeastStreamsSelector) demo_client demo_dialer (mkCM [0%nat] 0) 0%nat demo_registered
           "news" [x31] [x31] demo_event_text demo_handling 7%nat 1
           eq_refl (lookup_singleton_eq _ _) eq_refl Hd Hsh He Hh).
Defined.

Lemma connect_command_goes_witness :
  let s := set_state StateRegistered (NewServer 5%nat [WithNoAuth]) in
  inevitable 3%nat 5%nat true
    (λ f, ∃ tc ts k i', finished (tc, (demo_client, Ok ())) (ts, (s, Ok ())) f ∧
       (0 < k ≤ 16)%nat ∧ (true = false → i' = demo_uuid) ∧ truncated k demo_uuid i' ∧
       offered tc = [ConnectCommand i'])
    (Cfg (traced [] (Client.handleCommand (X := demo) demo_client))
       (traced [] (Server.SendConnectCommand demo_uuid s)) [] [] false false).
Proof. intros s. exact (connect_command_goes (X := demo) true demo_client s demo_uuid eq_refl). Defined.
