(* ===== verification/Watcher.v ===== *)
(** * dialer.go: the watcher of a handshake

    [handleConnection] starts a goroutine that waits for the handshake's context and then
    closes the connection, unless the channel [done] is closed.  Here that goroutine runs
    next to the calls of a run of [handleConnection].  A [select] whose two cases are
    ready when it is reached takes either; one that is parked takes the first to come. *)
From S2P Require Import Prelude Static MuxConfig Commands Demo GoIO Wire.
From S2P Require Import Server.
From S2P Require ServerV2.
From S2P Require Import ConnManager.
From S2P Require Import Dialer Dialing.

(** Where the watcher is. *)
Inductive watcher :=
  | WNone      (** not started *)
  | WStart     (** before its [select] *)
  | WParked    (** waiting in it *)
  | WClosed    (** took [<-ctx.Done()] and closes the connection *)
  | WSpared.   (** took [<-done] *)

#[export] Instance watcher_eq_dec : EqDecision watcher.
Proof. solve_decision. Defined.

(** The calls the handler has still to make, and what the watcher waits for. *)
Record watched := mkWatched {
  todo : list event;
  done_closed : bool;
  ctx_done : bool;
  w_at : watcher
}.

Definition start (tr : list event) : watched := mkWatched tr false false WNone.

(** A parked watcher is woken by the first of the two channels. *)
Definition wake (by_ : watcher) (w : watcher) : watcher :=
  match w with WParked => by_ | _ => w end.

(** What a call of the handler does to it. *)
Definition handler_call (c : call) (tr : list event) (s : watched) : watched :=
  match c with
  | CGo (GCloseOnDone _) => mkWatched tr (done_closed s) (ctx_done s) WStart
  | CCloseDone => mkWatched tr true (ctx_done s) (wake WSpared (w_at s))
  | CCancel => mkWatched tr (done_closed s) true (wake WClosed (w_at s))
  | _ => mkWatched tr (done_closed s) (ctx_done s) (w_at s)
  end.

(** One step; [stops] says whether the dialer may be stopped meanwhile, which ends the
    parent of the handshake's context. *)
Inductive watch_step (stops : bool) (s : watched) : watched → Prop :=
  | watch_handler e tr :
      todo s = e :: tr → watch_step stops s (handler_call (projT1 e) tr s)
  | watch_stop :
      stops = true →
      watch_step stops s (mkWatched (todo s) (done_closed s) true (wake WClosed (w_at s)))
  | watch_park :
      w_at s = WStart → done_closed s = false → ctx_done s = false →
      watch_step stops s (mkWatched (todo s) (done_closed s) (ctx_done s) WParked)
  | watch_done :
      w_at s = WStart → done_closed s = true →
      watch_step stops s (mkWatched (todo s) (done_closed s) (ctx_done s) WSpared)
  | watch_ctx :
      w_at s = WStart → ctx_done s = true →
      watch_step stops s (mkWatched (todo s) (done_closed s) (ctx_done s) WClosed).

Definition ended (s : watched) : Prop :=
  todo s = [] ∧ (w_at s = WClosed ∨ w_at s = WSpared).

(** The handler told the watcher to spare the connection. *)
Definition kept (tr : list event) : Prop := CCloseDone ∈ calls tr.

(** The calls between the start of the watcher and the deferred [cancel()]. *)
Definition inner (c : call) : Prop := c ≠ CCancel ∧ ∀ h, c ≠ CGo (GCloseOnDone h).

Definition handled (h : handle) (tr0 : list event) : list event :=
  ev (CGo (GCloseOnDone h)) () :: tr0 ++ [ev CCancel ()].

Section handled.
Context `{X : Externals}.

Ltac walk := only_walk ltac:(repeat split; discriminate).

Lemma protocol_inner c : protocol_call c → inner c.
Proof. destruct c; cbn; try done; by split. Qed.

Lemma Process_inner : onlyM inner ServerV2.Process.
Proof. intros v. eapply only_impl; [exact protocol_inner | apply Process_protocol]. Qed.

Lemma AddConnection_inner c : onlyM inner (AddConnection (I := servers_conn) c).
Proof. intros v. eapply only_impl; [exact protocol_inner | apply AddConnection_protocol]. Qed.

Lemma settle_inner h c r : onlyM inner (settle h c r).
Proof.
  pose proof AddConnection_inner.
  unfold settle, handleV2RegisteredConnection, handleV1RegisteredConnection, on_cm, go, removeRequest.
  walk.
Qed.

(** The calls of a run: the watcher is started first, the context cancelled last, and
    nothing between them does either. *)
Lemma handled_run h d tr d' r :
  traces (handleConnection h d) tr (d', r) →
  ∃ tr0, tr = handled h tr0 ∧ Forall inner (calls tr0).
Proof.
  intros Htr. pose proof (wpM_trace _ _ _ _ _ _ (handleConnection_spec h d) Htr) as (-> & tr0 & -> & _).
  exists tr0. split; [done|]. rewrite handleConnection_process in Htr.
  destruct Htr as ([] & tr' & [= <-] & Htr). 
  apply traces_bind in Htr as (tr1 & [d1 r1] & tr2 & Heq & H1 & H2).
  apply only_traces with (P := inner) in H1; cycle 1.
  { repeat (apply only_bind; [|by intros [??]]). apply Process_inner. }
  destruct r1 as [r1|e]; [|by destruct H2].
  change (traces (settle h (incoming_ptr d) r1 d1 ≫= after (λ _, _ ← lift (call_ CCancel); mret ()))
    tr2 (d', Ok ())) in H2.
  apply traces_bind in H2 as (tr3 & [d2 r2] & tr4 & -> & H2 & H3).
  apply only_traces with (P := inner) in H2; [|apply settle_inner].
  assert (Forall inner (calls (tr1 ++ tr3))) as H13 by (rewrite calls_app; by apply Forall_app).
  destruct r2 as [[]|e]; [|by destruct H3].
  destruct H3 as ([] & ? & -> & -> & _). rewrite app_assoc in Heq.
  apply app_inj_tail in Heq as [-> _]. exact H13.
Qed.

End handled.

(** ** Every interleaving *)

(** What holds of every state reached from the calls [tr]. *)
Definition watch_ok (stops : bool) (tr : list event) (s : watched) : Prop :=
  ∃ pre, tr = pre ++ todo s ∧
    (done_closed s = true ↔ kept pre) ∧
    (ctx_done s = true → stops = true ∨ CCancel ∈ calls pre) ∧
    (w_at s = WParked → done_closed s = false ∧ ctx_done s = false) ∧
    (w_at s = WSpared → done_closed s = true) ∧
    (w_at s = WClosed → ctx_done s = true) ∧
    (pre = [] → w_at s = WNone).

Lemma kept_snoc pre e : kept (pre ++ [e]) ↔ kept pre ∨ projT1 e = CCloseDone.
Proof. unfold kept, calls. rewrite fmap_app, elem_of_app. cbn. rewrite list_elem_of_singleton. split; (intros [H|H]; [by left|by right]). Qed.

Lemma watch_start_ok stops tr : watch_ok stops tr (start tr).
Proof. exists []. split; [done|]. split; [split; [done|by by intros H%elem_of_nil]|]. by split_and!. Qed.

Lemma watch_handler_ok stops tr s e tr' :
  watch_ok stops tr s → todo s = e :: tr' → watch_ok stops tr (handler_call (projT1 e) tr' s).
Proof.
  intros (pre & -> & Hd & Hc & Hp & Hs & Hcl & _) Htodo. exists (pre ++ [e]).
  rewrite kept_snoc, calls_app, elem_of_app. destruct s as [td dc cd w]. cbn in *. subst td.
  destruct e as [c r].
  destruct c as [| | | | | | | | | | | | |[]| | | | | | | | | |]; cbn;
    (split; [by rewrite <-app_assoc|]); rewrite list_elem_of_singleton;
    destruct w; cbn; (do 5 (split; [intuition congruence|])); intros H; by destruct pre.
Qed.

Lemma watch_step_ok stops tr s s' :
  watch_ok stops tr s → watch_step stops s s' → watch_ok stops tr s'.
Proof.
  intros Hok Hst. destruct Hst as [e tr' Ht|Ht|Hw Hd Hc|Hw Hd|Hw Hc]; [by apply watch_handler_ok|..];
    destruct Hok as (pre & H & Hk & Hcd & Hp & Hs & Hcl & Hn); exists pre; (split; [exact H|]);
    destruct s as [td dc cd w]; cbn in *.
  - destruct w; cbn; intuition congruence.
  - subst. intuition congruence.
  - subst. intuition congruence.
  - subst. intuition congruence.
Qed.

Lemma watch_reachable_ok stops tr s : rtc (watch_step stops) (start tr) s → watch_ok stops tr s.
Proof.
  generalize (watch_start_ok stops tr). generalize (start tr). intros s0 H0 H.
  induction H as [|s1 s2 s3 H12 _ IH]; [done|]. apply IH. by eapply watch_step_ok.
Qed.

Section outcomes.
Context (h : handle) (tr0 : list event) (Hinner : Forall inner (calls tr0)).
Implicit Types s : watched.

Lemma kept_handled : kept (handled h tr0) ↔ kept tr0.
Proof.
  unfold handled. rewrite (app_comm_cons tr0), kept_snoc. cbn. unfold kept. cbn.
  rewrite elem_of_cons. naive_solver.
Qed.

(** Before the deferred [cancel()] no call cancels. *)
Lemma handled_cut pre td :
  handled h tr0 = pre ++ td → CCancel ∈ calls pre → td = [].
Proof.
  unfold handled. rewrite (app_comm_cons tr0). intros H Hin.
  destruct td as [|x td _] using rev_ind; [done|]. exfalso. rewrite app_assoc in H.
  apply app_inj_tail in H as [H _].
  assert (CCancel ∈ calls (ev (CGo (GCloseOnDone h)) () :: tr0)) as Hc
    by (rewrite H, calls_app; apply elem_of_app; by left).
  apply elem_of_cons in Hc as [|Hc]; [done|].
  rewrite Forall_forall in Hinner. by destruct (Hinner _ Hc).
Qed.

Lemma todo_inner s e td pre :
  handled h tr0 = pre ++ e :: td → pre ≠ [] → todo s = e :: td →
  (td ≠ [] ∧ inner (projT1 e)) ∨ (td = [] ∧ projT1 e = CCancel ∧ (kept tr0 → kept pre)).
Proof.
  intros H Hpre _. destruct pre as [|x pre]; [done|]. unfold handled in H. injection H as <- H.
  destruct td as [|y td _] using rev_ind.
  - right. apply app_inj_tail in H as [-> <-]. split; [done|]. split; [done|].
    unfold kept. cbn. rewrite elem_of_cons. by right.
  - left. split; [by destruct td|]. rewrite app_comm_cons, app_assoc in H.
    apply app_inj_tail in H as [-> _].
    rewrite calls_app, Forall_app in Hinner. destruct Hinner as [_ Hi]. by inversion Hi.
Qed.

(** Once the watcher is parked, or has spared the connection, nothing else happens to a
    connection that is kept. *)
Lemma parked_step s s' :
  kept (handled h tr0) → watch_ok false (handled h tr0) s → watch_step false s s' →
  w_at s = WParked ∨ w_at s = WSpared → todo s ≠ handled h tr0 →
  (w_at s' = WParked ∨ w_at s' = WSpared) ∧ todo s' ≠ handled h tr0.
Proof.
  intros Hk (pre & Htr & Hd & Hc & Hp & Hs & Hcl & _) Hst Hw Hne.
  destruct Hst as [e td Ht|Ht|Hw'|Hw'|Hw']; try done; try (rewrite Hw' in Hw; by destruct Hw).
  rewrite Ht in Htr. assert (pre ≠ []) as Hpre by (intros ->; by rewrite Ht, Htr in Hne).
  split.
  - destruct (todo_inner s e td pre Htr Hpre Ht) as [[_ Hi]|(-> & Hcan & Hkp)].
    + destruct s as [? ? ? w], e as [c r]. cbn in *.
      destruct c as [| | | | | | | | | | | | |[]| | | | | | | | | |]; cbn; try done;
        try (by destruct Hw as [-> | ->]; auto).
      * by destruct Hi as [Hi _].
      * by destruct (proj2 Hi h0).
    + rewrite Hcan. cbn. destruct Hw as [Hw|Hw]; rewrite Hw; [|by right].
      rewrite (proj2 Hd) in Hp by (by apply Hkp, kept_handled). by destruct (Hp Hw).
  - intros H. assert (todo (handler_call (projT1 e) td s) = td) as Htd
      by (destruct e as [[| | | | | | | | | | | | |[]| | | | | | | | | |] ?]; done).
    rewrite Htd in H. rewrite H in Htr. apply (f_equal length) in Htr.
    rewrite length_app in Htr. cbn in Htr. lia.
Qed.

End outcomes.

(** The handler may run to its end before the watcher reaches its [select]. *)
Lemma late_watcher stops tr d c :
  Forall inner (calls tr) → ∃ d', (d = true ∨ kept tr → d' = true) ∧
  rtc (watch_step stops) (mkWatched (tr ++ [ev CCancel ()]) d c WStart) (mkWatched [] d' true WStart).
Proof.
  revert d c. induction tr as [|e tr IH]; intros d c Hi.
  - exists d. split; [intros [?|H]; [done|by inversion H]|]. apply rtc_once.
    exact (watch_handler stops (mkWatched [_] d c WStart) (ev CCancel ()) [] eq_refl).
  - cbn in Hi. apply Forall_cons in Hi as [He Hi].
    assert (∃ d1 c1, handler_call (projT1 e) (tr ++ [ev CCancel ()])
        (mkWatched ((e :: tr) ++ [ev CCancel ()]) d c WStart) =
        mkWatched (tr ++ [ev CCancel ()]) d1 c1 WStart ∧
        (d = true ∨ projT1 e = CCloseDone → d1 = true)) as (d1 & c1 & Hstep & Hd1).
    { destruct e as [[| | | | | | | | | | | | |[]| | | | | | | | | |] ?]; cbn;
        do 2 eexists; (split; [reflexivity|]); naive_solver. }
    destruct (IH d1 c1 Hi) as (d' & Hd' & Hrun). exists d'. split.
    + intros [H|H]; [apply Hd'; left; by apply Hd1; left|].
      unfold kept in H. cbn in H. apply elem_of_cons in H as [H|H].
      * apply Hd'. left. apply Hd1. by right.
      * apply Hd'. by right.
    + eapply rtc_l; [|exact Hrun]. rewrite <-Hstep.
      exact (watch_handler stops (mkWatched ((e :: tr) ++ [ev CCancel ()]) d c WStart) e _ eq_refl).
Qed.


(** ** Witness: the connection that registers with [demo_dialer] can be closed *)

Definition demo_incoming : list event * (Dialer * result ()) * world :=
  run script_handler (handleConnection (X := demo) 3%nat demo_dialer)
    (one_conn 3%nat [take 3 demo_register_bytes; take 2 (drop 3 demo_register_bytes);
                     drop 5 demo_register_bytes]).

Lemma demo_incoming_kept : kept demo_incoming.1.1.
Proof. apply (list_elem_of_lookup_2 _ 7). by vm_compute. Qed.

