(* ===== verification/Stopping.v ===== *)
(** * dialer.go: stopping the dialer while dials are in progress

    [Stop] holds the dialer's mutex while it waits for the goroutines of the accept loop
    and of a registered connection; that connection's goroutine ends by removing it from
    the manager, which closes it under the manager's mutex; closing takes the mutex of
    the server's end, which a dial holds while it waits for the listener's answer.  Here
    the places where a goroutine can wait are separate steps; critical sections that do
    not wait are one step that needs the mutex to be free.  A dial leaves its select when
    its connection comes or its context ends, which is taken to happen sooner or later;
    neither ends the wait for the listener's answer, which holds the mutex. *)
From S2P Require Import Prelude.

(** Where [Stop] is. *)
Inductive stopper :=
  | SStart     (** before [d.mu.Lock()] *)
  | SLocked    (** before [d.cancel()] *)
  | SWaiting   (** at [d.wg.Wait()] *)
  | SDone.

(** Where the goroutine of the registered connection is. *)
Inductive keeper :=
  | KWait      (** V1: at [<-d.ctx.Done()]; V2: in [AcceptStream] *)
  | KRemove    (** at [b.mu.Lock()] of [RemoveConnection] *)
  | KClose     (** in [conn.Close()] of it, at [s.mu.Lock()] *)
  | KExit.     (** returned: [d.wg.Done()] *)

(** Where a call of [DialContext] is. *)
Inductive dialing :=
  | DGet       (** at [b.mu.RLock()] of [GetConn] *)
  | DState     (** at [s.mu.RLock()] of [State] *)
  | DAdd       (** at [d.mu.Lock()] of [addRequest] *)
  | DSend      (** at [s.mu.Lock()] of [SendConnectCommand] *)
  | DRead      (** reading the answer, under [s.mu] *)
  | DRemove    (** at [b.mu.Lock()] of [RemoveConnection] *)
  | DClose     (** in [conn.Close()] of it, at [s.mu.Lock()] *)
  | DSelect    (** at the select of [DialContext] *)
  | DForget    (** at [d.mu.Lock()] of [removeRequest] *)
  | DEnd.

#[export] Instance stopper_eq_dec : EqDecision stopper.
Proof. solve_decision. Defined.
#[export] Instance keeper_eq_dec : EqDecision keeper.
Proof. solve_decision. Defined.
#[export] Instance dialing_eq_dec : EqDecision dialing.
Proof. solve_decision. Defined.

Record sys := Sys {
  stop_at : stopper;
  listener_closed : bool;   (** the second goroutine of [Start] has returned *)
  serve_done : bool;        (** the first one has *)
  keeper_at : keeper;
  closed : bool;            (** the server's end: its session or its connection *)
  managed : bool;           (** the manager has the connection *)
  cm_locked : bool;         (** the manager's mutex *)
  s_locked : bool;          (** the mutex of the server's end *)
  dials : list dialing
}.

Definition cancelled (st : stopper) : bool :=
  match st with SWaiting | SDone => true | _ => false end.
Definition d_free (st : stopper) : bool :=
  match st with SStart | SDone => true | _ => false end.

(** A step of [Stop] and of the goroutines it waits for; [v2] is the connection's version.
    The goroutine that closes a V2 session takes the mutex of the server's end too. *)
Inductive keeper_step (v2 : bool) : sys → sys → Prop :=
  | stop_lock cl sv k c m cm sm ds :
      keeper_step v2 (Sys SStart cl sv k c m cm sm ds) (Sys SLocked cl sv k c m cm sm ds)
  | stop_cancel cl sv k c m cm sm ds :
      keeper_step v2 (Sys SLocked cl sv k c m cm sm ds) (Sys SWaiting cl sv k c m cm sm ds)
  | stop_return c m cm sm ds :
      keeper_step v2 (Sys SWaiting true true KExit c m cm sm ds) (Sys SDone true true KExit c m cm sm ds)
  | listener_close st sv k c m cm sm ds : cancelled st = true →
      keeper_step v2 (Sys st false sv k c m cm sm ds) (Sys st true sv k c m cm sm ds)
  | serve_exit st k c m cm sm ds :
      keeper_step v2 (Sys st true false k c m cm sm ds) (Sys st true true k c m cm sm ds)
  | session_close st cl sv k m cm ds : v2 = true → cancelled st = true →
      keeper_step v2 (Sys st cl sv k false m cm false ds) (Sys st cl sv k true m cm false ds)
  | keeper_wake st cl sv c m cm sm ds : (if v2 then c else cancelled st) = true →
      keeper_step v2 (Sys st cl sv KWait c m cm sm ds) (Sys st cl sv KRemove c m cm sm ds)
  | keeper_lock st cl sv c m sm ds :
      keeper_step v2 (Sys st cl sv KRemove c m false sm ds)
        (Sys st cl sv (if m then KClose else KExit) c m m sm ds)
  | keeper_close st cl sv c m cm ds :
      keeper_step v2 (Sys st cl sv KClose c m cm false ds) (Sys st cl sv KExit true false false false ds).

(** A step of one dial: what it needs of the rest, what it changes of it. *)
Inductive dial_step (answers : bool) (st : stopper) :
    dialing → bool * bool * bool * bool → dialing → bool * bool * bool * bool → Prop :=
  | dial_get c m sm :
      dial_step answers st DGet (c, m, false, sm) (if m then DState else DEnd) (c, m, false, sm)
  | dial_state c m cm :
      dial_step answers st DState (c, m, cm, false) (if c then DEnd else DAdd) (c, m, cm, false)
  | dial_add e : d_free st = true → dial_step answers st DAdd e DSend e
  | dial_send_closed m cm :
      dial_step answers st DSend (true, m, cm, false) DRemove (true, m, cm, false)
  | dial_send m cm :
      dial_step answers st DSend (false, m, cm, false) DRead (false, m, cm, true)
  | dial_answered c m cm sm p : answers = true → p = DSelect ∨ p = DRemove →
      dial_step answers st DRead (c, m, cm, sm) p (c, m, cm, false)
  | dial_remove c m sm :
      dial_step answers st DRemove (c, m, false, sm) (if m then DClose else DForget) (c, m, m, sm)
  | dial_close c m cm :
      dial_step answers st DClose (c, m, cm, false) DForget (true, false, false, false)
  | dial_select e : dial_step answers st DSelect e DForget e
  | dial_forget e : d_free st = true → dial_step answers st DForget e DEnd e.

Inductive stop_step (answers v2 : bool) : sys → sys → Prop :=
  | step_keeper s s' : keeper_step v2 s s' → stop_step answers v2 s s'
  | step_dial st cl sv k c m cm sm c' m' cm' sm' ds i p p' :
      ds !! i = Some p → dial_step answers st p (c, m, cm, sm) p' (c', m', cm', sm') →
      stop_step answers v2 (Sys st cl sv k c m cm sm ds) (Sys st cl sv k c' m' cm' sm' (<[i := p']> ds)).

(** A dialer with one registered connection, and [n] dials about to start. *)
Definition initial (n : nat) : sys :=
  Sys SStart false false KWait false true false false (replicate n DGet).

(** [Stop] and every dial have returned. *)
Definition over (s : sys) : Prop := stop_at s = SDone ∧ Forall (λ p, p = DEnd) (dials s).

Definition stuck answers v2 (s : sys) : Prop := ∀ s', ¬ stop_step answers v2 s s'.

(** Whatever the scheduler does, [P] is reached. *)
Inductive inevitably (answers v2 : bool) (P : sys → Prop) (s : sys) : Prop :=
  | inevitably_now : P s → inevitably answers v2 P s
  | inevitably_step :
      (∃ s', stop_step answers v2 s s') →
      (∀ s', stop_step answers v2 s s' → inevitably answers v2 P s') → inevitably answers v2 P s.

(** ** Invariant: who holds which mutex *)

Definition count (p : dialing) (ds : list dialing) : nat :=
  sum_list_with (λ q, if decide (q = p) then 1 else 0)%nat ds.

#[global] Arguments count : simpl never.

Definition closing (k : keeper) : nat := match k with KClose => 1%nat | _ => 0%nat end.

Definition held (b : bool) : nat := if b then 1%nat else 0%nat.

Definition sys_ok (s : sys) : Prop :=
  count DRead (dials s) = held (s_locked s) ∧
  (count DClose (dials s) + closing (keeper_at s))%nat = held (cm_locked s) ∧
  (cm_locked s = true → managed s = true) ∧
  (s_locked s = true → closed s = false) ∧
  (stop_at s = SDone → listener_closed s = true ∧ serve_done s = true ∧ keeper_at s = KExit).

Lemma sum_list_with_insert {A} (f : A → nat) l i x y :
  l !! i = Some x → (sum_list_with f (<[i := y]> l) + f x = sum_list_with f l + f y)%nat.
Proof.
  revert i. induction l as [|z l IH]; intros [|i] H; simplify_eq/=; [lia|].
  specialize (IH i H). lia.
Qed.

Lemma count_insert q ds i p p' : ds !! i = Some p →
  (count q (<[i := p']> ds) + (if decide (p = q) then 1 else 0) =
   count q ds + (if decide (p' = q) then 1 else 0))%nat.
Proof. apply (sum_list_with_insert (λ q', if decide (q' = q) then 1 else 0)%nat). Qed.

Lemma stop_initial_ok n : sys_ok (initial n).
Proof. split_and!; try done; cbn; by induction n. Qed.

Ltac sys_solve := first [done | lia | tauto | intros; simplify_eq; first [done | lia | tauto]
  | match goal with H : _ = _ → _ ∧ _ ∧ _ |- _ = _ → _ => intros HD; destruct (H HD) as (? & ? & ?); discriminate end ].

Lemma keeper_step_ok v2 s s' : sys_ok s → keeper_step v2 s s' → sys_ok s'.
Proof.
  unfold sys_ok. intros (Hr & Hc & Hm & Hl & Hd) Hst.
  destruct Hst; cbn in *; try (destruct m; cbn in * ); try (destruct cm; cbn in * );
    split_and!; sys_solve.
Qed.

Lemma stop_step_ok answers v2 s s' : sys_ok s → stop_step answers v2 s s' → sys_ok s'.
Proof.
  intros Hok Hst. destruct Hst as [s s' Hst|st cl sv k c m cm sm c' m' cm' sm' ds i p p' Hi Hst];
    [by eapply keeper_step_ok|].
  unfold sys_ok in *. destruct Hok as (Hr & Hc & Hm & Hl & Hd).
  pose proof (count_insert DRead ds i p p' Hi) as H1.
  pose proof (count_insert DClose ds i p p' Hi) as H2.
  enough (H : count DRead (<[i:=p']> ds) = held sm' ∧
    (count DClose (<[i:=p']> ds) + closing k)%nat = held cm' ∧
    (cm' = true → m' = true) ∧ (sm' = true → c' = false)) by tauto.
  cbn in *. clear Hd Hi. inversion Hst as [| | | | |? ? ? ? ? ? [-> | ->]| | | |]; subst; clear Hst cl sv v2; try clear dependent answers;
    repeat match goal with b : bool |- _ => destruct b end; cbn in *;
    repeat (case_decide; try done); split_and!; sys_solve.
Qed.

Lemma stop_reachable_ok answers v2 n s : rtc (stop_step answers v2) (initial n) s → sys_ok s.
Proof.
  generalize (stop_initial_ok n). generalize (initial n). intros s0 H0 H.
  induction H as [|s1 s2 s3 H12 _ IH]; [done|]. apply IH. by eapply stop_step_ok.
Qed.

(** ** Progress and termination *)

(** The steps left. *)
Definition dial_rank (p : dialing) : nat :=
  match p with
  | DGet => 8 | DState => 7 | DAdd => 6 | DSend => 5 | DRead => 4 | DRemove => 3
  | DClose => 2 | DSelect => 2 | DForget => 1 | DEnd => 0
  end%nat.
Definition stop_rank (st : stopper) : nat :=
  match st with SStart => 3 | SLocked => 2 | SWaiting => 1 | SDone => 0 end%nat.
Definition keeper_rank (k : keeper) : nat :=
  match k with KWait => 3 | KRemove => 2 | KClose => 1 | KExit => 0 end%nat.
Definition rank (s : sys) : nat :=
  (stop_rank (stop_at s) + held (negb (listener_closed s)) + held (negb (serve_done s)) +
   keeper_rank (keeper_at s) + held (negb (closed s)) + sum_list_with dial_rank (dials s))%nat.

Lemma stop_step_rank answers v2 s s' : sys_ok s → stop_step answers v2 s s' → (rank s' < rank s)%nat.
Proof.
  intros Hok Hst. destruct Hst as [s s' Hst|st cl sv k c m cm sm c' m' cm' sm' ds i p p' Hi Hst].
  - destruct Hst; unfold rank; cbn; try (destruct m; cbn); try (destruct c; cbn); lia.
  - pose proof (sum_list_with_insert dial_rank ds i p p' Hi) as H. unfold rank. cbn in *.
    inversion Hst as [| | | | |? ? ? ? ? ? [-> | ->]| | | |]; subst; cbn in *;
      try (destruct m'; cbn in * ); try (destruct c'; cbn in * ); try (destruct c; cbn in * );
      try (destruct cm'; cbn in * ); lia.
Qed.

Lemma count_pos p ds : (0 < count p ds)%nat → ∃ i : nat, ds !! i = Some p.
Proof.
  unfold count. induction ds as [|q ds IH]; cbn; [lia|]. case_decide; [subst; by exists 0%nat|].
  intros Hlt. destruct IH as [i Hi]; [lia|]. by exists (S i).
Qed.

(** A dial that waits for the listener's answer. *)
Definition reading (s : sys) : Prop := ∃ i : nat, dials s !! i = Some DRead.

Lemma dial_moves answers v2 st cl sv k c m cm sm ds i p p' c' m' cm' sm' :
  ds !! i = Some p → dial_step answers st p (c, m, cm, sm) p' (c', m', cm', sm') →
  ∃ s', stop_step answers v2 (Sys st cl sv k c m cm sm ds) s'.
Proof. intros Hi Hst. eexists. by eapply step_dial. Qed.

(** Unless the run is over, somebody can move: or a dial waits for an answer that does not
    come. *)
Lemma progress answers v2 s :
  sys_ok s → over s ∨ (∃ s', stop_step answers v2 s s') ∨ (answers = false ∧ reading s).
Proof.
  destruct s as [st cl sv k c m cm sm ds]. unfold sys_ok, over, reading. cbn.
  intros (Hr & Hc & Hm & Hl & Hd).
  destruct sm.
  { destruct (count_pos DRead ds) as [i Hi]; [cbn in Hr; lia|].
    destruct answers; [|right; right; split; [done|by exists i]].
    right. left. eapply dial_moves; [exact Hi|by apply dial_answered; [|left]]. }
  destruct cm.
  { right. left. destruct k; cbn in Hc.
    3: { eexists. apply step_keeper, keeper_close. }
    all: destruct (count_pos DClose ds) as [i Hi]; [lia|];
      (eapply dial_moves; [exact Hi|apply dial_close]). }
  assert (k ≠ KClose) as Hk by (by intros ->; cbn in Hc; lia).
  destruct st.
  - right. left. eexists. apply step_keeper, stop_lock.
  - right. left. eexists. apply step_keeper, stop_cancel.
  - right. left. destruct cl; [|eexists; by apply step_keeper, listener_close].
    destruct sv; [|eexists; by apply step_keeper, serve_exit].
    destruct k; [| |done|].
    + destruct v2; [destruct c|].
      * eexists. by apply step_keeper, keeper_wake.
      * eexists. by apply step_keeper, session_close.
      * eexists. by apply step_keeper, keeper_wake.
    + eexists. apply step_keeper, keeper_lock.
    + eexists. apply step_keeper, stop_return.
  - destruct (decide (Forall (λ p, p = DEnd) ds)) as [|Hnot]; [by left|]. right. left.
    apply not_Forall_Exists, Exists_exists in Hnot as (p & [i Hi]%list_elem_of_lookup & Hp); [|apply _].
    destruct p; try (by destruct Hp).
    + eapply dial_moves; [exact Hi|apply dial_get].
    + eapply dial_moves; [exact Hi|apply dial_state].
    + eapply dial_moves; [exact Hi|by apply dial_add].
    + destruct c; (eapply dial_moves; [exact Hi|]); [apply dial_send_closed|apply dial_send].
    + pose proof (count_insert DRead ds i _ DEnd Hi) as H.
      rewrite decide_True, decide_False in H by done. cbn in Hr. lia.
    + eapply dial_moves; [exact Hi|apply dial_remove].
    + eapply dial_moves; [exact Hi|apply dial_close].
    + eapply dial_moves; [exact Hi|apply dial_select].
    + eapply dial_moves; [exact Hi|by apply dial_forget].
Qed.

Lemma inevitably_over v2 s : sys_ok s → inevitably true v2 over s.
Proof.
  remember (rank s) as n eqn:En. revert s En.
  induction n as [n IH] using lt_wf_ind; intros s -> Hok.
  destruct (progress true v2 s Hok) as [H|[H|[H _]]]; [by apply inevitably_now| |done].
  apply inevitably_step; [exact H|]. intros s' Hs'.
  refine (IH _ (stop_step_rank _ _ _ _ Hok Hs') s' eq_refl _). by eapply stop_step_ok.
Qed.

(** [Stop] waits for the connection's goroutine, which waits for the dial: the run in which
    a dial has sent its command before [Stop] is called. *)
Definition hung (v2 : bool) : sys :=
  Sys SWaiting true true (if v2 then KWait else KClose) false true (negb v2) true [DRead].

Lemma one_dial answers v2 st cl sv k c m cm sm c' m' cm' sm' p p' s :
  dial_step answers st p (c, m, cm, sm) p' (c', m', cm', sm') →
  rtc (stop_step answers v2) (Sys st cl sv k c' m' cm' sm' [p']) s →
  rtc (stop_step answers v2) (Sys st cl sv k c m cm sm [p]) s.
Proof.
  intros Hst H. eapply rtc_l; [|exact H].
  exact (step_dial answers v2 st cl sv k c m cm sm c' m' cm' sm' [p] 0 p p' eq_refl Hst).
Qed.

Lemma hung_reachable v2 : rtc (stop_step false v2) (initial 1) (hung v2).
Proof.
  eapply one_dial; [apply dial_get|]. eapply one_dial; [apply dial_state|].
  eapply one_dial; [by apply dial_add|]. eapply one_dial; [apply dial_send|].
  eapply rtc_l; [apply step_keeper, stop_lock|]. eapply rtc_l; [apply step_keeper, stop_cancel|].
  eapply rtc_l; [by apply step_keeper, listener_close|].
  eapply rtc_l; [apply step_keeper, serve_exit|]. destruct v2; [done|].
  eapply rtc_l; [by apply step_keeper, keeper_wake|]. apply rtc_once, step_keeper, keeper_lock.
Qed.

Lemma hung_stuck v2 : stuck false v2 (hung v2).
Proof.
  intros s' Hst. inversion Hst as [s1 s2 Hk|? ? ? ? ? ? ? ? ? ? ? ? ? i p p' Hi Hd]; subst.
  - destruct v2; inversion Hk; subst; done.
  - destruct i as [|[|i]]; cbn in Hi; simplify_eq. inversion Hd; subst; done.
Qed.

(** C17: [Stop] and any number of dials over a registered connection.  When the listener
    answers what it is asked, then whatever the scheduling they all return.  When it may
    not, they can get stuck only while a dial waits for an answer, and then they can:
    [Stop], which holds the dialer's mutex, waits for a goroutine that cannot close the
    connection, since closing takes the mutex the dial holds.  This is so for both versions
    of the protocol. *)
Theorem Stop_hangs v2 :
  (∀ n s, rtc (stop_step true v2) (initial n) s → inevitably true v2 over s) ∧
  (∀ n s, rtc (stop_step false v2) (initial n) s → stuck false v2 s → over s ∨ reading s) ∧
  (∃ s, rtc (stop_step false v2) (initial 1) s ∧ stuck false v2 s ∧ stop_at s = SWaiting).
Proof.
  split_and!.
  - intros n s Hs%stop_reachable_ok. by apply inevitably_over.
  - intros n s Hs%stop_reachable_ok Hst.
    destruct (progress false v2 s Hs) as [|[[s' H]|[_ H]]]; [by left|by destruct (Hst s')|by right].
  - exists (hung v2). split; [apply hung_reachable|]. split; [apply hung_stuck|done].
Qed.

Lemma Stop_hangs_witness :
  inevitably true true over (initial 3) ∧
  ∃ s, rtc (stop_step false true) (initial 1) s ∧ stuck false true s ∧ stop_at s = SWaiting.
Proof.
  split; [exact (proj1 (Stop_hangs true) 3%nat _ (rtc_refl _ _)) | exact (proj2 (proj2 (Stop_hangs true)))].
Defined.
