(* ===== verification/Pooled.v ===== *)
(** * Dials over a listener with a pool, as the dialer sees it

    Every connection of a listener's pool is registered with the dialer by a client of its
    own, and the dialer's round robin sends dials over all of them.  A client puts the
    commands it receives in its channel, of capacity [cmds_cap], and then confirms them;
    but [Accept] receives from one client only, the one [Listen] made: no other client's
    channel is ever received from.  This is the transition system of the dials over such a
    set of connections; it runs the manager's [GetConn].  A dial is named by its place in
    the list, which stands for its identifier. *)
From S2P Require Import Prelude ConnManager.

(** [make(chan Command, 10)] *)
Definition cmds_cap : nat := 10.

(** Where a dial is, over the connection it was given. *)
Inductive asking :=
  | Asked (c : nat)      (** [SendConnectCommand]: at its mutex, or reading the answer *)
  | Confirmed (c : nat)  (** at the select of [DialContext] *)
  | Answered (c : nat)   (** returned with the listener's connection *)
  | Expired (c : nat).   (** returned because its context ended *)

Record fleet := Fleet {
  manager : ConnManager;
  chans : nat → list nat;     (** the commands in each client's channel, by dial *)
  asks : list asking
}.

Definition put (c : nat) (q : list nat) (f : nat → list nat) : nat → list nat :=
  λ c', if decide (c' = c) then q else f c'.

(** [own] is the connection of the listener's client. *)
Inductive fleet_step (own : nat) (s : fleet) : fleet → Prop :=
  | fleet_dial c b' :
      GetConn (manager s) = Some (Some c, b') →
      fleet_step own s (Fleet b' (chans s) (asks s ++ [Asked c]))
  | fleet_confirm (i c : nat) :
      asks s !! i = Some (Asked c) → (length (chans s c) < cmds_cap)%nat →
      fleet_step own s (Fleet (manager s) (put c (chans s c ++ [i]) (chans s)) (<[i := Confirmed c]> (asks s)))
  | fleet_accept (i : nat) q :
      chans s own = i :: q → asks s !! i = Some (Confirmed own) →
      fleet_step own s (Fleet (manager s) (put own q (chans s)) (<[i := Answered own]> (asks s)))
  | fleet_accept_late (i : nat) q c :
      chans s own = i :: q → asks s !! i = Some (Expired c) →
      fleet_step own s (Fleet (manager s) (put own q (chans s)) (asks s))
  | fleet_expire (i c : nat) :
      asks s !! i = Some (Confirmed c) →
      fleet_step own s (Fleet (manager s) (chans s) (<[i := Expired c]> (asks s))).

(** The connections [l], registered. *)
Definition registered_fleet (l : list nat) : fleet := Fleet (mkCM l 0) (λ _, []) [].

(** What holds of every reachable state: a command in a channel is that of a dial that was
    confirmed over its connection, and it leaves the channel only for the listener's own
    [Accept]. *)
Record fleet_ok (own : nat) (l : list nat) (s : fleet) : Prop := FleetOk {
  fleet_list : connections (manager s) = l;
  fleet_range : in_range (manager s);
  fleet_room c : (length (chans s c) <= cmds_cap)%nat;
  fleet_once c : NoDup (chans s c);
  fleet_queued c i : i ∈ chans s c → asks s !! i = Some (Confirmed c) ∨ asks s !! i = Some (Expired c);
  fleet_waiting c i : asks s !! i = Some (Confirmed c) → i ∈ chans s c;
  fleet_kept c i : asks s !! i = Some (Expired c) → c = own ∨ i ∈ chans s c;
  fleet_answered c (i : nat) : asks s !! i = Some (Answered c) → c = own
}.

Section fleet.
Context (own : nat) (l : list nat).
Implicit Types s : fleet.

Lemma put_eq c q f : put c q f c = q.
Proof. unfold put. by rewrite decide_True. Qed.
Lemma put_ne c c' q f : c' ≠ c → put c q f c' = f c'.
Proof. intros. unfold put. by rewrite decide_False. Qed.

Lemma GetConn_in_range b c b' : GetConn b = Some (Some c, b') → in_range b'.
Proof.
  unfold GetConn. destruct b as [[|x xs] k]; cbn [connections current]; [done|].
  destruct (_ !! _) as [y|]; cbn [mbind option_bind]; [|done]. intros [= _ <-]. right.
  by apply (Nat.mod_upper_bound (k + 1) (length (x :: xs))).
Qed.

(** A place in an updated list. *)
Lemma insert_place (ds : list asking) (i : nat) p0 p (j : nat) x :
  ds !! i = Some p0 → <[i := p]> ds !! j = Some x ↔ (j = i ∧ x = p) ∨ (j ≠ i ∧ ds !! j = Some x).
Proof.
  intros Hi. rewrite list_lookup_insert_Some. apply lookup_lt_Some in Hi. naive_solver.
Qed.

Lemma in_put c q f c' (i : nat) :
  i ∈ put c q f c' ↔ (c' = c ∧ i ∈ q) ∨ (c' ≠ c ∧ i ∈ f c').
Proof. unfold put. case_decide; naive_solver. Qed.

Ltac places H := repeat first [rewrite (insert_place _ _ _ _ _ _ H) | rewrite in_put].

Lemma fleet_dial_ok s c b' :
  fleet_ok own l s → GetConn (manager s) = Some (Some c, b') →
  fleet_ok own l (Fleet b' (chans s) (asks s ++ [Asked c])).
Proof.
  intros [Hl Hr Hroom Honce Hq Hw Hk Ha] Hg.
  pose proof (λ (i : nat) p, lookup_app_l_Some (asks s) [Asked c] i p) as Hold.
  assert (∀ (i : nat) p, (asks s ++ [Asked c]) !! i = Some p → p = Asked c ∨ asks s !! i = Some p) as Hnew.
  { intros i p [H|[_ H]]%lookup_app_Some; [by right|left].
    apply list_lookup_singleton_Some in H. naive_solver. }
  split; cbn; try done.
  - by erewrite GetConn_connections.
  - by eapply GetConn_in_range.
  - intros c' i H. destruct (Hq _ _ H); [left|right]; by apply Hold.
  - intros c' i [|H]%Hnew; [done|auto].
  - intros c' i [|H]%Hnew; [done|auto].
  - intros c' i [|H]%Hnew; [done|eauto].
Qed.

(** A dial is asked of one connection. *)
Lemma queued_own s c i q :
  fleet_ok own l s → chans s own = i :: q → i ∈ chans s c → c = own.
Proof.
  intros Hok Hc Hi. pose proof (fleet_queued _ _ _ Hok _ _ Hi) as H.
  pose proof (fleet_queued _ _ _ Hok own i) as H'. rewrite Hc in H'.
  specialize (H' ltac:(left)). naive_solver.
Qed.

(** [Accept] takes the first command of the listener's own channel. *)
Lemma put_tail s i q :
  fleet_ok own l s → chans s own = i :: q →
  (∀ c, (length (put own q (chans s) c) <= cmds_cap)%nat ∧ NoDup (put own q (chans s) c)) ∧
  (∀ c j, j ∈ put own q (chans s) c ↔ j ∈ chans s c ∧ j ≠ i).
Proof.
  intros Hok Hc. pose proof (fleet_room _ _ _ Hok own) as Hr. pose proof (fleet_once _ _ _ Hok own) as Ho.
  rewrite Hc in Hr, Ho. apply NoDup_cons in Ho as [Hn Ho]. cbn in Hr. split.
  - intros c. unfold put. case_decide; [split; [lia|done]|]. by destruct Hok.
  - intros c j. rewrite in_put. split.
    + intros [[-> Hj]|[Hne Hj]]; [rewrite Hc; split; [by right|by intros ->]|].
      split; [done|]. intros ->. by apply Hne, (queued_own s c i q).
    + intros [Hj Hne]. destruct (decide (c = own)) as [->|]; [left|by right].
      rewrite Hc in Hj. apply elem_of_cons in Hj as [|]; [done|by split].
Qed.

Lemma fleet_step_ok s s' : fleet_ok own l s → fleet_step own s s' → fleet_ok own l s'.
Proof.
  intros Hok Hst. destruct Hst as [c b' Hg|i c Hi Hlen|i q Hc Hi|i q c Hc Hi|i c Hi];
    [by apply fleet_dial_ok|..]; try (destruct (put_tail s i q Hok Hc) as [Ht Hin]);
    destruct Hok as [Hl Hr Hroom Honce Hq Hw Hk Ha]; split; cbn; try done;
    try (by intros; apply Ht); intros c'; try (intros j; rewrite ?Hin).
  - unfold put. case_decide; [|done]. rewrite length_app. cbn. lia.
  - unfold put. case_decide; [|done]. apply NoDup_app. split; [done|].
    split; [|apply NoDup_singleton]. intros j Hj ->%list_elem_of_singleton.
    destruct (Hq _ _ Hj); congruence.
  - places Hi. rewrite elem_of_app, list_elem_of_singleton. specialize (Hq c' j).
    intros [[-> [Hj| ->]]|[Hne Hj]]; [|naive_solver|]; destruct (decide (j = i)); naive_solver.
  - places Hi. rewrite elem_of_app, list_elem_of_singleton. specialize (Hw c' j).
    destruct (decide (c' = c)); naive_solver.
  - places Hi. rewrite elem_of_app, list_elem_of_singleton. specialize (Hk c' j).
    destruct (decide (c' = c)); naive_solver.
  - places Hi. naive_solver.
  - places Hi. specialize (Hq c' j). destruct (decide (j = i)); naive_solver.
  - places Hi. specialize (Hw c' j). naive_solver.
  - places Hi. specialize (Hk c' j). naive_solver.
  - places Hi. naive_solver.
  - naive_solver.
  - intros Hj. split; [auto|]. intros ->. congruence.
  - intros Hj. destruct (decide (j = i)) as [->|]; [left|destruct (Hk _ _ Hj); auto].
    destruct (Hq own i); [rewrite Hc; left|congruence|congruence].
  - places Hi. specialize (Hq c' j). destruct (decide (j = i)); naive_solver.
  - places Hi. specialize (Hw c' j). naive_solver.
  - places Hi. specialize (Hk c' j). specialize (Hw c' j). naive_solver.
  - places Hi. naive_solver.
Qed.

#[local] Abbreviation reaches := (rtc (fleet_step own)).

Lemma reaches_ok s s' : reaches s s' → fleet_ok own l s → fleet_ok own l s'.
Proof. induction 1 as [|s1 s2 s3 H12 _ IH]; [done|]. intros Hs. by eapply IH, fleet_step_ok. Qed.

Lemma registered_ok : fleet_ok own l (registered_fleet l).
Proof.
  split; cbn; try done.
  - unfold in_range. cbn. destruct l as [|x xs]; [by left|right; cbn; lia].
  - intros _. unfold cmds_cap. lia.
  - intros _. apply NoDup_nil_2.
  - intros c i H. by apply elem_of_nil in H.
Qed.

(** ** The listener's own connection *)

(** [Accept] can empty the channel; the dials whose commands were in it are answered. *)
Lemma drain s : fleet_ok own l s → ∃ s', reaches s s' ∧ chans s' own = [] ∧
  ∀ j : nat, (asks s !! j = Some (Asked own) → asks s' !! j = Some (Asked own)) ∧
    (asks s !! j = Some (Confirmed own) ∨ asks s !! j = Some (Answered own) →
     asks s' !! j = Some (Answered own)).
Proof.
  remember (chans s own) as q eqn:Eq. revert s Eq. induction q as [|i q IH]; intros s Eq Hok.
  { exists s. split; [apply rtc_refl|]. split; [done|]. intros j. split; [done|]. intros [H|H]; [|done].
    pose proof (fleet_waiting _ _ _ Hok _ _ H) as Hin. rewrite <-Eq in Hin. by apply elem_of_nil in Hin. }
  assert (i ∈ chans s own) as Hin by (rewrite <-Eq; left).
  destruct (fleet_queued _ _ _ Hok _ _ Hin) as [Hi|Hi].
  - pose proof (fleet_accept own s i q (eq_sym Eq) Hi) as Hst.
    match type of Hst with fleet_step _ _ ?t =>
      destruct (IH t) as (s' & Hs' & Hc & H); [by cbn; rewrite put_eq|by eapply fleet_step_ok|] end.
    exists s'. split; [by eapply rtc_l|]. split; [done|]. intros j. destruct (H j) as [H1 H2]. cbn in *.
    revert H1 H2. rewrite !(insert_place _ _ _ _ _ _ Hi). destruct (decide (j = i)); naive_solver.
  - pose proof (fleet_accept_late own s i q own (eq_sym Eq) Hi) as Hst.
    match type of Hst with fleet_step _ _ ?t =>
      destruct (IH t) as (s' & Hs' & Hc & H); [by cbn; rewrite put_eq|by eapply fleet_step_ok|] end.
    exists s'. split; [by eapply rtc_l|]. split; [done|]. exact H.
Qed.

Lemma own_answered s (i : nat) : fleet_ok own l s → asks s !! i = Some (Asked own) →
  ∃ s', reaches s s' ∧ asks s' !! i = Some (Answered own).
Proof.
  intros Hok Hi. destruct (drain s Hok) as (s1 & H1 & Hc & H). apply H in Hi. clear H.
  assert (fleet_step own s1 (Fleet (manager s1) (put own [i] (chans s1)) (<[i := Confirmed own]> (asks s1)))) as Hst.
  { pose proof (fleet_confirm own s1 i own Hi) as Hst. rewrite Hc in Hst. apply Hst. cbn. unfold cmds_cap. lia. }
  assert (reaches s (Fleet (manager s1) (put own [i] (chans s1)) (<[i := Confirmed own]> (asks s1)))) as H2
    by by eapply rtc_r.
  destruct (drain _ (reaches_ok _ _ H2 Hok)) as (s' & Hs' & _ & H). exists s'. split; [by etransitivity|].
  apply H. left. cbn. apply list_lookup_insert_eq. by eapply lookup_lt_Some.
Qed.

(** ** The other connections of the pool *)

Lemma dials_start n s cs b' : GetConns n (manager s) = Some (cs, b') →
  reaches s (Fleet b' (chans s) (asks s ++ (Asked <$> cs))).
Proof.
  revert s cs. induction n as [|n IH]; intros [m f ds] cs; cbn [GetConns].
  { intros [= <- <-]. cbn. by rewrite app_nil_r. }
  cbn [manager]. destruct (GetConn m) as [[[c|] b1]|] eqn:E; cbn [mbind option_bind]; [| |done].
  - destruct (GetConns n b1) as [[cs1 b2]|] eqn:E1; cbn [mbind option_bind]; [|done]. intros [= <- <-].
    eapply rtc_l; [by apply (fleet_dial own (Fleet m f ds) c b1)|].
    specialize (IH (Fleet b1 f (ds ++ [Asked c])) cs1 E1). cbn in *. by rewrite <-app_assoc in IH.
  - destruct (GetConns n b1) as [[cs1 b2]|] eqn:E1; cbn [mbind option_bind]; [|done]. intros [= <- <-].
    assert (b1 = m) as -> by (unfold GetConn in E; destruct m as [[|x xs] k]; cbn in E;
      [by simplify_eq|destruct (_ !! _); by simplify_eq]).
    exact (IH (Fleet m f ds) cs1 E1).
Qed.

(** One round of dials asks over every connection. *)
Lemma dial_over s c : fleet_ok own l s → c ∈ l →
  ∃ s' (i : nat), reaches s s' ∧ chans s' = chans s ∧ asks s' !! i = Some (Asked c).
Proof.
  intros Hok Hc. pose proof (fleet_list _ _ _ Hok) as Hl.
  assert (connections (manager s) ≠ []) as Hne by (rewrite Hl; intros ->; by apply elem_of_nil in Hc).
  pose proof (GetConn_round_robin _ Hne (fleet_range _ _ _ Hok)) as Hg. apply dials_start in Hg.
  set (cs := drop _ _ ++ _) in Hg.
  assert (c ∈ cs) as [k Hk]%list_elem_of_lookup.
  { unfold cs. rewrite <-Hl, <-(take_drop (current (manager s)) (connections (manager s))) in Hc.
    rewrite elem_of_app in *. tauto. }
  eexists _, (length (asks s) + k)%nat. split; [exact Hg|]. split; [done|]. cbn.
  rewrite lookup_app_r by lia. replace (length (asks s) + k - length (asks s))%nat with k by lia.
  by rewrite list_lookup_fmap, Hk.
Qed.

(** Nothing is taken from the channel of another client. *)
Lemma full_stays c (i : nat) s s' : c ≠ own → reaches s s' →
  (cmds_cap <= length (chans s c))%nat → asks s !! i = Some (Asked c) → asks s' !! i = Some (Asked c).
Proof.
  intros Hne. induction 1 as [|s1 s2 s3 H12 _ IH]; [done|]. intros Hf Hi.
  apply IH; destruct H12 as [c1 b' Hg|j c1 Hj Hlen|j q Hc Hj|j q c1 Hc Hj|j c1 Hj]; cbn;
    rewrite ?put_ne by done; try done.
  - unfold put. case_decide; [|done]. subst. rewrite length_app. lia.
  - by apply lookup_app_l_Some.
  - apply (insert_place _ _ _ _ _ _ Hj). right. split; [|done]. intros ->. simplify_eq. lia.
  - apply (insert_place _ _ _ _ _ _ Hj). right. split; [|done]. intros ->. simplify_eq.
  - apply (insert_place _ _ _ _ _ _ Hj). right. split; [|done]. intros ->. simplify_eq.
Qed.

Lemma dial_hangs s c : fleet_ok own l s → c ∈ l → c ≠ own →
  ∃ s' (i : nat), reaches s s' ∧ ∀ s'', reaches s' s'' → asks s'' !! i = Some (Asked c).
Proof.
  remember (cmds_cap - length (chans s c))%nat as n eqn:En. revert s En.
  induction n as [|n IH]; intros s En Hok Hc Hne;
    destruct (dial_over s c Hok Hc) as (s1 & i & H1 & Hch & Hi); rewrite <-Hch in En.
  - exists s1, i. split; [done|]. intros s'' H''. eapply full_stays; [done|exact H''|lia|done].
  - assert (length (chans s1 c) < cmds_cap)%nat as Hlt by lia.
    pose proof (fleet_confirm own s1 i c Hi Hlt) as Hst.
    destruct (IH (Fleet (manager s1) (put c (chans s1 c ++ [i]) (chans s1)) (<[i:=Confirmed c]> (asks s1))))
      as (s' & j & Hs' & H); [|eapply reaches_ok; [|exact Hok]; by eapply rtc_r|done|done|].
    + cbn [chans]. rewrite put_eq, length_app. cbn [length]. lia.
    + exists s', j. split; [|done]. etransitivity; [exact H1|]. by eapply rtc_l.
Qed.

(** C13: A listener whose pool has grown, as the dialer sees it: the connections [l], among
    which [own] is the one whose commands [Accept] receives.  A dial over [own] can always
    be answered.  But the round robin gives every other connection its share of the dials,
    and none of those is ever answered: at most ten are confirmed, and wait for nothing
    until their contexts end; and whatever has happened before, more dials can fill its
    client's channel, after which one that asks over it never returns, its context or
    not. *)
Theorem pooled_dials_lost s c :
  reaches (registered_fleet l) s → c ∈ l → c ≠ own →
  (∀ i : nat, asks s !! i ≠ Some (Answered c)) ∧
  (∀ js : list nat, NoDup js →
     (∀ i, i ∈ js → asks s !! i = Some (Confirmed c) ∨ asks s !! i = Some (Expired c)) →
     (length js <= cmds_cap)%nat) ∧
  (∃ s' (i : nat), reaches s s' ∧ ∀ s'', reaches s' s'' → asks s'' !! i = Some (Asked c)) ∧
  (∀ i : nat, asks s !! i = Some (Asked own) →
     ∃ s', reaches s s' ∧ asks s' !! i = Some (Answered own)).
Proof.
  intros Hs Hc Hne. pose proof (reaches_ok _ _ Hs registered_ok) as Hok. split_and!.
  - intros i Hi. by apply Hne, (fleet_answered _ _ _ Hok c i).
  - intros js Hnd Hjs. etransitivity; [|apply (fleet_room _ _ _ Hok c)].
    apply submseteq_length, NoDup_submseteq; [done|]. intros i Hi.
    destruct (Hjs i Hi) as [H|H]; [by apply (fleet_waiting _ _ _ Hok)|].
    by destruct (fleet_kept _ _ _ Hok _ _ H).
  - by apply dial_hangs.
  - intros i. by apply own_answered.
Qed.

End fleet.

Lemma pooled_dials_lost_witness :
  ∃ s' (i : nat), rtc (fleet_step 0) (registered_fleet [0; 1]%nat) s' ∧
    ∀ s'', rtc (fleet_step 0) s' s'' → asks s'' !! i = Some (Asked 1).
Proof.
  exact (proj1 (proj2 (proj2 (pooled_dials_lost 0 [0; 1]%nat _ 1 (rtc_refl _ _)
    ltac:(by right; left) ltac:(done))))).
Defined.
