(* ===== verification/Shrinking.v ===== *)
(** * What scaling down does to a listener

    [Listen] makes one client, whose session is the first connection of its pool and
    carries the commands [Accept] receives.  The pool grows behind it; when it shrinks it
    takes the first of the connections with the fewest streams. *)
From S2P Require Import Prelude Static MuxConfig PoolConfig Commands Demo GoIO Wire.
From S2P Require Client ClientV2 Metrics MuxConn.
From S2P Require Import Selector Pool Listener Listening.

Section shrink.
Context `{X : Externals} `{Sel : Selector}.
Implicit Types (l : Listener) (s : Pool.st) (h : MuxConn.heap).

(** The connection [m] is over the session [ses], and open. *)
Definition over_session (m : nat) (ses : session) h : Prop :=
  ∃ x, MuxConn.muxes h !! m = Some x ∧ MuxConn.session_ x = ses ∧ MuxConn.closed x = false.

(** It is the pool's first. *)
Definition first_is (m : nat) (ses : session) s : Prop :=
  over_session m ses (hp s) ∧ ∃ rest, connections (pool s) = m :: rest.

(** What a listener's pool does while it does not shrink: it grows with the listener's
    function, and streams are opened and closed. *)
Inductive busy l s : Pool.st → Prop :=
  | busy_grow now tr s' r :
      traces (scaleUp (createPoolConnection l now) s) tr (s', r) → busy l s s'
  | busy_open tr s' r : traces (Pool.OpenStream s) tr (s', r) → busy l s s'
  | busy_close t tr s' r : traces (ClosePTracked t s) tr (s', r) → busy l s s'.

Lemma over_session_metrics m ses h c f :
  over_session m ses h → over_session m ses (MuxConn.on_mux c (MuxConn.set_metrics f) h).
Proof.
  intros (x & Hx & <- & Hc). unfold over_session, MuxConn.on_mux. cbn.
  destruct (decide (c = m)) as [<-|Hne].
  - rewrite lookup_alter_eq, Hx. cbn. by eexists.
  - rewrite lookup_alter_ne by done. by exists x.
Qed.

Lemma over_session_new m ses ses' ct now h :
  over_session m ses h → over_session m ses (MuxConn.NewMuxConn ses' ct now h).2.
Proof.
  intros (x & Hx & H). exists x. split; [|done]. cbn. rewrite lookup_insert_ne; [done|].
  intros E. apply (is_fresh (dom (MuxConn.muxes h))). rewrite E. by apply elem_of_dom_2 with x.
Qed.

Lemma open_over m ses c h :
  over_session m ses h →
  wpM (MuxConn.OpenStream c) h (λ _ h' _, over_session m ses h').
Proof.
  intros Ho. unfold MuxConn.OpenStream, MuxConn.take_stream. rewrite wpM_bind, wpM_get.
  destruct (MuxConn.closed _); [by rewrite wpM_throw|].
  rewrite wpM_bind, wpM_world_call. cbn. intros [e|stream]; cbn; [done|].
  rewrite wpM_bind, wpM_modify. by apply over_session_metrics.
Qed.

Lemma OpenStream_first m ses s :
  first_is m ses s → wpM Pool.OpenStream s (λ _ s' _, first_is m ses s').
Proof.
  intros [Ho Hl]. unfold Pool.OpenStream. rewrite wpM_bind, wpM_get.
  destruct (Select _ _) as [c|]; [|by rewrite wpM_throw]. rewrite wpM_bind, wpM_wrap.
  unfold on_heap. rewrite wpM_zoom. eapply wp_mono; [by apply (open_over m ses c)|].
  cbn. intros tr [h' [t|e]] Hh; cbn; [|done]. by rewrite wpM_bind, wpM_modify.
Qed.

Lemma ClosePTracked_first m ses s t :
  first_is m ses s → wpM (ClosePTracked t) s (λ _ s' _, first_is m ses s').
Proof.
  intros Hs. unfold ClosePTracked. rewrite wpM_bind, wpM_modify, wpM_bind, wpM_get.
  assert (first_is m ses (ps_once_Do t s)) as [Ho Hl]
    by (destruct Hs; unfold ps_once_Do; by destruct (ps_once _)).
  set (c := ps_Conn _). unfold on_heap. rewrite wpM_zoom.
  assert (wpM (MuxConn.CloseTracked c) (hp (ps_once_Do t s)) (λ _ h' _, over_session m ses h')) as H.
  { unfold MuxConn.CloseTracked. rewrite wpM_bind, wpM_modify, wpM_bind, wpM_get, wpM_check.
    cbn. intros e. unfold MuxConn.once_Do. destruct (MuxConn.t_once _); [done|].
    match goal with |- context [MuxConn.t_onClose ?ts] =>
      destruct (over_session_metrics m ses _ (MuxConn.t_onClose ts) Metrics.c_DecrementActiveStreams Ho)
        as (x & Hx & H) end.
    by exists x. }
  refine (wp_mono _ _ _ H _). by intros tr [h' r] Hh.
Qed.

Lemma scaleUp_first m ses l now s :
  first_is m ses s → wpM (scaleUp (createPoolConnection l now)) s (λ _ s' _, first_is m ses s').
Proof.
  intros [Ho [rest Hl]]. unfold scaleUp. rewrite wpM_bind, wpM_get.
  case_decide; [rewrite wpM_throw; split; eauto|].
  destruct (has_factory _); [|rewrite wpM_throw; split; eauto].
  rewrite wpM_bind, wpM_wrap. wpM_use createPoolConnection_spec.
  intros tr s' [c|e]; cbn; [|intros ->; split; eauto].
  intros (ses' & E & ->). pose proof (over_session_new m ses ses' None now _ Ho) as Ho'.
  rewrite E in Ho'. unfold AddConnection. rewrite wpM_bind, wpM_get. cbn.
  case_decide; [rewrite wpM_throw; split; eauto|]. rewrite wpM_modify. split; [done|].
  exists (rest ++ [c]). cbn. by rewrite Hl.
Qed.

Lemma busy_first m ses l s s' : first_is m ses s → rtc (busy l) s s' → first_is m ses s'.
Proof.
  intros Hs H. induction H as [|s1 s2 s3 H12 _ IH]; [done|]. apply IH. clear IH s3.
  destruct H12 as [now tr s2 r Htr|tr s2 r Htr|t tr s2 r Htr].
  - exact (wpM_trace _ _ _ _ _ _ (scaleUp_first m ses l now s1 Hs) Htr).
  - exact (wpM_trace _ _ _ _ _ _ (OpenStream_first m ses s1 Hs) Htr).
  - exact (wpM_trace _ _ _ _ _ _ (ClosePTracked_first m ses s1 t Hs) Htr).
Qed.

Lemma down_loop_idle n i m t (cs : list nat) :
  Forall (λ c, n c = 0) cs → n m = 0 → down_loop n i 0 (Some (m, t)) cs = Some (m, t).
Proof.
  revert i. induction cs as [|c cs IH]; intros i Hl Hm; [done|].
  apply Forall_cons in Hl as [Hc Hl]. cbn. rewrite decide_False by lia. by apply IH.
Qed.

(** Shrinking an idle pool takes its first connection. *)
Lemma scaleDown_first m ses s :
  first_is m ses s → Forall (λ c, num s c = 0) (connections (pool s)) →
  MinConnections (p_config (pool s)) < Z.of_nat (length (connections (pool s))) →
  wpM scaleDown s (λ tr s' r, (∃ a, tr = [ev (CSessionClose ses) a]) ∧ r = Ok () ∧
    connections (pool s) = m :: connections (pool s') ∧ MuxConn.IsClosed (hp s') m = true).
Proof.
  intros [(x & Hx & <- & Hcl) [rest Hl]] Hidle Hmin. unfold scaleDown. rewrite wpM_bind, wpM_get.
  cbn zeta. rewrite decide_False by lia. rewrite Hl in *. apply Forall_cons in Hidle as [Hm Hrest].
  cbn [down_loop]. rewrite decide_True by (by left). rewrite Hm, down_loop_idle by done.
  rewrite wpM_bind, wpM_attempt. unfold on_heap. rewrite wpM_zoom.
  assert (MuxConn.mux (hp s) m = x) as Em by (unfold MuxConn.mux; by apply lookup_total_correct).
  assert (wpM (MuxConn.Close m) (hp s) (λ tr h' _, (∃ a, tr = [ev (CSessionClose (MuxConn.session_ x)) a]) ∧
    MuxConn.IsClosed h' m = true)) as H.
  { unfold MuxConn.Close. rewrite wpM_bind, wpM_get, Em, Hcl, wpM_bind, wpM_modify, wpM_wrap, wpM_check.
    cbn. intros a. split; [by exists a|].
    unfold MuxConn.IsClosed, MuxConn.mux. cbn. by rewrite lookup_total_alt, lookup_alter_eq, Hx. }
  refine (wp_mono _ _ _ H _). intros tr [h' r] [Htr Hc]. cbn. rewrite wpM_modify. cbn.
  rewrite ?app_nil_r, Hl. by split_and!.
Qed.

(** C14: A listener that [Listen] returned with a pool, after any growth of it and any
    streams opened and closed: once all its connections are idle, the first time the pool
    scales down it closes the session of the listener's own client, the one that carries
    the commands [Accept] receives, and keeps the connections whose commands nobody
    receives. *)
Theorem scaleDown_closes_listener srv opts now tr0 l p s tr s' r :
  Forall option_of_package opts → traces (Listen srv opts now ()) tr0 ((), Ok l) →
  useV2 l = true → l_pool l = Some p → rtc (busy l) p s →
  Forall (λ c, num s c = 0) (connections (pool s)) →
  MinConnections (p_config (pool s)) < Z.of_nat (length (connections (pool s))) →
  traces (scaleDown s) tr (s', r) →
  r = Ok () ∧ ∃ c ses a, client l = Some c ∧ ClientV2.Session c = Some ses ∧
    tr = [ev (CSessionClose ses) a] ∧ ∃ m, connections (pool s) = m :: connections (pool s') ∧
    MuxConn.Session (hp p) m = ses ∧ MuxConn.IsClosed (hp s') m = true.
Proof.
  intros Ho Hlisten Hv Hp Hbusy Hidle Hmin Htr.
  destruct (wpM_trace _ _ _ _ _ _ (Listen_spec srv opts now Ho) Hlisten l eq_refl) as (c & Hc & _ & _ & _ & _ & H).
  destruct (H p Hp) as [Hok Hpool]. rewrite Hv in Hpool.
  destruct Hpool as (m & ses & Hconns & _ & Hses & Hm & Hcl).
  assert (first_is m ses p) as Hfirst.
  { split; [|by exists []]. destruct Hok. rewrite Hconns in ok_conns. apply Forall_cons in ok_conns as [[x Hx] _].
    exists x. split; [done|]. unfold MuxConn.Session, MuxConn.IsClosed, MuxConn.mux in *.
    by rewrite (lookup_total_correct _ _ _ Hx) in *. }
  destruct (wpM_trace _ _ _ _ _ _ (scaleDown_first m ses s (busy_first _ _ _ _ _ Hfirst Hbusy) Hidle Hmin) Htr)
    as ([a ->] & -> & Hl & Hclosed).
  split; [done|]. exists c, ses, a. by eauto 10.
Qed.

End shrink.

(** ** Witness: a listener with a pool that has grown by one connection *)

Definition demo_net : world :=
  mkWorld {[3%nat := [demo_accepted]; 4%nat := [[versionV1; resSuccess]];
            5%nat := [demo_accepted]; 6%nat := [[versionV1; resSuccess]]]}
    ioEOF ∅ [] [inr 10%nat; inr 11%nat] [inr 3%nat; inr 4%nat; inr 5%nat; inr 6%nat] 0 [].
Definition demo_pool_opts : list ListenerOption := [WithEnableV2; WithPoolConfig None 0].
Definition demo_listened : list event * (() * result Listener) * world :=
  run script_handler (Listen (X := demo) "server:80" demo_pool_opts 0 ()) demo_net.
Definition demo_l : Listener :=
  match demo_listened.1.2.2 with Ok l => l | Err _ => init_listener "" end.
Definition demo_p : st := default (mkSt demo_pool MuxConn.empty_heap ∅) (l_pool demo_l).
Definition demo_grown : list event * (st * result ()) * world :=
  run script_handler (scaleUp (createPoolConnection (X := demo) demo_l 1) demo_p) demo_listened.2.
Definition demo_shrunk : list event * (st * result ()) * world :=
  run script_handler (scaleDown demo_grown.1.2.1) demo_grown.2.

Lemma demo_grows : rtc (busy (X := demo) demo_l) demo_p demo_grown.1.2.1.
Proof. eapply rtc_once, busy_grow, run_tracesM. Qed.

Lemma scaleDown_closes_listener_witness :
  connections (pool demo_grown.1.2.1) = [0; 1]%nat ∧ connections (pool demo_shrunk.1.2.1) = [1%nat] ∧
  ∃ c ses a, client demo_l = Some c ∧ ClientV2.Session c = Some ses ∧
    demo_shrunk.1.1 = [ev (CSessionClose ses) a].
Proof.
  split; [vm_compute; reflexivity|]. split; [vm_compute; reflexivity|].
  assert (Forall (option_of_package (X := demo)) demo_pool_opts) as Ho by repeat constructor.
  assert (traces (Listen (X := demo) "server:80" demo_pool_opts 0 ()) demo_listened.1.1 ((), Ok demo_l)) as Hl.
  { assert (((), Ok demo_l) = demo_listened.1.2) as -> by (vm_compute; reflexivity).
    exact (run_traces script_handler (Listen (X := demo) "server:80" demo_pool_opts 0 ()) demo_net). }
  assert (Forall (λ c, num demo_grown.1.2.1 c = 0) (connections (pool demo_grown.1.2.1))) as Hidle
    by (vm_compute; repeat constructor).
  destruct (scaleDown_closes_listener (X := demo) (Sel := LeastStreamsSelector) "server:80" demo_pool_opts 0 _
    demo_l demo_p demo_grown.1.2.1 _ demo_shrunk.1.2.1 demo_shrunk.1.2.2 Ho Hl
    ltac:(vm_compute; reflexivity) ltac:(vm_compute; reflexivity) demo_grows Hidle ltac:(vm_compute; reflexivity)
    (run_tracesM script_handler scaleDown demo_grown.1.2.1 demo_grown.2))
    as (_ & c & ses & a & Hc & Hs & Htr & _).
  exact (ex_intro _ c (ex_intro _ ses (ex_intro _ a (conj Hc (conj Hs Htr))))).
Defined.
