(* ===== verification/Lifecycle.v ===== *)
(** * dialer.go: what always holds of a dialer

    The methods of a dialer and the bodies of its goroutines, run one after the other in
    any order and with any answers of the world, keep it well formed: the theorems of
    Dialer.v that assume distinct identifiers apply to every dialer that [NewDialer]
    made, and only registered servers are ever asked for a connection. *)
From S2P Require Import Prelude Static MuxConfig Commands Demo GoIO Wire.
From S2P Require Import Server.
From S2P Require ServerV2.
From S2P Require Import ConnManager.
From S2P Require Import Dialer Dialing.

(** A server of the manager: registered, with a session exactly when it is upgraded. *)
Definition serving (v : ServerV2.ServerV2) : Prop :=
  Server.state (ServerV2.base v) = StateRegistered ∧
  (ServerV2.IsV2 v = true ↔ is_Some (ServerV2.Session v)).

(** Whatever calls a method makes, it keeps [I]. *)
Abbreviation stable I := (keeps (λ _, True) I).

Lemma only_any {A} (p : io A) : only (λ _, True) p.
Proof. induction p as [a|c k IH]; cbn; [done|]. by split. Qed.

Lemma onlyM_any {S A} (m : M S A) : onlyM (λ _, True) m.
Proof. intros s. apply only_any. Qed.

Ltac stable_walk keep := keeps_walk ltac:(exact I) ltac:(keep);
  try first [apply only_any | apply onlyM_any].

Lemma wpM_both {S A} (m : M S A) s Q Q' :
  wpM m s Q → wpM m s Q' → wpM m s (λ tr s' r, Q tr s' r ∧ Q' tr s' r).
Proof. rewrite !wpM_traces. auto. Qed.

Section servers.
Context `{X : Externals}.

(** The senders and [AcceptStream] do not change their receiver. *)
Lemma stable_via {A} (m : M Server A) (v : ServerV2.ServerV2) :
  stable (λ b, b = ServerV2.base v) m → stable (λ v', v' = v) (ServerV2.via m).
Proof.
  intros Hm s ->. rewrite ServerV2.wpM_via. eapply wpM_mono; [by apply Hm|].
  intros tr b r [H ->]. split; [done|]. by destruct v.
Qed.

Lemma SendConnectCommand_stable (s : Server) i : stable (λ s', s' = s) (Server.SendConnectCommand i).
Proof. unfold Server.SendConnectCommand, sendRequest, readMsg, conn_Write. stable_walk idtac. Qed.

Lemma SendCustomEvent_stable (s : Server) name data :
  stable (λ s', s' = s) (Server.SendCustomEvent name data).
Proof. unfold Server.SendCustomEvent, sendRequest, readMsg, conn_Write. stable_walk idtac. Qed.

Lemma v2_SendConnectCommand_stable (v : ServerV2.ServerV2) i :
  stable (λ v', v' = v) (ServerV2.SendConnectCommand i).
Proof.
  pose proof (stable_via _ v (SendConnectCommand_stable (ServerV2.base v) i)).
  unfold ServerV2.SendConnectCommand, ServerV2.SendConnectCommandV2, sendRequest, readMsg, conn_Write.
  stable_walk idtac.
Qed.

Lemma v2_SendCustomEvent_stable (v : ServerV2.ServerV2) name data :
  stable (λ v', v' = v) (ServerV2.SendCustomEvent name data).
Proof. apply stable_via, SendCustomEvent_stable. Qed.

Lemma AcceptStream_stable (v : ServerV2.ServerV2) : stable (λ v', v' = v) ServerV2.AcceptStream.
Proof. unfold ServerV2.AcceptStream, world_call. stable_walk idtac. Qed.

(** ** The manager and its servers *)

Definition all_serving (bs : cmst (S := store)) : Prop :=
  ∀ c, c ∈ connections bs.1 → ∃ v, bs.2 !! c = Some v ∧ serving v.

Record cm_ok (bs : cmst (S := store)) : Prop := CmOk {
  cm_unique : unique_ids (I := servers_conn) bs;
  cm_serving : all_serving bs
}.

(** Two places of the manager hold different pointers. *)
Lemma places_differ bs (i j c : nat) :
  unique_ids (I := servers_conn) bs →
  connections bs.1 !! i = Some c → connections bs.1 !! j = Some c → i = j.
Proof.
  intros Hu Hi Hj. apply (NoDup_lookup _ i j (ID (ServerConn := servers_conn) bs.2 c) Hu);
    by rewrite list_lookup_fmap, ?Hi, ?Hj.
Qed.

Lemma cm_ok_insert b (s : store) c v :
  cm_ok (b, s) → (∀ v', s !! c = Some v' → v = v') → cm_ok (b, <[c := v]> s).
Proof.
  intros [Hu Hs] Hv. assert (∀ c', c' ∈ connections b → <[c := v]> s !! c' = s !! c') as H.
  { intros c' Hin. destruct (decide (c = c')) as [<-|]; [|by apply lookup_insert_ne].
    destruct (Hs c Hin) as (v' & Hv' & _). cbn in Hv'. by rewrite lookup_insert_eq, Hv', (Hv v' Hv'). }
  split.
  - unfold unique_ids in *. cbn in *. erewrite list_fmap_ext; [exact Hu|].
    intros k c' Hk. cbn. unfold server_at.
    by rewrite !lookup_total_alt, H by by eapply list_elem_of_lookup_2.
  - intros c' Hin. cbn in *. rewrite H by done. by apply Hs.
Qed.

(** A method that keeps its receiver keeps the manager. *)
Lemma on_server_stable {A} c (m : M ServerV2.ServerV2 A) b (s : store) :
  (∀ v, stable (λ v', v' = v) m) → cm_ok (b, s) →
  wpM (on_server c m) s (λ _ s' _, cm_ok (b, s')).
Proof.
  intros Hm Hok. rewrite wpM_on_server. eapply wpM_mono; [by apply Hm|].
  intros tr v r [_ ->]. apply cm_ok_insert; [done|]. intros v' Hv'. by apply lookup_total_correct.
Qed.

(** Closing a server changes that server only. *)
Lemma close_others c bs :
  wpM (on_store (CloseConn (ServerConn := servers_conn) c)) bs (λ _ bs' _,
    bs'.1 = bs.1 ∧ (∀ c', c' ≠ c → bs'.2 !! c' = bs.2 !! c')).
Proof.
  destruct bs as [b s]. unfold on_store. rewrite wpM_zoom.
  assert (wpM (CloseConn (ServerConn := servers_conn) c) s (λ _ s' _, ∀ c', c' ≠ c → s' !! c' = s !! c')) as H.
  { cbn [CloseConn servers_conn]. rewrite wpM_on_server. wpM_use (ServerV2.v2_Close_spec (s !!! c)).
    intros tr v r _ c' Hne. by apply lookup_insert_ne. }
  refine (wp_mono _ _ _ H _). intros tr [s' r] Hs. by split.
Qed.

Lemma removing_ok i bs :
  cm_ok bs → wpM (RemoveConnection (I := servers_conn) i) bs (λ _ bs' _, cm_ok bs').
Proof.
  intros [Hu Hs].
  eapply wpM_mono; [apply wpM_both with (Q' := λ _ bs' _, all_serving bs'); [by apply RemoveConnection_unique|]
                  |intros tr bs' r []; by split].
  unfold RemoveConnection. rewrite wpM_bind, wpM_get. destruct bs as [b s].
  destruct (find_id _ _ _) as [[k c]|] eqn:E; [|by rewrite wpM_ret].
  apply list_find_Some in E as (Hk & _ & _). rewrite wpM_bind, wpM_attempt.
  wpM_use close_others. intros tr1 [b1 s1] r1 [Hb Ho]. cbn in Hb, Ho. subst b1.
  unfold set_connections. rewrite wpM_modify. cbn. intros c' Hc'.
  assert (∃ j, j ≠ k ∧ connections b !! j = Some c') as (j & Hj & Hl).
  { apply elem_of_app in Hc' as [[j Hj]%list_elem_of_lookup|[j Hj]%list_elem_of_lookup].
    - apply lookup_take_Some in Hj as [? ?]. exists j. split; [lia|done].
    - rewrite lookup_drop in Hj. exists (k + 1 + j)%nat. split; [lia|done]. }
  rewrite Ho; [apply Hs; by eapply list_elem_of_lookup_2|].
  intros ->. apply Hj. by apply (places_differ (b, s) _ _ c).
Qed.

Lemma adding_ok c bs :
  cm_ok bs → c ∉ connections bs.1 → (∃ v, bs.2 !! c = Some v ∧ serving v) →
  wpM (AddConnection (I := servers_conn) c) bs (λ _ bs' _, cm_ok bs').
Proof.
  intros [Hu Hs] Hc Hv.
  eapply wpM_mono; [apply wpM_both with (Q' := λ _ bs' _, all_serving bs'); [by apply AddConnection_unique|]
                  |intros tr bs' r []; by split].
  unfold AddConnection. rewrite wpM_bind, wpM_get. destruct bs as [b s]. cbn [fst snd] in *.
  destruct (find_id _ _ _) as [[k old]|] eqn:E.
  - apply list_find_Some in E as (Hk & _ & _). rewrite wpM_bind, wpM_attempt.
    wpM_use close_others. intros tr1 [b1 s1] r1 [Hb Ho]. cbn in Hb, Ho. subst b1.
    unfold set_connections. rewrite wpM_modify. cbn.
    assert (c ≠ old) as Hne by (intros ->; by apply Hc, (list_elem_of_lookup_2 _ k)).
    intros c' [j Hj]%list_elem_of_lookup.
    apply list_lookup_insert_Some in Hj as [(-> & -> & _)|[Hjk Hj]]; [by rewrite Ho|].
    rewrite Ho; [apply Hs; by eapply list_elem_of_lookup_2|].
    intros ->. apply Hjk. by apply (places_differ (b, s) _ _ old).
  - unfold set_connections. rewrite wpM_modify. cbn.
    intros c' [Hin| ->%list_elem_of_singleton]%elem_of_app; [by apply Hs|done].
Qed.

End servers.

(** ** The dialer *)

(** Distinct identifiers, only registered servers, and a channel of its own for every
    pending request, below the number the next one gets. *)
Record dialer_ok `{X : Externals} (d : Dialer) : Prop := DialerOk {
  d_cm : cm_ok (cm d, servers d);
  d_below i ch : requests d !! i = Some ch → (ch < next_ch d)%nat;
  d_own i j ch : requests d !! i = Some ch → requests d !! j = Some ch → i = j
}.

Section dialer.
Context `{X : Externals}.
Implicit Types (d : Dialer).

Lemma stable_intro {S A} (I : S → Prop) (m : M S A) :
  (∀ s, I s → wpM m s (λ _ s' _, I s')) → stable I m.
Proof.
  intros Hm s Hs. eapply wpM_mono; [by apply Hm|]. intros tr s' r H. split; [|done].
  by apply Forall_true.
Qed.

Lemma set_cm_ok cs d : dialer_ok d → cm_ok cs → dialer_ok (set_cm cs d).
Proof. intros [H1 H2 H3] Hcs. split; [by destruct cs|done..]. Qed.

Lemma stable_on_cm {A} (m : M (cmst (S := store)) A) :
  (∀ bs, cm_ok bs → wpM m bs (λ _ bs' _, cm_ok bs')) → stable dialer_ok (on_cm m).
Proof.
  intros Hm. apply stable_intro. intros d Hd. rewrite wpM_on_cm.
  eapply wpM_mono; [by apply Hm; destruct Hd|]. intros tr bs r H. by apply set_cm_ok.
Qed.

Lemma stable_on_server {A} c (m : M ServerV2.ServerV2 A) :
  (∀ v, stable (λ v', v' = v) m) → stable dialer_ok (on_servers (on_server c m)).
Proof.
  intros Hm. apply stable_intro. intros d Hd. rewrite wpM_on_servers.
  eapply wpM_mono; [apply (on_server_stable c m (cm d)); [done|by destruct Hd]|].
  intros tr s r H. by apply set_cm_ok.
Qed.

Lemma remove_conn_stable c : stable dialer_ok (remove_conn c).
Proof. unfold remove_conn. stable_walk idtac. apply stable_on_cm. intros bs. apply removing_ok. Qed.

Lemma addRequest_stable i : stable dialer_ok (addRequest i).
Proof.
  apply stable_intro. intros d [H1 H2 H3]. unfold addRequest.
  rewrite wpM_bind, wpM_get, wpM_bind, wpM_modify, wpM_ret.
  assert (∀ j ch, <[i := next_ch d]> (requests d) !! j = Some ch →
    j = i ∧ ch = next_ch d ∨ j ≠ i ∧ requests d !! j = Some ch) as H.
  { intros j ch [[<- <-]|[Hne Hj]]%lookup_insert_Some; auto. }
  split; cbn; [done|..].
  - intros j ch [[-> ->]|[_ Hj]]%H; [lia|]. specialize (H2 _ _ Hj). lia.
  - intros j k ch [[-> ->]|[_ Hj]]%H [[-> Hch]|[_ Hk]]%H; [done|..]; subst.
    + specialize (H2 _ _ Hk). lia.
    + specialize (H2 _ _ Hj). lia.
    + by eapply H3.
Qed.

Lemma removeRequest_stable i : stable dialer_ok (removeRequest i).
Proof.
  apply stable_intro. intros d [H1 H2 H3]. wpM_use removeRequest_spec.
  intros tr d' r (_ & _ & Hr & Hc & Hs & Hn).
  split; rewrite ?Hr, ?Hc, ?Hs, ?Hn; [done|..].
  - intros j ch [_ Hj]%lookup_delete_Some. by eapply H2.
  - intros j k ch [_ Hj]%lookup_delete_Some [_ Hk]%lookup_delete_Some. by eapply H3.
Qed.

Lemma GetConn_stable : stable dialer_ok GetConn_.
Proof.
  apply stable_intro. intros d Hd. unfold GetConn_. rewrite wpM_bind, wpM_get.
  destruct (GetConn (cm d)) as [[c b]|] eqn:E; [|by rewrite wpM_throw].
  rewrite wpM_bind, wpM_modify, wpM_ret. apply set_cm_ok; [done|].
  destruct Hd as [[Hu Hs] _ _]. apply GetConn_connections in E.
  split; unfold unique_ids, all_serving in *; cbn in *; by rewrite E.
Qed.

Lemma registered_conn_stable : stable dialer_ok registered_conn.
Proof. pose proof GetConn_stable. unfold registered_conn. stable_walk idtac. Qed.

Lemma DialContext_stable : stable dialer_ok DialContext.
Proof.
  pose proof registered_conn_stable. pose proof addRequest_stable. pose proof removeRequest_stable.
  pose proof remove_conn_stable.
  assert (∀ c i, stable dialer_ok (on_servers (ConnectCommand_ (ServerConn := servers_conn) c i)))
    by (intros; apply stable_on_server; intros v; apply v2_SendConnectCommand_stable).
  unfold DialContext. stable_walk idtac.
Qed.

Lemma SendEvent_stable name data : stable dialer_ok (SendEvent name data).
Proof.
  pose proof registered_conn_stable. pose proof remove_conn_stable.
  assert (∀ c, stable dialer_ok (on_servers (CustomEvent_ (ServerConn := servers_conn) c name data)))
    by (intros; apply stable_on_server; intros v; apply v2_SendCustomEvent_stable).
  unfold SendEvent. stable_walk idtac.
Qed.

Lemma handleV2Stream_stable h : stable dialer_ok (handleV2Stream h).
Proof.
  pose proof removeRequest_stable.
  unfold handleV2Stream, or_close_stream, close_stream. stable_walk idtac.
Qed.

Lemma v2_goroutine_stable fuel c : stable dialer_ok (v2_goroutine fuel c).
Proof.
  assert (stable dialer_ok (accept_loop fuel c)).
  { assert (stable dialer_ok (on_servers (on_server c ServerV2.AcceptStream)))
      by (apply stable_on_server; intros; apply AcceptStream_stable).
    induction fuel as [|fuel IH]; cbn [accept_loop]; unfold go; stable_walk idtac. }
  assert (∀ i, stable dialer_ok (on_cm (RemoveConnection (I := servers_conn) i)))
    by (intros; apply stable_on_cm; intros; by apply removing_ok).
  unfold v2_goroutine, go. stable_walk idtac.
Qed.

(** A server whose [Process] succeeded and registered it serves. *)
Lemma Process_serving h opts :
  wpM ServerV2.Process (ServerV2.NewServerV2 h opts []) (λ _ v' r,
    r = Ok () → Server.state (ServerV2.base v') = StateRegistered → serving v').
Proof.
  destruct (decide (Server.state (ServerV2.base (ServerV2.NewServerV2 h opts [])) = StateConnected)) as [Hs|Hs].
  2: { unfold ServerV2.Process. by rewrite wpM_bind, wpM_get, decide_True, wpM_throw. }
  eapply wpM_mono; [by apply ServerV2.v2_Process_spec|].
  intros tr v' r Hpost -> Hr. split; [done|].
  inversion Hpost as [| ? ? ? ? ? ? ? Hm | |]; subst.
  - cbn. split; [done|]. by intros [? [=]].
  - inversion Hm; subst. cbn. split; [by eexists|done].
Qed.

(** What [handleConnection] does with its server, when the server is not yet managed. *)
Lemma settle_ok h c r d :
  dialer_ok d → c ∉ connections (cm d) →
  (r = Ok () → State_ (ServerConn := servers_conn) (servers d) c = StateRegistered →
   ∃ v, servers d !! c = Some v ∧ serving v) →
  wpM (settle h c r) d (λ _ d' _, dialer_ok d').
Proof.
  intros Hd Hc Hv. pose proof removeRequest_stable as Hrem.
  unfold settle. rewrite wpM_bind, wpM_get. destruct r as [[]|e]; [|by rewrite wpM_ret].
  assert (∀ g, State_ (ServerConn := servers_conn) (servers d) c = StateRegistered →
    wpM (on_cm (AddConnection c);; go g) d (λ _ d' _, dialer_ok d')) as Hreg.
  { intros g Hst. rewrite wpM_bind, wpM_on_cm.
    eapply wpM_mono; [apply (adding_ok c (cm d, servers d)); [by destruct Hd|done|by apply Hv]|].
    intros tr bs [[]|e] Hbs; [|by apply set_cm_ok]. wpM_use go_spec.
    intros tr' d' r (_ & -> & _). by apply set_cm_ok. }
  destruct (State_ _ c); try by rewrite wpM_ret.
  - rewrite wpM_bind, wpM_lift. cbn [wp call_]. intros [].
    destruct (ServerV2.IsV2 _); by apply Hreg.
  - assert (stable dialer_ok (req ← removeRequest (ID (ServerConn := servers_conn) (servers d) c);
      match req with
      | None => mret ()
      | Some ch => sent ← lift (call_ (CDeliver ch h));
                   if sent : bool then _ ← lift (call_ CCloseDone); mret () else mret ()
      end)) as H by stable_walk idtac.
    eapply wpM_mono; [by apply H|]. by intros tr d' r [_ ?].
Qed.

Lemma handleConnection_stable h : stable dialer_ok (handleConnection h).
Proof.
  apply stable_intro. intros d Hd. unfold handleConnection. rewrite wpM_bind.
  wpM_use go_spec. intros tr0 d0 r0 (-> & -> & ->). cbn beta iota.
  rewrite wpM_bind, wpM_get, wpM_bind, wpM_new_server. set (c := fresh (dom (servers d))).
  assert (c ∉ dom (servers d)) as Hfresh by apply is_fresh.
  assert (c ∉ connections (cm d)) as Hc.
  { intros Hin. destruct (cm_serving _ (d_cm _ Hd) c Hin) as (v & Hv & _).
    by apply Hfresh, elem_of_dom_2 with v. }
  rewrite wpM_bind, wpM_attempt, wpM_on_servers, wpM_on_server.
  cbn [cm servers set_cm fst snd]. rewrite lookup_total_insert_eq.
  eapply wpM_mono; [apply Process_serving|]. intros tr v r Hv.
  rewrite insert_insert_eq. set (d1 := set_cm (cm d, <[c := v]> (servers d)) _).
  assert (dialer_ok d1) as Hd1.
  { apply set_cm_ok; [apply set_cm_ok; [done|]|]; (apply cm_ok_insert; [by destruct Hd|]);
      intros v' Hv'; destruct Hfresh; by apply elem_of_dom_2 with v'. }
  pose proof (settle_ok h c r d1 Hd1 Hc) as H. unfold settle in H. rewrite wpM_bind, wpM_get in H.
  rewrite wpM_bind, wpM_get, wpM_bind. eapply wpM_mono; [apply H|].
  - intros Hr Hst. exists v. cbn in *. split; [by rewrite lookup_insert_eq|]. apply Hv; [done|].
    unfold server_at in Hst. by rewrite lookup_total_insert_eq in Hst.
  - intros tr2 d2 [[]|e] Hd2; [|done]. rewrite wpM_bind, wpM_lift. cbn [wp call_]. intros [].
    by rewrite wpM_ret.
Qed.

(** The methods, and the bodies of the goroutines they start, in any order. *)
Inductive dialer_step d : Dialer → Prop :=
  | step_dial tr d' r : traces (DialContext d) tr (d', r) → dialer_step d d'
  | step_event name data tr d' r : traces (SendEvent name data d) tr (d', r) → dialer_step d d'
  | step_incoming h tr d' r : traces (handleConnection h d) tr (d', r) → dialer_step d d'
  | step_stream h tr d' r : traces (handleV2Stream h d) tr (d', r) → dialer_step d d'
  | step_gone_v1 c tr d' r : traces (v1_goroutine c d) tr (d', r) → dialer_step d d'
  | step_gone_v2 fuel c tr d' r : traces (v2_goroutine fuel c d) tr (d', r) → dialer_step d d'
  | step_start tr d' r : traces (Start d) tr (d', r) → dialer_step d d'.

Lemma stable_traces {S A} (I : S → Prop) (m : M S A) s tr s' r :
  stable I m → I s → traces (m s) tr (s', r) → I s'.
Proof. intros Hm Hs Htr. by destruct (wpM_trace _ _ _ _ _ _ (Hm s Hs) Htr). Qed.

Lemma dialer_step_ok d d' : dialer_ok d → dialer_step d d' → dialer_ok d'.
Proof.
  intros Hd [tr d1 r H|n p tr d1 r H|h tr d1 r H|h tr d1 r H|c tr d1 r H|fuel c tr d1 r H|tr d1 r H];
    revert H; apply stable_traces; try done.
  - apply DialContext_stable.
  - apply SendEvent_stable.
  - apply handleConnection_stable.
  - apply handleV2Stream_stable.
  - apply remove_conn_stable.
  - apply v2_goroutine_stable.
  - unfold Start, go, wrap. stable_walk idtac. intros s [H1 H2 H3]. by split.
Qed.

(** The package's options. *)
Inductive option_of_dialer : DialerOption → Prop :=
  | dopt_auth auth : option_of_dialer (WithUserPassAuth auth)
  | dopt_tls c : option_of_dialer (WithDialerTLSConfig c).

Lemma NewDialer_ok listen opts : Forall option_of_dialer opts → dialer_ok (NewDialer listen opts).
Proof.
  intros Ho. unfold NewDialer.
  assert (dialer_ok (mkDialer listen None [] New ∅ ∅ 0 false)) as H0.
  { split; cbn; [split|..].
    - apply NoDup_nil_2.
    - intros c Hc. by apply elem_of_nil in Hc.
    - intros i ch H. by rewrite lookup_empty in H.
    - intros i j ch H. by rewrite lookup_empty in H. }
  revert H0. generalize (mkDialer listen None [] New ∅ ∅ 0 false).
  induction Ho as [|o opts Ho _ IH]; intros d Hd; [done|]. apply IH.
  destruct Ho, Hd; by split.
Qed.

(** C15: Every dialer that [NewDialer] made, after any of its methods and goroutines in any
    order and with any answers of the network, until it is stopped: the manager's servers
    have distinct identifiers, all are registered, and are upgraded exactly when they have
    a session; every pending request has a channel of its own.  So a dial is never refused
    because of the state of the server the round robin gave it: when it ends at once,
    the manager has no connection at all, or the round robin's index panicked. *)
Theorem dialer_well_formed listen opts d :
  Forall option_of_dialer opts → rtc dialer_step (NewDialer listen opts) d →
  dialer_ok d ∧
  ∀ d' r, traces (DialContext d) [] (d', r) → r = Err RuntimePanic ∨ connections (cm d) = [].
Proof.
  intros Ho Hd. assert (dialer_ok d) as Hok.
  { pose proof (NewDialer_ok listen opts Ho) as H0. revert H0.
    induction Hd as [|d1 d2 d3 H12 _ IH]; [done|]. intros H. by eapply IH, dialer_step_ok. }
  split; [done|]. intros d' r Htr.
  pose proof (wpM_trace _ _ _ _ _ _ (DialContext_spec d (cm_unique _ (d_cm _ Hok))) Htr) as H.
  unfold dial_context_post in H. destruct (GetConn (cm d)) as [[oc b]|] eqn:E; [|left; by destruct H as (_ & _ & ->)].
  destruct oc as [c|]; [right|].
  - assert (c ∈ connections (cm d)) as Hin.
    { unfold GetConn in E. destruct (connections (cm d)) as [|x l]; [done|].
      destruct (_ !! _) as [y|] eqn:Ey; cbn in E; [|done]. injection E as -> _.
      by eapply list_elem_of_lookup_2. }
    destruct (cm_serving _ (d_cm _ Hok) c Hin) as (v & Hv & Hst & _). cbn in Hv.
    rewrite decide_True in H.
    + by destruct H as (i & tr1 & rx & tx & tr2 & [=] & _).
    + unfold registered. cbn. unfold server_at. by rewrite (lookup_total_correct _ _ _ Hv).
  - right. unfold GetConn in E. destruct (connections (cm d)); [done|]. by destruct (_ !! _).
Qed.

End dialer.

(** ** Witness: the dialer with a registered connection, after a dial over it *)

Lemma demo_dialed_reachable : rtc (dialer_step (X := demo)) demo_dialer demo_dialed.1.2.1.
Proof.
  eapply rtc_l.
  - destruct (script_traces (handleConnection (X := demo) 3%nat) (demo_dialer, one_conn 3%nat
      [take 3 demo_register_bytes; take 2 (drop 3 demo_register_bytes);
       drop 5 demo_register_bytes; [versionV1; resSuccess]])) as (tr & r & Htr).
    eapply step_incoming. exact Htr.
  - apply rtc_once. eapply step_dial.
    exact (run_tracesM script_handler (DialContext (X := demo)) demo_registered.1 demo_dial_world).
Qed.

Lemma dialer_well_formed_witness :
  length (connections (cm demo_dialed.1.2.1)) = 1%nat ∧ dialer_ok (X := demo) demo_dialed.1.2.1.
Proof.
  split; [vm_compute; reflexivity|].
  exact (proj1 (dialer_well_formed (X := demo) "127.0.0.1:0" [] demo_dialed.1.2.1
    (Forall_nil_2 _) demo_dialed_reachable)).
Defined.
